(** * bcsat: Boolean circuits, their rewriting and their CNF translation

    A shallow embedding of [gate.cc] and of the driver [bc2cnf.cc].

    Gates live in a heap indexed by their address; a [ChildAssoc] edge is
    identified by a number and is stored, together with the gate at its far
    end, in the child list of its parent and in the parent list of its
    child, in the order of the [next_child] / [next_parent] pointers.
    Functions that may stop the program ([internal_error], a failing
    [assert], a null pointer) return a [result]. *)

From stdpp Require Import gmap strings list pretty.
From Stdlib Require Import ZArith Lia Bool Sorted.

Open Scope Z_scope.

(** ** Machine integers *)

(** [unsigned int] is 32 bits wide; arithmetic on it wraps. *)
Definition u32 (x : Z) : Z := x mod 2 ^ 32.

Definition UINT_MAX : Z := 2 ^ 32 - 1.

(** ** Results of functions that may stop the program *)

Inductive error : Type :=
| InternalError   (* internal_error(...) *)
| AssertFailed    (* assert(...) *)
| NullPointer     (* a null [children] / [next_child] pointer is followed *)
| OutOfFuel.      (* the model's recursion bound was reached *)

Inductive result (A : Type) : Type :=
| Ok (a : A)
| Err (e : error).

Arguments Ok {A} a.
Arguments Err {A} e.

Definition rbind {A B : Type} (r : result A) (k : A -> result B) : result B :=
  match r with
  | Ok a => k a
  | Err e => Err e
  end.

Declare Scope result_scope.
Delimit Scope result_scope with res.
Notation "'do' x <- r ; k" := (rbind r (fun x => k))
  (at level 10, x pattern, r at level 100, k at level 200) : result_scope.
Open Scope result_scope.

Definition from_option {A : Type} (e : error) (o : option A) : result A :=
  match o with
  | Some a => Ok a
  | None => Err e
  end.

Definition rassert (b : bool) : result unit :=
  if b then Ok tt else Err AssertFailed.

(** ** Gates *)

(** [Gate::Type], in the order of the enumeration (the order of
    [Gate::typeNames]). *)
Inductive GateType : Type :=
| tEQUIV | tOR | tAND | tEVEN | tODD | tITE | tNOT | tTRUE | tFALSE | tVAR
| tTHRESHOLD | tATLEAST | tREF | tUNDEF | tDELETED.

#[global] Instance GateType_eq_dec : EqDecision GateType.
Proof. solve_decision. Defined.

(** The integer value of the enumerator, used by [type < other->type]. *)
Definition type_rank (t : GateType) : Z :=
  match t with
  | tEQUIV => 0 | tOR => 1 | tAND => 2 | tEVEN => 3 | tODD => 4 | tITE => 5
  | tNOT => 6 | tTRUE => 7 | tFALSE => 8 | tVAR => 9 | tTHRESHOLD => 10
  | tATLEAST => 11 | tREF => 12 | tUNDEF => 13 | tDELETED => 14
  end.

Definition is_type (t u : GateType) : bool := bool_decide (t = u).

(** A handle is a [NameHandle] carrying a name, or a handle of another
    kind. *)
Inductive Handle : Type :=
| NameHandle (name : string)
| OtherHandle.

Record Gate : Type := mkGate {
  type : GateType;
  index : Z;                      (* unsigned int, UINT_MAX until installed *)
  children : list (nat * nat);    (* (edge, child gate), next_child order *)
  parents : list (nat * nat);     (* (edge, parent gate), next_parent order *)
  handles : list Handle;
  determined : bool;
  value : bool;
  temp : Z;                       (* int *)
  tmin : Z;                       (* unsigned int *)
  tmax : Z;                       (* unsigned int *)
  mir_pos : bool;
  mir_neg : bool;
  in_pstack : bool
}.

(** Field updates. *)
Definition set_type (t : GateType) (g : Gate) : Gate :=
  mkGate t (index g) (children g) (parents g) (handles g) (determined g)
         (value g) (temp g) (tmin g) (tmax g) (mir_pos g) (mir_neg g)
         (in_pstack g).
Definition set_index (i : Z) (g : Gate) : Gate :=
  mkGate (type g) i (children g) (parents g) (handles g) (determined g)
         (value g) (temp g) (tmin g) (tmax g) (mir_pos g) (mir_neg g)
         (in_pstack g).
Definition set_children (cs : list (nat * nat)) (g : Gate) : Gate :=
  mkGate (type g) (index g) cs (parents g) (handles g) (determined g)
         (value g) (temp g) (tmin g) (tmax g) (mir_pos g) (mir_neg g)
         (in_pstack g).
Definition set_parents (ps : list (nat * nat)) (g : Gate) : Gate :=
  mkGate (type g) (index g) (children g) ps (handles g) (determined g)
         (value g) (temp g) (tmin g) (tmax g) (mir_pos g) (mir_neg g)
         (in_pstack g).
Definition set_handles (hs : list Handle) (g : Gate) : Gate :=
  mkGate (type g) (index g) (children g) (parents g) hs (determined g)
         (value g) (temp g) (tmin g) (tmax g) (mir_pos g) (mir_neg g)
         (in_pstack g).
(** [determined = true; value = v]. *)
Definition set_value (v : bool) (g : Gate) : Gate :=
  mkGate (type g) (index g) (children g) (parents g) (handles g) true
         v (temp g) (tmin g) (tmax g) (mir_pos g) (mir_neg g)
         (in_pstack g).
Definition set_temp (t : Z) (g : Gate) : Gate :=
  mkGate (type g) (index g) (children g) (parents g) (handles g) (determined g)
         (value g) t (tmin g) (tmax g) (mir_pos g) (mir_neg g)
         (in_pstack g).
Definition set_tmin (t : Z) (g : Gate) : Gate :=
  mkGate (type g) (index g) (children g) (parents g) (handles g) (determined g)
         (value g) (temp g) t (tmax g) (mir_pos g) (mir_neg g)
         (in_pstack g).
Definition set_tmax (t : Z) (g : Gate) : Gate :=
  mkGate (type g) (index g) (children g) (parents g) (handles g) (determined g)
         (value g) (temp g) (tmin g) t (mir_pos g) (mir_neg g)
         (in_pstack g).
Definition set_mir_pos (b : bool) (g : Gate) : Gate :=
  mkGate (type g) (index g) (children g) (parents g) (handles g) (determined g)
         (value g) (temp g) (tmin g) (tmax g) b (mir_neg g)
         (in_pstack g).
Definition set_mir_neg (b : bool) (g : Gate) : Gate :=
  mkGate (type g) (index g) (children g) (parents g) (handles g) (determined g)
         (value g) (temp g) (tmin g) (tmax g) (mir_pos g) b
         (in_pstack g).
Definition set_in_pstack (b : bool) (g : Gate) : Gate :=
  mkGate (type g) (index g) (children g) (parents g) (handles g) (determined g)
         (value g) (temp g) (tmin g) (tmax g) (mir_pos g) (mir_neg g) b.

(** [Gate::init] after the constructor's initialisers: a gate of type [t]
    that is not linked to anything yet.  The constructors leave [tmin],
    [tmax], [mir_pos] and [mir_neg] uninitialised; the model zeroes them. *)
Definition new_Gate (t : GateType) : Gate :=
  mkGate t UINT_MAX [] [] [] false false 0 0 0 false false false.

(** The gates of a circuit by address. *)
Abbreviation heap := (gmap nat Gate).

(** Dereferencing a gate pointer. *)
Definition deref (h : heap) (a : nat) : result Gate :=
  from_option NullPointer (h !! a).

(** The gates at the far end of the child edges, in order. *)
Definition child_gates (g : Gate) : list nat := map snd (children g).

(** [children->child], [children->next_child->child], ... *)
Definition nth_child (g : Gate) (n : nat) : result nat :=
  from_option NullPointer (child_gates g !! n).

(** [Gate::get_first_name]: the name of the first [NameHandle], if any. *)
Fixpoint first_name (hs : list Handle) : option string :=
  match hs with
  | [] => None
  | NameHandle name :: _ => Some name
  | OtherHandle :: hs' => first_name hs'
  end.

Definition get_first_name (g : Gate) : option string := first_name (handles g).

(** [Gate::count_children], [Gate::count_parents]: an [unsigned int]
    counter incremented once per edge. *)
Definition count_children (g : Gate) : Z := u32 (Z.of_nat (length (children g))).
Definition count_parents (g : Gate) : Z := u32 (Z.of_nat (length (parents g))).

(** Modelled from the spec: [Gate::is_commutative] (gate.hh is not among
    the sources).  The spec lists OR, AND, EQUIV, ODD, EVEN and THRESHOLD as
    commutative; ATLEAST is commutative too, since [cnf_normalize] hands
    child edges to new ATLEAST gates with [change_parent], which requires a
    commutative new parent. *)
Definition is_commutative (g : Gate) : bool :=
  match type g with
  | tEQUIV | tOR | tAND | tEVEN | tODD | tTHRESHOLD | tATLEAST => true
  | _ => false
  end.

(** ** Structural hashing: [Gate::hash_value] and [Gate::comp] *)

(** Random bits, the table [rtab] of gate.cc. *)
Definition rtab : list Z := [
  0xAEAA35B8; 0x65632E16; 0x155EDBA9; 0x01349B39;
  0x8EB8BD97; 0x8E4C5367; 0x8EA78B35; 0x2B1B4072;
  0xC1163893; 0x269A8642; 0xC79D7F6D; 0x6A32DEA0;
  0xD4D2DA56; 0xD96D4F47; 0x47B5F48A; 0x2587C6BF;
  0x642B71D8; 0x5DBBAF58; 0x5C178169; 0xA16D9279;
  0x75CDA063; 0x291BC48B; 0x01AC2F47; 0x5416DF7C;
  0x45307514; 0xB3E1317B; 0xE1C7A8DE; 0x3ACDAC96;
  0x11B96831; 0x32DE22DD; 0x6A1DA93B; 0x58B62381;
  0x283810E2; 0xBC30E6A6; 0x8EE51705; 0xB06E8DFB;
  0x729AB12A; 0xA9634922; 0x1A6E8525; 0x49DD4E19;
  0xE5DB3D44; 0x8C5B3A02; 0xEBDE2864; 0xA9146D9F;
  0x736D2CB4; 0xF5229F42; 0x712BA846; 0x20631593;
  0x89C02603; 0xD5A5BF6A; 0x823F4E18; 0x5BE5DEFF;
  0x1C4EBBFA; 0x5FAB8490; 0x6E559B0C; 0x1FE528D6;
  0xB3198066; 0x4A965EB5; 0xFE8BB3D5; 0x4D2F6234;
  0x5F125AA4; 0xBCC640FA; 0x4F8BC191; 0xA447E537;
  0xAC474D3C; 0x703BFA2C; 0x617DC0E7; 0xF26299D7;
  0xC90FD835; 0x33B71C7B; 0x6D83E138; 0xCBB1BB14;
  0x029CF5FF; 0x7CBD093D; 0x4C9825EF; 0x845C4D6D;
  0x124349A5; 0x53942D21; 0x800E60DA; 0x2BA6EB7F;
  0xCEBF30D3; 0xEB18D449; 0xE281F724; 0x58B1CB09;
  0xD469A13D; 0x9C7495C3; 0xE53A7810; 0xA866C08E;
  0x832A038B; 0xDDDCA484; 0xD5FE0DDE; 0x0756002B;
  0x2FF51342; 0x60FEC9C8; 0x061A53E3; 0x47B1884E;
  0xDC17E461; 0xA17A6A37; 0x3158E7E2; 0xA40D873B;
  0x45AE2140; 0xC8F36149; 0x63A4EE2D; 0xD7107447;
  0x6F90994F; 0x5006770F; 0xC1F3CA9A; 0x91B317B2;
  0xF61B4406; 0xA8C9EE8F; 0xC6939B75; 0xB28BBC3B;
  0x36BF4AEF; 0x3B12118D; 0x4D536ECF; 0x9CF4B46B;
  0xE8AB1E03; 0x8225A360; 0x7AE4A130; 0xC4EE8B50;
  0x50651797; 0x5BB4C59F; 0xD120EE47; 0x24F3A386;
  0xBE579B45; 0x3A378EFC; 0xC5AB007B; 0x3668942B;
  0x2DBDCC3A; 0x6F37F64C; 0xC24F862A; 0xB6F97FCF;
  0x9E4FA23D; 0x551AE769; 0x46A8A5A6; 0xDC1BCFDD;
  0x8F684CF9; 0x501D811B; 0x84279F80; 0x2614E0AC;
  0x86445276; 0xAEA0CE71; 0x0812250F; 0xB586D18A;
  0xC68D721B; 0x44514E1D; 0x37CDB99A; 0x24731F89;
  0xFA72E589; 0x81E6EBA2; 0x15452965; 0x55523D9D;
  0x2DC47E14; 0x2E7FA107; 0xA7790F23; 0x40EBFDBB;
  0x77E7906B; 0x6C1DB960; 0x1A8B9898; 0x65FA0D90;
  0xED28B4D8; 0x34C3ED75; 0x768FD2EC; 0xFAB60BCB;
  0x962C75F4; 0x304F0498; 0x0A41A36B; 0xF7DE2A4A;
  0xF4770FE2; 0x73C93BBB; 0xD21C82C5; 0x6C387447;
  0x8CDB4CB9; 0x2CC243E8; 0x41859E3D; 0xB667B9CB;
  0x89681E8A; 0x61A0526C; 0x883EDDDC; 0x539DE9A4;
  0xC29E1DEC; 0x97C71EC5; 0x4A560A66; 0xBD7ECACF;
  0x576AE998; 0x31CE5616; 0x97172A6C; 0x83D047C4;
  0x274EA9A8; 0xEB31A9DA; 0x327209B5; 0x14D1F2CB;
  0x00FE1D96; 0x817DBE08; 0xD3E55AED; 0xF2D30AFC;
  0xFB072660; 0x866687D6; 0x92552EB9; 0xEA8219CD;
  0xF7927269; 0xF1948483; 0x694C1DF5; 0xB7D8B7BF;
  0xFFBC5D2F; 0x2E88B849; 0x883FD32B; 0xA0331192;
  0x8CB244DF; 0x41FAF895; 0x16902220; 0x97FB512A;
  0x2BEA3CC4; 0xAF9CAE61; 0x41ACD0D5; 0xFD2F28FF;
  0xE780ADFA; 0xB3A3A76E; 0x7112AD87; 0x7C3D6058;
  0x69E64FFF; 0xE5F8617C; 0x8580727C; 0x41F54F04;
  0xD72BE498; 0x653D1795; 0x1275A327; 0x14B499D4;
  0x4E34D553; 0x4687AA39; 0x68B64292; 0x5C18ABC3;
  0x41EABFCC; 0x92A85616; 0x82684CF8; 0x5B9F8A4E;
  0x35382FFE; 0xFB936318; 0x52C08E15; 0x80918B2E;
  0x199EDEE0; 0xA9470163; 0xEC44ACDD; 0x612D6735;
  0x8F88EA7D; 0x759F5EA4; 0xE5CC7240; 0x68CFEB8B;
  0x04725601; 0x0C22C23E; 0x5BC97174; 0x89965841;
  0x5D939479; 0x690F338A; 0x3C2D4380; 0xDAE97F2B ].

Definition rtab_at (i : Z) : Z := nth (Z.to_nat i) rtab 0.

(** [shift_amount = sizeof(unsigned int)*CHAR_BIT - 1], [mask = 1 << shift_amount]. *)
Definition shift_amount : Z := 31.
Definition mask : Z := 2 ^ 31.

(** One step of the hash:
    [h = (h << 1) | ((h & mask) >> shift_amount); h = h ^ rtab[b & 0xff]]. *)
Definition hash_step (h b : Z) : Z :=
  let h1 := Z.lor (u32 (Z.shiftl h 1)) (Z.shiftr (Z.land h mask) shift_amount) in
  Z.lxor h1 (rtab_at (Z.land b 255)).

(** The characters of a name up to its end, as [unsigned int]s. *)
Definition name_chars (s : string) : list Z :=
  map (fun c => Z.of_N (Ascii.N_of_ascii c)) (String.list_ascii_of_string s).

(** [for(p = name; *p != 0; p++) ...] *)
Definition hash_name (h : Z) (name : string) : Z :=
  fold_left hash_step (name_chars name) h.

(** [for(v = index; v != 0; v = v >> 8) ...]: an [unsigned int] is zero
    after four shifts by eight bits, which bounds the recursion. *)
Fixpoint hash_index_loop (n : nat) (v h : Z) : Z :=
  match n with
  | O => h
  | S n' => if v =? 0 then h else hash_index_loop n' (Z.shiftr v 8) (hash_step h v)
  end.

Definition hash_index (h v : Z) : Z := hash_index_loop 4 v h.

(** The loop over the children: each child's [index] is read through the
    edge. *)
Fixpoint hash_children (hp : heap) (cs : list nat) (h : Z) : result Z :=
  match cs with
  | [] => Ok h
  | c :: cs' =>
      do cg <- deref hp c;
      hash_children hp cs' (hash_index h (index cg))
  end.

Definition hash_value (hp : heap) (this : nat) : result Z :=
  do g <- deref hp this;
  match type g with
  | tVAR =>
      let h := 0x2A2C0FCF in
      match get_first_name g with
      | Some name => Ok (hash_name h name)
      | None => Ok h
      end
  | tUNDEF | tDELETED => Err InternalError
  | t =>
      let h :=
        match t with
        | tTRUE => 0xCA88E3DD
        | tFALSE => 0xB0642F28
        | tEQUIV => 0xA92BF860
        | tOR => 0x122850E1
        | tAND => 0x2390CABB
        | tTHRESHOLD =>
            u32 (Z.lxor 0xF6212680 (rtab_at (tmin g mod 256)) * rtab_at (tmax g mod 255))
        | tNOT => 0x737C65A6
        | tREF => 0x908B5443
        | tEVEN => 0x98526E2D
        | tODD => 0xC9333644
        | tITE => 0xB3F245DE
        | tATLEAST => u32 (0xA9378F6A * rtab_at (tmin g mod 256))
        | _ => 0
        end in
      hash_children hp (child_gates g) h
  end.

(** The comparison of the child lists in [Gate::comp]. *)
Fixpoint comp_children (hp : heap) (cs1 cs2 : list nat) : result Z :=
  match cs1, cs2 with
  | c1 :: cs1', c2 :: cs2' =>
      do child1 <- deref hp c1;
      do child2 <- deref hp c2;
      if index child1 <? index child2 then Ok (-1)
      else if index child2 <? index child1 then Ok 1
      else comp_children hp cs1' cs2'
  | _ :: _, [] => Ok 1      (* this has more children *)
  | [], _ :: _ => Ok (-1)   (* other has more children *)
  | [], [] => Ok 0          (* gates are the same *)
  end.

Definition comp (hp : heap) (this other : nat) : result Z :=
  if bool_decide (this = other) then Ok 0
  else
    do g <- deref hp this;
    do o <- deref hp other;
    if type_rank (type g) <? type_rank (type o) then Ok (-1)
    else if type_rank (type o) <? type_rank (type g) then Ok 1
    else
      match type g with
      | tFALSE | tTRUE => Ok 0
      | tVAR => if index g <? index o then Ok (-1) else Ok 1
      | tEQUIV | tOR | tAND | tEVEN | tODD | tITE | tNOT | tREF =>
          comp_children hp (child_gates g) (child_gates o)
      | tTHRESHOLD =>
          if tmin g <? tmin o then Ok (-1)
          else if tmin o <? tmin g then Ok 1
          else if tmax g <? tmax o then Ok (-1)
          else if tmax o <? tmax g then Ok 1
          else comp_children hp (child_gates g) (child_gates o)
      | tATLEAST =>
          if tmin g <? tmin o then Ok (-1)
          else if tmin o <? tmin g then Ok 1
          else comp_children hp (child_gates g) (child_gates o)
      | tUNDEF | tDELETED => Err InternalError
      end.


(** ** The CNF translation of a gate: [Gate::cnf_count_clauses] and
       [Gate::cnf_get_clauses]

    A literal is an [int]: the gate's number in [temp], negated for a
    negative literal.  A clause is the vector of its literals and the
    result is the list of the clauses in [push_back] order.
    [DEBUG_ASSERT]s are not compiled into the program; [assert]s are. *)

(** The conversion of an [unsigned int] to the [int] a function returns. *)
Definition to_int (x : Z) : Z := if x <? 2 ^ 31 then x else x - 2 ^ 32.

Definition cnf_count_clauses (hp : heap) (this : nat) (notless : bool) : result Z :=
  do g <- deref hp this;
  match type g with
  | tFALSE =>
      do _ <- rassert (determined g && negb (value g));
      Ok 0
  | tTRUE =>
      do _ <- rassert (determined g && value g);
      Ok 0
  | tVAR => Ok 0
  | tREF => if notless then Err InternalError else Ok 2
  | tNOT => if notless then Ok 0 else Ok 2
  | tOR | tAND => Ok (to_int (u32 (count_children g + 1)))
  | tEQUIV | tEVEN | tODD =>
      if negb (count_children g =? 2) then Err InternalError else Ok 4
  | tITE => Ok 4
  | _ => Err InternalError
  end.

(** The literal pushed for a child in a positive position:
    [if(notless) { if(child->type != tNOT) child->temp
                   else -child->children->child->temp } else child->temp]. *)
Definition child_lit (hp : heap) (notless : bool) (c : nat) : result Z :=
  do cg <- deref hp c;
  if notless && is_type (type cg) tNOT then
    do gc <- nth_child cg 0;
    do gcg <- deref hp gc;
    Ok (- temp gcg)
  else Ok (temp cg).

(** The literal pushed for a child in a negative position:
    [if(notless) { if(child->type != tNOT) -child->temp
                   else child->children->child->temp } else -child->temp]. *)
Definition child_neg_lit (hp : heap) (notless : bool) (c : nat) : result Z :=
  do cg <- deref hp c;
  if notless && is_type (type cg) tNOT then
    do gc <- nth_child cg 0;
    do gcg <- deref hp gc;
    Ok (temp gcg)
  else Ok (- temp cg).

(** A loop over the children that computes one literal per child. *)
Fixpoint map_children (f : nat -> result Z) (cs : list nat) : result (list Z) :=
  match cs with
  | [] => Ok []
  | c :: cs' =>
      do l <- f c;
      do ls <- map_children f cs';
      Ok (l :: ls)
  end.

(** The two children of a binary gate ([EQUIV], [EVEN], [ODD]) and their
    literals [c1lit], [c2lit]. *)
Definition binary_lits (hp : heap) (g : Gate) (notless : bool) : result (Z * Z) :=
  if negb (count_children g =? 2) then Err InternalError
  else
    do child1 <- nth_child g 0;
    do child2 <- nth_child g 1;
    do c1lit <- child_lit hp notless child1;
    do c2lit <- child_lit hp notless child2;
    Ok (c1lit, c2lit).

(** The three children of an [ITE] and their literals. *)
Definition ite_lits (hp : heap) (g : Gate) (notless : bool) : result (Z * Z * Z) :=
  do if_child <- nth_child g 0;
  do then_child <- nth_child g 1;
  do else_child <- nth_child g 2;
  do if_lit <- child_lit hp notless if_child;
  do then_lit <- child_lit hp notless then_child;
  do else_lit <- child_lit hp notless else_child;
  Ok (if_lit, then_lit, else_lit).

Definition cnf_get_clauses (hp : heap) (this : nat) (notless : bool)
  : result (list (list Z)) :=
  do g <- deref hp this;
  match type g with
  | tFALSE | tTRUE | tVAR => Ok []
  | tREF =>
      if notless then Err InternalError
      else
        do child <- nth_child g 0;
        do cg <- deref hp child;
        Ok [ [- temp g; temp cg];      (* g -> c *)
             [temp g; - temp cg] ]     (* -g -> -c *)
  | tNOT =>
      if notless then
        if determined g then Err InternalError
        else
          do child <- nth_child g 0;
          do cg <- deref hp child;
          if is_type (type cg) tNOT then Err InternalError else Ok []
      else
        do child <- nth_child g 0;
        do cg <- deref hp child;
        Ok [ [- temp g; - temp cg];    (* g -> -c *)
             [temp g; temp cg] ]       (* -g -> c *)
  | tOR =>
      (* g -> c1 | ... | cn *)
      do lits <- map_children (child_lit hp notless) (child_gates g);
      (* !g -> !ci *)
      do negs <- map_children (child_neg_lit hp notless) (child_gates g);
      Ok ((- temp g :: lits) :: map (fun l => [temp g; l]) negs)
  | tAND =>
      (* !g -> !c1 | ... | !cn *)
      do negs <- map_children (child_neg_lit hp notless) (child_gates g);
      (* g -> ci *)
      do lits <- map_children (child_lit hp notless) (child_gates g);
      Ok ((temp g :: negs) :: map (fun l => [- temp g; l]) lits)
  | tEQUIV | tEVEN =>
      do p <- binary_lits hp g notless;
      let '(c1lit, c2lit) := p in
      Ok [ [- temp g; - c1lit; c2lit];     (* g -> (c1 -> c2) *)
           [- temp g; c1lit; - c2lit];     (* g -> (~c1 -> ~c2) *)
           [temp g; - c1lit; - c2lit];     (* ~g -> (c1 -> ~c2) *)
           [temp g; c1lit; c2lit] ]        (* ~g -> (~c1 -> c2) *)
  | tODD =>
      do p <- binary_lits hp g notless;
      let '(c1lit, c2lit) := p in
      Ok [ [- temp g; - c1lit; - c2lit];   (* g -> (c1 -> ~c2) *)
           [- temp g; c1lit; c2lit];       (* g -> (~c1 -> c2) *)
           [temp g; - c1lit; c2lit];       (* ~g -> (c1 -> c2) *)
           [temp g; c1lit; - c2lit] ]      (* ~g -> (~c1 -> ~c2) *)
  | tITE =>
      do p <- ite_lits hp g notless;
      let '(if_lit, then_lit, else_lit) := p in
      Ok [ [- temp g; - if_lit; then_lit];     (* g -> (i -> t) *)
           [- temp g; if_lit; else_lit];       (* g -> (~i -> e) *)
           [temp g; - if_lit; - then_lit];     (* ~g -> (i -> ~t) *)
           [temp g; if_lit; - else_lit] ]      (* ~g -> (~i -> ~e) *)
  | _ => Err InternalError
  end.

(** [Gate::cnf_get_clauses_polarity]: the clauses of the directions
    recorded in [mir_pos] and [mir_neg] only. *)
Definition when {A : Type} (b : bool) (l : list A) : list A := if b then l else [].

Definition cnf_get_clauses_polarity (hp : heap) (this : nat) (notless : bool)
  : result (list (list Z)) :=
  do g <- deref hp this;
  match type g with
  | tFALSE | tTRUE | tVAR => Ok []
  | tREF =>
      if notless then Err InternalError
      else
        do child <- nth_child g 0;
        do cg <- deref hp child;
        Ok (when (mir_pos g) [ [- temp g; temp cg] ] ++
            when (mir_neg g) [ [temp g; - temp cg] ])
  | tNOT =>
      if notless then
        if determined g then Err InternalError
        else
          do child <- nth_child g 0;
          do cg <- deref hp child;
          if is_type (type cg) tNOT then Err InternalError else Ok []
      else
        do child <- nth_child g 0;
        do cg <- deref hp child;
        Ok (when (mir_pos g) [ [- temp g; - temp cg] ] ++
            when (mir_neg g) [ [temp g; temp cg] ])
  | tOR =>
      do pos <-
        (if mir_pos g then
           do lits <- map_children (child_lit hp notless) (child_gates g);
           Ok [ - temp g :: lits ]
         else Ok []);
      do neg <-
        (if mir_neg g then
           do negs <- map_children (child_neg_lit hp notless) (child_gates g);
           Ok (map (fun l => [temp g; l]) negs)
         else Ok []);
      Ok (pos ++ neg)
  | tAND =>
      do pos <-
        (if mir_pos g then
           do lits <- map_children (child_lit hp notless) (child_gates g);
           Ok (map (fun l => [- temp g; l]) lits)
         else Ok []);
      do neg <-
        (if mir_neg g then
           do negs <- map_children (child_neg_lit hp notless) (child_gates g);
           Ok [ temp g :: negs ]
         else Ok []);
      Ok (pos ++ neg)
  | tEQUIV | tEVEN =>
      do p <- binary_lits hp g notless;
      let '(c1lit, c2lit) := p in
      Ok (when (mir_pos g) [ [- temp g; - c1lit; c2lit];
                             [- temp g; c1lit; - c2lit] ] ++
          when (mir_neg g) [ [temp g; - c1lit; - c2lit];
                             [temp g; c1lit; c2lit] ])
  | tODD =>
      do p <- binary_lits hp g notless;
      let '(c1lit, c2lit) := p in
      Ok (when (mir_pos g) [ [- temp g; - c1lit; - c2lit];
                             [- temp g; c1lit; c2lit] ] ++
          when (mir_neg g) [ [temp g; - c1lit; c2lit];
                             [temp g; c1lit; - c2lit] ])
  | tITE =>
      do p <- ite_lits hp g notless;
      let '(if_lit, then_lit, else_lit) := p in
      Ok (when (mir_pos g) [ [- temp g; - if_lit; then_lit];
                             [- temp g; if_lit; else_lit] ] ++
          when (mir_neg g) [ [temp g; - if_lit; - then_lit];
                             [temp g; if_lit; - else_lit] ])
  | _ => Err InternalError
  end.

(** ** Values of the children: [Gate::count_child_info], [Gate::is_justified] *)

(** A sequential loop over a list whose body may stop the program. *)
Fixpoint foldM {S A : Type} (step : S -> A -> result S) (l : list A) (s : S)
  : result S :=
  match l with
  | [] => Ok s
  | a :: l' =>
      do s' <- step s a;
      foldM step l' s'
  end.

(** [(nof_true, nof_false, nof_undet)], three [unsigned int] counters. *)
Definition count_child_info_step (hp : heap) (acc : Z * Z * Z) (c : nat)
  : result (Z * Z * Z) :=
  let '(nof_true, nof_false, nof_undet) := acc in
  do cg <- deref hp c;
  if determined cg then
    if value cg then Ok (u32 (nof_true + 1), nof_false, nof_undet)
    else Ok (nof_true, u32 (nof_false + 1), nof_undet)
  else Ok (nof_true, nof_false, u32 (nof_undet + 1)).

Definition count_child_info (hp : heap) (g : Gate) : result (Z * Z * Z) :=
  foldM (count_child_info_step hp) (child_gates g) (0, 0, 0).

(** [c->determined && c->value == v] for a child [c]. *)
Definition det_val (c : Gate) (v : bool) : bool :=
  determined c && eqb (value c) v.

Definition is_justified (hp : heap) (this : nat) : result bool :=
  do g <- deref hp this;
  if negb (determined g) then Ok false
  else
    do info <- count_child_info hp g;
    let '(nof_true, nof_false, nof_undet) := info in
    let nof_children := u32 (nof_true + nof_false + nof_undet) in
    match type g with
    | tFALSE | tTRUE | tVAR => Ok true
    | tNOT =>
        Ok ((value g && (0 <? nof_false)) || (negb (value g) && (0 <? nof_true)))
    | tEQUIV =>
        if value g then
          if nof_children =? 1 then Ok true
          else if nof_true =? nof_children then Ok true
          else if nof_false =? nof_children then Ok true
          else Ok false
        else
          if (0 <? nof_true) && (0 <? nof_false) then Ok true else Ok false
    | tOR =>
        if value g then
          if 0 <? nof_true then Ok true else Ok false
        else
          if nof_false =? nof_children then Ok true else Ok false
    | tAND =>
        if negb (value g) then
          if 0 <? nof_false then Ok true else Ok false
        else
          if nof_true =? nof_children then Ok true else Ok false
    | tODD =>
        if value g then
          Ok ((u32 (nof_true + nof_false) =? nof_children) && (nof_true mod 2 =? 1))
        else
          Ok ((u32 (nof_true + nof_false) =? nof_children) && (nof_true mod 2 =? 0))
    | tEVEN =>
        if value g then
          Ok ((u32 (nof_true + nof_false) =? nof_children) && (nof_true mod 2 =? 0))
        else
          Ok ((u32 (nof_true + nof_false) =? nof_children) && (nof_true mod 2 =? 1))
    | tITE =>
        do if_a <- nth_child g 0;
        do then_a <- nth_child g 1;
        do else_a <- nth_child g 2;
        do if_child <- deref hp if_a;
        do then_child <- deref hp then_a;
        do else_child <- deref hp else_a;
        if value g then
          if det_val if_child true && det_val then_child true then Ok true
          else if det_val if_child false && det_val else_child true then Ok true
          else if det_val then_child true && det_val else_child true then Ok true
          else Ok false
        else
          if det_val if_child true && det_val then_child false then Ok true
          else if det_val if_child false && det_val else_child false then Ok true
          else if det_val then_child false && det_val else_child false then Ok true
          else Ok false
    | tTHRESHOLD =>
        if value g then
          Ok ((tmin g <=? nof_true) && (u32 (nof_children - nof_false) <=? tmax g))
        else
          if tmax g <? nof_true then Ok true
          else if u32 (nof_children - nof_false) <? tmin g then Ok true
          else Ok false
    | tATLEAST =>
        if value g then
          Ok (tmin g <=? nof_true)
        else
          Ok (u32 (nof_children - nof_false) <? tmin g)
    | _ => Err InternalError
    end.

(** ** The polarity analysis: [Gate::mir_propagate_polarity]

    The function calls itself on the children; [fuel] bounds the depth of
    the calls. *)

Definition mir_flag (polarity : bool) (g : Gate) : bool :=
  if polarity then mir_pos g else mir_neg g.

Definition set_mir_flag (polarity : bool) (g : Gate) : Gate :=
  if polarity then set_mir_pos true g else set_mir_neg true g.

(** The [switch] on the type of the gate; [call hp c p] is the call
    [c->mir_propagate_polarity(p)]. *)
Definition mir_switch (call : heap -> nat -> bool -> result heap) (g : Gate)
    (polarity : bool) (hp : heap) : result heap :=
  (* for all children: child->mir_propagate_polarity(p) *)
  let all_children (p : bool) :=
    foldM (fun hp c => call hp c p) (child_gates g) hp in
  (* for all children: both polarities, [polarity] first *)
  let all_children_both :=
    foldM (fun hp c => do hp' <- call hp c polarity; call hp' c (negb polarity))
          (child_gates g) hp in
  match type g with
  | tFALSE | tTRUE | tVAR => Ok hp
  | tNOT =>
      do child <- nth_child g 0;
      call hp child (negb polarity)
  | tOR | tAND => all_children polarity
  | tEQUIV => all_children_both
  | tODD =>
      do info <- count_child_info hp g;
      let '(nof_true, nof_false, nof_undet) := info in
      if nof_undet =? 1 then
        let desired_value := xorb polarity (nof_true mod 2 =? 1) in
        all_children desired_value
      else all_children_both
  | tEVEN =>
      do info <- count_child_info hp g;
      let '(nof_true, nof_false, nof_undet) := info in
      if nof_undet =? 1 then
        let desired_value := xorb polarity (nof_true mod 2 =? 0) in
        all_children desired_value
      else all_children_both
  | tITE =>
      do if_child <- nth_child g 0;
      do then_child <- nth_child g 1;
      do else_child <- nth_child g 2;
      do hp <- call hp if_child polarity;
      do hp <- call hp if_child (negb polarity);
      do hp <- call hp then_child polarity;
      call hp else_child polarity
  | tTHRESHOLD =>
      do info <- count_child_info hp g;
      let '(nof_true, nof_false, nof_undet) := info in
      let nof_children := u32 (nof_true + nof_false + nof_undet) in
      if polarity then
        if tmin g <=? nof_true then all_children false
        else if (nof_true <? tmin g) &&
                (u32 (nof_children - nof_false) <=? tmax g)
             then all_children true
        else all_children_both
      else
        if tmin g <=? nof_true then all_children true
        else if (nof_true <? tmin g) &&
                (u32 (nof_children - nof_false) <=? tmax g)
             then all_children false
        else all_children_both
  | tATLEAST => all_children polarity
  | _ => Err InternalError
  end.

(** The tests at the top of the function: whether it returns at once. *)
Definition mir_stop (hp : heap) (this : nat) (g : Gate) (polarity : bool)
  : result bool :=
  if determined g then
    if negb (eqb (value g) polarity) then Ok true
    else is_justified hp this
  else Ok false.

Fixpoint mir_propagate_polarity (fuel : nat) (hp : heap) (this : nat)
    (polarity : bool) : result heap :=
  match fuel with
  | O => Err OutOfFuel
  | S fuel' =>
      do g <- deref hp this;
      do stop <- mir_stop hp this g polarity;
      if stop then Ok hp
      else if mir_flag polarity g then Ok hp
      else
        let hp := <[this := set_mir_flag polarity g]> hp in
        mir_switch (mir_propagate_polarity fuel') (set_mir_flag polarity g) polarity hp
  end.

(** ** Evaluation: [Gate::evaluate] and [Gate::check_consistency] *)

(** The loop that evaluates the children and counts their values;
    [None] when the evaluation of a child returned [false]. *)
Definition evaluate_children_step (call : heap -> nat -> result (bool * heap))
    (acc : option (Z * Z) * heap) (c : nat) : result (option (Z * Z) * heap) :=
  match acc with
  | (None, hp) => Ok (None, hp)
  | (Some (nof_false_children, nof_true_children), hp) =>
      do r <- call hp c;
      let '(ok, hp) := r in
      if negb ok then Ok (None, hp)
      else
        do child <- deref hp c;
        if value child then Ok (Some (nof_false_children, u32 (nof_true_children + 1)), hp)
        else Ok (Some (u32 (nof_false_children + 1), nof_true_children), hp)
  end.

(** The [switch] on the type of the gate: the value that is stored in
    [value], or [None] for an input gate, whose value cannot be evaluated. *)
Definition evaluate_switch (hp : heap) (g : Gate)
    (nof_false_children nof_true_children : Z) : result (option bool) :=
  match type g with
  | tVAR => Ok None     (* Value cannot be evaluated! *)
  | tFALSE => Ok (Some false)
  | tTRUE => Ok (Some true)
  | tREF => Ok (Some (nof_true_children =? 1))
  | tNOT => Ok (Some (nof_true_children =? 0))
  | tEQUIV =>
      if (0 <? nof_true_children) && (0 <? nof_false_children)
      then Ok (Some false) else Ok (Some true)
  | tOR => Ok (Some (0 <? nof_true_children))
  | tAND => Ok (Some (nof_false_children =? 0))
  | tODD => Ok (Some (Z.land nof_true_children 1 =? 1))
  | tEVEN => Ok (Some (Z.land nof_true_children 1 =? 0))
  | tITE =>
      do if_a <- nth_child g 0;
      do then_a <- nth_child g 1;
      do else_a <- nth_child g 2;
      do if_child <- deref hp if_a;
      do then_child <- deref hp then_a;
      do else_child <- deref hp else_a;
      if value if_child then Ok (Some (value then_child))
      else Ok (Some (value else_child))
  | tTHRESHOLD =>
      Ok (Some ((tmin g <=? nof_true_children) && (nof_true_children <=? tmax g)))
  | tATLEAST => Ok (Some (tmin g <=? nof_true_children))
  | _ => Err InternalError
  end.

Fixpoint evaluate (fuel : nat) (hp : heap) (this : nat) : result (bool * heap) :=
  match fuel with
  | O => Err OutOfFuel
  | S fuel' =>
      do g <- deref hp this;
      if determined g then Ok (true, hp)
      else
        (* Evaluate all children *)
        do r <- foldM (evaluate_children_step (evaluate fuel'))
                      (child_gates g) (Some (0, 0), hp);
        match r with
        | (None, hp) => Ok (false, hp)
        | (Some (nof_false_children, nof_true_children), hp) =>
            do g <- deref hp this;
            do v <- evaluate_switch hp g nof_false_children nof_true_children;
            match v with
            | None => Ok (false, hp)
            | Some v => Ok (true, <[this := set_value v g]> hp)   (* determined = true *)
            end
        end
  end.

(** [Gate::check_consistency]: [false] if the current truth assignment is
    not consistent at this gate. *)
Definition check_consistency (hp : heap) (this : nat) : result bool :=
  do g <- deref hp this;
  if negb (determined g) then Ok true
  else
    do info <- count_child_info hp g;
    let '(nof_true, nof_false, nof_undet) := info in
    let nof_children := u32 (nof_true + nof_false + nof_undet) in
    match type g with
    | tFALSE => Ok (eqb (value g) false)
    | tTRUE => Ok (eqb (value g) true)
    | tVAR => Ok true
    | tNOT =>
        if nof_true =? 1 then Ok (eqb (value g) false)
        else if nof_false =? 1 then Ok (eqb (value g) true)
        else Ok true
    | tREF =>
        if nof_true =? 1 then Ok (eqb (value g) true)
        else if nof_false =? 1 then Ok (eqb (value g) false)
        else Ok true
    | tEQUIV =>
        if value g then
          if (0 <? nof_true) && (0 <? nof_false) then Ok false else Ok true
        else
          if (nof_true =? nof_children) || (nof_false =? nof_children)
          then Ok false else Ok true
    | tOR =>
        if negb (value g) then
          if 0 <? nof_true then Ok false else Ok true
        else
          if nof_false =? nof_children then Ok false else Ok true
    | tAND =>
        if value g then
          if 0 <? nof_false then Ok false else Ok true
        else
          if nof_true =? nof_children then Ok false else Ok true
    | tODD =>
        if nof_undet =? 0 then Ok (eqb (value g) (Z.land nof_true 1 =? 1))
        else Ok true
    | tEVEN =>
        if nof_undet =? 0 then Ok (eqb (value g) (Z.land nof_true 1 =? 0))
        else Ok true
    | tITE =>
        do if_a <- nth_child g 0;
        do then_a <- nth_child g 1;
        do else_a <- nth_child g 2;
        do if_child <- deref hp if_a;
        do then_child <- deref hp then_a;
        do else_child <- deref hp else_a;
        if value g then
          if det_val if_child true && det_val then_child false then Ok false
          else if det_val if_child false && det_val else_child false then Ok false
          else if det_val then_child false && det_val else_child false then Ok false
          else Ok true
        else
          if det_val if_child true && det_val then_child true then Ok false
          else if det_val if_child false && det_val else_child true then Ok false
          else if det_val then_child true && det_val else_child true then Ok false
          else Ok true
    | tTHRESHOLD =>
        do _ <- rassert (tmin g <=? tmax g);
        do _ <- rassert (tmax g <=? nof_children);
        if value g then
          if (tmax g <? nof_true) || (u32 (nof_children - nof_false) <? tmin g)
          then Ok false else Ok true
        else
          if (tmin g <=? nof_true) && (u32 (nof_children - nof_false) <=? tmax g)
          then Ok false else Ok true
    | _ => Err InternalError
    end.

(** ** The cone of influence: [Gate::mark_coi]

    Numbers this gate and the gates below it that are not numbered yet
    ([temp < 0]); [counter] is passed by reference. *)
Fixpoint mark_coi (fuel : nat) (s : heap * Z) (this : nat) : result (heap * Z) :=
  match fuel with
  | O => Err OutOfFuel
  | S fuel' =>
      let '(hp, counter) := s in
      do g <- deref hp this;
      if 0 <=? temp g then Ok (hp, counter)
      else
        let hp := <[this := set_temp counter g]> hp in
        foldM (mark_coi fuel') (child_gates g) (hp, counter + 1)
  end.

(** ** The circuit and the driver [main] of bc2cnf.cc *)

(** The circuit [BC] (bc.hh is not among the sources; these are the members
    that gate.cc and bc2cnf.cc use).  [first_gate] is the chain of the
    [next] pointers, [pstack] the chain of the [pstack_next] pointers;
    [next_edge] numbers the associations that [new] creates. *)
Record BC : Type := mkBC {
  gates : heap;
  first_gate : list nat;
  pstack : list nat;
  changed : bool;
  may_transform_input_gates : bool;
  preserve_all_solutions : bool;
  assigned_to_true : list nat;
  assigned_to_false : list nat;
  next_edge : nat
}.

Definition set_gates (hp : heap) (bc : BC) : BC :=
  mkBC hp (first_gate bc) (pstack bc) (changed bc) (may_transform_input_gates bc)
       (preserve_all_solutions bc) (assigned_to_true bc) (assigned_to_false bc)
       (next_edge bc).
Definition set_first_gate (l : list nat) (bc : BC) : BC :=
  mkBC (gates bc) l (pstack bc) (changed bc) (may_transform_input_gates bc)
       (preserve_all_solutions bc) (assigned_to_true bc) (assigned_to_false bc)
       (next_edge bc).
Definition set_pstack (l : list nat) (bc : BC) : BC :=
  mkBC (gates bc) (first_gate bc) l (changed bc) (may_transform_input_gates bc)
       (preserve_all_solutions bc) (assigned_to_true bc) (assigned_to_false bc)
       (next_edge bc).
Definition set_changed (b : bool) (bc : BC) : BC :=
  mkBC (gates bc) (first_gate bc) (pstack bc) b (may_transform_input_gates bc)
       (preserve_all_solutions bc) (assigned_to_true bc) (assigned_to_false bc)
       (next_edge bc).
Definition set_preserve_all_solutions (b : bool) (bc : BC) : BC :=
  mkBC (gates bc) (first_gate bc) (pstack bc) (changed bc) (may_transform_input_gates bc)
       b (assigned_to_true bc) (assigned_to_false bc)
       (next_edge bc).
Definition set_assigned_to_true (l : list nat) (bc : BC) : BC :=
  mkBC (gates bc) (first_gate bc) (pstack bc) (changed bc) (may_transform_input_gates bc)
       (preserve_all_solutions bc) l (assigned_to_false bc)
       (next_edge bc).
Definition set_assigned_to_false (l : list nat) (bc : BC) : BC :=
  mkBC (gates bc) (first_gate bc) (pstack bc) (changed bc) (may_transform_input_gates bc)
       (preserve_all_solutions bc) (assigned_to_true bc) l
       (next_edge bc).
Definition set_next_edge (n : nat) (bc : BC) : BC :=
  mkBC (gates bc) (first_gate bc) (pstack bc) (changed bc) (may_transform_input_gates bc)
       (preserve_all_solutions bc) (assigned_to_true bc) (assigned_to_false bc)
       n.

(** The command line options of bc2cnf with their defaults. *)
Record Options : Type := mkOptions {
  verbose : bool;
  opt_cnf_notless : bool;
  opt_cnf_polarity : bool;
  opt_cnf_permute : bool;
  opt_cnf_permute_seed : Z;
  opt_perform_coi : bool;
  opt_perform_simplifications : bool;
  opt_preserve_all_solutions : bool;
  opt_print_input_gates : bool
}.

Definition default_options : Options :=
  mkOptions false true false false 0 true true false false.

(** Modelled from the spec: [BC::reset_temp_fields] (bc.cc is not among the
    sources): every gate of the circuit gets the given value in its [temp]
    field, the initial value that the pass that follows expects. *)
Definition reset_temp_fields (t : Z) (bc : BC) : result BC :=
  do hp <- foldM (fun hp a => do g <- deref hp a; Ok (<[a := set_temp t g]> hp))
                 (first_gate bc) (gates bc);
  Ok (set_gates hp bc).

(** Modelled from the spec: [BC::check_consistency] (bc.cc is not among the
    sources), the post-condition that verifies every determined gate's
    value against the values of its children: [Gate::check_consistency] of
    every gate of the circuit. *)
Definition check_consistency_step (hp : heap) (ok : bool) (a : nat) : result bool :=
  do c <- check_consistency hp a;
  Ok (ok && c).

Definition BC_check_consistency (bc : BC) : result bool :=
  foldM (check_consistency_step (gates bc)) (first_gate bc) true.

(** *** What [main] prints to [outfile] *)

(** The lines printed for the names of a gate: one line
    [c <name> <-> <what>] for each [NameHandle]. *)
Definition name_lines (hs : list Handle) (what : string) : list string :=
  flat_map (fun h => match h with
                     | NameHandle name => ["c " +:+ name +:+ " <-> " +:+ what]
                     | OtherHandle => []
                     end) hs.

Definition has_name (hs : list Handle) : bool :=
  existsb (fun h => match h with NameHandle _ => true | OtherHandle => false end) hs.

(** A clause: every literal followed by a blank, then [0]. *)
Definition clause_line (cl : list Z) : string :=
  fold_right (fun lit s => pretty lit +:+ " " +:+ s) "0" cl.

Definition info_header : list string :=
  [ "c This is a CNF SAT formula in the DIMACS CNF format,";
    "c produced with the bc2cnf translator by Tommi Junttila;";
    "c see http://www.tcs.hut.fi/~tjunttil/circuits/index.html" ].

(** The label [unsat_exit]; [out] is what was printed before the jump. *)
Definition unsat_exit (out : list string) : result (Z * list string) :=
  Ok (0, out ++ [ "c The instance was unsatisfiable";
                  "p cnf 1 2";
                  "1 0";
                  "-1 0" ]).

(** The label [sat_exit]. *)
(** Assign irrelevant input gates to arbitrary values. *)
Definition assign_input_step (hp : heap) (a : nat) : result heap :=
  do g <- deref hp a;
  if is_type (type g) tVAR && negb (determined g) then
    do _ <- rassert (temp g =? -1);
    Ok (<[a := set_value false g]> hp)
  else Ok hp.

Definition assign_irrelevant_inputs (bc : BC) : result BC :=
  do hp <- foldM assign_input_step (first_gate bc) (gates bc);
  Ok (set_gates hp bc).

(** Evaluate rest of the irrelevant gates. *)
Definition evaluate_step (fuel : nat) (hp : heap) (a : nat) : result heap :=
  do g <- deref hp a;
  if negb (determined g) then
    do r <- evaluate fuel hp a;
    let '(evaluation_ok, hp) := r in
    if negb evaluation_ok then Err InternalError
    else Ok hp
  else Ok hp.

Definition evaluate_rest (fuel : nat) (bc : BC) : result BC :=
  do hp <- foldM (evaluate_step fuel) (first_gate bc) (gates bc);
  Ok (set_gates hp bc).

(** Print satisfying truth assignment. *)
Definition print_assignment_step (hp : heap) (out : list string) (a : nat)
  : result (list string) :=
  do g <- deref hp a;
  do _ <- rassert (determined g);
  Ok (out ++ name_lines (handles g) (if value g then "T" else "F")).

Definition print_assignment (bc : BC) (out : list string) : result (list string) :=
  foldM (print_assignment_step (gates bc)) (first_gate bc) out.

Definition sat_exit (fuel : nat) (bc : BC) (out : list string)
  : result (Z * list string) :=
  do bc <- assign_irrelevant_inputs bc;
  do bc <- evaluate_rest fuel bc;
  do consistent <- BC_check_consistency bc;
  if negb consistent then Err InternalError
  else
    let out := out ++ ["c The instance was satisfiable"] in
    do out <- print_assignment bc out;
    (* And a dummy satisfiable CNF *)
    Ok (0, out ++ ["p cnf 1 1"; "1 0"]).

(** *** The cone of influence and the numbering of the variables *)

Definition find_relevant_gates (fuel : nat) (opts : Options) (bc : BC)
  : result (BC * Z) :=
  do bc <- reset_temp_fields (-1) bc;
  do r <- foldM (fun s a =>
                   do g <- deref (fst s) a;
                   do root <-
                     (if negb (opt_perform_coi opts) then Ok true
                      else if determined g then
                        do j <- is_justified (fst s) a; Ok (negb j)
                      else Ok false);
                   if root then mark_coi fuel s a else Ok s)
                (first_gate bc) (gates bc, 0);
  let '(hp, nof_relevant_gates) := r in
  Ok (set_gates hp bc, nof_relevant_gates).

(** Renumber the gates in the [temp] fields; the result is [max_var_num]. *)
Definition renumber_step (opts : Options) (s : heap * Z) (a : nat)
  : result (heap * Z) :=
  let '(hp, gate_num) := s in
  do g <- deref hp a;
  if temp g =? -1 then Ok s      (* Not relevant *)
  else if opt_cnf_notless opts && is_type (type g) tNOT then
    (* NOT-less translation *)
    do _ <- rassert (negb (determined g));
    do child <- nth_child g 0;
    do cg <- deref hp child;
    do _ <- rassert (negb (is_type (type cg) tNOT));
    Ok (<[a := set_temp (-1) g]> hp, gate_num)
  else
    Ok (<[a := set_temp (gate_num + 1) g]> hp, gate_num + 1).

Definition renumber_gates (opts : Options) (bc : BC) : result (BC * Z) :=
  do r <- foldM (renumber_step opts) (first_gate bc) (gates bc, 0);
  let '(hp, max_var_num) := r in
  do _ <- rassert (0 <? max_var_num);
  Ok (set_gates hp bc, max_var_num).

(** *** Printing the translation *)

(** The translation table. *)
Definition print_translation_table (opts : Options) (max_var_num : Z) (bc : BC)
    (out : list string) : result (list string) :=
  foldM (fun out a =>
           do g <- deref (gates bc) a;
           do _ <- rassert (temp g <=? max_var_num);
           if temp g <=? 0 then Ok out
           else if opt_cnf_polarity opts && negb (is_type (type g) tVAR) then Ok out
           else if opt_cnf_notless opts && is_type (type g) tNOT then
             if has_name (handles g) then
               do child <- nth_child g 0;
               do cg <- deref (gates bc) child;
               Ok (out ++ name_lines (handles g) (pretty (- temp cg)))
             else Ok out
           else Ok (out ++ name_lines (handles g) (pretty (temp g))))
        (first_gate bc) out.

(** The translation clauses of a gate, by the chosen translation. *)
Definition gate_clauses (opts : Options) (hp : heap) (a : nat)
  : result (list (list Z)) :=
  if opt_cnf_polarity opts then cnf_get_clauses_polarity hp a (opt_cnf_notless opts)
  else cnf_get_clauses hp a (opt_cnf_notless opts).

(** The first scan: the number of clauses, an [unsigned int]. *)
Definition count_cnf_step (opts : Options) (hp : heap) (nof_cnf_clauses : Z)
    (a : nat) : result Z :=
  do g <- deref hp a;
  if temp g =? -1 then Ok nof_cnf_clauses     (* Not relevant *)
  else
    do clauses <- gate_clauses opts hp a;
    let n := u32 (nof_cnf_clauses + Z.of_nat (length clauses)) in
    (* Unit clauses for constrained gates *)
    if determined g then Ok (u32 (n + 1))
    else if is_type (type g) tTRUE then Ok (u32 (n + 1))
    else if is_type (type g) tFALSE then Ok (u32 (n + 1))
    else Ok n.

Definition count_cnf_clauses (opts : Options) (bc : BC) : result Z :=
  foldM (count_cnf_step opts (gates bc)) (first_gate bc) 0.

(** [assert(lit != 0 && abs(lit) <= max_var_num)] for every literal. *)
Definition check_clause (max_var_num : Z) (cl : list Z) : result unit :=
  rassert (forallb (fun lit => negb (lit =? 0) && (Z.abs lit <=? max_var_num)) cl).

(** The second scan: the clauses are taken from the back of the list and
    printed; the result is the lines printed and their number
    [nof_cnf_clauses_printed]. *)
Definition print_clause_step (max_var_num : Z) (s : list string * Z) (cl : list Z)
  : result (list string * Z) :=
  do _ <- check_clause max_var_num cl;
  Ok (fst s ++ [clause_line cl], u32 (snd s + 1)).

Definition print_cnf_step (opts : Options) (max_var_num : Z) (hp : heap)
    (s : list string * Z) (a : nat) : result (list string * Z) :=
  do g <- deref hp a;
  if temp g =? -1 then Ok s                   (* Not relevant *)
  else
    do _ <- rassert ((0 <? temp g) && (temp g <=? max_var_num));
    do clauses <- gate_clauses opts hp a;
    do s <- foldM (print_clause_step max_var_num) (rev clauses) s;
    let '(lines, printed) := s in
    (* Add unit clauses for constrained gates *)
    if determined g then
      Ok (lines ++ [(if value g then "" else "-") +:+ pretty (temp g) +:+ " 0"],
          u32 (printed + 1))
    else if is_type (type g) tTRUE then
      Ok (lines ++ [pretty (temp g) +:+ " 0"], u32 (printed + 1))
    else if is_type (type g) tFALSE then
      Ok (lines ++ ["-" +:+ pretty (temp g) +:+ " 0"], u32 (printed + 1))
    else Ok (lines, printed).

Definition print_cnf_clauses (opts : Options) (max_var_num : Z) (bc : BC)
  : result (list string * Z) :=
  foldM (print_cnf_step opts max_var_num (gates bc)) (first_gate bc) ([], 0).

(** The DIMACS header [p cnf V C]. *)
Definition dimacs_header (max_var_num nof_cnf_clauses : Z) : string :=
  "p cnf " +:+ pretty max_var_num +:+ " " +:+ pretty nof_cnf_clauses.

Definition print_cnf (opts : Options) (max_var_num : Z) (bc : BC)
    (out : list string) : result (list string) :=
  do nof_cnf_clauses <- count_cnf_clauses opts bc;
  let out := out ++ [dimacs_header max_var_num nof_cnf_clauses] in
  do r <- print_cnf_clauses opts max_var_num bc;
  let '(lines, nof_cnf_clauses_printed) := r in
  do _ <- rassert (nof_cnf_clauses_printed =? nof_cnf_clauses);
  Ok (out ++ lines).

Section Driver.

(** The operations of the circuit that [main] calls and that bc.cc
    defines.  A rewrite returns [false] when it finds the circuit
    unsatisfiable. *)
Variable force_true force_false : nat -> BC -> result (bool * BC).
Variable remove_underscore_names : BC -> result BC.
Variable BC_simplify : bool -> BC -> result (bool * BC).
Variable BC_share : BC -> result (bool * BC).
Variable BC_cnf_normalize : BC -> result (bool * BC).
Variable compute_stats : BC -> result BC.
Variable mir_compute_polarity_information : BC -> result BC.
(** [my_perm(n, seed)]: the array [perm], read at an index. *)
Variable my_perm : Z -> Z -> Z -> Z.

(** [while(!queue.empty()) { gate = front; pop_front; if(!force(gate)) goto unsat_exit; }]
    for the queue [assigned_to_true]. *)
Fixpoint mark_assigned_to_true (fuel : nat) (bc : BC) : result (bool * BC) :=
  match fuel with
  | O => Err OutOfFuel
  | S fuel' =>
      match assigned_to_true bc with
      | [] => Ok (true, bc)
      | gate :: rest =>
          do r <- force_true gate (set_assigned_to_true rest bc);
          let '(ok, bc) := r in
          if negb ok then Ok (false, bc) else mark_assigned_to_true fuel' bc
      end
  end.

Fixpoint mark_assigned_to_false (fuel : nat) (bc : BC) : result (bool * BC) :=
  match fuel with
  | O => Err OutOfFuel
  | S fuel' =>
      match assigned_to_false bc with
      | [] => Ok (true, bc)
      | gate :: rest =>
          do r <- force_false gate (set_assigned_to_false rest bc);
          let '(ok, bc) := r in
          if negb ok then Ok (false, bc) else mark_assigned_to_false fuel' bc
      end
  end.

(** Simplify or at least share structure. *)
Definition simplify_or_share (opts : Options) (preserve_cnf_normalized_form : bool)
    (bc : BC) : result (bool * BC) :=
  if opt_perform_simplifications opts then BC_simplify preserve_cnf_normalized_form bc
  else BC_share bc.

(** Permute the CNF variable indices. *)
Definition permute_cnf (opts : Options) (max_var_num : Z) (bc : BC) : result BC :=
  let perm := my_perm max_var_num (opt_cnf_permute_seed opts) in
  do hp <- foldM (fun hp a =>
                    do g <- deref hp a;
                    do _ <- rassert (temp g <=? max_var_num);
                    if temp g <=? 0 then Ok hp
                    else
                      let t := perm (temp g) in
                      do _ <- rassert ((0 <? t) && (t <=? max_var_num));
                      Ok (<[a := set_temp t g]> hp))
                 (first_gate bc) (gates bc);
  Ok (set_gates hp bc).

(** The translation proper, from the cone of influence on. *)
Definition translate (fuel : nat) (opts : Options) (bc : BC) (out : list string)
  : result (Z * list string) :=
  do bc <- (if verbose opts then compute_stats bc else Ok bc);
  (* Find the relevant gates and number them in temp field (aka COI) *)
  do r <- find_relevant_gates fuel opts bc;
  let '(bc, nof_relevant_gates) := r in
  if nof_relevant_gates =? 0 then sat_exit fuel bc out
  else
    do r <- renumber_gates opts bc;
    let '(bc, max_var_num) := r in
    do bc <- (if opt_cnf_permute opts then permute_cnf opts max_var_num bc else Ok bc);
    let out := out ++ info_header in
    do out <- print_translation_table opts max_var_num bc out;
    do bc <- (if opt_cnf_polarity opts then mir_compute_polarity_information bc
              else Ok bc);
    do out <- print_cnf opts max_var_num bc out;
    Ok (0, out).

(** [main], after the options are parsed: [circuit] is the result of
    [BC::parse_circuit]; the result is the exit code and the lines printed
    to [outfile].  What goes to [verbstr] is left out. *)
Definition main (fuel : nat) (opts : Options) (circuit : option BC)
  : result (Z * list string) :=
  match circuit with
  | None => Ok (1, [])                 (* exit(1) *)
  | Some bc =>
      let out : list string := [] in
      (* Mark values of assigned gates *)
      do r <- mark_assigned_to_true fuel bc;
      let '(ok, bc) := r in
      if negb ok then unsat_exit out
      else
      do r <- mark_assigned_to_false fuel bc;
      let '(ok, bc) := r in
      if negb ok then unsat_exit out
      else
      do bc <- remove_underscore_names bc;
      let bc := set_preserve_all_solutions (opt_preserve_all_solutions opts) bc in
      do r <- simplify_or_share opts false bc;
      let '(ok, bc) := r in
      if negb ok then unsat_exit out
      else
      do r <- BC_cnf_normalize bc;
      let '(ok, bc) := r in
      if negb ok then unsat_exit out
      else
      do r <- simplify_or_share opts true bc;
      let '(ok, bc) := r in
      if negb ok then unsat_exit out
      else translate fuel opts bc out
  end.

End Driver.

(** ** The rewriting of the circuit: state and primitives

    [Gate::simplify], [Gate::cnf_normalize] and [Gate::share] work on the
    gate they are called on and on the circuit [bc]; the model threads the
    circuit through the code. *)

Definition M (A : Type) : Type := BC -> result (A * BC).

Definition st_ret {A : Type} (a : A) : M A := fun bc => Ok (a, bc).

Definition st_bind {A B : Type} (m : M A) (k : A -> M B) : M B :=
  fun bc => match m bc with
            | Ok (a, bc') => k a bc'
            | Err e => Err e
            end.

Definition st_fail {A : Type} (e : error) : M A := fun _ => Err e.

Declare Scope state_scope.
Delimit Scope state_scope with M.
Bind Scope state_scope with M.
Notation "'let*' x ':=' m 'in' k" := (st_bind m (fun x => k))
  (at level 10, x name, m at level 100, k at level 200) : state_scope.
Notation "'let*' ' p ':=' m 'in' k" := (st_bind m (fun x => match x with p => k end))
  (at level 10, p pattern, m at level 100, k at level 200) : state_scope.
Notation "m ;; k" := (st_bind m (fun _ => k))
  (at level 100, k at level 200, right associativity) : state_scope.
Open Scope state_scope.

(** [assert] and [internal_error]. *)
Definition st_assert (b : bool) : M unit :=
  if b then st_ret tt else st_fail AssertFailed.

Definition internal_error {A : Type} : M A := st_fail InternalError.

Definition skip : M unit := st_ret tt.

(** Reading the fields of a gate, and assigning to them. *)
Definition gate (a : nat) : M Gate :=
  fun bc => do g <- deref (gates bc) a; Ok (g, bc).

Definition modify (a : nat) (f : Gate -> Gate) : M unit :=
  fun bc => do g <- deref (gates bc) a;
            Ok (tt, set_gates (<[a := f g]> (gates bc)) bc).

(** [bc->changed = true]. *)
Definition set_bc_changed : M unit := fun bc => Ok (tt, set_changed true bc).

Definition get_may_transform_input_gates : M bool :=
  fun bc => Ok (may_transform_input_gates bc, bc).

(** *** Loops *)

(** A loop over the elements that a list has when the loop starts, for
    the loops [for(ca = children; ca; ca = ca->next_child)] and the like:
    the associations are linked at the head of a list, and the body of
    such a loop unlinks only the association in hand or ones before it. *)
Fixpoint for_each {X : Type} (l : list X) (body : X -> M unit) : M unit :=
  match l with
  | [] => st_ret tt
  | x :: l' => body x;; for_each l' body
  end.

(** The same with variables [a] carried along, and a body that may leave
    the loop with a result: [None] goes on, [Some r] leaves. *)
Fixpoint loop {X A R : Type} (l : list X) (a : A)
    (body : A -> X -> M (A + R)) : M (A + R) :=
  match l with
  | [] => st_ret (inl a)
  | x :: l' =>
      let* f := body a x in
      match f with
      | inl a' => loop l' a' body
      | inr r => st_ret (inr r)
      end
  end.

(** [while(head) body]: the head of the list is read again before every
    round.  Every body in gate.cc unlinks the head it is given, so
    [fuel], the length of the list at the start, is the number of rounds;
    a loop that would go on (a gate linked to itself) is [OutOfFuel]. *)
Fixpoint while_head {X R : Type} (fuel : nat) (head : M (option X))
    (body : X -> M (option R)) : M (option R) :=
  let* h := head in
  match h with
  | None => st_ret None
  | Some x =>
      match fuel with
      | O => st_fail OutOfFuel
      | S fuel' =>
          let* r := body x in
          match r with
          | Some r => st_ret (Some r)
          | None => while_head fuel' head body
          end
      end
  end.

(** [while(children) ...] of the gate [this]. *)
Definition while_children {R : Type} (this : nat)
    (body : nat * nat -> M (option R)) : M (option R) :=
  let* g := gate this in
  while_head (length (children g))
             (let* g := gate this in st_ret (head (children g))) body.

(** [while(parents) ...] of the gate [this]. *)
Definition while_parents {R : Type} (this : nat)
    (body : nat * nat -> M (option R)) : M (option R) :=
  let* g := gate this in
  while_head (length (parents g))
             (let* g := gate this in st_ret (head (parents g))) body.

(** *** The parent-child associations

    An association is known by its number [e]; it stands in the list
    [children] of its parent with its child, and in the list [parents] of
    its child with its parent. *)

Fixpoint unlink (e : nat) (l : list (nat * nat)) : list (nat * nat) :=
  match l with
  | [] => []
  | x :: l' => if (fst x =? e)%nat then l' else x :: unlink e l'
  end.

(** The association [e] gets another far end. *)
Fixpoint retarget (e far : nat) (l : list (nat * nat)) : list (nat * nat) :=
  match l with
  | [] => []
  | x :: l' => if (fst x =? e)%nat then (e, far) :: l' else x :: retarget e far l'
  end.

Definition link_parent (e f c : nat) : M unit :=
  modify f (fun g => set_children ((e, c) :: children g) g).

Definition link_child (e f c : nat) : M unit :=
  modify c (fun g => set_parents ((e, f) :: parents g) g).

Definition unlink_parent (e f : nat) : M unit :=
  modify f (fun g => set_children (unlink e (children g)) g).

Definition unlink_child (e c : nat) : M unit :=
  modify c (fun g => set_parents (unlink e (parents g)) g).

(** [new ChildAssoc(f, c)], that is [f->add_child(c)]. *)
Definition add_child (this child : nat) : M unit :=
  let* e := (fun bc => Ok (next_edge bc, set_next_edge (S (next_edge bc)) bc)) in
  link_parent e this child;;
  link_child e this child.

(** [delete ca] for the association [e] from [parent] to [child]. *)
Definition delete_assoc (e parent child : nat) : M unit :=
  unlink_parent e parent;;
  unlink_child e child.

(** [ca->change_child(new_child)]. *)
Definition change_child (e parent child new_child : nat) : M unit :=
  unlink_child e child;;
  modify parent (fun g => set_children (retarget e new_child (children g)) g);;
  link_child e parent new_child.

(** [ca->change_parent(new_parent)]. *)
Definition change_parent (e parent child new_parent : nat) : M unit :=
  unlink_parent e parent;;
  modify child (fun g => set_parents (retarget e new_parent (parents g)) g);;
  link_parent e new_parent child.

(** [Gate::remove_all_children]. *)
Definition remove_all_children (this : nat) : M unit :=
  let* _ := while_children (R := unit) this
              (fun ca => delete_assoc (fst ca) this (snd ca);; st_ret None) in
  st_ret tt.

(** [new Gate(t)]: a gate at an address that is not in use, not
    installed yet. *)
Definition new_gate (t : GateType) : M nat :=
  fun bc => let a := fresh (dom (gates bc)) in
            Ok (a, set_gates (<[a := new_Gate t]> (gates bc)) bc).

(** [!parents], [!children], [!handles]. *)
Definition no_parents (a : nat) : M bool :=
  let* g := gate a in st_ret (match parents g with [] => true | _ => false end).

Definition no_children (a : nat) : M bool :=
  let* g := gate a in st_ret (match children g with [] => true | _ => false end).

(** *** The stack of the gates to process *)

(** [Gate::add_in_pstack]. *)
Definition add_in_pstack (this : nat) : M unit :=
  let* g := gate this in
  if negb (in_pstack g) then
    modify this (set_in_pstack true);;
    (fun bc => Ok (tt, set_pstack (this :: pstack bc) bc))
  else skip.

(** [Gate::add_parents_in_pstack]. *)
Definition add_parents_in_pstack (this : nat) : M unit :=
  let* g := gate this in
  for_each (parents g) (fun pa => add_in_pstack (snd pa)).

(** [Gate::add_children_in_pstack]. *)
Definition add_children_in_pstack (this : nat) : M unit :=
  let* g := gate this in
  for_each (children g) (fun ca => add_in_pstack (snd ca)).

(** [if(!child->parents) child->add_in_pstack(bc)]. *)
Definition add_in_pstack_if_no_parents (child : nat) : M unit :=
  let* orphan := no_parents child in
  if orphan then add_in_pstack child else skip.

(** [Gate::transform_into_constant]. *)
Definition transform_into_constant (this : nat) (v : bool) : M unit :=
  let* g := gate this in
  (if determined g then st_assert (eqb (value g) v)
   else modify this (set_value v));;
  modify this (fun g => set_type (if value g then tTRUE else tFALSE) g);;
  let* _ := while_children (R := unit) this
              (fun ca =>
                 delete_assoc (fst ca) this (snd ca);;
                 add_in_pstack_if_no_parents (snd ca);;
                 st_ret None) in
  set_bc_changed.

(** The end of many a rule of [simplify]:
    [if(determined && value != v) return false;
     transform_into_constant(bc, v); add_parents_in_pstack(bc);
     return true;] *)
Definition constant_unless_conflict (this : nat) (v : bool) : M bool :=
  let* g := gate this in
  if determined g && negb (eqb (value g) v) then st_ret false
  else
    transform_into_constant this v;;
    add_parents_in_pstack this;;
    st_ret true.

(** [children->child] and [children->next_child->child], ... of a gate. *)
Definition child_at (a : nat) (n : nat) : M nat :=
  let* g := gate a in
  fun bc => do c <- nth_child g n; Ok (c, bc).

(** [Gate::count_children] of the gate at [a]. *)
Definition count_children_of (a : nat) : M Z :=
  let* g := gate a in st_ret (count_children g).

(** [child->parents->next_parent == 0]: the child has one parent
    association (the code reads it for children of the gate in hand). *)
Definition single_parent (a : nat) : M bool :=
  let* g := gate a in
  match parents g with
  | [] => st_fail NullPointer
  | [_] => st_ret true
  | _ => st_ret false
  end.

(** The loops that reset the marks:
    [ca->child->temp = 0;
     if(ca->child->type == tNOT) ca->child->children->child->temp = 0;] *)
Definition clear_temps_with_grandchildren (this : nat) : M unit :=
  let* g := gate this in
  for_each (children g) (fun ca =>
    modify (snd ca) (set_temp 0);;
    let* cg := gate (snd ca) in
    if is_type (type cg) tNOT then
      let* grandchild := child_at (snd ca) 0 in
      modify grandchild (set_temp 0)
    else skip).

(** [for(ca = children; ca; ca = ca->next_child) ca->child->temp = t;] *)
Definition set_temps (this : nat) (t : Z) : M unit :=
  let* g := gate this in
  for_each (children g) (fun ca => modify (snd ca) (set_temp t)).

(** [Gate::remove_g_not_g_and_duplicate_children]. *)
Definition remove_g_not_g_and_duplicate_children (this : nat) : M bool :=
  let* g := gate this in
  if negb (is_type (type g) tOR || is_type (type g) tAND || is_type (type g) tEQUIV)
  then st_ret true
  else
    (* Clear temp fields of children *)
    clear_temps_with_grandchildren this;;
    let* r := loop (children g) tt (fun _ ca =>
      let '(e, child) := ca in
      let* cg := gate child in
      if determined cg then st_ret (inl tt)
      else if temp cg =? 2 then st_ret (inr tt)  (* g_not_g_found = true; break *)
      else if temp cg =? 1 then
        (* A duplicate child found *)
        delete_assoc e this child;; st_ret (inl tt)
      else
        modify child (set_temp 1);;
        if is_type (type cg) tNOT then
          let* grandchild := child_at child 0 in
          let* gg := gate grandchild in
          if temp gg =? 1 then st_ret (inr tt)   (* g_not_g_found = true; break *)
          else modify grandchild (set_temp 2);; st_ret (inl tt)
        else st_ret (inl tt)) in
    let g_not_g_found := match r with inr _ => true | inl _ => false end in
    (* Clear temp fields of children *)
    clear_temps_with_grandchildren this;;
    if g_not_g_found then
      let* g := gate this in
      match type g with
      | tAND => constant_unless_conflict this false    (* AND(x,~x,y,z) = F *)
      | tOR => constant_unless_conflict this true      (* OR(x,~x,y,z) = T *)
      | tEQUIV => constant_unless_conflict this false  (* EQUIV(x,~x,y,z) = F *)
      | _ => st_fail AssertFailed
      end
    else
      let* n := count_children_of this in
      (if n =? 1 then add_in_pstack this else skip);;
      st_ret true.

(** [ca2 = children; while(ca2 != ca) { if(p(ca2)) { ...; break; }
    ca2 = ca2->next_child; }]: the first association before [e] that
    satisfies [p], if there is one. *)
Fixpoint find_before (e : nat) (p : nat * nat -> M bool) (l : list (nat * nat))
  : M (option (nat * nat)) :=
  match l with
  | [] => st_ret None
  | x :: l' =>
      if (fst x =? e)%nat then st_ret None
      else
        let* b := p x in
        if b then st_ret (Some x) else find_before e p l'
  end.

(** [Gate::remove_parity_duplicate_children]. *)
Definition remove_parity_duplicate_children (this : nat) : M bool :=
  let* g := gate this in
  if negb (is_type (type g) tODD || is_type (type g) tEVEN) then st_ret true
  else
    (* Clear temp fields of children *)
    set_temps this 0;;
    for_each (children g) (fun ca =>
      let '(e, child) := ca in
      let* cg := gate child in
      if determined cg then skip
      else if temp cg =? 1 then
        (* A duplicate child found, remove this and previous occurrence *)
        modify child (set_temp 0);;
        let* g := gate this in
        let* prev := find_before e (fun ca2 => st_ret (snd ca2 =? child)%nat)
                                 (children g) in
        match prev with
        | None => st_fail AssertFailed          (* assert(ca2 != ca) *)
        | Some ca2 =>
            delete_assoc (fst ca2) this (snd ca2);;
            delete_assoc e this child;;
            add_in_pstack_if_no_parents child
        end
      else
        (* Mark child as seen *)
        modify child (set_temp 1));;
    (* Clear temp fields of (remaining) children *)
    set_temps this 0;;
    let* empty := no_children this in
    if empty then
      let* g := gate this in
      match type g with
      | tODD => constant_unless_conflict this false   (* ODD() = F *)
      | tEVEN => constant_unless_conflict this true   (* EVEN() = T *)
      | _ => st_fail AssertFailed
      end
    else
      let* n := count_children_of this in
      (if n =? 1 then add_in_pstack this else skip);;
      st_ret true.

(** [tmin = (tmin == 0)?0:tmin - 1; tmax = tmax - 1;] *)
Definition decrement_bounds (g : Gate) : Gate :=
  set_tmax (u32 (tmax g - 1)) (set_tmin (if tmin g =? 0 then 0 else tmin g - 1) g).

(** [Gate::remove_cardinality_g_not_g].  The result of the loop is
    [Some b] when the function returns [b] from inside the loop. *)
Definition remove_cardinality_g_not_g (this : nat) : M bool :=
  let* g := gate this in
  if negb (is_type (type g) tTHRESHOLD) then st_ret true
  else
    (* Clear temp fields of children *)
    clear_temps_with_grandchildren this;;
    let update_bounds : M (unit + bool) :=
      (* Update tmin and tmax *)
      let* g := gate this in
      if tmax g =? 0 then
        let* b := constant_unless_conflict this false in st_ret (inr b)
      else modify this decrement_bounds;; st_ret (inl tt) in
    let* r := loop (children g) tt (fun _ ca =>
      let '(e, child) := ca in
      let* cg := gate child in
      if temp cg =? 2 then
        (* child already seen in negative phase *)
        modify child (set_temp 0);;
        let* g := gate this in
        let* prev := find_before e (fun ca2 =>
                       let* c2 := gate (snd ca2) in
                       if is_type (type c2) tNOT then
                         let* gc := child_at (snd ca2) 0 in
                         st_ret (gc =? child)%nat
                       else st_ret false) (children g) in
        match prev with
        | None => st_fail AssertFailed          (* assert(ca2 != ca) *)
        | Some ca2 =>
            modify (snd ca2) (set_temp 0);;
            delete_assoc (fst ca2) this (snd ca2);;
            add_in_pstack_if_no_parents (snd ca2);;
            delete_assoc e this child;;
            update_bounds
        end
      else
        (* Child not seen in either negative or positive phase *)
        modify child (set_temp 1);;
        if is_type (type cg) tNOT then
          let* grandchild := child_at child 0 in
          let* gg := gate grandchild in
          if temp gg =? 1 then
            (* grandchild already seen in positive phase *)
            modify child (set_temp 0);;
            modify grandchild (set_temp 0);;
            let* g := gate this in
            let* prev := find_before e (fun ca2 =>
                           st_ret (snd ca2 =? grandchild)%nat) (children g) in
            match prev with
            | None => st_fail AssertFailed      (* assert(ca2 != ca) *)
            | Some ca2 =>
                delete_assoc (fst ca2) this (snd ca2);;
                delete_assoc e this child;;
                add_in_pstack_if_no_parents child;;
                update_bounds
            end
          else modify grandchild (set_temp 2);; st_ret (inl tt)
        else st_ret (inl tt)) in
    match r with
    | inr b => st_ret b
    | inl _ =>
        (* Clear temp fields of (remaining) children *)
        clear_temps_with_grandchildren this;;
        st_ret true
    end.

(** *** Handles *)

(** [while(handles) ...] of the gate [this]. *)
Definition while_handles {R : Type} (this : nat)
    (body : Handle -> M (option R)) : M (option R) :=
  let* g := gate this in
  while_head (length (handles g))
             (let* g := gate this in st_ret (head (handles g))) body.

(** Modelled from the spec: [Handle::change_gate] (handle.hh is not among
    the sources): handles are owned by the gate they reference and are
    moved, not copied, to the surviving gate.  The handle is the first
    one of [this]. *)
Definition change_gate (this new_gate : nat) : M unit :=
  let* g := gate this in
  match handles g with
  | [] => st_fail NullPointer
  | h :: hs =>
      modify this (set_handles hs);;
      modify new_gate (fun n => set_handles (h :: handles n) n)
  end.

(** [while(parents) parents->change_child(child);] *)
Definition move_parents (this child : nat) : M unit :=
  let* _ := while_parents (R := unit) this
              (fun pa => change_child (fst pa) (snd pa) this child;; st_ret None) in
  skip.

(** [while(handles) handles->change_gate(child);] *)
Definition move_handles (this child : nat) : M unit :=
  let* _ := while_handles (R := unit) this
              (fun _ => change_gate this child;; st_ret None) in
  skip.

(** [while(children) children->change_parent(new_parent);] *)
Definition move_children (this new_parent : nat) : M unit :=
  let* _ := while_children (R := unit) this
              (fun ca => change_parent (fst ca) this (snd ca) new_parent;;
                         st_ret None) in
  skip.

(** *** The operations of the circuit that gate.cc calls

    bc.cc and the hash table of gates are not among the sources; the
    rewriting is parameterised by these operations. *)
Record BCOps : Type := mkBCOps {
  (** [bc->depends_on(a, b)] *)
  depends_on : nat -> nat -> M bool;
  (** [bc->install_gate(g)] *)
  install_gate : nat -> M unit;
  (** [bc->new_NOT(child)] *)
  new_NOT : nat -> M nat;
  (** [bc->add_true_gate_counter(&child_list)] *)
  add_true_gate_counter : list nat -> M (list nat);
  (** [bc->add_unsigned_constant(c)] *)
  add_unsigned_constant : Z -> M (list nat);
  (** [bc->add_unsigned_ge(x, y)] and [bc->add_unsigned_le(x, y)] *)
  add_unsigned_ge : list nat -> list nat -> M nat;
  add_unsigned_le : list nat -> list nat -> M nat;
  (** the hash table [GateHash] of [share] and its [ht->test_and_set(this)] *)
  table : Type;
  test_and_set : table -> nat -> M (nat * table)
}.

(** [if(child->determined) { if(child->value != v) return false; }
     else { child->determined = true; child->value = v;
            child->add_in_pstack(bc); }]:
    the result is [false] when the function returns [false]. *)
Definition propagate_to_child (child : nat) (v : bool) : M bool :=
  let* cg := gate child in
  if determined cg then
    st_ret (eqb (value cg) v)
  else
    modify child (set_value v);;
    add_in_pstack child;;
    st_ret true.

(** ** [Gate::simplify]

    One definition for each case of the [switch]. *)

Section Simplify.

Context (ops : BCOps).

(** The limited cone of influence simplification at the start. *)
Definition simplify_delete (this : nat) : M bool :=
  add_children_in_pstack this;;
  remove_all_children this;;
  modify this (set_type tDELETED);;
  set_bc_changed;;
  st_ret true.

(** [case tFALSE] and [case tTRUE], with [v] the value of the constant. *)
Definition simplify_constant (this : nat) (v : bool) : M bool :=
  let* g := gate this in
  let* ok :=
    (if determined g then
       st_ret (eqb (value g) v)
     else
       modify this (set_value v);;
       add_parents_in_pstack this;;
       st_ret true) in
  if negb ok then st_ret false
  else
    let* g := gate this in
    (match handles g, parents g with
     | [], [] => modify this (set_type tDELETED)
     | _, _ => skip
     end);;
    st_ret true.

(** [case tVAR]. *)
Definition simplify_VAR (this : nat) : M bool :=
  let* g := gate this in
  let* may := get_may_transform_input_gates in
  (if determined g && may then transform_into_constant this (value g) else skip);;
  st_ret true.

(** [case tREF]. *)
Definition simplify_REF (this : nat) : M bool :=
  let* child := child_at this 0 in
  let* g := gate this in
  let* cg := gate child in
  if determined g then
    let* ok := propagate_to_child child (value g) in
    if negb ok then st_ret false
    else
      transform_into_constant this (value g);;
      add_parents_in_pstack this;;
      st_ret true
  else if determined cg then
    transform_into_constant this (value cg);;
    add_parents_in_pstack this;;
    st_ret true
  else
    (* Unify this and child *)
    add_parents_in_pstack this;;
    move_parents this child;;
    move_handles this child;;
    remove_all_children this;;
    modify this (set_type tDELETED);;
    set_bc_changed;;
    st_ret true.

(** [case tNOT]. *)
Definition simplify_NOT (this : nat) : M bool :=
  let* child := child_at this 0 in
  let* g := gate this in
  let* cg := gate child in
  if determined g then
    let* ok := propagate_to_child child (negb (value g)) in
    if negb ok then st_ret false
    else
      transform_into_constant this (value g);;
      add_parents_in_pstack this;;
      st_ret true
  else if determined cg then
    transform_into_constant this (negb (value cg));;
    add_parents_in_pstack this;;
    st_ret true
  else if is_type (type cg) tNOT then
    (* g := ~~h  --> g := h *)
    let* grandchild := child_at child 0 in
    modify this (set_type tREF);;
    remove_all_children this;;
    add_in_pstack_if_no_parents child;;
    add_child this grandchild;;
    add_in_pstack this;;
    set_bc_changed;;
    st_ret true
  else st_ret true.

(** The shape of most rules of [case tITE]:
    [add_children_in_pstack(bc); remove_all_children(); type = t;
     add_child(...); add_in_pstack(bc); (add_parents_in_pstack(bc);)
     bc->changed = true; return true;] *)
Definition ite_rewrite (this : nat) (t : GateType) (new_children : M unit)
    (parents_too : bool) : M bool :=
  add_children_in_pstack this;;
  remove_all_children this;;
  modify this (set_type t);;
  new_children;;
  add_in_pstack this;;
  (if parents_too then add_parents_in_pstack this else skip);;
  set_bc_changed;;
  st_ret true.

(** [case tITE]. *)
Definition simplify_ITE (this : nat) : M bool :=
  let* if_child := child_at this 0 in
  let* then_child := child_at this 1 in
  let* else_child := child_at this 2 in
  let* ig := gate if_child in
  let* tg := gate then_child in
  let* eg := gate else_child in
  if determined ig && eqb (value ig) true then
    (* ITE(T,t,e) --> t *)
    ite_rewrite this tREF (add_child this then_child) false
  else if determined ig && eqb (value ig) false then
    (* ITE(F,t,e) --> e *)
    ite_rewrite this tREF (add_child this else_child) false
  else if determined tg && eqb (value tg) true then
    (* ITE(i,T,e) --> OR(i,e) *)
    ite_rewrite this tOR (add_child this if_child;; add_child this else_child) true
  else if determined tg && eqb (value tg) false then
    (* ITE(i,F,e) --> AND(~i,e) *)
    ite_rewrite this tAND
      (let* new_not := new_NOT ops if_child in
       add_child this new_not;; add_child this else_child) true
  else if determined eg && eqb (value eg) true then
    (* ITE(i,t,T) --> OR(~i,t) *)
    ite_rewrite this tOR
      (let* new_not := new_NOT ops if_child in
       add_child this new_not;; add_child this then_child) true
  else if determined eg && eqb (value eg) false then
    (* ITE(i,t,F) --> AND(i,t) *)
    ite_rewrite this tAND (add_child this if_child;; add_child this then_child) true
  else if (then_child =? else_child)%nat then
    (* ITE(i,x,x) --> x *)
    ite_rewrite this tREF (add_child this then_child) false
  else if (if_child =? then_child)%nat then
    (* ITE(x,x,e) --> OR(x,e) *)
    ite_rewrite this tOR (add_child this if_child;; add_child this else_child) true
  else if (if_child =? else_child)%nat then
    (* ITE(x,t,x) --> AND(x,t) *)
    ite_rewrite this tAND (add_child this if_child;; add_child this then_child) true
  else
    let* else_is_not_then :=
      (if is_type (type eg) tNOT then
         let* c := child_at else_child 0 in st_ret (c =? then_child)%nat
       else st_ret false) in
    if else_is_not_then then
      (* ITE(x,y,~y) --> EQUIV(x,y) *)
      remove_all_children this;;
      add_in_pstack_if_no_parents else_child;;
      modify this (set_type tEQUIV);;
      add_child this if_child;;
      add_child this then_child;;
      add_in_pstack this;;
      set_bc_changed;;
      st_ret true
    else
      let* then_is_not_else :=
        (if is_type (type tg) tNOT then
           let* c := child_at then_child 0 in st_ret (c =? else_child)%nat
         else st_ret false) in
      if then_is_not_else then
        (* ITE(x,~y,y) --> ODD(x,y) *)
        remove_all_children this;;
        add_in_pstack_if_no_parents then_child;;
        modify this (set_type tODD);;
        add_child this if_child;;
        add_child this else_child;;
        add_in_pstack this;;
        set_bc_changed;;
        st_ret true
      else st_ret true.

(** The parent associations of a gate as the code walks them:
    [next_fa = fa->next_parent;
     while(next_fa && next_fa->parent == parent) next_fa = next_fa->next_parent;]
    skips the associations that follow with the same parent. *)
Fixpoint first_of_runs (l : list (nat * nat)) : list (nat * nat) :=
  match l with
  | [] => []
  | x :: l' =>
      x :: match l' with
           | [] => []
           | y :: _ => if (snd y =? snd x)%nat then tl (first_of_runs l')
                       else first_of_runs l'
           end
  end.

(** [all_same] and [nof_children] of
    [for(fca = parent->children; fca; fca = fca->next_child) {
       if(fca->child->temp != 1) { all_same = false; break; }
       nof_children++; }] *)
Definition all_children_marked (parent : nat) : M (bool * Z) :=
  let* pg := gate parent in
  let* r := loop (children pg) 0 (fun n fca =>
    let* cg := gate (snd fca) in
    if negb (temp cg =? 1) then st_ret (inr n)
    else st_ret (inl (u32 (n + 1)))) in
  match r with
  | inl n => st_ret (true, n)
  | inr n => st_ret (false, n)
  end.

(** [for(ca2 = children; ca2; ) { next_ca2 = ca2->next_child;
      if(ca2->child->temp == 0) delete ca2; ca2 = next_ca2; }] *)
Definition delete_unmarked_children (this : nat) : M unit :=
  let* g := gate this in
  for_each (children g) (fun ca2 =>
    let* cg := gate (snd ca2) in
    if temp cg =? 0 then delete_assoc (fst ca2) this (snd ca2) else skip).

(** The sharing of [case tOR] and [case tAND] ([t] is the type):
    OR(x,y,z,v), t=OR(y,z) ==> OR(x,t,v). *)
Definition share_subgate (this : nat) (t : GateType) : M unit :=
  set_temps this 1;;
  let* g := gate this in
  let* _ := loop (children g) tt (fun _ ca =>
    let* cg := gate (snd ca) in
    loop (first_of_runs (parents cg)) tt (fun _ fa =>
      let parent := snd fa in
      let* pg := gate parent in
      if negb (parent =? this)%nat && is_type (type pg) t &&
         (determined pg || match parents pg with [] => false | _ => true end)
      then
        let* m := all_children_marked parent in
        let '(all_same, nof_children) := m in
        let* n := count_children_of this in
        if all_same && (1 <? nof_children) && (nof_children <? n) then
          set_temps parent 0;;
          delete_unmarked_children this;;
          add_child this parent;;
          st_ret (inr tt)                       (* goto done *)
        else st_ret (inl tt)
      else st_ret (inl tt))) in
  set_temps this 0.

(** The collapsing of [case tOR] and [case tAND]:
    OR(x,OR(t,u,v),y) = OR(x,t,u,v,y); the result is [collapsed]. *)
Definition collapse_nested (this : nat) (t : GateType) : M bool :=
  let* g := gate this in
  let* r := loop (R := unit) (children g) false (fun collapsed ca =>
    let '(e, child) := ca in
    let* cg := gate child in
    let* nested :=
      (if is_type (type cg) t && negb (determined cg) then single_parent child
       else st_ret false) in
    if nested then
      for_each (children cg) (fun gca => add_child this (snd gca));;
      delete_assoc e this child;;
      add_in_pstack child;;
      st_ret (inl true)
    else st_ret (inl collapsed)) in
  match r with
  | inl collapsed => st_ret collapsed
  | inr _ => st_ret false
  end.

(** [case tOR] ([t = tOR], [dominant = true]) and [case tAND]
    ([t = tAND], [dominant = false]): the two cases are the same code with
    the truth values exchanged. *)
Definition simplify_OR_AND (this : nat) (t : GateType) (dominant : bool) : M bool :=
  let* g := gate this in
  if determined g && eqb (value g) (negb dominant) then
    let* r := while_children this (fun ca =>
      let* ok := propagate_to_child (snd ca) (negb dominant) in
      if negb ok then st_ret (Some false)
      else delete_assoc (fst ca) this (snd ca);; st_ret None) in
    match r with
    | Some b => st_ret b
    | None =>
        transform_into_constant this (negb dominant);;
        add_parents_in_pstack this;;
        st_ret true
    end
  else
    let* r := loop (children g) 0 (fun nof_undet ca =>
      let '(e, child) := ca in
      let* cg := gate child in
      if determined cg then
        if eqb (value cg) dominant then st_ret (inr tt)   (* found; break *)
        else
          delete_assoc e this child;;
          add_in_pstack_if_no_parents child;;
          st_ret (inl nof_undet)
      else st_ret (inl (u32 (nof_undet + 1)))) in
    match r with
    | inr _ =>
        transform_into_constant this dominant;;
        add_parents_in_pstack this;;
        st_ret true
    | inl nof_undet =>
        if nof_undet =? 0 then
          (* All children were [negb dominant] *)
          constant_unless_conflict this (negb dominant)
        else if nof_undet =? 1 then
          modify this (set_type tREF);;
          add_in_pstack this;;
          st_ret true
        else
          let* ok := remove_g_not_g_and_duplicate_children this in
          if negb ok then st_ret false
          else
            let* g := gate this in
            if negb (is_type (type g) t) then st_ret true
            else
              let* n := count_children_of this in
              (if 3 <=? n then share_subgate this t else skip);;
              (* Collapse some nested gates of the same type *)
              let* collapsed := collapse_nested this t in
              if collapsed then add_in_pstack this;; st_ret true
              else st_ret true
    end.

(** [if(type == tODD) type = tEVEN; else if(type == tEVEN) type = tODD;
     else assert(should_not_happen);] *)
Definition flip_parity (this : nat) : M unit :=
  let* g := gate this in
  match type g with
  | tODD => modify this (set_type tEVEN)
  | tEVEN => modify this (set_type tODD)
  | _ => st_fail AssertFailed
  end.

(** [for(fa = from->parents; fa; ) { next_fa = fa->next_parent;
      if(fa->parent != this) fa->change_child(to); fa = next_fa; }] *)
Definition redirect_other_parents (this from to : nat) : M unit :=
  let* fg := gate from in
  for_each (parents fg) (fun fa =>
    if negb (snd fa =? this)%nat then change_child (fst fa) (snd fa) from to
    else skip).

(** [new Gate(t, child)]. *)
Definition new_gate1 (t : GateType) (child : nat) : M nat :=
  let* a := new_gate t in
  add_child a child;;
  st_ret a.

(** [new Gate(t, child1, child2)]. *)
Definition new_gate2 (t : GateType) (child1 child2 : nat) : M nat :=
  let* a := new_gate t in
  add_child a child2;;
  add_child a child1;;
  st_ret a.

(** [child->parents->next_parent] is not null. *)
Definition has_other_parent (a : nat) : M bool :=
  let* s := single_parent a in st_ret (negb s).

(** In [case tODD], [case tEVEN]: the two children are equivalent.
    The result is [Some b] when the function returns [b]. *)
Definition parity_children_equivalent (this : nat) : M (option bool) :=
  let* child1 := child_at this 0 in
  let* child2 := child_at this 1 in
  let* g := gate this in
  if (child1 =? child2)%nat then
    transform_into_constant this (value g);;
    add_parents_in_pstack this;;
    st_ret (Some true)
  else
    let input_rule (x y : nat) : M bool :=
      (* x is an input gate and y does not depend on it ==>
         make x equivalent to y *)
      let* xg := gate x in
      if is_type (type xg) tVAR then
        let* d := depends_on ops y x in
        if negb d then
          transform_into_constant this (value g);;
          add_parents_in_pstack this;;
          modify x (set_type tREF);;
          add_child x y;;
          add_in_pstack x;;
          st_ret true
        else st_ret false
      else st_ret false in
    let* may := get_may_transform_input_gates in
    let* done1 := (if may then input_rule child1 child2 else st_ret false) in
    if done1 then st_ret (Some true)
    else
      let* done2 := (if may then input_rule child2 child1 else st_ret false) in
      if done2 then st_ret (Some true)
      else
        let* o1 := has_other_parent child1 in
        let* both := (if o1 then has_other_parent child2 else st_ret false) in
        (if both then
           (* Both children have at least one parent other than this *)
           let* d := depends_on ops child1 child2 in
           if negb d then
             (* Move the edges to child2 to point to child1 instead *)
             redirect_other_parents this child2 child1;;
             add_parents_in_pstack child1
           else
             (* Move the edges to child1 to point to child2 instead *)
             redirect_other_parents this child1 child2;;
             add_parents_in_pstack child2
         else skip);;
        st_ret None.

(** In [case tODD], [case tEVEN]: the two children are inequivalent. *)
Definition parity_children_inequivalent (this : nat) : M (option bool) :=
  let* child1 := child_at this 0 in
  let* child2 := child_at this 1 in
  let* g := gate this in
  if (child1 =? child2)%nat then st_ret (Some false)
  else
    let input_rule (x y : nat) : M bool :=
      (* Change x to NOT(y) *)
      let* xg := gate x in
      if is_type (type xg) tVAR then
        let* d := depends_on ops y x in
        if negb d then
          transform_into_constant this (value g);;
          add_parents_in_pstack this;;
          modify x (set_type tNOT);;
          add_child x y;;
          add_parents_in_pstack x;;
          add_in_pstack x;;
          st_ret true
        else st_ret false
      else st_ret false in
    let* may := get_may_transform_input_gates in
    let* done1 := (if may then input_rule child1 child2 else st_ret false) in
    if done1 then st_ret (Some true)
    else
      let* done2 := (if may then input_rule child2 child1 else st_ret false) in
      if done2 then st_ret (Some true)
      else
        let* o1 := has_other_parent child1 in
        let* both := (if o1 then has_other_parent child2 else st_ret false) in
        (if both then
           (* Both children have at least one parent other than this *)
           let* c1 := gate child1 in
           let* free := (if is_type (type c1) tVAR then st_ret true
                         else let* d := depends_on ops child1 child2 in
                              st_ret (negb d)) in
           let redirect (x y : nat) : M unit :=
             (* Move the edges to y to point to NOT(x) instead *)
             let* new_not := new_gate1 tNOT x in
             install_gate ops new_not;;
             redirect_other_parents this y new_not;;
             add_parents_in_pstack new_not;;
             add_in_pstack new_not in
           if free then redirect child1 child2 else redirect child2 child1
         else skip);;
        st_ret None.

(** In [case tODD]: ODD(x, OR(x,y,z)) == ~x & OR(y,z), for the child [x]
    and the child [y_or] of type OR without other parents.  The result is
    [true] when the rule was applied (and the function returns [true]). *)
Definition odd_with_or (this x y_or : nat) : M bool :=
  let* og := gate y_or in
  if existsb (fun ca => (snd ca =? x)%nat) (children og) then
    let* new_or := new_gate tOR in
    install_gate ops new_or;;
    let* og := gate y_or in
    for_each (children og) (fun ca =>
      if negb (snd ca =? x)%nat then add_child new_or (snd ca) else skip);;
    remove_all_children this;;
    add_in_pstack_if_no_parents y_or;;
    let* new_not := new_gate1 tNOT x in
    install_gate ops new_not;;
    modify this (set_type tAND);;
    add_child this new_not;;
    add_child this new_or;;
    add_in_pstack this;;
    add_in_pstack new_not;;
    add_in_pstack new_or;;
    st_ret true
  else st_ret false.

(** [case tODD] and [case tEVEN]. *)
Definition simplify_ODD_EVEN (this : nat) : M bool :=
  let* g := gate this in
  let* r := loop (R := unit) (children g) 0 (fun nof_undet ca =>
    let '(e, child) := ca in
    let* cg := gate child in
    if negb (determined cg) then st_ret (inl (u32 (nof_undet + 1)))
    else
      (* Remove determined children *)
      (if eqb (value cg) true then flip_parity this else skip);;
      delete_assoc e this child;;
      add_in_pstack_if_no_parents child;;
      st_ret (inl nof_undet)) in
  let nof_undet := match r with inl n => n | inr _ => 0 end in
  let* g := gate this in
  if nof_undet =? 0 then
    match type g with
    | tODD => constant_unless_conflict this false     (* ODD() = F *)
    | tEVEN => constant_unless_conflict this true     (* EVEN() = T *)
    | _ => st_fail AssertFailed
    end
  else if nof_undet =? 1 then
    (match type g with
     | tODD => modify this (set_type tREF)             (* ODD(x) = x *)
     | tEVEN => modify this (set_type tNOT);; add_parents_in_pstack this
     | _ => st_fail AssertFailed
     end);;
    add_in_pstack this;;
    st_ret true
  else
    (* "Absorb" negations *)
    let* r := loop (R := unit) (children g) false (fun has_determined_children ca =>
      let '(e, child) := ca in
      let* cg := gate child in
      if is_type (type cg) tNOT then
        let* grandchild := child_at child 0 in
        change_child e this child grandchild;;
        let* gg := gate grandchild in
        add_in_pstack_if_no_parents child;;
        flip_parity this;;
        st_ret (inl (has_determined_children || determined gg))
      else st_ret (inl has_determined_children)) in
    let has_determined_children := match r with inl b => b | inr _ => false end in
    if has_determined_children then
      (* Restart, latter simplifications assume undetermined children *)
      add_in_pstack this;;
      st_ret true
    else
      (* Remove duplicate children *)
      let* ok := remove_parity_duplicate_children this in
      if negb ok then st_ret false
      else
        let* g := gate this in
        if in_pstack g then st_ret true
        else if negb (is_type (type g) tODD || is_type (type g) tEVEN) then st_ret true
        else
          let nof_undet := count_children g in
          st_assert (2 <=? nof_undet);;
          let* r1 :=
            (if (is_type (type g) tEVEN && (nof_undet =? 2) && determined g &&
                 eqb (value g) true) ||
                (is_type (type g) tODD && (nof_undet =? 2) && determined g &&
                 eqb (value g) false)
             then parity_children_equivalent this
             else st_ret None) in
          match r1 with
          | Some b => st_ret b
          | None =>
              let* g := gate this in
              let* r2 :=
                (if (is_type (type g) tEVEN && (nof_undet =? 2) && determined g &&
                     eqb (value g) false) ||
                    (is_type (type g) tODD && (nof_undet =? 2) && determined g &&
                     eqb (value g) true)
                 then parity_children_inequivalent this
                 else st_ret None) in
              match r2 with
              | Some b => st_ret b
              | None =>
                  let* g := gate this in
                  let* _ :=
                    (if is_type (type g) tODD && (count_children g =? 2) then
                       let* child1 := child_at this 0 in
                       let* child2 := child_at this 1 in
                       let* c1 := gate child1 in
                       let* c2 := gate child2 in
                       st_assert (negb (determined c1));;
                       st_assert (negb (determined c2));;
                       let* or2 := (if is_type (type c2) tOR then single_parent child2
                                    else st_ret false) in
                       if or2 then odd_with_or this child1 child2
                       else
                         let* or1 := (if is_type (type c1) tOR then single_parent child1
                                      else st_ret false) in
                         if or1 then odd_with_or this child2 child1
                         else st_ret false
                     else st_ret false) in
                  (* The collapsing of nested ODDs and EVENs is switched
                     off ([collapse = false]). *)
                  st_ret true
              end
          end.

(** [ca->next_child ? ca->next_child->child : ca->prev_child->child] for
    the association [e] of the list [l]. *)
Fixpoint neighbour_from (prev : option nat) (e : nat) (l : list (nat * nat))
  : option nat :=
  match l with
  | [] => None
  | x :: l' =>
      if (fst x =? e)%nat then
        match l' with
        | y :: _ => Some (snd y)
        | [] => prev
        end
      else neighbour_from (Some (snd x)) e l'
  end.

(** In [case tEQUIV], for a gate that is true: unify all input gates.
    The result is [true] when the function returns (with [true]). *)
Definition unify_input_gates (this : nat) : M bool :=
  let* g := gate this in
  let* r := loop (children g) (None, false) (fun s ca =>
    let '(first_input_gate, unified) := s in
    let '(e, child) := ca in
    let* cg := gate child in
    if negb (is_type (type cg) tVAR) then st_ret (inl s)
    else
      let* single := single_parent child in
      if single then
        (* A non-shared input gate x in EQUIV(x,y,z) = T:
           make x equivalent to y *)
        match neighbour_from None e (children g) with
        | None => st_fail NullPointer
        | Some other_child =>
            st_assert (negb (other_child =? child)%nat);;
            modify child (set_type tREF);;
            add_child child other_child;;
            add_in_pstack this;;
            add_in_pstack child;;
            st_ret (inr tt)
        end
      else
        match first_input_gate with
        | None => st_ret (inl (Some child, unified))
        | Some first =>
            modify child (set_type tREF);;
            add_child child first;;
            add_in_pstack child;;
            st_ret (inl (first_input_gate, true))
        end) in
  match r with
  | inr _ => st_ret true
  | inl (Some first, true) => add_parents_in_pstack first;; st_ret true
  | inl _ => st_ret false
  end.

(** In [case tEQUIV], for a gate that is true: find a least child gate and
    transform the edges to other children to point to it. *)
Definition unify_with_least_child (this : nat) : M unit :=
  let* g := gate this in
  match children g with
  | [] => st_fail NullPointer
  | ca :: rest =>
      let* r := loop (R := unit) rest (snd ca) (fun least_child ca =>
        let* d := depends_on ops least_child (snd ca) in
        st_ret (inl (if d then snd ca else least_child))) in
      let least_child := match r with inl c => c | inr _ => snd ca end in
      let* g := gate this in
      let* r := loop (R := unit) (children g) false (fun moved ca =>
        let child := snd ca in
        if (child =? least_child)%nat then st_ret (inl moved)
        else
          let* cg := gate child in
          redirect_other_parents this child least_child;;
          st_ret (inl (moved ||
                       existsb (fun fa => negb (snd fa =? this)%nat) (parents cg)))) in
      match r with
      | inl true => add_parents_in_pstack least_child
      | _ => skip
      end
  end.

(** [new_gate = new Gate(t); bc->install_gate(new_gate);] followed by
    [while(children) children->change_parent(new_gate);], with
    [new_gate->add_in_pstack(bc)] in between when [early] is set. *)
Definition push_children_down (this : nat) (t : GateType) (early : bool) : M nat :=
  let* new_gate := new_gate t in
  install_gate ops new_gate;;
  (if early then add_in_pstack new_gate else skip);;
  move_children this new_gate;;
  st_ret new_gate.

(** [case tEQUIV]. *)
Definition simplify_EQUIV (this : nat) : M bool :=
  let* g := gate this in
  st_assert (match children g with [] => false | _ => true end);;
  if (length (children g) =? 1)%nat then
    (* EQUIV(x) = T *)
    constant_unless_conflict this true
  else
    (* Check for determined children and count undetermined children *)
    let* r := loop (children g) 0 (fun nof_undet ca =>
      let* cg := gate (snd ca) in
      if negb (determined cg) then st_ret (inl (u32 (nof_undet + 1)))
      else if eqb (value cg) true then
        (* EQUIV(T,x,y,z) --> AND(T,x,y,z) *)
        modify this (set_type tAND);;
        add_parents_in_pstack this;;
        add_in_pstack this;;
        st_ret (inr true)
      else
        (* EQUIV(F,x,y,z) --> NOT(OR(F,x,y,z)) *)
        let* new_or := push_children_down this tOR false in
        modify this (set_type tNOT);;
        add_child this new_or;;
        add_parents_in_pstack this;;
        add_in_pstack this;;
        add_in_pstack new_or;;
        st_ret (inr true)) in
    match r with
    | inr b => st_ret b
    | inl _ =>
        let* ok := remove_g_not_g_and_duplicate_children this in
        if negb ok then st_ret false
        else
          let* g := gate this in
          if in_pstack g then st_ret true
          else if negb (is_type (type g) tEQUIV) then st_ret true
          else if determined g && eqb (value g) true then
            (* All the children are equivalent *)
            let* may := get_may_transform_input_gates in
            let* done := (if may then unify_input_gates this else st_ret false) in
            if done then st_ret true
            else unify_with_least_child this;; st_ret true
          else if determined g && eqb (value g) false && (count_children g =? 2) then
            (* EQUIV(x,y)=F <=> EVEN(x,y)=F *)
            modify this (set_type tEVEN);;
            add_parents_in_pstack this;;
            add_in_pstack this;;
            st_ret true
          else st_ret true
    end.

(** [type = t; tmin = 0; tmax = 0;] *)
Definition become (t : GateType) (g : Gate) : Gate :=
  set_tmax 0 (set_tmin 0 (set_type t g)).

(** In [case tTHRESHOLD]: [0,0](x,y,z) = NOT(OR(x,y,z)) and
    [0,2](x,y,z) = NOT(AND(x,y,z)), with the new gate of type [t]. *)
Definition threshold_negation (this : nat) (t : GateType) (parents_too : bool)
  : M bool :=
  let* new_gate := push_children_down this t true in
  modify this (become tNOT);;
  add_child this new_gate;;
  add_in_pstack this;;
  (if parents_too then add_parents_in_pstack this else skip);;
  st_ret true.

(** In [case tTHRESHOLD], for a gate that is true:
    [0,2](x,y,z,v) = T ==> AND(x,y,z) = F.  The result is [false] when the
    function returns [false]. *)
Definition threshold_falsify_ands (this : nat) : M bool :=
  set_temps this 1;;
  let* g := gate this in
  let* r := loop (children g) tt (fun _ ca =>
    let* cg := gate (snd ca) in
    loop (first_of_runs (parents cg)) tt (fun _ fa =>
      let parent := snd fa in
      let* pg := gate parent in
      if is_type (type pg) tAND then
        let* m := all_children_marked parent in
        let '(all_same, nof_children) := m in
        let* g := gate this in
        if all_same && (tmax g <? nof_children) then
          let* pg := gate parent in
          if determined pg && negb (eqb (value pg) false) then
            (* temps left unclear! *)
            st_ret (inr tt)
          else
            transform_into_constant parent false;;
            add_parents_in_pstack parent;;
            st_ret (inl tt)
        else st_ret (inl tt)
      else st_ret (inl tt))) in
  match r with
  | inr _ => st_ret false
  | inl _ => set_temps this 0;; st_ret true
  end.

(** [case tTHRESHOLD] (the code under [NEW_CARDINALITY_SIMPLIFY]). *)
Definition simplify_THRESHOLD (this : nat) : M bool :=
  let* g := gate this in
  if tmax g <? tmin g then
    (* Trivially false *)
    constant_unless_conflict this false
  else
    let* r := loop (children g) 0 (fun nof_undet ca =>
      let '(e, child) := ca in
      let* g := gate this in
      st_assert (tmin g <=? tmax g);;
      if tmax g =? 0 then
        (* [0,0](x,y,z) = NOT(OR(x,y,z)) *)
        let* b := threshold_negation this tOR false in st_ret (inr b)
      else
        let* cg := gate child in
        if negb (determined cg) then st_ret (inl (u32 (nof_undet + 1)))
        else if eqb (value cg) false then
          (* [L,U](F,x,y) = [L,U](x,y) *)
          delete_assoc e this child;; st_ret (inl nof_undet)
        else
          (* [L,U](T,x,y) = [L-1,U-1](x,y) *)
          st_assert (0 <? tmax g);;
          modify this decrement_bounds;;
          delete_assoc e this child;;
          st_ret (inl nof_undet)) in
    match r with
    | inr b => st_ret b
    | inl nof_undet =>
        let* g := gate this in
        st_assert (tmin g <=? tmax g);;
        if nof_undet <? tmin g then
          (* Trivially false *)
          constant_unless_conflict this false
        else
          (if nof_undet <? tmax g then modify this (set_tmax nof_undet) else skip);;
          let* g := gate this in
          st_assert ((tmin g <=? tmax g) && (tmax g <=? nof_undet));;
          match children g with
          | [] =>
              st_assert ((tmin g =? 0) && (tmax g =? 0));;
              (* [0,0]() = T *)
              constant_unless_conflict this true
          | _ :: _ =>
              if tmax g =? 0 then
                (* [0,0](x,y,z) = NOT(OR(x,y,z)) *)
                threshold_negation this tOR true
              else if tmin g =? nof_undet then
                (* [3,3](x,y,z) = AND(x,y,z) *)
                modify this (become tAND);;
                add_in_pstack this;;
                st_ret true
              else if (tmin g =? 0) && (tmax g =? nof_undet) then
                (* [0,3](x,y,z) = T *)
                constant_unless_conflict this true
              else if (tmin g =? 0) && (u32 (tmax g + 1) =? nof_undet) then
                (* [0,2](x,y,z) = NOT(AND(x,y,z)) *)
                threshold_negation this tAND true
              else
                let* ok := (if determined g && eqb (value g) true
                            then threshold_falsify_ands this else st_ret true) in
                if negb ok then st_ret false
                else
                  let* g := gate this in
                  if negb (is_type (type g) tTHRESHOLD) then st_ret true
                  else
                    let* ok := remove_cardinality_g_not_g this in
                    if negb ok then st_ret false else st_ret true
          end
    end.

(** In [case tATLEAST], the body of the loop that removes determined
    children and counts undetermined ones. *)
Definition atleast_remove_step (this : nat) (nof_undet : Z) (ca : nat * nat)
  : M (Z + unit) :=
  let '(e, child) := ca in
  let* cg := gate child in
  if negb (determined cg) then st_ret (inl (u32 (nof_undet + 1)))
  else if eqb (value cg) false then
    (* [L,](F,x,y) = [L,](x,y) *)
    delete_assoc e this child;; st_ret (inl nof_undet)
  else
    (* [L,](T,x,y) = [L-1,](x,y) *)
    modify this (fun g => set_tmin (if tmin g =? 0 then 0 else tmin g - 1) g);;
    delete_assoc e this child;;
    st_ret (inl nof_undet).

(** [case tATLEAST]. *)
Definition simplify_ATLEAST (this : nat) : M bool :=
  let* g := gate this in
  (* Remove determined children and count undetermined ones *)
  let* r := loop (children g) 0 (atleast_remove_step this) in
  let nof_undet := match r with inl n => n | inr _ => 0 end in
  let* g := gate this in
  if tmin g =? 0 then
    (* Trivially true *)
    constant_unless_conflict this true
  else if nof_undet <? tmin g then
    (* Trivially false *)
    constant_unless_conflict this false
  else
    st_assert (tmin g <=? nof_undet);;
    st_assert (match children g with [] => false | _ => true end);;
    if tmin g =? nof_undet then
      (* [3,](x,y,z) = AND(x,y,z) *)
      modify this (become tAND);;
      add_in_pstack this;;
      st_ret true
    else st_ret true.

(** [Gate::simplify].  The argument [opt_preserve_cnf_normalized_form] is
    read only by the collapsing of nested ODDs and EVENs, which is
    switched off. *)
Definition simplify (this : nat) (opt_preserve_cnf_normalized_form : bool) : M bool :=
  let* g := gate this in
  if is_type (type g) tDELETED then st_ret true
  else
    match parents g, handles g, determined g with
    | [], [], false => simplify_delete this
    | _, _, _ =>
        match type g with
        | tFALSE => simplify_constant this false
        | tTRUE => simplify_constant this true
        | tVAR => simplify_VAR this
        | tREF => simplify_REF this
        | tNOT => simplify_NOT this
        | tITE => simplify_ITE this
        | tOR => simplify_OR_AND this tOR true
        | tAND => simplify_OR_AND this tAND false
        | tODD | tEVEN => simplify_ODD_EVEN this
        | tEQUIV => simplify_EQUIV this
        | tTHRESHOLD => simplify_THRESHOLD this
        | tATLEAST => simplify_ATLEAST this
        | _ => internal_error
        end
    end.

End Simplify.

(** ** [Gate::cnf_normalize] *)

Section CnfNormalize.

Context (ops : BCOps).

(** [determined and value != v] *)
Definition conflicts_with (this : nat) (v : bool) : M bool :=
  let* g := gate this in
  st_ret (determined g && negb (eqb (value g) v)).

(** [case tFALSE] and [case tTRUE], with [v] the value of the constant. *)
Definition cnf_normalize_constant (this : nat) (v : bool) : M bool :=
  let* conflict := conflicts_with this v in
  if conflict then st_ret false
  else
    modify this (set_value v);;
    st_ret true.

(** [case tREF]: remove REFs. *)
Definition cnf_normalize_REF (this : nat) : M bool :=
  let* child := child_at this 0 in
  let* g := gate this in
  let* ok :=
    (if determined g then
       let* cg := gate child in
       if determined cg && negb (eqb (value g) (value cg)) then st_ret false
       else
         modify child (set_value (value g));;
         add_in_pstack child;;
         st_ret true
     else st_ret true) in
  if negb ok then st_ret false
  else
    (* Redirect parents and handles to the child *)
    move_parents this child;;
    move_handles this child;;
    (* Mark this gate as deleted *)
    remove_all_children this;;
    modify this (set_type tDELETED);;
    st_ret true.

(** [case tNOT]. *)
Definition cnf_normalize_NOT (this : nat) : M bool :=
  let* child := child_at this 0 in
  let* g := gate this in
  let* cg := gate child in
  if determined g then
    (* The value of a determined NOT-gate must be propagated downwards! *)
    if determined cg && eqb (value cg) (value g) then st_ret false
    else
      modify child (set_value (negb (value g)));;
      add_in_pstack child;;
      transform_into_constant this (value g);;
      st_ret true
  else if is_type (type cg) tNOT then
    (* g := ~~h  --> g := h *)
    let* grandchild := child_at child 0 in
    move_parents this grandchild;;
    move_handles this grandchild;;
    remove_all_children this;;
    modify this (set_type tDELETED);;
    st_ret true
  else st_ret true.

(** [case tOR] and [case tAND]: unary ANDs and ORs are removed. *)
Definition cnf_normalize_OR_AND (this : nat) : M bool :=
  let* n := count_children_of this in
  if n =? 1 then
    modify this (set_type tREF);;
    add_in_pstack this;;
    st_ret true
  else st_ret true.

(** [new Gate(t); bc->install_gate(...)], with [add_in_pstack] when
    [stacked] is set. *)
Definition install_new (t : GateType) (stacked : bool) : M nat :=
  let* a := new_gate t in
  install_gate ops a;;
  (if stacked then add_in_pstack a else skip);;
  st_ret a.

(** [case tEQUIV]. *)
Definition cnf_normalize_EQUIV (this : nat) : M bool :=
  let* nof_children := count_children_of this in
  if nof_children =? 1 then
    (* EQUIV(x) = T *)
    let* conflict := conflicts_with this true in
    if conflict then st_ret false
    else transform_into_constant this true;; st_ret true
  else if nof_children =? 2 then
    (* binary EQUIVS are OK *)
    st_ret true
  else
    (* g := EQUIV(c1,...,cn) --> g := OR(AND(c1,...,cn),AND(~c1,...,~cn)) *)
    let* new_child1 := install_new tAND false in
    let* g := gate this in
    for_each (children g) (fun ca => add_child new_child1 (snd ca));;
    add_in_pstack new_child1;;
    let* new_child2 := install_new tAND true in
    let* g := gate this in
    for_each (children g) (fun ca =>
      let* not_child := new_gate1 tNOT (snd ca) in
      install_gate ops not_child;;
      add_in_pstack not_child;;
      add_child new_child2 not_child);;
    modify this (set_type tOR);;
    remove_all_children this;;
    add_child this new_child1;;
    add_child this new_child2;;
    st_ret true.

(** [if(determined and value != v) return false;
     transform_into_constant(bc, v); tmin = 0; tmax = 0; return true;]
    ([tmax] is left alone in [case tATLEAST]). *)
Definition cnf_constant (this : nat) (v : bool) (reset_tmax : bool) : M bool :=
  let* conflict := conflicts_with this v in
  if conflict then st_ret false
  else
    transform_into_constant this v;;
    modify this (set_tmin 0);;
    (if reset_tmax then modify this (set_tmax 0) else skip);;
    st_ret true.

(** [case tTHRESHOLD]: threshold gates must be eliminated. *)
Definition cnf_normalize_THRESHOLD (this : nat) : M bool :=
  let* nof_children := count_children_of this in
  let* g := gate this in
  if nof_children <? tmin g then
    (* trivially false *)
    cnf_constant this false true
  else
    (if nof_children <? tmax g then modify this (set_tmax nof_children) else skip);;
    let* g := gate this in
    if tmax g <? tmin g then
      (* trivially false *)
      cnf_constant this false true
    else if (nof_children =? 1) && (tmin g =? 0) && (tmax g =? 1) then
      (* [0,1](x) == T *)
      cnf_constant this true true
    else if (nof_children =? 1) && (tmin g =? 0) && (tmax g =? 0) then
      (* [0,0](x) == NOT(x) *)
      modify this (become tNOT);; add_in_pstack this;; st_ret true
    else if (nof_children =? 1) && (tmin g =? 1) && (tmax g =? 1) then
      (* [1,1](x) == x *)
      modify this (become tREF);; add_in_pstack this;; st_ret true
    else if nof_children =? 1 then st_fail AssertFailed
    else if (tmin g =? 0) && (tmax g =? nof_children) then
      (* [0,n](g1,...,gn) == T *)
      cnf_constant this true true
    else if (tmin g =? 1) && (tmax g =? nof_children) then
      (* [1,n](g1,...,gn) == OR(g1,...,gn) *)
      modify this (become tOR);; add_in_pstack this;; st_ret true
    else if negb ((tmax g <=? 2) || (nof_children <=? u32 (tmin g + 2)) ||
                  ((tmin g <=? 2) && (nof_children <=? u32 (tmax g + 2)))) then
      (* Do the adder construction *)
      let child_list := child_gates g in
      let* sum_gates := add_true_gate_counter ops child_list in
      let* tmin_gates := add_unsigned_constant ops (tmin g) in
      let* tmax_gates := add_unsigned_constant ops (tmax g) in
      let* tmin_result_gate := add_unsigned_ge ops sum_gates tmin_gates in
      let* tmax_result_gate := add_unsigned_le ops sum_gates tmax_gates in
      remove_all_children this;;
      modify this (set_type tAND);;
      add_child this tmin_result_gate;;
      add_child this tmax_result_gate;;
      st_ret true
    else if tmin g =? 0 then
      (* [0,k](g1,...,gn) = ~(>= k+1)(g1,...,gn) *)
      let* new_child := install_new tATLEAST true in
      modify new_child (set_tmin (u32 (tmax g + 1)));;
      move_children this new_child;;
      add_child this new_child;;
      modify this (set_type tNOT);;
      add_in_pstack this;;
      st_ret true
    else if tmax g =? nof_children then
      (* [l,n](g1,...gn) = (>= l)(g1,...,gn) *)
      modify this (set_type tATLEAST);;
      add_in_pstack this;;
      st_ret true
    else
      (* [l,u](g1,...,gn) =  (>= l)(g1,...,gn) & ~(>= u+1)(g1,...,gn) *)
      let* new_child1 := install_new tATLEAST true in
      modify new_child1 (set_tmin (tmin g));;
      let* g' := gate this in
      for_each (children g') (fun ca => add_child new_child1 (snd ca));;
      let* new_child2 := install_new tATLEAST true in
      modify new_child2 (set_tmin (u32 (tmax g + 1)));;
      move_children this new_child2;;
      let* new_child3 := new_gate1 tNOT new_child2 in
      install_gate ops new_child3;;
      add_in_pstack new_child3;;
      add_child this new_child1;;
      add_child this new_child3;;
      modify this (set_type tAND);;
      st_ret true.

(** [while(children) { to->add_child(children->child); delete children; }] *)
Definition hand_children_over (this to : nat) : M unit :=
  let* _ := while_children (R := unit) this
              (fun ca => add_child to (snd ca);;
                         delete_assoc (fst ca) this (snd ca);;
                         st_ret None) in
  skip.

(** [case tEVEN]. *)
Definition cnf_normalize_EVEN (this : nat) : M bool :=
  let* nof_children := count_children_of this in
  if nof_children =? 1 then
    (* EVEN(x) == NOT(x) *)
    modify this (set_type tNOT);;
    add_in_pstack this;;
    st_ret true
  else if nof_children =? 2 then
    (* binary EVENs are OK *)
    st_ret true
  else
    (* EVEN(g1,...,gn) == NOT(ODD(g1,...,gn)) *)
    let* new_odd := install_new tODD true in
    hand_children_over this new_odd;;
    modify this (set_type tNOT);;
    add_child this new_odd;;
    add_in_pstack this;;
    st_ret true.

(** [case tODD]. *)
Definition cnf_normalize_ODD (this : nat) : M bool :=
  let* nof_children := count_children_of this in
  if nof_children =? 1 then
    (* ODD(x) == x *)
    modify this (set_type tREF);;
    add_in_pstack this;;
    st_ret true
  else if nof_children =? 2 then
    (* Binary ODDs are OK *)
    st_ret true
  else
    (* ODD(g1,...,gn) = ODD(g1,ODD(g2,...,gn)) *)
    let* new_odd := install_new tODD true in
    let* g := gate this in
    match children g with
    | [] => st_fail NullPointer
    | ca :: _ =>
        let child1 := snd ca in
        delete_assoc (fst ca) this child1;;
        hand_children_over this new_odd;;
        add_child this new_odd;;
        add_child this child1;;
        st_ret true
    end.

(** [Gate::~Gate]: the gate is unlinked and freed. *)
Definition delete_gate (a : nat) : M unit :=
  let* g := gate a in
  st_assert (negb (in_pstack g));;
  st_assert (index g =? UINT_MAX);;
  remove_all_children a;;
  let* _ := while_parents (R := unit) a
              (fun pa => delete_assoc (fst pa) (snd pa) a;; st_ret None) in
  modify a (set_handles []);;
  fun bc => Ok (tt, set_gates (delete a (gates bc)) bc).

(** The element [z] of a vector, for an [unsigned int] [z]. *)
Definition at_index {A : Type} (l : list A) (z : Z) : M A :=
  if (z <? 0) || (Z.of_nat (length l) <=? z) then st_fail NullPointer
  else match l !! Z.to_nat z with
       | Some a => st_ret a
       | None => st_fail NullPointer
       end.

Definition cell (array : list (list nat)) (i j : Z) : M nat :=
  let* row := at_index array i in
  at_index row j.

(** A loop that collects the results of its body. *)
Fixpoint collect {X A : Type} (l : list X) (body : X -> M A) : M (list A) :=
  match l with
  | [] => st_ret []
  | x :: l' =>
      let* a := body x in
      let* r := collect l' body in
      st_ret (a :: r)
  end.

(** [array[i][j] = new Gate(tUNDEF); array[i][j]->temp = 0;] for
    [i <= tmin] and [j <= childs.size()]. *)
Definition new_array (rows columns : nat) : M (list (list nat)) :=
  collect (seq 0 rows) (fun _ =>
    collect (seq 0 columns) (fun _ =>
      let* a := new_gate tUNDEF in
      modify a (set_temp 0);;
      st_ret a)).

(** The loop [while(!todo.empty())] of the polynomial rewriting of
    ATLEAST.  Every round marks a gate of the array that was not marked
    and pushes two pairs at most, or it only pops a pair: twice the size
    of the array and one are rounds enough. *)
Fixpoint atleast_rounds (fuel : nat) (this : nat) (childs : list nat)
    (array : list (list nat)) (todo : list (Z * Z)) : M unit :=
  match todo with
  | [] => skip
  | (i, j) :: todo =>
      match fuel with
      | O => st_fail OutOfFuel
      | S fuel' =>
          let* a := cell array i j in
          let* ag := gate a in
          if negb (temp ag =? 0) then atleast_rounds fuel' this childs array todo
          else
            modify a (set_temp 1);;
            (if negb (a =? this)%nat then install_gate ops a;; add_in_pstack a
             else skip);;
            if i =? j then
              if i =? 1 then
                modify a (set_type tREF);;
                remove_all_children a;;
                let* c := at_index childs (u32 (j - 1)) in
                add_child a c;;
                atleast_rounds fuel' this childs array todo
              else
                modify a (set_type tAND);;
                remove_all_children a;;
                let* c := at_index childs (u32 (j - 1)) in
                add_child a c;;
                let* b := cell array (u32 (i - 1)) (u32 (j - 1)) in
                add_child a b;;
                atleast_rounds fuel' this childs array
                               ((u32 (i - 1), u32 (j - 1)) :: todo)
            else if i =? 1 then
              modify a (set_type tOR);;
              remove_all_children a;;
              let* c := at_index childs (u32 (j - 1)) in
              add_child a c;;
              let* b := cell array i (u32 (j - 1)) in
              add_child a b;;
              atleast_rounds fuel' this childs array ((i, u32 (j - 1)) :: todo)
            else
              let* c := at_index childs (u32 (j - 1)) in
              let* b := cell array (u32 (i - 1)) (u32 (j - 1)) in
              let* new_gate := new_gate2 tAND c b in
              install_gate ops new_gate;;
              add_in_pstack new_gate;;
              modify a (set_type tOR);;
              remove_all_children a;;
              add_child a new_gate;;
              let* b' := cell array i (u32 (j - 1)) in
              add_child a b';;
              atleast_rounds fuel' this childs array
                             ((i, u32 (j - 1)) :: (u32 (i - 1), u32 (j - 1)) :: todo)
      end
  end.

(** [case tATLEAST]: the ATLEAST-gates must be eliminated
    (the code under [POLYNOMIAL_ATLEAST_REWRITING]). *)
Definition cnf_normalize_ATLEAST (this : nat) : M bool :=
  let* nof_children := count_children_of this in
  let* g := gate this in
  if tmin g =? 0 then
    (* trivially true *)
    cnf_constant this true false
  else if nof_children <? tmin g then
    (* trivially false *)
    cnf_constant this false false
  else if tmin g =? 1 then
    (* (>= 1)(g1,...,gn) == OR(g1,...,gn) *)
    modify this (fun g => set_tmin 0 (set_type tOR g));;
    add_in_pstack this;;
    st_ret true
  else if tmin g =? nof_children then
    (* (>= n)(g1,...,gn) == AND(g1,...,gn) *)
    modify this (fun g => set_tmin 0 (set_type tAND g));;
    add_in_pstack this;;
    st_ret true
  else
    (* (>= l)(g1,...,gn) == (g1 & (>= l-1)(g2,...,gn)) | (>= l)(g2,...,gn) *)
    let childs := child_gates g in
    let n := Z.of_nat (length childs) in
    let rows := Z.to_nat (tmin g + 1) in
    let columns := S (length childs) in
    let* array := new_array rows columns in
    let* old := cell array (tmin g) n in
    delete_gate old;;
    let array := alter (fun row => <[length childs := this]> row)
                       (Z.to_nat (tmin g)) array in
    remove_all_children this;;
    modify this (set_temp 0);;
    atleast_rounds (S (2 * rows * columns)) this childs array [(tmin g, n)];;
    for_each (concat array) (fun a =>
      let* ag := gate a in
      if is_type (type ag) tUNDEF then delete_gate a else skip);;
    st_ret true.

(** [Gate::cnf_normalize]. *)
Definition cnf_normalize (this : nat) : M bool :=
  let* g := gate this in
  if is_type (type g) tDELETED then st_ret true
  else
    match type g with
    | tFALSE => cnf_normalize_constant this false
    | tTRUE => cnf_normalize_constant this true
    | tVAR => st_ret true
    | tREF => cnf_normalize_REF this
    | tNOT => cnf_normalize_NOT this
    | tOR | tAND => cnf_normalize_OR_AND this
    | tEQUIV => cnf_normalize_EQUIV this
    | tITE => st_ret true
    | tTHRESHOLD => cnf_normalize_THRESHOLD this
    | tATLEAST => cnf_normalize_ATLEAST this
    | tEVEN => cnf_normalize_EVEN this
    | tODD => cnf_normalize_ODD this
    | tDELETED => st_ret true
    | tUNDEF => internal_error
    end.

End CnfNormalize.

(** ** [Gate::share] and [Gate::sort_children] *)

(** One pass of the radix sort of [sort_children]: the pairs are
    distributed, in order, by the digit
    [(index >> shift) & MASK] ([MASK = 31]), from digit 0 to digit 31. *)
Definition radix_digit (shift : Z) (p : Z * nat) : Z :=
  Z.land (Z.shiftr (fst p) shift) 31.

Fixpoint bucket (shift d : Z) (l : list (Z * nat)) : list (Z * nat) :=
  match l with
  | [] => []
  | p :: l' => if radix_digit shift p =? d then p :: bucket shift d l'
               else bucket shift d l'
  end.

Definition radix_pass (shift : Z) (c1 : list (Z * nat)) : list (Z * nat) :=
  flat_map (fun d => bucket shift (Z.of_nat d) c1) (seq 0 32).

(** [while(largest_index > 0) { ...; largest_index = largest_index >> SHIFT;
     shift += SHIFT; }] with [SHIFT = 4]; an [unsigned int] is zero after
    eight rounds. *)
Fixpoint radix_sort (fuel : nat) (largest_index shift : Z) (c1 : list (Z * nat))
  : result (list (Z * nat)) :=
  if 0 <? largest_index then
    match fuel with
    | O => Err OutOfFuel
    | S fuel' =>
        radix_sort fuel' (Z.shiftr largest_index 4) (u32 (shift + 4))
                   (radix_pass shift c1)
    end
  else Ok c1.

(** [largest_index] and [already_sorted] after the first loop. *)
Fixpoint scan_indices (largest_index : Z) (already_sorted : bool)
    (c1 : list (Z * nat)) : Z * bool :=
  match c1 with
  | [] => (largest_index, already_sorted)
  | p :: c1' =>
      if largest_index <=? fst p then scan_indices (fst p) already_sorted c1'
      else scan_indices largest_index false c1'
  end.

(** [Gate::sort_children]. *)
Definition sort_children (this : nat) : M unit :=
  let* g := gate this in
  if negb (is_commutative g) then skip
  else
    match children g with
    | [] => skip
    | _ :: _ =>
        let* c1 := collect (children g) (fun ca =>
                     let* cg := gate (snd ca) in st_ret (index cg, snd ca)) in
        let '(largest_index, already_sorted) := scan_indices 0 true c1 in
        if already_sorted then skip
        else
          let* sorted := (fun bc => do s <- radix_sort 8 largest_index 0 c1;
                                    Ok (s, bc)) in
          let* _ := loop (R := unit) (children g) sorted (fun rest ca =>
            match rest with
            | [] => st_fail NullPointer
            | p :: rest' =>
                change_child (fst ca) this (snd ca) (snd p);;
                st_ret (inl rest')
            end) in
          skip
    end.

(** [ca->child] for the association [e] of the children of [this]. *)
Definition current_child (this e : nat) : M nat :=
  let* g := gate this in
  match List.find (fun x => (fst x =? e)%nat) (children g) with
  | Some x => st_ret (snd x)
  | None => st_fail NullPointer
  end.

Section Share.

Context (ops : BCOps).

(** [Gate::share], with the hash table [ht] and the array [cache] (by gate
    index) passed along.  The function calls itself on the children;
    [fuel] bounds the depth of the calls. *)
Fixpoint share (fuel : nat) (this : nat) (s : table ops * gmap Z nat)
  : M (bool * (table ops * gmap Z nat)) :=
  match fuel with
  | O => st_fail OutOfFuel
  | S fuel' =>
      let* g := gate this in
      if is_type (type g) tDELETED then st_ret (true, s)
      else if is_type (type g) tVAR then st_ret (true, s)
      else if bool_decide (is_Some (snd s !! index g)) then st_ret (true, s)
      else
        let* r := loop (R := unit) (children g) s (fun s ca =>
          let* child := current_child this (fst ca) in
          let* r := share fuel' child s in
          st_ret (inl (snd r))) in
        let s := match r with inl s => s | inr _ => s end in
        (* Sort the child pointers of commutative gate types *)
        let* g := gate this in
        (if is_commutative g then sort_children this else skip);;
        let* r := test_and_set ops (fst s) this in
        let '(existing_gate, ht) := r in
        let* g := gate this in
        let s := (ht, <[index g := existing_gate]> (snd s)) in
        if negb (existing_gate =? this)%nat then
          (* check the consistency of values *)
          let* eg := gate existing_gate in
          let* ok :=
            (if determined g then
               if determined eg then st_ret (eqb (value g) (value eg))
               else modify existing_gate (set_value (value g));; st_ret true
             else st_ret true) in
          if negb ok then st_ret (false, s)
          else
            remove_all_children this;;
            move_parents this existing_gate;;
            move_handles this existing_gate;;
            modify this (set_type tDELETED);;
            set_bc_changed;;
            st_ret (true, s)
        else st_ret (true, s)
  end.

End Share.

(** ** More of gate.cc *)

(** [Gate::cnf_count_clauses_polarity]: the counter [nof_clauses] is an
    [unsigned int]. *)
Definition cnf_count_clauses_polarity (hp : heap) (this : nat) (notless : bool)
  : result Z :=
  do g <- deref hp this;
  (* nof_clauses = 0; if(mir_pos) nof_clauses += p; if(mir_neg) nof_clauses += n; *)
  let count (p n : Z) : Z :=
    let nof_clauses := 0 in
    let nof_clauses := if mir_pos g then u32 (nof_clauses + p) else nof_clauses in
    if mir_neg g then u32 (nof_clauses + n) else nof_clauses in
  match type g with
  | tFALSE =>
      do _ <- rassert (determined g && negb (value g));
      Ok 0
  | tTRUE =>
      do _ <- rassert (determined g && value g);
      Ok 0
  | tVAR => Ok 0
  | tREF | tNOT =>
      if notless then Err InternalError else Ok (count 1 1)
  | tOR =>
      let nof_children := count_children g in
      do _ <- rassert (1 <=? nof_children);
      Ok (count 1 nof_children)
  | tAND =>
      let nof_children := count_children g in
      do _ <- rassert (1 <=? nof_children);
      Ok (count nof_children 1)
  | tEQUIV | tEVEN | tODD =>
      if negb (count_children g =? 2) then Err InternalError else Ok (count 2 2)
  | tITE => Ok (count 2 2)
  | _ => Err InternalError
  end.

(** ** [Gate::edimacs_normalize]

    The cases [tFALSE], [tTRUE], [tVAR], [tREF], [tNOT], [tOR] and [tAND]
    are, statement for statement, those of [cnf_normalize]. *)

Section EdimacsNormalize.

Context (ops : BCOps).

(** [case tEQUIV]: EQUIV(x) = T. *)
Definition edimacs_normalize_EQUIV (this : nat) : M bool :=
  let* nof_children := count_children_of this in
  if nof_children =? 1 then
    let* g := gate this in
    if determined g && eqb (value g) false then st_ret false
    else
      transform_into_constant this true;;
      st_ret true
  else st_ret true.

(** [case tTHRESHOLD]: threshold gates must be eliminated.  The function
    calls [count_children()] at every test; the children do not change
    between the calls. *)
Definition edimacs_normalize_THRESHOLD (this : nat) : M bool :=
  let* nof_children := count_children_of this in
  let* g := gate this in
  if nof_children <? tmin g then
    (* trivially false *)
    cnf_constant this false true
  else
    (if nof_children <? tmax g then modify this (set_tmax nof_children) else skip);;
    let* g := gate this in
    if tmax g <? tmin g then
      (* trivially false *)
      cnf_constant this false true
    else if (nof_children =? 1) && (tmin g =? 0) && (tmax g =? 1) then
      (* [0,1](x) == T *)
      cnf_constant this true true
    else if (nof_children =? 1) && (tmin g =? 0) && (tmax g =? 0) then
      (* [0,0](x) == NOT(x) *)
      modify this (become tNOT);; add_in_pstack this;; st_ret true
    else if (nof_children =? 1) && (tmin g =? 1) && (tmax g =? 1) then
      (* [1,1](x) == x *)
      modify this (become tREF);; add_in_pstack this;; st_ret true
    else if nof_children =? 1 then st_fail AssertFailed
    else if (tmin g =? 0) && (tmax g =? nof_children) then
      (* [0,n](g1,...,gn) == T *)
      cnf_constant this true true
    else if tmin g =? 0 then
      (* [0,k](g1,...,gn) = ~(>= k+1)(g1,...,gn) *)
      let* new_child := install_new ops tATLEAST true in
      modify new_child (set_tmin (u32 (tmax g + 1)));;
      move_children this new_child;;
      add_child this new_child;;
      modify this (set_type tNOT);;
      add_in_pstack this;;
      st_ret true
    else if tmax g =? nof_children then
      (* [l,n](g1,...gn) = (>= l)(g1,...,gn) *)
      modify this (set_type tATLEAST);;
      add_in_pstack this;;
      st_ret true
    else
      (* [l,u](g1,...,gn) =  (>= l)(g1,...,gn) & ~(>= u+1)(g1,...,gn) *)
      let* new_child1 := install_new ops tATLEAST true in
      modify new_child1 (set_tmin (tmin g));;
      let* g' := gate this in
      for_each (children g') (fun ca => add_child new_child1 (snd ca));;
      let* new_child2 := install_new ops tATLEAST true in
      modify new_child2 (set_tmin (u32 (tmax g + 1)));;
      move_children this new_child2;;
      let* new_child3 := new_gate1 tNOT new_child2 in
      install_gate ops new_child3;;
      add_in_pstack new_child3;;
      add_child this new_child1;;
      add_child this new_child3;;
      modify this (set_type tAND);;
      st_ret true.

(** [case tATLEAST]. *)
Definition edimacs_normalize_ATLEAST (this : nat) : M bool :=
  let* g := gate this in
  let* nof_children := count_children_of this in
  if tmin g =? 0 then
    (* trivially true *)
    cnf_constant this true false
  else if nof_children <? tmin g then
    (* trivially false *)
    cnf_constant this false false
  else if tmin g =? nof_children then
    (* (>= n)(g1,...,gn) == AND(g1,...,gn) *)
    modify this (fun g => set_tmin 0 (set_type tAND g));;
    add_in_pstack this;;
    st_ret true
  else st_ret true.

(** [case tEVEN] and [case tODD]: EVEN(x) == NOT(x), ODD(x) == x; [t] is
    the type that the unary gate gets. *)
Definition edimacs_normalize_parity (this : nat) (t : GateType) : M bool :=
  let* nof_children := count_children_of this in
  if nof_children =? 1 then
    modify this (set_type t);;
    add_in_pstack this;;
    st_ret true
  else st_ret true.

Definition edimacs_normalize (this : nat) : M bool :=
  let* g := gate this in
  if is_type (type g) tDELETED then st_ret true
  else
    (if is_commutative g then sort_children this else skip);;
    let* g := gate this in
    match type g with
    | tFALSE => cnf_normalize_constant this false
    | tTRUE => cnf_normalize_constant this true
    | tVAR => st_ret true
    | tREF => cnf_normalize_REF this
    | tNOT => cnf_normalize_NOT this
    | tOR | tAND => cnf_normalize_OR_AND this
    | tEQUIV => edimacs_normalize_EQUIV this
    | tITE => st_ret true
    | tTHRESHOLD => edimacs_normalize_THRESHOLD this
    | tATLEAST => edimacs_normalize_ATLEAST this
    | tEVEN => edimacs_normalize_parity this tNOT
    | tODD => edimacs_normalize_parity this tREF
    | tDELETED => st_ret true
    | tUNDEF => internal_error
    end.

End EdimacsNormalize.

(** ** Finding cycles in the circuit: [Gate::test_acyclicity]

    The marks in the [temp] fields and the results of a call. *)
Definition CT_UNTEMP : Z := 0.
Definition CT_IN_STACK : Z := 1.
Definition CT_CYCLE_ENTRY : Z := 2.
Definition CT_TEMP : Z := 3.

Definition CTR_NO_CYCLE_FOUND : Z := 0.
Definition CTR_IN_CYCLE : Z := 1.
Definition CTR_CYCLE_FOUND : Z := 2.

(** [name = get_first_name(); if(name) cycle.push_back(name);] *)
Definition push_name (g : Gate) (cycle : list string) : list string :=
  match get_first_name g with
  | Some name => cycle ++ [name]
  | None => cycle
  end.

(** [temp = t] of the gate at [this]. *)
Definition mark_temp (this : nat) (t : Z) (hp : heap) : result heap :=
  do g <- deref hp this;
  Ok (<[this := set_temp t g]> hp).

(** The loop over the children of [this]; [rec] is the call for a child.
    The state is the heap and the list [cycle], passed by reference. *)
Fixpoint test_acyclicity_children
    (rec : nat -> heap * list string -> result (Z * (heap * list string)))
    (this : nat) (l : list nat) (s : heap * list string)
  : result (Z * (heap * list string)) :=
  match l with
  | [] =>
      do hp <- mark_temp this CT_TEMP (fst s);
      Ok (CTR_NO_CYCLE_FOUND, (hp, snd s))
  | child :: l' =>
      do r <- rec child s;
      let '(status, (hp, cycle)) := r in
      if status =? CTR_CYCLE_FOUND then
        do hp <- mark_temp this CT_TEMP hp;
        Ok (CTR_CYCLE_FOUND, (hp, cycle))
      else if status =? CTR_IN_CYCLE then
        do g <- deref hp this;
        let cycle := push_name g cycle in
        if temp g =? CT_IN_STACK then
          Ok (CTR_IN_CYCLE, (<[this := set_temp CT_TEMP g]> hp, cycle))
        else
          do _ <- rassert (temp g =? CT_CYCLE_ENTRY);
          Ok (CTR_CYCLE_FOUND, (<[this := set_temp CT_TEMP g]> hp, cycle))
      else
        do _ <- rassert (status =? CTR_NO_CYCLE_FOUND);
        test_acyclicity_children rec this l' (hp, cycle)
  end.

(** [Gate::test_acyclicity]; [fuel] bounds the depth of the recursion. *)
Fixpoint test_acyclicity (fuel : nat) (this : nat) (s : heap * list string)
  : result (Z * (heap * list string)) :=
  match fuel with
  | O => Err OutOfFuel
  | S fuel' =>
      do g <- deref (fst s) this;
      do _ <- rassert ((0 <=? temp g) && (temp g <=? 3));
      if temp g =? CT_TEMP then Ok (CTR_NO_CYCLE_FOUND, s)
      else if temp g =? CT_IN_STACK then
        Ok (CTR_IN_CYCLE,
            (<[this := set_temp CT_CYCLE_ENTRY g]> (fst s), push_name g (snd s)))
      else
        test_acyclicity_children (test_acyclicity fuel') this (child_gates g)
          (<[this := set_temp CT_IN_STACK g]> (fst s), snd s)
  end.

(** ** Heights: [Gate::compute_min_height], [Gate::compute_max_height]

    The heights are kept in the [temp] fields, -1 for a gate whose height
    is not computed yet; [fuel] bounds the depth of the recursion. *)
Fixpoint compute_min_height (fuel : nat) (hp : heap) (this : nat)
  : result (Z * heap) :=
  match fuel with
  | O => Err OutOfFuel
  | S fuel' =>
      do g <- deref hp this;
      if 0 <=? temp g then Ok (u32 (temp g), hp)
      else
        match children g with
        | [] => Ok (0, <[this := set_temp 0 g]> hp)
        | _ :: _ =>
            do r <- foldM (fun s child =>
                             do r <- compute_min_height fuel' (snd s) child;
                             let height := fst r in
                             Ok (if height <? fst s then height else fst s, snd r))
                          (child_gates g) (UINT_MAX, hp);
            let min_height := fst r in
            do _ <- rassert (negb (min_height =? UINT_MAX));
            do hp <- mark_temp this (to_int (u32 (min_height + 1))) (snd r);
            Ok (u32 (to_int (u32 (min_height + 1))), hp)
        end
  end.

Fixpoint compute_max_height (fuel : nat) (hp : heap) (this : nat)
  : result (Z * heap) :=
  match fuel with
  | O => Err OutOfFuel
  | S fuel' =>
      do g <- deref hp this;
      if 0 <=? temp g then Ok (u32 (temp g), hp)
      else
        match children g with
        | [] => Ok (0, <[this := set_temp 0 g]> hp)
        | _ :: _ =>
            do r <- foldM (fun s child =>
                             do r <- compute_max_height fuel' (snd s) child;
                             let height := fst r in
                             Ok (if fst s <? height then height else fst s, snd r))
                          (child_gates g) (0, hp);
            let max_height := fst r in
            do hp <- mark_temp this (to_int (u32 (max_height + 1))) (snd r);
            Ok (u32 (to_int (u32 (max_height + 1))), hp)
        end
  end.

(** ** The edimacs format: [Gate::edimacs_print]

    What the function prints is the result: no line, or the line of the
    gate without its newline. *)

(** [Gate::edimacs_print_children]: every literal followed by a blank. *)
Definition edimacs_print_children (hp : heap) (g : Gate) (notless : bool)
  : result string :=
  do lits <- map_children (child_lit hp notless) (child_gates g);
  Ok (fold_right (fun lit s => pretty lit +:+ " " +:+ s) "" lits).

(** [fprintf(fp, "<code> -1 %d ", temp); edimacs_print_children(fp, notless);
     fprintf(fp, "0\n");] *)
Definition edimacs_line (hp : heap) (g : Gate) (notless : bool) (code : string)
  : result (list string) :=
  do kids <- edimacs_print_children hp g notless;
  Ok [code +:+ " -1 " +:+ pretty (temp g) +:+ " " +:+ kids +:+ "0"].

(** [fprintf(fp, "<code> 1 %u %d ", tmin, temp); ...] *)
Definition edimacs_bound_line (hp : heap) (g : Gate) (notless : bool) (code : string)
  : result (list string) :=
  do kids <- edimacs_print_children hp g notless;
  Ok [code +:+ " 1 " +:+ pretty (tmin g) +:+ " " +:+ pretty (temp g) +:+ " "
      +:+ kids +:+ "0"].

Definition edimacs_print (hp : heap) (this : nat) (notless : bool)
  : result (list string) :=
  do g <- deref hp this;
  match type g with
  | tTRUE => Ok ["2 -1 " +:+ pretty (temp g) +:+ " 0"]
  | tFALSE => Ok ["1 -1 " +:+ pretty (temp g) +:+ " 0"]
  | tVAR => Ok []
  | tEQUIV => edimacs_line hp g notless "11"
  | tOR => edimacs_line hp g notless "6"
  | tAND => edimacs_line hp g notless "4"
  | tTHRESHOLD =>
      if negb (tmin g =? tmax g) then Err InternalError
      else edimacs_bound_line hp g notless "15"
  | tNOT =>
      if notless then
        if determined g then Err InternalError
        else
          do child <- nth_child g 0;
          do cg <- deref hp child;
          if is_type (type cg) tNOT then Err InternalError else Ok []
      else edimacs_line hp g notless "3"
  | tREF => Err InternalError
  | tEVEN => edimacs_line hp g notless "9"
  | tODD => edimacs_line hp g notless "8"
  | tITE => edimacs_line hp g notless "12"
  | tATLEAST => edimacs_bound_line hp g notless "13"
  | tUNDEF | tDELETED => Err InternalError
  end.

(** ** Notions used to state the properties *)

(** The [index] values of the gates a list of child pointers leads to. *)
Definition child_indices (hp : heap) (cs : list nat) : list (option Z) :=
  map (fun c => index <$> hp !! c) cs.

(** Every pointer of the list leads to a gate. *)
Definition valid_pointers (hp : heap) (cs : list nat) : Prop :=
  Forall (fun c => is_Some (hp !! c)) cs.

(** The data of a gate that the claim about [hash_value] names: its type,
    its bounds where the type has them, its first name if it is a VAR, and
    the [index] values of its children otherwise. *)
Definition same_hash_data (hp : heap) (g : Gate) (hp' : heap) (o : Gate) : Prop :=
  type g = type o /\
  (type g = tTHRESHOLD -> tmin g = tmin o /\ tmax g = tmax o) /\
  (type g = tATLEAST -> tmin g = tmin o) /\
  (type g = tVAR -> get_first_name g = get_first_name o) /\
  (type g <> tVAR ->
   child_indices hp (child_gates g) = child_indices hp' (child_gates o)).

(** The constants have no children (the constructors of the parser and
    [transform_into_constant] see to it). *)
Definition constants_childless (hp : heap) : Prop :=
  forall a g, hp !! a = Some g ->
    type g = tTRUE \/ type g = tFALSE -> children g = [].


(** Structural equality as the spec words it: the same type, the same
    bounds, the same ordered child indices, and the same name for a VAR. *)
Definition structurally_equal (hp : heap) (a b : nat) : Prop :=
  exists g o, hp !! a = Some g /\ hp !! b = Some o /\
    type g = type o /\
    (type g = tTHRESHOLD -> tmin g = tmin o /\ tmax g = tmax o) /\
    (type g = tATLEAST -> tmin g = tmin o) /\
    child_indices hp (child_gates g) = child_indices hp (child_gates o) /\
    (type g = tVAR -> get_first_name g = get_first_name o).

(** *** Small circuits used as examples *)

(** A gate of type [t] installed with index [i] and child edges [cs]. *)
Definition gate_of (t : GateType) (i : Z) (cs : list (nat * nat)) : Gate :=
  set_children cs (set_index i (new_Gate t)).

(** Two input gates without names. *)
Definition ex_two_vars : heap :=
  <[1%nat := gate_of tVAR 1 []]> (<[0%nat := gate_of tVAR 0 []]> ∅).

(** [g2 := OR(g0,g1)] and [g3 := OR(g0,g1)] over two input gates. *)
Definition ex_two_ors : heap :=
  <[3%nat := gate_of tOR 3 [(2%nat, 0%nat); (3%nat, 1%nat)]]>
    (<[2%nat := gate_of tOR 2 [(0%nat, 0%nat); (1%nat, 1%nat)]]> ex_two_vars).

(** [g3 := OR(x, ~y)], numbered for the NOT-less translation: [x] is
    variable 1, [y] variable 2, the NOT gate has no variable, [g3] is
    variable 3. *)
Definition ex_or_not : heap :=
  <[3%nat := set_temp 3 (gate_of tOR 3 [(1%nat, 0%nat); (2%nat, 2%nat)])]>
    (<[2%nat := set_temp (-1) (gate_of tNOT 2 [(0%nat, 1%nat)])]>
       (<[1%nat := set_temp 2 (gate_of tVAR 1 [])]>
          (<[0%nat := set_temp 1 (gate_of tVAR 0 [])]> ∅))).

(** The literal of the child [c] is defined: the pointer leads to a gate
    and, in the NOT-less translation, so does the child pointer of a NOT. *)
Definition lit_ok (hp : heap) (notless : bool) (c : nat) : Prop :=
  exists cg, hp !! c = Some cg /\
    (notless = true -> type cg = tNOT ->
     exists gc gcg, child_gates cg !! 0%nat = Some gc /\ hp !! gc = Some gcg).

(** The shape of a gate after CNF normalization (spec, section 3): the
    constants carry their value, NOT has one child (in the NOT-less
    translation it is not determined and its child is not a NOT), OR and
    AND have at least two children, EQUIV, EVEN and ODD have two, ITE has
    three, and no other type is left. *)
Definition normalized_gate (hp : heap) (g : Gate) (notless : bool) : Prop :=
  Forall (lit_ok hp notless) (child_gates g) /\
  match type g with
  | tFALSE => determined g = true /\ value g = false
  | tTRUE => determined g = true /\ value g = true
  | tVAR => True
  | tNOT =>
      length (children g) = 1%nat /\
      (notless = true ->
       determined g = false /\
       forall c cg, child_gates g !! 0%nat = Some c -> hp !! c = Some cg ->
                    type cg <> tNOT)
  | tOR | tAND =>
      (2 <= length (children g))%nat /\
      Z.of_nat (length (children g)) + 1 < 2 ^ 31
  | tEQUIV | tEVEN | tODD => length (children g) = 2%nat
  | tITE => length (children g) = 3%nat
  | _ => False
  end.

(** The circuit of [ex_or_not] with [g3] constrained to true. *)
Definition ex_or_not_bc : BC :=
  mkBC (<[3%nat := set_value true
                     (set_temp 3 (gate_of tOR 3 [(1%nat, 0%nat); (2%nat, 2%nat)]))]>
          ex_or_not)
       [0%nat; 1%nat; 2%nat; 3%nat] [] false true false [] [] 3.

(** An integer in the range of [unsigned int]. *)
Definition in_u32 (x : Z) : Prop := 0 <= x < 2 ^ 32.

(** [x] is [y] as an [unsigned int]. *)
Definition eq_u32 (x y : Z) : Prop := u32 x = u32 y.

(** The number of unit clauses printed for a gate. *)
Definition unit_clauses (g : Gate) : nat :=
  if determined g then 1
  else if is_type (type g) tTRUE then 1
  else if is_type (type g) tFALSE then 1
  else 0.

(** The same gate up to its [temp] field. *)
Definition same_but_temp (g g' : Gate) : Prop := g' = set_temp (temp g') g.


(** The circuit [g3 := OR(x, ~y)], [g3] constrained to true, as the cone of
    influence pass leaves it: every gate is relevant and carries its
    number of discovery in [temp]. *)
Definition ex_coi_bc : BC :=
  mkBC (<[3%nat := set_value true
                     (set_temp 0 (gate_of tOR 3 [(1%nat, 0%nat); (2%nat, 2%nat)]))]>
          (<[2%nat := set_temp 2 (gate_of tNOT 2 [(0%nat, 1%nat)])]>
             (<[1%nat := set_temp 3 (gate_of tVAR 1 [])]>
                (<[0%nat := set_temp 1 (gate_of tVAR 0 [])]> ∅))))
       [0%nat; 1%nat; 2%nat; 3%nat] [] false true false [] [] 3.

(** The loop of [main] over a queue of constraints, seen from the calls of
    [force]: the gates are taken from the queue in turn and forced, until
    the queue is empty ([queue_run ... bc true bc']) or [force] returns
    [false] for a gate, the calls before it having returned [true]
    ([queue_run ... bc false bc']). *)
Inductive queue_run (force : nat -> BC -> result (bool * BC))
    (queue : BC -> list nat) (set_queue : list nat -> BC -> BC)
  : BC -> bool -> BC -> Prop :=
| queue_empty (bc : BC) :
    queue bc = [] -> queue_run force queue set_queue bc true bc
| queue_refused (bc bc' : BC) (gate : nat) (rest : list nat) :
    queue bc = gate :: rest ->
    force gate (set_queue rest bc) = Ok (false, bc') ->
    queue_run force queue set_queue bc false bc'
| queue_forced (bc bc1 bc' : BC) (gate : nat) (rest : list nat) (r : bool) :
    queue bc = gate :: rest ->
    force gate (set_queue rest bc) = Ok (true, bc1) ->
    queue_run force queue set_queue bc1 r bc' ->
    queue_run force queue set_queue bc r bc'.

(** *** The NOT-less translation *)

(** The literal that stands for a gate as a child in the NOT-less
    translation, by the words of the spec: a NOT gate is the negative
    literal over the variable of its child, any other gate is its own
    variable. *)
Definition notless_literal (hp : heap) (g : Gate) : Z :=
  if is_type (type g) tNOT then
    match child_gates g !! 0%nat with
    | Some x => match hp !! x with
                | Some xg => - temp xg
                | None => temp g
                end
    | None => temp g
    end
  else temp g.

(** The circuit in which every gate is numbered by its literal of the
    NOT-less translation. *)
Definition with_notless_literals (hp : heap) : heap :=
  (fun g => set_temp (notless_literal hp g) g) <$> hp.

(** What the numbering loop of [main] relies on in the NOT-less
    translation: the gates of the chain are gates of the circuit, every
    relevant NOT gate is undetermined and over a child that is not a NOT
    gate, and some relevant gate is not a NOT gate. *)
Definition numbering_ready (bc : BC) : Prop :=
  (forall a, a ∈ first_gate bc ->
     exists g, gates bc !! a = Some g /\
       (type g = tNOT -> temp g <> -1 ->
        determined g = false /\
        exists c cg, child_gates g !! 0%nat = Some c /\
                     gates bc !! c = Some cg /\ type cg <> tNOT)) /\
  (exists a g, a ∈ first_gate bc /\ gates bc !! a = Some g /\
               temp g <> -1 /\ type g <> tNOT).

(** [n := NOT(e)] over [e := EVEN(x)], beside [o := OR(x, y)], which is
    constrained to true. *)
Definition ex_not_even : BC :=
  mkBC (<[4%nat := set_value true (set_handles [NameHandle "o"]
                     (gate_of tOR 4 [(2%nat, 0%nat); (3%nat, 3%nat)]))]>
       (<[3%nat := set_parents [(3%nat, 4%nat)] (gate_of tVAR 3 [])]>
       (<[2%nat := set_handles [NameHandle "n"] (gate_of tNOT 2 [(1%nat, 1%nat)])]>
       (<[1%nat := set_parents [(1%nat, 2%nat)] (gate_of tEVEN 1 [(0%nat, 0%nat)])]>
       (<[0%nat := set_parents [(0%nat, 1%nat); (2%nat, 4%nat)]
                     (gate_of tVAR 0 [])]> ∅)))))
       [0%nat; 1%nat; 2%nat; 3%nat; 4%nat] [] false true false [] [] 4.

(** The same circuit after [cnf_normalize] at [e], which has become
    [NOT(x)] and is on the stack. *)
Definition ex_not_not : BC :=
  mkBC (<[4%nat := set_value true (set_handles [NameHandle "o"]
                     (gate_of tOR 4 [(2%nat, 0%nat); (3%nat, 3%nat)]))]>
       (<[3%nat := set_parents [(3%nat, 4%nat)] (gate_of tVAR 3 [])]>
       (<[2%nat := set_handles [NameHandle "n"] (gate_of tNOT 2 [(1%nat, 1%nat)])]>
       (<[1%nat := set_in_pstack true
                     (set_parents [(1%nat, 2%nat)] (gate_of tNOT 1 [(0%nat, 0%nat)]))]>
       (<[0%nat := set_parents [(0%nat, 1%nat); (2%nat, 4%nat)]
                     (gate_of tVAR 0 [])]> ∅)))))
       [0%nat; 1%nat; 2%nat; 3%nat; 4%nat] [1%nat] false true false [] [] 4.

Section PipelineNotions.

Variable force_true force_false : nat -> BC -> result (bool * BC).
Variable remove_underscore_names : BC -> result BC.
Variable BC_simplify : bool -> BC -> result (bool * BC).
Variable BC_share : BC -> result (bool * BC).
Variable BC_cnf_normalize : BC -> result (bool * BC).

(** Constraint propagation: the queue [assigned_to_true], then the queue
    [assigned_to_false]; the result is [false] when [force_true] or
    [force_false] has returned [false] for a gate. *)
Inductive constraints_forced (bc : BC) : bool -> BC -> Prop :=
| forced_true_refused (bc1 : BC) :
    queue_run force_true assigned_to_true set_assigned_to_true bc false bc1 ->
    constraints_forced bc false bc1
| forced_false_next (bc1 bc2 : BC) (r : bool) :
    queue_run force_true assigned_to_true set_assigned_to_true bc true bc1 ->
    queue_run force_false assigned_to_false set_assigned_to_false bc1 r bc2 ->
    constraints_forced bc r bc2.

(** [BC::simplify(flag)] has returned [r], or [BC::share()] has when the
    simplifications are switched off. *)
Definition simplified_or_shared (opts : Options) (flag : bool) (bc : BC) (r : bool)
    (bc' : BC) : Prop :=
  (opt_perform_simplifications opts = true /\ BC_simplify flag bc = Ok (r, bc')) \/
  (opt_perform_simplifications opts = false /\ BC_share bc = Ok (r, bc')).

(** An operation of the circuit reports UNSAT (returns [false]), the
    operations that [main] calls before it having returned [true]:
    [force_true] or [force_false] for a constraint, [BC::simplify] or
    [BC::share], [BC::cnf_normalize], and [BC::simplify] or [BC::share]
    after the normalization. *)
Inductive pipeline_unsat (opts : Options) (bc : BC) : Prop :=
| unsat_constraints (bc1 : BC) :
    constraints_forced bc false bc1 ->
    pipeline_unsat opts bc
| unsat_simplify (bc2 bc3 bc4 : BC) :
    constraints_forced bc true bc2 ->
    remove_underscore_names bc2 = Ok bc3 ->
    simplified_or_shared opts false
      (set_preserve_all_solutions (opt_preserve_all_solutions opts) bc3) false bc4 ->
    pipeline_unsat opts bc
| unsat_cnf_normalize (bc2 bc3 bc4 bc5 : BC) :
    constraints_forced bc true bc2 ->
    remove_underscore_names bc2 = Ok bc3 ->
    simplified_or_shared opts false
      (set_preserve_all_solutions (opt_preserve_all_solutions opts) bc3) true bc4 ->
    BC_cnf_normalize bc4 = Ok (false, bc5) ->
    pipeline_unsat opts bc
| unsat_simplify_normalized (bc2 bc3 bc4 bc5 bc6 : BC) :
    constraints_forced bc true bc2 ->
    remove_underscore_names bc2 = Ok bc3 ->
    simplified_or_shared opts false
      (set_preserve_all_solutions (opt_preserve_all_solutions opts) bc3) true bc4 ->
    BC_cnf_normalize bc4 = Ok (true, bc5) ->
    simplified_or_shared opts true bc5 false bc6 ->
    pipeline_unsat opts bc.

End PipelineNotions.

(** A circuit with two input gates that are both constrained to true, and
    operations for it: [force_true] accepts the first gate and reports a
    conflict at the second, the others do nothing. *)
Definition ex_conflict_bc : BC :=
  mkBC (<[1%nat := gate_of tVAR 1 []]> (<[0%nat := gate_of tVAR 0 []]> ∅))
       [0%nat; 1%nat] [] false true false [0%nat; 1%nat] [] 0.

Definition ex_refuse_second (gate : nat) (bc : BC) : result (bool * BC) :=
  Ok ((gate =? 0)%nat, bc).
Definition ex_succeed (bc : BC) : result (bool * BC) := Ok (true, bc).
Definition ex_keep (bc : BC) : result BC := Ok bc.
Definition ex_perm (_ _ i : Z) : Z := i.

(** *** The polarity analysis *)

(** [g'] is [g] with possibly more polarity flags set. *)
Definition more_flags (g g' : Gate) : Prop :=
  g' = set_mir_neg (mir_neg g') (set_mir_pos (mir_pos g') g) /\
  (mir_pos g = true -> mir_pos g' = true) /\
  (mir_neg g = true -> mir_neg g' = true).

(** The heap [hp'] has the gates of [hp], with possibly more flags set. *)
Definition flag_ext (hp hp' : heap) : Prop :=
  forall b, option_Forall2 more_flags (hp !! b) (hp' !! b).

(** The call [c->mir_propagate_polarity(q)] gets past the tests at the top
    of the function: [c] is not determined, or it is determined to [q]
    and not justified. *)
Definition accepts (hp : heap) (c : nat) (q : bool) : Prop :=
  exists cg, hp !! c = Some cg /\
    (determined cg = false \/ (value cg = q /\ is_justified hp c = Ok false)).

(** The flag of polarity [q] is set at the gate [c]. *)
Definition flag_set (hp : heap) (c : nat) (q : bool) : Prop :=
  exists cg, hp !! c = Some cg /\ mir_flag q cg = true.

(** [r := ITE(i, t, e)] over three input gates. *)
Definition ex_ite : heap :=
  <[3%nat := gate_of tITE 3 [(0%nat, 0%nat); (1%nat, 1%nat); (2%nat, 2%nat)]]>
    (<[2%nat := gate_of tVAR 2 []]>
       (<[1%nat := gate_of tVAR 1 []]>
          (<[0%nat := gate_of tVAR 0 []]> ∅))).

(** *** Model reconstruction *)

(** The number of true values in a list. *)
Fixpoint nof_trues (vs : list bool) : nat :=
  match vs with
  | [] => 0
  | v :: vs' => (if v then 1 else 0) + nof_trues vs'
  end.

(** The Boolean function of a gate type, by the meaning the spec gives to
    the types: constants, REF, NOT, OR, AND, ITE(if, then, else), EQUIV
    (all children equal), ODD and EVEN parity, THRESHOLD[L,U] (between [L]
    and [U] children true) and ATLEAST[L] (at least [L] children true). *)
Definition gate_function (t : GateType) (L U : Z) (vs : list bool) : option bool :=
  match t with
  | tFALSE => Some false
  | tTRUE => Some true
  | tREF => match vs with [v] => Some v | _ => None end
  | tNOT => match vs with [v] => Some (negb v) | _ => None end
  | tOR => Some (existsb id vs)
  | tAND => Some (forallb id vs)
  | tEQUIV => Some (forallb id vs || forallb negb vs)
  | tODD => Some (Nat.odd (nof_trues vs))
  | tEVEN => Some (Nat.even (nof_trues vs))
  | tITE => match vs with [i; t; e] => Some (if i then t else e) | _ => None end
  | tTHRESHOLD =>
      Some ((L <=? Z.of_nat (nof_trues vs)) && (Z.of_nat (nof_trues vs) <=? U))
  | tATLEAST => Some (L <=? Z.of_nat (nof_trues vs))
  | tVAR | tUNDEF | tDELETED => None
  end.

(** The children [cs] are determined in [hp] and have the values [vs]. *)
Definition children_values (hp : heap) (cs : list nat) (vs : list bool) : Prop :=
  Forall2 (fun c v => exists cg, hp !! c = Some cg /\ determined cg = true /\
                                 value cg = v) cs vs.

(** The value of the determined gate [g] is the value of its Boolean
    function on the values of its children. *)
Definition evaluated_at (hp : heap) (g : Gate) : Prop :=
  exists vs, children_values hp (child_gates g) vs /\
             gate_function (type g) (tmin g) (tmax g) vs = Some (value g).

(** [hp'] is [hp] after some undetermined gates were evaluated: determined
    gates are as they were, and a gate that became determined has only got
    its value, the value of its function. *)
Definition eval_ext (hp hp' : heap) : Prop :=
  forall b g, hp !! b = Some g ->
    exists g', hp' !! b = Some g' /\
      (determined g = true -> g' = g) /\
      (determined g = false ->
       g' = g \/ exists v, g' = set_value v g /\ evaluated_at hp' g').

(** The arities that evaluation relies on, and child counts that fit an
    [unsigned int]. *)
Definition arity_ok (g : Gate) : Prop :=
  Z.of_nat (length (children g)) < 2 ^ 32 /\
  (type g = tREF \/ type g = tNOT -> length (children g) = 1%nat) /\
  (type g = tITE -> length (children g) = 3%nat).

Definition arities_ok (hp : heap) : Prop :=
  forall a g, hp !! a = Some g -> arity_ok g.

(** [rank] decreases from a gate to its children: the circuit is acyclic. *)
Definition ranked (rank : nat -> nat) (hp : heap) : Prop :=
  forall a g c, hp !! a = Some g -> c ∈ child_gates g -> (rank c < rank a)%nat.

(** The child pointers lead to gates of the heap. *)
Definition closed (hp : heap) : Prop :=
  forall a g c, hp !! a = Some g -> c ∈ child_gates g -> is_Some (hp !! c).

(** Every undetermined gate has a type that [evaluate] computes. *)
Definition evaluable (hp : heap) : Prop :=
  forall a g, hp !! a = Some g -> determined g = false ->
    type g <> tVAR /\ type g <> tUNDEF /\ type g <> tDELETED.

(** What the evaluation of gates relies on. *)
Definition eval_ready (rank : nat -> nat) (hp : heap) : Prop :=
  arities_ok hp /\ ranked rank hp /\ closed hp /\ evaluable hp.

(** [hp'] is [hp] after the evaluation of gates of rank below [bound]. *)
Definition eval_step (rank : nat -> nat) (bound : nat) (hp hp' : heap) : Prop :=
  eval_ext hp hp' /\
  (forall b, hp !! b = None -> hp' !! b = None) /\
  (forall b, (bound <= rank b)%nat -> hp' !! b = hp !! b).

(** The state of a child: its value if it is determined. *)
Definition child_state (hp : heap) (c : nat) : option (option bool) :=
  match hp !! c with
  | Some g => Some (if determined g then Some (value g) else None)
  | None => None
  end.

Definition child_states (hp : heap) (cs : list nat) (ss : list (option bool)) : Prop :=
  Forall2 (fun c s => child_state hp c = Some s) cs ss.

(** The numbers of children that are true, false and undetermined. *)
Fixpoint state_counts (ss : list (option bool)) : nat * nat * nat :=
  match ss with
  | [] => (0, 0, 0)%nat
  | s :: ss' =>
      let '(t, f, u) := state_counts ss' in
      match s with
      | Some true => (S t, f, u)
      | Some false => (t, S f, u)
      | None => (t, f, S u)
      end
  end.

(** The types that are left after CNF normalization. *)
Definition cnf_type (t : GateType) : Prop :=
  t = tFALSE \/ t = tTRUE \/ t = tVAR \/ t = tNOT \/ t = tOR \/ t = tAND \/
  t = tEQUIV \/ t = tODD \/ t = tEVEN \/ t = tITE.

(** The values [vs] extend the states [ss]: a child that was determined
    has kept its value. *)
Definition states_extended (ss : list (option bool)) (vs : list bool) : Prop :=
  Forall2 (fun s v => s = None \/ s = Some v) ss vs.

(** The constants carry their own value when they are determined. *)
Definition constant_ok (g : Gate) : Prop :=
  determined g = true ->
  (type g = tTRUE -> value g = true) /\ (type g = tFALSE -> value g = false).

(** What [assign_irrelevant_inputs] does to a gate. *)
Definition assign_gate (g : Gate) : Gate :=
  if is_type (type g) tVAR && negb (determined g) then set_value false g else g.

(** [hp'] is [hp] with a value for every gate: the determined gates are
    as they were, the undetermined inputs are false, and every other
    undetermined gate has got the value of its function on the values of
    its children. *)
Definition reconstructed (hp hp' : heap) : Prop :=
  forall b g, hp !! b = Some g ->
    exists g', hp' !! b = Some g' /\ determined g' = true /\
      (determined g = true -> g' = g) /\
      (determined g = false -> type g = tVAR -> g' = set_value false g) /\
      (determined g = false -> type g <> tVAR ->
       exists v, g' = set_value v g /\ evaluated_at hp' g').

(** The comment lines with the truth assignment of the named gates. *)
Definition assignment_lines (hp : heap) (l : list nat) : list string :=
  flat_map (fun a => match hp !! a with
                     | Some g => name_lines (handles g) (if value g then "T" else "F")
                     | None => []
                     end) l.

(** A normalized circuit: the chain [first_gate] holds the gates of the
    heap, the child pointers stay in the heap and follow a decreasing
    rank, and the gates have the types and arities of a CNF-normalized
    circuit. *)
Definition circuit_ok (rank : nat -> nat) (bc : BC) : Prop :=
  (forall a, a ∈ first_gate bc <-> is_Some (gates bc !! a)) /\
  arities_ok (gates bc) /\ ranked rank (gates bc) /\ closed (gates bc) /\
  (forall a g, gates bc !! a = Some g -> cnf_type (type g) /\ constant_ok g).

(** [x] and [n := NOT(x)] are free, [y] and [o := OR(x, y)] are true: no
    gate is relevant. *)
Definition ex_free_heap (t : Z) : heap :=
  <[3%nat := set_temp t (set_handles [NameHandle "n"] (gate_of tNOT 3 [(2%nat, 0%nat)]))]>
    (<[2%nat := set_temp t (set_value true (set_handles [NameHandle "o"]
                  (gate_of tOR 2 [(0%nat, 0%nat); (1%nat, 1%nat)])))]>
       (<[1%nat := set_temp t (set_value true (set_handles [NameHandle "y"]
                     (gate_of tVAR 1 [])))]>
          (<[0%nat := set_temp t (set_handles [NameHandle "x"] (gate_of tVAR 0 []))]> ∅))).

Definition ex_free_bc (t : Z) : BC :=
  mkBC (ex_free_heap t) [0%nat; 1%nat; 2%nat; 3%nat] [] false true false [] [] 3.

(** *** The rewriting of gates *)

(** The gates of the circuit are the installed ones, which have an
    index. *)
Definition installed (g : Gate) : Prop := index g <> UINT_MAX.

(** From [bc] to [bc'], every gate of the circuit is still there, and
    every determined one is still determined, with the value it had. *)
Definition values_kept (bc bc' : BC) : Prop :=
  forall a g, gates bc !! a = Some g -> installed g ->
    exists g', gates bc' !! a = Some g' /\ installed g' /\
      (determined g = true -> determined g' = true /\ value g' = value g).

(** The computation [m], started in [bc], keeps the values. *)
Definition safe_at {A : Type} (bc : BC) (m : M A) : Prop :=
  forall a bc', m bc = Ok (a, bc') -> values_kept bc bc'.

Definition safe {A : Type} (m : M A) : Prop := forall bc, safe_at bc m.

(** A computation that only reads. *)
Definition readonly {A : Type} (m : M A) : Prop :=
  forall bc a bc', m bc = Ok (a, bc') -> bc' = bc.

(** No gate is installed from [bc] to [bc']. *)
Definition none_installed (bc bc' : BC) : Prop :=
  forall a g', gates bc' !! a = Some g' -> installed g' ->
    exists g, gates bc !! a = Some g /\ installed g.

Definition installs_none {A : Type} (m : M A) : Prop :=
  forall bc a bc', m bc = Ok (a, bc') -> none_installed bc bc'.

(** The field update [f] leaves [index], [determined] and [value] alone. *)
Definition keeps (f : Gate -> Gate) : Prop :=
  forall g, index (f g) = index g /\ determined (f g) = determined g /\
            value (f g) = value g.

(** The operations of the circuit keep the values. *)
Definition ops_safe (ops : BCOps) : Prop :=
  (forall a b, safe (depends_on ops a b)) /\
  (forall a, safe (install_gate ops a)) /\
  (forall a, safe (new_NOT ops a)) /\
  (forall l, safe (add_true_gate_counter ops l)) /\
  (forall c, safe (add_unsigned_constant ops c)) /\
  (forall x y, safe (add_unsigned_ge ops x y)) /\
  (forall x y, safe (add_unsigned_le ops x y)) /\
  (forall t a, safe (test_and_set ops t a)).

(** Operations for the examples.  [depends_on] searches the children,
    [install_gate] numbers the gate and links it in the chain, the hash
    table is a list of gates compared by [comp]; the adder construction
    of big THRESHOLD gates is not provided. *)
Fixpoint ex_reaches (fuel : nat) (hp : heap) (a b : nat) : bool :=
  (a =? b)%nat ||
  match fuel with
  | O => false
  | S fuel' =>
      match hp !! a with
      | Some g => existsb (fun c => ex_reaches fuel' hp c b) (child_gates g)
      | None => false
      end
  end.

Definition ex_install_gate (a : nat) : M unit :=
  let* n := (fun bc => Ok (Z.of_nat (length (first_gate bc)), bc)) in
  st_assert (n <? UINT_MAX);;
  modify a (set_index n);;
  fun bc => Ok (tt, set_first_gate (a :: first_gate bc) bc).

Fixpoint ex_lookup (hp : heap) (this : nat) (t : list nat) : option nat :=
  match t with
  | [] => None
  | b :: t' =>
      match comp hp this b with
      | Ok 0 => Some b
      | _ => ex_lookup hp this t'
      end
  end.

Definition ex_ops : BCOps :=
  mkBCOps
    (fun a b bc => Ok (ex_reaches (length (first_gate bc)) (gates bc) a b, bc))
    ex_install_gate
    (fun child => let* a := new_gate1 tNOT child in ex_install_gate a;; st_ret a)
    (fun _ => st_fail InternalError)
    (fun _ => st_fail InternalError)
    (fun _ _ => st_fail InternalError)
    (fun _ _ => st_fail InternalError)
    (list nat)
    (fun t this bc =>
       match ex_lookup (gates bc) this t with
       | Some b => Ok ((b, t), bc)
       | None => Ok ((this, this :: t), bc)
       end).

(** [bc'] and [r] are the circuit and the result after one of the rewrite
    entry points was called on the gate [this] of [bc]. *)
Inductive rewritten (ops : BCOps) (this : nat) (bc : BC) (r : bool) (bc' : BC)
  : Prop :=
| by_simplify (opt_preserve_cnf_normalized_form : bool) :
    simplify ops this opt_preserve_cnf_normalized_form bc = Ok (r, bc') ->
    rewritten ops this bc r bc'
| by_cnf_normalize :
    cnf_normalize ops this bc = Ok (r, bc') ->
    rewritten ops this bc r bc'
| by_share (fuel : nat) (s s' : table ops * gmap Z nat) :
    share ops fuel this s bc = Ok ((r, s'), bc') ->
    rewritten ops this bc r bc'.

(** The determined gate [g] cannot have its value: a constant with the
    other value, or a REF or a NOT over a determined child whose value
    does not fit. *)
Definition value_conflict (hp : heap) (g : Gate) : Prop :=
  determined g = true /\
  ((type g = tTRUE /\ value g = false) \/
   (type g = tFALSE /\ value g = true) \/
   (exists c cg, child_gates g !! 0%nat = Some c /\ hp !! c = Some cg /\
                 determined cg = true /\
                 ((type g = tREF /\ value cg <> value g) \/
                  (type g = tNOT /\ value cg = value g)))).

(** The determined gate [g] has a child that cannot have the value the
    gate gives its children: an OR determined to false with a child
    determined to true, or an AND determined to true with a child
    determined to false.  [dominant] is the value of one child that decides
    the gate: true for OR, false for AND. *)
Definition child_conflict (hp : heap) (g : Gate) : Prop :=
  determined g = true /\
  exists dominant : bool,
    ((type g = tOR /\ dominant = true) \/ (type g = tAND /\ dominant = false)) /\
    value g = negb dominant /\
    exists c cg, c ∈ child_gates g /\ hp !! c = Some cg /\
                 determined cg = true /\ value cg = dominant.

(** [OR(x, y)] constrained to false over a free [x] and a true [y]. *)
Definition ex_or_conflict : BC :=
  mkBC (<[2%nat := set_value false (gate_of tOR 2 [(0%nat, 0%nat); (1%nat, 1%nat)])]>
          (<[1%nat := set_value true (set_parents [(1%nat, 2%nat)] (gate_of tVAR 1 []))]>
             (<[0%nat := set_parents [(0%nat, 2%nat)] (gate_of tVAR 0 [])]> ∅)))
       [0%nat; 1%nat; 2%nat] [] false true false [] [2%nat] 2.

(** The same circuit after [simplify] has set [x] to false, unlinked it
    and found that [y] is true. *)
Definition ex_or_conflict_after : BC :=
  mkBC (<[2%nat := set_value false (gate_of tOR 2 [(1%nat, 1%nat)])]>
          (<[1%nat := set_value true (set_parents [(1%nat, 2%nat)] (gate_of tVAR 1 []))]>
             (<[0%nat := set_in_pstack true (set_value false (gate_of tVAR 0 []))]> ∅)))
       [0%nat; 1%nat; 2%nat] [0%nat] false true false [] [2%nat] 2.

(** [e := OR(x, y)] constrained to false and [c := OR(x, y)] constrained
    to true, with [p := NOT(c)] above the second. *)
Definition ex_share_conflict : BC :=
  mkBC (<[4%nat := gate_of tNOT 4 [(4%nat, 3%nat)]]>
       (<[3%nat := set_value true (set_parents [(4%nat, 4%nat)]
                     (gate_of tOR 3 [(2%nat, 0%nat); (3%nat, 1%nat)]))]>
       (<[2%nat := set_value false (set_handles [NameHandle "e"]
                     (gate_of tOR 2 [(0%nat, 0%nat); (1%nat, 1%nat)]))]>
       (<[1%nat := set_parents [(1%nat, 2%nat); (3%nat, 3%nat)] (gate_of tVAR 1 [])]>
       (<[0%nat := set_parents [(0%nat, 2%nat); (2%nat, 3%nat)]
                     (gate_of tVAR 0 [])]> ∅)))))
       [0%nat; 1%nat; 2%nat; 3%nat; 4%nat] [] false true false [] [] 5.

(** The hash table and the cache after [share] was called on [e]. *)
Definition ex_shared_e : list nat * gmap Z nat := ([2%nat], <[2 := 2%nat]> ∅).

(** ... and after [share] was called on [p] then. *)
Definition ex_shared_p : list nat * gmap Z nat :=
  ([4%nat; 2%nat], <[4 := 4%nat]> (<[3 := 2%nat]> (<[2 := 2%nat]> ∅))).

(** The constant TRUE constrained to false. *)
Definition ex_true_false : BC :=
  mkBC (<[0%nat := set_value false (gate_of tTRUE 0 [])]> ∅)
       [0%nat] [] false true false [] [0%nat] 0.

(** *** The simplification of ATLEAST gates *)

(** The child of the association is undetermined, or true, in [hp]. *)
Definition undetermined_in (hp : heap) (ca : nat * nat) : bool :=
  match hp !! snd ca with
  | Some cg => negb (determined cg)
  | None => false
  end.

Definition true_in (hp : heap) (ca : nat * nat) : bool :=
  match hp !! snd ca with
  | Some cg => determined cg && value cg
  | None => false
  end.

(** The associations that are left when the determined children are
    removed. *)
Definition atleast_rest (hp : heap) (l : list (nat * nat)) : list (nat * nat) :=
  List.filter (undetermined_in hp) l.

(** The bound [L] after it was decremented, down to zero at most, for
    every true child. *)
Fixpoint atleast_bound (hp : heap) (l : list (nat * nat)) (L : Z) : Z :=
  match l with
  | [] => L
  | ca :: l' =>
      atleast_bound hp l' (if true_in hp ca then (if L =? 0 then 0 else L - 1) else L)
  end.

(** What [simplify] relies on at an ATLEAST gate [g] at the address
    [this]: the gate is in use, its associations have different numbers,
    its children and parents are gates of the heap other than the gate
    itself, and the bound is an [unsigned int]. *)
Definition atleast_ready (bc : BC) (this : nat) (g : Gate) : Prop :=
  gates bc !! this = Some g /\ type g = tATLEAST /\
  (parents g <> [] \/ handles g <> [] \/ determined g = true) /\
  NoDup (map fst (children g)) /\
  (forall c, c ∈ child_gates g -> c <> this /\ is_Some (gates bc !! c)) /\
  (forall p, p ∈ map snd (parents g) -> p <> this /\ is_Some (gates bc !! p)) /\
  Z.of_nat (length (children g)) < 2 ^ 32 /\ 0 <= tmin g.

(** ATLEAST[1](x, y) over two free inputs. *)
Definition ex_atleast_one : BC :=
  mkBC (<[2%nat := set_tmin 1 (set_handles [NameHandle "a"]
                     (gate_of tATLEAST 2 [(0%nat, 0%nat); (1%nat, 1%nat)]))]>
          (<[1%nat := set_parents [(1%nat, 2%nat)] (gate_of tVAR 1 [])]>
             (<[0%nat := set_parents [(0%nat, 2%nat)] (gate_of tVAR 0 [])]> ∅)))
       [0%nat; 1%nat; 2%nat] [] false true false [] [] 2.

(** ATLEAST[2](x, y, z) with [y] true. *)
Definition ex_atleast_two : BC :=
  mkBC (<[3%nat := set_tmin 2 (set_handles [NameHandle "a"]
                     (gate_of tATLEAST 3 [(0%nat, 0%nat); (1%nat, 1%nat); (2%nat, 2%nat)]))]>
          (<[2%nat := set_parents [(2%nat, 3%nat)] (gate_of tVAR 2 [])]>
             (<[1%nat := set_value true (set_parents [(1%nat, 3%nat)] (gate_of tVAR 1 []))]>
                (<[0%nat := set_parents [(0%nat, 3%nat)] (gate_of tVAR 0 [])]> ∅))))
       [0%nat; 1%nat; 2%nat; 3%nat] [] false true false [] [] 3.

(** The gate [g'] is [g] up to its parent associations and its place in
    the stack. *)
Definition same_but_links (g g' : Gate) : Prop :=
  g' = set_in_pstack (in_pstack g') (set_parents (parents g') g).

(** From [bc] to [s], the gates other than [this] are as they were, up to
    their parent associations and their place in the stack. *)
Definition others_kept (this : nat) (bc s : BC) : Prop :=
  forall a ga, a <> this -> gates bc !! a = Some ga ->
    exists ga', gates s !! a = Some ga' /\ same_but_links ga ga'.

(** *** The meaning of the clauses *)

(** The value of a literal, of a clause and of a list of clauses under an
    assignment [sigma] of the variables. *)
Definition lit_value (sigma : Z -> bool) (l : Z) : bool :=
  if 0 <? l then sigma l else negb (sigma (- l)).

Definition clause_sat (sigma : Z -> bool) (cl : list Z) : bool :=
  existsb (lit_value sigma) cl.

Definition cnf_sat (sigma : Z -> bool) (cls : list (list Z)) : bool :=
  forallb (clause_sat sigma) cls.

(** [g3 := OR(x, ~y)] of [ex_or_not], reached in positive polarity only. *)
Definition ex_or_not_pos : heap :=
  <[3%nat := set_mir_pos true
               (set_temp 3 (gate_of tOR 3 [(1%nat, 0%nat); (2%nat, 2%nat)]))]> ex_or_not.

(** *** Sorting the children *)

(** The pairs are in the order of their [index] values. *)
Definition index_sorted (l : list (Z * nat)) : Prop :=
  StronglySorted (fun p q => fst p <= fst q) l.

(** The key of the pass at [shift]: what the passes before it have sorted
    the pairs by. *)
Definition low_key (shift : Z) (p : Z * nat) : Z :=
  if shift =? 0 then 0 else fst p mod 2 ^ (shift + 1).

(** The [index] of the gate at [c]. *)
Definition child_index (hp : heap) (c : nat) : Z :=
  match hp !! c with
  | Some g => index g
  | None => 0
  end.

(** What [sort_children] relies on at the gate [g] at the address [this]:
    the associations to the children have different numbers, and the
    children are gates of the heap other than the gate itself, with an
    [unsigned int] in [index]. *)
Definition sort_ready (bc : BC) (this : nat) (g : Gate) : Prop :=
  gates bc !! this = Some g /\
  NoDup (map fst (children g)) /\
  (forall c, c ∈ child_gates g ->
     c <> this /\ exists cg, gates bc !! c = Some cg /\ 0 <= index cg < 2 ^ 32).

(** [g2 := OR(g1, g0)] over two input gates, the children out of order. *)
Definition ex_unsorted : BC :=
  mkBC (<[2%nat := gate_of tOR 2 [(0%nat, 1%nat); (1%nat, 0%nat)]]>
          (<[1%nat := set_parents [(0%nat, 2%nat)] (gate_of tVAR 1 [])]>
             (<[0%nat := set_parents [(1%nat, 2%nat)] (gate_of tVAR 0 [])]> ∅)))
       [0%nat; 1%nat; 2%nat] [] false true false [] [] 2.

(** *** The cone of influence *)

(** [b] is [a] or a gate below it. *)
Inductive reaches (hp : heap) : nat -> nat -> Prop :=
| reaches_here (a : nat) : reaches hp a a
| reaches_child (a c b : nat) (g : Gate) :
    hp !! a = Some g -> c ∈ child_gates g -> reaches hp c b -> reaches hp a b.

(** What [mir_propagate_polarity] relies on: the arities of the gates, an
    acyclic circuit whose child pointers lead to gates, and no gate of a
    type the [switch] of the function has no case for. *)
Definition polarity_ready (rank : nat -> nat) (hp : heap) : Prop :=
  arities_ok hp /\ ranked rank hp /\ closed hp /\
  (forall a g, hp !! a = Some g ->
     type g <> tREF /\ type g <> tUNDEF /\ type g <> tDELETED).

(** The flag of polarity [q] of the gate [c] is in [hp'] what it was in
    [hp]. *)
Definition flag_kept (hp hp' : heap) (c : nat) (q : bool) : Prop :=
  exists cg cg', hp !! c = Some cg /\ hp' !! c = Some cg' /\
    mir_flag q cg' = mir_flag q cg.

(** The gate at [a] is numbered. *)
Definition marked (hp : heap) (a : nat) : Prop :=
  exists g, hp !! a = Some g /\ 0 <= temp g.

(** The numbers in the [temp] fields are the numbers from 0 up to [n],
    [n] excluded, and each is the number of one gate. *)
Definition coi_numbered (hp : heap) (n : Z) : Prop :=
  0 <= n /\
  (forall a g, hp !! a = Some g -> temp g < n) /\
  (forall a b g g', hp !! a = Some g -> hp !! b = Some g' ->
                    0 <= temp g -> temp g' = temp g -> b = a) /\
  (forall k, 0 <= k < n -> exists a g, hp !! a = Some g /\ temp g = k).

(** The children of the numbered gates are numbered, the gates of [S]
    excepted. *)
Definition coi_closed (S : nat -> Prop) (hp : heap) : Prop :=
  forall a g c, hp !! a = Some g -> 0 <= temp g -> ~ S a ->
                c ∈ child_gates g -> marked hp c.

(** [hp'] is [hp] with more gates numbered. *)
Definition coi_ext (hp hp' : heap) : Prop :=
  (forall a, hp !! a = None -> hp' !! a = None) /\
  (forall a g, hp !! a = Some g ->
     exists g', hp' !! a = Some g' /\ same_but_temp g g' /\
                (0 <= temp g -> temp g' = temp g)).

(** *** The numbering of the variables *)

(** The numbering loop of [main] gives the gate a variable: the gate is
    relevant and is not a NOT gate of the NOT-less translation. *)
Definition gets_variable (opts : Options) (g : Gate) : bool :=
  negb (temp g =? -1) && negb (opt_cnf_notless opts && is_type (type g) tNOT).

(** The gates of the chain [l] that have a variable have the variables
    from [lo + 1] to [hi], each the variable of one gate. *)
Definition variables_of (hp : heap) (l : list nat) (lo hi : Z) : Prop :=
  (forall a b ga gb, a ∈ l -> b ∈ l -> hp !! a = Some ga -> hp !! b = Some gb ->
                     temp ga <> -1 -> temp gb = temp ga -> b = a) /\
  (forall k, lo < k <= hi -> exists a g, a ∈ l /\ hp !! a = Some g /\ temp g = k).

(** What a call of [mark_coi] keeps and achieves, with the gates of [S]
    being the gates whose calls are under way. *)
Definition coi_result (S : nat -> Prop) (hp : heap) (hp' : heap) (n' : Z)
    (roots : list nat) : Prop :=
  coi_ext hp hp' /\ coi_numbered hp' n' /\ coi_closed S hp' /\
  (forall c, c ∈ roots -> marked hp' c) /\
  (forall a, marked hp' a -> marked hp a \/ exists c, c ∈ roots /\ reaches hp c a).

(** *** Cycles *)

(** The gate at [a] carries the mark [t]. *)
Definition coloured (hp : heap) (a : nat) (t : Z) : Prop :=
  exists g, hp !! a = Some g /\ temp g = t.

(** [hp'] is [hp] up to the [temp] fields. *)
Definition same_but_temps (hp hp' : heap) : Prop :=
  (forall a, hp !! a = None -> hp' !! a = None) /\
  (forall a g, hp !! a = Some g -> exists g', hp' !! a = Some g' /\ same_but_temp g g').

(** [b] is below a child of [a]. *)
Definition strictly_reaches (hp : heap) (a b : nat) : Prop :=
  exists g c, hp !! a = Some g /\ c ∈ child_gates g /\ reaches hp c b.

(** The gate at [a] is on a cycle: it is below one of its children. *)
Definition cyclic (hp : heap) (a : nat) : Prop := strictly_reaches hp a a.

(** Between calls of [test_acyclicity] from outside: a gate is unmarked or
    done, the children of a gate that is done are done, and no gate that is
    done is on a cycle. *)
Definition marks_ok (hp : heap) : Prop :=
  (forall a t, coloured hp a t -> t = CT_UNTEMP \/ t = CT_TEMP) /\
  (forall a g c, hp !! a = Some g -> temp g = CT_TEMP -> c ∈ child_gates g ->
                 coloured hp c CT_TEMP) /\
  (forall a, coloured hp a CT_TEMP -> ~ cyclic hp a).

(** During a call of [test_acyclicity], over the circuit [H]: the gates
    whose calls are under way carry [CT_IN_STACK], no gate carries
    [CT_CYCLE_ENTRY], the children of a gate that is done are done, and no
    gate that is done is on a cycle. *)
Definition acyc_state (H hp : heap) : Prop :=
  same_but_temps H hp /\
  (forall a t, coloured hp a t -> t = CT_UNTEMP \/ t = CT_IN_STACK \/ t = CT_TEMP) /\
  (forall a g c, H !! a = Some g -> coloured hp a CT_TEMP -> c ∈ child_gates g ->
                 coloured hp c CT_TEMP) /\
  (forall a, coloured hp a CT_TEMP -> ~ cyclic H a).

(** From [hp] to [hp'] a mark has changed only from [CT_UNTEMP] to
    [CT_TEMP], at gates below [this]. *)
Definition marks_step (H : heap) (this : nat) (hp hp' : heap) (a : nat) : Prop :=
  forall t t', coloured hp a t -> coloured hp' a t' ->
    t' = t \/ (t = CT_UNTEMP /\ t' = CT_TEMP /\ reaches H this a).

(** What a call of [test_acyclicity] at [this] in the state [hp] returns. *)
Definition acyc_post (H hp : heap) (this : nat) (cycle : list string)
    (r : Z * (heap * list string)) : Prop :=
  let '(st, (hp', cycle')) := r in
  same_but_temps H hp' /\
  (st = CTR_NO_CYCLE_FOUND \/ st = CTR_IN_CYCLE \/ st = CTR_CYCLE_FOUND) /\
  (st = CTR_NO_CYCLE_FOUND ->
     cycle' = cycle /\ acyc_state H hp' /\ coloured hp' this CT_TEMP /\
     forall a, marks_step H this hp hp' a) /\
  (st = CTR_IN_CYCLE ->
     exists e, coloured hp e CT_IN_STACK /\ coloured hp' e CT_CYCLE_ENTRY /\
               reaches H this e /\
               forall a, a <> e -> coloured hp a CT_IN_STACK ->
                         coloured hp' a CT_IN_STACK) /\
  (st = CTR_CYCLE_FOUND -> exists a, reaches H this a /\ cyclic H a).

(** *** Heights *)

(** A chain of [n] child links leads from [a] to [b]. *)
Inductive path (hp : heap) : nat -> nat -> nat -> Prop :=
| path_here (a : nat) : path hp a a 0
| path_child (a c b : nat) (g : Gate) (n : nat) :
    hp !! a = Some g -> c ∈ child_gates g -> path hp c b n -> path hp a b (S n).

(** A gate without children. *)
Definition leaf (hp : heap) (b : nat) : Prop :=
  exists g, hp !! b = Some g /\ children g = [].

(** [h] is the length of the shortest chain from [a] to a gate without
    children. *)
Definition min_height_is (hp : heap) (a : nat) (h : nat) : Prop :=
  (exists b, leaf hp b /\ path hp a b h) /\
  (forall b n, leaf hp b -> path hp a b n -> (h <= n)%nat).

(** [h] is the length of the longest chain from [a]; it ends at a gate
    without children. *)
Definition max_height_is (hp : heap) (a : nat) (h : nat) : Prop :=
  (exists b, leaf hp b /\ path hp a b h) /\
  (forall b n, path hp a b n -> (n <= h)%nat).

(** The [temp] fields of [hp], a heap over the circuit [H], hold -1 or the
    height of the gate. *)
Definition heights_kept (height_is : heap -> nat -> nat -> Prop) (H hp : heap) : Prop :=
  same_but_temps H hp /\
  forall a g, hp !! a = Some g ->
    temp g = -1 \/ exists h : nat, temp g = Z.of_nat h /\ height_is H a h.

(** The [temp] fields of [hp] hold -1 or the height of the gate. *)
Definition heights_in (height_is : heap -> nat -> nat -> Prop) (hp : heap) : Prop :=
  forall a g, hp !! a = Some g ->
    temp g = -1 \/ exists h : nat, temp g = Z.of_nat h /\ height_is hp a h.

(** *** Checking values *)

(** The types that [check_consistency] decides by the function of the
    gate. *)
Definition checked_type (t : GateType) : Prop :=
  t <> tVAR /\ t <> tATLEAST /\ t <> tUNDEF /\ t <> tDELETED.

(** The bounds of a THRESHOLD gate are in order and within the number of
    the children. *)
Definition threshold_ok (g : Gate) : Prop :=
  type g = tTHRESHOLD ->
  0 <= tmin g <= tmax g /\ tmax g <= Z.of_nat (length (children g)).

(** *** The edimacs normal form *)

(** What [edimacs_print] relies on at a gate: no REF and no THRESHOLD gate
    is left, and a NOT gate is undetermined, over a child that is not a NOT
    gate. *)
Definition edimacs_form (hp : heap) (g : Gate) : Prop :=
  type g <> tREF /\ type g <> tTHRESHOLD /\ type g <> tUNDEF /\
  type g <> tDELETED /\
  (type g = tNOT ->
   determined g = false /\
   exists c cg, nth_child g 0 = Ok c /\ hp !! c = Some cg /\ type cg <> tNOT).

(** The gate at [this] is on the stack again, deleted, or in the edimacs
    normal form, where [edimacs_print] prints it without an internal
    error. *)
Definition edimacs_settled (this : nat) (notless : bool) (bc : BC) : Prop :=
  exists g, gates bc !! this = Some g /\
    (in_pstack g = true \/ type g = tDELETED \/
     (edimacs_form (gates bc) g /\
      edimacs_print (gates bc) this notless <> Err InternalError)).

(** The circuit [ex_atleast_one] after [edimacs_normalize] at its ATLEAST
    gate. *)
Definition ex_atleast_one_after : BC :=
  match edimacs_normalize ex_ops 2 ex_atleast_one with
  | Ok (_, s) => s
  | Err _ => ex_atleast_one
  end.

(** *** Duplicate children of parity gates *)

(** The gate [g'] is [g] up to its mark in [temp], its parent associations
    and its place in the stack. *)
Definition same_but_marks (g g' : Gate) : Prop :=
  g' = set_temp (temp g') (set_in_pstack (in_pstack g') (set_parents (parents g') g)).

(** From [bc] to [s], the gates other than [this] are as they were, up to
    their marks, their parent associations and their place in the stack. *)
Definition marks_kept (this : nat) (bc s : BC) : Prop :=
  forall a ga, a <> this -> gates bc !! a = Some ga ->
    exists ga', gates s !! a = Some ga' /\ same_but_marks ga ga'.

(** The parity of the values that [sigma] gives to the gates [cs]. *)
Definition parity (sigma : nat -> bool) (cs : list nat) : bool :=
  Nat.odd (nof_trues (map sigma cs)).

(** The gate at [c] is determined (a pointer that leads nowhere counts as
    determined). *)
Definition det_of (hp : heap) (c : nat) : bool :=
  match hp !! c with
  | Some cg => determined cg
  | None => true
  end.

(** The children among [cs] that are not determined. *)
Definition undetermined_of (hp : heap) (cs : list nat) : list nat :=
  List.filter (fun c => negb (det_of hp c)) cs.

(** [g2 := ODD(x, x, y)] over two input gates. *)
Definition ex_parity : BC :=
  mkBC (<[2%nat := gate_of tODD 2 [(0%nat, 0%nat); (1%nat, 0%nat); (2%nat, 1%nat)]]>
          (<[1%nat := set_parents [(2%nat, 2%nat)] (gate_of tVAR 1 [])]>
             (<[0%nat := set_parents [(0%nat, 2%nat); (1%nat, 2%nat)]
                           (gate_of tVAR 0 [])]> ∅)))
       [0%nat; 1%nat; 2%nat] [] false true false [] [] 3.

(** *** The CNF normal form *)

(** From [s] to [s'] the gate at [this] has kept its type and its [temp]
    field. *)
Definition gate_kept (this : nat) (s s' : BC) : Prop :=
  forall g, gates s !! this = Some g ->
    exists g', gates s' !! this = Some g' /\ type g' = type g /\ temp g' = temp g.

(** The computation [m] keeps the type and the [temp] field of the gate at
    [this]. *)
Definition fixes {A : Type} (this : nat) (m : M A) : Prop :=
  forall s r s', m s = Ok (r, s') -> gate_kept this s s'.

(** What the translation into clauses relies on at a gate: no REF, THRESHOLD
    or ATLEAST gate is left, a constant is determined to its value, a NOT
    gate is undetermined over a child that is not a NOT gate, and EQUIV,
    EVEN and ODD gates are binary. *)
Definition cnf_form (hp : heap) (g : Gate) : Prop :=
  type g <> tREF /\ type g <> tTHRESHOLD /\ type g <> tATLEAST /\
  type g <> tUNDEF /\ type g <> tDELETED /\
  (type g = tTRUE -> determined g = true /\ value g = true) /\
  (type g = tFALSE -> determined g = true /\ value g = false) /\
  (type g = tNOT ->
   determined g = false /\
   exists c cg, nth_child g 0 = Ok c /\ hp !! c = Some cg /\ type cg <> tNOT) /\
  (type g = tEQUIV \/ type g = tEVEN \/ type g = tODD -> count_children g = 2).

(** The gate at [this] is on the stack again, deleted, or in the CNF normal
    form, where the clauses are counted, and produced without an internal
    error. *)
Definition cnf_settled (this : nat) (notless : bool) (bc : BC) : Prop :=
  exists g, gates bc !! this = Some g /\
    (in_pstack g = true \/ type g = tDELETED \/
     (cnf_form (gates bc) g /\
      (exists n, cnf_count_clauses (gates bc) this notless = Ok n) /\
      cnf_get_clauses (gates bc) this notless <> Err InternalError)).

(** A gate of the array of the ATLEAST rewriting that has been visited:
    it is marked and it has got its type. *)
Definition visited (g : Gate) : Prop := temp g = 1 /\ type g <> tUNDEF.

(** The steps of [m] keep the type and the mark of the gate at [this] once
    the gate is [visited]. *)
Definition spares {A : Type} (this : nat) (m : M A) : Prop :=
  forall s r s' g, gates s !! this = Some g -> visited g ->
    m s = Ok (r, s') -> gate_kept this s s'.

(** The circuit [ex_atleast_two] after [cnf_normalize] at its ATLEAST
    gate. *)
Definition ex_atleast_two_after : BC :=
  match cnf_normalize ex_ops 3 ex_atleast_two with
  | Ok (_, s) => s
  | Err _ => ex_atleast_two
  end.

(** *** Children that occur with their negation *)

(** The gate under the NOT gate at [c]. *)
Definition not_child (hp : heap) (c : nat) : option nat :=
  match hp !! c with
  | Some cg => if is_type (type cg) tNOT then child_gates cg !! 0%nat else None
  | None => None
  end.

(** [sigma] gives every NOT gate among [cs] the negation of the value of
    its child. *)
Definition respects_nots (hp : heap) (sigma : nat -> bool) (cs : list nat) : Prop :=
  forall c gc, c ∈ cs -> not_child hp c = Some gc -> sigma c = negb (sigma gc).

(** The gates that get marks when the children [cs] are scanned: the
    children and the gates under the NOT gates among them. *)
Definition mark_scope (hp : heap) (cs : list nat) (a : nat) : Prop :=
  a ∈ cs \/ exists c, c ∈ cs /\ not_child hp c = Some a.

(** The children [cs] are gates other than [this], and so are the gates
    under the NOT gates among them. *)
Definition scope_ready (this : nat) (hp : heap) (cs : list nat) : Prop :=
  forall c, c ∈ cs ->
    c <> this /\
    exists cg, hp !! c = Some cg /\
      (type cg = tNOT ->
       exists gc, not_child hp c = Some gc /\ gc <> this /\ is_Some (hp !! gc)).

(** The marks that are 0 in [s] are 0 in [s']. *)
Definition zeros_kept (s s' : BC) : Prop :=
  forall a ag, gates s !! a = Some ag -> temp ag = 0 ->
    exists ag', gates s' !! a = Some ag' /\ temp ag' = 0.

(** The marks of the scan of [remove_g_not_g_and_duplicate_children] when
    the children [K] are kept so far: an undetermined child that was seen
    has the mark 1, the gate under an undetermined NOT child that was seen
    has the mark 2. *)
Definition scan_marks (bc0 : BC) (cs : list nat) (K : list (nat * nat)) (s : BC)
    : Prop :=
  forall a, mark_scope (gates bc0) cs a ->
    exists ag, gates s !! a = Some ag /\
      (temp ag = 1 <-> a ∈ undetermined_of (gates bc0) (map snd K)) /\
      (temp ag = 2 <->
       exists n, n ∈ undetermined_of (gates bc0) (map snd K) /\
                 not_child (gates bc0) n = Some a).

(** [g2 := OR(x, ~x)] with [g1 := ~x]. *)
Definition ex_g_not_g : BC :=
  mkBC (<[2%nat := gate_of tOR 2 [(1%nat, 0%nat); (2%nat, 1%nat)]]>
          (<[1%nat := set_parents [(2%nat, 2%nat)] (gate_of tNOT 1 [(0%nat, 0%nat)])]>
             (<[0%nat := set_parents [(0%nat, 1%nat); (1%nat, 2%nat)]
                           (gate_of tVAR 0 [])]> ∅)))
       [0%nat; 1%nat; 2%nat] [] false true false [] [] 3.

(** *** The emitter *)

(** The literal is a variable of the header, or its negation. *)
Definition lit_valid (max_var_num : Z) (lit : Z) : Prop :=
  lit <> 0 /\ Z.abs lit <= max_var_num.

(** The child [c] stands in the clauses of its parents with a variable of
    the header: its own, or in the NOT-less translation, for a NOT gate,
    the one of its child. *)
Definition child_numbered (notless : bool) (max_var_num : Z) (hp : heap) (c : nat)
  : Prop :=
  exists cg, hp !! c = Some cg /\
    if notless && is_type (type cg) tNOT then
      exists gc gcg, child_gates cg !! 0%nat = Some gc /\ hp !! gc = Some gcg /\
                     0 < temp gcg <= max_var_num
    else 0 < temp cg <= max_var_num.

(** What the two scans of the emitter rely on: a relevant gate of the chain
    has a variable of the header, is in the CNF normal form, and its
    children stand for variables of the header. *)
Definition emit_ready (opts : Options) (max_var_num : Z) (bc : BC) : Prop :=
  forall a, a ∈ first_gate bc ->
    exists g, gates bc !! a = Some g /\
      (temp g <> -1 ->
       0 < temp g <= max_var_num /\
       arity_ok g /\ cnf_form (gates bc) g /\
       (opt_cnf_notless opts = true -> type g <> tNOT) /\
       forall c, c ∈ child_gates g ->
         child_numbered (opt_cnf_notless opts) max_var_num (gates bc) c).

(** The circuit that the numbering loop of [main] is given: the chain holds
    the gates of the circuit, each once; the gates are in the CNF normal
    form; the children of the relevant gates are relevant. *)
Definition emitter_input (bc : BC) : Prop :=
  NoDup (first_gate bc) /\
  (forall a, a ∈ first_gate bc <-> is_Some (gates bc !! a)) /\
  (forall a g, gates bc !! a = Some g -> arity_ok g /\ cnf_form (gates bc) g) /\
  (forall a g c, gates bc !! a = Some g -> temp g <> -1 -> c ∈ child_gates g ->
     exists cg, gates bc !! c = Some cg /\ temp cg <> -1).

(** * Properties *)

(** ** General lemmas *)

Lemma rbind_Ok {A B : Type} (r : result A) (k : A -> result B) (b : B) :
  rbind r k = Ok b -> exists a, r = Ok a /\ k a = Ok b.
Proof. destruct r as [a|e]; simpl; [eauto | discriminate]. Qed.

Lemma deref_Ok (hp : heap) (a : nat) (g : Gate) :
  deref hp a = Ok g <-> hp !! a = Some g.
Proof.
  unfold deref. destruct (hp !! a); simpl; split; congruence.
Qed.

Lemma deref_lookup (hp : heap) (a : nat) (g : Gate) :
  hp !! a = Some g -> deref hp a = Ok g.
Proof. apply deref_Ok. Qed.

Lemma is_type_true (t u : GateType) : is_type t u = true <-> t = u.
Proof. unfold is_type. apply bool_decide_eq_true. Qed.

Lemma is_type_false (t u : GateType) : is_type t u = false <-> t <> u.
Proof. unfold is_type. apply bool_decide_eq_false. Qed.


(** Inversion of a successful monadic computation, one bind at a time. *)
Tactic Notation "inv_bind" hyp(H) :=
  let x := fresh "x" in
  let Hx := fresh "H" x in
  apply rbind_Ok in H; destruct H as (x & Hx & H).

Tactic Notation "inv_bind" hyp(H) "as" ident(x) ident(Hx) :=
  apply rbind_Ok in H; destruct H as (x & Hx & H).

(** ** Structural equality and hashing *)



Lemma comp_children_zero (hp : heap) (cs1 cs2 : list nat) :
  valid_pointers hp cs1 -> valid_pointers hp cs2 ->
  (comp_children hp cs1 cs2 = Ok 0 <-> child_indices hp cs1 = child_indices hp cs2).
Proof.
  intros V1. revert cs2.
  induction V1 as [|c1 cs1 [g1 Hg1] V1 IH]; intros cs2 V2.
  - destruct cs2; simpl; split; intros H; try discriminate; reflexivity.
  - destruct V2 as [|c2 cs2 [g2 Hg2] V2]; simpl.
    + split; discriminate.
    + rewrite (deref_lookup _ _ _ Hg1), (deref_lookup _ _ _ Hg2). simpl.
      rewrite Hg1, Hg2. simpl.
      destruct (index g1 <? index g2) eqn:E1; [|destruct (index g2 <? index g1) eqn:E2].
      * split; [discriminate|]. intros [= Hi _]. lia.
      * split; [discriminate|]. intros [= Hi _]. lia.
      * rewrite (IH cs2 V2). split.
        -- intros ->. f_equal. f_equal. lia.
        -- intros [= _ Ht]. exact Ht.
Qed.

Lemma comp_children_Ok_valid (hp : heap) (cs1 cs2 : list nat) :
  comp_children hp cs1 cs2 = Ok 0 ->
  valid_pointers hp cs1 /\ valid_pointers hp cs2.
Proof.
  revert cs2. induction cs1 as [|c1 cs1 IH]; intros [|c2 cs2]; simpl; intros H;
    try discriminate.
  - split; constructor.
  - inv_bind H. inv_bind H. apply deref_Ok in Hx, Hx0.
    destruct (index x <? index x0); [discriminate|].
    destruct (index x0 <? index x); [discriminate|].
    destruct (IH _ H) as [V1 V2].
    split; constructor; eauto.
Qed.

Lemma hash_children_indices (hp hp' : heap) (cs1 cs2 : list nat) (h : Z) :
  child_indices hp cs1 = child_indices hp' cs2 ->
  hash_children hp cs1 h = hash_children hp' cs2 h.
Proof.
  revert cs2 h. induction cs1 as [|c1 cs1 IH]; intros [|c2 cs2] h; simpl;
    try discriminate; [reflexivity|].
  intros [= Hi Ht]. unfold deref.
  destruct (hp !! c1) as [g1|], (hp' !! c2) as [g2|]; simpl in *;
    try discriminate; [|reflexivity].
  injection Hi as ->. apply IH, Ht.
Qed.


Lemma hash_value_same_data (hp hp' : heap) (a b : nat) (g o : Gate) :
  hp !! a = Some g -> hp' !! b = Some o ->
  same_hash_data hp g hp' o ->
  hash_value hp a = hash_value hp' b.
Proof.
  intros Ha Hb (Ht & Hthr & Hatl & Hvar & Hch).
  unfold hash_value.
  rewrite (deref_lookup _ _ _ Ha), (deref_lookup _ _ _ Hb). simpl.
  rewrite <- Ht.
  destruct (type g) eqn:E; try reflexivity;
    try (apply hash_children_indices, Hch; discriminate).
  - rewrite (Hvar eq_refl). reflexivity.
  - destruct (Hthr eq_refl) as [-> ->].
    apply hash_children_indices, Hch; discriminate.
  - rewrite (Hatl eq_refl).
    apply hash_children_indices, Hch; discriminate.
Qed.


Lemma type_rank_inj (t u : GateType) : type_rank t = type_rank u -> t = u.
Proof. destruct t, u; simpl; intros H; try reflexivity; discriminate. Qed.

(** What [comp] returning 0 says about two different gates. *)
Lemma comp_zero_distinct (hp : heap) (a b : nat) (g o : Gate) :
  a <> b -> hp !! a = Some g -> hp !! b = Some o ->
  comp hp a b = Ok 0 ->
  type g = type o /\ type g <> tVAR /\ type g <> tUNDEF /\ type g <> tDELETED /\
  (type g = tTHRESHOLD -> tmin g = tmin o /\ tmax g = tmax o) /\
  (type g = tATLEAST -> tmin g = tmin o) /\
  (type g = tTRUE \/ type g = tFALSE \/
   comp_children hp (child_gates g) (child_gates o) = Ok 0).
Proof.
  intros Hne Ha Hb. unfold comp.
  rewrite bool_decide_eq_false_2 by exact Hne.
  rewrite (deref_lookup _ _ _ Ha), (deref_lookup _ _ _ Hb). simpl.
  destruct (type_rank (type g) <? type_rank (type o)) eqn:E1; [discriminate|].
  destruct (type_rank (type o) <? type_rank (type g)) eqn:E2; [discriminate|].
  assert (Ht : type g = type o) by (apply type_rank_inj; lia).
  intros H. split; [exact Ht|].
  destruct (type g) eqn:E;
    repeat match type of H with
           | context [if ?b then _ else _] => destruct b eqn:?; try discriminate H
           end;
    try discriminate H;
    repeat split; try discriminate; try (intros ?; discriminate);
    try (intros _; lia); try lia; auto.
Qed.

(** C8, as the spec states it, fails: two different input gates that have
    no name agree on type, bounds, children and name, and [comp] orders
    them by their index instead of returning 0. *)
Lemma comp_unnamed_vars_differ :
  structurally_equal ex_two_vars 0 1 /\ comp ex_two_vars 0 1 = Ok (-1).
Proof.
  split; [|reflexivity].
  exists (gate_of tVAR 0 []), (gate_of tVAR 1 []).
  repeat split; try discriminate; reflexivity.
Qed.

(** C8 (amended): [comp] returns 0 for two gates exactly when they are the
    same gate, or they have the same type, which is not VAR (nor UNDEF or
    DELETED), the same bounds ([tmin] and [tmax] for THRESHOLD, [tmin] for
    ATLEAST) and the same ordered sequence of child index values.  Two
    different VAR gates never compare equal. *)
Theorem comp_zero_iff (hp : heap) (a b : nat) (g o : Gate) :
  hp !! a = Some g -> hp !! b = Some o ->
  valid_pointers hp (child_gates g) -> valid_pointers hp (child_gates o) ->
  constants_childless hp ->
  (comp hp a b = Ok 0 <->
   a = b \/
   (type g = type o /\ type g <> tVAR /\ type g <> tUNDEF /\ type g <> tDELETED /\
    (type g = tTHRESHOLD -> tmin g = tmin o /\ tmax g = tmax o) /\
    (type g = tATLEAST -> tmin g = tmin o) /\
    child_indices hp (child_gates g) = child_indices hp (child_gates o))).
Proof.
  intros Ha Hb Va Vb Hc.
  destruct (decide (a = b)) as [->|Hne].
  { split; [auto|]. intros _. unfold comp.
    rewrite bool_decide_eq_true_2; reflexivity. }
  split.
  - intros H. right.
    destruct (comp_zero_distinct _ _ _ _ _ Hne Ha Hb H)
      as (Ht & Hv & Hu & Hd & Hthr & Hatl & Hch).
    repeat split; try assumption; try (apply Hthr; assumption).
    destruct Hch as [Hc1|[Hc1|Hc1]].
    + unfold child_gates.
      rewrite (Hc a g Ha), (Hc b o Hb) by (rewrite <- ?Ht; auto). reflexivity.
    + unfold child_gates.
      rewrite (Hc a g Ha), (Hc b o Hb) by (rewrite <- ?Ht; auto). reflexivity.
    + apply comp_children_zero; assumption.
  - intros [->|(Ht & Hv & Hu & Hd & Hthr & Hatl & Hch)]; [contradiction|].
    apply (comp_children_zero _ _ _ Va Vb) in Hch.
    unfold comp. rewrite bool_decide_eq_false_2 by exact Hne.
    rewrite (deref_lookup _ _ _ Ha), (deref_lookup _ _ _ Hb). simpl.
    rewrite <- Ht, Z.ltb_irrefl.
    destruct (type g) eqn:E; try contradiction; try reflexivity; try exact Hch.
    + destruct (Hthr eq_refl) as [<- <-]. rewrite !Z.ltb_irrefl. exact Hch.
    + rewrite <- (Hatl eq_refl), !Z.ltb_irrefl. exact Hch.
Qed.

Lemma ex_two_ors_childless : constants_childless ex_two_ors.
Proof.
  intros a g Ha Ht. unfold ex_two_ors, ex_two_vars in Ha.
  repeat (rewrite lookup_insert in Ha; case_decide;
          [injection Ha as <-; simpl in Ht; destruct Ht; discriminate|]).
  rewrite lookup_empty in Ha. discriminate.
Qed.

(** The theorem at the two OR gates of [ex_two_ors]: they compare equal. *)
Lemma comp_zero_iff_witness :
  comp ex_two_ors 2 3 = Ok 0 <->
  2%nat = 3%nat \/
  (tOR = tOR /\ tOR <> tVAR /\ tOR <> tUNDEF /\ tOR <> tDELETED /\
   (tOR = tTHRESHOLD -> 0 = 0 /\ 0 = 0) /\ (tOR = tATLEAST -> 0 = 0) /\
   child_indices ex_two_ors [0%nat; 1%nat] = child_indices ex_two_ors [0%nat; 1%nat]).
Proof.
  apply (comp_zero_iff ex_two_ors 2 3
           (gate_of tOR 2 [(0%nat, 0%nat); (1%nat, 1%nat)])
           (gate_of tOR 3 [(2%nat, 0%nat); (3%nat, 1%nat)])).
  - reflexivity.
  - reflexivity.
  - repeat constructor; eexists; reflexivity.
  - repeat constructor; eexists; reflexivity.
  - exact ex_two_ors_childless.
Defined.

(** C10: if [comp] returns 0 for two installed gates, they agree on all the
    data that [hash_value] reads (type, bounds, first name of a VAR, child
    index values), and their hash values are equal. *)
Theorem comp_zero_hash_value (hp : heap) (a b : nat) (g o : Gate) :
  hp !! a = Some g -> hp !! b = Some o ->
  constants_childless hp ->
  comp hp a b = Ok 0 ->
  same_hash_data hp g hp o /\ hash_value hp a = hash_value hp b.
Proof.
  intros Ha Hb Hc H.
  assert (Hs : same_hash_data hp g hp o).
  { destruct (decide (a = b)) as [->|Hne].
    - assert (g = o) as -> by congruence.
      repeat split; reflexivity.
    - destruct (comp_zero_distinct _ _ _ _ _ Hne Ha Hb H)
        as (Ht & Hv & Hu & Hd & Hthr & Hatl & Hch).
      repeat split; try assumption; try (apply Hthr; assumption);
        try (intros; contradiction).
      intros _. destruct Hch as [Hc1|[Hc1|Hc1]].
      + unfold child_gates.
        rewrite (Hc a g Ha), (Hc b o Hb) by (rewrite <- ?Ht; auto). reflexivity.
      + unfold child_gates.
        rewrite (Hc a g Ha), (Hc b o Hb) by (rewrite <- ?Ht; auto). reflexivity.
      + destruct (comp_children_Ok_valid _ _ _ Hc1) as [V1 V2].
        apply comp_children_zero; assumption. }
  split; [exact Hs|].
  exact (hash_value_same_data hp hp a b g o Ha Hb Hs).
Qed.

(** The theorem at the two OR gates of [ex_two_ors]. *)
Lemma comp_zero_hash_value_witness :
  same_hash_data ex_two_ors (gate_of tOR 2 [(0%nat, 0%nat); (1%nat, 1%nat)])
                 ex_two_ors (gate_of tOR 3 [(2%nat, 0%nat); (3%nat, 1%nat)]) /\
  hash_value ex_two_ors 2 = hash_value ex_two_ors 3.
Proof.
  apply (comp_zero_hash_value ex_two_ors 2 3); try reflexivity.
  exact ex_two_ors_childless.
Defined.

(** ** The clauses of OR and AND gates *)

Lemma child_neg_lit_opp (hp : heap) (notless : bool) (c : nat) (l : Z) :
  child_lit hp notless c = Ok l -> child_neg_lit hp notless c = Ok (- l).
Proof.
  unfold child_lit, child_neg_lit. intros H.
  inv_bind H. rewrite Hx. simpl.
  destruct (notless && is_type (type x) tNOT).
  - inv_bind H. inv_bind H. rewrite Hx0. simpl. rewrite Hx1. simpl.
    injection H as <-. f_equal. lia.
  - injection H as <-. reflexivity.
Qed.

Lemma map_children_Forall2 (f : nat -> result Z) (cs : list nat) (ls : list Z) :
  map_children f cs = Ok ls <-> Forall2 (fun c l => f c = Ok l) cs ls.
Proof.
  revert ls. induction cs as [|c cs IH]; intros ls; simpl.
  - split.
    + intros [= <-]. constructor.
    + intros H. inversion H. reflexivity.
  - split.
    + intros H. inv_bind H. inv_bind H. injection H as <-.
      constructor; [assumption|]. apply IH. assumption.
    + intros H. inversion H as [|c' l cs' ls' Hl Hls]; subst.
      rewrite Hl. simpl. apply IH in Hls. rewrite Hls. reflexivity.
Qed.

Lemma map_children_length (f : nat -> result Z) (cs : list nat) (ls : list Z) :
  map_children f cs = Ok ls -> length ls = length cs.
Proof.
  intros H. apply map_children_Forall2 in H.
  symmetry. exact (Forall2_length _ _ _ H).
Qed.

Lemma map_children_neg (hp : heap) (notless : bool) (cs : list nat) (ls : list Z) :
  map_children (child_lit hp notless) cs = Ok ls ->
  map_children (child_neg_lit hp notless) cs = Ok (map Z.opp ls).
Proof.
  rewrite !map_children_Forall2. intros H.
  induction H as [|c l cs ls Hl Hls IH]; simpl; constructor.
  - apply child_neg_lit_opp. assumption.
  - assumption.
Qed.

Lemma to_int_small (n : Z) : 0 <= n < 2 ^ 31 -> to_int (u32 n) = n.
Proof.
  intros H. unfold to_int, u32.
  rewrite Z.mod_small by lia.
  destruct (n <? 2 ^ 31) eqn:E; lia.
Qed.

Lemma count_children_small (g : Gate) :
  Z.of_nat (length (children g)) < 2 ^ 32 ->
  count_children g = Z.of_nat (length (children g)).
Proof.
  intros H. unfold count_children, u32. apply Z.mod_small. lia.
Qed.

(** C1: for a gate [g] of type OR numbered [temp g], whose children
    [c1..cn] have the literals [l1..ln], [cnf_get_clauses] produces exactly
    the [n+1] clauses [(-g, l1, ..., ln)] and, for each [i], [(g, -li)], and
    [cnf_count_clauses] returns [n+1]; for a gate of type AND they are
    [(g, -l1, ..., -ln)] and, for each [i], [(-g, li)].  The literal of a
    child is its own number, or, in the NOT-less translation, the negated
    number of the child of a NOT child ([child_lit]). *)
Theorem cnf_clauses_or_and (hp : heap) (a : nat) (g : Gate) (notless : bool)
    (lits : list Z) :
  hp !! a = Some g ->
  Forall2 (fun c l => child_lit hp notless c = Ok l) (child_gates g) lits ->
  Z.of_nat (length (children g)) + 1 < 2 ^ 31 ->
  (type g = tOR ->
   cnf_get_clauses hp a notless =
     Ok ((- temp g :: lits) :: map (fun l => [temp g; - l]) lits) /\
   cnf_count_clauses hp a notless = Ok (Z.of_nat (length (child_gates g)) + 1)) /\
  (type g = tAND ->
   cnf_get_clauses hp a notless =
     Ok ((temp g :: map Z.opp lits) :: map (fun l => [- temp g; l]) lits) /\
   cnf_count_clauses hp a notless = Ok (Z.of_nat (length (child_gates g)) + 1)).
Proof.
  intros Ha Hl Hn.
  apply map_children_Forall2 in Hl.
  pose proof (map_children_neg _ _ _ _ Hl) as Hneg.
  assert (Hcount : to_int (u32 (count_children g + 1)) =
                   Z.of_nat (length (child_gates g)) + 1).
  { rewrite count_children_small by lia.
    unfold child_gates. rewrite length_map. apply to_int_small. lia. }
  unfold cnf_get_clauses, cnf_count_clauses.
  rewrite (deref_lookup _ _ _ Ha). simpl.
  split; intros Ht; rewrite Ht; rewrite Hl, Hneg; simpl; rewrite Hcount.
  - split; [|reflexivity]. rewrite map_map. reflexivity.
  - split; reflexivity.
Qed.

(** The theorem at [g3 := OR(x, ~y)] in the NOT-less translation: the
    clauses are [(-3, 1, -2)], [(3, -1)] and [(3, 2)]. *)
Lemma cnf_clauses_or_and_witness :
  (tOR = tOR ->
   cnf_get_clauses ex_or_not 3 true = Ok [ [-3; 1; -2]; [3; -1]; [3; 2] ] /\
   cnf_count_clauses ex_or_not 3 true = Ok 3) /\
  (tOR = tAND ->
   cnf_get_clauses ex_or_not 3 true = Ok [ [3; -1; 2]; [-3; 1]; [-3; -2] ] /\
   cnf_count_clauses ex_or_not 3 true = Ok 3).
Proof.
  apply (cnf_clauses_or_and ex_or_not 3
           (set_temp 3 (gate_of tOR 3 [(1%nat, 0%nat); (2%nat, 2%nat)]))
           true [1; -2]).
  - reflexivity.
  - repeat constructor.
  - simpl. lia.
Defined.

(** ** The two scans of the emitter agree *)

Lemma lit_ok_child_lit (hp : heap) (notless : bool) (c : nat) :
  lit_ok hp notless c -> exists l, child_lit hp notless c = Ok l.
Proof.
  intros (cg & Hc & Hn). unfold child_lit.
  rewrite (deref_lookup _ _ _ Hc). simpl.
  destruct notless; simpl; [|eauto].
  destruct (is_type (type cg) tNOT) eqn:E; [|eauto].
  apply is_type_true in E.
  destruct (Hn eq_refl E) as (gc & gcg & Hgc & Hgcg).
  unfold nth_child. rewrite Hgc. simpl.
  rewrite (deref_lookup _ _ _ Hgcg). simpl. eauto.
Qed.

Lemma lit_ok_map_children (hp : heap) (notless : bool) (cs : list nat) :
  Forall (lit_ok hp notless) cs ->
  exists ls, map_children (child_lit hp notless) cs = Ok ls.
Proof.
  induction 1 as [|c cs Hc Hcs [ls IH]]; simpl; [eauto|].
  destruct (lit_ok_child_lit _ _ _ Hc) as [l Hl].
  rewrite Hl, IH. simpl. eauto.
Qed.

(** A list of a given length, spelled out. *)
Ltac list_of_length l H :=
  repeat (destruct l as [|? l]; simpl in H; try discriminate H; try lia).

(** For a normalized gate, [cnf_count_clauses] returns the number of the
    clauses that [cnf_get_clauses] produces. *)
Lemma cnf_count_get_agree (hp : heap) (a : nat) (g : Gate) (notless : bool) :
  hp !! a = Some g -> normalized_gate hp g notless ->
  exists cls, cnf_get_clauses hp a notless = Ok cls /\
              cnf_count_clauses hp a notless = Ok (Z.of_nat (length cls)).
Proof.
  intros Ha [Hch Hn].
  destruct (lit_ok_map_children _ _ _ Hch) as [ls Hls].
  pose proof (map_children_neg _ _ _ _ Hls) as Hneg.
  pose proof (map_children_length _ _ _ Hls) as Hlen.
  unfold cnf_get_clauses, cnf_count_clauses.
  rewrite (deref_lookup _ _ _ Ha). simpl.
  unfold binary_lits, ite_lits, count_children, nth_child, child_gates in *.
  destruct (type g) eqn:Et; try contradiction.
  - (* EQUIV *)
    destruct (children g) as [|[e1 c1] [|[e2 c2] [|? ?]]]; try discriminate Hn.
    simpl in *.
    apply Forall_cons in Hch; destruct Hch as [[l1 Hl1]%lit_ok_child_lit Hch].
    apply Forall_cons in Hch; destruct Hch as [[l2 Hl2]%lit_ok_child_lit Hch].
    rewrite Hl1, Hl2. simpl. eauto.
  - (* OR *)
    destruct Hn as [Hn1 Hn2]. rewrite Hls, Hneg. simpl.
    eexists; split; [reflexivity|]. simpl.
    rewrite !length_map, Hlen, length_map.
    fold (count_children g). rewrite count_children_small by lia.
    rewrite to_int_small by lia. f_equal. lia.
  - (* AND *)
    destruct Hn as [Hn1 Hn2]. rewrite Hls, Hneg. simpl.
    eexists; split; [reflexivity|]. simpl.
    rewrite !length_map, Hlen, length_map.
    fold (count_children g). rewrite count_children_small by lia.
    rewrite to_int_small by lia. f_equal. lia.
  - (* EVEN *)
    destruct (children g) as [|[e1 c1] [|[e2 c2] [|? ?]]]; try discriminate Hn.
    simpl in *.
    apply Forall_cons in Hch; destruct Hch as [[l1 Hl1]%lit_ok_child_lit Hch].
    apply Forall_cons in Hch; destruct Hch as [[l2 Hl2]%lit_ok_child_lit Hch].
    rewrite Hl1, Hl2. simpl. eauto.
  - (* ODD *)
    destruct (children g) as [|[e1 c1] [|[e2 c2] [|? ?]]]; try discriminate Hn.
    simpl in *.
    apply Forall_cons in Hch; destruct Hch as [[l1 Hl1]%lit_ok_child_lit Hch].
    apply Forall_cons in Hch; destruct Hch as [[l2 Hl2]%lit_ok_child_lit Hch].
    rewrite Hl1, Hl2. simpl. eauto.
  - (* ITE *)
    destruct (children g) as [|[e1 c1] [|[e2 c2] [|[e3 c3] [|? ?]]]];
      try discriminate Hn.
    simpl in *.
    apply Forall_cons in Hch; destruct Hch as [[l1 Hl1]%lit_ok_child_lit Hch].
    apply Forall_cons in Hch; destruct Hch as [[l2 Hl2]%lit_ok_child_lit Hch].
    apply Forall_cons in Hch; destruct Hch as [[l3 Hl3]%lit_ok_child_lit Hch].
    rewrite Hl1, Hl2, Hl3. simpl. eauto.
  - (* NOT *)
    destruct Hn as [Hn1 Hn2].
    destruct (children g) as [|[e1 c1] [|? ?]]; try discriminate Hn1.
    simpl in *. inversion Hch as [|? ? (cg & Hcg & _) _]; subst.
    rewrite (deref_lookup _ _ _ Hcg). simpl.
    destruct notless; [|eauto].
    destruct (Hn2 eq_refl) as [Hd Hc]. rewrite Hd.
    specialize (Hc c1 cg eq_refl Hcg). apply is_type_false in Hc.
    rewrite Hc. eauto.
  - (* TRUE *)
    destruct Hn as [-> ->]. simpl. eauto.
  - (* FALSE *)
    destruct Hn as [-> ->]. simpl. eauto.
  - (* VAR *)
    eauto.
Qed.

Lemma u32_range (x : Z) : in_u32 (u32 x).
Proof. unfold in_u32, u32. apply Z.mod_pos_bound. lia. Qed.

Lemma u32_id (x : Z) : in_u32 x -> u32 x = x.
Proof. unfold in_u32, u32. intros H. apply Z.mod_small. lia. Qed.

Lemma u32_add_l (a b : Z) : u32 (u32 a + b) = u32 (a + b).
Proof. unfold u32. apply Zplus_mod_idemp_l. Qed.

Lemma eq_u32_step (x y d : Z) : eq_u32 x y -> eq_u32 (u32 (x + d)) (y + d).
Proof.
  unfold eq_u32. intros H.
  rewrite (u32_id (u32 (x + d))) by apply u32_range.
  rewrite <- (u32_add_l x), <- (u32_add_l y), H. reflexivity.
Qed.

Lemma print_clause_fold (max_var_num : Z) (cls : list (list Z)) :
  forall lines printed lines' printed',
  foldM (print_clause_step max_var_num) cls (lines, printed) = Ok (lines', printed') ->
  exists new, lines' = lines ++ new /\ length new = length cls /\
              eq_u32 printed' (printed + Z.of_nat (length cls)) /\
              (in_u32 printed -> in_u32 printed').
Proof.
  induction cls as [|cl cls IH]; simpl; intros lines printed lines' printed' H.
  - injection H as <- <-. exists []. rewrite app_nil_r, Z.add_0_r.
    split_and!; auto; reflexivity.
  - inv_bind H. unfold print_clause_step in Hx. inv_bind Hx.
    injection Hx as <-. simpl in H.
    destruct (IH _ _ _ _ H) as (new & -> & Hlen & Heq & Hr).
    exists (clause_line cl :: new). rewrite <- app_assoc. simpl.
    split_and!; [reflexivity|simpl; congruence| |intros _; apply Hr, u32_range].
    unfold eq_u32 in *. rewrite Heq, u32_add_l. f_equal. lia.
Qed.

(** The second scan prints as many lines as the first scan counts. *)
Lemma print_count_fold (opts : Options) (max_var_num : Z) (hp : heap) (l : list nat) :
  forall lines printed n lines' printed',
  foldM (print_cnf_step opts max_var_num hp) l (lines, printed) = Ok (lines', printed') ->
  exists new n',
    lines' = lines ++ new /\
    eq_u32 printed' (printed + Z.of_nat (length new)) /\
    (in_u32 printed -> in_u32 printed') /\
    foldM (count_cnf_step opts hp) l n = Ok n' /\
    eq_u32 n' (n + Z.of_nat (length new)) /\
    (in_u32 n -> in_u32 n').
Proof.
  induction l as [|a l IH]; simpl; intros lines printed n lines' printed' H.
  - injection H as <- <-. exists [], n. rewrite app_nil_r, !Z.add_0_r.
    split_and!; auto; reflexivity.
  - inv_bind H. unfold print_cnf_step in Hx. inv_bind Hx.
    unfold count_cnf_step at 1. rewrite Hx0. simpl.
    destruct (temp x0 =? -1) eqn:Et.
    { injection Hx as <-. simpl. apply IH. exact H. }
    inv_bind Hx. inv_bind Hx. rewrite Hx2. simpl.
    inv_bind Hx. destruct x3 as [lines1 printed1].
    apply print_clause_fold in Hx3.
    destruct Hx3 as (new1 & -> & Hlen1 & Heq1 & Hr1).
    rewrite length_rev in Hlen1, Heq1.
    assert (Hu : exists u, x = (lines ++ new1 ++ u,
                                if length u =? 0 then printed1 else u32 (printed1 + 1))%nat
                           /\ length u = unit_clauses x0).
    { unfold unit_clauses.
      destruct (determined x0);
        [injection Hx as <-; eexists [_]; rewrite <- app_assoc; split; reflexivity|].
      destruct (is_type (type x0) tTRUE);
        [injection Hx as <-; eexists [_]; rewrite <- app_assoc; split; reflexivity|].
      destruct (is_type (type x0) tFALSE);
        [injection Hx as <-; eexists [_]; rewrite <- app_assoc; split; reflexivity|].
      injection Hx as <-. exists []. rewrite !app_nil_r. split; reflexivity. }
    destruct Hu as (u & -> & Hu).
    set (n1 := u32 (n + Z.of_nat (length x2))).
    assert (Hcount :
      (if determined x0 then Ok (u32 (n1 + 1))
       else if is_type (type x0) tTRUE then Ok (u32 (n1 + 1))
       else if is_type (type x0) tFALSE then Ok (u32 (n1 + 1))
       else Ok n1) =
      Ok (if (length u =? 0)%nat then n1 else u32 (n1 + 1))).
    { rewrite Hu. unfold unit_clauses.
      destruct (determined x0); [reflexivity|].
      destruct (is_type (type x0) tTRUE); [reflexivity|].
      destruct (is_type (type x0) tFALSE); reflexivity. }
    rewrite Hcount.
    destruct (IH _ _ (if (length u =? 0)%nat then n1 else u32 (n1 + 1)) _ _ H)
      as (new & n' & -> & Heq & Hr & Hc & Heqn & Hrn).
    exists (new1 ++ u ++ new), n'.
    rewrite <- !app_assoc. split; [reflexivity|].
    assert (Hn1 : eq_u32 n1 (n + Z.of_nat (length new1))).
    { unfold n1, eq_u32. rewrite Hlen1. apply u32_id, u32_range. }
    assert (Hlu : (length u = 0 \/ length u = 1)%nat).
    { rewrite Hu. unfold unit_clauses.
      destruct (determined x0); auto.
      destruct (is_type (type x0) tTRUE); auto.
      destruct (is_type (type x0) tFALSE); auto. }
    rewrite !length_app.
    split_and!.
    + unfold eq_u32 in *. rewrite Heq.
      destruct Hlu as [E|E]; rewrite E in *; simpl.
      * rewrite <- u32_add_l, Heq1, u32_add_l. f_equal. lia.
      * rewrite u32_add_l.
        replace (printed1 + 1 + Z.of_nat (length new))
          with (printed1 + (1 + Z.of_nat (length new))) by lia.
        rewrite <- (u32_add_l printed1), Heq1, u32_add_l. f_equal. lia.
    + intros Hp. apply Hr.
      destruct (length u =? 0)%nat; [auto | apply u32_range].
    + exact Hc.
    + unfold eq_u32 in *. rewrite Heqn.
      destruct Hlu as [E|E]; rewrite E in *; simpl.
      * rewrite <- u32_add_l, Hn1, u32_add_l. f_equal. lia.
      * rewrite u32_add_l.
        replace (n1 + 1 + Z.of_nat (length new))
          with (n1 + (1 + Z.of_nat (length new))) by lia.
        rewrite <- (u32_add_l n1), Hn1, u32_add_l. f_equal. lia.
    + intros _. apply Hrn.
      destruct (length u =? 0)%nat; apply u32_range.
Qed.

(** C5: the number of clauses in the DIMACS header (the result of the first
    scan, which counts the translation clauses of every relevant gate plus
    one unit clause for a determined gate or a TRUE/FALSE constant) is the
    number of the clause lines that the second scan prints after it; and
    for a normalized gate [cnf_count_clauses] returns the number of the
    clauses that [cnf_get_clauses] produces. *)
Theorem clause_count_exact (opts : Options) (max_var_num : Z) (bc : BC)
    (out lines : list string) (printed : Z) (a : nat) (g : Gate) (notless : bool) :
  print_cnf_clauses opts max_var_num bc = Ok (lines, printed) ->
  Z.of_nat (length lines) < 2 ^ 32 ->
  gates bc !! a = Some g -> normalized_gate (gates bc) g notless ->
  count_cnf_clauses opts bc = Ok (Z.of_nat (length lines)) /\
  print_cnf opts max_var_num bc out =
    Ok (out ++ dimacs_header max_var_num (Z.of_nat (length lines)) :: lines) /\
  exists cls, cnf_get_clauses (gates bc) a notless = Ok cls /\
              cnf_count_clauses (gates bc) a notless = Ok (Z.of_nat (length cls)).
Proof.
  intros Hp Hlen Ha Hn.
  unfold print_cnf_clauses in Hp.
  destruct (print_count_fold _ _ _ _ _ _ 0 _ _ Hp)
    as (new & n' & Hl & Heq & Hr & Hc & Heqn & Hrn).
  simpl in Hl. subst new.
  assert (Hz : in_u32 0) by (unfold in_u32; lia).
  assert (Hl' : in_u32 (Z.of_nat (length lines))) by (unfold in_u32; lia).
  unfold eq_u32 in Heq, Heqn. rewrite Z.add_0_l in Heq, Heqn.
  rewrite (u32_id _ (Hr Hz)), (u32_id _ Hl') in Heq.
  rewrite (u32_id _ (Hrn Hz)), (u32_id _ Hl') in Heqn.
  subst printed n'.
  assert (Hcount : count_cnf_clauses opts bc = Ok (Z.of_nat (length lines))) by exact Hc.
  split_and!.
  - exact Hcount.
  - unfold print_cnf. rewrite Hcount. simpl.
    unfold print_cnf_clauses. rewrite Hp. simpl.
    rewrite Z.eqb_refl. simpl. rewrite <- app_assoc. reflexivity.
  - exact (cnf_count_get_agree _ _ _ _ Ha Hn).
Qed.

(** The theorem at the circuit [g3 := OR(x, ~y)] with [g3] constrained to
    true: the header announces the four clause lines that follow. *)
Lemma clause_count_exact_witness :
  count_cnf_clauses default_options ex_or_not_bc = Ok 4 /\
  print_cnf default_options 3 ex_or_not_bc [] =
    Ok ["p cnf 3 4"; "3 2 0"; "3 -1 0"; "-3 1 -2 0"; "3 0"] /\
  exists cls, cnf_get_clauses (gates ex_or_not_bc) 3 true = Ok cls /\
              cnf_count_clauses (gates ex_or_not_bc) 3 true = Ok (Z.of_nat (length cls)).
Proof.
  apply (clause_count_exact default_options 3 ex_or_not_bc []
           ["3 2 0"; "3 -1 0"; "-3 1 -2 0"; "3 0"] 4 3
           (set_value true (set_temp 3 (gate_of tOR 3 [(1%nat, 0%nat); (2%nat, 2%nat)])))
           true).
  - vm_compute. reflexivity.
  - simpl. lia.
  - reflexivity.
  - split.
    + repeat constructor; eexists; (split; [reflexivity|]); intros _;
        try discriminate.
      intros _. exists 1%nat. eexists. split; reflexivity.
    + simpl. split; [lia|]. lia.
Defined.

(** ** The NOT-less numbering *)

(** One step of the numbering loop changes at most the [temp] field of the
    gate it visits. *)
Lemma renumber_step_frame (opts : Options) (hp hp' : heap) (n n' : Z) (a : nat) :
  renumber_step opts (hp, n) a = Ok (hp', n') ->
  exists g t, hp !! a = Some g /\ hp' = <[a := set_temp t g]> hp.
Proof.
  unfold renumber_step. intros H. inv_bind H. apply deref_Ok in Hx.
  exists x.
  destruct (temp x =? -1) eqn:Et.
  { injection H as <- <-. exists (temp x). split; [assumption|].
    rewrite insert_id; [reflexivity|]. rewrite Hx. destruct x; reflexivity. }
  destruct (opt_cnf_notless opts && is_type (type x) tNOT).
  - do 4 inv_bind H. injection H as <- <-. eauto.
  - injection H as <- <-. eauto.
Qed.

Lemma renumber_step_other (opts : Options) (hp hp' : heap) (n n' : Z) (a b : nat) :
  renumber_step opts (hp, n) a = Ok (hp', n') -> a <> b -> hp' !! b = hp !! b.
Proof.
  intros H Hne. destruct (renumber_step_frame _ _ _ _ _ _ H) as (g & t & _ & ->).
  apply lookup_insert_ne. exact Hne.
Qed.

Lemma same_but_temp_refl (g : Gate) : same_but_temp g g.
Proof. unfold same_but_temp. destruct g; reflexivity. Qed.

Lemma same_but_temp_trans (g1 g2 g3 : Gate) :
  same_but_temp g1 g2 -> same_but_temp g2 g3 -> same_but_temp g1 g3.
Proof. unfold same_but_temp. intros -> ->. reflexivity. Qed.

Lemma same_but_temp_set (g : Gate) (t : Z) : same_but_temp g (set_temp t g).
Proof. reflexivity. Qed.

Lemma renumber_step_same (opts : Options) (hp hp' : heap) (n n' : Z) (a b : nat)
    (g' : Gate) :
  renumber_step opts (hp, n) a = Ok (hp', n') -> hp' !! b = Some g' ->
  exists g, hp !! b = Some g /\ same_but_temp g g'.
Proof.
  intros H Hb. destruct (renumber_step_frame _ _ _ _ _ _ H) as (g & t & Ha & ->).
  rewrite lookup_insert in Hb. case_decide.
  - subst b. injection Hb as <-. eauto using same_but_temp_set.
  - eauto using same_but_temp_refl.
Qed.

(** The numbering loop, in the NOT-less translation: a NOT gate that is
    visited, or that was irrelevant before, ends with [temp = -1]; if it
    was relevant, the assertions of the loop have checked that it is not
    determined and that its child is not a NOT. *)
Lemma renumber_fold_not (opts : Options) (l : list nat) :
  opt_cnf_notless opts = true ->
  forall hp n hp' n' a g,
  foldM (renumber_step opts) l (hp, n) = Ok (hp', n') ->
  hp !! a = Some g -> type g = tNOT ->
  a ∈ l \/ temp g = -1 ->
  hp' !! a = Some (set_temp (-1) g) /\
  (temp g <> -1 ->
   determined g = false /\
   exists c cg, child_gates g !! 0%nat = Some c /\ hp !! c = Some cg /\
                type cg <> tNOT).
Proof.
  intros Hnl. induction l as [|b l IH]; simpl; intros hp n hp' n' a g H Ha Ht Hin.
  - injection H as <- <-. destruct Hin as [Hin|Hm]; [inversion Hin|].
    split; [|contradiction]. rewrite Ha. f_equal. rewrite <- Hm.
    destruct g; reflexivity.
  - inv_bind H. destruct x as [hp1 n1].
    destruct (decide (b = a)) as [->|Hne].
    + (* the step visits the gate *)
      pose proof Hx as Hstep. unfold renumber_step in Hx.
      rewrite (deref_lookup _ _ _ Ha) in Hx. simpl in Hx.
      destruct (temp g =? -1) eqn:Em.
      * injection Hx as <- <-. apply Z.eqb_eq in Em.
        destruct (IH _ _ _ _ _ _ H Ha Ht (or_intror Em)) as [IH1 _].
        split; [exact IH1|]. lia.
      * rewrite Hnl, (proj2 (is_type_true _ _) Ht) in Hx. simpl in Hx.
        inv_bind Hx. inv_bind Hx. inv_bind Hx. inv_bind Hx. injection Hx as <- <-.
        assert (Ha1 : <[a := set_temp (-1) g]> hp !! a = Some (set_temp (-1) g))
          by apply lookup_insert_eq.
        destruct (IH _ _ _ _ _ _ H Ha1 Ht (or_intror eq_refl)) as [IH1 _].
        split; [exact IH1|]. intros _.
        unfold rassert in Hx0, Hx3.
        destruct (determined g); [discriminate|].
        destruct (is_type (type x1) tNOT) eqn:Ec; [discriminate|].
        split; [reflexivity|].
        unfold nth_child in Hx1. destruct (child_gates g !! 0%nat) eqn:Ech; [|discriminate].
        injection Hx1 as <-. apply deref_Ok in Hx2.
        exists n0, x1. split_and!; auto. apply is_type_false. exact Ec.
    + (* the step visits another gate *)
      assert (Ha1 : hp1 !! a = Some g)
        by (rewrite (renumber_step_other _ _ _ _ _ _ _ Hx Hne); exact Ha).
      assert (Hin1 : a ∈ l \/ temp g = -1).
      { destruct Hin as [Hin|Hm]; [|auto].
        apply elem_of_cons in Hin. destruct Hin as [->|Hin]; [contradiction|auto]. }
      destruct (IH _ _ _ _ _ _ H Ha1 Ht Hin1) as [IH1 IH2].
      split; [exact IH1|]. intros Hm.
      destruct (IH2 Hm) as (Hd & c & cg & Hc & Hcg & Hcn).
      split; [exact Hd|].
      destruct (renumber_step_same _ _ _ _ _ _ _ _ Hx Hcg) as (cg0 & Hcg0 & Hs).
      exists c, cg0. split_and!; auto. rewrite Hs in Hcn. exact Hcn.
Qed.

Lemma renumber_fold_same (opts : Options) (l : list nat) :
  forall hp n hp' n' b g,
  foldM (renumber_step opts) l (hp, n) = Ok (hp', n') -> hp !! b = Some g ->
  exists g', hp' !! b = Some g' /\ same_but_temp g g'.
Proof.
  induction l as [|a l IH]; simpl; intros hp n hp' n' b g H Hb.
  - injection H as <- <-. eauto using same_but_temp_refl.
  - inv_bind H. destruct x as [hp1 n1].
    destruct (renumber_step_frame _ _ _ _ _ _ Hx) as (ga & t & Ha & ->).
    destruct (decide (a = b)) as [->|Hne].
    + assert (ga = g) as -> by congruence.
      destruct (IH _ _ _ _ b (set_temp t g) H (lookup_insert_eq _ _ _)) as (g' & Hg' & Hs).
      exists g'. split; [exact Hg'|].
      eapply same_but_temp_trans; [apply same_but_temp_set|exact Hs].
    + apply (IH _ _ _ _ b g H). rewrite lookup_insert_ne by exact Hne. exact Hb.
Qed.


(** ** The driver: the UNSAT exit *)

Section PipelineProperties.

Variable force_true force_false : nat -> BC -> result (bool * BC).
Variable remove_underscore_names : BC -> result BC.
Variable BC_simplify : bool -> BC -> result (bool * BC).
Variable BC_share : BC -> result (bool * BC).
Variable BC_cnf_normalize : BC -> result (bool * BC).
Variable compute_stats : BC -> result BC.
Variable mir_compute_polarity_information : BC -> result BC.
Variable my_perm : Z -> Z -> Z -> Z.

(** The loops of [main] over the two queues follow the calls of [force]:
    with fuel for every gate that is taken from the queue, the loop returns
    what [queue_run] says. *)
Lemma mark_assigned_to_true_run (bc bc' : BC) (r : bool) :
  queue_run force_true assigned_to_true set_assigned_to_true bc r bc' ->
  exists n, forall fuel, (n <= fuel)%nat ->
    mark_assigned_to_true force_true fuel bc = Ok (r, bc').
Proof.
  induction 1 as [bc Hq | bc bc' gate rest Hq Hf | bc bc1 bc' gate rest r Hq Hf _ IH].
  - exists 1%nat. intros [|fuel] Hle; [lia|]. simpl. rewrite Hq. reflexivity.
  - exists 1%nat. intros [|fuel] Hle; [lia|]. simpl. rewrite Hq, Hf. reflexivity.
  - destruct IH as (n & IH). exists (S n). intros [|fuel] Hle; [lia|].
    simpl. rewrite Hq, Hf. simpl. apply IH. lia.
Qed.

Lemma mark_assigned_to_false_run (bc bc' : BC) (r : bool) :
  queue_run force_false assigned_to_false set_assigned_to_false bc r bc' ->
  exists n, forall fuel, (n <= fuel)%nat ->
    mark_assigned_to_false force_false fuel bc = Ok (r, bc').
Proof.
  induction 1 as [bc Hq | bc bc' gate rest Hq Hf | bc bc1 bc' gate rest r Hq Hf _ IH].
  - exists 1%nat. intros [|fuel] Hle; [lia|]. simpl. rewrite Hq. reflexivity.
  - exists 1%nat. intros [|fuel] Hle; [lia|]. simpl. rewrite Hq, Hf. reflexivity.
  - destruct IH as (n & IH). exists (S n). intros [|fuel] Hle; [lia|].
    simpl. rewrite Hq, Hf. simpl. apply IH. lia.
Qed.

(** The first lines of [main], up to the first simplification, when the
    constraints are forced. *)
Lemma constraints_forced_run (bc bc' : BC) (r : bool) :
  constraints_forced force_true force_false bc r bc' ->
  exists n, forall fuel, (n <= fuel)%nat ->
    (r = false ->
     mark_assigned_to_true force_true fuel bc = Ok (false, bc') \/
     exists bc1, mark_assigned_to_true force_true fuel bc = Ok (true, bc1) /\
                 mark_assigned_to_false force_false fuel bc1 = Ok (false, bc')) /\
    (r = true ->
     exists bc1, mark_assigned_to_true force_true fuel bc = Ok (true, bc1) /\
                 mark_assigned_to_false force_false fuel bc1 = Ok (true, bc')).
Proof.
  intros [bc1 H1 | bc1 bc2 r' H1 H2].
  - destruct (mark_assigned_to_true_run _ _ _ H1) as (n & Hn).
    exists n. intros fuel Hle. split; [|discriminate]. intros _. left. auto.
  - destruct (mark_assigned_to_true_run _ _ _ H1) as (n1 & Hn1).
    destruct (mark_assigned_to_false_run _ _ _ H2) as (n2 & Hn2).
    exists (n1 + n2)%nat. intros fuel Hle.
    split; intros ->; [right|]; exists bc1; split; (apply Hn1 || apply Hn2); lia.
Qed.

Lemma simplified_or_shared_run (opts : Options) (flag : bool) (bc bc' : BC)
    (r : bool) :
  simplified_or_shared BC_simplify BC_share opts flag bc r bc' ->
  simplify_or_share BC_simplify BC_share opts flag bc = Ok (r, bc').
Proof.
  unfold simplify_or_share. intros [[-> H] | [-> H]]; exact H.
Qed.

(** C3: when an operation of the pipeline reports UNSAT ([force_true] or
    [force_false] at a constraint, [BC::simplify], [BC::share] or
    [BC::cnf_normalize] returns [false]), the operations before it having
    returned [true], [main] calls no further operation: with fuel for the
    gates of the two queues it prints the dummy unsatisfiable DIMACS
    formula and nothing else (nothing was printed before), and returns
    0. *)
Theorem unsat_exit_only (opts : Options) (bc : BC) :
  pipeline_unsat force_true force_false remove_underscore_names
                 BC_simplify BC_share BC_cnf_normalize opts bc ->
  exists n, forall fuel, (n <= fuel)%nat ->
  main force_true force_false remove_underscore_names BC_simplify BC_share
       BC_cnf_normalize compute_stats mir_compute_polarity_information my_perm
       fuel opts (Some bc)
  = Ok (0, [ "c The instance was unsatisfiable"; "p cnf 1 2"; "1 0"; "-1 0" ]).
Proof.
  intros H.
  assert (Hstart : forall r bc2,
            constraints_forced force_true force_false bc r bc2 ->
            exists n, forall fuel, (n <= fuel)%nat ->
              main force_true force_false remove_underscore_names BC_simplify
                   BC_share BC_cnf_normalize compute_stats
                   mir_compute_polarity_information my_perm fuel opts (Some bc) =
              if r then
                (do bc <- remove_underscore_names bc2;
                 let bc := set_preserve_all_solutions
                             (opt_preserve_all_solutions opts) bc in
                 do r <- simplify_or_share BC_simplify BC_share opts false bc;
                 let '(ok, bc) := r in
                 if negb ok then unsat_exit []
                 else
                   do r <- BC_cnf_normalize bc;
                   let '(ok, bc) := r in
                   if negb ok then unsat_exit []
                   else
                     do r <- simplify_or_share BC_simplify BC_share opts true bc;
                     let '(ok, bc) := r in
                     if negb ok then unsat_exit []
                     else translate compute_stats mir_compute_polarity_information
                                    my_perm fuel opts bc [])
              else unsat_exit []).
  { intros r bc2 Hc. destruct (constraints_forced_run _ _ _ Hc) as (n & Hn).
    exists n. intros fuel Hle. destruct (Hn fuel Hle) as (Hf & Ht). unfold main.
    destruct r.
    - destruct (Ht eq_refl) as (bc1 & H1 & H2). rewrite H1. simpl. rewrite H2.
      reflexivity.
    - destruct (Hf eq_refl) as [H1 | (bc1 & H1 & H2)].
      + rewrite H1. reflexivity.
      + rewrite H1. simpl. rewrite H2. reflexivity. }
  destruct H as [bc1 H1 | bc2 bc3 bc4 H1 H3 H4
                | bc2 bc3 bc4 bc5 H1 H3 H4 H5
                | bc2 bc3 bc4 bc5 bc6 H1 H3 H4 H5 H6];
    destruct (Hstart _ _ H1) as (n & Hn); exists n; intros fuel Hle;
    rewrite (Hn fuel Hle); try reflexivity;
    rewrite H3; simpl; rewrite (simplified_or_shared_run _ _ _ _ _ H4); simpl;
    try reflexivity;
    rewrite H5; simpl; try reflexivity;
    rewrite (simplified_or_shared_run _ _ _ _ _ H6); reflexivity.
Qed.

End PipelineProperties.

(** The theorem at a circuit with two constraints, the second of which
    cannot be forced. *)
Lemma unsat_exit_only_witness :
  exists n, forall fuel, (n <= fuel)%nat ->
  main ex_refuse_second ex_refuse_second ex_keep (fun _ => ex_succeed) ex_succeed
       ex_succeed ex_keep ex_keep ex_perm fuel default_options (Some ex_conflict_bc)
  = Ok (0, [ "c The instance was unsatisfiable"; "p cnf 1 2"; "1 0"; "-1 0" ]).
Proof.
  apply unsat_exit_only.
  apply unsat_constraints with (bc1 := set_assigned_to_true [] ex_conflict_bc).
  apply forced_true_refused.
  eapply queue_forced; [reflexivity | reflexivity |].
  eapply queue_refused; reflexivity.
Defined.

(** ** The polarity analysis *)

Lemma more_flags_refl (g : Gate) : more_flags g g.
Proof. unfold more_flags. destruct g; simpl; auto. Qed.

Lemma more_flags_trans (g1 g2 g3 : Gate) :
  more_flags g1 g2 -> more_flags g2 g3 -> more_flags g1 g3.
Proof.
  unfold more_flags. intros (E1 & P1 & N1) (E2 & P2 & N2).
  split_and!; [|auto..]. rewrite E2 at 1. rewrite E1 at 1. reflexivity.
Qed.

Lemma more_flags_set (g : Gate) (p : bool) : more_flags g (set_mir_flag p g).
Proof. unfold more_flags, set_mir_flag. destruct g, p; simpl; auto. Qed.

Lemma flag_ext_refl (hp : heap) : flag_ext hp hp.
Proof.
  intros b. destruct (hp !! b); constructor. apply more_flags_refl.
Qed.

Lemma flag_ext_trans (hp1 hp2 hp3 : heap) :
  flag_ext hp1 hp2 -> flag_ext hp2 hp3 -> flag_ext hp1 hp3.
Proof.
  intros H1 H2 b. specialize (H1 b). specialize (H2 b).
  destruct H1; inversion H2; subst; constructor.
  eapply more_flags_trans; eassumption.
Qed.

Lemma flag_ext_insert (hp : heap) (a : nat) (g : Gate) (p : bool) :
  hp !! a = Some g -> flag_ext hp (<[a := set_mir_flag p g]> hp).
Proof.
  intros Ha b. rewrite lookup_insert. case_decide.
  - subst b. rewrite Ha. constructor. apply more_flags_set.
  - apply flag_ext_refl.
Qed.

Lemma flag_ext_lookup (hp hp' : heap) (b : nat) (g : Gate) :
  flag_ext hp hp' -> hp !! b = Some g ->
  exists g', hp' !! b = Some g' /\ more_flags g g'.
Proof.
  intros H Hb. specialize (H b). rewrite Hb in H. inversion H; subst. eauto.
Qed.

(** A loop of calls that each extend the flags extends the flags. *)
Lemma foldM_flag_ext (step : heap -> nat -> result heap) (cs : list nat) :
  (forall hp c hp', step hp c = Ok hp' -> flag_ext hp hp') ->
  forall hp hp', foldM step cs hp = Ok hp' -> flag_ext hp hp'.
Proof.
  intros Hstep. induction cs as [|c cs IH]; simpl; intros hp hp' H.
  - injection H as <-. apply flag_ext_refl.
  - inv_bind H. eapply flag_ext_trans; eauto.
Qed.

(** The [switch] only sets flags if the calls do. *)
Lemma mir_switch_flag_ext (call : heap -> nat -> bool -> result heap) (g : Gate)
    (polarity : bool) (hp hp' : heap) :
  (forall h c q h', call h c q = Ok h' -> flag_ext h h') ->
  mir_switch call g polarity hp = Ok hp' -> flag_ext hp hp'.
Proof.
  intros Hcall H. unfold mir_switch in H.
  assert (Hall : forall q h h',
             foldM (fun hp c => call hp c q) (child_gates g) h = Ok h' ->
             flag_ext h h').
  { intros q. apply foldM_flag_ext. intros h c h'. apply Hcall. }
  assert (Hboth : forall h h',
             foldM (fun hp c => do hp' <- call hp c polarity;
                                call hp' c (negb polarity))
                   (child_gates g) h = Ok h' -> flag_ext h h').
  { apply foldM_flag_ext. intros h c h' Hc. inv_bind Hc.
    eapply flag_ext_trans; eapply Hcall; eassumption. }
  destruct (type g); try discriminate H;
    try (injection H as <-; apply flag_ext_refl);
    try (eapply Hall; eassumption); try (eapply Hboth; eassumption).
  - (* ODD *)
    inv_bind H as info Hinfo. destruct info as [[nt nf] nu].
    destruct (nu =? 1); [eapply Hall|eapply Hboth]; eassumption.
  - (* EVEN *)
    inv_bind H as info Hinfo. destruct info as [[nt nf] nu].
    destruct (nu =? 1); [eapply Hall|eapply Hboth]; eassumption.
  - (* ITE *)
    inv_bind H as ic Hic. inv_bind H as tc Htc. inv_bind H as ec Hec.
    inv_bind H as h1 Hh1. inv_bind H as h2 Hh2. inv_bind H as h3 Hh3.
    eapply flag_ext_trans; [eapply Hcall; eassumption|].
    eapply flag_ext_trans; [eapply Hcall; eassumption|].
    eapply flag_ext_trans; eapply Hcall; eassumption.
  - (* NOT *)
    inv_bind H as c Hc. eapply Hcall; eassumption.
  - (* THRESHOLD *)
    inv_bind H as info Hinfo. destruct info as [[nt nf] nu].
    destruct polarity;
      (destruct (tmin g <=? nt); [eapply Hall; eassumption|]);
      (destruct ((nt <? tmin g) && (u32 (u32 (nt + nf + nu) - nf) <=? tmax g));
       [eapply Hall|eapply Hboth]; eassumption).
Qed.

(** [mir_propagate_polarity] only sets flags. *)
Lemma mir_propagate_flag_ext (fuel : nat) :
  forall hp this polarity hp',
  mir_propagate_polarity fuel hp this polarity = Ok hp' -> flag_ext hp hp'.
Proof.
  induction fuel as [|fuel IH]; intros hp this polarity hp' H; [discriminate|].
  simpl in H. inv_bind H as g Hg. apply deref_Ok in Hg. inv_bind H as stop Hstop.
  destruct stop; [injection H as <-; apply flag_ext_refl|].
  destruct (mir_flag polarity g); [injection H as <-; apply flag_ext_refl|].
  eapply flag_ext_trans; [apply (flag_ext_insert _ _ _ polarity Hg)|].
  eapply mir_switch_flag_ext; [|eassumption]. apply IH.
Qed.

Lemma more_flags_fields (g g' : Gate) :
  more_flags g g' ->
  type g' = type g /\ children g' = children g /\ determined g' = determined g /\
  value g' = value g /\ tmin g' = tmin g /\ tmax g' = tmax g.
Proof. intros (E & _ & _). rewrite E. simpl. auto 10. Qed.

Lemma flag_ext_deref (hp hp' : heap) (c : nat) :
  flag_ext hp hp' ->
  match deref hp c, deref hp' c with
  | Ok g, Ok g' => more_flags g g'
  | Err e, Err e' => e = e'
  | _, _ => False
  end.
Proof.
  intros H. specialize (H c). unfold deref.
  destruct H; simpl; auto.
Qed.

Lemma count_child_info_step_ext (hp hp' : heap) (acc : Z * Z * Z) (c : nat) :
  flag_ext hp hp' ->
  count_child_info_step hp' acc c = count_child_info_step hp acc c.
Proof.
  intros H. unfold count_child_info_step. destruct acc as [[nt nf] nu].
  pose proof (flag_ext_deref _ _ c H) as Hc.
  destruct (deref hp c) as [g|e], (deref hp' c) as [g'|e']; try contradiction.
  - apply more_flags_fields in Hc. destruct Hc as (_ & _ & Hd & Hv & _).
    simpl. rewrite Hd, Hv. reflexivity.
  - subst. reflexivity.
Qed.

Lemma count_child_info_ext (hp hp' : heap) (g g' : Gate) :
  flag_ext hp hp' -> more_flags g g' ->
  count_child_info hp' g' = count_child_info hp g.
Proof.
  intros H Hg. unfold count_child_info, child_gates.
  apply more_flags_fields in Hg. destruct Hg as (_ & -> & _).
  generalize (0, 0, 0). induction (map snd (children g)) as [|c cs IH]; intros acc.
  - reflexivity.
  - simpl. rewrite (count_child_info_step_ext _ _ _ _ H).
    destruct (count_child_info_step hp acc c); simpl; [apply IH|reflexivity].
Qed.

Lemma det_val_ext (g g' : Gate) (v : bool) :
  more_flags g g' -> det_val g' v = det_val g v.
Proof.
  intros Hg. apply more_flags_fields in Hg.
  destruct Hg as (_ & _ & Hd & Hv & _). unfold det_val. rewrite Hd, Hv. reflexivity.
Qed.

Lemma is_justified_ext (hp hp' : heap) (a : nat) :
  flag_ext hp hp' -> is_justified hp' a = is_justified hp a.
Proof.
  intros H. unfold is_justified.
  pose proof (flag_ext_deref _ _ a H) as Ha.
  destruct (deref hp a) as [g|e], (deref hp' a) as [g'|e']; try contradiction;
    [|subst; reflexivity].
  simpl. rewrite (count_child_info_ext _ _ _ _ H Ha).
  pose proof (more_flags_fields _ _ Ha) as (Ht & Hc & Hd & Hv & Hmin & Hmax).
  rewrite Hd, Hv, Ht, Hmin, Hmax.
  destruct (negb (determined g)); [reflexivity|].
  destruct (count_child_info hp g) as [[[nt nf] nu]|]; [|reflexivity]. simpl.
  destruct (type g); try reflexivity.
  (* ITE *)
  unfold nth_child, child_gates. rewrite Hc.
  destruct (map snd (children g) !! 0%nat) as [ic|]; [|reflexivity]. simpl.
  destruct (map snd (children g) !! 1%nat) as [tc|]; [|reflexivity]. simpl.
  destruct (map snd (children g) !! 2%nat) as [ec|]; [|reflexivity]. simpl.
  pose proof (flag_ext_deref _ _ ic H) as Hic.
  pose proof (flag_ext_deref _ _ tc H) as Htc.
  pose proof (flag_ext_deref _ _ ec H) as Hec.
  destruct (deref hp ic), (deref hp' ic); try contradiction; [|subst; reflexivity].
  destruct (deref hp tc), (deref hp' tc); try contradiction; [|subst; reflexivity].
  destruct (deref hp ec), (deref hp' ec); try contradiction; [|subst; reflexivity].
  simpl. rewrite !(det_val_ext _ _ _ Hic), !(det_val_ext _ _ _ Htc),
    !(det_val_ext _ _ _ Hec). reflexivity.
Qed.

Lemma accepts_ext (hp hp' : heap) (c : nat) (q : bool) :
  flag_ext hp hp' -> accepts hp c q -> accepts hp' c q.
Proof.
  intros H (cg & Hc & Hacc).
  destruct (flag_ext_lookup _ _ _ _ H Hc) as (cg' & Hc' & Hm).
  exists cg'. split; [exact Hc'|].
  pose proof (more_flags_fields _ _ Hm) as (_ & _ & Hd & Hv & _).
  rewrite Hd, Hv, (is_justified_ext _ _ _ H). exact Hacc.
Qed.

Lemma flag_set_ext (hp hp' : heap) (c : nat) (q : bool) :
  flag_ext hp hp' -> flag_set hp c q -> flag_set hp' c q.
Proof.
  intros H (cg & Hc & Hf).
  destruct (flag_ext_lookup _ _ _ _ H Hc) as (cg' & Hc' & (_ & Hp & Hn)).
  exists cg'. split; [exact Hc'|].
  destruct q; simpl in *; auto.
Qed.

Lemma mir_stop_accepts (hp : heap) (a : nat) (g : Gate) (q : bool) :
  hp !! a = Some g ->
  (determined g = false \/ (value g = q /\ is_justified hp a = Ok false)) ->
  mir_stop hp a g q = Ok false.
Proof.
  intros Ha [Hd|[Hv Hj]]; unfold mir_stop.
  - rewrite Hd. reflexivity.
  - destruct (determined g); [|reflexivity].
    rewrite Hv, eqb_reflx. simpl. exact Hj.
Qed.

(** A call that gets past the tests leaves the flag set. *)
Lemma mir_propagate_sets (fuel : nat) (hp hp' : heap) (c : nat) (q : bool) :
  mir_propagate_polarity fuel hp c q = Ok hp' ->
  accepts hp c q -> flag_set hp' c q.
Proof.
  intros H (cg & Hc & Hacc).
  destruct fuel as [|fuel]; [discriminate|]. simpl in H.
  rewrite (deref_lookup _ _ _ Hc) in H. simpl in H.
  rewrite (mir_stop_accepts _ _ _ _ Hc Hacc) in H. simpl in H.
  destruct (mir_flag q cg) eqn:Hf.
  - injection H as <-. exists cg. auto.
  - apply (flag_set_ext (<[c := set_mir_flag q cg]> hp)).
    + eapply mir_switch_flag_ext; [|eassumption].
      intros h b p h'. apply mir_propagate_flag_ext.
    + exists (set_mir_flag q cg). split; [apply lookup_insert_eq|].
      destruct cg, q; reflexivity.
Qed.

(** The loop that calls every child with the polarity [q]. *)
Lemma all_children_sets (fuel : nat) (q : bool) (cs : list nat) :
  forall h h',
  foldM (fun hp c => mir_propagate_polarity fuel hp c q) cs h = Ok h' ->
  forall c, c ∈ cs -> accepts h c q -> flag_set h' c q.
Proof.
  induction cs as [|c0 cs IH]; simpl; intros h h' H c Hin Hacc.
  - inversion Hin.
  - inv_bind H as h1 Hh1.
    pose proof (mir_propagate_flag_ext _ _ _ _ _ Hh1) as He1.
    apply elem_of_cons in Hin. destruct Hin as [->|Hin].
    + apply (flag_set_ext h1).
      * revert H. apply foldM_flag_ext. intros ? ? ?. apply mir_propagate_flag_ext.
      * eapply mir_propagate_sets; eassumption.
    + eapply IH; eauto using accepts_ext.
Qed.

(** The loop that calls every child with both polarities. *)
Lemma all_children_both_sets (fuel : nat) (p : bool) (cs : list nat) :
  forall h h',
  foldM (fun hp c => do hp' <- mir_propagate_polarity fuel hp c p;
                     mir_propagate_polarity fuel hp' c (negb p)) cs h = Ok h' ->
  forall c q, c ∈ cs -> accepts h c q -> flag_set h' c q.
Proof.
  induction cs as [|c0 cs IH]; simpl; intros h h' H c q Hin Hacc.
  - inversion Hin.
  - inv_bind H as h2 Hh2. inv_bind Hh2 as h1 Hh1.
    pose proof (mir_propagate_flag_ext _ _ _ _ _ Hh1) as He1.
    pose proof (mir_propagate_flag_ext _ _ _ _ _ Hh2) as He2.
    apply elem_of_cons in Hin. destruct Hin as [->|Hin].
    + apply (flag_set_ext h2).
      * revert H. apply foldM_flag_ext. intros ? ? ? Hs. inv_bind Hs.
        eapply flag_ext_trans; eapply mir_propagate_flag_ext; eassumption.
      * destruct (Bool.bool_dec q p) as [->|Hne].
        -- apply (flag_set_ext h1); [exact He2|].
           eapply mir_propagate_sets; eassumption.
        -- assert (q = negb p) as -> by (destruct q, p; auto; contradiction).
           eapply mir_propagate_sets; [eassumption|].
           eapply accepts_ext; eassumption.
    + eapply IH; eauto using accepts_ext, flag_ext_trans.
Qed.

Lemma set_mir_flag_fields (p : bool) (g : Gate) :
  type (set_mir_flag p g) = type g /\
  child_gates (set_mir_flag p g) = child_gates g.
Proof. destruct p; split; reflexivity. Qed.


(** ** Model reconstruction: [Gate::evaluate] *)

Lemma children_values_ext (h1 h2 : heap) (cs : list nat) (vs : list bool) :
  eval_ext h1 h2 -> children_values h1 cs vs -> children_values h2 cs vs.
Proof.
  intros He H. induction H as [|c v cs vs (cg & Hc & Hd & Hv) _ IH];
    constructor; [|exact IH].
  destruct (He c cg Hc) as (cg' & Hc' & Hsame & _).
  rewrite (Hsame Hd) in Hc'. eauto.
Qed.

Lemma evaluated_at_ext (h1 h2 : heap) (g : Gate) :
  eval_ext h1 h2 -> evaluated_at h1 g -> evaluated_at h2 g.
Proof.
  intros He (vs & Hvs & Hf). exists vs. eauto using children_values_ext.
Qed.

Lemma eval_ext_refl (hp : heap) : eval_ext hp hp.
Proof. intros b g Hb. exists g. auto. Qed.

Lemma eval_ext_trans (h1 h2 h3 : heap) :
  eval_ext h1 h2 -> eval_ext h2 h3 -> eval_ext h1 h3.
Proof.
  intros H12 H23 b g Hb.
  destruct (H12 b g Hb) as (g2 & Hb2 & Hd2 & Hu2).
  destruct (H23 b g2 Hb2) as (g3 & Hb3 & Hd3 & Hu3).
  exists g3. split; [exact Hb3|]. split.
  - intros Hd. rewrite <- (Hd2 Hd). apply Hd3. rewrite (Hd2 Hd). exact Hd.
  - intros Hu. destruct (Hu2 Hu) as [->|(v & -> & Hev)].
    + apply Hu3, Hu.
    + right. exists v. rewrite (Hd3 eq_refl). eauto using evaluated_at_ext.
Qed.

Lemma eval_ext_set (hp : heap) (a : nat) (g : Gate) (v : bool) :
  hp !! a = Some g -> determined g = false ->
  evaluated_at (<[a := set_value v g]> hp) (set_value v g) ->
  eval_ext hp (<[a := set_value v g]> hp).
Proof.
  intros Ha Hu Hev b gb Hb. rewrite lookup_insert. case_decide.
  - subst b. assert (gb = g) as -> by congruence.
    eexists. split; [reflexivity|]. split; [congruence|]. eauto.
  - exists gb. auto.
Qed.

Lemma eval_ext_determined (hp hp' : heap) (c : nat) (cg : Gate) :
  eval_ext hp hp' -> hp !! c = Some cg -> determined cg = true ->
  hp' !! c = Some cg.
Proof.
  intros He Hc Hd. destruct (He c cg Hc) as (cg' & Hc' & Hsame & _).
  rewrite (Hsame Hd) in Hc'. exact Hc'.
Qed.

Lemma eval_ext_arities (hp hp' : heap) :
  eval_ext hp hp' -> (forall b, hp !! b = None -> hp' !! b = None) ->
  arities_ok hp -> arities_ok hp'.
Proof.
  intros He Hn Hok a g' Ha'.
  destruct (hp !! a) as [g|] eqn:Ha.
  - destruct (He a g Ha) as (g2 & Ha2 & Hd & Hu).
    assert (g2 = g') as -> by congruence.
    specialize (Hok a g Ha).
    destruct (determined g) eqn:E.
    + rewrite (Hd eq_refl). exact Hok.
    + destruct (Hu eq_refl) as [->|(v & -> & _)]; exact Hok.
  - rewrite (Hn a Ha) in Ha'. discriminate.
Qed.

Lemma nof_trues_le (vs : list bool) : (nof_trues vs <= length vs)%nat.
Proof. induction vs as [|[] vs IH]; simpl; lia. Qed.

(** The loop over the children after the evaluation of a child failed. *)
Lemma evaluate_children_none (call : heap -> nat -> result (bool * heap))
    (cs : list nat) (hp : heap) :
  foldM (evaluate_children_step call) cs (None, hp) = Ok (None, hp).
Proof. induction cs as [|c cs IH]; simpl; [reflexivity|exact IH]. Qed.

Lemma eval_ext_lookup_det (hp hp' : heap) (b : nat) (g g' : Gate) :
  eval_ext hp hp' -> hp !! b = Some g -> hp' !! b = Some g' ->
  type g' = type g /\ children g' = children g /\ tmin g' = tmin g /\
  tmax g' = tmax g /\ handles g' = handles g /\ temp g' = temp g /\
  (determined g = true -> determined g' = true /\ value g' = value g).
Proof.
  intros He Hb Hb'. destruct (He b g Hb) as (g2 & Hb2 & Hd & Hu).
  assert (g2 = g') as -> by congruence.
  destruct (determined g) eqn:E.
  - rewrite (Hd eq_refl). rewrite E. auto 10.
  - destruct (Hu eq_refl) as [->|(v & -> & _)]; simpl; split_and!; auto;
      intros; discriminate.
Qed.

Lemma eval_step_refl (rank : nat -> nat) (bound : nat) (hp : heap) :
  eval_step rank bound hp hp.
Proof. split; [apply eval_ext_refl|]. split; auto. Qed.

Lemma eval_step_trans (rank : nat -> nat) (bound : nat) (h1 h2 h3 : heap) :
  eval_step rank bound h1 h2 -> eval_step rank bound h2 h3 ->
  eval_step rank bound h1 h3.
Proof.
  intros (E1 & N1 & R1) (E2 & N2 & R2). split; [eauto using eval_ext_trans|].
  split; [auto|]. intros b Hb. rewrite (R2 b Hb). apply R1, Hb.
Qed.

Lemma eval_step_weaken (rank : nat -> nat) (b1 b2 : nat) (h1 h2 : heap) :
  (b1 <= b2)%nat -> eval_step rank b1 h1 h2 -> eval_step rank b2 h1 h2.
Proof.
  intros Hle (E & N & R). split; [exact E|]. split; [exact N|].
  intros b Hb. apply R. lia.
Qed.

Lemma eval_step_ready (rank : nat -> nat) (bound : nat) (hp hp' : heap) :
  eval_step rank bound hp hp' -> eval_ready rank hp -> eval_ready rank hp'.
Proof.
  intros (He & Hn & _) (Ha & Hr & Hc & Hev).
  assert (Hback : forall a g', hp' !! a = Some g' ->
            exists g, hp !! a = Some g /\
              type g' = type g /\ children g' = children g /\
              (determined g' = false -> determined g = false)).
  { intros a g' Ha'. destruct (hp !! a) as [g|] eqn:E.
    - exists g. split; [reflexivity|].
      destruct (eval_ext_lookup_det _ _ _ _ _ He E Ha') as (Ht & Hch & _ & _ & _ & _ & Hd).
      split_and!; auto. intros Hu. destruct (determined g); [|reflexivity].
      destruct (Hd eq_refl). congruence.
    - rewrite (Hn a E) in Ha'. discriminate. }
  split_and!.
  - eapply eval_ext_arities; eassumption.
  - intros a g' c Ha' Hin. destruct (Hback a g' Ha') as (g & Hg & _ & Hch & _).
    apply (Hr a g c Hg). unfold child_gates in *. rewrite <- Hch. exact Hin.
  - intros a g' c Ha' Hin. destruct (Hback a g' Ha') as (g & Hg & _ & Hch & _).
    destruct (Hc a g c Hg) as [cg Hcg].
    { unfold child_gates in *. rewrite <- Hch. exact Hin. }
    destruct (He c cg Hcg) as (cg' & Hcg' & _). eauto.
  - intros a g' Ha' Hu. destruct (Hback a g' Ha') as (g & Hg & Ht & _ & Hd).
    rewrite Ht. apply (Hev a g Hg). auto.
Qed.

(** The loop of [evaluate] over the children, when every call on a child
    of the list returns [true]. *)
Lemma evaluate_children_total (rank : nat -> nat) (bound : nat)
    (call : heap -> nat -> result (bool * heap)) (cs : list nat) :
  (forall h c, c ∈ cs -> eval_ready rank h -> is_Some (h !! c) ->
     exists h', call h c = Ok (true, h') /\ eval_step rank bound h h' /\
                exists cg, h' !! c = Some cg /\ determined cg = true) ->
  forall nf nt h,
  eval_ready rank h -> (forall c, c ∈ cs -> is_Some (h !! c)) ->
  exists nf' nt' h' vs,
    foldM (evaluate_children_step call) cs (Some (nf, nt), h)
      = Ok (Some (nf', nt'), h') /\
    eval_step rank bound h h' /\
    children_values h' cs vs /\
    eq_u32 nt' (nt + Z.of_nat (nof_trues vs)) /\
    eq_u32 nf' (nf + Z.of_nat (length vs - nof_trues vs)) /\
    (in_u32 nt -> in_u32 nt') /\ (in_u32 nf -> in_u32 nf').
Proof.
  induction cs as [|c cs IH]; intros Hcall nf nt h Hready Hval.
  - exists nf, nt, h, []. simpl. rewrite !Z.add_0_r.
    split_and!; auto using eval_step_refl; try reflexivity. constructor.
  - destruct (Hcall h c (list_elem_of_here _ _) Hready (Hval c (list_elem_of_here _ _)))
      as (h1 & Hc & Hs1 & cg & Hcg & Hd).
    pose proof (eval_step_ready _ _ _ _ Hs1 Hready) as Hready1.
    assert (Hval1 : forall c', c' ∈ cs -> is_Some (h1 !! c')).
    { intros c' Hin. destruct (Hval c' (list_elem_of_further _ _ _ Hin)) as [g' Hg'].
      destruct Hs1 as (He & _). destruct (He c' g' Hg') as (g2 & Hg2 & _). eauto. }
    set (acc := if value cg then (nf, u32 (nt + 1)) else (u32 (nf + 1), nt)).
    destruct (IH (fun h c Hin => Hcall h c (list_elem_of_further _ _ _ Hin))
                 (fst acc) (snd acc) h1 Hready1 Hval1)
      as (nf' & nt' & h' & vs & Hf & Hs2 & Hvs & Hnt & Hnf & Hrt & Hrf).
    exists nf', nt', h', (value cg :: vs).
    pose proof (nof_trues_le vs) as Hle.
    split_and!.
    + simpl. rewrite Hc. simpl. rewrite (deref_lookup _ _ _ Hcg). simpl.
      rewrite <- Hf. unfold acc. destruct (value cg); reflexivity.
    + eauto using eval_step_trans.
    + constructor; [|exact Hvs]. exists cg. split_and!; auto.
      destruct Hs2 as (He2 & _). apply (eval_ext_determined h1); auto.
    + unfold eq_u32 in *. rewrite Hnt. unfold acc. simpl.
      destruct (value cg); simpl; [rewrite u32_add_l|]; f_equal; lia.
    + unfold eq_u32 in *. rewrite Hnf. unfold acc. simpl.
      destruct (value cg); simpl; [|rewrite u32_add_l]; f_equal; lia.
    + intros Hi. apply Hrt. unfold acc.
      destruct (value cg); simpl; [apply u32_range | exact Hi].
    + intros Hi. apply Hrf. unfold acc.
      destruct (value cg); simpl; [exact Hi | apply u32_range].
Qed.

(** *** The switch of [evaluate] computes the Boolean function of the type *)

Lemma existsb_id_trues (vs : list bool) :
  existsb id vs = (0 <? Z.of_nat (nof_trues vs)).
Proof.
  induction vs as [|[] vs IH]; [reflexivity| |exact IH].
  cbn [existsb id nof_trues orb]. symmetry. apply Z.ltb_lt. lia.
Qed.

Lemma forallb_id_falses (vs : list bool) :
  forallb id vs = (Z.of_nat (length vs - nof_trues vs) =? 0).
Proof.
  pose proof (nof_trues_le vs) as Hle.
  clear Hle. induction vs as [|[] vs IH]; [reflexivity| |].
  - cbn [forallb id andb length nof_trues]. rewrite IH. f_equal.
  - cbn [forallb id andb length nof_trues]. symmetry. apply Z.eqb_neq.
    pose proof (nof_trues_le vs). lia.
Qed.

Lemma forallb_negb_trues (vs : list bool) :
  forallb negb vs = (Z.of_nat (nof_trues vs) =? 0).
Proof.
  induction vs as [|[] vs IH]; [reflexivity| |exact IH].
  cbn [forallb negb nof_trues]. symmetry. apply Z.eqb_neq. lia.
Qed.

Lemma land_one_mod (x : Z) : Z.land x 1 = x mod 2.
Proof. exact (Z.land_ones x 1 ltac:(lia)). Qed.

Lemma mod2_of_nat (n : nat) : Z.of_nat n mod 2 = if Nat.odd n then 1 else 0.
Proof.
  destruct (Nat.Even_or_Odd n) as [[k ->]|[k ->]].
  - rewrite Nat.odd_even, Nat2Z.inj_mul, Z.mul_comm, Z_mod_mult. reflexivity.
  - replace (2 * k + 1)%nat with (S (2 * k)) by lia.
    rewrite Nat.odd_succ, Nat.even_even, Nat2Z.inj_succ, Nat2Z.inj_mul.
    replace (Z.succ (Z.of_nat 2 * Z.of_nat k)) with (1 + Z.of_nat k * 2) by lia.
    rewrite Z_mod_plus_full. reflexivity.
Qed.

Lemma land_one_odd (n : nat) : (Z.land (Z.of_nat n) 1 =? 1) = Nat.odd n.
Proof. rewrite land_one_mod, mod2_of_nat. destruct (Nat.odd n); reflexivity. Qed.

Lemma land_one_even (n : nat) : (Z.land (Z.of_nat n) 1 =? 0) = Nat.even n.
Proof.
  rewrite land_one_mod, mod2_of_nat, <- Nat.negb_even.
  destruct (Nat.even n); reflexivity.
Qed.

(** With the counts of the values [vs] of the children, the switch
    computes the function of the gate's type. *)
Lemma evaluate_switch_function (hp : heap) (g : Gate) (vs : list bool) :
  arity_ok g -> determined g = false ->
  type g <> tVAR -> type g <> tUNDEF -> type g <> tDELETED ->
  children_values hp (child_gates g) vs ->
  exists v,
    evaluate_switch hp g (Z.of_nat (length vs - nof_trues vs))
                    (Z.of_nat (nof_trues vs)) = Ok (Some v) /\
    gate_function (type g) (tmin g) (tmax g) vs = Some v.
Proof.
  intros (Hlen & Hone & Hthree) Hu Hv Hud Hdel Hvs.
  pose proof (Forall2_length _ _ _ Hvs) as Hl.
  unfold child_gates in Hl. rewrite length_map in Hl.
  unfold evaluate_switch, gate_function.
  destruct (type g) eqn:Et; try contradiction.
  - (* EQUIV *)
    rewrite forallb_id_falses, forallb_negb_trues.
    destruct (0 <? Z.of_nat (nof_trues vs)) eqn:E1;
      destruct (0 <? Z.of_nat (length vs - nof_trues vs)) eqn:E2; simpl;
      eexists; (split; [reflexivity|]); f_equal;
      repeat match goal with
             | H : (_ <? _) = true |- _ => apply Z.ltb_lt in H
             | H : (_ <? _) = false |- _ => apply Z.ltb_ge in H
             end.
    + apply orb_false_iff. split; apply Z.eqb_neq; lia.
    + apply orb_true_iff. left. apply Z.eqb_eq. lia.
    + apply orb_true_iff. right. apply Z.eqb_eq. lia.
    + apply orb_true_iff. right. apply Z.eqb_eq. lia.
  - (* OR *) rewrite existsb_id_trues. eauto.
  - (* AND *) rewrite forallb_id_falses. eauto.
  - (* EVEN *) rewrite land_one_even. eauto.
  - (* ODD *) rewrite land_one_odd. eauto.
  - (* ITE *)
    specialize (Hthree eq_refl). unfold nth_child, child_gates in *.
    destruct (children g) as [|[e1 c1] [|[e2 c2] [|[e3 c3] [|? ?]]]];
      try discriminate Hthree.
    simpl in *.
    inversion Hvs as [|? v1 ? vs1 (g1 & Hg1 & _ & Hv1) Hvs1]; subst.
    inversion Hvs1 as [|? v2 ? vs2 (g2 & Hg2 & _ & Hv2) Hvs2]; subst.
    inversion Hvs2 as [|? v3 ? vs3 (g3 & Hg3 & _ & Hv3) Hvs3]; subst.
    inversion Hvs3; subst.
    rewrite (deref_lookup _ _ _ Hg1), (deref_lookup _ _ _ Hg2),
      (deref_lookup _ _ _ Hg3). simpl.
    destruct (value g1); eauto.
  - (* NOT *)
    specialize (Hone (or_intror eq_refl)).
    destruct vs as [|v [|? ?]]; simpl in Hl; try lia.
    destruct v; simpl; eauto.
  - (* TRUE *) eauto.
  - (* FALSE *) eauto.
  - (* THRESHOLD *) eauto.
  - (* ATLEAST *) eauto.
  - (* REF *)
    specialize (Hone (or_introl eq_refl)).
    destruct vs as [|v [|? ?]]; simpl in Hl; try lia.
    destruct v; simpl; eauto.
Qed.

Lemma children_values_insert (hp : heap) (a : nat) (g : Gate) (cs : list nat)
    (vs : list bool) :
  a ∉ cs -> children_values hp cs vs -> children_values (<[a := g]> hp) cs vs.
Proof.
  intros Hnin H. revert Hnin.
  induction H as [|c v cs vs (cg & Hc & Hd & Hv) _ IH]; intros Hnin.
  - constructor.
  - apply not_elem_of_cons in Hnin. destruct Hnin as [Hne Hnin].
    constructor; [|exact (IH Hnin)].
    exists cg. rewrite lookup_insert_ne by auto. auto.
Qed.

(** [evaluate] returns [true] on a circuit that is ready for evaluation,
    with fuel above the rank of the gate; it determines the gate and
    evaluates only gates that are not above it. *)
Lemma evaluate_total (rank : nat -> nat) (fuel : nat) :
  forall hp a,
  eval_ready rank hp -> is_Some (hp !! a) -> (rank a < fuel)%nat ->
  exists hp', evaluate fuel hp a = Ok (true, hp') /\
              eval_step rank (S (rank a)) hp hp' /\
              exists g', hp' !! a = Some g' /\ determined g' = true.
Proof.
  induction fuel as [|fuel IH]; intros hp a Hready [g Hg] Hfuel; [lia|].
  simpl. rewrite (deref_lookup _ _ _ Hg). simpl.
  destruct (determined g) eqn:Hd.
  { exists hp. split; [reflexivity|]. split; [apply eval_step_refl|]. eauto. }
  pose proof Hready as (Har & Hrk & Hcl & Hev).
  assert (Hcs : forall c, c ∈ child_gates g -> (rank c < rank a)%nat)
    by (intros c Hin; exact (Hrk a g c Hg Hin)).
  destruct (evaluate_children_total rank (rank a) (evaluate fuel) (child_gates g))
    with (nf := 0) (nt := 0) (h := hp)
    as (nf' & nt' & h1 & vs & Hf & Hs1 & Hvs & Hnt & Hnf & Hrt & Hrf).
  { intros h c Hin Hr Hc. specialize (Hcs c Hin).
    destruct (IH h c Hr Hc ltac:(lia)) as (h' & He & Hs & Hdet).
    exists h'. split; [exact He|]. split; [|exact Hdet].
    eapply eval_step_weaken; [|exact Hs]. lia. }
  { exact Hready. }
  { intros c Hin. exact (Hcl a g c Hg Hin). }
  rewrite Hf. simpl.
  destruct Hs1 as (He1 & Hn1 & Hr1).
  assert (Hg1 : h1 !! a = Some g) by (rewrite (Hr1 a (le_n _)); exact Hg).
  rewrite (deref_lookup _ _ _ Hg1). simpl.
  (* the counters are the numbers of true and false children *)
  pose proof (Forall2_length _ _ _ Hvs) as Hl.
  unfold child_gates in Hl. rewrite length_map in Hl.
  destruct (Har a g Hg) as (Hlen & Hone & Hthree).
  pose proof (nof_trues_le vs) as Hle.
  assert (Hz : in_u32 0) by (unfold in_u32; lia).
  assert (nt' = Z.of_nat (nof_trues vs)) as ->.
  { unfold eq_u32 in Hnt. rewrite Z.add_0_l in Hnt.
    rewrite (u32_id _ (Hrt Hz)) in Hnt. rewrite Hnt. apply u32_id.
    unfold in_u32. lia. }
  assert (nf' = Z.of_nat (length vs - nof_trues vs)) as ->.
  { unfold eq_u32 in Hnf. rewrite Z.add_0_l in Hnf.
    rewrite (u32_id _ (Hrf Hz)) in Hnf. rewrite Hnf. apply u32_id.
    unfold in_u32. lia. }
  destruct (Hev a g Hg Hd) as (Hnv & Hnu & Hnd).
  destruct (evaluate_switch_function h1 g vs (Har a g Hg) Hd Hnv Hnu Hnd Hvs)
    as (v & Hsw & Hfun).
  rewrite Hsw. simpl.
  exists (<[a := set_value v g]> h1). split; [reflexivity|].
  assert (Hnin : a ∉ child_gates g).
  { intros Hin. specialize (Hcs a Hin). lia. }
  split; [|exists (set_value v g); split; [apply lookup_insert_eq|reflexivity]].
  split_and!.
  - eapply eval_ext_trans; [exact He1|].
    apply eval_ext_set; [exact Hg1|exact Hd|].
    exists vs. split; [|exact Hfun].
    apply children_values_insert; assumption.
  - intros b Hb. rewrite lookup_insert_ne; [auto|]. intros ->. congruence.
  - intros b Hb. rewrite lookup_insert_ne; [apply Hr1; lia|]. intros ->. lia.
Qed.

(** ** Model reconstruction: consistency of the assignment *)

Lemma state_counts_sum (ss : list (option bool)) :
  let '(t, f, u) := state_counts ss in (t + f + u = length ss)%nat.
Proof.
  induction ss as [|s ss IH]; simpl; [reflexivity|].
  destruct (state_counts ss) as [[t f] u]. destruct s as [[]|]; lia.
Qed.

(** [count_child_info] counts the states of the children. *)
Lemma count_child_info_fold (hp : heap) (cs : list nat) (ss : list (option bool)) :
  child_states hp cs ss ->
  forall nt nf nu,
  exists nt' nf' nu',
    foldM (count_child_info_step hp) cs (nt, nf, nu) = Ok (nt', nf', nu') /\
    let '(t, f, u) := state_counts ss in
    eq_u32 nt' (nt + Z.of_nat t) /\ eq_u32 nf' (nf + Z.of_nat f) /\
    eq_u32 nu' (nu + Z.of_nat u) /\
    (in_u32 nt -> in_u32 nt') /\ (in_u32 nf -> in_u32 nf') /\
    (in_u32 nu -> in_u32 nu').
Proof.
  induction 1 as [|c s cs ss Hc Hcs IH]; intros nt nf nu.
  - exists nt, nf, nu. simpl. rewrite !Z.add_0_r.
    split_and!; auto; reflexivity.
  - simpl. unfold child_state in Hc. unfold count_child_info_step at 1.
    unfold deref. destruct (hp !! c) as [g|]; [|discriminate]. simpl.
    injection Hc as <-.
    destruct (state_counts ss) as [[t f] u] eqn:Est.
    destruct (determined g); [destruct (value g)|]; simpl.
    + destruct (IH (u32 (nt + 1)) nf nu) as (nt' & nf' & nu' & Hf & Ht & Hfa & Hu & R1 & R2 & R3).
      exists nt', nf', nu'. split; [exact Hf|]. split_and!; auto.
      * unfold eq_u32 in *. rewrite Ht, u32_add_l. f_equal; lia.
      * intros _. apply R1, u32_range.
    + destruct (IH nt (u32 (nf + 1)) nu) as (nt' & nf' & nu' & Hf & Ht & Hfa & Hu & R1 & R2 & R3).
      exists nt', nf', nu'. split; [exact Hf|]. split_and!; auto.
      * unfold eq_u32 in *. rewrite Hfa, u32_add_l. f_equal; lia.
      * intros _. apply R2, u32_range.
    + destruct (IH nt nf (u32 (nu + 1))) as (nt' & nf' & nu' & Hf & Ht & Hfa & Hu & R1 & R2 & R3).
      exists nt', nf', nu'. split; [exact Hf|]. split_and!; auto.
      * unfold eq_u32 in *. rewrite Hu, u32_add_l. f_equal; lia.
      * intros _. apply R3, u32_range.
Qed.

Lemma count_child_info_states (hp : heap) (g : Gate) (ss : list (option bool)) :
  child_states hp (child_gates g) ss ->
  Z.of_nat (length (children g)) < 2 ^ 32 ->
  let '(t, f, u) := state_counts ss in
  count_child_info hp g = Ok (Z.of_nat t, Z.of_nat f, Z.of_nat u).
Proof.
  intros Hss Hlen.
  pose proof (Forall2_length _ _ _ Hss) as Hl.
  unfold child_gates in Hl. rewrite length_map in Hl.
  destruct (count_child_info_fold _ _ _ Hss 0 0 0)
    as (nt & nf & nu & Hf & Hrel).
  pose proof (state_counts_sum ss) as Hsum.
  destruct (state_counts ss) as [[t f] u].
  destruct Hrel as (Ht & Hfa & Hu & R1 & R2 & R3).
  unfold count_child_info. rewrite Hf.
  assert (Hz : in_u32 0) by (unfold in_u32; lia).
  unfold eq_u32 in *. rewrite Z.add_0_l in Ht, Hfa, Hu.
  rewrite (u32_id _ (R1 Hz)) in Ht. rewrite (u32_id _ (R2 Hz)) in Hfa.
  rewrite (u32_id _ (R3 Hz)) in Hu.
  rewrite Ht, Hfa, Hu, !u32_id by (unfold in_u32; lia). reflexivity.
Qed.

(** The states of determined children are their values. *)
Lemma children_values_states (hp : heap) (cs : list nat) (vs : list bool) :
  children_values hp cs vs -> child_states hp cs (map Some vs).
Proof.
  induction 1 as [|c v cs vs (cg & Hc & Hd & Hv) _ IH]; simpl; constructor;
    [|exact IH].
  unfold child_state. rewrite Hc, Hd, Hv. reflexivity.
Qed.

Lemma state_counts_values (vs : list bool) :
  state_counts (map Some vs) = (nof_trues vs, length vs - nof_trues vs, 0)%nat.
Proof.
  induction vs as [|v vs IH]; simpl; [reflexivity|].
  rewrite IH. pose proof (nof_trues_le vs). destruct v; simpl; f_equal; f_equal; lia.
Qed.

(** When all the children are determined, [count_child_info] returns the
    numbers of true and of false values. *)
Lemma count_child_info_values (hp : heap) (g : Gate) (vs : list bool) :
  children_values hp (child_gates g) vs ->
  Z.of_nat (length (children g)) < 2 ^ 32 ->
  count_child_info hp g =
    Ok (Z.of_nat (nof_trues vs), Z.of_nat (length vs - nof_trues vs), 0).
Proof.
  intros Hvs Hlen.
  pose proof (count_child_info_states _ _ _ (children_values_states _ _ _ Hvs) Hlen) as H.
  rewrite state_counts_values in H. exact H.
Qed.

Ltac bool_tests :=
  repeat match goal with
  | |- context [Z.eqb ?x ?y] => destruct (Z.eqb_spec x y)
  | |- context [Z.ltb ?x ?y] => destruct (Z.ltb_spec x y)
  | H : context [Z.eqb ?x ?y] |- _ => destruct (Z.eqb_spec x y)
  | H : context [Z.ltb ?x ?y] |- _ => destruct (Z.ltb_spec x y)
  end.

Lemma nof_children_values (vs : list bool) :
  Z.of_nat (length vs) < 2 ^ 32 ->
  u32 (Z.of_nat (nof_trues vs) + Z.of_nat (length vs - nof_trues vs) + 0)
  = Z.of_nat (length vs).
Proof.
  intros Hlen. pose proof (nof_trues_le vs).
  rewrite u32_id by (unfold in_u32; lia). lia.
Qed.

Lemma children_values_length (hp : heap) (g : Gate) (vs : list bool) :
  children_values hp (child_gates g) vs -> length vs = length (children g).
Proof.
  intros H. apply Forall2_length in H. unfold child_gates in H.
  rewrite length_map in H. congruence.
Qed.

Lemma det_val_value (c : Gate) (v : bool) :
  determined c = true -> det_val c v = eqb (value c) v.
Proof. intros H. unfold det_val. rewrite H. reflexivity. Qed.

(** A gate whose value is the value of its function on the values of its
    children passes [check_consistency]. *)
Lemma check_consistency_evaluated (hp : heap) (a : nat) (g : Gate) :
  hp !! a = Some g -> arity_ok g -> cnf_type (type g) ->
  evaluated_at hp g ->
  check_consistency hp a = Ok true.
Proof.
  intros Ha (Hlen & _ & _) Hty (vs & Hvs & Hfn).
  unfold check_consistency, deref. rewrite Ha. simpl.
  destruct (determined g); [simpl|reflexivity].
  rewrite (count_child_info_values _ _ _ Hvs Hlen). simpl.
  pose proof (children_values_length _ _ _ Hvs) as Hl.
  rewrite nof_children_values by lia.
  pose proof (nof_trues_le vs) as Hle.
  destruct Hty as [Ht|[Ht|[Ht|[Ht|[Ht|[Ht|[Ht|[Ht|[Ht|Ht]]]]]]]]];
    rewrite Ht in *; simpl in Hfn.
  - injection Hfn as <-. reflexivity.
  - injection Hfn as <-. reflexivity.
  - discriminate.
  - destruct vs as [|v [|]]; try discriminate. injection Hfn as <-.
    destruct v; reflexivity.
  - injection Hfn as Hv. rewrite existsb_id_trues in Hv. rewrite <- Hv.
    bool_tests; simpl; bool_tests; try reflexivity; lia.
  - injection Hfn as Hv. rewrite forallb_id_falses in Hv. rewrite <- Hv.
    bool_tests; simpl; bool_tests; try reflexivity; lia.
  - injection Hfn as Hv. rewrite forallb_id_falses, forallb_negb_trues in Hv.
    rewrite <- Hv.
    bool_tests; simpl; bool_tests; simpl; try reflexivity; lia.
  - injection Hfn as Hv. rewrite <- Hv, land_one_odd.
    destruct (Nat.odd _); reflexivity.
  - injection Hfn as Hv. rewrite <- Hv, land_one_even.
    destruct (Nat.even _); reflexivity.
  - destruct vs as [|vi [|vt [|ve [|]]]]; try discriminate.
    injection Hfn as Hv.
    destruct (child_gates g) as [|ci [|ct [|ce [|]]]] eqn:Ecs;
      try (apply Forall2_length in Hvs; discriminate).
    unfold nth_child. rewrite Ecs. simpl.
    apply Forall2_cons in Hvs. destruct Hvs as [(gi & Hi & Hdi & Hvi) Hvs].
    apply Forall2_cons in Hvs. destruct Hvs as [(gt & Hgt & Hdt & Hvt) Hvs].
    apply Forall2_cons in Hvs. destruct Hvs as [(ge & Hge & Hde & Hve) _].
    unfold deref. rewrite Hi, Hgt, Hge. simpl.
    rewrite !det_val_value by assumption. rewrite Hvi, Hvt, Hve, <- Hv.
    destruct vi, vt, ve; reflexivity.
Qed.

Lemma state_counts_extended (ss : list (option bool)) (vs : list bool) :
  states_extended ss vs ->
  let '(t, f, u) := state_counts ss in
  (t <= nof_trues vs /\ f <= length vs - nof_trues vs /\
   t + f + u = length vs /\ (u = 0 -> t = nof_trues vs))%nat.
Proof.
  induction 1 as [|s v ss vs Hs _ IH]; simpl; [lia|].
  destruct (state_counts ss) as [[t f] u].
  pose proof (nof_trues_le vs).
  destruct Hs as [->| ->]; destruct v; simpl; lia.
Qed.

(** A determined gate that is justified stays consistent when its
    undetermined children get values. *)
Lemma check_consistency_justified (h0 hp : heap) (a : nat) (g : Gate)
    (ss : list (option bool)) (vs : list bool) :
  h0 !! a = Some g -> hp !! a = Some g -> determined g = true ->
  arity_ok g -> cnf_type (type g) -> constant_ok g ->
  is_justified h0 a = Ok true ->
  child_states h0 (child_gates g) ss ->
  children_values hp (child_gates g) vs ->
  states_extended ss vs ->
  check_consistency hp a = Ok true.
Proof.
  intros H0 Ha Hd (Hlen & Hnot & _) Hty Hc Hj Hss Hvs Hext.
  unfold is_justified, deref in Hj. rewrite H0 in Hj. simpl in Hj.
  rewrite Hd in Hj. simpl in Hj.
  pose proof (count_child_info_states _ _ _ Hss Hlen) as Hc0.
  pose proof (state_counts_extended _ _ Hext) as Hle.
  destruct (state_counts ss) as [[t f] u].
  rewrite Hc0 in Hj. simpl in Hj.
  unfold check_consistency, deref. rewrite Ha. simpl. rewrite Hd. simpl.
  rewrite (count_child_info_values _ _ _ Hvs Hlen). simpl.
  pose proof (children_values_length _ _ _ Hvs) as Hl.
  rewrite nof_children_values by lia.
  pose proof (nof_trues_le vs) as Hlt.
  destruct Hle as (Ht1 & Hf1 & Hsum & Hu).
  assert (Hn : u32 (Z.of_nat t + Z.of_nat f + Z.of_nat u) = Z.of_nat (length vs))
    by (rewrite u32_id by (unfold in_u32; lia); lia).
  rewrite Hn in Hj.
  assert (Hn2 : u32 (Z.of_nat t + Z.of_nat f) = Z.of_nat (t + f))
    by (rewrite u32_id by (unfold in_u32; lia); lia).
  destruct (Hc Hd) as [HcT HcF].
  destruct Hty as [Ht|[Ht|[Ht|[Ht|[Ht|[Ht|[Ht|[Ht|[Ht|Ht]]]]]]]]];
    rewrite Ht in *; simpl in Hj.
  - rewrite HcF by reflexivity. reflexivity.
  - rewrite HcT by reflexivity. reflexivity.
  - reflexivity.
  - specialize (Hnot (or_intror eq_refl)).
    destruct (value g); simpl in Hj; injection Hj as Hj;
      bool_tests; try discriminate; simpl; bool_tests; try reflexivity; lia.
  - destruct (value g); simpl in Hj |- *;
      bool_tests; try discriminate; simpl; bool_tests; try reflexivity; lia.
  - destruct (value g); simpl in Hj |- *;
      bool_tests; try discriminate; simpl; bool_tests; try reflexivity; lia.
  - destruct (value g); simpl in Hj |- *;
      bool_tests; try discriminate; simpl; bool_tests; simpl;
      try reflexivity; lia.
  - rewrite Hn2 in Hj. rewrite land_one_mod.
    destruct (value g); simpl in Hj |- *; injection Hj as Hj;
      apply andb_true_iff in Hj; destruct Hj as [Hj1 Hj2];
      apply Z.eqb_eq in Hj1, Hj2;
      (assert (Hu0 : u = 0%nat) by lia); rewrite <- (Hu Hu0), Hj2; reflexivity.
  - rewrite Hn2 in Hj. rewrite land_one_mod.
    destruct (value g); simpl in Hj |- *; injection Hj as Hj;
      apply andb_true_iff in Hj; destruct Hj as [Hj1 Hj2];
      apply Z.eqb_eq in Hj1, Hj2;
      (assert (Hu0 : u = 0%nat) by lia); rewrite <- (Hu Hu0), Hj2; reflexivity.
  - destruct (child_gates g) as [|ci [|ct [|ce cs]]] eqn:Ecs;
      unfold nth_child in Hj |- *; rewrite ?Ecs in Hj |- *;
      try discriminate Hj.
    simpl in Hj |- *.
    apply Forall2_cons_inv_l in Hss. destruct Hss as (si & ss1 & Hsi & Hss & ->).
    apply Forall2_cons_inv_l in Hss. destruct Hss as (st & ss2 & Hst & Hss & ->).
    apply Forall2_cons_inv_l in Hss. destruct Hss as (se & ss3 & Hse & Hss & ->).
    apply Forall2_cons_inv_l in Hvs. destruct Hvs as (vi & vs1 & (gi & Hi & Hdi & Hvi) & Hvs & ->).
    apply Forall2_cons_inv_l in Hvs. destruct Hvs as (vt & vs2 & (gt & Hgt & Hdt & Hvt) & Hvs & ->).
    apply Forall2_cons_inv_l in Hvs. destruct Hvs as (ve & vs3 & (ge & Hge & Hde & Hve) & Hvs & ->).
    apply Forall2_cons in Hext. destruct Hext as [Hei Hext].
    apply Forall2_cons in Hext. destruct Hext as [Het Hext].
    apply Forall2_cons in Hext. destruct Hext as [Hee _].
    unfold child_state in Hsi, Hst, Hse. unfold deref in Hj |- *.
    rewrite Hi, Hgt, Hge. simpl. rewrite !det_val_value by assumption.
    rewrite Hvi, Hvt, Hve.
    destruct (h0 !! ci) as [gi0|]; [|discriminate].
    destruct (h0 !! ct) as [gt0|]; [|discriminate].
    destruct (h0 !! ce) as [ge0|]; [|discriminate].
    simpl in Hj. unfold det_val in Hj.
    injection Hsi as <-. injection Hst as <-. injection Hse as <-.
    destruct (determined gi0), (determined gt0), (determined ge0);
      simpl in Hj;
      repeat match goal with
             | H : _ \/ _ |- _ => destruct H as [H|H]; try discriminate H;
                                  try (injection H as H)
             end; subst;
      destruct (value g); simpl in Hj;
      repeat match goal with
             | |- context [value ?x] => destruct (value x)
             | H : context [value ?x] |- _ => destruct (value x)
             end; simpl in *; try discriminate; try reflexivity;
      destruct vi, vt, ve; simpl in *; try discriminate; reflexivity.
Qed.

(** ** Model reconstruction: the loops of [sat_exit] *)

(** A loop over the chain that updates every gate by [f]. *)
Lemma foldM_update (f : Gate -> Gate) (ok : Gate -> Prop)
    (step : heap -> nat -> result heap) :
  (forall g, f (f g) = f g) -> (forall g, ok g -> ok (f g)) ->
  (forall hp a g, hp !! a = Some g -> ok g -> step hp a = Ok (<[a := f g]> hp)) ->
  forall (l : list nat) (hp : heap),
  (forall a, a ∈ l -> is_Some (hp !! a)) ->
  (forall a g, hp !! a = Some g -> ok g) ->
  exists hp', foldM step l hp = Ok hp' /\
    forall b, hp' !! b = if decide (b ∈ l) then f <$> hp !! b else hp !! b.
Proof.
  intros Hidem Hokf Hstep l. induction l as [|a l IH]; intros hp Hin Hok.
  - exists hp. split; [reflexivity|]. intros b. case_decide as Hb; [|reflexivity].
    apply elem_of_nil in Hb. destruct Hb.
  - destruct (Hin a (list_elem_of_here _ _)) as [g Hg].
    simpl. rewrite (Hstep hp a g Hg (Hok a g Hg)). simpl.
    destruct (IH (<[a := f g]> hp)) as (hp' & Hf & Hl).
    + intros b Hb. rewrite lookup_insert. case_decide; [eauto|].
      apply Hin, list_elem_of_further, Hb.
    + intros b gb. rewrite lookup_insert. case_decide.
      * intros [= <-]. apply Hokf, (Hok a g Hg).
      * apply Hok.
    + exists hp'. split; [exact Hf|]. intros b. rewrite Hl, lookup_insert.
      destruct (decide (a = b)) as [->|Hne].
      * rewrite Hg. simpl. rewrite Hidem.
        rewrite (decide_True (P := b ∈ b :: l)) by apply list_elem_of_here.
        case_decide; reflexivity.
      * destruct (decide (b ∈ l)) as [Hb|Hb].
        -- rewrite decide_True by (apply list_elem_of_further, Hb). reflexivity.
        -- rewrite decide_False; [reflexivity|].
           intros [->|Hb']%elem_of_cons; [apply Hne; reflexivity|apply Hb, Hb'].
Qed.

Lemma assign_gate_idem (g : Gate) : assign_gate (assign_gate g) = assign_gate g.
Proof.
  unfold assign_gate. destruct (is_type (type g) tVAR && negb (determined g)) eqn:E.
  - simpl. rewrite andb_false_r. reflexivity.
  - rewrite E. reflexivity.
Qed.

Lemma assign_gate_fields (g : Gate) :
  type (assign_gate g) = type g /\ children (assign_gate g) = children g /\
  handles (assign_gate g) = handles g /\ tmin (assign_gate g) = tmin g /\
  tmax (assign_gate g) = tmax g /\
  (determined g = true -> assign_gate g = g) /\
  (determined g = false -> type g = tVAR -> assign_gate g = set_value false g) /\
  (determined g = false -> type g <> tVAR -> assign_gate g = g).
Proof.
  unfold assign_gate.
  destruct (is_type (type g) tVAR) eqn:Et, (determined g) eqn:Ed; simpl;
    split_and!; try reflexivity; try discriminate; intros;
    try reflexivity.
  - apply is_type_true in Et. contradiction.
  - apply is_type_false in Et. contradiction.
Qed.

(** [assign_irrelevant_inputs] gives [false] to the undetermined inputs. *)
Lemma assign_irrelevant_inputs_gates (bc : BC) :
  (forall a, a ∈ first_gate bc -> is_Some (gates bc !! a)) ->
  (forall a g, gates bc !! a = Some g -> temp g = -1) ->
  exists hp, assign_irrelevant_inputs bc = Ok (set_gates hp bc) /\
    forall b, hp !! b =
      if decide (b ∈ first_gate bc) then assign_gate <$> gates bc !! b
      else gates bc !! b.
Proof.
  intros Hin Htemp.
  destruct (foldM_update assign_gate (fun g => temp g = -1 \/ determined g = true)
              assign_input_step) with (l := first_gate bc) (hp := gates bc)
    as (hp & Hf & Hl).
  - apply assign_gate_idem.
  - intros g [Hg|Hg]; unfold assign_gate;
      destruct (is_type (type g) tVAR && negb (determined g)); simpl; auto.
  - intros hp a g Ha Hokg. unfold assign_input_step, deref. rewrite Ha. simpl.
    unfold assign_gate.
    destruct (is_type (type g) tVAR && negb (determined g)) eqn:E.
    + destruct Hokg as [Ht|Hd].
      * rewrite Ht. reflexivity.
      * rewrite Hd, andb_false_r in E. discriminate.
    + rewrite insert_id by exact Ha. reflexivity.
  - exact Hin.
  - intros a g Ha. left. eapply Htemp, Ha.
  - exists hp. split; [|exact Hl]. unfold assign_irrelevant_inputs.
    rewrite Hf. reflexivity.
Qed.

Lemma eval_step_is_Some (rank : nat -> nat) (bound : nat) (hp hp' : heap) (b : nat) :
  eval_step rank bound hp hp' -> is_Some (hp !! b) <-> is_Some (hp' !! b).
Proof.
  intros (He & Hn & _). split.
  - intros [g Hg]. destruct (He b g Hg) as (g' & Hg' & _). eauto.
  - intros [g' Hg']. destruct (hp !! b) eqn:E; [eauto|].
    rewrite (Hn b E) in Hg'. discriminate.
Qed.

(** The loop of [evaluate_rest]: every gate of the list gets a value. *)
Lemma evaluate_rest_fold (rank : nat -> nat) (fuel : nat) (l : list nat) :
  forall hp : heap,
  eval_ready rank hp ->
  (forall a, a ∈ l -> is_Some (hp !! a)) ->
  (forall a, is_Some (hp !! a) -> (rank a < fuel)%nat) ->
  exists hp', foldM (evaluate_step fuel) l hp = Ok hp' /\
    eval_step rank fuel hp hp' /\
    forall a, a ∈ l -> exists g', hp' !! a = Some g' /\ determined g' = true.
Proof.
  induction l as [|a l IH]; intros hp Hr Hin Hrank.
  - exists hp. split; [reflexivity|]. split; [apply eval_step_refl|].
    intros a Ha. apply elem_of_nil in Ha. destruct Ha.
  - destruct (Hin a (list_elem_of_here _ _)) as [g Hg].
    assert (Hstep : exists hp1, evaluate_step fuel hp a = Ok hp1 /\
              eval_step rank fuel hp hp1 /\
              exists g1, hp1 !! a = Some g1 /\ determined g1 = true).
    { unfold evaluate_step, deref. rewrite Hg. simpl.
      destruct (determined g) eqn:Ed; simpl.
      - exists hp. split; [reflexivity|]. split; [apply eval_step_refl|]. eauto.
      - destruct (evaluate_total rank fuel hp a Hr (ex_intro _ g Hg)
                    (Hrank a (ex_intro _ g Hg))) as (hp1 & He & Hs & Hd).
        rewrite He. simpl. exists hp1. split; [reflexivity|].
        split; [|exact Hd].
        eapply eval_step_weaken; [|exact Hs].
        specialize (Hrank a (ex_intro _ g Hg)). lia. }
    destruct Hstep as (hp1 & Hs1 & He1 & g1 & Hg1 & Hd1).
    simpl. rewrite Hs1. simpl.
    destruct (IH hp1) as (hp' & Hf & He' & Hall).
    + eapply eval_step_ready; eassumption.
    + intros b Hb. apply (eval_step_is_Some _ _ _ _ b He1).
      apply Hin, list_elem_of_further, Hb.
    + intros b Hb. apply Hrank. apply (eval_step_is_Some _ _ _ _ b He1), Hb.
    + exists hp'. split; [exact Hf|].
      split; [eapply eval_step_trans; eassumption|].
      intros b [->|Hb]%elem_of_cons; [|apply Hall, Hb].
      exists g1. split; [|exact Hd1].
      destruct He' as (He' & _). eapply eval_ext_determined; eassumption.
Qed.

(** The loop of [BC::check_consistency]. *)
Lemma BC_check_consistency_fold (hp : heap) (l : list nat) :
  (forall a, a ∈ l -> check_consistency hp a = Ok true) ->
  foldM (check_consistency_step hp) l true = Ok true.
Proof.
  induction l as [|a l IH]; intros H; [reflexivity|].
  simpl. unfold check_consistency_step at 1.
  rewrite (H a (list_elem_of_here _ _)). simpl.
  apply IH. intros b Hb. apply H, list_elem_of_further, Hb.
Qed.

(** The loop of [print_assignment]. *)
Lemma print_assignment_fold (hp : heap) (l : list nat) :
  (forall a, a ∈ l -> exists g, hp !! a = Some g /\ determined g = true) ->
  forall out,
  foldM (print_assignment_step hp) l out = Ok (out ++ assignment_lines hp l).
Proof.
  induction l as [|a l IH]; intros H out; simpl.
  - rewrite app_nil_r. reflexivity.
  - destruct (H a (list_elem_of_here _ _)) as (g & Hg & Hd).
    unfold print_assignment_step at 1. unfold deref. rewrite Hg. simpl.
    rewrite Hd. simpl. rewrite IH.
    + rewrite <- app_assoc. reflexivity.
    + intros b Hb. apply H, list_elem_of_further, Hb.
Qed.

(** ** The cone of influence that marks no gate *)

Lemma foldM_counter_mono {A : Type} (step : heap * Z -> A -> result (heap * Z))
    (l : list A) :
  (forall s a s', a ∈ l -> step s a = Ok s' -> snd s <= snd s') ->
  forall s s', foldM step l s = Ok s' -> snd s <= snd s'.
Proof.
  induction l as [|a l IH]; intros Hstep s s' H; simpl in H.
  - injection H as <-. lia.
  - inv_bind H as s1 Hs1.
    pose proof (Hstep s a s1 (list_elem_of_here _ _) Hs1).
    assert (snd s1 <= snd s'); [|lia].
    apply IH; [|exact H]. intros s2 b s3 Hb. apply Hstep, list_elem_of_further, Hb.
Qed.

(** [mark_coi] only increases the counter, and increases it when the gate
    is not numbered yet. *)
Lemma mark_coi_mono (fuel : nat) :
  forall s a s', mark_coi fuel s a = Ok s' ->
  snd s <= snd s' /\
  (forall g, fst s !! a = Some g -> temp g < 0 -> snd s < snd s').
Proof.
  induction fuel as [|fuel IH]; intros [hp c] a s' H; simpl in H; [discriminate|].
  inv_bind H as g Hg. apply deref_Ok in Hg.
  destruct (0 <=? temp g) eqn:Et.
  - injection H as <-. simpl. split; [lia|].
    intros g' Hg' Hlt. assert (g' = g) as -> by congruence.
    apply Z.leb_le in Et. lia.
  - apply foldM_counter_mono in H.
    + simpl in *. split; [lia|]. intros; lia.
    + intros s1 b s2 _ Hs. apply (IH _ _ _ Hs).
Qed.

(** When the cone of influence is empty, no gate of the chain is a root:
    the heap is as it was, and every determined gate is justified. *)
Lemma coi_no_roots (fuel : nat) (opts : Options) (l : list nat) :
  forall (hp hp' : heap) (c : Z),
  0 <= c ->
  (forall a, a ∈ l -> exists g, hp !! a = Some g /\ temp g < 0) ->
  foldM (fun s a =>
           do g <- deref (fst s) a;
           do root <-
             (if negb (opt_perform_coi opts) then Ok true
              else if determined g then
                do j <- is_justified (fst s) a; Ok (negb j)
              else Ok false);
           if root then mark_coi fuel s a else Ok s) l (hp, c) = Ok (hp', 0) ->
  hp' = hp /\
  forall a g, a ∈ l -> hp !! a = Some g -> determined g = true ->
    is_justified hp a = Ok true.
Proof.
  induction l as [|a l IH]; intros hp hp' c Hc Htemp H; simpl in H.
  - injection H as <-. split; [reflexivity|].
    intros a g Ha. apply elem_of_nil in Ha. destruct Ha.
  - inv_bind H as s1 Hs1.
    assert (Hle : snd s1 <= 0).
    { apply foldM_counter_mono in H; [exact H|].
      intros s b s2 _ Hs. inv_bind Hs as g Hg. inv_bind Hs as root Hroot.
      destruct root; [apply (mark_coi_mono _ _ _ _ Hs)|].
      injection Hs as <-. lia. }
    destruct (Htemp a (list_elem_of_here _ _)) as (g & Hg & Hneg).
    inv_bind Hs1 as g1 Hg1. apply deref_Ok in Hg1. simpl in Hg1.
    assert (g1 = g) as -> by congruence.
    inv_bind Hs1 as root Hroot.
    destruct root.
    { apply mark_coi_mono in Hs1. destruct Hs1 as [_ Hs1].
      specialize (Hs1 g Hg Hneg). simpl in Hs1. lia. }
    injection Hs1 as <-.
    destruct (IH hp hp' c Hc) as [-> Hj].
    + intros b Hb. apply Htemp, list_elem_of_further, Hb.
    + exact H.
    + split; [reflexivity|].
      intros b gb [->|Hb]%elem_of_cons Hgb Hd; [|eapply Hj; eassumption].
      assert (gb = g) as -> by congruence.
      destruct (negb (opt_perform_coi opts)); [discriminate|].
      rewrite Hd in Hroot. simpl in Hroot.
      inv_bind Hroot as j Hjj. destruct j; [exact Hjj|discriminate].
Qed.

(** [reset_temp_fields] sets the [temp] field of the gates of the chain. *)
Lemma reset_temp_fields_gates (t : Z) (bc : BC) :
  (forall a, a ∈ first_gate bc -> is_Some (gates bc !! a)) ->
  exists hp, reset_temp_fields t bc = Ok (set_gates hp bc) /\
    forall b, hp !! b =
      if decide (b ∈ first_gate bc) then set_temp t <$> gates bc !! b
      else gates bc !! b.
Proof.
  intros Hin.
  destruct (foldM_update (set_temp t) (fun _ => True)
              (fun hp a => do g <- deref hp a; Ok (<[a := set_temp t g]> hp)))
    with (l := first_gate bc) (hp := gates bc) as (hp & Hf & Hl); auto.
  - intros hp a g Ha _. unfold deref. rewrite Ha. reflexivity.
  - exists hp. split; [|exact Hl]. unfold reset_temp_fields.
    rewrite Hf. reflexivity.
Qed.

(** ** Model reconstruction: [sat_exit] *)

Lemma check_consistency_var (hp : heap) (a : nat) (g : Gate) (vs : list bool) :
  hp !! a = Some g -> type g = tVAR -> arity_ok g ->
  children_values hp (child_gates g) vs ->
  check_consistency hp a = Ok true.
Proof.
  intros Ha Ht (Hlen & _) Hvs. unfold check_consistency, deref.
  rewrite Ha. simpl. destruct (determined g); [simpl|reflexivity].
  rewrite (count_child_info_values _ _ _ Hvs Hlen). simpl. rewrite Ht.
  reflexivity.
Qed.

(** The children of a gate before and after the reconstruction. *)
Lemma reconstructed_children (h0 hp : heap) (cs : list nat) :
  reconstructed h0 hp -> (forall c, c ∈ cs -> is_Some (h0 !! c)) ->
  exists ss vs, child_states h0 cs ss /\ children_values hp cs vs /\
                states_extended ss vs.
Proof.
  intros Hrec. induction cs as [|c cs IH]; intros Hin.
  - exists [], []. split_and!; constructor.
  - destruct IH as (ss & vs & Hss & Hvs & Hext).
    { intros b Hb. apply Hin, list_elem_of_further, Hb. }
    destruct (Hin c (list_elem_of_here _ _)) as [cg Hcg].
    destruct (Hrec c cg Hcg) as (cg' & Hcg' & Hd' & Hsame & _).
    exists ((if determined cg then Some (value cg) else None) :: ss),
           (value cg' :: vs).
    split_and!; constructor; auto.
    + unfold child_state. rewrite Hcg. reflexivity.
    + eauto.
    + destruct (determined cg); [|auto]. rewrite (Hsame eq_refl). auto.
Qed.

Lemma set_value_arity (g : Gate) (v : bool) : arity_ok g -> arity_ok (set_value v g).
Proof. intros H. exact H. Qed.

(** [sat_exit] on a circuit whose gates are all irrelevant. *)
Lemma sat_exit_reconstructs (rank : nat -> nat) (fuel : nat) (bc : BC)
    (out : list string) :
  circuit_ok rank bc ->
  (forall a, a ∈ first_gate bc -> (rank a < fuel)%nat) ->
  (forall a g, gates bc !! a = Some g -> temp g = -1) ->
  (forall a g, gates bc !! a = Some g -> determined g = true ->
               is_justified (gates bc) a = Ok true) ->
  exists hp,
    sat_exit fuel bc out =
      Ok (0, out ++ ["c The instance was satisfiable"]
                 ++ assignment_lines hp (first_gate bc)
                 ++ ["p cnf 1 1"; "1 0"]) /\
    reconstructed (gates bc) hp /\
    BC_check_consistency (set_gates hp bc) = Ok true.
Proof.
  intros (Hchain & Har & Hrk & Hcl & Hty) Hfuel Htemp Hjust.
  destruct (assign_irrelevant_inputs_gates bc) as (hA & HassignEq & HA0).
  { intros a Ha. apply Hchain, Ha. }
  { exact Htemp. }
  assert (HA : forall b, hA !! b = assign_gate <$> gates bc !! b).
  { intros b. rewrite HA0. case_decide as Hb; [reflexivity|].
    destruct (gates bc !! b) eqn:E; [|reflexivity].
    exfalso. apply Hb, Hchain. eauto. }
  clear HA0.
  assert (HAinv : forall b g', hA !! b = Some g' ->
            exists g, gates bc !! b = Some g /\ g' = assign_gate g).
  { intros b g' Hb. rewrite HA in Hb. destruct (gates bc !! b) as [g|]; [|discriminate].
    injection Hb as <-. eauto. }
  assert (Hready : eval_ready rank hA).
  { split_and!.
    - intros a g' Ha. destruct (HAinv a g' Ha) as (g & Hg & ->).
      destruct (assign_gate_fields g) as (Et & Ech & _).
      specialize (Har a g Hg). unfold arity_ok in *. rewrite Et, Ech. exact Har.
    - intros a g' c Ha Hc. destruct (HAinv a g' Ha) as (g & Hg & ->).
      destruct (assign_gate_fields g) as (Et & Ech & _).
      apply (Hrk a g c Hg). unfold child_gates in *. rewrite <- Ech. exact Hc.
    - intros a g' c Ha Hc. destruct (HAinv a g' Ha) as (g & Hg & ->).
      destruct (assign_gate_fields g) as (Et & Ech & _).
      destruct (Hcl a g c Hg) as [cg Hcg].
      { unfold child_gates in *. rewrite <- Ech. exact Hc. }
      rewrite HA, Hcg. simpl. eauto.
    - intros a g' Ha Hu. destruct (HAinv a g' Ha) as (g & Hg & ->).
      destruct (assign_gate_fields g) as (Et & _ & _ & _ & _ & Hd & Hv & Hn).
      rewrite Et. destruct (Hty a g Hg) as [Hcnf _].
      assert (type g <> tVAR).
      { intros Hvar. destruct (determined g) eqn:Ed.
        - rewrite (Hd eq_refl) in Hu. congruence.
        - rewrite (Hv eq_refl Hvar) in Hu. discriminate. }
      unfold cnf_type in Hcnf. split_and!; auto; intros E; rewrite E in Hcnf;
        repeat destruct Hcnf as [Hcnf|Hcnf]; discriminate. }
  destruct (evaluate_rest_fold rank fuel (first_gate bc) hA Hready)
    as (hp & Hfold & Hstep & Hall).
  { intros a Ha. apply Hchain in Ha. destruct Ha as [g Hg].
    rewrite HA, Hg. simpl. eauto. }
  { intros a [g' Hg']. destruct (HAinv a g' Hg') as (g & Hg & _).
    apply Hfuel, Hchain. eauto. }
  assert (Hrec : reconstructed (gates bc) hp).
  { intros b g Hg.
    assert (HgA : hA !! b = Some (assign_gate g)) by (rewrite HA, Hg; reflexivity).
    destruct Hstep as (He & _).
    destruct (He b _ HgA) as (g' & Hg' & Hsame & Hnew).
    destruct (Hall b) as (g2 & Hg2 & Hd2); [apply Hchain; eauto|].
    assert (g2 = g') as -> by congruence.
    destruct (assign_gate_fields g) as (Et & _ & _ & _ & _ & Hd & Hv & Hn).
    exists g'. split_and!; auto.
    - intros Ed. rewrite (Hd Ed) in Hsame. auto.
    - intros Ed Hvar. rewrite (Hv Ed Hvar) in Hsame. auto.
    - intros Ed Hnv. rewrite (Hn Ed Hnv) in Hnew.
      destruct (Hnew Ed) as [->|Hex]; [congruence|exact Hex]. }
  assert (Hcons : forall a, a ∈ first_gate bc -> check_consistency hp a = Ok true).
  { intros a Ha. apply Hchain in Ha. destruct Ha as [g Hg].
    destruct (Hrec a g Hg) as (g' & Hg' & Hd' & Hsame & Hvar & Hev).
    destruct (reconstructed_children _ _ (child_gates g) Hrec)
      as (ss & vs & Hss & Hvs & Hext).
    { intros c Hc. eapply Hcl; eassumption. }
    destruct (Hty a g Hg) as [Hcnf Hconst].
    destruct (determined g) eqn:Ed.
    - rewrite (Hsame eq_refl) in Hg'.
      eapply (check_consistency_justified (gates bc) hp a g ss vs); eauto.
    - destruct (GateType_eq_dec (type g) tVAR) as [Et|Et].
      + rewrite (Hvar eq_refl Et) in Hg'.
        eapply check_consistency_var; [exact Hg'|exact Et| |exact Hvs].
        apply set_value_arity, (Har a g Hg).
      + destruct (Hev eq_refl Et) as (v & -> & Heval).
        eapply check_consistency_evaluated; [exact Hg'| |exact Hcnf|exact Heval].
        apply set_value_arity, (Har a g Hg). }
  exists hp. split_and!.
  - unfold sat_exit. rewrite HassignEq. simpl.
    unfold evaluate_rest. simpl. rewrite Hfold. simpl.
    unfold BC_check_consistency. simpl.
    rewrite (BC_check_consistency_fold _ _ Hcons). simpl.
    unfold print_assignment. simpl.
    rewrite print_assignment_fold by exact Hall. simpl.
    rewrite <- !app_assoc. reflexivity.
  - exact Hrec.
  - unfold BC_check_consistency. simpl.
    apply BC_check_consistency_fold, Hcons.
Qed.

(** ** Model reconstruction: the circuit without relevant gates *)

Lemma circuit_ok_reset (rank : nat -> nat) (t : Z) (bc : BC) (hp : heap) :
  circuit_ok rank bc ->
  (forall b, hp !! b = set_temp t <$> gates bc !! b) ->
  circuit_ok rank (set_gates hp bc).
Proof.
  intros (Hchain & Har & Hrk & Hcl & Hty) Hhp.
  assert (Hinv : forall b g', hp !! b = Some g' ->
            exists g, gates bc !! b = Some g /\ g' = set_temp t g).
  { intros b g' Hb. rewrite Hhp in Hb.
    destruct (gates bc !! b) as [g|]; [|discriminate].
    injection Hb as <-. eauto. }
  unfold circuit_ok. simpl. split_and!.
  - intros a. rewrite Hchain, Hhp. destruct (gates bc !! a); simpl; split;
      intros [x Hx]; eauto; discriminate.
  - intros a g' Ha. destruct (Hinv a g' Ha) as (g & Hg & ->). exact (Har a g Hg).
  - intros a g' c Ha Hc. destruct (Hinv a g' Ha) as (g & Hg & ->).
    exact (Hrk a g c Hg Hc).
  - intros a g' c Ha Hc. destruct (Hinv a g' Ha) as (g & Hg & ->).
    destruct (Hcl a g c Hg Hc) as [cg Hcg]. rewrite Hhp, Hcg. simpl. eauto.
  - intros a g' Ha. destruct (Hinv a g' Ha) as (g & Hg & ->). exact (Hty a g Hg).
Qed.


Lemma ex_free_heap_cases (t : Z) (a : nat) (g : Gate) :
  ex_free_heap t !! a = Some g ->
  (a < 4)%nat /\ index g = Z.of_nat a /\
  (type g = tVAR /\ children g = [] \/
   type g = tOR /\ children g = [(0%nat, 0%nat); (1%nat, 1%nat)] /\ a = 2%nat \/
   type g = tNOT /\ children g = [(2%nat, 0%nat)] /\ a = 3%nat).
Proof.
  unfold ex_free_heap. intros H.
  repeat (rewrite lookup_insert in H; case_decide;
          [subst a; injection H as <-; simpl; split_and!; auto; lia|]).
  rewrite lookup_empty in H. discriminate.
Qed.

Lemma ex_free_circuit_ok : circuit_ok (fun a => a) (ex_free_bc 0).
Proof.
  unfold circuit_ok. simpl. split_and!.
  - intros a. split.
    + intros Ha. repeat (apply elem_of_cons in Ha; destruct Ha as [->|Ha];
        [vm_compute; eauto|]). apply elem_of_nil in Ha. destruct Ha.
    + intros [g Hg]. apply ex_free_heap_cases in Hg. destruct Hg as (Hlt & _).
      destruct a as [|[|[|[|a]]]]; [set_solver..|lia].
  - intros a g Hg. apply ex_free_heap_cases in Hg.
    destruct Hg as (_ & _ & [(Ht & Hc)|[(Ht & Hc & _)|(Ht & Hc & _)]]);
      unfold arity_ok; rewrite Ht, Hc; simpl; split_and!; try lia;
      intros; try reflexivity; try discriminate;
      repeat match goal with H : _ \/ _ |- _ => destruct H end; discriminate.
  - intros a g c Hg Hc. apply ex_free_heap_cases in Hg.
    unfold child_gates in Hc.
    destruct Hg as (_ & _ & [(Ht & Hch)|[(Ht & Hch & ->)|(Ht & Hch & ->)]]);
      rewrite Hch in Hc; simpl in Hc;
      repeat (apply elem_of_cons in Hc; destruct Hc as [->|Hc]; [lia|]);
      apply elem_of_nil in Hc; destruct Hc.
  - intros a g c Hg Hc. apply ex_free_heap_cases in Hg.
    unfold child_gates in Hc.
    destruct Hg as (_ & _ & [(Ht & Hch)|[(Ht & Hch & ->)|(Ht & Hch & ->)]]);
      rewrite Hch in Hc; simpl in Hc;
      repeat (apply elem_of_cons in Hc; destruct Hc as [->|Hc]; [vm_compute; eauto|]);
      apply elem_of_nil in Hc; destruct Hc.
  - intros a g Hg. apply ex_free_heap_cases in Hg.
    destruct Hg as (_ & _ & [(Ht & Hc)|[(Ht & Hc & _)|(Ht & Hc & _)]]);
      unfold cnf_type, constant_ok; rewrite Ht; split; auto 12;
      intros _; split; discriminate.
Qed.


(** The output of [sat_exit] on this circuit. *)
Example sat_exit_free :
  sat_exit 4 (ex_free_bc (-1)) [] =
    Ok (0, ["c The instance was satisfiable"; "c x <-> F"; "c y <-> T";
            "c o <-> T"; "c n <-> T"; "p cnf 1 1"; "1 0"]).
Proof. vm_compute. reflexivity. Qed.

(** ** Determined values are never changed: the primitives *)

Lemma values_kept_refl (bc : BC) : values_kept bc bc.
Proof. intros a g Ha Hi. exists g. auto. Qed.

Lemma values_kept_trans (b1 b2 b3 : BC) :
  values_kept b1 b2 -> values_kept b2 b3 -> values_kept b1 b3.
Proof.
  intros H12 H23 a g Ha Hi.
  destruct (H12 a g Ha Hi) as (g2 & Ha2 & Hi2 & Hd2).
  destruct (H23 a g2 Ha2 Hi2) as (g3 & Ha3 & Hi3 & Hd3).
  exists g3. split_and!; auto.
  intros Hd. destruct (Hd2 Hd) as [Hd2' Hv2]. destruct (Hd3 Hd2') as [Hd3' Hv3].
  split; congruence.
Qed.

(** Only the gates matter. *)
Lemma values_kept_gates (bc bc' : BC) :
  gates bc' = gates bc -> values_kept bc bc'.
Proof. intros E a g Ha Hi. exists g. rewrite E. auto. Qed.

Lemma safe_safe_at {A : Type} (m : M A) (bc : BC) : safe m -> safe_at bc m.
Proof. intros H. apply H. Qed.

Lemma safe_at_ret {A : Type} (bc : BC) (a : A) : safe_at bc (st_ret a).
Proof. intros r bc' [= _ <-]. apply values_kept_refl. Qed.

Lemma safe_at_fail {A : Type} (bc : BC) (e : error) : safe_at bc (st_fail (A := A) e).
Proof. intros r bc' H. discriminate. Qed.

Lemma st_bind_Ok {A B : Type} (m : M A) (k : A -> M B) (bc bc' : BC) (b : B) :
  st_bind m k bc = Ok (b, bc') ->
  exists a bc1, m bc = Ok (a, bc1) /\ k a bc1 = Ok (b, bc').
Proof.
  unfold st_bind. destruct (m bc) as [[a bc1]|e]; [eauto|discriminate].
Qed.

Lemma safe_at_bind {A B : Type} (bc : BC) (m : M A) (k : A -> M B) :
  safe_at bc m ->
  (forall a bc1, m bc = Ok (a, bc1) -> safe_at bc1 (k a)) ->
  safe_at bc (st_bind m k).
Proof.
  intros Hm Hk b bc' H. apply st_bind_Ok in H. destruct H as (a & bc1 & H1 & H2).
  eapply values_kept_trans; [eapply Hm, H1|eapply Hk; eassumption].
Qed.

Lemma safe_at_bind_readonly {A B : Type} (bc : BC) (m : M A) (k : A -> M B) :
  readonly m ->
  (forall a, m bc = Ok (a, bc) -> safe_at bc (k a)) ->
  safe_at bc (st_bind m k).
Proof.
  intros Hm Hk b bc' H. apply st_bind_Ok in H. destruct H as (a & bc1 & H1 & H2).
  pose proof (Hm _ _ _ H1) as ->. eapply Hk; eassumption.
Qed.

Lemma readonly_safe {A : Type} (m : M A) : readonly m -> safe m.
Proof. intros H bc a bc' E. rewrite (H _ _ _ E). apply values_kept_refl. Qed.

Lemma readonly_ret {A : Type} (a : A) : readonly (st_ret a).
Proof. intros bc r bc' [= _ <-]. reflexivity. Qed.

Lemma readonly_fail {A : Type} (e : error) : readonly (st_fail (A := A) e).
Proof. intros bc r bc' H. discriminate. Qed.

Lemma readonly_bind {A B : Type} (m : M A) (k : A -> M B) :
  readonly m -> (forall a, readonly (k a)) -> readonly (st_bind m k).
Proof.
  intros Hm Hk bc b bc' H. apply st_bind_Ok in H. destruct H as (a & bc1 & H1 & H2).
  rewrite (Hk _ _ _ _ H2). apply (Hm _ _ _ H1).
Qed.

Lemma gate_Ok (c : nat) (bc bc' : BC) (g : Gate) :
  gate c bc = Ok (g, bc') -> bc' = bc /\ gates bc !! c = Some g.
Proof.
  unfold gate. intros H. inv_bind H as g0 Hg0. injection H as -> <-.
  apply deref_Ok in Hg0. auto.
Qed.

Lemma readonly_gate (c : nat) : readonly (gate c).
Proof. intros bc g bc' H. apply gate_Ok in H. apply H. Qed.

Lemma safe_at_bind_gate {B : Type} (bc : BC) (c : nat) (k : Gate -> M B) :
  (forall g, gates bc !! c = Some g -> safe_at bc (k g)) ->
  safe_at bc (st_bind (gate c) k).
Proof.
  intros Hk. apply safe_at_bind_readonly; [apply readonly_gate|].
  intros g Hg. apply gate_Ok in Hg. apply Hk, Hg.
Qed.

Lemma modify_Ok (c : nat) (f : Gate -> Gate) (bc bc' : BC) (u : unit) :
  modify c f bc = Ok (u, bc') ->
  exists g, gates bc !! c = Some g /\ bc' = set_gates (<[c := f g]> (gates bc)) bc.
Proof.
  unfold modify. intros H. inv_bind H as g Hg. injection H as _ <-.
  apply deref_Ok in Hg. eauto.
Qed.

(** An assignment to a gate keeps the values when it keeps the value of
    that gate. *)
Lemma safe_at_modify (bc : BC) (c : nat) (f : Gate -> Gate) :
  (forall g, gates bc !! c = Some g ->
     (installed g -> installed (f g)) /\
     (determined g = true -> determined (f g) = true /\ value (f g) = value g)) ->
  safe_at bc (modify c f).
Proof.
  intros Hf u bc' H. apply modify_Ok in H. destruct H as (g & Hg & ->).
  intros a ga Ha Hi. simpl. rewrite lookup_insert. case_decide as E.
  - subst a. assert (ga = g) as -> by congruence.
    destruct (Hf g Hg) as [Hidx Hd].
    exists (f g). split_and!; auto.
  - exists ga. auto.
Qed.

Lemma safe_modify (c : nat) (f : Gate -> Gate) : keeps f -> safe (modify c f).
Proof.
  intros Hf bc. apply safe_at_modify. intros g _.
  destruct (Hf g) as (Hi & Hd & Hv). split; [unfold installed; congruence|].
  intros E. split; congruence.
Qed.

(** The guarded assignment of a value. *)
Lemma safe_at_set_value (bc : BC) (c : nat) (v : bool) :
  (forall g, gates bc !! c = Some g -> determined g = true -> value g = v) ->
  safe_at bc (modify c (set_value v)).
Proof.
  intros H. apply safe_at_modify. intros g Hg. split; [auto|].
  intros Hd. simpl. split; [reflexivity|]. symmetry. apply (H g Hg Hd).
Qed.

Lemma safe_st_assert (b : bool) : safe (st_assert b).
Proof.
  intros bc. unfold st_assert. destruct b; [apply safe_at_ret|apply safe_at_fail].
Qed.

Lemma safe_set_bc_changed : safe set_bc_changed.
Proof. intros bc u bc' [= _ <-]. apply values_kept_gates. reflexivity. Qed.

Lemma readonly_get_may : readonly get_may_transform_input_gates.
Proof. intros bc b bc' [= _ <-]. reflexivity. Qed.

Create HintDb safe.
Create HintDb readonly.

#[export] Hint Resolve readonly_gate readonly_get_may readonly_ret readonly_fail
  : readonly.
#[export] Hint Resolve safe_st_assert safe_set_bc_changed : safe.

(** *** Loops *)

Lemma safe_for_each {X : Type} (l : list X) (body : X -> M unit) :
  (forall x, safe (body x)) -> safe (for_each l body).
Proof.
  intros Hb. induction l as [|x l IH]; intros bc; simpl.
  - apply safe_at_ret.
  - apply safe_at_bind; [apply Hb|]. intros _ bc1 _. apply IH.
Qed.

Lemma safe_loop {X A R : Type} (l : list X) (a : A) (body : A -> X -> M (A + R)) :
  (forall a x, safe (body a x)) -> safe (loop l a body).
Proof.
  intros Hb. revert a. induction l as [|x l IH]; intros a bc; simpl.
  - apply safe_at_ret.
  - apply safe_at_bind; [apply Hb|]. intros [a'|r] bc1 _.
    + apply IH.
    + apply safe_at_ret.
Qed.

Lemma safe_while_head {X R : Type} (fuel : nat) (head : M (option X))
    (body : X -> M (option R)) :
  safe head -> (forall x, safe (body x)) -> safe (while_head fuel head body).
Proof.
  intros Hh Hb. induction fuel as [|fuel IH]; intros bc; simpl.
  - apply safe_at_bind; [apply Hh|]. intros [x|] bc1 _;
      [apply safe_at_fail|apply safe_at_ret].
  - apply safe_at_bind; [apply Hh|]. intros [x|] bc1 _; [|apply safe_at_ret].
    apply safe_at_bind; [apply Hb|]. intros [r|] bc2 _; [apply safe_at_ret|apply IH].
Qed.

Lemma safe_collect {X A : Type} (l : list X) (body : X -> M A) :
  (forall x, safe (body x)) -> safe (collect l body).
Proof.
  intros Hb. induction l as [|x l IH]; intros bc; simpl.
  - apply safe_at_ret.
  - apply safe_at_bind; [apply Hb|]. intros a bc1 _.
    apply safe_at_bind; [apply IH|]. intros r bc2 _. apply safe_at_ret.
Qed.

Lemma safe_children_head (this : nat) :
  safe (let* g := gate this in st_ret (head (children g))).
Proof. apply readonly_safe, readonly_bind; [apply readonly_gate|intros; apply readonly_ret]. Qed.

Lemma safe_parents_head (this : nat) :
  safe (let* g := gate this in st_ret (head (parents g))).
Proof. apply readonly_safe, readonly_bind; [apply readonly_gate|intros; apply readonly_ret]. Qed.

Lemma safe_handles_head (this : nat) :
  safe (let* g := gate this in st_ret (head (handles g))).
Proof. apply readonly_safe, readonly_bind; [apply readonly_gate|intros; apply readonly_ret]. Qed.

Lemma safe_while_children {R : Type} (this : nat) (body : nat * nat -> M (option R)) :
  (forall x, safe (body x)) -> safe (while_children this body).
Proof.
  intros Hb bc. unfold while_children. apply safe_at_bind_gate. intros g _.
  apply safe_while_head; [apply safe_children_head|exact Hb].
Qed.

Lemma safe_while_parents {R : Type} (this : nat) (body : nat * nat -> M (option R)) :
  (forall x, safe (body x)) -> safe (while_parents this body).
Proof.
  intros Hb bc. unfold while_parents. apply safe_at_bind_gate. intros g _.
  apply safe_while_head; [apply safe_parents_head|exact Hb].
Qed.

Lemma safe_while_handles {R : Type} (this : nat) (body : Handle -> M (option R)) :
  (forall x, safe (body x)) -> safe (while_handles this body).
Proof.
  intros Hb bc. unfold while_handles. apply safe_at_bind_gate. intros g _.
  apply safe_while_head; [apply safe_handles_head|exact Hb].
Qed.

Ltac keeps_tac := intros ?; cbn; auto.

Ltac readonly_tac :=
  repeat first
    [ solve [auto with readonly]
    | apply readonly_ret | apply readonly_fail | apply readonly_gate
    | apply readonly_bind; [|intros ?]
    | match goal with
      | |- readonly (if ?b then _ else _) => destruct b
      | |- readonly (match ?x with _ => _ end) => destruct x
      end
    | solve [auto with readonly] ].

(** The facts that the guards give for an assignment of a value. *)
Ltac value_facts :=
  let g := fresh "g" in
  let Hg := fresh "Hg" in
  let Hd := fresh "Hd" in
  intros g Hg Hd;
  repeat match goal with
         | H : gates ?bc !! ?c = Some ?g' |- _ =>
             match type of Hg with
             | gates bc !! c = Some _ =>
                 assert (g = g') by congruence; subst g; clear Hg
             end
         end;
  repeat match goal with
         | H : _ && _ = true |- _ => apply andb_true_iff in H; destruct H
         | H : _ && _ = false |- _ => apply andb_false_iff in H; destruct H
         | H : negb _ = true |- _ => apply negb_true_iff in H
         | H : negb _ = false |- _ => apply negb_false_iff in H
         | H : eqb _ _ = true |- _ => apply eqb_prop in H
         | H : eqb _ _ = false |- _ => apply eqb_false_iff in H
         end;
  try congruence;
  repeat match goal with
         | |- context [value ?x] => destruct (value x)
         | H : context [value ?x] |- _ => destruct (value x)
         end;
  try congruence; try reflexivity;
  repeat match goal with
         | v : bool |- _ => destruct v
         end; simpl in *; congruence.

Ltac safe_leaf :=
  first
    [ apply safe_at_ret
    | apply safe_at_fail
    | apply safe_safe_at; solve [auto with safe]
    | apply safe_safe_at, readonly_safe; solve [readonly_tac]
    | apply safe_safe_at, safe_modify; solve [keeps_tac]
    | apply safe_at_set_value; solve [value_facts] ].

Ltac safe_step :=
  cbv beta;
  lazymatch goal with
  | |- safe _ => intros ?bc
  | |- safe_at _ (st_bind (gate _) _) => apply safe_at_bind_gate; intros ?g ?Hg
  | |- safe_at _ (st_bind _ _) =>
      first [ apply safe_at_bind_readonly; [solve [readonly_tac] | intros ?a ?Ha]
            | apply safe_at_bind; [ | intros ?a ?bc _ ] ]
  | |- safe_at _ (for_each _ _) => apply safe_safe_at, safe_for_each; intros ?x
  | |- safe_at _ (loop _ _ _) => apply safe_safe_at, safe_loop; intros ?a ?x
  | |- safe_at _ (collect _ _) => apply safe_safe_at, safe_collect; intros ?x
  | |- safe_at _ (while_children _ _) =>
      apply safe_safe_at, safe_while_children; intros ?x
  | |- safe_at _ (while_parents _ _) =>
      apply safe_safe_at, safe_while_parents; intros ?x
  | |- safe_at _ (while_handles _ _) =>
      apply safe_safe_at, safe_while_handles; intros ?x
  | |- safe_at _ (if ?b then _ else _) => destruct b eqn:?
  | |- safe_at _ (match ?x with _ => _ end) => destruct x eqn:?
  | |- _ => safe_leaf
  end.

Ltac safe_tac := repeat safe_step.



(** ** Determined values are never changed: associations, stack, helpers *)

Ltac safe_def f := unfold f; safe_tac.

Lemma safe_link_parent (e f c : nat) : safe (link_parent e f c).
Proof. safe_def link_parent. Qed.

Lemma safe_link_child (e f c : nat) : safe (link_child e f c).
Proof. safe_def link_child. Qed.

Lemma safe_unlink_parent (e f : nat) : safe (unlink_parent e f).
Proof. safe_def unlink_parent. Qed.

Lemma safe_unlink_child (e c : nat) : safe (unlink_child e c).
Proof. safe_def unlink_child. Qed.

#[export] Hint Resolve safe_link_parent safe_link_child safe_unlink_parent
  safe_unlink_child : safe.

Lemma safe_next_edge :
  safe (fun bc => Ok (next_edge bc, set_next_edge (S (next_edge bc)) bc)).
Proof. intros bc a bc' [= _ <-]. apply values_kept_gates. reflexivity. Qed.

#[export] Hint Resolve safe_next_edge : safe.

Lemma safe_add_child (this child : nat) : safe (add_child this child).
Proof. safe_def add_child. Qed.

Lemma safe_delete_assoc (e parent child : nat) : safe (delete_assoc e parent child).
Proof. safe_def delete_assoc. Qed.

Lemma safe_change_child (e parent child new_child : nat) :
  safe (change_child e parent child new_child).
Proof. safe_def change_child. Qed.

Lemma safe_change_parent (e parent child new_parent : nat) :
  safe (change_parent e parent child new_parent).
Proof. safe_def change_parent. Qed.

#[export] Hint Resolve safe_add_child safe_delete_assoc safe_change_child
  safe_change_parent : safe.

Lemma safe_remove_all_children (this : nat) : safe (remove_all_children this).
Proof. safe_def remove_all_children. Qed.

(** A new gate is not one of the gates there are. *)
Lemma safe_new_gate (t : GateType) : safe (new_gate t).
Proof.
  intros bc a bc' [= <- <-]. intros b g Hb Hi. simpl.
  rewrite lookup_insert_ne; [eauto|].
  intros <-. pose proof (is_fresh (dom (gates bc))) as Hf.
  apply Hf, elem_of_dom. eauto.
Qed.

#[export] Hint Resolve safe_remove_all_children safe_new_gate : safe.

Lemma readonly_no_parents (a : nat) : readonly (no_parents a).
Proof. unfold no_parents. readonly_tac. Qed.

Lemma readonly_no_children (a : nat) : readonly (no_children a).
Proof. unfold no_children. readonly_tac. Qed.

Lemma readonly_child_at (a n : nat) : readonly (child_at a n).
Proof.
  unfold child_at. apply readonly_bind; [apply readonly_gate|].
  intros g bc c bc' H. inv_bind H as c0 Hc0. injection H as _ <-. reflexivity.
Qed.

Lemma readonly_count_children_of (a : nat) : readonly (count_children_of a).
Proof. unfold count_children_of. readonly_tac. Qed.

Lemma readonly_single_parent (a : nat) : readonly (single_parent a).
Proof. unfold single_parent. readonly_tac. Qed.

#[export] Hint Resolve readonly_no_parents readonly_no_children readonly_child_at
  readonly_count_children_of readonly_single_parent : readonly.

Lemma safe_set_pstack (l : BC -> list nat) :
  safe (fun bc => Ok (tt, set_pstack (l bc) bc)).
Proof. intros bc a bc' [= _ <-]. apply values_kept_gates. reflexivity. Qed.

Lemma safe_add_in_pstack (this : nat) : safe (add_in_pstack this).
Proof.
  unfold add_in_pstack. safe_tac.
  apply (safe_set_pstack (fun bc => this :: pstack bc)).
Qed.

#[export] Hint Resolve safe_add_in_pstack : safe.

Lemma safe_add_parents_in_pstack (this : nat) : safe (add_parents_in_pstack this).
Proof. safe_def add_parents_in_pstack. Qed.

Lemma safe_add_children_in_pstack (this : nat) : safe (add_children_in_pstack this).
Proof. safe_def add_children_in_pstack. Qed.

Lemma safe_add_in_pstack_if_no_parents (child : nat) :
  safe (add_in_pstack_if_no_parents child).
Proof. safe_def add_in_pstack_if_no_parents. Qed.

#[export] Hint Resolve safe_add_parents_in_pstack safe_add_children_in_pstack
  safe_add_in_pstack_if_no_parents : safe.

(** [transform_into_constant] gives a value to an undetermined gate only;
    for a determined one it asserts that the value is the one it has. *)
Lemma safe_transform_into_constant (this : nat) (v : bool) :
  safe (transform_into_constant this v).
Proof. safe_def transform_into_constant. Qed.

#[export] Hint Resolve safe_transform_into_constant : safe.

Lemma safe_constant_unless_conflict (this : nat) (v : bool) :
  safe (constant_unless_conflict this v).
Proof. safe_def constant_unless_conflict. Qed.

Lemma safe_clear_temps_with_grandchildren (this : nat) :
  safe (clear_temps_with_grandchildren this).
Proof. safe_def clear_temps_with_grandchildren. Qed.

Lemma safe_set_temps (this : nat) (t : Z) : safe (set_temps this t).
Proof. safe_def set_temps. Qed.

#[export] Hint Resolve safe_constant_unless_conflict
  safe_clear_temps_with_grandchildren safe_set_temps : safe.

Lemma safe_remove_g_not_g_and_duplicate_children (this : nat) :
  safe (remove_g_not_g_and_duplicate_children this).
Proof. safe_def remove_g_not_g_and_duplicate_children. Qed.

Lemma safe_find_before (e : nat) (p : nat * nat -> M bool) (l : list (nat * nat)) :
  (forall x, safe (p x)) -> safe (find_before e p l).
Proof.
  intros Hp. induction l as [|x l IH]; intros bc; simpl; [apply safe_at_ret|].
  destruct (fst x =? e)%nat; [apply safe_at_ret|].
  apply safe_at_bind; [apply Hp|]. intros [] bc1 _; [apply safe_at_ret|apply IH].
Qed.

Lemma safe_remove_parity_duplicate_children (this : nat) :
  safe (remove_parity_duplicate_children this).
Proof.
  unfold remove_parity_duplicate_children. safe_tac.
  apply safe_safe_at, safe_find_before. intros x0. safe_tac.
Qed.

Lemma safe_remove_cardinality_g_not_g (this : nat) :
  safe (remove_cardinality_g_not_g this).
Proof.
  unfold remove_cardinality_g_not_g. safe_tac.
  all: try (apply safe_safe_at, safe_find_before; intros ?; safe_tac).
Qed.

#[export] Hint Resolve safe_remove_g_not_g_and_duplicate_children
  safe_remove_parity_duplicate_children safe_remove_cardinality_g_not_g : safe.

Lemma safe_change_gate (this new_gate : nat) : safe (change_gate this new_gate).
Proof. safe_def change_gate. Qed.

#[export] Hint Resolve safe_change_gate : safe.

Lemma safe_move_parents (this child : nat) : safe (move_parents this child).
Proof. safe_def move_parents. Qed.

Lemma safe_move_handles (this child : nat) : safe (move_handles this child).
Proof. safe_def move_handles. Qed.

Lemma safe_move_children (this new_parent : nat) : safe (move_children this new_parent).
Proof. safe_def move_children. Qed.

Lemma safe_propagate_to_child (child : nat) (v : bool) :
  safe (propagate_to_child child v).
Proof. safe_def propagate_to_child. Qed.

#[export] Hint Resolve safe_move_parents safe_move_handles safe_move_children
  safe_propagate_to_child : safe.

(** *** Freeing a gate that is not installed *)

Lemma none_installed_refl (bc : BC) : none_installed bc bc.
Proof. intros a g Ha Hi. eauto. Qed.

Lemma none_installed_trans (b1 b2 b3 : BC) :
  none_installed b1 b2 -> none_installed b2 b3 -> none_installed b1 b3.
Proof.
  intros H12 H23 a g3 Ha Hi. destruct (H23 a g3 Ha Hi) as (g2 & Ha2 & Hi2).
  apply (H12 a g2 Ha2 Hi2).
Qed.

Lemma installs_none_ret {A : Type} (a : A) : installs_none (st_ret a).
Proof. intros bc r bc' [= _ <-]. apply none_installed_refl. Qed.

Lemma installs_none_readonly {A : Type} (m : M A) : readonly m -> installs_none m.
Proof. intros H bc a bc' E. rewrite (H _ _ _ E). apply none_installed_refl. Qed.

Lemma installs_none_bind {A B : Type} (m : M A) (k : A -> M B) :
  installs_none m -> (forall a, installs_none (k a)) -> installs_none (st_bind m k).
Proof.
  intros Hm Hk bc b bc' H. apply st_bind_Ok in H. destruct H as (a & bc1 & H1 & H2).
  eapply none_installed_trans; [eapply Hm, H1|eapply Hk, H2].
Qed.

Lemma installs_none_modify (c : nat) (f : Gate -> Gate) :
  keeps f -> installs_none (modify c f).
Proof.
  intros Hf bc u bc' H. apply modify_Ok in H. destruct H as (g & Hg & ->).
  intros a g' Ha Hi. simpl in Ha. rewrite lookup_insert in Ha. case_decide as E.
  - subst a. injection Ha as <-. exists g. split; [exact Hg|].
    unfold installed in *. destruct (Hf g) as [E _]. rewrite <- E. exact Hi.
  - eauto.
Qed.

Lemma installs_none_while_head {X R : Type} (fuel : nat) (head : M (option X))
    (body : X -> M (option R)) :
  installs_none head -> (forall x, installs_none (body x)) ->
  installs_none (while_head fuel head body).
Proof.
  intros Hh Hb. induction fuel as [|fuel IH]; simpl.
  - apply installs_none_bind; [exact Hh|]. intros [x|];
      [intros bc a bc' H; discriminate|apply installs_none_ret].
  - apply installs_none_bind; [exact Hh|]. intros [x|]; [|apply installs_none_ret].
    apply installs_none_bind; [apply Hb|]. intros [r|];
      [apply installs_none_ret|apply IH].
Qed.

Lemma installs_none_delete_assoc (e parent child : nat) :
  installs_none (delete_assoc e parent child).
Proof.
  unfold delete_assoc, unlink_parent, unlink_child.
  apply installs_none_bind; [|intros _]; apply installs_none_modify; keeps_tac.
Qed.

Lemma installs_none_remove_all_children (this : nat) :
  installs_none (remove_all_children this).
Proof.
  unfold remove_all_children, while_children.
  apply installs_none_bind; [|intros; apply installs_none_ret].
  apply installs_none_bind; [apply installs_none_readonly, readonly_gate|].
  intros g. apply installs_none_while_head.
  - apply installs_none_readonly. readonly_tac.
  - intros x. apply installs_none_bind; [apply installs_none_delete_assoc|].
    intros; apply installs_none_ret.
Qed.

Lemma installs_none_unlink_parents (a : nat) :
  installs_none (while_parents (R := unit) a
                   (fun pa => delete_assoc (fst pa) (snd pa) a;; st_ret None)).
Proof.
  unfold while_parents.
  apply installs_none_bind; [apply installs_none_readonly, readonly_gate|].
  intros g. apply installs_none_while_head.
  - apply installs_none_readonly. readonly_tac.
  - intros x. apply installs_none_bind; [apply installs_none_delete_assoc|].
    intros; apply installs_none_ret.
Qed.

(** The destructor asserts that the gate is not installed. *)
Lemma safe_delete_gate (a : nat) : safe (delete_gate a).
Proof.
  intros bc u bc' H. unfold delete_gate in H.
  apply st_bind_Ok in H. destruct H as (g & bc0 & Hg & H).
  apply gate_Ok in Hg. destruct Hg as [-> Hg].
  apply st_bind_Ok in H. destruct H as (? & bc0 & Hs & H).
  unfold st_assert in Hs. destruct (negb (in_pstack g)); [|discriminate].
  injection Hs as _ <-.
  apply st_bind_Ok in H. destruct H as (? & bc0 & Hi & H).
  unfold st_assert in Hi. destruct (index g =? UINT_MAX) eqn:Eidx; [|discriminate].
  injection Hi as _ <-. apply Z.eqb_eq in Eidx.
  apply st_bind_Ok in H. destruct H as (? & bc1 & H1 & H).
  apply st_bind_Ok in H. destruct H as (? & bc2 & H2 & H).
  apply st_bind_Ok in H. destruct H as (? & bc3 & H3 & H).
  injection H as _ <-.
  assert (Hk : values_kept bc bc3).
  { eapply values_kept_trans; [eapply safe_remove_all_children, H1|].
    eapply values_kept_trans.
    - eapply (safe_while_parents a); [|exact H2]. intros pa. safe_tac.
    - eapply safe_modify; [|exact H3]. keeps_tac. }
  assert (Hn : none_installed bc bc3).
  { eapply none_installed_trans; [eapply installs_none_remove_all_children, H1|].
    eapply none_installed_trans; [eapply installs_none_unlink_parents, H2|].
    eapply installs_none_modify; [|exact H3]. keeps_tac. }
  intros b gb Hb Hinst. destruct (Hk b gb Hb Hinst) as (g3 & Hb3 & Hi3 & Hd3).
  exists g3. simpl. split_and!; auto.
  rewrite lookup_delete_ne; [exact Hb3|].
  intros <-. destruct (Hn a g3 Hb3 Hi3) as (g0 & Hg0 & Hi0).
  assert (g0 = g) as -> by congruence. apply Hi0, Eidx.
Qed.

#[export] Hint Resolve safe_delete_gate : safe.

(** ** Determined values are never changed: [simplify] *)

Section RewritingSafe.

Context (ops : BCOps) (Hops : ops_safe ops).

Lemma safe_depends_on (a b : nat) : safe (depends_on ops a b).
Proof. apply Hops. Qed.

Lemma safe_install_gate (a : nat) : safe (install_gate ops a).
Proof. apply Hops. Qed.

Lemma safe_new_NOT (a : nat) : safe (new_NOT ops a).
Proof. apply Hops. Qed.

Lemma safe_add_true_gate_counter (l : list nat) : safe (add_true_gate_counter ops l).
Proof. apply Hops. Qed.

Lemma safe_add_unsigned_constant (c : Z) : safe (add_unsigned_constant ops c).
Proof. apply Hops. Qed.

Lemma safe_add_unsigned_ge (x y : list nat) : safe (add_unsigned_ge ops x y).
Proof. apply Hops. Qed.

Lemma safe_add_unsigned_le (x y : list nat) : safe (add_unsigned_le ops x y).
Proof. apply Hops. Qed.

Lemma safe_test_and_set (t : table ops) (a : nat) : safe (test_and_set ops t a).
Proof. apply Hops. Qed.

Hint Resolve safe_depends_on safe_install_gate safe_new_NOT
  safe_add_true_gate_counter safe_add_unsigned_constant safe_add_unsigned_ge
  safe_add_unsigned_le safe_test_and_set : safe.

Lemma safe_simplify_delete (this : nat) : safe (simplify_delete this).
Proof. safe_def simplify_delete. Qed.

Lemma safe_simplify_constant (this : nat) (v : bool) :
  safe (simplify_constant this v).
Proof. safe_def simplify_constant. Qed.

Lemma safe_simplify_VAR (this : nat) : safe (simplify_VAR this).
Proof. safe_def simplify_VAR. Qed.

Lemma safe_simplify_REF (this : nat) : safe (simplify_REF this).
Proof. safe_def simplify_REF. Qed.

Lemma safe_simplify_NOT (this : nat) : safe (simplify_NOT this).
Proof. safe_def simplify_NOT. Qed.

Lemma safe_ite_rewrite (this : nat) (t : GateType) (new_children : M unit)
    (parents_too : bool) :
  safe new_children -> safe (ite_rewrite this t new_children parents_too).
Proof. intros H. unfold ite_rewrite. safe_tac. Qed.

Lemma safe_simplify_ITE (this : nat) : safe (simplify_ITE ops this).
Proof.
  unfold simplify_ITE. safe_tac.
  all: try (apply safe_safe_at, safe_ite_rewrite; safe_tac).
Qed.

Hint Resolve safe_simplify_delete safe_simplify_constant safe_simplify_VAR
  safe_simplify_REF safe_simplify_NOT safe_simplify_ITE : safe.

Lemma safe_all_children_marked (parent : nat) : safe (all_children_marked parent).
Proof. safe_def all_children_marked. Qed.

Lemma safe_delete_unmarked_children (this : nat) :
  safe (delete_unmarked_children this).
Proof. safe_def delete_unmarked_children. Qed.

Hint Resolve safe_all_children_marked safe_delete_unmarked_children : safe.

Lemma safe_share_subgate (this : nat) (t : GateType) : safe (share_subgate this t).
Proof. safe_def share_subgate. Qed.

Lemma safe_collapse_nested (this : nat) (t : GateType) :
  safe (collapse_nested this t).
Proof. safe_def collapse_nested. Qed.

Hint Resolve safe_share_subgate safe_collapse_nested : safe.

Lemma safe_simplify_OR_AND (this : nat) (t : GateType) (dominant : bool) :
  safe (simplify_OR_AND this t dominant).
Proof. safe_def simplify_OR_AND. Qed.

Lemma safe_flip_parity (this : nat) : safe (flip_parity this).
Proof. safe_def flip_parity. Qed.

Lemma safe_redirect_other_parents (this from to : nat) :
  safe (redirect_other_parents this from to).
Proof. safe_def redirect_other_parents. Qed.

Lemma safe_new_gate1 (t : GateType) (child : nat) : safe (new_gate1 t child).
Proof. safe_def new_gate1. Qed.

Lemma safe_new_gate2 (t : GateType) (c1 c2 : nat) : safe (new_gate2 t c1 c2).
Proof. safe_def new_gate2. Qed.

Lemma readonly_has_other_parent (a : nat) : readonly (has_other_parent a).
Proof. unfold has_other_parent. readonly_tac. Qed.

Hint Resolve safe_simplify_OR_AND safe_flip_parity safe_redirect_other_parents
  safe_new_gate1 safe_new_gate2 : safe.
Hint Resolve readonly_has_other_parent : readonly.

Lemma safe_parity_children_equivalent (this : nat) :
  safe (parity_children_equivalent ops this).
Proof. safe_def parity_children_equivalent. Qed.

Lemma safe_parity_children_inequivalent (this : nat) :
  safe (parity_children_inequivalent ops this).
Proof. safe_def parity_children_inequivalent. Qed.

Lemma safe_odd_with_or (this x y_or : nat) : safe (odd_with_or ops this x y_or).
Proof. safe_def odd_with_or. Qed.

Hint Resolve safe_parity_children_equivalent safe_parity_children_inequivalent
  safe_odd_with_or : safe.

Lemma safe_simplify_ODD_EVEN (this : nat) : safe (simplify_ODD_EVEN ops this).
Proof. safe_def simplify_ODD_EVEN. Qed.

Lemma safe_unify_input_gates (this : nat) : safe (unify_input_gates this).
Proof. safe_def unify_input_gates. Qed.

Lemma safe_unify_with_least_child (this : nat) :
  safe (unify_with_least_child ops this).
Proof. safe_def unify_with_least_child. Qed.

Lemma safe_push_children_down (this : nat) (t : GateType) (early : bool) :
  safe (push_children_down ops this t early).
Proof. safe_def push_children_down. Qed.

Hint Resolve safe_simplify_ODD_EVEN safe_unify_input_gates
  safe_unify_with_least_child safe_push_children_down : safe.

Lemma safe_simplify_EQUIV (this : nat) : safe (simplify_EQUIV ops this).
Proof. safe_def simplify_EQUIV. Qed.

Lemma safe_threshold_negation (this : nat) (t : GateType) (parents_too : bool) :
  safe (threshold_negation ops this t parents_too).
Proof. safe_def threshold_negation. Qed.

Lemma safe_threshold_falsify_ands (this : nat) : safe (threshold_falsify_ands this).
Proof. safe_def threshold_falsify_ands. Qed.

Hint Resolve safe_simplify_EQUIV safe_threshold_negation
  safe_threshold_falsify_ands : safe.

Lemma safe_simplify_THRESHOLD (this : nat) : safe (simplify_THRESHOLD ops this).
Proof. safe_def simplify_THRESHOLD. Qed.

Lemma safe_atleast_remove_step (this : nat) (n : Z) (ca : nat * nat) :
  safe (atleast_remove_step this n ca).
Proof. safe_def atleast_remove_step. Qed.

Hint Resolve safe_atleast_remove_step : safe.

Lemma safe_simplify_ATLEAST (this : nat) : safe (simplify_ATLEAST this).
Proof.
  unfold simplify_ATLEAST. intros bc. apply safe_at_bind_gate. intros g _.
  apply safe_at_bind; [apply safe_loop; intros; apply safe_atleast_remove_step|].
  intros r bc1 _. safe_tac.
Qed.

Hint Resolve safe_simplify_THRESHOLD safe_simplify_ATLEAST : safe.

Lemma safe_simplify (this : nat) (flag : bool) : safe (simplify ops this flag).
Proof. safe_def simplify. Qed.

(** ** Determined values are never changed: [cnf_normalize] and [share] *)

Lemma conflicts_with_Ok (this : nat) (v c : bool) (bc bc' : BC) :
  conflicts_with this v bc = Ok (c, bc') ->
  bc' = bc /\ exists g, gates bc !! this = Some g /\
                        c = determined g && negb (eqb (value g) v).
Proof.
  unfold conflicts_with. intros H.
  apply st_bind_Ok in H. destruct H as (g & bc0 & Hg & H).
  apply gate_Ok in Hg. destruct Hg as [-> Hg]. injection H as <- <-. eauto.
Qed.

Lemma readonly_conflicts_with (this : nat) (v : bool) :
  readonly (conflicts_with this v).
Proof. unfold conflicts_with. readonly_tac. Qed.

Hint Resolve readonly_conflicts_with : readonly.

Lemma safe_cnf_normalize_constant (this : nat) (v : bool) :
  safe (cnf_normalize_constant this v).
Proof.
  intros bc. unfold cnf_normalize_constant.
  apply safe_at_bind_readonly; [apply readonly_conflicts_with|].
  intros c Hc. apply conflicts_with_Ok in Hc. destruct Hc as (_ & g & Hg & ->).
  safe_tac.
Qed.

Lemma safe_cnf_normalize_REF (this : nat) : safe (cnf_normalize_REF this).
Proof. safe_def cnf_normalize_REF. Qed.

Lemma safe_cnf_normalize_NOT (this : nat) : safe (cnf_normalize_NOT this).
Proof. safe_def cnf_normalize_NOT. Qed.

Lemma safe_cnf_normalize_OR_AND (this : nat) : safe (cnf_normalize_OR_AND this).
Proof. safe_def cnf_normalize_OR_AND. Qed.

Lemma safe_install_new (t : GateType) (stacked : bool) :
  safe (install_new ops t stacked).
Proof. safe_def install_new. Qed.

Hint Resolve safe_cnf_normalize_constant safe_cnf_normalize_REF
  safe_cnf_normalize_NOT safe_cnf_normalize_OR_AND safe_install_new : safe.

Lemma safe_cnf_normalize_EQUIV (this : nat) : safe (cnf_normalize_EQUIV ops this).
Proof. safe_def cnf_normalize_EQUIV. Qed.

Lemma safe_cnf_constant (this : nat) (v reset_tmax : bool) :
  safe (cnf_constant this v reset_tmax).
Proof. safe_def cnf_constant. Qed.

Hint Resolve safe_cnf_normalize_EQUIV safe_cnf_constant : safe.

Lemma safe_cnf_normalize_THRESHOLD (this : nat) :
  safe (cnf_normalize_THRESHOLD ops this).
Proof. safe_def cnf_normalize_THRESHOLD. Qed.

Lemma safe_hand_children_over (this to : nat) : safe (hand_children_over this to).
Proof. safe_def hand_children_over. Qed.

Hint Resolve safe_cnf_normalize_THRESHOLD safe_hand_children_over : safe.

Lemma safe_cnf_normalize_EVEN (this : nat) : safe (cnf_normalize_EVEN ops this).
Proof. safe_def cnf_normalize_EVEN. Qed.

Lemma safe_cnf_normalize_ODD (this : nat) : safe (cnf_normalize_ODD ops this).
Proof. safe_def cnf_normalize_ODD. Qed.

Lemma readonly_at_index {A : Type} (l : list A) (z : Z) : readonly (at_index l z).
Proof. unfold at_index. readonly_tac. Qed.

Hint Resolve readonly_at_index : readonly.

Lemma readonly_cell (array : list (list nat)) (i j : Z) : readonly (cell array i j).
Proof. unfold cell. readonly_tac. Qed.

Hint Resolve readonly_cell : readonly.

Lemma safe_new_array (rows columns : nat) : safe (new_array rows columns).
Proof. safe_def new_array. Qed.

Lemma safe_atleast_rounds (fuel : nat) (this : nat) (childs : list nat)
    (array : list (list nat)) :
  forall todo, safe (atleast_rounds ops fuel this childs array todo).
Proof.
  induction fuel as [|fuel IH]; intros [|[i j] todo] bc; simpl;
    try apply safe_at_ret; try apply safe_at_fail.
  safe_tac.
Qed.

Hint Resolve safe_cnf_normalize_EVEN safe_cnf_normalize_ODD safe_new_array
  safe_atleast_rounds : safe.

Lemma safe_cnf_normalize_ATLEAST (this : nat) :
  safe (cnf_normalize_ATLEAST ops this).
Proof. safe_def cnf_normalize_ATLEAST. Qed.

Hint Resolve safe_cnf_normalize_ATLEAST : safe.

Lemma safe_cnf_normalize (this : nat) : safe (cnf_normalize ops this).
Proof. safe_def cnf_normalize. Qed.

Lemma safe_sort_children (this : nat) : safe (sort_children this).
Proof.
  unfold sort_children. safe_tac.
  intros r bc' H. inv_bind H as s Hs. injection H as _ <-.
  apply values_kept_refl.
Qed.

Lemma readonly_current_child (this e : nat) : readonly (current_child this e).
Proof. unfold current_child. readonly_tac. Qed.

Hint Resolve safe_sort_children : safe.
Hint Resolve readonly_current_child : readonly.

Lemma safe_share (fuel : nat) :
  forall this s, safe (share ops fuel this s).
Proof.
  induction fuel as [|fuel IH]; intros this s bc; simpl; [apply safe_at_fail|].
  safe_tac.
Qed.

End RewritingSafe.

(** ** Determined values are never changed: the entry points *)

Lemma gate_run (bc : BC) (a : nat) (g : Gate) :
  gates bc !! a = Some g -> gate a bc = Ok (g, bc).
Proof. intros H. unfold gate, deref. rewrite H. reflexivity. Qed.

Lemma child_at_run (bc : BC) (a : nat) (g : Gate) (n c : nat) :
  gates bc !! a = Some g -> child_gates g !! n = Some c ->
  child_at a n bc = Ok (c, bc).
Proof.
  intros Ha Hc. unfold child_at, st_bind. rewrite (gate_run _ _ _ Ha).
  unfold nth_child. rewrite Hc. reflexivity.
Qed.

(** A value conflict at a constant, a REF or a NOT makes [simplify] and
    [cnf_normalize] return [false] at once. *)
Lemma conflict_simplify (ops : BCOps) (this : nat) (flag : bool) (bc : BC) (g : Gate) :
  gates bc !! this = Some g -> value_conflict (gates bc) g ->
  simplify ops this flag bc = Ok (false, bc).
Proof.
  intros Hg (Hd & Hc). unfold simplify, st_bind. rewrite (gate_run _ _ _ Hg).
  destruct Hc as [(Ht & Hv)|[(Ht & Hv)|(c & cg & Hc & Hcg & Hdc & Hc')]].
  - rewrite Ht, Hd. simpl. destruct (parents g), (handles g);
      unfold simplify_constant, st_bind; rewrite (gate_run _ _ _ Hg), Hd, Hv;
      reflexivity.
  - rewrite Ht, Hd. simpl. destruct (parents g), (handles g);
      unfold simplify_constant, st_bind; rewrite (gate_run _ _ _ Hg), Hd, Hv;
      reflexivity.
  - destruct Hc' as [(Ht & Hv)|(Ht & Hv)]; rewrite Ht, Hd; simpl;
      destruct (parents g), (handles g);
      unfold simplify_REF, simplify_NOT, propagate_to_child, st_bind;
      rewrite (child_at_run _ _ _ _ _ Hg Hc), (gate_run _ _ _ Hg),
        (gate_run _ _ _ Hcg), Hd; cbv beta iota;
      rewrite (gate_run _ _ _ Hcg), Hdc; unfold st_ret;
      destruct (value cg), (value g); try reflexivity; congruence.
Qed.

Lemma conflict_cnf_normalize (ops : BCOps) (this : nat) (bc : BC) (g : Gate) :
  gates bc !! this = Some g -> value_conflict (gates bc) g ->
  cnf_normalize ops this bc = Ok (false, bc).
Proof.
  intros Hg (Hd & Hc). unfold cnf_normalize, st_bind. rewrite (gate_run _ _ _ Hg).
  destruct Hc as [(Ht & Hv)|[(Ht & Hv)|(c & cg & Hc & Hcg & Hdc & Hc')]].
  - rewrite Ht. simpl.
    unfold cnf_normalize_constant, conflicts_with, st_bind.
    rewrite (gate_run _ _ _ Hg), Hd, Hv. reflexivity.
  - rewrite Ht. simpl.
    unfold cnf_normalize_constant, conflicts_with, st_bind.
    rewrite (gate_run _ _ _ Hg), Hd, Hv. reflexivity.
  - destruct Hc' as [(Ht & Hv)|(Ht & Hv)]; rewrite Ht; simpl;
      unfold cnf_normalize_REF, cnf_normalize_NOT, st_bind;
      rewrite (child_at_run _ _ _ _ _ Hg Hc), (gate_run _ _ _ Hg), ?Hd;
      cbv beta iota; rewrite (gate_run _ _ _ Hcg), ?Hd, Hdc; unfold st_ret;
      destruct (value cg), (value g); try reflexivity; congruence.
Qed.

(** [share] returns [false] only at a gate that is determined to another
    value than the gate that the hash table holds for it, which is
    determined too; what the calls on the children return plays no part. *)
Lemma share_false_at_gate (ops : BCOps) (fuel : nat) (this : nat)
    (s s' : table ops * gmap Z nat) (bc bc' : BC) :
  share ops fuel this s bc = Ok ((false, s'), bc') ->
  exists g e eg,
    gates bc' !! this = Some g /\ gates bc' !! e = Some eg /\ e <> this /\
    snd s' !! index g = Some e /\
    determined g = true /\ determined eg = true /\ value g <> value eg.
Proof.
  destruct fuel as [|fuel]; [discriminate|]. cbn [share]. intros H.
  apply st_bind_Ok in H. destruct H as (g0 & b0 & _ & H).
  destruct (is_type (type g0) tDELETED); [discriminate H|].
  destruct (is_type (type g0) tVAR); [discriminate H|].
  destruct (bool_decide (is_Some (snd s !! index g0))); [discriminate H|].
  apply st_bind_Ok in H. destruct H as (r & b1 & _ & H).
  apply st_bind_Ok in H. destruct H as (g1 & b2 & _ & H).
  apply st_bind_Ok in H. destruct H as (u & b3 & _ & H).
  apply st_bind_Ok in H. destruct H as ([e ht] & b4 & _ & H).
  apply st_bind_Ok in H. destruct H as (g & b5 & Hg & H).
  apply gate_Ok in Hg. destruct Hg as [-> Hg].
  destruct (Nat.eqb_spec e this) as [He|He]; cbn [negb] in H; [discriminate H|].
  apply st_bind_Ok in H. destruct H as (eg & b6 & Heg & H).
  apply gate_Ok in Heg. destruct Heg as [-> Heg].
  apply st_bind_Ok in H. destruct H as (ok & b7 & Hok & H).
  destruct ok; cbn [negb] in H.
  { do 5 (apply st_bind_Ok in H; destruct H as (? & ? & _ & H)). discriminate H. }
  injection H as <- <-.
  destruct (determined g) eqn:Hd; [|discriminate Hok].
  destruct (determined eg) eqn:Hde.
  - injection Hok as Hv <-. exists g, e, eg.
    split; [exact Hg|]. split; [exact Heg|]. split; [exact He|].
    split; [cbn; apply lookup_insert_eq|]. split; [exact Hd|].
    split; [exact Hde|]. intros E. rewrite E, eqb_reflx in Hv. discriminate Hv.
  - apply st_bind_Ok in Hok. destruct Hok as (? & ? & _ & Hok). discriminate Hok.
Qed.

(** The operations of the examples keep the values. *)
Lemma safe_ex_install_gate (a : nat) : safe (ex_install_gate a).
Proof.
  unfold ex_install_gate. intros bc.
  apply safe_at_bind; [intros n bc' [= _ <-]; apply values_kept_refl|].
  intros n bc1 _. apply safe_at_bind; [apply safe_st_assert|].
  intros u bc2 Hn. unfold st_assert in Hn.
  destruct (n <? UINT_MAX) eqn:E; [|discriminate]. apply Z.ltb_lt in E.
  apply safe_at_bind.
  - apply safe_at_modify. intros g _. simpl. split; [|auto].
    intros _. unfold installed. simpl. lia.
  - intros _ bc3 _ r bc' [= _ <-]. apply values_kept_gates. reflexivity.
Qed.

Lemma ex_ops_safe : ops_safe ex_ops.
Proof.
  unfold ops_safe, ex_ops. simpl. split_and!.
  - intros a b. apply readonly_safe. intros bc r bc' [= _ <-]. reflexivity.
  - apply safe_ex_install_gate.
  - intros a bc. safe_tac.
    + apply safe_new_gate1.
    + apply safe_ex_install_gate.
  - intros l bc. apply safe_at_fail.
  - intros c bc. apply safe_at_fail.
  - intros x y bc. apply safe_at_fail.
  - intros x y bc. apply safe_at_fail.
  - intros t a. apply readonly_safe. intros bc r bc' H.
    destruct (ex_lookup (gates bc) a t); injection H as _ <-; reflexivity.
Qed.


(** ** The simplification of ATLEAST gates *)

Lemma modify_run (s : BC) (a : nat) (g : Gate) (f : Gate -> Gate) :
  gates s !! a = Some g ->
  modify a f s = Ok (tt, set_gates (<[a := f g]> (gates s)) s).
Proof. intros H. unfold modify, deref. rewrite H. reflexivity. Qed.

Lemma st_bind_run {A B : Type} (m : M A) (k : A -> M B) (s s1 : BC) (a : A) :
  m s = Ok (a, s1) -> st_bind m k s = k a s1.
Proof. intros H. unfold st_bind. rewrite H. reflexivity. Qed.

Lemma st_bind_assoc {A B C : Type} (m : M A) (k : A -> M B) (k' : B -> M C) (s : BC) :
  st_bind (st_bind m k) k' s = st_bind m (fun x => st_bind (k x) k') s.
Proof. unfold st_bind. destruct (m s) as [[a s1]|e]; reflexivity. Qed.

Lemma unlink_app (e c : nat) (pre l : list (nat * nat)) :
  e ∉ map fst pre -> unlink e (pre ++ (e, c) :: l) = pre ++ l.
Proof.
  induction pre as [|x pre IH]; intros Hn; simpl.
  - rewrite Nat.eqb_refl. reflexivity.
  - destruct (fst x =? e)%nat eqn:E.
    + apply Nat.eqb_eq in E. exfalso. apply Hn. simpl. rewrite E. left.
    + rewrite IH; [reflexivity|]. intros Hin. apply Hn. simpl. right. exact Hin.
Qed.

(** [delete ca] for an association of the gate [this] to another gate. *)
Lemma delete_assoc_run (s : BC) (e this c : nat) (g cg : Gate) :
  gates s !! this = Some g -> gates s !! c = Some cg -> c <> this ->
  delete_assoc e this c s =
    Ok (tt, set_gates (<[c := set_parents (unlink e (parents cg)) cg]>
                         (<[this := set_children (unlink e (children g)) g]> (gates s))) s).
Proof.
  intros Hg Hc Hne. unfold delete_assoc, unlink_parent, unlink_child.
  rewrite (st_bind_run _ _ _ _ _ (modify_run s this g _ Hg)).
  rewrite (modify_run _ c cg); [reflexivity|].
  simpl. rewrite lookup_insert_ne by auto. exact Hc.
Qed.

Lemma same_but_links_refl (g : Gate) : same_but_links g g.
Proof. destruct g. reflexivity. Qed.

Lemma same_but_links_trans (g1 g2 g3 : Gate) :
  same_but_links g1 g2 -> same_but_links g2 g3 -> same_but_links g1 g3.
Proof. unfold same_but_links. intros -> ->. destruct g1. reflexivity. Qed.

Lemma same_but_links_parents (g g' : Gate) (ps : list (nat * nat)) :
  same_but_links g g' -> same_but_links g (set_parents ps g').
Proof. unfold same_but_links. intros ->. destruct g. reflexivity. Qed.

Lemma same_but_links_in_pstack (g g' : Gate) (b : bool) :
  same_but_links g g' -> same_but_links g (set_in_pstack b g').
Proof. unfold same_but_links. intros ->. destruct g. reflexivity. Qed.

Lemma same_but_links_fields (g g' : Gate) :
  same_but_links g g' ->
  determined g' = determined g /\ value g' = value g /\ type g' = type g /\
  children g' = children g.
Proof. unfold same_but_links. intros ->. auto. Qed.

Lemma others_kept_refl (this : nat) (bc : BC) : others_kept this bc bc.
Proof. intros a ga _ Ha. exists ga. split; [exact Ha|apply same_but_links_refl]. Qed.

Lemma others_kept_trans (this : nat) (b1 b2 b3 : BC) :
  others_kept this b1 b2 -> others_kept this b2 b3 -> others_kept this b1 b3.
Proof.
  intros H12 H23 a g1 Hne Ha. destruct (H12 a g1 Hne Ha) as (g2 & Ha2 & E2).
  destruct (H23 a g2 Hne Ha2) as (g3 & Ha3 & E3).
  eauto using same_but_links_trans.
Qed.

(** One round of the loop of [case tATLEAST]. *)
Lemma atleast_remove_step_run (s : BC) (this e c : nat) (n : Z) (gs cg : Gate) :
  gates s !! this = Some gs -> gates s !! c = Some cg -> c <> this ->
  atleast_remove_step this n (e, c) s =
    Ok (if determined cg then inl n else inl (u32 (n + 1)),
        if determined cg then
          let gs' := if value cg
                     then set_tmin (if tmin gs =? 0 then 0 else tmin gs - 1) gs
                     else gs in
          set_gates (<[c := set_parents (unlink e (parents cg)) cg]>
                       (<[this := set_children (unlink e (children gs')) gs']>
                          (gates s))) s
        else s).
Proof.
  intros Hthis Hcg Hne. unfold atleast_remove_step, st_bind.
  rewrite (gate_run s c cg Hcg).
  destruct (determined cg); cbn [negb]; [|reflexivity].
  destruct (value cg); cbn [eqb].
  - rewrite (modify_run s this gs _ Hthis).
    set (gs' := set_tmin _ gs).
    rewrite (delete_assoc_run _ e this c gs' cg); [| | |exact Hne].
    + unfold set_gates. simpl. rewrite insert_insert_eq. reflexivity.
    + simpl. rewrite lookup_insert_eq. reflexivity.
    + simpl. rewrite lookup_insert_ne by auto. exact Hcg.
  - rewrite (delete_assoc_run s e this c gs cg Hthis Hcg Hne). reflexivity.
Qed.

(** The loop of [case tATLEAST] that removes the determined children. *)
Lemma atleast_remove_loop (bc : BC) (this : nat) (g : Gate) :
  forall (l pre : list (nat * nat)) (s : BC) (n L : Z),
  gates s !! this = Some (set_tmin L (set_children (pre ++ l) g)) ->
  NoDup (map fst (pre ++ l)) ->
  (forall c, c ∈ map snd l -> c <> this /\ is_Some (gates bc !! c)) ->
  others_kept this bc s ->
  0 <= n -> n + Z.of_nat (length l) < 2 ^ 32 ->
  exists s',
    loop l n (atleast_remove_step this) s =
      Ok (inl (n + Z.of_nat (length (atleast_rest (gates bc) l))), s') /\
    gates s' !! this =
      Some (set_tmin (atleast_bound (gates bc) l L)
                     (set_children (pre ++ atleast_rest (gates bc) l) g)) /\
    others_kept this bc s'.
Proof.
  induction l as [|[e c] l IH]; intros pre s n L Hthis Hnd Hch Hk Hn Hlen.
  - exists s. simpl. rewrite Z.add_0_r. auto.
  - destruct (Hch c) as [Hne [cg Hcg]]; [simpl; left|].
    destruct (Hk c cg Hne Hcg) as (cg' & Hcg' & Hsame).
    destruct (same_but_links_fields _ _ Hsame) as (Hd & Hv & _).
    assert (Hch' : forall c0, c0 ∈ map snd l -> c0 <> this /\ is_Some (gates bc !! c0)).
    { intros c0 Hc0. apply Hch. simpl. right. exact Hc0. }
    assert (He : e ∉ map fst pre).
    { rewrite map_app in Hnd. simpl in Hnd. apply NoDup_app in Hnd.
      destruct Hnd as (_ & Hd1 & _). intros Hin. apply (Hd1 e Hin). left. }
    assert (Hnd' : NoDup (map fst (pre ++ l))).
    { rewrite map_app in Hnd |- *. simpl in Hnd. apply NoDup_app in Hnd.
      destruct Hnd as (N1 & N2 & N3). apply NoDup_app. split_and!; auto.
      - intros x Hx Hx'. apply (N2 x Hx). right. exact Hx'.
      - apply NoDup_cons in N3. apply N3. }
    simpl in Hlen.
    cbn [loop].
    rewrite (st_bind_run _ _ _ _ _
               (atleast_remove_step_run s this e c n _ cg' Hthis Hcg' Hne)).
    cbn [atleast_rest List.filter atleast_bound].
    unfold undetermined_in, true_in. cbn [snd]. rewrite Hcg, <- Hd, <- Hv.
    destruct (determined cg') eqn:Edet; cbn [negb andb].
    + (* a determined child *)
      set (L' := if value cg' then (if L =? 0 then 0 else L - 1) else L).
      match goal with |- context [loop l n _ ?s2] => set (s2' := s2) end.
      destruct (IH pre s2' n L') as (s' & Hl & Ht & Hk'); auto; try lia.
      * subst s2'. cbv zeta. simpl. rewrite lookup_insert_ne by auto.
        rewrite lookup_insert_eq. subst L'.
        destruct (value cg'); simpl; rewrite unlink_app by exact He;
          destruct g; reflexivity.
      * intros a ga Hna Ha. destruct (Hk a ga Hna Ha) as (ga' & Ha' & Es).
        subst s2'. cbv zeta. simpl. rewrite lookup_insert. case_decide as E.
        -- subst a. assert (ga' = cg') as -> by congruence.
           eexists. split; [reflexivity|]. apply same_but_links_parents, Es.
        -- rewrite lookup_insert_ne by auto. eauto.
      * exists s'. subst L'. split; [exact Hl|]. split; [|exact Hk'].
        rewrite Ht. destruct (value cg'); reflexivity.
    + (* an undetermined child *)
      destruct (IH (pre ++ [(e, c)]) s (u32 (n + 1)) L) as (s' & Hl & Ht & Hk').
      * rewrite <- app_assoc. exact Hthis.
      * rewrite <- app_assoc. exact Hnd.
      * exact Hch'.
      * exact Hk.
      * apply u32_range.
      * rewrite u32_id by (unfold in_u32; lia). lia.
      * exists s'. split_and!; auto.
        -- rewrite Hl. f_equal. f_equal. f_equal.
           rewrite u32_id by (unfold in_u32; lia).
           unfold atleast_rest, undetermined_in. cbn [length]. lia.
        -- rewrite Ht, <- app_assoc. reflexivity.
Qed.

Lemma same_but_links_bounds (g g' : Gate) :
  same_but_links g g' -> tmin g' = tmin g /\ tmax g' = tmax g.
Proof. unfold same_but_links. intros ->. auto. Qed.

(** [add_in_pstack] changes the place in the stack of its gate only. *)
Lemma add_in_pstack_run (this x : nat) (s : BC) :
  x <> this -> is_Some (gates s !! x) ->
  exists s', add_in_pstack x s = Ok (tt, s') /\
             gates s' !! this = gates s !! this /\ others_kept this s s'.
Proof.
  intros Hne [gx Hx]. unfold add_in_pstack.
  rewrite (st_bind_run _ _ _ _ _ (gate_run s x gx Hx)).
  destruct (in_pstack gx); cbn [negb].
  - exists s. split; [reflexivity|]. split; [reflexivity|apply others_kept_refl].
  - rewrite (st_bind_run _ _ _ _ _ (modify_run s x gx _ Hx)).
    eexists. split; [reflexivity|]. simpl. split.
    + rewrite lookup_insert_ne by auto. reflexivity.
    + intros a ga Hna Ha. simpl. rewrite lookup_insert. case_decide as E.
      * subst a. assert (ga = gx) as -> by congruence.
        eexists. split; [reflexivity|].
        apply same_but_links_in_pstack, same_but_links_refl.
      * exists ga. split; [exact Ha|apply same_but_links_refl].
Qed.

Lemma others_kept_is_Some (this : nat) (s s' : BC) (a : nat) :
  others_kept this s s' -> a <> this -> is_Some (gates s !! a) ->
  is_Some (gates s' !! a).
Proof. intros Hk Hne [ga Ha]. destruct (Hk a ga Hne Ha) as (ga' & Ha' & _). eauto. Qed.

(** The loops of [add_parents_in_pstack] and the like, over gates other
    than [this]. *)
Lemma add_in_pstack_loop (this : nat) (l : list (nat * nat)) :
  forall s : BC,
  (forall x, x ∈ map snd l -> x <> this /\ is_Some (gates s !! x)) ->
  exists s', for_each l (fun pa => add_in_pstack (snd pa)) s = Ok (tt, s') /\
             gates s' !! this = gates s !! this /\ others_kept this s s'.
Proof.
  induction l as [|[e x] l IH]; intros s Hl.
  - exists s. split; [reflexivity|]. split; [reflexivity|apply others_kept_refl].
  - destruct (Hl x) as [Hne Hx]; [simpl; left|].
    destruct (add_in_pstack_run this x s Hne Hx) as (s1 & H1 & Ht1 & Hk1).
    destruct (IH s1) as (s2 & H2 & Ht2 & Hk2).
    { intros y Hy. destruct (Hl y) as [Hny Hy']; [simpl; right; exact Hy|].
      split; [exact Hny|]. eapply others_kept_is_Some; eassumption. }
    exists s2. cbn [for_each snd]. rewrite (st_bind_run _ _ _ _ _ H1).
    split; [exact H2|]. split; [congruence|].
    eapply others_kept_trans; eassumption.
Qed.

Lemma add_parents_in_pstack_run (this : nat) (s : BC) (gs : Gate) :
  gates s !! this = Some gs ->
  (forall p, p ∈ map snd (parents gs) -> p <> this /\ is_Some (gates s !! p)) ->
  exists s', add_parents_in_pstack this s = Ok (tt, s') /\
             gates s' !! this = Some gs /\ others_kept this s s'.
Proof.
  intros Hthis Hp. unfold add_parents_in_pstack.
  rewrite (st_bind_run _ _ _ _ _ (gate_run s this gs Hthis)).
  destruct (add_in_pstack_loop this (parents gs) s Hp) as (s' & H & Ht & Hk).
  exists s'. split; [exact H|]. split; [congruence|exact Hk].
Qed.

(** The loop of [transform_into_constant] that unlinks the children. *)
Lemma unlink_children_loop (this : nat) (g0 : Gate) :
  forall (l : list (nat * nat)) (s : BC) (fuel : nat),
  (length l <= fuel)%nat ->
  gates s !! this = Some (set_children l g0) ->
  (forall c, c ∈ map snd l -> c <> this /\ is_Some (gates s !! c)) ->
  exists s',
    while_head (R := unit) fuel
      (let* g := gate this in st_ret (head (children g)))
      (fun ca => delete_assoc (fst ca) this (snd ca);;
                 add_in_pstack_if_no_parents (snd ca);;
                 st_ret None) s = Ok (None, s') /\
    gates s' !! this = Some (set_children [] g0) /\ others_kept this s s'.
Proof.
  induction l as [|[e c] l IH]; intros s fuel Hf Hthis Hl.
  - exists s. split; [|split; [exact Hthis|apply others_kept_refl]].
    destruct fuel; cbn [while_head];
      rewrite (st_bind_run _ _ _ _ _ (st_bind_run _ _ _ _ _ (gate_run s this _ Hthis)));
      reflexivity.
  - destruct fuel as [|fuel]; [simpl in Hf; lia|].
    destruct (Hl c) as [Hne [cg Hcg]]; [simpl; left|].
    cbn [while_head].
    rewrite (st_bind_run _ _ _ _ _ (st_bind_run _ _ _ _ _ (gate_run s this _ Hthis))).
    cbn [children set_children head]. cbv beta iota. cbn [fst snd].
    pose proof (delete_assoc_run s e this c _ cg Hthis Hcg Hne) as Hdel.
    revert Hdel. set (s1 := set_gates _ s). intros Hdel.
    assert (Ht1 : gates s1 !! this = Some (set_children l g0)).
    { subst s1. simpl. rewrite lookup_insert_ne by auto. rewrite lookup_insert_eq.
      simpl. rewrite Nat.eqb_refl. destruct g0; reflexivity. }
    assert (Hk1 : others_kept this s s1).
    { intros a ga Hna Ha. subst s1. simpl. rewrite lookup_insert. case_decide as E.
      - subst a. assert (ga = cg) as -> by congruence. eexists.
        split; [reflexivity|]. apply same_but_links_parents, same_but_links_refl.
      - rewrite lookup_insert_ne by auto. exists ga.
        split; [exact Ha|apply same_but_links_refl]. }
    assert (Hc1 : is_Some (gates s1 !! c)).
    { eapply others_kept_is_Some; eauto. }
    assert (Hstep : exists s2, add_in_pstack_if_no_parents c s1 = Ok (tt, s2) /\
                      gates s2 !! this = gates s1 !! this /\ others_kept this s1 s2).
    { unfold add_in_pstack_if_no_parents, no_parents.
      destruct Hc1 as [cg1 Hcg1].
      rewrite (st_bind_run _ _ _ _ _ (st_bind_run _ _ _ _ _ (gate_run s1 c cg1 Hcg1))).
      destruct (parents cg1).
      - apply add_in_pstack_run; eauto.
      - exists s1. split; [reflexivity|]. split; [reflexivity|apply others_kept_refl]. }
    destruct Hstep as (s2 & H2 & Ht2 & Hk2).
    assert (Hbody : (delete_assoc e this c;; add_in_pstack_if_no_parents c;;
                     st_ret (A := option unit) None) s = Ok (None, s2)).
    { rewrite (st_bind_run _ _ _ _ _ Hdel), (st_bind_run _ _ _ _ _ H2). reflexivity. }
    rewrite (st_bind_run _ _ _ _ _ Hbody).
    destruct (IH s2 fuel) as (s' & Hw & Ht & Hk).
    + simpl in Hf. lia.
    + congruence.
    + intros c0 Hc0. destruct (Hl c0) as [Hn0 H0]; [simpl; right; exact Hc0|].
      split; [exact Hn0|].
      eapply others_kept_is_Some; [exact Hk2|exact Hn0|].
      eapply others_kept_is_Some; eauto.
    + exists s'. split; [exact Hw|]. split; [exact Ht|].
      eapply others_kept_trans; [exact Hk1|].
      eapply others_kept_trans; eassumption.
Qed.

Lemma transform_into_constant_run (this : nat) (v : bool) (s : BC) (gs : Gate) :
  gates s !! this = Some gs -> (determined gs = true -> value gs = v) ->
  (forall c, c ∈ map snd (children gs) -> c <> this /\ is_Some (gates s !! c)) ->
  exists s', transform_into_constant this v s = Ok (tt, s') /\
    gates s' !! this =
      Some (set_children [] (set_type (if v then tTRUE else tFALSE) (set_value v gs))) /\
    others_kept this s s'.
Proof.
  intros Hthis Hv Hch. unfold transform_into_constant.
  rewrite (st_bind_run _ _ _ _ _ (gate_run s this gs Hthis)).
  set (g0 := set_type (if v then tTRUE else tFALSE) (set_value v gs)).
  assert (Hfirst : exists s0 s1,
            (if determined gs then st_assert (eqb (value gs) v)
             else modify this (set_value v)) s = Ok (tt, s0) /\
            modify this (fun g => set_type (if value g then tTRUE else tFALSE) g) s0
            = Ok (tt, s1) /\
            gates s1 !! this = Some (set_children (children gs) g0) /\
            (forall a, a <> this -> gates s1 !! a = gates s !! a)).
  { destruct (determined gs) eqn:Ed.
    - rewrite (Hv eq_refl), eqb_reflx. unfold st_assert, st_ret.
      eexists. eexists. split; [reflexivity|].
      rewrite (modify_run s this gs _ Hthis). split; [reflexivity|].
      simpl. split.
      + rewrite lookup_insert_eq. subst g0. specialize (Hv eq_refl).
        destruct gs; simpl in *; subst; reflexivity.
      + intros a Ha. rewrite lookup_insert_ne by auto. reflexivity.
    - rewrite (modify_run s this gs _ Hthis).
      eexists. eexists. split; [reflexivity|].
      erewrite modify_run; [|simpl; apply lookup_insert_eq].
      split; [reflexivity|]. simpl. split.
      + rewrite lookup_insert_eq. subst g0. destruct gs; reflexivity.
      + intros a Ha. rewrite !lookup_insert_ne by auto. reflexivity. }
  destruct Hfirst as (s0 & s1 & H0 & H1 & Ht1 & Ho1).
  assert (Hloop : exists s2,
            while_children (R := unit) this
              (fun ca => delete_assoc (fst ca) this (snd ca);;
                         add_in_pstack_if_no_parents (snd ca);;
                         st_ret None) s1 = Ok (None, s2) /\
            gates s2 !! this = Some (set_children [] g0) /\ others_kept this s1 s2).
  { unfold while_children.
    rewrite (st_bind_run _ _ _ _ _ (gate_run s1 this _ Ht1)).
    apply (unlink_children_loop this g0 (children gs)); auto.
    intros c Hc. destruct (Hch c Hc) as [Hne Hs]. split; [exact Hne|].
    rewrite (Ho1 c Hne). exact Hs. }
  destruct Hloop as (s2 & H2 & Ht2 & Hk2).
  rewrite (st_bind_run _ _ _ _ _ H0), (st_bind_run _ _ _ _ _ H1),
    (st_bind_run _ _ _ _ _ H2).
  eexists. split; [reflexivity|].
  simpl. split; [exact Ht2|].
  intros a ga Hna Ha. apply (Hk2 a ga Hna). rewrite (Ho1 a Hna). exact Ha.
Qed.

Lemma atleast_bound_nonneg (hp : heap) (l : list (nat * nat)) (L : Z) :
  0 <= L -> 0 <= atleast_bound hp l L.
Proof.
  revert L. induction l as [|ca l IH]; intros L HL; simpl; [exact HL|].
  apply IH. destruct (true_in hp ca); [|exact HL].
  destruct (Z.eqb_spec L 0); lia.
Qed.

Lemma atleast_rest_incl (hp : heap) (l : list (nat * nat)) (c : nat) :
  c ∈ map snd (atleast_rest hp l) -> c ∈ map snd l.
Proof.
  unfold atleast_rest. intros H. apply list_elem_of_In in H. apply list_elem_of_In.
  apply in_map_iff in H. destruct H as (x & <- & Hx). apply filter_In in Hx.
  apply in_map. apply Hx.
Qed.

Lemma atleast_rest_length (hp : heap) (l : list (nat * nat)) :
  (length (atleast_rest hp l) <= length l)%nat.
Proof.
  unfold atleast_rest. induction l as [|x l IH]; simpl; [lia|].
  destruct (undetermined_in hp x); simpl; lia.
Qed.

(** [constant_unless_conflict] on the gate in hand. *)
Lemma constant_unless_conflict_run (this : nat) (v : bool) (s : BC) (gs : Gate) :
  gates s !! this = Some gs ->
  (forall c, c ∈ map snd (children gs) -> c <> this /\ is_Some (gates s !! c)) ->
  (forall p, p ∈ map snd (parents gs) -> p <> this /\ is_Some (gates s !! p)) ->
  exists r s' g', constant_unless_conflict this v s = Ok (r, s') /\
    gates s' !! this = Some g' /\
    if determined gs && negb (eqb (value gs) v) then r = false /\ g' = gs
    else r = true /\ type g' = (if v then tTRUE else tFALSE) /\
         determined g' = true /\ value g' = v /\ children g' = [].
Proof.
  intros Hthis Hch Hp. unfold constant_unless_conflict.
  rewrite (st_bind_run _ _ _ _ _ (gate_run s this gs Hthis)).
  destruct (determined gs && negb (eqb (value gs) v)) eqn:E.
  - exists false, s, gs. auto.
  - destruct (transform_into_constant_run this v s gs Hthis) as (s1 & H1 & Ht1 & Hk1);
      [|exact Hch|].
    { intros Hd. rewrite Hd in E. simpl in E. apply negb_false_iff in E.
      apply eqb_prop in E. exact E. }
    destruct (add_parents_in_pstack_run this s1 _ Ht1) as (s2 & H2 & Ht2 & Hk2).
    { intros p Hpin. destruct (Hp p Hpin) as [Hne Hs]. split; [exact Hne|].
      eapply others_kept_is_Some; eassumption. }
    rewrite (st_bind_run _ _ _ _ _ H1), (st_bind_run _ _ _ _ _ H2).
    eexists. eexists. eexists. split; [reflexivity|]. split; [exact Ht2|].
    simpl. destruct v; auto.
Qed.

Lemma add_in_pstack_self (this : nat) (s : BC) (gs : Gate) :
  gates s !! this = Some gs ->
  exists s' g', add_in_pstack this s = Ok (tt, s') /\
                gates s' !! this = Some g' /\ same_but_links gs g'.
Proof.
  intros Hthis. unfold add_in_pstack.
  rewrite (st_bind_run _ _ _ _ _ (gate_run s this gs Hthis)).
  destruct (in_pstack gs); cbn [negb].
  - exists s, gs. split; [reflexivity|]. split; [exact Hthis|apply same_but_links_refl].
  - rewrite (st_bind_run _ _ _ _ _ (modify_run s this gs _ Hthis)).
    eexists. eexists. split; [reflexivity|]. simpl.
    split; [apply lookup_insert_eq|].
    apply same_but_links_in_pstack, same_but_links_refl.
Qed.

Lemma st_bind_ret {A B : Type} (a : A) (k : A -> M B) (s : BC) :
  st_bind (st_ret a) k s = k a s.
Proof. reflexivity. Qed.

(** [case tATLEAST] of [simplify]. *)
Lemma simplify_ATLEAST_run (bc : BC) (this : nat) (g : Gate) :
  atleast_ready bc this g ->
  let rest := atleast_rest (gates bc) (children g) in
  let L := atleast_bound (gates bc) (children g) (tmin g) in
  let n := Z.of_nat (length rest) in
  exists r bc' g',
    simplify_ATLEAST this bc = Ok (r, bc') /\ gates bc' !! this = Some g' /\
    if L =? 0 then
      if determined g && negb (value g) then r = false /\ type g' = tATLEAST
      else r = true /\ type g' = tTRUE /\ determined g' = true /\
           value g' = true /\ children g' = []
    else if n <? L then
      if determined g && value g then r = false /\ type g' = tATLEAST
      else r = true /\ type g' = tFALSE /\ determined g' = true /\
           value g' = false /\ children g' = []
    else if L =? n then
      r = true /\ type g' = tAND /\ children g' = rest /\ tmin g' = 0 /\ tmax g' = 0
    else
      r = true /\ type g' = tATLEAST /\ children g' = rest /\ tmin g' = L.
Proof.
  intros (Hthis & Hty & Halive & Hnd & Hch & Hp & Hlen & Hmin) rest L n.
  unfold simplify_ATLEAST.
  rewrite (st_bind_run _ _ _ _ _ (gate_run bc this g Hthis)).
  destruct (atleast_remove_loop bc this g (children g) [] bc 0 (tmin g))
    as (s1 & Hloop & Ht1 & Hk1).
  { simpl. rewrite Hthis. destruct g; reflexivity. }
  { exact Hnd. }
  { exact Hch. }
  { apply others_kept_refl. }
  { lia. }
  { lia. }
  rewrite (st_bind_run _ _ _ _ _ Hloop). cbv beta iota.
  fold rest L in Ht1. simpl app in Ht1. fold rest. fold n. rewrite Z.add_0_l.
  set (g1 := set_tmin L (set_children rest g)) in *.
  rewrite (st_bind_run _ _ _ _ _ (gate_run s1 this g1 Ht1)).
  assert (HL : 0 <= L) by (apply atleast_bound_nonneg, Hmin).
  assert (Hch1 : forall c, c ∈ map snd (children g1) ->
                   c <> this /\ is_Some (gates s1 !! c)).
  { intros c Hc. simpl in Hc. apply atleast_rest_incl in Hc.
    destruct (Hch c Hc) as [Hne Hs]. split; [exact Hne|].
    eapply others_kept_is_Some; eassumption. }
  assert (Hp1 : forall p, p ∈ map snd (parents g1) ->
                  p <> this /\ is_Some (gates s1 !! p)).
  { intros p Hpin. simpl in Hpin. destruct (Hp p Hpin) as [Hne Hs].
    split; [exact Hne|]. eapply others_kept_is_Some; eassumption. }
  change (tmin g1) with L.
  destruct (L =? 0) eqn:E0.
  - destruct (constant_unless_conflict_run this true s1 g1 Ht1 Hch1 Hp1)
      as (r & s' & g' & Hrun & Hg' & Hres).
    exists r, s', g'. split; [exact Hrun|]. split; [exact Hg'|].
    change (determined g1) with (determined g) in Hres.
    change (value g1) with (value g) in Hres.
    replace (eqb (value g) true) with (value g) in Hres by (destruct (value g); reflexivity).
    destruct (determined g && negb (value g)).
    + destruct Hres as [-> ->]. split; [reflexivity|exact Hty].
    + exact Hres.
  - destruct (n <? L) eqn:En.
    + destruct (constant_unless_conflict_run this false s1 g1 Ht1 Hch1 Hp1)
        as (r & s' & g' & Hrun & Hg' & Hres).
      exists r, s', g'. split; [exact Hrun|]. split; [exact Hg'|].
      change (determined g1) with (determined g) in Hres.
      change (value g1) with (value g) in Hres.
      replace (negb (eqb (value g) false)) with (value g) in Hres
        by (destruct (value g); reflexivity).
      destruct (determined g && value g).
      * destruct Hres as [-> ->]. split; [reflexivity|exact Hty].
      * exact Hres.
    + apply Z.ltb_ge in En. apply Z.eqb_neq in E0.
      assert (Ele : (L <=? n) = true) by (apply Z.leb_le; lia).
      rewrite Ele. unfold st_assert at 1. rewrite st_bind_ret.
      assert (Hne : (match children g1 with [] => false | _ :: _ => true end) = true).
      { simpl. fold rest. destruct rest; [simpl in n; lia|reflexivity]. }
      rewrite Hne. unfold st_assert at 1. rewrite st_bind_ret.
      destruct (L =? n) eqn:Eq.
      * rewrite (st_bind_run _ _ _ _ _ (modify_run s1 this g1 _ Ht1)).
        set (s2 := set_gates _ s1).
        assert (Ht2 : gates s2 !! this = Some (become tAND g1)).
        { subst s2. simpl. apply lookup_insert_eq. }
        destruct (add_in_pstack_self this s2 _ Ht2) as (s3 & g3 & H3 & Ht3 & E3).
        cbv beta. rewrite (st_bind_run _ _ _ _ _ H3).
        exists true, s3, g3. split; [reflexivity|]. split; [exact Ht3|].
        destruct (same_but_links_fields _ _ E3) as (_ & _ & Et & Ec).
        destruct (same_but_links_bounds _ _ E3) as (Emin & Emax).
        rewrite Et, Ec, Emin, Emax. simpl. auto.
      * exists true, s1, g1. split; [reflexivity|]. split; [exact Ht1|].
        simpl. auto.
Qed.

(** C6: when [simplify] processes an ATLEAST gate that is in use, it
    removes the determined children, decrementing the bound [L] (down to
    zero) for each true child.  Then, with [n] children left: if [L = 0]
    the gate becomes the constant TRUE, if [L > n] the constant FALSE
    (unless the gate is determined to the other value: then the result is
    [false]); if [L = n] it becomes an AND over the children left, with
    the bounds reset; and otherwise, also when [L = 1], it stays an
    ATLEAST gate with the bound [L] over the children left.  The rule
    from [L = 1] to OR is one of [cnf_normalize], which keeps all the
    children. *)
Theorem atleast_simplification (ops : BCOps) (this : nat) (flag : bool) (bc : BC)
    (g : Gate) :
  atleast_ready bc this g ->
  let rest := atleast_rest (gates bc) (children g) in
  let L := atleast_bound (gates bc) (children g) (tmin g) in
  let n := Z.of_nat (length rest) in
  (exists r bc' g',
     simplify ops this flag bc = Ok (r, bc') /\ gates bc' !! this = Some g' /\
     if L =? 0 then
       if determined g && negb (value g) then r = false /\ type g' = tATLEAST
       else r = true /\ type g' = tTRUE /\ determined g' = true /\
            value g' = true /\ children g' = []
     else if n <? L then
       if determined g && value g then r = false /\ type g' = tATLEAST
       else r = true /\ type g' = tFALSE /\ determined g' = true /\
            value g' = false /\ children g' = []
     else if L =? n then
       r = true /\ type g' = tAND /\ children g' = rest /\ tmin g' = 0 /\ tmax g' = 0
     else
       r = true /\ type g' = tATLEAST /\ children g' = rest /\ tmin g' = L) /\
  (tmin g = 1 -> children g <> [] ->
   exists bc' g',
     cnf_normalize ops this bc = Ok (true, bc') /\ gates bc' !! this = Some g' /\
     type g' = tOR /\ children g' = children g /\ tmin g' = 0).
Proof.
  intros Hready rest L n. pose proof Hready as (Hthis & Hty & Halive & _ & _ & _ & Hlen & _).
  split.
  - destruct (simplify_ATLEAST_run bc this g Hready) as (r & bc' & g' & Hrun & Hres).
    exists r, bc', g'. split; [|exact Hres].
    unfold simplify. rewrite (st_bind_run _ _ _ _ _ (gate_run bc this g Hthis)).
    rewrite Hty. cbn [is_type bool_decide decide_rel]. simpl.
    destruct (parents g) eqn:Ep, (handles g) eqn:Eh, (determined g) eqn:Ed;
      try exact Hrun.
    destruct Halive as [H|[H|H]]; congruence.
  - intros Hone Hne. unfold cnf_normalize.
    rewrite (st_bind_run _ _ _ _ _ (gate_run bc this g Hthis)).
    rewrite Hty. simpl. unfold cnf_normalize_ATLEAST, count_children_of.
    rewrite (st_bind_run _ _ _ _ _ (st_bind_run _ _ _ _ _ (gate_run bc this g Hthis))).
    rewrite (st_bind_run _ _ _ _ _ (gate_run bc this g Hthis)).
    assert (Hc : (count_children g <? 1) = false).
    { unfold count_children. rewrite u32_id by (unfold in_u32; lia).
      apply Z.ltb_ge. destruct (children g); [congruence|simpl length; lia]. }
    rewrite Hone. change (1 =? 0) with false. cbv iota. rewrite Hc.
    change (1 =? 1) with true. cbv iota.
    rewrite (st_bind_run _ _ _ _ _ (modify_run bc this g _ Hthis)).
    set (s1 := set_gates _ bc).
    assert (Ht1 : gates s1 !! this = Some (set_tmin 0 (set_type tOR g))).
    { subst s1. simpl. apply lookup_insert_eq. }
    destruct (add_in_pstack_self this s1 _ Ht1) as (s2 & g2 & H2 & Ht2 & E2).
    cbv beta. rewrite (st_bind_run _ _ _ _ _ H2).
    exists s2, g2. split; [reflexivity|]. split; [exact Ht2|].
    destruct (same_but_links_fields _ _ E2) as (_ & _ & Et & Ec).
    destruct (same_but_links_bounds _ _ E2) as (Emin & _).
    rewrite Et, Ec, Emin. simpl. auto.
Qed.

(** ATLEAST[1] over two free inputs is left as it is by [simplify]: it
    does not become an OR. *)
Lemma atleast_one_stays_atleast :
  simplify ex_ops 2 false ex_atleast_one = Ok (true, ex_atleast_one) /\
  exists g, gates ex_atleast_one !! 2%nat = Some g /\ type g = tATLEAST /\
            type g <> tOR /\ tmin g = 1 /\
            atleast_rest (gates ex_atleast_one) (children g) =
              [(0%nat, 0%nat); (1%nat, 1%nat)].
Proof.
  split; [vm_compute; reflexivity|].
  eexists. split; [reflexivity|]. split; [reflexivity|].
  split; [discriminate|]. split; reflexivity.
Qed.

Lemma ex_atleast_two_ready :
  atleast_ready ex_atleast_two 3
    (set_tmin 2 (set_handles [NameHandle "a"]
       (gate_of tATLEAST 3 [(0%nat, 0%nat); (1%nat, 1%nat); (2%nat, 2%nat)]))).
Proof.
  unfold atleast_ready. split_and!.
  - reflexivity.
  - reflexivity.
  - right. left. discriminate.
  - simpl. repeat (apply NoDup_cons_2; [rewrite ?elem_of_cons, elem_of_nil; lia|]).
    apply NoDup_nil_2.
  - intros c Hc. cbv in Hc.
    repeat (apply elem_of_cons in Hc; destruct Hc as [->|Hc];
            [split; [lia|vm_compute; eauto]|]).
    apply elem_of_nil in Hc. destruct Hc.
  - intros p Hp. simpl in Hp. apply elem_of_nil in Hp. destruct Hp.
  - simpl. lia.
  - simpl. lia.
Qed.

Lemma atleast_simplification_witness :
  (exists r bc' g',
     simplify ex_ops 3 false ex_atleast_two = Ok (r, bc') /\
     gates bc' !! 3%nat = Some g' /\
     r = true /\ type g' = tATLEAST /\
     children g' = [(0%nat, 0%nat); (2%nat, 2%nat)] /\ tmin g' = 1).
Proof.
  destruct (atleast_simplification ex_ops 3 false ex_atleast_two _ ex_atleast_two_ready)
    as [(r & bc' & g' & Hrun & Hg' & Hres) _].
  exists r, bc', g'. split; [exact Hrun|]. split; [exact Hg'|]. exact Hres.
Defined.

(** ** Steps that leave the type and the mark of a gate alone *)

Section Fixes.

Context (this : nat).

Lemma gate_kept_refl (s : BC) : gate_kept this s s.
Proof. intros g Hg. eauto. Qed.

Lemma gate_kept_trans (s1 s2 s3 : BC) :
  gate_kept this s1 s2 -> gate_kept this s2 s3 -> gate_kept this s1 s3.
Proof.
  intros H12 H23 g1 H1. destruct (H12 g1 H1) as (g2 & H2 & T2 & M2).
  destruct (H23 g2 H2) as (g3 & H3 & T3 & M3). exists g3. split; [exact H3|].
  split; congruence.
Qed.

Lemma gate_kept_gates (s s' : BC) : gates s' = gates s -> gate_kept this s s'.
Proof. intros E g Hg. rewrite E. eauto. Qed.

Lemma fixes_ret {A : Type} (a : A) : fixes this (st_ret a).
Proof. intros s r s' [= _ <-]. apply gate_kept_refl. Qed.

Lemma fixes_fail {A : Type} (e : error) : fixes this (st_fail (A := A) e).
Proof. intros s r s' H. discriminate H. Qed.

Lemma fixes_readonly {A : Type} (m : M A) : readonly m -> fixes this m.
Proof. intros H s r s' E. rewrite (H _ _ _ E). apply gate_kept_refl. Qed.

Lemma fixes_bind {A B : Type} (m : M A) (k : A -> M B) :
  fixes this m -> (forall a, fixes this (k a)) -> fixes this (st_bind m k).
Proof.
  intros Hm Hk s r s' H. apply st_bind_Ok in H. destruct H as (a & s1 & H1 & H2).
  eapply gate_kept_trans; [eapply Hm, H1 | eapply Hk, H2].
Qed.

(** An update of another gate, or one that leaves [type] and [temp]. *)
Lemma fixes_modify (a : nat) (f : Gate -> Gate) :
  (a = this -> forall g, type (f g) = type g /\ temp (f g) = temp g) ->
  fixes this (modify a f).
Proof.
  intros Hf s r s' H. apply modify_Ok in H. destruct H as (ga & Ha & ->).
  intros g Hg. cbn. destruct (decide (a = this)) as [->|Hne].
  - rewrite lookup_insert_eq. rewrite Ha in Hg. injection Hg as <-.
    eexists. split; [reflexivity|]. apply Hf. reflexivity.
  - rewrite lookup_insert_ne by auto. eauto.
Qed.

Lemma fixes_for_each {X : Type} (l : list X) (body : X -> M unit) :
  (forall x, fixes this (body x)) -> fixes this (for_each l body).
Proof.
  intros Hb. induction l as [|x l IH]; cbn [for_each].
  - apply fixes_ret.
  - apply fixes_bind; [apply Hb | intros _; exact IH].
Qed.

Lemma fixes_while_head {X R : Type} (fuel : nat) (head : M (option X))
    (body : X -> M (option R)) :
  fixes this head -> (forall x, fixes this (body x)) ->
  fixes this (while_head fuel head body).
Proof.
  intros Hh Hb. induction fuel as [|fuel IH]; cbn [while_head].
  - apply fixes_bind; [exact Hh|]. intros [x|]; [apply fixes_fail | apply fixes_ret].
  - apply fixes_bind; [exact Hh|]. intros [x|]; [|apply fixes_ret].
    apply fixes_bind; [apply Hb|]. intros [r|]; [apply fixes_ret | exact IH].
Qed.

Lemma fixes_collect {X A : Type} (l : list X) (body : X -> M A) :
  (forall x, fixes this (body x)) -> fixes this (collect l body).
Proof.
  intros Hb. induction l as [|x l IH]; cbn [collect].
  - apply fixes_ret.
  - apply fixes_bind; [apply Hb|]. intros a.
    apply fixes_bind; [exact IH|]. intros r. apply fixes_ret.
Qed.

Lemma fixes_while_children {R : Type} (a : nat) (body : nat * nat -> M (option R)) :
  (forall x, fixes this (body x)) -> fixes this (while_children a body).
Proof.
  intros Hb. unfold while_children.
  apply fixes_bind; [apply fixes_readonly, readonly_gate|]. intros g.
  apply fixes_while_head; [|exact Hb].
  apply fixes_readonly, readonly_bind; [apply readonly_gate | intros; apply readonly_ret].
Qed.

Lemma fixes_while_parents {R : Type} (a : nat) (body : nat * nat -> M (option R)) :
  (forall x, fixes this (body x)) -> fixes this (while_parents a body).
Proof.
  intros Hb. unfold while_parents.
  apply fixes_bind; [apply fixes_readonly, readonly_gate|]. intros g.
  apply fixes_while_head; [|exact Hb].
  apply fixes_readonly, readonly_bind; [apply readonly_gate | intros; apply readonly_ret].
Qed.

Lemma fixes_next_edge :
  fixes this (fun bc => Ok (next_edge bc, set_next_edge (S (next_edge bc)) bc)).
Proof. intros s r s' [= _ <-]. apply gate_kept_gates. reflexivity. Qed.

Lemma fixes_set_pstack (l : BC -> list nat) :
  fixes this (fun bc => Ok (tt, set_pstack (l bc) bc)).
Proof. intros s r s' [= _ <-]. apply gate_kept_gates. reflexivity. Qed.

Ltac fixes_field :=
  intros _ ?g; split; reflexivity.

Lemma fixes_add_child (a c : nat) : fixes this (add_child a c).
Proof.
  unfold add_child, link_parent, link_child.
  apply fixes_bind; [apply fixes_next_edge|]. intros e.
  apply fixes_bind; [apply fixes_modify; fixes_field|]. intros _.
  apply fixes_modify; fixes_field.
Qed.

Lemma fixes_delete_assoc (e p c : nat) : fixes this (delete_assoc e p c).
Proof.
  unfold delete_assoc, unlink_parent, unlink_child.
  apply fixes_bind; [apply fixes_modify; fixes_field|]. intros _.
  apply fixes_modify; fixes_field.
Qed.

Lemma fixes_change_parent (e p c n : nat) : fixes this (change_parent e p c n).
Proof.
  unfold change_parent, unlink_parent, link_parent.
  apply fixes_bind; [apply fixes_modify; fixes_field|]. intros _.
  apply fixes_bind; [apply fixes_modify; fixes_field|]. intros _.
  apply fixes_modify; fixes_field.
Qed.

Lemma fixes_remove_all_children (a : nat) : fixes this (remove_all_children a).
Proof.
  unfold remove_all_children. apply fixes_bind; [|intros; apply fixes_ret].
  apply fixes_while_children. intros x.
  apply fixes_bind; [apply fixes_delete_assoc | intros; apply fixes_ret].
Qed.

Lemma fixes_hand_children_over (a to : nat) : fixes this (hand_children_over a to).
Proof.
  unfold hand_children_over. apply fixes_bind; [|intros; apply fixes_ret].
  apply fixes_while_children. intros x.
  apply fixes_bind; [apply fixes_add_child|]. intros _.
  apply fixes_bind; [apply fixes_delete_assoc | intros; apply fixes_ret].
Qed.

Lemma fixes_move_children (a p : nat) : fixes this (move_children a p).
Proof.
  unfold move_children. apply fixes_bind; [|intros; apply fixes_ret].
  apply fixes_while_children. intros x.
  apply fixes_bind; [apply fixes_change_parent | intros; apply fixes_ret].
Qed.

Lemma fixes_add_in_pstack (a : nat) : fixes this (add_in_pstack a).
Proof.
  unfold add_in_pstack.
  apply fixes_bind; [apply fixes_readonly, readonly_gate|]. intros g.
  destruct (negb (in_pstack g)); [|apply fixes_ret].
  apply fixes_bind; [apply fixes_modify; fixes_field|]. intros _.
  apply (fixes_set_pstack (fun bc => a :: pstack bc)).
Qed.

Lemma fixes_new_gate (t : GateType) : fixes this (new_gate t).
Proof.
  intros s r s' [= <- <-] g Hg. cbn.
  rewrite lookup_insert_ne; [eauto|]. intros E.
  assert (Hin : this ∈ dom (gates s)) by (apply elem_of_dom; eauto).
  rewrite <- E in Hin. exact (is_fresh _ Hin).
Qed.

Lemma fixes_new_gate1 (t : GateType) (c : nat) : fixes this (new_gate1 t c).
Proof.
  unfold new_gate1. apply fixes_bind; [apply fixes_new_gate|]. intros a.
  apply fixes_bind; [apply fixes_add_child | intros; apply fixes_ret].
Qed.

Lemma fixes_new_gate2 (t : GateType) (c1 c2 : nat) : fixes this (new_gate2 t c1 c2).
Proof.
  unfold new_gate2. apply fixes_bind; [apply fixes_new_gate|]. intros a.
  apply fixes_bind; [apply fixes_add_child|]. intros _.
  apply fixes_bind; [apply fixes_add_child | intros; apply fixes_ret].
Qed.

End Fixes.

(** ** The NOT-less discipline *)

(** [transform_into_constant] leaves a constant. *)
Lemma transform_into_constant_type (this : nat) (v : bool) (s s' : BC) (u : unit) :
  transform_into_constant this v s = Ok (u, s') ->
  exists g', gates s' !! this = Some g' /\ (type g' = tTRUE \/ type g' = tFALSE).
Proof.
  unfold transform_into_constant. intros H.
  apply st_bind_Ok in H. destruct H as (g & s0 & _ & H).
  apply st_bind_Ok in H. destruct H as (u1 & s1 & _ & H).
  apply st_bind_Ok in H. destruct H as (u2 & s2 & Hm & H).
  apply st_bind_Ok in H. destruct H as (r & s3 & Hloop & H).
  apply modify_Ok in Hm. destruct Hm as (g1 & Hg1 & ->).
  assert (K : gate_kept this (set_gates (<[this := set_type (if value g1 then tTRUE
                                                              else tFALSE) g1]>
                                          (gates s1)) s1) s').
  { eapply gate_kept_trans.
    - eapply fixes_while_children; [|exact Hloop]. intros x.
      apply fixes_bind; [apply fixes_delete_assoc|]. intros _.
      apply fixes_bind; [|intros; apply fixes_ret].
      unfold add_in_pstack_if_no_parents.
      apply fixes_bind; [apply fixes_readonly, readonly_no_parents|].
      intros [|]; [apply fixes_add_in_pstack | apply fixes_ret].
    - injection H as _ <-. apply gate_kept_gates. reflexivity. }
  destruct (K _ (lookup_insert_eq _ _ _)) as (g' & Hg' & Et & _).
  exists g'. split; [exact Hg'|]. rewrite Et. cbn. destruct (value g1); auto.
Qed.

(** [cnf_normalize] at a NOT gate: if the gate is still a NOT gate when
    the function has returned [true], it is not determined and its child
    is not a NOT gate. *)
Lemma cnf_normalize_not_child (ops : BCOps) (this : nat) (bc bc' : BC) (g : Gate) :
  gates bc !! this = Some g -> type g = tNOT ->
  cnf_normalize ops this bc = Ok (true, bc') ->
  exists g', gates bc' !! this = Some g' /\
    (type g' = tNOT ->
     determined g' = false /\
     exists c cg, child_gates g' !! 0%nat = Some c /\ gates bc' !! c = Some cg /\
                  type cg <> tNOT).
Proof.
  intros Hg Ht H. unfold cnf_normalize in H.
  rewrite (st_bind_run _ _ _ _ _ (gate_run bc this g Hg)) in H.
  rewrite Ht in H. rewrite (proj2 (is_type_false tNOT tDELETED)) in H by discriminate.
  unfold cnf_normalize_NOT in H.
  apply st_bind_Ok in H. destruct H as (child & s0 & Hchild & H).
  pose proof (readonly_child_at this 0 _ _ _ Hchild) as ->.
  assert (Hnth : child_gates g !! 0%nat = Some child).
  { unfold child_at in Hchild.
    rewrite (st_bind_run _ _ _ _ _ (gate_run bc this g Hg)) in Hchild.
    unfold nth_child in Hchild.
    destruct (child_gates g !! 0%nat) as [c|]; cbn in Hchild; [|discriminate Hchild].
    injection Hchild as <-. reflexivity. }
  rewrite (st_bind_run _ _ _ _ _ (gate_run bc this g Hg)) in H.
  apply st_bind_Ok in H. destruct H as (cg & s1 & Hcg & H).
  apply gate_Ok in Hcg. destruct Hcg as [-> Hcg].
  destruct (determined g) eqn:Hd.
  - destruct (determined cg && eqb (value cg) (value g));
      [injection H as E; discriminate E|].
    do 2 (apply st_bind_Ok in H; destruct H as (? & ? & _ & H)).
    apply st_bind_Ok in H. destruct H as (u & s3 & Htr & H). injection H as <-.
    destruct (transform_into_constant_type _ _ _ _ _ Htr) as (g' & Hg' & Hty).
    exists g'. split; [exact Hg'|]. intros E. rewrite E in Hty.
    destruct Hty; discriminate.
  - destruct (is_type (type cg) tNOT) eqn:En.
    + do 4 (apply st_bind_Ok in H; destruct H as (? & ? & _ & H)).
      apply st_bind_Ok in H. destruct H as (u & s5 & Hm & H). injection H as <-.
      apply modify_Ok in Hm. destruct Hm as (gx & Hgx & ->).
      eexists. split; [cbn; apply lookup_insert_eq|]. intros E. discriminate E.
    + injection H as <-. exists g. split; [exact Hg|]. intros _.
      split; [exact Hd|]. exists child, cg. split; [exact Hnth|].
      split; [exact Hcg|]. apply is_type_false. exact En.
Qed.

Lemma with_notless_literals_lookup (hp : heap) (c : nat) :
  deref (with_notless_literals hp) c =
  do cg <- deref hp c; Ok (set_temp (notless_literal hp cg) cg).
Proof.
  unfold deref, with_notless_literals. rewrite lookup_fmap.
  destruct (hp !! c); reflexivity.
Qed.

(** The literal of a child in the NOT-less translation is its number in
    the circuit of the literals. *)
Lemma child_lit_literal (hp : heap) (c : nat) (l : Z) :
  child_lit hp true c = Ok l ->
  child_lit (with_notless_literals hp) false c = Ok l.
Proof.
  unfold child_lit. rewrite with_notless_literals_lookup.
  destruct (deref hp c) as [cg|e]; cbn; [|discriminate].
  unfold notless_literal, nth_child, deref.
  destruct (is_type (type cg) tNOT); [|auto].
  destruct (child_gates cg !! 0%nat) as [x|]; cbn; [|discriminate].
  destruct (hp !! x) as [xg|]; cbn; [auto | discriminate].
Qed.

Lemma child_neg_lit_literal (hp : heap) (c : nat) (l : Z) :
  child_neg_lit hp true c = Ok l ->
  child_neg_lit (with_notless_literals hp) false c = Ok l.
Proof.
  unfold child_neg_lit. rewrite with_notless_literals_lookup.
  destruct (deref hp c) as [cg|e]; cbn; [|discriminate].
  unfold notless_literal, nth_child, deref.
  destruct (is_type (type cg) tNOT); [|auto].
  destruct (child_gates cg !! 0%nat) as [x|]; cbn; [|discriminate].
  destruct (hp !! x) as [xg|]; cbn; [|discriminate].
  intros [= <-]. rewrite Z.opp_involutive. reflexivity.
Qed.

Lemma map_children_literal (f f' : nat -> result Z) (cs : list nat) (ls : list Z) :
  (forall c l, f c = Ok l -> f' c = Ok l) ->
  map_children f cs = Ok ls -> map_children f' cs = Ok ls.
Proof.
  intros Hf. revert ls. induction cs as [|c cs IH]; intros ls H; cbn in *; [exact H|].
  inv_bind H as l Hl. inv_bind H as ls' Hls. injection H as <-.
  rewrite (Hf _ _ Hl). cbn. rewrite (IH _ Hls). reflexivity.
Qed.

Lemma binary_lits_literal (hp : heap) (g : Gate) (p : Z * Z) :
  binary_lits hp g true = Ok p ->
  binary_lits (with_notless_literals hp) g false = Ok p.
Proof.
  unfold binary_lits. destruct (negb (count_children g =? 2)); [discriminate|].
  intros H. inv_bind H as c1 H1. inv_bind H as c2 H2.
  inv_bind H as l1 Hl1. inv_bind H as l2 Hl2. rewrite H1, H2. cbn.
  rewrite (child_lit_literal _ _ _ Hl1). cbn.
  rewrite (child_lit_literal _ _ _ Hl2). exact H.
Qed.

Lemma ite_lits_literal (hp : heap) (g : Gate) (p : Z * Z * Z) :
  ite_lits hp g true = Ok p ->
  ite_lits (with_notless_literals hp) g false = Ok p.
Proof.
  unfold ite_lits. intros H. inv_bind H as c1 H1. inv_bind H as c2 H2.
  inv_bind H as c3 H3. inv_bind H as l1 Hl1. inv_bind H as l2 Hl2.
  inv_bind H as l3 Hl3. rewrite H1, H2, H3. cbn.
  rewrite (child_lit_literal _ _ _ Hl1). cbn.
  rewrite (child_lit_literal _ _ _ Hl2). cbn.
  rewrite (child_lit_literal _ _ _ Hl3). exact H.
Qed.

(** The clauses of a gate that is not a NOT gate, in the NOT-less
    translation, are the clauses of the plain translation of the circuit of
    the literals. *)
Lemma cnf_get_clauses_literals (hp : heap) (p : nat) (pg : Gate)
    (cls : list (list Z)) :
  hp !! p = Some pg -> type pg <> tNOT ->
  cnf_get_clauses hp p true = Ok cls ->
  cnf_get_clauses (with_notless_literals hp) p false = Ok cls.
Proof.
  intros Hp Hty. unfold cnf_get_clauses.
  rewrite with_notless_literals_lookup, (deref_lookup _ _ _ Hp). cbn.
  assert (Hlit : notless_literal hp pg = temp pg).
  { unfold notless_literal. rewrite (proj2 (is_type_false _ _) Hty). reflexivity. }
  rewrite Hlit.
  replace (set_temp (temp pg) pg) with pg by (destruct pg; reflexivity).
  change (map snd (children pg)) with (child_gates pg).
  destruct (type pg); try (intros H; exact H); try contradiction.
  - (* EQUIV *)
    intros H. inv_bind H as q Hq. rewrite (binary_lits_literal _ _ _ Hq). exact H.
  - (* OR *)
    intros H. inv_bind H as lits Hl. inv_bind H as negs Hn.
    rewrite (map_children_literal _ _ _ _ (child_lit_literal hp) Hl). cbn.
    rewrite (map_children_literal _ _ _ _ (child_neg_lit_literal hp) Hn). exact H.
  - (* AND *)
    intros H. inv_bind H as negs Hn. inv_bind H as lits Hl.
    rewrite (map_children_literal _ _ _ _ (child_neg_lit_literal hp) Hn). cbn.
    rewrite (map_children_literal _ _ _ _ (child_lit_literal hp) Hl). exact H.
  - (* EVEN *)
    intros H. inv_bind H as q Hq. rewrite (binary_lits_literal _ _ _ Hq). exact H.
  - (* ODD *)
    intros H. inv_bind H as q Hq. rewrite (binary_lits_literal _ _ _ Hq). exact H.
  - (* ITE *)
    intros H. inv_bind H as q Hq. rewrite (ite_lits_literal _ _ _ Hq). exact H.
  - (* REF *)
    discriminate.
Qed.

(** [cnf_normalize] at an undetermined NOT gate over a child that is not a
    NOT gate returns [true] and changes nothing. *)
Lemma cnf_normalize_not_stable (ops : BCOps) (this : nat) (bc : BC) (g : Gate)
    (c : nat) (cg : Gate) :
  gates bc !! this = Some g -> type g = tNOT -> determined g = false ->
  child_gates g !! 0%nat = Some c -> gates bc !! c = Some cg -> type cg <> tNOT ->
  cnf_normalize ops this bc = Ok (true, bc).
Proof.
  intros Hg Ht Hd Hc Hcg Hn. unfold cnf_normalize.
  rewrite (st_bind_run _ _ _ _ _ (gate_run bc this g Hg)).
  rewrite Ht. rewrite (proj2 (is_type_false tNOT tDELETED)) by discriminate.
  unfold cnf_normalize_NOT.
  rewrite (st_bind_run _ _ _ _ _ (child_at_run _ _ _ _ _ Hg Hc)).
  rewrite (st_bind_run _ _ _ _ _ (gate_run bc this g Hg)).
  rewrite (st_bind_run _ _ _ _ _ (gate_run bc c cg Hcg)).
  rewrite Hd, (proj2 (is_type_false _ _) Hn). reflexivity.
Qed.


(** The numbering loop returns in the NOT-less translation when every
    relevant NOT gate of the list is undetermined and over a child that is
    not a NOT gate; the counter grows when it visits a relevant gate that
    is not a NOT gate. *)
Lemma renumber_fold_returns (opts : Options) (l : list nat) :
  opt_cnf_notless opts = true ->
  forall hp n,
  (forall a, a ∈ l ->
     exists g, hp !! a = Some g /\
       (type g = tNOT -> temp g <> -1 ->
        determined g = false /\
        exists c cg, child_gates g !! 0%nat = Some c /\
                     hp !! c = Some cg /\ type cg <> tNOT)) ->
  exists hp' n',
    foldM (renumber_step opts) l (hp, n) = Ok (hp', n') /\ n <= n' /\
    ((exists a g, a ∈ l /\ hp !! a = Some g /\ temp g <> -1 /\ type g <> tNOT) ->
     n < n').
Proof.
  intros Hnl. induction l as [|b l IH]; intros hp n Hl.
  - exists hp, n. split; [reflexivity|]. split; [lia|].
    intros (a & g & Hin & _). apply elem_of_nil in Hin. destruct Hin.
  - destruct (Hl b) as (gb & Hb & Hnot); [left|].
    assert (Hstep : exists t n1,
              renumber_step opts (hp, n) b = Ok (<[b := set_temp t gb]> hp, n1) /\
              n <= n1 /\
              (temp gb <> -1 -> type gb <> tNOT -> n < n1) /\
              (type gb = tNOT -> t = -1)).
    { unfold renumber_step. rewrite (deref_lookup _ _ _ Hb). cbn [rbind].
      destruct (Z.eqb_spec (temp gb) (-1)) as [Em|Em].
      - exists (temp gb), n. split_and!; [|lia|contradiction|auto].
        rewrite insert_id; [reflexivity|]. rewrite Hb. destruct gb; reflexivity.
      - rewrite Hnl. cbn [andb]. destruct (is_type (type gb) tNOT) eqn:Et.
        + apply is_type_true in Et.
          destruct (Hnot Et Em) as (Hd & c & cg & Hc & Hcg & Hcn).
          exists (-1), n. rewrite Hd. unfold nth_child. rewrite Hc. simpl.
          rewrite (deref_lookup _ _ _ Hcg). simpl.
          rewrite (proj2 (is_type_false _ _) Hcn). simpl.
          split_and!; [reflexivity|lia|contradiction|auto].
        + apply is_type_false in Et.
          exists (n + 1), (n + 1). split_and!; [reflexivity|lia|lia|contradiction]. }
    destruct Hstep as (t & n1 & Hstep & Hle & Hlt & Ht).
    destruct (IH (<[b := set_temp t gb]> hp) n1) as (hp' & n' & Hrun & Hle' & Hlt').
    { intros a Ha. destruct (Hl a) as (g & Hg & Hn); [right; exact Ha|].
      assert (Hchild : forall c cg, hp !! c = Some cg -> type cg <> tNOT ->
                exists cg', <[b := set_temp t gb]> hp !! c = Some cg' /\
                            type cg' <> tNOT).
      { intros c cg Hcg Hcn. rewrite lookup_insert. case_decide.
        - subst c. assert (cg = gb) as -> by congruence. eauto.
        - eauto. }
      rewrite lookup_insert. case_decide.
      - subst a. assert (g = gb) as -> by congruence.
        exists (set_temp t gb). split; [reflexivity|].
        intros Hty Htemp. simpl in Hty, Htemp. rewrite (Ht Hty) in Htemp.
        contradiction.
      - exists g. split; [exact Hg|]. intros Hty Htemp.
        destruct (Hn Hty Htemp) as (Hd & c & cg & Hc & Hcg & Hcn).
        split; [exact Hd|]. destruct (Hchild c cg Hcg Hcn) as (cg' & Hcg' & Hcn').
        exists c, cg'. auto. }
    exists hp', n'. cbn [foldM]. rewrite Hstep. cbn [rbind].
    split; [exact Hrun|]. split; [lia|].
    intros (a & g & Hin & Hg & Htemp & Hty).
    destruct (decide (a = b)) as [->|Hne].
    + assert (g = gb) as -> by congruence. specialize (Hlt Htemp Hty). lia.
    + apply elem_of_cons in Hin. destruct Hin as [->|Hin]; [contradiction|].
      assert (n1 < n'); [|lia]. apply Hlt'. exists a, g.
      rewrite lookup_insert_ne by auto. auto.
Qed.


Lemma ex_coi_numbering_ready : numbering_ready ex_coi_bc.
Proof.
  split.
  - intros a Ha. cbn in Ha. rewrite !elem_of_cons in Ha.
    destruct Ha as [->|[->|[->|[->|Ha]]]];
      [| | | |apply elem_of_nil in Ha; destruct Ha];
      eexists; (split; [reflexivity|]); intros Ht Hm; try discriminate Ht.
    split; [reflexivity|].
    exists 1%nat, (set_temp 3 (gate_of tVAR 1 [])).
    split_and!; [reflexivity|reflexivity|discriminate].
  - exists 0%nat, (set_temp 1 (gate_of tVAR 0 [])).
    split_and!; [cbn; rewrite !elem_of_cons; auto|reflexivity|discriminate|discriminate].
Qed.


(** ** The polarity analysis returns, and what a call leaves alone *)

Lemma flag_ext_lookup_inv (hp hp' : heap) (b : nat) (g' : Gate) :
  flag_ext hp hp' -> hp' !! b = Some g' ->
  exists g, hp !! b = Some g /\ more_flags g g'.
Proof.
  intros H Hb. specialize (H b). rewrite Hb in H. inversion H; subst. eauto.
Qed.

Lemma more_flags_child_gates (g g' : Gate) :
  more_flags g g' -> child_gates g' = child_gates g.
Proof.
  intros H. apply more_flags_fields in H. destruct H as (_ & Hc & _).
  unfold child_gates. rewrite Hc. reflexivity.
Qed.

Lemma polarity_ready_ext (rank : nat -> nat) (hp hp' : heap) :
  flag_ext hp hp' -> polarity_ready rank hp -> polarity_ready rank hp'.
Proof.
  intros He (Har & Hr & Hcl & Hty). split_and!.
  - intros a g' Hg'. destruct (flag_ext_lookup_inv _ _ _ _ He Hg') as (g & Hg & Hm).
    pose proof (more_flags_fields _ _ Hm) as (Ht & Hc & _).
    unfold arity_ok. rewrite Ht, Hc. exact (Har a g Hg).
  - intros a g' c Hg' Hc.
    destruct (flag_ext_lookup_inv _ _ _ _ He Hg') as (g & Hg & Hm).
    rewrite (more_flags_child_gates _ _ Hm) in Hc. eauto.
  - intros a g' c Hg' Hc.
    destruct (flag_ext_lookup_inv _ _ _ _ He Hg') as (g & Hg & Hm).
    rewrite (more_flags_child_gates _ _ Hm) in Hc.
    destruct (Hcl a g c Hg Hc) as [cg Hcg].
    destruct (flag_ext_lookup _ _ _ _ He Hcg) as (cg' & Hcg' & _). eauto.
  - intros a g' Hg'. destruct (flag_ext_lookup_inv _ _ _ _ He Hg') as (g & Hg & Hm).
    pose proof (more_flags_fields _ _ Hm) as (Ht & _). rewrite Ht. eauto.
Qed.

Lemma reaches_ext (hp hp' : heap) (a b : nat) :
  flag_ext hp hp' -> reaches hp' a b -> reaches hp a b.
Proof.
  intros He. induction 1 as [a|a c b g' Hg' Hc _ IH]; [constructor|].
  destruct (flag_ext_lookup_inv _ _ _ _ He Hg') as (g & Hg & Hm).
  rewrite (more_flags_child_gates _ _ Hm) in Hc.
  econstructor; eassumption.
Qed.

Lemma reaches_rank (rank : nat -> nat) (hp : heap) (a b : nat) :
  ranked rank hp -> reaches hp a b -> (rank b <= rank a)%nat.
Proof.
  intros Hr. induction 1 as [a|a c b g Hg Hc _ IH]; [lia|].
  pose proof (Hr a g c Hg Hc). lia.
Qed.

Lemma count_child_info_returns (hp : heap) (g : Gate) :
  (forall c, c ∈ child_gates g -> is_Some (hp !! c)) ->
  exists info, count_child_info hp g = Ok info.
Proof.
  unfold count_child_info. generalize (0, 0, 0).
  induction (child_gates g) as [|c cs IH]; intros acc Hin; simpl; [eauto|].
  destruct (Hin c) as [cg Hcg]; [left|].
  assert (Hrest : forall c', c' ∈ cs -> is_Some (hp !! c')) by (intros; apply Hin; right; auto).
  unfold count_child_info_step at 1. destruct acc as [[nt nf] nu].
  rewrite (deref_lookup _ _ _ Hcg). simpl.
  destruct (determined cg); [destruct (value cg)|]; simpl; apply IH; exact Hrest.
Qed.

Lemma one_child (g : Gate) :
  length (children g) = 1%nat -> exists c, child_gates g = [c].
Proof.
  unfold child_gates. destruct (children g) as [|x [|]]; try discriminate. eauto.
Qed.

Lemma three_children (g : Gate) :
  length (children g) = 3%nat -> exists i t e, child_gates g = [i; t; e].
Proof.
  unfold child_gates. destruct (children g) as [|x [|y [|z [|]]]]; try discriminate.
  eauto.
Qed.

(** [Gate::is_justified] returns on a circuit that is ready. *)
Lemma is_justified_returns (rank : nat -> nat) (hp : heap) (a : nat) (g : Gate) :
  polarity_ready rank hp -> hp !! a = Some g -> exists b, is_justified hp a = Ok b.
Proof.
  intros (Har & _ & Hcl & Hty) Ha. unfold is_justified.
  rewrite (deref_lookup _ _ _ Ha). simpl.
  destruct (negb (determined g)); [eauto|].
  destruct (count_child_info_returns hp g) as [[[nt nf] nu] ->]; [eauto|]. simpl.
  destruct (Hty a g Ha) as (H1 & H2 & H3). destruct (Har a g Ha) as (_ & _ & Hite).
  destruct (type g) eqn:Ht; try congruence;
    try (solve [repeat match goal with
                       | |- context [if ?b then _ else _] => destruct b
                       end; eauto]).
  (* ITE *)
  destruct (three_children g (Hite eq_refl)) as (i & t & e & Hch).
  unfold nth_child. rewrite Hch. simpl.
  destruct (Hcl a g i Ha) as [ig Hi]; [rewrite Hch, !elem_of_cons; auto|].
  destruct (Hcl a g t Ha) as [tg Htg]; [rewrite Hch, !elem_of_cons; auto|].
  destruct (Hcl a g e Ha) as [eg He]; [rewrite Hch, !elem_of_cons; auto|].
  rewrite (deref_lookup _ _ _ Hi), (deref_lookup _ _ _ Htg), (deref_lookup _ _ _ He).
  simpl.
  repeat match goal with
         | |- context [if ?b then _ else _] => destruct b
         end; eauto.
Qed.

(** A loop of calls that return and keep [Q] returns and keeps [Q]. *)
Lemma foldM_returns (Q : heap -> Prop) (step : heap -> nat -> result heap)
    (cs : list nat) :
  (forall h c, c ∈ cs -> Q h -> exists h', step h c = Ok h' /\ Q h') ->
  forall h, Q h -> exists h', foldM step cs h = Ok h' /\ Q h'.
Proof.
  induction cs as [|c cs IH]; intros Hstep h Hq; simpl; [eauto|].
  destruct (Hstep h c) as (h1 & -> & Hq1); [left|exact Hq|]. simpl.
  apply IH; [|exact Hq1]. intros h0 c0 Hin. apply Hstep. right. exact Hin.
Qed.

(** The [switch] returns and keeps [Q] if the calls on the children do. *)
Lemma mir_switch_returns (Q : heap -> Prop)
    (call : heap -> nat -> bool -> result heap) (g : Gate) (polarity : bool)
    (hp : heap) :
  arity_ok g ->
  type g <> tREF -> type g <> tUNDEF -> type g <> tDELETED ->
  (exists info, count_child_info hp g = Ok info) ->
  (forall h c q, c ∈ child_gates g -> Q h -> exists h', call h c q = Ok h' /\ Q h') ->
  Q hp ->
  exists hp', mir_switch call g polarity hp = Ok hp' /\ Q hp'.
Proof.
  intros (_ & Hone & Hthree) H1 H2 H3 [[[nt nf] nu] Hinfo] Hcall Hq.
  unfold mir_switch.
  assert (Hall : forall q,
             exists h', foldM (fun hp c => call hp c q) (child_gates g) hp = Ok h' /\
                        Q h').
  { intros q. apply foldM_returns; [|exact Hq]. intros h c Hin Hh. auto. }
  assert (Hboth : exists h',
             foldM (fun hp c => do hp' <- call hp c polarity;
                                call hp' c (negb polarity))
                   (child_gates g) hp = Ok h' /\ Q h').
  { apply foldM_returns; [|exact Hq]. intros h c Hin Hh.
    destruct (Hcall h c polarity Hin Hh) as (h1 & -> & Hh1). simpl. auto. }
  rewrite Hinfo. cbn [rbind].
  destruct (type g) eqn:Ht; try congruence; eauto.
  - (* ODD *) destruct (nu =? 1); auto.
  - (* EVEN *) destruct (nu =? 1); auto.
  - (* ITE *)
    destruct (three_children g (Hthree eq_refl)) as (i & t & e & Hch).
    unfold nth_child. rewrite Hch in *. simpl.
    destruct (Hcall hp i polarity) as (h1 & -> & Hq1);
      [rewrite !elem_of_cons; auto|exact Hq|]. simpl.
    destruct (Hcall h1 i (negb polarity)) as (h2 & -> & Hq2);
      [rewrite !elem_of_cons; auto|exact Hq1|]. simpl.
    destruct (Hcall h2 t polarity) as (h3 & -> & Hq3);
      [rewrite !elem_of_cons; auto|exact Hq2|]. simpl.
    apply Hcall; [rewrite !elem_of_cons; auto|exact Hq3].
  - (* NOT *)
    destruct (one_child g (Hone (or_intror eq_refl))) as (c & Hch).
    unfold nth_child. rewrite Hch in *. simpl.
    apply Hcall; [rewrite !elem_of_cons; auto|exact Hq].
  - (* THRESHOLD *)
    destruct polarity;
      (destruct (tmin g <=? nt); [auto|]);
      (destruct ((nt <? tmin g) && (u32 (u32 (nt + nf + nu) - nf) <=? tmax g)); auto).
Qed.

(** The gate with its flag set, in the heap the [switch] runs on. *)
Lemma switch_ready (rank : nat -> nat) (hp : heap) (a : nat) (g : Gate) (p : bool) :
  polarity_ready rank hp -> hp !! a = Some g ->
  polarity_ready rank (<[a := set_mir_flag p g]> hp) /\
  arity_ok (set_mir_flag p g) /\
  (type (set_mir_flag p g) <> tREF /\ type (set_mir_flag p g) <> tUNDEF /\
   type (set_mir_flag p g) <> tDELETED) /\
  (exists info,
     count_child_info (<[a := set_mir_flag p g]> hp) (set_mir_flag p g) = Ok info).
Proof.
  intros Hr Ha.
  pose proof (polarity_ready_ext rank _ _ (flag_ext_insert hp a g p Ha) Hr) as Hr1.
  split; [exact Hr1|]. destruct Hr1 as (Har & _ & Hcl & Hty).
  split; [|split].
  - apply (Har a). apply lookup_insert_eq.
  - apply (Hty a). apply lookup_insert_eq.
  - apply count_child_info_returns. intros c Hc.
    apply (Hcl a (set_mir_flag p g)); [apply lookup_insert_eq|exact Hc].
Qed.

(** On a circuit that is ready a call with fuel above the rank of the gate
    returns, and the gates that are not at or below the gate are not
    touched. *)
Lemma mir_propagate_returns (rank : nat -> nat) (fuel : nat) :
  forall hp a p,
  polarity_ready rank hp -> is_Some (hp !! a) -> (rank a < fuel)%nat ->
  exists hp', mir_propagate_polarity fuel hp a p = Ok hp' /\
    (forall b, ~ reaches hp a b -> hp' !! b = hp !! b).
Proof.
  induction fuel as [|fuel IH]; intros hp a p Hr [g Ha] Hlt; [lia|].
  simpl. rewrite (deref_lookup _ _ _ Ha). simpl.
  assert (Hstop : exists s, mir_stop hp a g p = Ok s).
  { unfold mir_stop. destruct (determined g); [|eauto].
    destruct (negb (eqb (value g) p)); [eauto|].
    eapply is_justified_returns; eassumption. }
  destruct Hstop as [s ->]. simpl. destruct s; [eauto|].
  destruct (mir_flag p g); [eauto|].
  destruct (switch_ready rank hp a g p Hr Ha) as (Hr1 & Har1 & (T1 & T2 & T3) & Hinfo).
  pose proof (flag_ext_insert hp a g p Ha) as He1.
  destruct (mir_switch_returns
              (fun h => flag_ext (<[a := set_mir_flag p g]> hp) h /\
                        forall b, ~ reaches hp a b -> h !! b = hp !! b)
              (mir_propagate_polarity fuel) (set_mir_flag p g) p
              (<[a := set_mir_flag p g]> hp) Har1 T1 T2 T3 Hinfo)
    as (hp' & Hrun & _ & Hframe).
  - intros h c q Hc (Heh & Hfh).
    rewrite (proj2 (set_mir_flag_fields p g)) in Hc.
    destruct Hr as (Har & Hrk & Hcl & Hty).
    destruct (Hcl a g c Ha Hc) as [cg Hcg].
    destruct (flag_ext_lookup _ _ _ _ (flag_ext_trans _ _ _ He1 Heh) Hcg)
      as (cg' & Hcg' & _).
    pose proof (Hrk a g c Ha Hc) as Hlc.
    destruct (IH h c q) as (h' & Hh' & Hfr);
      [eapply polarity_ready_ext; eassumption|eauto|lia|].
    exists h'. split; [exact Hh'|]. split.
    + eapply flag_ext_trans; [exact Heh|]. eapply mir_propagate_flag_ext; eassumption.
    + intros b Hb. rewrite Hfr; [auto|]. intros Hcb. apply Hb.
      econstructor; [exact Ha|exact Hc|].
      eapply reaches_ext; [|exact Hcb]. eapply flag_ext_trans; eassumption.
  - split; [apply flag_ext_refl|]. intros b Hb. apply lookup_insert_ne.
    intros ->. apply Hb. constructor.
  - exists hp'. split; [exact Hrun|exact Hframe].
Qed.

(** A call leaves the flags of the gates that are not at or below the gate
    as they are. *)
Lemma call_keeps_away (rank : nat -> nat) (fuel : nat) (h h' : heap) (c x : nat)
    (q r : bool) :
  polarity_ready rank h -> is_Some (h !! c) -> is_Some (h !! x) ->
  (rank c < fuel)%nat ->
  mir_propagate_polarity fuel h c q = Ok h' ->
  ~ reaches h c x -> flag_kept h h' x r.
Proof.
  intros Hr Hc [xg Hx] Hlt Hrun Hn.
  destruct (mir_propagate_returns rank fuel h c q Hr Hc Hlt) as (h1 & Hrun1 & Hfr).
  rewrite Hrun in Hrun1. injection Hrun1 as <-.
  exists xg, xg. rewrite (Hfr x Hn). auto.
Qed.

(** A call with the polarity [q] leaves the flag of the other polarity of
    the gate itself as it is. *)
Lemma call_keeps_self (rank : nat -> nat) (fuel : nat) (h h' : heap) (c : nat)
    (q : bool) :
  polarity_ready rank h -> is_Some (h !! c) -> (rank c < fuel)%nat ->
  mir_propagate_polarity fuel h c q = Ok h' ->
  flag_kept h h' c (negb q).
Proof.
  intros Hr [g Hc] Hlt Hrun.
  destruct fuel as [|fuel]; [discriminate|]. simpl in Hrun.
  rewrite (deref_lookup _ _ _ Hc) in Hrun. simpl in Hrun.
  inv_bind Hrun as stop Hstop.
  destruct stop; [injection Hrun as <-; exists g, g; auto|].
  destruct (mir_flag q g) eqn:Hf; [injection Hrun as <-; exists g, g; auto|].
  destruct (switch_ready rank h c g q Hr Hc) as (Hr1 & Har1 & (T1 & T2 & T3) & Hinfo).
  pose proof (flag_ext_insert h c g q Hc) as He1.
  destruct (mir_switch_returns
              (fun h0 => flag_ext (<[c := set_mir_flag q g]> h) h0 /\
                         h0 !! c = Some (set_mir_flag q g))
              (mir_propagate_polarity fuel) (set_mir_flag q g) q
              (<[c := set_mir_flag q g]> h) Har1 T1 T2 T3 Hinfo)
    as (h1 & Hrun1 & _ & Hself).
  - intros h0 x r Hx (Heh & Hs).
    rewrite (proj2 (set_mir_flag_fields q g)) in Hx.
    pose proof Hr as (Har & Hrk & Hcl & Hty).
    destruct (Hcl c g x Hc Hx) as [xg Hxg].
    destruct (flag_ext_lookup _ _ _ _ (flag_ext_trans _ _ _ He1 Heh) Hxg)
      as (xg' & Hxg' & _).
    pose proof (Hrk c g x Hc Hx) as Hlx.
    destruct (mir_propagate_returns rank fuel h0 x r) as (h2 & Hh2 & Hfr);
      [eapply polarity_ready_ext; eassumption|eauto|lia|].
    exists h2. split; [exact Hh2|]. split.
    + eapply flag_ext_trans; [exact Heh|]. eapply mir_propagate_flag_ext; eassumption.
    + rewrite Hfr; [exact Hs|]. intros Hxc.
      apply (reaches_ext h) in Hxc; [|eapply flag_ext_trans; eassumption].
      pose proof (reaches_rank rank h x c Hrk Hxc). lia.
  - split; [apply flag_ext_refl|apply lookup_insert_eq].
  - rewrite Hrun in Hrun1. injection Hrun1 as <-.
    exists g, (set_mir_flag q g). split_and!; [exact Hc|exact Hself|].
    destruct q, g; reflexivity.
Qed.

Lemma flag_kept_trans (h1 h2 h3 : heap) (c : nat) (q : bool) :
  flag_kept h1 h2 c q -> flag_kept h2 h3 c q -> flag_kept h1 h3 c q.
Proof.
  intros (g1 & g2 & H1 & H2 & E12) (g2' & g3 & H2' & H3 & E23).
  rewrite H2 in H2'. injection H2' as <-.
  exists g1, g3. split_and!; [assumption..|congruence].
Qed.

(** The calls an ITE makes on its children, in order, leave the flag of the
    other polarity of a branch child [x] as it is, if [x] is not at or
    below the if child nor the other branch child [y]. *)
Lemma ite_calls_keep (rank : nat -> nat) (fuel : nat) (h0 h1 h2 h3 h4 : heap)
    (i t e x : nat) (p : bool) :
  polarity_ready rank h0 ->
  is_Some (h0 !! i) -> is_Some (h0 !! t) -> is_Some (h0 !! e) ->
  (rank i < fuel)%nat -> (rank t < fuel)%nat -> (rank e < fuel)%nat ->
  mir_propagate_polarity fuel h0 i p = Ok h1 ->
  mir_propagate_polarity fuel h1 i (negb p) = Ok h2 ->
  mir_propagate_polarity fuel h2 t p = Ok h3 ->
  mir_propagate_polarity fuel h3 e p = Ok h4 ->
  is_Some (h0 !! x) ->
  ~ reaches h0 i x ->
  (t = x \/ ~ reaches h0 t x) -> (e = x \/ ~ reaches h0 e x) ->
  flag_kept h0 h4 x (negb p).
Proof.
  intros Hr Hi Ht He Li Lt Le R1 R2 R3 R4 Hx Ni Nt Ne.
  pose proof (mir_propagate_flag_ext _ _ _ _ _ R1) as E1.
  pose proof (mir_propagate_flag_ext _ _ _ _ _ R2) as E2.
  pose proof (mir_propagate_flag_ext _ _ _ _ _ R3) as E3.
  pose proof (flag_ext_trans _ _ _ E1 E2) as E02.
  pose proof (flag_ext_trans _ _ _ E02 E3) as E03.
  assert (Hin : forall h b, flag_ext h0 h -> is_Some (h0 !! b) -> is_Some (h !! b)).
  { intros h b Eh [bg Hb]. destruct (flag_ext_lookup _ _ _ _ Eh Hb) as (bg' & Hb' & _).
    eauto. }
  assert (Hno : forall h b, flag_ext h0 h -> ~ reaches h0 b x -> ~ reaches h b x).
  { intros h b Eh Hn Hb. apply Hn. eapply reaches_ext; eassumption. }
  assert (Hstep : forall h h' c, flag_ext h0 h ->
             is_Some (h0 !! c) -> (rank c < fuel)%nat ->
             mir_propagate_polarity fuel h c p = Ok h' ->
             (c = x \/ ~ reaches h0 c x) -> flag_kept h h' x (negb p)).
  { intros h h' c Eh Hc Lc Rc [->|Hn].
    - eapply call_keeps_self; eauto using polarity_ready_ext.
    - eapply call_keeps_away; [| | | |exact Rc|]; eauto using polarity_ready_ext. }
  eapply flag_kept_trans.
  { eapply (call_keeps_away rank fuel h0 h1 i x p); eauto. }
  eapply flag_kept_trans.
  { eapply (call_keeps_away rank fuel h1 h2 i x (negb p));
      eauto using polarity_ready_ext. }
  eapply flag_kept_trans.
  { eapply (Hstep h2 h3 t); eauto. }
  eapply (Hstep h3 h4 e); eauto.
Qed.

Lemma ex_ite_ready : polarity_ready (fun a => a) ex_ite.
Proof.
  assert (Hcases : forall a g, ex_ite !! a = Some g ->
            (a = 3%nat /\
             g = gate_of tITE 3 [(0%nat, 0%nat); (1%nat, 1%nat); (2%nat, 2%nat)]) \/
            (type g = tVAR /\ children g = [])).
  { unfold ex_ite. intros a g H.
    rewrite lookup_insert in H. case_decide; [subst a; injection H as <-; auto|].
    repeat (rewrite lookup_insert in H; case_decide;
            [subst a; injection H as <-; right; split; reflexivity|]).
    rewrite lookup_empty in H. discriminate. }
  split_and!.
  - intros a g Hg. destruct (Hcases a g Hg) as [[-> ->]|[Ht Hch]].
    + split_and!; [vm_compute; reflexivity|intros [|]; discriminate|reflexivity].
    + unfold arity_ok. rewrite Ht, Hch. split_and!; [vm_compute; reflexivity| |];
        intros; try discriminate. destruct H; discriminate.
  - intros a g c Hg Hc. unfold child_gates in Hc.
    destruct (Hcases a g Hg) as [[-> ->]|[Ht Hch]].
    + simpl in Hc.
      repeat (apply elem_of_cons in Hc; destruct Hc as [->|Hc]; [lia|]).
      apply elem_of_nil in Hc. destruct Hc.
    + rewrite Hch in Hc. apply elem_of_nil in Hc. destruct Hc.
  - intros a g c Hg Hc. unfold child_gates in Hc.
    destruct (Hcases a g Hg) as [[-> ->]|[Ht Hch]].
    + simpl in Hc.
      repeat (apply elem_of_cons in Hc; destruct Hc as [->|Hc]; [vm_compute; eauto|]).
      apply elem_of_nil in Hc. destruct Hc.
    + rewrite Hch in Hc. apply elem_of_nil in Hc. destruct Hc.
  - intros a g Hg. destruct (Hcases a g Hg) as [[-> ->]|[Ht Hch]].
    + split_and!; discriminate.
    + rewrite Ht. split_and!; discriminate.
Qed.

(** In [ex_ite] an input gate reaches itself only. *)
Lemma ex_ite_input_reaches (a b : nat) :
  (a < 3)%nat -> reaches ex_ite a b -> a = b.
Proof.
  intros Hlt H. inversion H as [|a0 c b0 g Hg Hc Hr]; subst; [reflexivity|].
  exfalso. unfold ex_ite in Hg.
  rewrite lookup_insert in Hg. case_decide; [lia|].
  unfold child_gates in Hc.
  repeat (rewrite lookup_insert in Hg; case_decide;
          [injection Hg as <-; simpl in Hc; apply elem_of_nil in Hc; exact Hc|]).
  rewrite lookup_empty in Hg. discriminate.
Qed.




(** ** Value conflicts that the entry points report *)

(** [propagate_to_child] on a determined child tests its value and changes
    nothing; on another child it changes that child only. *)
Lemma propagate_to_child_run (c : nat) (v : bool) (s : BC) (cg : Gate) :
  gates s !! c = Some cg ->
  if determined cg then propagate_to_child c v s = Ok (eqb (value cg) v, s)
  else exists s2, propagate_to_child c v s = Ok (true, s2) /\
         is_Some (gates s2 !! c) /\
         (forall x, x <> c -> gates s2 !! x = gates s !! x).
Proof.
  intros Hc. unfold propagate_to_child.
  rewrite (st_bind_run _ _ _ _ _ (gate_run s c cg Hc)).
  destruct (determined cg); [reflexivity|].
  rewrite (st_bind_run _ _ _ _ _ (modify_run s c cg _ Hc)). cbv beta.
  set (s1 := set_gates (<[c := set_value v cg]> (gates s)) s).
  assert (Hc1 : gates s1 !! c = Some (set_value v cg)) by apply lookup_insert_eq.
  unfold add_in_pstack.
  rewrite st_bind_assoc, (st_bind_run _ _ _ _ _ (gate_run s1 c _ Hc1)). cbv beta.
  destruct (in_pstack (set_value v cg)); cbn [negb].
  - exists s1. split; [reflexivity|]. split; [eauto|].
    intros x Hx. subst s1. simpl. apply lookup_insert_ne. auto.
  - rewrite st_bind_assoc, (st_bind_run _ _ _ _ _ (modify_run s1 c _ _ Hc1)).
    cbv beta. eexists. split; [reflexivity|]. simpl. split.
    + rewrite lookup_insert_eq. eauto.
    + intros x Hx. rewrite !lookup_insert_ne by auto. reflexivity.
Qed.

(** The loop of [case tOR] and [case tAND] that gives the children of a
    determined gate their value stops with [false] at the first child that
    is determined to the other value. *)
Lemma propagate_loop_conflict (this : nat) (g0 : Gate) (dominant : bool) :
  forall (l : list (nat * nat)) (s : BC) (fuel : nat),
  (length l <= fuel)%nat ->
  gates s !! this = Some (set_children l g0) ->
  (forall c, c ∈ map snd l -> c <> this /\ is_Some (gates s !! c)) ->
  (exists c cg, c ∈ map snd l /\ gates s !! c = Some cg /\
                determined cg = true /\ value cg = dominant) ->
  exists s',
    while_head fuel
      (let* g := gate this in st_ret (head (children g)))
      (fun ca =>
         let* ok := propagate_to_child (snd ca) (negb dominant) in
         if negb ok then st_ret (Some false)
         else delete_assoc (fst ca) this (snd ca);; st_ret None) s
    = Ok (Some false, s').
Proof.
  induction l as [|[e c] l IH]; intros s fuel Hf Hthis Hl (x & xg & Hx & Hxg & Hxd & Hxv).
  - apply elem_of_nil in Hx. destruct Hx.
  - destruct fuel as [|fuel]; [simpl in Hf; lia|].
    destruct (Hl c) as [Hne [cg Hcg]]; [simpl; left|].
    destruct (Hl x Hx) as [Hxne _].
    cbn [while_head].
    rewrite (st_bind_run _ _ _ _ _ (st_bind_run _ _ _ _ _ (gate_run s this _ Hthis))).
    cbn [children set_children head]. cbv beta iota. cbn [fst snd].
    pose proof (propagate_to_child_run c (negb dominant) s cg Hcg) as Hp.
    assert (Hdel : forall s2 : BC,
              gates s2 !! this = Some (set_children ((e, c) :: l) g0) ->
              is_Some (gates s2 !! c) -> x <> c -> gates s2 !! x = Some xg ->
              (forall y, y ∈ map snd l -> is_Some (gates s2 !! y)) ->
              exists s1, delete_assoc e this c s2 = Ok (tt, s1) /\
                gates s1 !! this = Some (set_children l g0) /\
                (forall y, y ∈ map snd l -> y <> this /\ is_Some (gates s1 !! y)) /\
                gates s1 !! x = Some xg).
    { intros s2 Ht2 [cg2 Hc2] Hxc Hx2 Hl2.
      rewrite (delete_assoc_run s2 e this c _ cg2 Ht2 Hc2 Hne).
      eexists. split; [reflexivity|]. simpl. split_and!.
      - rewrite lookup_insert_ne by auto. rewrite lookup_insert_eq.
        simpl. rewrite Nat.eqb_refl. destruct g0; reflexivity.
      - intros y Hy. split; [apply Hl; simpl; right; exact Hy|].
        rewrite lookup_insert. case_decide; [eauto|].
        rewrite lookup_insert. case_decide; [eauto|]. apply Hl2, Hy.
      - rewrite !lookup_insert_ne by auto. exact Hx2. }
    assert (Hgo : forall s2 : BC,
              gates s2 !! this = Some (set_children ((e, c) :: l) g0) ->
              is_Some (gates s2 !! c) -> x <> c -> gates s2 !! x = Some xg ->
              (forall y, y ∈ map snd l -> is_Some (gates s2 !! y)) ->
              exists s',
                (let* r := (delete_assoc e this c;; st_ret None) in
                 match r with
                 | Some r => st_ret (Some r)
                 | None =>
                     while_head fuel
                       (let* g := gate this in st_ret (head (children g)))
                       (fun ca =>
                          let* ok := propagate_to_child (snd ca) (negb dominant) in
                          if negb ok then st_ret (Some false)
                          else delete_assoc (fst ca) this (snd ca);; st_ret None)
                 end) s2 = Ok (Some false, s')).
    { intros s2 Ht2 Hc2 Hxc Hx2 Hl2.
      destruct (Hdel s2 Ht2 Hc2 Hxc Hx2 Hl2) as (s1 & Hd1 & Ht1 & Hl1 & Hx1).
      rewrite (st_bind_run _ _ _ _ _ (st_bind_run _ _ _ _ _ Hd1)).
      apply IH; [simpl in Hf; lia|exact Ht1|exact Hl1|].
      exists x, xg. split_and!; auto.
      simpl in Hx. apply elem_of_cons in Hx. destruct Hx as [->|Hx]; [contradiction|auto]. }
    destruct (determined cg) eqn:Hd.
    + rewrite st_bind_assoc, (st_bind_run _ _ _ _ _ Hp). cbv beta.
      destruct (eqb (value cg) (negb dominant)) eqn:Hv; cbn [negb].
      * apply Hgo; [exact Hthis|eauto| |exact Hxg|].
        -- intros ->. rewrite Hcg in Hxg. injection Hxg as ->.
           rewrite Hxv in Hv. destruct dominant; discriminate.
        -- intros y Hy. apply Hl. simpl. right. exact Hy.
      * exists s. reflexivity.
    + destruct Hp as (s2 & Hp & Hc2 & Hsame).
      assert (Hxc : x <> c).
      { intros ->. rewrite Hcg in Hxg. injection Hxg as ->. congruence. }
      rewrite st_bind_assoc, (st_bind_run _ _ _ _ _ Hp). cbv beta. cbn [negb].
      apply Hgo; [| exact Hc2 | exact Hxc | |].
      * rewrite Hsame by auto. exact Hthis.
      * rewrite Hsame by auto. exact Hxg.
      * intros y Hy. destruct (decide (y = c)) as [->|Hyc]; [exact Hc2|].
        rewrite Hsame by auto. apply Hl. simpl. right. exact Hy.
Qed.

(** [simplify] returns [false] at an OR determined to false with a child
    determined to true, and at an AND determined to true with a child
    determined to false. *)
Lemma conflict_simplify_or_and (ops : BCOps) (this : nat) (flag : bool) (bc : BC)
    (g : Gate) :
  gates bc !! this = Some g -> child_conflict (gates bc) g ->
  (forall c, c ∈ child_gates g -> c <> this /\ is_Some (gates bc !! c)) ->
  exists bc', simplify ops this flag bc = Ok (false, bc').
Proof.
  intros Hg (Hd & dominant & Hty & Hv & Hconf) Hch.
  assert (Hloop : exists s',
            while_children this
              (fun ca =>
                 let* ok := propagate_to_child (snd ca) (negb dominant) in
                 if negb ok then st_ret (Some false)
                 else delete_assoc (fst ca) this (snd ca);; st_ret None) bc
            = Ok (Some false, s')).
  { unfold while_children. rewrite (st_bind_run _ _ _ _ _ (gate_run bc this g Hg)).
    apply (propagate_loop_conflict this g dominant (children g)); auto.
    rewrite Hg. destruct g; reflexivity. }
  destruct Hloop as (s' & Hloop). exists s'.
  assert (Hsimp : forall t, simplify_OR_AND this t dominant bc = Ok (false, s')).
  { intros t. unfold simplify_OR_AND.
    rewrite (st_bind_run _ _ _ _ _ (gate_run bc this g Hg)).
    rewrite Hd, Hv, eqb_reflx. cbn [andb].
    rewrite (st_bind_run _ _ _ _ _ Hloop). reflexivity. }
  unfold simplify. rewrite (st_bind_run _ _ _ _ _ (gate_run bc this g Hg)).
  destruct Hty as [[Ht ->]|[Ht ->]]; rewrite Ht, Hd; cbn [is_type];
    destruct (parents g), (handles g); apply Hsimp.
Qed.




(** * Further properties of the code *)

(** ** The clauses of a gate define the gate *)

Lemma lit_value_opp (sigma : Z -> bool) (l : Z) :
  l <> 0 -> lit_value sigma (- l) = negb (lit_value sigma l).
Proof.
  intros Hl. unfold lit_value.
  destruct (Z.ltb_spec 0 l), (Z.ltb_spec 0 (- l)); try lia;
    rewrite ?Z.opp_involutive, ?negb_involutive; reflexivity.
Qed.

Lemma or_pos_clause_sat (sigma : Z -> bool) (t : Z) (lits : list Z) :
  t <> 0 ->
  clause_sat sigma (- t :: lits) = true <->
  (lit_value sigma t = true -> existsb (lit_value sigma) lits = true).
Proof.
  intros Ht. unfold clause_sat. cbn [existsb]. rewrite (lit_value_opp _ _ Ht).
  destruct (lit_value sigma t); cbn; intuition congruence.
Qed.

Lemma or_neg_clauses_sat (sigma : Z -> bool) (t : Z) (lits : list Z) :
  Forall (fun l => l <> 0) lits ->
  cnf_sat sigma (map (fun l => [t; l]) (map Z.opp lits)) = true <->
  (existsb (lit_value sigma) lits = true -> lit_value sigma t = true).
Proof.
  induction 1 as [|l lits Hl0 Hl IH]; cbn.
  - split; [discriminate | reflexivity].
  - rewrite (lit_value_opp _ _ Hl0), andb_true_iff, IH, orb_false_r.
    destruct (lit_value sigma t), (lit_value sigma l); cbn; intuition congruence.
Qed.

Lemma and_pos_clauses_sat (sigma : Z -> bool) (t : Z) (lits : list Z) :
  t <> 0 ->
  cnf_sat sigma (map (fun l => [- t; l]) lits) = true <->
  (lit_value sigma t = true -> forallb (lit_value sigma) lits = true).
Proof.
  intros Ht. induction lits as [|l lits IH]; cbn.
  - split; reflexivity.
  - rewrite (lit_value_opp _ _ Ht), andb_true_iff, IH, orb_false_r.
    destruct (lit_value sigma t), (lit_value sigma l); cbn; intuition congruence.
Qed.

Lemma and_neg_clause_sat (sigma : Z -> bool) (t : Z) (lits : list Z) :
  Forall (fun l => l <> 0) lits ->
  clause_sat sigma (t :: map Z.opp lits) = true <->
  (forallb (lit_value sigma) lits = true -> lit_value sigma t = true).
Proof.
  intros Hl. unfold clause_sat. cbn [existsb].
  assert (Hneg : existsb (lit_value sigma) (map Z.opp lits) =
                 negb (forallb (lit_value sigma) lits)).
  { induction Hl as [|l ls Hl0 _ IH]; cbn; [reflexivity|].
    rewrite (lit_value_opp _ _ Hl0), IH, negb_andb. reflexivity. }
  rewrite Hneg.
  destruct (lit_value sigma t), (forallb (lit_value sigma) lits);
    cbn; intuition congruence.
Qed.

Lemma existsb_map_id {A : Type} (f : A -> bool) (l : list A) :
  existsb id (map f l) = existsb f l.
Proof. induction l as [|a l IH]; cbn; [reflexivity | rewrite IH; reflexivity]. Qed.

Lemma forallb_map_id {A : Type} (f : A -> bool) (l : list A) :
  forallb id (map f l) = forallb f l.
Proof. induction l as [|a l IH]; cbn; [reflexivity | rewrite IH; reflexivity]. Qed.

Lemma child_lit_standard (hp : heap) (c : nat) (cg : Gate) :
  hp !! c = Some cg -> child_lit hp false c = Ok (temp cg).
Proof.
  intros Hc. unfold child_lit. rewrite (deref_lookup _ _ _ Hc). reflexivity.
Qed.

(** X1: the clauses that [cnf_get_clauses] produces for a gate with a
    CNF translation (OR, AND, EQUIV, EVEN, ODD, ITE, and REF and NOT in the
    translation with NOT gates) hold under an assignment of the variables
    exactly when the value of the gate's variable is the value of the
    gate's Boolean function on the values of the literals of its
    children. *)
Theorem cnf_clauses_define_gate (hp : heap) (this : nat) (g : Gate)
    (notless : bool) (cs : list (list Z)) (lits : list Z) (sigma : Z -> bool) :
  hp !! this = Some g ->
  type g <> tTRUE -> type g <> tFALSE -> type g <> tVAR ->
  (type g = tNOT -> notless = false) ->
  arity_ok g ->
  cnf_get_clauses hp this notless = Ok cs ->
  map_children (child_lit hp notless) (child_gates g) = Ok lits ->
  temp g <> 0 -> Forall (fun l => l <> 0) lits ->
  (cnf_sat sigma cs = true <->
   gate_function (type g) (tmin g) (tmax g) (map (lit_value sigma) lits)
   = Some (lit_value sigma (temp g))).
Proof.
  intros Hg HT HF HV Hnot (Hlen & Har1 & Har3) Hcs Hlits Ht Hnz.
  unfold cnf_get_clauses in Hcs. rewrite (deref_lookup _ _ _ Hg) in Hcs.
  cbn [rbind] in Hcs.
  pose proof (map_children_length _ _ _ Hlits) as Hll.
  unfold child_gates in Hll. rewrite length_map in Hll.
  destruct (type g) eqn:Ety; try discriminate Hcs; try congruence.
  - (* EQUIV *)
    inv_bind Hcs as p Hp. destruct p as [c1lit c2lit]. injection Hcs as <-.
    unfold binary_lits in Hp. rewrite count_children_small in Hp by exact Hlen.
    destruct (Z.eqb_spec (Z.of_nat (length (children g))) 2) as [E|E];
      [|discriminate Hp]. cbn [negb] in Hp.
    unfold nth_child, child_gates in *.
    destruct (children g) as [|[e1 a1] [|[e2 a2] [|]]]; cbn in E; try lia.
    cbn in Hp, Hlits.
    inv_bind Hp. inv_bind Hp. injection Hp as <- <-.
    rewrite Hx, Hx0 in Hlits. cbn in Hlits. injection Hlits as <-.
    inversion Hnz as [|? ? N1 Hnz1]; subst. inversion Hnz1 as [|? ? N2 _]; subst.
    cbn. rewrite !(lit_value_opp _ _ Ht), !(lit_value_opp _ _ N1),
      !(lit_value_opp _ _ N2).
    destruct (lit_value sigma (temp g)), (lit_value sigma x), (lit_value sigma x0);
      cbn; intuition congruence.
  - (* OR *)
    inv_bind Hcs as ls Hls. inv_bind Hcs as ns Hns. injection Hcs as <-.
    rewrite Hlits in Hls. injection Hls as <-.
    rewrite (map_children_neg _ _ _ _ Hlits) in Hns. injection Hns as <-.
    cbn [cnf_sat forallb]. change (forallb (clause_sat sigma)) with (cnf_sat sigma).
    rewrite andb_true_iff, (or_pos_clause_sat _ _ _ Ht), (or_neg_clauses_sat _ _ _ Hnz).
    cbn [gate_function]. rewrite existsb_map_id.
    destruct (lit_value sigma (temp g)), (existsb (lit_value sigma) lits);
      intuition congruence.
  - (* AND *)
    inv_bind Hcs as ns Hns. inv_bind Hcs as ls Hls. injection Hcs as <-.
    rewrite Hlits in Hls. injection Hls as <-.
    rewrite (map_children_neg _ _ _ _ Hlits) in Hns. injection Hns as <-.
    cbn [cnf_sat forallb]. change (forallb (clause_sat sigma)) with (cnf_sat sigma).
    rewrite andb_true_iff, (and_neg_clause_sat _ _ _ Hnz), (and_pos_clauses_sat _ _ _ Ht).
    cbn [gate_function]. rewrite forallb_map_id.
    destruct (lit_value sigma (temp g)), (forallb (lit_value sigma) lits);
      intuition congruence.
  - (* EVEN *)
    inv_bind Hcs as p Hp. destruct p as [c1lit c2lit]. injection Hcs as <-.
    unfold binary_lits in Hp. rewrite count_children_small in Hp by exact Hlen.
    destruct (Z.eqb_spec (Z.of_nat (length (children g))) 2) as [E|E];
      [|discriminate Hp]. cbn [negb] in Hp.
    unfold nth_child, child_gates in *.
    destruct (children g) as [|[e1 a1] [|[e2 a2] [|]]]; cbn in E; try lia.
    cbn in Hp, Hlits.
    inv_bind Hp. inv_bind Hp. injection Hp as <- <-.
    rewrite Hx, Hx0 in Hlits. cbn in Hlits. injection Hlits as <-.
    inversion Hnz as [|? ? N1 Hnz1]; subst. inversion Hnz1 as [|? ? N2 _]; subst.
    cbn. rewrite !(lit_value_opp _ _ Ht), !(lit_value_opp _ _ N1),
      !(lit_value_opp _ _ N2).
    destruct (lit_value sigma (temp g)), (lit_value sigma x), (lit_value sigma x0);
      cbn; intuition congruence.
  - (* ODD *)
    inv_bind Hcs as p Hp. destruct p as [c1lit c2lit]. injection Hcs as <-.
    unfold binary_lits in Hp. rewrite count_children_small in Hp by exact Hlen.
    destruct (Z.eqb_spec (Z.of_nat (length (children g))) 2) as [E|E];
      [|discriminate Hp]. cbn [negb] in Hp.
    unfold nth_child, child_gates in *.
    destruct (children g) as [|[e1 a1] [|[e2 a2] [|]]]; cbn in E; try lia.
    cbn in Hp, Hlits.
    inv_bind Hp. inv_bind Hp. injection Hp as <- <-.
    rewrite Hx, Hx0 in Hlits. cbn in Hlits. injection Hlits as <-.
    inversion Hnz as [|? ? N1 Hnz1]; subst. inversion Hnz1 as [|? ? N2 _]; subst.
    cbn. rewrite !(lit_value_opp _ _ Ht), !(lit_value_opp _ _ N1),
      !(lit_value_opp _ _ N2).
    destruct (lit_value sigma (temp g)), (lit_value sigma x), (lit_value sigma x0);
      cbn; intuition congruence.
  - (* ITE *)
    inv_bind Hcs as p Hp. destruct p as [[if_lit then_lit] else_lit].
    injection Hcs as <-.
    specialize (Har3 eq_refl).
    unfold ite_lits, nth_child, child_gates in *.
    destruct (children g) as [|[e1 a1] [|[e2 a2] [|[e3 a3] [|]]]]; cbn in Har3; try lia.
    cbn in Hp, Hlits.
    inv_bind Hp. inv_bind Hp. inv_bind Hp. injection Hp as <- <- <-.
    rewrite Hx, Hx0, Hx1 in Hlits. cbn in Hlits. injection Hlits as <-.
    inversion Hnz as [|? ? N1 Hnz1]; subst. inversion Hnz1 as [|? ? N2 Hnz2]; subst.
    inversion Hnz2 as [|? ? N3 _]; subst.
    cbn. rewrite !(lit_value_opp _ _ Ht), !(lit_value_opp _ _ N1),
      !(lit_value_opp _ _ N2), !(lit_value_opp _ _ N3).
    destruct (lit_value sigma (temp g)), (lit_value sigma x), (lit_value sigma x0),
      (lit_value sigma x1); cbn; intuition congruence.
  - (* NOT *)
    rewrite (Hnot eq_refl) in *.
    specialize (Har1 (or_intror eq_refl)).
    unfold nth_child, child_gates in *.
    destruct (children g) as [|[e1 a1] [|]]; cbn in Har1; try lia.
    cbn in Hcs, Hlits.
    inv_bind Hcs as cg Hcg. injection Hcs as <-.
    apply deref_Ok in Hcg. rewrite (child_lit_standard _ _ _ Hcg) in Hlits.
    cbn in Hlits. injection Hlits as <-.
    inversion Hnz as [|? ? N1 _]; subst.
    cbn. rewrite !(lit_value_opp _ _ Ht), !(lit_value_opp _ _ N1).
    destruct (lit_value sigma (temp g)), (lit_value sigma (temp cg));
      cbn; intuition congruence.
  - (* REF *)
    destruct notless; [discriminate Hcs|].
    specialize (Har1 (or_introl eq_refl)).
    unfold nth_child, child_gates in *.
    destruct (children g) as [|[e1 a1] [|]]; cbn in Har1; try lia.
    cbn in Hcs, Hlits.
    inv_bind Hcs as cg Hcg. injection Hcs as <-.
    apply deref_Ok in Hcg. rewrite (child_lit_standard _ _ _ Hcg) in Hlits.
    cbn in Hlits. injection Hlits as <-.
    inversion Hnz as [|? ? N1 _]; subst.
    cbn. rewrite !(lit_value_opp _ _ Ht), !(lit_value_opp _ _ N1).
    destruct (lit_value sigma (temp g)), (lit_value sigma (temp cg));
      cbn; intuition congruence.
Qed.

(** The theorem at [g3 := OR(x, ~y)] in the NOT-less translation, under
    the assignment that makes [x] true and the other variables false. *)
Lemma cnf_clauses_define_gate_witness :
  cnf_sat (fun v => v =? 1) [ [-3; 1; -2]; [3; -1]; [3; 2] ] = true <->
  gate_function tOR 0 0 (map (lit_value (fun v => v =? 1)) [1; -2])
  = Some (lit_value (fun v => v =? 1) 3).
Proof.
  apply (cnf_clauses_define_gate ex_or_not 3
           (set_temp 3 (gate_of tOR 3 [(1%nat, 0%nat); (2%nat, 2%nat)]))
           true _ [1; -2] (fun v => v =? 1)).
  - reflexivity.
  - discriminate.
  - discriminate.
  - discriminate.
  - discriminate.
  - split; [cbn; lia|]. split; [intros [H|H]; discriminate H | discriminate].
  - reflexivity.
  - reflexivity.
  - cbn. lia.
  - repeat constructor; lia.
Defined.

(** ** The polarity translation *)

(** Membership in lists that are spelled out. *)
Ltac elems :=
  let cl := fresh "cl" in
  let H := fresh "H" in
  intros cl H; cbn in H |- *;
  repeat first [rewrite elem_of_cons in H | rewrite elem_of_app in H
               | rewrite elem_of_nil in H];
  repeat first [rewrite elem_of_cons | rewrite elem_of_app | rewrite elem_of_nil];
  tauto.

Ltac flags_done :=
  repeat split; try elems;
  let H1 := fresh in let H2 := fresh in
  intros H1 H2; first [discriminate H1 | discriminate H2 | reflexivity | idtac].

(** X2: whenever the standard translation of a gate returns its clauses,
    the polarity translation returns too, and each of its clauses is one of
    the standard ones; with both polarity flags set it returns the
    standard clauses (in another order for AND), with no flag set it
    returns none. *)
Theorem polarity_clauses_standard (hp : heap) (this : nat) (g : Gate)
    (notless : bool) (cs : list (list Z)) :
  hp !! this = Some g ->
  cnf_get_clauses hp this notless = Ok cs ->
  exists ps, cnf_get_clauses_polarity hp this notless = Ok ps /\
    (forall cl, cl ∈ ps -> cl ∈ cs) /\
    (mir_pos g = true -> mir_neg g = true -> ps ≡ₚ cs) /\
    (mir_pos g = false -> mir_neg g = false -> ps = []).
Proof.
  intros Hg Hcs.
  unfold cnf_get_clauses in Hcs. unfold cnf_get_clauses_polarity.
  rewrite (deref_lookup _ _ _ Hg) in *. cbn [rbind] in *.
  destruct (type g); try discriminate Hcs;
    try (injection Hcs as <-; exists []; repeat split; [elems | reflexivity]).
  - (* EQUIV *)
    inv_bind Hcs as p Hp. rewrite Hp. destruct p as [c1 c2]. injection Hcs as <-.
    cbn [rbind]. eexists. split; [reflexivity|].
    destruct (mir_pos g), (mir_neg g); cbn; flags_done.
  - (* OR *)
    inv_bind Hcs as ls Hls. inv_bind Hcs as ns Hns. injection Hcs as <-.
    rewrite Hls, Hns. cbn [rbind].
    destruct (mir_pos g), (mir_neg g); cbn; eexists; (split; [reflexivity|]);
      flags_done.
  - (* AND *)
    inv_bind Hcs as ns Hns. inv_bind Hcs as ls Hls. injection Hcs as <-.
    rewrite Hls, Hns. cbn [rbind].
    destruct (mir_pos g), (mir_neg g); cbn; eexists; (split; [reflexivity|]);
      flags_done.
    symmetry. apply Permutation_cons_append.
  - (* EVEN *)
    inv_bind Hcs as p Hp. rewrite Hp. destruct p as [c1 c2]. injection Hcs as <-.
    cbn [rbind]. eexists. split; [reflexivity|].
    destruct (mir_pos g), (mir_neg g); cbn; flags_done.
  - (* ODD *)
    inv_bind Hcs as p Hp. rewrite Hp. destruct p as [c1 c2]. injection Hcs as <-.
    cbn [rbind]. eexists. split; [reflexivity|].
    destruct (mir_pos g), (mir_neg g); cbn; flags_done.
  - (* ITE *)
    inv_bind Hcs as p Hp. rewrite Hp. destruct p as [[c1 c2] c3]. injection Hcs as <-.
    cbn [rbind]. eexists. split; [reflexivity|].
    destruct (mir_pos g), (mir_neg g); cbn; flags_done.
  - (* NOT *)
    destruct notless.
    + destruct (determined g); [discriminate Hcs|].
      inv_bind Hcs as c Hc. inv_bind Hcs as cg Hcg. rewrite Hc. cbn [rbind].
      rewrite Hcg. cbn [rbind].
      destruct (is_type (type cg) tNOT); [discriminate Hcs|]. injection Hcs as <-.
      exists []. repeat split; [elems | reflexivity].
    + inv_bind Hcs as c Hc. inv_bind Hcs as cg Hcg. rewrite Hc. cbn [rbind].
      rewrite Hcg. cbn [rbind]. injection Hcs as <-.
      eexists. split; [reflexivity|].
      destruct (mir_pos g), (mir_neg g); cbn; flags_done.
  - (* REF *)
    destruct notless; [discriminate Hcs|].
    inv_bind Hcs as c Hc. inv_bind Hcs as cg Hcg. rewrite Hc. cbn [rbind].
    rewrite Hcg. cbn [rbind]. injection Hcs as <-.
    eexists. split; [reflexivity|].
    destruct (mir_pos g), (mir_neg g); cbn; flags_done.
Qed.

(** The theorem at [g3 := OR(x, ~y)], whose polarity flags are not set. *)
Lemma polarity_clauses_standard_witness :
  exists ps, cnf_get_clauses_polarity ex_or_not 3 true = Ok ps /\
    (forall cl, cl ∈ ps -> cl ∈ [ [-3; 1; -2]; [3; -1]; [3; 2] ]) /\
    (false = true -> false = true -> ps ≡ₚ [ [-3; 1; -2]; [3; -1]; [3; 2] ]) /\
    (false = false -> false = false -> ps = []).
Proof.
  apply (polarity_clauses_standard ex_or_not 3
           (set_temp 3 (gate_of tOR 3 [(1%nat, 0%nat); (2%nat, 2%nat)])) true).
  - reflexivity.
  - reflexivity.
Defined.

Ltac polarity_cases sigma g :=
  destruct (mir_pos g), (mir_neg g); cbn;
  repeat match goal with
         | N : ?l <> 0 |- _ => rewrite !(lit_value_opp sigma l N); revert N
         end;
  intros;
  repeat match goal with
         | |- context [lit_value sigma ?l] => destruct (lit_value sigma l)
         end;
  cbn; intuition congruence.

(** X3: the clauses of the polarity translation say one direction each.
    Those produced for the flag [mir_pos] hold exactly when the gate's
    variable being true implies that the gate's function is true on the
    literals of the children; those for [mir_neg] exactly when the
    variable being false implies that the function is false. *)
Theorem polarity_clauses_meaning (hp : heap) (this : nat) (g : Gate)
    (notless : bool) (ps : list (list Z)) (lits : list Z) (sigma : Z -> bool) :
  hp !! this = Some g ->
  type g <> tTRUE -> type g <> tFALSE -> type g <> tVAR ->
  (type g = tNOT -> notless = false) ->
  arity_ok g ->
  cnf_get_clauses_polarity hp this notless = Ok ps ->
  map_children (child_lit hp notless) (child_gates g) = Ok lits ->
  temp g <> 0 -> Forall (fun l => l <> 0) lits ->
  exists v,
    gate_function (type g) (tmin g) (tmax g) (map (lit_value sigma) lits) = Some v /\
    (cnf_sat sigma ps = true <->
     (mir_pos g = true -> lit_value sigma (temp g) = true -> v = true) /\
     (mir_neg g = true -> lit_value sigma (temp g) = false -> v = false)).
Proof.
  intros Hg HT HF HV Hnot (Hlen & Har1 & Har3) Hcs Hlits Ht Hnz.
  unfold cnf_get_clauses_polarity in Hcs. rewrite (deref_lookup _ _ _ Hg) in Hcs.
  cbn [rbind] in Hcs.
  destruct (type g) eqn:Ety; try discriminate Hcs; try congruence.
  - (* EQUIV *)
    inv_bind Hcs as p Hp. destruct p as [c1lit c2lit]. injection Hcs as <-.
    unfold binary_lits in Hp. rewrite count_children_small in Hp by exact Hlen.
    destruct (Z.eqb_spec (Z.of_nat (length (children g))) 2) as [E|E];
      [|discriminate Hp]. cbn [negb] in Hp.
    unfold nth_child, child_gates in *.
    destruct (children g) as [|[e1 a1] [|[e2 a2] [|]]]; cbn in E; try lia.
    cbn in Hp, Hlits.
    inv_bind Hp. inv_bind Hp. injection Hp as <- <-.
    rewrite Hx, Hx0 in Hlits. cbn in Hlits. injection Hlits as <-.
    inversion Hnz as [|? ? N1 Hnz1]; subst. inversion Hnz1 as [|? ? N2 _]; subst.
    eexists. split; [reflexivity|]. clear -Ht N1 N2. polarity_cases sigma g.
  - (* OR *)
    cbn [gate_function]. rewrite existsb_map_id. eexists. split; [reflexivity|].
    pose proof (map_children_neg _ _ _ _ Hlits) as Hnegs.
    rewrite Hlits, Hnegs in Hcs. cbn [rbind] in Hcs.
    pose proof (or_pos_clause_sat sigma _ lits Ht) as Hpos.
    pose proof (or_neg_clauses_sat sigma (temp g) _ Hnz) as Hneg.
    destruct (mir_pos g), (mir_neg g); cbn [rbind] in Hcs; injection Hcs as <-;
      cbn [app cnf_sat forallb];
      change (forallb (clause_sat sigma)) with (cnf_sat sigma);
      rewrite ?andb_true_iff, ?Hpos, ?Hneg;
      destruct (lit_value sigma (temp g)), (existsb (lit_value sigma) lits);
      intuition congruence.
  - (* AND *)
    cbn [gate_function]. rewrite forallb_map_id. eexists. split; [reflexivity|].
    pose proof (map_children_neg _ _ _ _ Hlits) as Hnegs.
    rewrite Hlits, Hnegs in Hcs. cbn [rbind] in Hcs.
    pose proof (and_pos_clauses_sat sigma _ lits Ht) as Hpos.
    pose proof (and_neg_clause_sat sigma (temp g) _ Hnz) as Hneg.
    destruct (mir_pos g), (mir_neg g); cbn [rbind] in Hcs; injection Hcs as <-;
      rewrite ?app_nil_r; cbn [app];
      unfold cnf_sat; rewrite ?forallb_app; cbn [forallb];
      change (forallb (clause_sat sigma)) with (cnf_sat sigma);
      rewrite ?andb_true_r, ?andb_true_iff, ?Hpos, ?Hneg;
      destruct (lit_value sigma (temp g)), (forallb (lit_value sigma) lits);
      intuition congruence.
  - (* EVEN *)
    inv_bind Hcs as p Hp. destruct p as [c1lit c2lit]. injection Hcs as <-.
    unfold binary_lits in Hp. rewrite count_children_small in Hp by exact Hlen.
    destruct (Z.eqb_spec (Z.of_nat (length (children g))) 2) as [E|E];
      [|discriminate Hp]. cbn [negb] in Hp.
    unfold nth_child, child_gates in *.
    destruct (children g) as [|[e1 a1] [|[e2 a2] [|]]]; cbn in E; try lia.
    cbn in Hp, Hlits.
    inv_bind Hp. inv_bind Hp. injection Hp as <- <-.
    rewrite Hx, Hx0 in Hlits. cbn in Hlits. injection Hlits as <-.
    inversion Hnz as [|? ? N1 Hnz1]; subst. inversion Hnz1 as [|? ? N2 _]; subst.
    eexists. split; [reflexivity|]. clear -Ht N1 N2. polarity_cases sigma g.
  - (* ODD *)
    inv_bind Hcs as p Hp. destruct p as [c1lit c2lit]. injection Hcs as <-.
    unfold binary_lits in Hp. rewrite count_children_small in Hp by exact Hlen.
    destruct (Z.eqb_spec (Z.of_nat (length (children g))) 2) as [E|E];
      [|discriminate Hp]. cbn [negb] in Hp.
    unfold nth_child, child_gates in *.
    destruct (children g) as [|[e1 a1] [|[e2 a2] [|]]]; cbn in E; try lia.
    cbn in Hp, Hlits.
    inv_bind Hp. inv_bind Hp. injection Hp as <- <-.
    rewrite Hx, Hx0 in Hlits. cbn in Hlits. injection Hlits as <-.
    inversion Hnz as [|? ? N1 Hnz1]; subst. inversion Hnz1 as [|? ? N2 _]; subst.
    eexists. split; [reflexivity|]. clear -Ht N1 N2. polarity_cases sigma g.
  - (* ITE *)
    inv_bind Hcs as p Hp. destruct p as [[if_lit then_lit] else_lit].
    injection Hcs as <-.
    specialize (Har3 eq_refl).
    unfold ite_lits, nth_child, child_gates in *.
    destruct (children g) as [|[e1 a1] [|[e2 a2] [|[e3 a3] [|]]]]; cbn in Har3; try lia.
    cbn in Hp, Hlits.
    inv_bind Hp. inv_bind Hp. inv_bind Hp. injection Hp as <- <- <-.
    rewrite Hx, Hx0, Hx1 in Hlits. cbn in Hlits. injection Hlits as <-.
    inversion Hnz as [|? ? N1 Hnz1]; subst. inversion Hnz1 as [|? ? N2 Hnz2]; subst.
    inversion Hnz2 as [|? ? N3 _]; subst.
    eexists. split; [reflexivity|]. clear -Ht N1 N2 N3. polarity_cases sigma g.
  - (* NOT *)
    rewrite (Hnot eq_refl) in *.
    specialize (Har1 (or_intror eq_refl)).
    unfold nth_child, child_gates in *.
    destruct (children g) as [|[e1 a1] [|]]; cbn in Har1; try lia.
    cbn in Hcs, Hlits.
    inv_bind Hcs as cg Hcg. injection Hcs as <-.
    apply deref_Ok in Hcg. rewrite (child_lit_standard _ _ _ Hcg) in Hlits.
    cbn in Hlits. injection Hlits as <-.
    inversion Hnz as [|? ? N1 _]; subst.
    eexists. split; [reflexivity|]. clear -Ht N1. polarity_cases sigma g.
  - (* REF *)
    destruct notless; [discriminate Hcs|].
    specialize (Har1 (or_introl eq_refl)).
    unfold nth_child, child_gates in *.
    destruct (children g) as [|[e1 a1] [|]]; cbn in Har1; try lia.
    cbn in Hcs, Hlits.
    inv_bind Hcs as cg Hcg. injection Hcs as <-.
    apply deref_Ok in Hcg. rewrite (child_lit_standard _ _ _ Hcg) in Hlits.
    cbn in Hlits. injection Hlits as <-.
    inversion Hnz as [|? ? N1 _]; subst.
    eexists. split; [reflexivity|]. clear -Ht N1. polarity_cases sigma g.
Qed.

(** The theorem at [g3 := OR(x, ~y)] with the flag [mir_pos] only, in the
    NOT-less translation, under the assignment that makes every variable
    true: the one clause is [(-3, 1, -2)]. *)
Lemma polarity_clauses_meaning_witness :
  exists v,
    gate_function tOR 0 0 (map (lit_value (fun _ => true)) [1; -2]) = Some v /\
    (cnf_sat (fun _ => true) [ [-3; 1; -2] ] = true <->
     (true = true -> lit_value (fun _ => true) 3 = true -> v = true) /\
     (false = true -> lit_value (fun _ => true) 3 = false -> v = false)).
Proof.
  apply (polarity_clauses_meaning ex_or_not_pos 3
           (set_mir_pos true
              (set_temp 3 (gate_of tOR 3 [(1%nat, 0%nat); (2%nat, 2%nat)])))
           true _ [1; -2] (fun _ => true)).
  - reflexivity.
  - discriminate.
  - discriminate.
  - discriminate.
  - discriminate.
  - split; [cbn; lia|]. split; [intros [H|H]; discriminate H | discriminate].
  - reflexivity.
  - reflexivity.
  - cbn. lia.
  - repeat constructor; lia.
Defined.

(** X4: for a gate in CNF normal form, [cnf_count_clauses_polarity]
    returns the number of the clauses that [cnf_get_clauses_polarity]
    produces, with one exception: at a NOT gate in the NOT-less translation
    the count stops with an internal error, while the clauses are
    returned (there are none). *)
Theorem count_polarity_agrees (hp : heap) (a : nat) (g : Gate) (notless : bool) :
  hp !! a = Some g -> normalized_gate hp g notless ->
  exists ps, cnf_get_clauses_polarity hp a notless = Ok ps /\
    (type g = tNOT -> notless = true ->
     ps = [] /\ cnf_count_clauses_polarity hp a notless = Err InternalError) /\
    (type g <> tNOT \/ notless = false ->
     cnf_count_clauses_polarity hp a notless = Ok (Z.of_nat (length ps))).
Proof.
  intros Ha [Hch Hn].
  destruct (lit_ok_map_children _ _ _ Hch) as [ls Hls].
  pose proof (map_children_neg _ _ _ _ Hls) as Hneg.
  pose proof (map_children_length _ _ _ Hls) as Hlen.
  unfold cnf_get_clauses_polarity, cnf_count_clauses_polarity.
  rewrite (deref_lookup _ _ _ Ha). cbn [rbind].
  unfold binary_lits, ite_lits, count_children, nth_child, child_gates in *.
  destruct (type g) eqn:Et; try contradiction.
  - (* EQUIV *)
    destruct (children g) as [|[e1 c1] [|[e2 c2] [|? ?]]]; try discriminate Hn.
    simpl in *.
    apply Forall_cons in Hch; destruct Hch as [[l1 Hl1]%lit_ok_child_lit Hch].
    apply Forall_cons in Hch; destruct Hch as [[l2 Hl2]%lit_ok_child_lit Hch].
    rewrite Hl1, Hl2. simpl. eexists. split; [reflexivity|].
    split; [discriminate|]. intros _.
    destruct (mir_pos g), (mir_neg g); reflexivity.
  - (* OR *)
    destruct Hn as [Hn1 Hn2]. rewrite Hls, Hneg.
    fold (count_children g). rewrite count_children_small by lia.
    destruct (Z.leb_spec 1 (Z.of_nat (length (children g)))); [|lia].
    cbn [rassert rbind].
    destruct (mir_pos g), (mir_neg g); cbn [rbind app length];
      (eexists; split; [reflexivity|]; split; [discriminate|]; intros _);
      cbn [app length]; rewrite ?length_app, ?length_map, ?Hlen, ?length_map;
      cbn [length]; f_equal;
      rewrite ?Z.add_0_l, ?(u32_id 1), ?(u32_id (Z.of_nat (length (children g))))
        by (unfold in_u32; lia);
      rewrite ?u32_id by (unfold in_u32; lia); lia.
  - (* AND *)
    destruct Hn as [Hn1 Hn2]. rewrite Hls, Hneg.
    fold (count_children g). rewrite count_children_small by lia.
    destruct (Z.leb_spec 1 (Z.of_nat (length (children g)))); [|lia].
    cbn [rassert rbind].
    destruct (mir_pos g), (mir_neg g); cbn [rbind app length];
      (eexists; split; [reflexivity|]; split; [discriminate|]; intros _);
      cbn [app length]; rewrite ?length_app, ?length_map, ?Hlen, ?length_map;
      cbn [length]; f_equal;
      rewrite ?Z.add_0_l, ?(u32_id 1), ?(u32_id (Z.of_nat (length (children g))))
        by (unfold in_u32; lia);
      rewrite ?u32_id by (unfold in_u32; lia); lia.
  - (* EVEN *)
    destruct (children g) as [|[e1 c1] [|[e2 c2] [|? ?]]]; try discriminate Hn.
    simpl in *.
    apply Forall_cons in Hch; destruct Hch as [[l1 Hl1]%lit_ok_child_lit Hch].
    apply Forall_cons in Hch; destruct Hch as [[l2 Hl2]%lit_ok_child_lit Hch].
    rewrite Hl1, Hl2. simpl. eexists. split; [reflexivity|].
    split; [discriminate|]. intros _.
    destruct (mir_pos g), (mir_neg g); reflexivity.
  - (* ODD *)
    destruct (children g) as [|[e1 c1] [|[e2 c2] [|? ?]]]; try discriminate Hn.
    simpl in *.
    apply Forall_cons in Hch; destruct Hch as [[l1 Hl1]%lit_ok_child_lit Hch].
    apply Forall_cons in Hch; destruct Hch as [[l2 Hl2]%lit_ok_child_lit Hch].
    rewrite Hl1, Hl2. simpl. eexists. split; [reflexivity|].
    split; [discriminate|]. intros _.
    destruct (mir_pos g), (mir_neg g); reflexivity.
  - (* ITE *)
    destruct (children g) as [|[e1 c1] [|[e2 c2] [|[e3 c3] [|? ?]]]];
      try discriminate Hn.
    simpl in *.
    apply Forall_cons in Hch; destruct Hch as [[l1 Hl1]%lit_ok_child_lit Hch].
    apply Forall_cons in Hch; destruct Hch as [[l2 Hl2]%lit_ok_child_lit Hch].
    apply Forall_cons in Hch; destruct Hch as [[l3 Hl3]%lit_ok_child_lit Hch].
    rewrite Hl1, Hl2, Hl3. simpl. eexists. split; [reflexivity|].
    split; [discriminate|]. intros _.
    destruct (mir_pos g), (mir_neg g); reflexivity.
  - (* NOT *)
    destruct Hn as [Hn1 Hn2].
    destruct (children g) as [|[e1 c1] [|? ?]]; try discriminate Hn1.
    simpl in *. inversion Hch as [|? ? (cg & Hcg & _) _]; subst.
    rewrite (deref_lookup _ _ _ Hcg). simpl.
    destruct notless.
    + destruct (Hn2 eq_refl) as [Hd Hc]. rewrite Hd.
      specialize (Hc c1 cg eq_refl Hcg). apply is_type_false in Hc.
      rewrite Hc. exists []. split; [reflexivity|]. split; [auto|].
      intros [H|H]; [congruence | discriminate H].
    + eexists. split; [reflexivity|]. split; [discriminate|]. intros _.
      destruct (mir_pos g), (mir_neg g); reflexivity.
  - (* TRUE *)
    destruct Hn as [-> ->]. simpl. exists []. split; [reflexivity|].
    split; [discriminate|]. reflexivity.
  - (* FALSE *)
    destruct Hn as [-> ->]. simpl. exists []. split; [reflexivity|].
    split; [discriminate|]. reflexivity.
  - (* VAR *)
    exists []. split; [reflexivity|]. split; [discriminate|]. reflexivity.
Qed.

(** The theorem at the NOT gate of [g3 := OR(x, ~y)] in the NOT-less
    translation. *)
Lemma count_polarity_agrees_witness :
  exists ps, cnf_get_clauses_polarity ex_or_not 2 true = Ok ps /\
    (tNOT = tNOT -> true = true ->
     ps = [] /\ cnf_count_clauses_polarity ex_or_not 2 true = Err InternalError) /\
    (tNOT <> tNOT \/ true = false ->
     cnf_count_clauses_polarity ex_or_not 2 true = Ok (Z.of_nat (length ps))).
Proof.
  apply (count_polarity_agrees ex_or_not 2
           (set_temp (-1) (gate_of tNOT 2 [(0%nat, 1%nat)])) true).
  - reflexivity.
  - split.
    + repeat constructor. eexists. split; [reflexivity|]. discriminate.
    + cbn. split; [reflexivity|]. intros _. split; [reflexivity|].
      intros c cg [= <-] Hcg. vm_compute in Hcg. injection Hcg as <-. discriminate.
Defined.

(** ** [Gate::comp] is an ordering *)

Lemma comp_children_antisym (hp : heap) (cs1 cs2 : list nat) (x : Z) :
  comp_children hp cs1 cs2 = Ok x -> comp_children hp cs2 cs1 = Ok (- x).
Proof.
  revert cs2. induction cs1 as [|c1 cs1 IH]; intros [|c2 cs2] H; cbn in H |- *;
    try (injection H as <-; reflexivity).
  inv_bind H as g1 H1. inv_bind H as g2 H2. rewrite H1, H2. cbn [rbind].
  destruct (Z.ltb_spec (index g1) (index g2)), (Z.ltb_spec (index g2) (index g1));
    try lia; try (injection H as <-; reflexivity).
  apply IH. exact H.
Qed.

Lemma comp_antisym_gen (hp : heap) (a b : nat) (x : Z) :
  (0 < x -> forall g o, a <> b -> hp !! a = Some g -> hp !! b = Some o ->
            type g = tVAR -> type o = tVAR -> index g <> index o) ->
  comp hp a b = Ok x -> comp hp b a = Ok (- x).
Proof.
  intros Hvar H. unfold comp in *.
  destruct (decide (a = b)) as [->|Hne].
  - rewrite bool_decide_eq_true_2 in * by reflexivity. injection H as <-. reflexivity.
  - rewrite bool_decide_eq_false_2 in H by exact Hne.
    rewrite bool_decide_eq_false_2 by congruence.
    inv_bind H as g Hg. inv_bind H as o Ho. rewrite Hg, Ho. cbn [rbind].
    apply deref_Ok in Hg, Ho.
    destruct (Z.ltb_spec (type_rank (type g)) (type_rank (type o))) as [L1|L1],
             (Z.ltb_spec (type_rank (type o)) (type_rank (type g))) as [L2|L2];
      try lia; try (injection H as <-; reflexivity).
    assert (Ht : type o = type g) by (apply type_rank_inj; lia).
    rewrite Ht in *.
    destruct (type g) eqn:Ety; try discriminate H;
      try (apply comp_children_antisym; exact H);
      try (injection H as <-; reflexivity).
    + (* VAR *)
      destruct (Z.ltb_spec (index g) (index o)), (Z.ltb_spec (index o) (index g));
        try lia; injection H as <-; try reflexivity.
      exfalso. apply (Hvar ltac:(lia) g o Hne Hg Ho Ety Ht). lia.
    + (* THRESHOLD *)
      destruct (Z.ltb_spec (tmin g) (tmin o)), (Z.ltb_spec (tmin o) (tmin g));
        try lia; try (injection H as <-; reflexivity).
      destruct (Z.ltb_spec (tmax g) (tmax o)), (Z.ltb_spec (tmax o) (tmax g));
        try lia; try (injection H as <-; reflexivity).
      apply comp_children_antisym; exact H.
    + (* ATLEAST *)
      destruct (Z.ltb_spec (tmin g) (tmin o)), (Z.ltb_spec (tmin o) (tmin g));
        try lia; try (injection H as <-; reflexivity).
      apply comp_children_antisym; exact H.
Qed.

(** X5: [comp] is antisymmetric: when [comp(a, b)] returns [x],
    [comp(b, a)] returns [-x], provided two different input gates have
    different [index] values (as installed gates do). *)
Theorem comp_antisymmetric (hp : heap) (a b : nat) (x : Z) :
  (forall g o, a <> b -> hp !! a = Some g -> hp !! b = Some o ->
               type g = tVAR -> type o = tVAR -> index g <> index o) ->
  comp hp a b = Ok x -> comp hp b a = Ok (- x).
Proof.
  intros Hvar. apply comp_antisym_gen. intros _. exact Hvar.
Qed.

(** The theorem at the two gates [OR(g0,g1)] of [ex_two_ors]. *)
Lemma comp_antisymmetric_witness : comp ex_two_ors 3 2 = Ok (- 0).
Proof.
  apply (comp_antisymmetric ex_two_ors 2 3 0).
  - intros g o _ Hg Ho Hv. vm_compute in Hg. injection Hg as <-. discriminate Hv.
  - reflexivity.
Defined.

Lemma comp_children_range (hp : heap) (cs1 cs2 : list nat) (x : Z) :
  comp_children hp cs1 cs2 = Ok x -> x = -1 \/ x = 0 \/ x = 1.
Proof.
  revert cs2. induction cs1 as [|c1 cs1 IH]; intros [|c2 cs2] H; cbn in H;
    try (injection H as <-; lia).
  inv_bind H as g1 H1. inv_bind H as g2 H2.
  destruct (index g1 <? index g2); [injection H as <-; lia|].
  destruct (index g2 <? index g1); [injection H as <-; lia|].
  eapply IH. exact H.
Qed.

Lemma comp_children_trans (hp : heap) (cs1 cs2 cs3 : list nat) (x y : Z) :
  comp_children hp cs1 cs2 = Ok x -> comp_children hp cs2 cs3 = Ok y ->
  x <= 0 -> y <= 0 ->
  exists z, comp_children hp cs1 cs3 = Ok z /\ z <= 0 /\ (z = 0 -> x = 0 /\ y = 0).
Proof.
  revert cs2 cs3 x y.
  induction cs1 as [|c1 cs1 IH]; intros [|c2 cs2] [|c3 cs3] x y H1 H2 Hx Hy;
    cbn in H1, H2 |- *;
    try (injection H1 as <-); try (injection H2 as <-); try lia;
    try (eexists; split; [reflexivity|]; lia).
  - inv_bind H1 as g1 E1. inv_bind H1 as g2 E2.
    inv_bind H2 as g2' E2'. inv_bind H2 as g3 E3.
    rewrite E2 in E2'. injection E2' as <-.
    rewrite E1, E3. cbn [rbind].
    destruct (Z.ltb_spec (index g1) (index g2)).
    + injection H1 as <-.
      destruct (Z.ltb_spec (index g2) (index g3)).
      * destruct (Z.ltb_spec (index g1) (index g3)); [|lia].
        eexists. split; [reflexivity|]. lia.
      * destruct (Z.ltb_spec (index g3) (index g2)); [injection H2 as <-; lia|].
        destruct (Z.ltb_spec (index g1) (index g3)); [|lia].
        eexists. split; [reflexivity|]. lia.
    + destruct (Z.ltb_spec (index g2) (index g1)); [injection H1 as <-; lia|].
      destruct (Z.ltb_spec (index g2) (index g3)).
      * injection H2 as <-.
        destruct (Z.ltb_spec (index g1) (index g3)); [|lia].
        eexists. split; [reflexivity|]. lia.
      * destruct (Z.ltb_spec (index g3) (index g2)); [injection H2 as <-; lia|].
        destruct (Z.ltb_spec (index g1) (index g3)); [lia|].
        destruct (Z.ltb_spec (index g3) (index g1)); [lia|].
        eapply IH; eassumption.
Qed.

(** X6: [comp] is transitive: when [comp(a, b)] and [comp(b, c)] return
    values that are not positive, [comp(a, c)] returns a value that is not
    positive either, and it is zero only if both were zero. *)
Theorem comp_transitive (hp : heap) (a b c : nat) (x y : Z) :
  comp hp a b = Ok x -> comp hp b c = Ok y -> x <= 0 -> y <= 0 ->
  exists z, comp hp a c = Ok z /\ z <= 0 /\ (z = 0 -> x = 0 /\ y = 0).
Proof.
  intros H1 H2 Hx Hy.
  destruct (decide (a = b)) as [->|Hab].
  { unfold comp in H1. rewrite bool_decide_eq_true_2 in H1 by reflexivity.
    injection H1 as <-. exists y. split; [exact H2|]. lia. }
  destruct (decide (b = c)) as [->|Hbc].
  { unfold comp in H2. rewrite bool_decide_eq_true_2 in H2 by reflexivity.
    injection H2 as <-. exists x. split; [exact H1|]. lia. }
  destruct (decide (a = c)) as [->|Hac].
  { exists 0. split; [unfold comp; rewrite bool_decide_eq_true_2 by reflexivity;
                      reflexivity|].
    split; [lia|]. intros _.
    apply comp_antisym_gen in H1; [|lia]. rewrite H1 in H2. injection H2 as <-. lia. }
  unfold comp in *.
  rewrite bool_decide_eq_false_2 in H1 by exact Hab.
  rewrite bool_decide_eq_false_2 in H2 by exact Hbc.
  rewrite bool_decide_eq_false_2 by exact Hac.
  inv_bind H1 as g Hg. inv_bind H1 as o Ho.
  inv_bind H2 as o' Ho'. inv_bind H2 as p Hp.
  rewrite Ho in Ho'. injection Ho' as <-.
  rewrite Hg, Hp. cbn [rbind].
  destruct (Z.ltb_spec (type_rank (type g)) (type_rank (type o))) as [L1|L1].
  { injection H1 as <-.
    destruct (Z.ltb_spec (type_rank (type o)) (type_rank (type p))) as [L2|L2].
    - destruct (Z.ltb_spec (type_rank (type g)) (type_rank (type p))); [|lia].
      eexists. split; [reflexivity|]. lia.
    - destruct (Z.ltb_spec (type_rank (type p)) (type_rank (type o)));
        [injection H2 as <-; lia|].
      destruct (Z.ltb_spec (type_rank (type g)) (type_rank (type p))); [|lia].
      eexists. split; [reflexivity|]. lia. }
  destruct (Z.ltb_spec (type_rank (type o)) (type_rank (type g))) as [L1'|L1'];
    [injection H1 as <-; lia|].
  assert (Ht1 : type o = type g) by (apply type_rank_inj; lia).
  destruct (Z.ltb_spec (type_rank (type o)) (type_rank (type p))) as [L2|L2].
  { injection H2 as <-.
    destruct (Z.ltb_spec (type_rank (type g)) (type_rank (type p))); [|lia].
    eexists. split; [reflexivity|]. lia. }
  destruct (Z.ltb_spec (type_rank (type p)) (type_rank (type o))) as [L2'|L2'];
    [injection H2 as <-; lia|].
  assert (Ht2 : type p = type g) by (apply type_rank_inj; lia).
  destruct (Z.ltb_spec (type_rank (type g)) (type_rank (type p))); [lia|].
  destruct (Z.ltb_spec (type_rank (type p)) (type_rank (type g))); [lia|].
  rewrite Ht1 in *. clear Ht1 Ht2 L1 L1' L2 L2'.
  destruct (type g) eqn:Ety; try discriminate H1;
    try (eapply comp_children_trans; eassumption);
    try (injection H1 as <-; injection H2 as <-; eexists; split; [reflexivity|]; lia).
  - (* VAR *)
    destruct (Z.ltb_spec (index g) (index o)); [|injection H1 as <-; lia].
    destruct (Z.ltb_spec (index o) (index p)); [|injection H2 as <-; lia].
    destruct (Z.ltb_spec (index g) (index p)); [|lia].
    eexists. split; [reflexivity|]. lia.
  - (* THRESHOLD *)
    destruct (Z.ltb_spec (tmin g) (tmin o)).
    { destruct (Z.ltb_spec (tmin o) (tmin p)).
      - destruct (Z.ltb_spec (tmin g) (tmin p)); [|lia].
        eexists. split; [reflexivity|]. injection H1 as <-. lia.
      - destruct (Z.ltb_spec (tmin p) (tmin o)); [injection H2 as <-; lia|].
        destruct (Z.ltb_spec (tmin g) (tmin p)); [|lia].
        eexists. split; [reflexivity|]. injection H1 as <-. lia. }
    destruct (Z.ltb_spec (tmin o) (tmin g)); [injection H1 as <-; lia|].
    destruct (Z.ltb_spec (tmin o) (tmin p)).
    { destruct (Z.ltb_spec (tmin g) (tmin p)); [|lia].
      eexists. split; [reflexivity|]. injection H2 as <-. lia. }
    destruct (Z.ltb_spec (tmin p) (tmin o)); [injection H2 as <-; lia|].
    destruct (Z.ltb_spec (tmin g) (tmin p)); [lia|].
    destruct (Z.ltb_spec (tmin p) (tmin g)); [lia|].
    destruct (Z.ltb_spec (tmax g) (tmax o)).
    { destruct (Z.ltb_spec (tmax o) (tmax p)).
      - destruct (Z.ltb_spec (tmax g) (tmax p)); [|lia].
        eexists. split; [reflexivity|]. injection H1 as <-. lia.
      - destruct (Z.ltb_spec (tmax p) (tmax o)); [injection H2 as <-; lia|].
        destruct (Z.ltb_spec (tmax g) (tmax p)); [|lia].
        eexists. split; [reflexivity|]. injection H1 as <-. lia. }
    destruct (Z.ltb_spec (tmax o) (tmax g)); [injection H1 as <-; lia|].
    destruct (Z.ltb_spec (tmax o) (tmax p)).
    { destruct (Z.ltb_spec (tmax g) (tmax p)); [|lia].
      eexists. split; [reflexivity|]. injection H2 as <-. lia. }
    destruct (Z.ltb_spec (tmax p) (tmax o)); [injection H2 as <-; lia|].
    destruct (Z.ltb_spec (tmax g) (tmax p)); [lia|].
    destruct (Z.ltb_spec (tmax p) (tmax g)); [lia|].
    eapply comp_children_trans; eassumption.
  - (* ATLEAST *)
    destruct (Z.ltb_spec (tmin g) (tmin o)).
    { destruct (Z.ltb_spec (tmin o) (tmin p)).
      - destruct (Z.ltb_spec (tmin g) (tmin p)); [|lia].
        eexists. split; [reflexivity|]. injection H1 as <-. lia.
      - destruct (Z.ltb_spec (tmin p) (tmin o)); [injection H2 as <-; lia|].
        destruct (Z.ltb_spec (tmin g) (tmin p)); [|lia].
        eexists. split; [reflexivity|]. injection H1 as <-. lia. }
    destruct (Z.ltb_spec (tmin o) (tmin g)); [injection H1 as <-; lia|].
    destruct (Z.ltb_spec (tmin o) (tmin p)).
    { destruct (Z.ltb_spec (tmin g) (tmin p)); [|lia].
      eexists. split; [reflexivity|]. injection H2 as <-. lia. }
    destruct (Z.ltb_spec (tmin p) (tmin o)); [injection H2 as <-; lia|].
    destruct (Z.ltb_spec (tmin g) (tmin p)); [lia|].
    destruct (Z.ltb_spec (tmin p) (tmin g)); [lia|].
    eapply comp_children_trans; eassumption.
Qed.

(** The theorem at the two gates [OR(g0,g1)] of [ex_two_ors] and the input
    gate [g0]. *)
Lemma comp_transitive_witness :
  exists z, comp ex_two_ors 2 0 = Ok z /\ z <= 0 /\ (z = 0 -> 0 = 0 /\ -1 = 0).
Proof.
  apply (comp_transitive ex_two_ors 2 3 0 0 (-1)).
  - reflexivity.
  - reflexivity.
  - lia.
  - lia.
Defined.

(** ** The radix sort of [Gate::sort_children] *)

Lemma radix_digit_mod (shift : Z) (p : Z * nat) :
  0 <= shift -> radix_digit shift p = (fst p / 2 ^ shift) mod 32.
Proof.
  intros Hs. unfold radix_digit.
  rewrite Z.shiftr_div_pow2 by exact Hs.
  change 31 with (Z.ones 5). rewrite Z.land_ones by lia. reflexivity.
Qed.

Lemma radix_digit_range (shift : Z) (p : Z * nat) :
  0 <= shift -> 0 <= radix_digit shift p < 32.
Proof.
  intros Hs. rewrite radix_digit_mod by exact Hs. apply Z.mod_pos_bound. lia.
Qed.

(** The five bits of a digit and the bits below them. *)
Lemma key_split (shift x : Z) :
  0 <= shift ->
  x mod 2 ^ (shift + 5) = x mod 2 ^ shift + 2 ^ shift * ((x / 2 ^ shift) mod 32).
Proof.
  intros Hs. rewrite Z.pow_add_r by lia. change (2 ^ 5) with 32.
  apply Z.rem_mul_r; lia.
Qed.

Lemma low_split (shift x : Z) :
  0 <= shift ->
  x mod 2 ^ (shift + 1) =
  x mod 2 ^ shift + 2 ^ shift * (((x / 2 ^ shift) mod 32) mod 2).
Proof.
  intros Hs. rewrite Z.pow_add_r by lia. change (2 ^ 1) with 2.
  rewrite Z.rem_mul_r by lia. do 2 f_equal.
  symmetry. apply Z.mod_mod_divide. exists 16. lia.
Qed.

Lemma bucket_elem (shift d : Z) (l : list (Z * nat)) (p : Z * nat) :
  p ∈ bucket shift d l <-> p ∈ l /\ radix_digit shift p = d.
Proof.
  induction l as [|q l IH]; cbn.
  - rewrite elem_of_nil. tauto.
  - destruct (Z.eqb_spec (radix_digit shift q) d) as [E|E];
      rewrite ?elem_of_cons, IH, ?elem_of_cons; intuition congruence.
Qed.

(** A bucket keeps the order that the list has. *)
Lemma bucket_sorted (R : Z * nat -> Z * nat -> Prop) (shift d : Z)
    (l : list (Z * nat)) :
  StronglySorted R l -> StronglySorted R (bucket shift d l).
Proof.
  induction 1 as [|q l Hl IH Hq]; cbn; [constructor|].
  destruct (radix_digit shift q =? d); [|exact IH].
  constructor; [exact IH|].
  apply Forall_forall. intros p Hp. apply bucket_elem in Hp.
  rewrite Forall_forall in Hq. apply Hq. tauto.
Qed.

Lemma radix_pass_cons (shift : Z) (p : Z * nat) (l : list (Z * nat)) (ds : list nat) :
  NoDup ds ->
  flat_map (fun d => bucket shift (Z.of_nat d) (p :: l)) ds ≡ₚ
  (if bool_decide (Z.to_nat (radix_digit shift p) ∈ ds) then [p] else []) ++
  flat_map (fun d => bucket shift (Z.of_nat d) l) ds.
Proof.
  induction 1 as [|d ds Hd Hds IH]; cbn [flat_map bucket].
  - rewrite bool_decide_eq_false_2 by (apply not_elem_of_nil). reflexivity.
  - rewrite IH. clear IH.
    assert (Hto : Z.to_nat (radix_digit shift p) = d <-> radix_digit shift p = Z.of_nat d).
    { assert (0 <= radix_digit shift p) by (apply Z.land_nonneg; lia). lia. }
    destruct (Z.eqb_spec (radix_digit shift p) (Z.of_nat d)) as [E|E];
      repeat case_bool_decide; rewrite ?elem_of_cons in *; cbn [app];
      try reflexivity; try (rewrite Permutation_middle; reflexivity);
      exfalso; intuition congruence.
Qed.

Lemma radix_pass_perm (shift : Z) (l : list (Z * nat)) :
  0 <= shift -> radix_pass shift l ≡ₚ l.
Proof.
  intros Hs. unfold radix_pass. induction l as [|p l IH].
  - reflexivity.
  - rewrite radix_pass_cons by (apply NoDup_seq). rewrite IH.
    rewrite bool_decide_eq_true_2; [reflexivity|].
    apply elem_of_seq. pose proof (radix_digit_range shift p Hs). lia.
Qed.

Lemma low_key_next (shift : Z) (p : Z * nat) :
  0 <= shift -> low_key (shift + 4) p = fst p mod 2 ^ (shift + 5).
Proof.
  intros Hs. unfold low_key. destruct (Z.eqb_spec (shift + 4) 0); [lia|].
  do 2 f_equal. lia.
Qed.

Lemma key_lt (shift : Z) (p q : Z * nat) :
  0 <= shift -> radix_digit shift p < radix_digit shift q ->
  low_key (shift + 4) p < low_key (shift + 4) q.
Proof.
  intros Hs. rewrite !low_key_next, !radix_digit_mod, !key_split by exact Hs.
  intros Hd.
  pose proof (Z.mod_pos_bound (fst p) (2 ^ shift) ltac:(lia)).
  pose proof (Z.mod_pos_bound (fst q) (2 ^ shift) ltac:(lia)).
  nia.
Qed.

Lemma key_le (shift : Z) (p q : Z * nat) :
  0 <= shift -> radix_digit shift p = radix_digit shift q ->
  low_key shift p <= low_key shift q ->
  low_key (shift + 4) p <= low_key (shift + 4) q.
Proof.
  intros Hs. rewrite !low_key_next, !radix_digit_mod, !key_split by exact Hs.
  intros Hd. rewrite Hd. unfold low_key.
  destruct (Z.eqb_spec shift 0) as [->|Hne].
  - intros _. change (2 ^ 0) with 1. rewrite !Z.mod_1_r. lia.
  - rewrite !low_split, Hd by exact Hs. lia.
Qed.

Lemma StronglySorted_app_2 {A : Type} (R : A -> A -> Prop) (l1 l2 : list A) :
  StronglySorted R l1 -> StronglySorted R l2 ->
  (forall x y, x ∈ l1 -> y ∈ l2 -> R x y) ->
  StronglySorted R (l1 ++ l2).
Proof.
  induction 1 as [|x l1 Hl1 IH Hx]; intros H2 H12; cbn; [exact H2|].
  constructor.
  - apply IH; [exact H2|]. intros a b Ha Hb. apply H12; [|exact Hb].
    apply elem_of_cons. auto.
  - apply Forall_app. split; [exact Hx|].
    apply Forall_forall. intros y Hy. apply H12; [|exact Hy]. apply elem_of_cons. auto.
Qed.

Lemma bucket_sorted_key (shift d : Z) (l : list (Z * nat)) :
  0 <= shift ->
  StronglySorted (fun p q => low_key shift p <= low_key shift q) l ->
  StronglySorted (fun p q => low_key (shift + 4) p <= low_key (shift + 4) q)
                 (bucket shift d l).
Proof.
  intros Hs. induction 1 as [|q l Hl IH Hq]; cbn; [constructor|].
  destruct (Z.eqb_spec (radix_digit shift q) d) as [E|E]; [|exact IH].
  constructor; [exact IH|].
  apply Forall_forall. intros p Hp. apply bucket_elem in Hp. destruct Hp as [Hp Hd].
  rewrite Forall_forall in Hq. apply key_le; [exact Hs | congruence | auto].
Qed.

Lemma buckets_sorted (shift : Z) (l : list (Z * nat)) (ds : list nat) :
  0 <= shift ->
  StronglySorted (fun p q => low_key shift p <= low_key shift q) l ->
  StronglySorted lt ds ->
  StronglySorted (fun p q => low_key (shift + 4) p <= low_key (shift + 4) q)
                 (flat_map (fun d => bucket shift (Z.of_nat d) l) ds).
Proof.
  intros Hs Hl. induction 1 as [|d ds Hds IH Hd]; cbn [flat_map]; [constructor|].
  apply StronglySorted_app_2.
  - apply bucket_sorted_key; assumption.
  - exact IH.
  - intros p q Hp Hq. apply bucket_elem in Hp. destruct Hp as [_ Hp].
    apply list_elem_of_In, in_flat_map in Hq. destruct Hq as (d' & Hd' & Hq).
    apply list_elem_of_In, bucket_elem in Hq. destruct Hq as [_ Hq].
    rewrite Forall_forall in Hd. apply list_elem_of_In, Hd in Hd'.
    apply Z.lt_le_incl, key_lt; [exact Hs | lia].
Qed.

Lemma seq_sorted (start len : nat) : StronglySorted lt (seq start len).
Proof.
  revert start. induction len as [|len IH]; intros start; cbn; constructor.
  - apply IH.
  - apply Forall_forall. intros x Hx. apply elem_of_seq in Hx. lia.
Qed.

Lemma radix_pass_sorted (shift : Z) (l : list (Z * nat)) :
  0 <= shift ->
  StronglySorted (fun p q => low_key shift p <= low_key shift q) l ->
  StronglySorted (fun p q => low_key (shift + 4) p <= low_key (shift + 4) q)
                 (radix_pass shift l).
Proof.
  intros Hs Hl. apply buckets_sorted; [exact Hs | exact Hl | apply seq_sorted].
Qed.

Lemma StronglySorted_impl_in {A : Type} (R R' : A -> A -> Prop) (l : list A) :
  (forall x y, x ∈ l -> y ∈ l -> R x y -> R' x y) ->
  StronglySorted R l -> StronglySorted R' l.
Proof.
  intros Himp H. induction H as [|x l Hl IH Hx]; constructor.
  - apply IH. intros a b Ha Hb. apply Himp; apply elem_of_cons; auto.
  - rewrite Forall_forall in *. intros y Hy.
    apply Himp; [apply elem_of_cons; auto | apply elem_of_cons; auto | auto].
Qed.

Lemma StronglySorted_trivial {A : Type} (R : A -> A -> Prop) (l : list A) :
  (forall x y, R x y) -> StronglySorted R l.
Proof.
  intros HR. induction l as [|x l IH]; constructor; [exact IH|].
  apply Forall_forall. auto.
Qed.

(** When nothing is left of the indices above [shift], the pairs are
    sorted. *)
Lemma low_key_sorted (shift : Z) (c1 : list (Z * nat)) :
  0 <= shift ->
  Forall (fun p => 0 <= fst p /\ fst p / 2 ^ shift <= 0) c1 ->
  StronglySorted (fun p q => low_key shift p <= low_key shift q) c1 ->
  index_sorted c1.
Proof.
  intros Hs Hc. apply StronglySorted_impl_in. intros x y Hx Hy.
  rewrite Forall_forall in Hc.
  destruct (Hc x Hx) as [Hx0 Hx1], (Hc y Hy) as [Hy0 Hy1].
  assert (Hpow : 0 < 2 ^ shift) by (apply Z.pow_pos_nonneg; lia).
  assert (Hlt : forall z, 0 <= z -> z / 2 ^ shift <= 0 -> z < 2 ^ shift).
  { intros z Hz Hd.
    pose proof (Z.div_pos z (2 ^ shift) Hz Hpow).
    assert (z / 2 ^ shift = 0) as Hq by lia.
    apply Z.div_small_iff in Hq; lia. }
  apply Hlt in Hx1, Hy1; try assumption.
  unfold low_key. destruct (Z.eqb_spec shift 0) as [->|Hne].
  - change (2 ^ 0) with 1 in *. lia.
  - assert (2 ^ shift < 2 ^ (shift + 1)) by (apply Z.pow_lt_mono_r; lia).
    rewrite !Z.mod_small by lia. auto.
Qed.

(** The passes of the radix sort: before the pass at [shift], the pairs
    are sorted by the bits below [shift + 1] and [largest_index] bounds
    what is left of every index above [shift]. *)
Lemma radix_sort_passes (fuel : nat) (largest_index shift : Z) (c1 : list (Z * nat)) :
  0 <= shift -> shift + 4 * Z.of_nat fuel <= 32 ->
  0 <= largest_index < 2 ^ (4 * Z.of_nat fuel) ->
  Forall (fun p => 0 <= fst p /\ fst p / 2 ^ shift <= largest_index) c1 ->
  StronglySorted (fun p q => low_key shift p <= low_key shift q) c1 ->
  exists s, radix_sort fuel largest_index shift c1 = Ok s /\ s ≡ₚ c1 /\ index_sorted s.
Proof.
  revert largest_index shift c1.
  induction fuel as [|fuel IH]; intros largest_index shift c1 Hs Hf Hl Hc Hsorted.
  - change (2 ^ (4 * Z.of_nat 0)) with 1 in Hl. assert (largest_index = 0) as -> by lia.
    cbn. exists c1. split; [reflexivity|]. split; [reflexivity|].
    apply (low_key_sorted shift); assumption.
  - cbn [radix_sort]. destruct (Z.ltb_spec 0 largest_index) as [Hpos|Hpos].
    + rewrite Z.shiftr_div_pow2 by lia. change (2 ^ 4) with 16.
      assert (Hu : u32 (shift + 4) = shift + 4) by (apply u32_id; unfold in_u32; lia).
      rewrite Hu.
      destruct (IH (largest_index / 16) (shift + 4) (radix_pass shift c1))
        as (s & Hrun & Hperm & Hsort).
      * lia.
      * lia.
      * split; [apply Z.div_pos; lia|].
        apply Z.div_lt_upper_bound; [lia|].
        replace (4 * Z.of_nat (S fuel)) with (4 + 4 * Z.of_nat fuel) in Hl by lia.
        rewrite Z.pow_add_r in Hl by lia. change (2 ^ 4) with 16 in Hl. lia.
      * apply Forall_forall. intros p Hp.
        rewrite (radix_pass_perm shift c1 Hs) in Hp.
        rewrite Forall_forall in Hc. destruct (Hc p Hp) as [Hp0 Hp1].
        split; [exact Hp0|].
        rewrite Z.pow_add_r by lia. change (2 ^ 4) with 16.
        assert (0 < 2 ^ shift) by (apply Z.pow_pos_nonneg; lia).
        rewrite <- Z.div_div by lia. apply Z.div_le_mono; lia.
      * apply radix_pass_sorted; assumption.
      * exists s. split; [exact Hrun|]. split; [|exact Hsort].
        rewrite Hperm. apply radix_pass_perm. exact Hs.
    + assert (largest_index = 0) as -> by lia.
      exists c1. split; [reflexivity|]. split; [reflexivity|].
      apply (low_key_sorted shift); assumption.
Qed.

(** The first loop of [sort_children]: the largest index, and whether the
    pairs were found in order. *)
Lemma scan_indices_bound (c1 : list (Z * nat)) (m : Z) (b : bool) :
  m <= fst (scan_indices m b c1) /\
  Forall (fun p => fst p <= fst (scan_indices m b c1)) c1.
Proof.
  revert m b. induction c1 as [|p c1 IH]; intros m b; cbn.
  - split; [lia | constructor].
  - destruct (Z.leb_spec m (fst p)).
    + destruct (IH (fst p) b) as [H1 H2]. split; [lia|]. constructor; assumption.
    + destruct (IH m false) as [H1 H2]. split; [lia|]. constructor; [lia | assumption].
Qed.

Lemma scan_indices_sorted (c1 : list (Z * nat)) (m : Z) (b : bool) :
  snd (scan_indices m b c1) = true ->
  b = true /\ Forall (fun p => m <= fst p) c1 /\ index_sorted c1.
Proof.
  revert m b. induction c1 as [|p c1 IH]; intros m b; cbn.
  - intros ->. repeat split; constructor.
  - destruct (Z.leb_spec m (fst p)) as [Hm|Hm]; intros Hscan.
    + destruct (IH _ _ Hscan) as (-> & Hall & Hs). split; [reflexivity|].
      split.
      * constructor; [assumption|]. eapply Forall_impl; [exact Hall|].
        cbn. intros. lia.
      * constructor; assumption.
    + destruct (IH _ _ Hscan) as (Hf & _). discriminate Hf.
Qed.

Lemma scan_indices_below (c1 : list (Z * nat)) (m : Z) (b : bool) (B : Z) :
  m < B -> Forall (fun p => fst p < B) c1 -> fst (scan_indices m b c1) < B.
Proof.
  revert m b. induction c1 as [|p c1 IH]; intros m b Hm Hc; cbn; [exact Hm|].
  apply Forall_cons in Hc. destruct Hc as [Hp Hc].
  destruct (m <=? fst p); apply IH; assumption.
Qed.

(** The order that [sort_children] computes for the pairs of the [index]
    and the pointer of the children: either the first loop finds them in
    order, or the radix sort returns them in order. *)
Lemma sort_children_order (c1 : list (Z * nat)) :
  Forall (fun p => 0 <= fst p < 2 ^ 32) c1 ->
  (snd (scan_indices 0 true c1) = true -> index_sorted c1) /\
  exists s, radix_sort 8 (fst (scan_indices 0 true c1)) 0 c1 = Ok s /\
            s ≡ₚ c1 /\ index_sorted s.
Proof.
  intros Hc. split.
  - intros H. apply scan_indices_sorted in H. tauto.
  - destruct (scan_indices_bound c1 0 true) as [H0 Hall].
    apply radix_sort_passes.
    + lia.
    + cbn. lia.
    + split; [exact H0|]. change (2 ^ (4 * Z.of_nat 8)) with (2 ^ 32).
      apply scan_indices_below; [lia|].
      eapply Forall_impl; [exact Hc|]. cbn. intros. lia.
    + rewrite Forall_forall in *. intros p Hp. change (2 ^ 0) with 1.
      rewrite Z.div_1_r. specialize (Hc p Hp). specialize (Hall p Hp). cbn in Hall. lia.
    + apply StronglySorted_trivial. intros. reflexivity.
Qed.

(** *** [sort_children] on the circuit *)

Lemma retarget_app (e c far : nat) (pre l : list (nat * nat)) :
  e ∉ map fst pre -> retarget e far (pre ++ (e, c) :: l) = pre ++ (e, far) :: l.
Proof.
  induction pre as [|x pre IH]; intros Hn; cbn.
  - rewrite Nat.eqb_refl. reflexivity.
  - destruct (fst x =? e)%nat eqn:E.
    + apply Nat.eqb_eq in E. exfalso. apply Hn. cbn. rewrite E. left.
    + rewrite IH; [reflexivity|]. intros Hin. apply Hn. cbn. right. exact Hin.
Qed.

(** [ca->change_child(new_child)] for an association of the gate [this]
    to a gate [child], both children other than [this]. *)
Lemma change_child_step (s : BC) (e this child new_child : nat) (g : Gate) :
  gates s !! this = Some g ->
  is_Some (gates s !! child) -> is_Some (gates s !! new_child) ->
  child <> this -> new_child <> this ->
  exists s', change_child e this child new_child s = Ok (tt, s') /\
    gates s' !! this = Some (set_children (retarget e new_child (children g)) g) /\
    others_kept this s s'.
Proof.
  intros Hg [cg Hc] [ng Hn] Hct Hnt.
  unfold change_child, unlink_child, link_child.
  rewrite (st_bind_run _ _ _ _ _ (modify_run s child cg _ Hc)).
  erewrite st_bind_run; cycle 1.
  { apply modify_run. cbn. rewrite lookup_insert_ne by auto. exact Hg. }
  cbn [gates set_gates].
  assert (Hn2 : exists ng', (<[this := set_children (retarget e new_child (children g)) g]>
                   (<[child := set_parents (unlink e (parents cg)) cg]> (gates s)))
                   !! new_child = Some ng' /\ same_but_links ng ng').
  { rewrite lookup_insert_ne by auto.
    destruct (decide (child = new_child)) as [->|Hne].
    - rewrite lookup_insert_eq. eexists. split; [reflexivity|].
      rewrite Hc in Hn. injection Hn as ->.
      apply same_but_links_parents, same_but_links_refl.
    - rewrite lookup_insert_ne by auto. exists ng. split; [exact Hn|].
      apply same_but_links_refl. }
  destruct Hn2 as (ng' & Hn2 & Hsame).
  erewrite (modify_run _ new_child ng'); [|cbn [gates set_gates]; exact Hn2].
  eexists. split; [reflexivity|]. split.
  - cbn [gates set_gates].
    rewrite lookup_insert_ne by auto. rewrite lookup_insert_eq. reflexivity.
  - intros a ga Hat Ha. cbn [gates set_gates].
    destruct (decide (a = new_child)) as [->|Han].
    + rewrite lookup_insert_eq. eexists. split; [reflexivity|].
      rewrite Hn in Ha. injection Ha as <-.
      apply same_but_links_parents. exact Hsame.
    + rewrite lookup_insert_ne by auto. rewrite lookup_insert_ne by auto.
      destruct (decide (a = child)) as [->|Hac].
      * rewrite lookup_insert_eq. eexists. split; [reflexivity|].
        rewrite Hc in Ha. injection Ha as <-.
        apply same_but_links_parents, same_but_links_refl.
      * rewrite lookup_insert_ne by auto. exists ga. split; [exact Ha|].
        apply same_but_links_refl.
Qed.

Lemma set_children_id (g : Gate) : set_children (children g) g = g.
Proof. destruct g. reflexivity. Qed.

(** The last loop of [sort_children]: the associations get the children
    in their new order. *)
Lemma sort_children_loop (this : nat) (todo : list (nat * nat)) :
  forall (sorted : list (Z * nat)) (pre : list (nat * nat)) (s : BC) (gs : Gate),
  gates s !! this = Some gs -> children gs = pre ++ todo ->
  NoDup (map fst (pre ++ todo)) ->
  length sorted = length todo ->
  (forall c, c ∈ map snd todo \/ c ∈ map snd sorted ->
             c <> this /\ is_Some (gates s !! c)) ->
  exists s',
    loop (R := unit) todo sorted (fun rest ca =>
      match rest with
      | [] => st_fail NullPointer
      | p :: rest' =>
          change_child (fst ca) this (snd ca) (snd p);;
          st_ret (inl rest')
      end) s = Ok (inl [], s') /\
    gates s' !! this =
      Some (set_children
              (pre ++ zip_with (fun ca p => (fst ca, snd p)) todo sorted) gs) /\
    others_kept this s s'.
Proof.
  induction todo as [|[e c] todo IH]; intros sorted pre s gs Hg Hch Hnd Hlen Hval.
  - destruct sorted; [|discriminate Hlen]. cbn. exists s.
    split; [reflexivity|]. split; [|apply others_kept_refl].
    rewrite app_nil_r in *. rewrite <- Hch, set_children_id. exact Hg.
  - destruct sorted as [|p sorted]; [discriminate Hlen|].
    cbn [loop].
    destruct (Hval c) as [Hc1 Hc2]; [left; cbn; apply elem_of_cons; auto|].
    destruct (Hval (snd p)) as [Hp1 Hp2]; [right; cbn; apply elem_of_cons; auto|].
    destruct (change_child_step s e this c (snd p) gs Hg Hc2 Hp2 Hc1 Hp1)
      as (s1 & Hrun & Hthis1 & Hk1).
    erewrite st_bind_run; cycle 1.
    { cbn [fst snd]. rewrite (st_bind_run _ _ _ _ _ Hrun). reflexivity. }
    assert (He : e ∉ map fst pre).
    { rewrite map_app in Hnd. apply NoDup_app in Hnd. destruct Hnd as (_ & Hd & _).
      intros Hin. apply (Hd e Hin). cbn. apply elem_of_cons. auto. }
    rewrite Hch, (retarget_app _ _ _ _ _ He) in Hthis1.
    destruct (IH sorted (pre ++ [(e, snd p)]) s1 _ Hthis1) as (s' & Hloop & Hthis' & Hk').
    + cbn. rewrite <- app_assoc. reflexivity.
    + rewrite <- app_assoc. cbn [app]. rewrite map_app in Hnd |- *. exact Hnd.
    + cbn in Hlen. lia.
    + intros c' Hc'. destruct (Hval c') as [Hn [gc Hgc]].
      { cbn. rewrite !elem_of_cons. tauto. }
      split; [exact Hn|]. destruct (Hk1 c' gc Hn Hgc) as (gc' & Hgc' & _). eauto.
    + exists s'. split; [exact Hloop|]. split.
      * rewrite Hthis'. cbn [zip_with fst snd]. rewrite <- app_assoc.
        destruct gs. reflexivity.
      * eapply others_kept_trans; eassumption.
Qed.

Lemma collect_indices (s : BC) (l : list (nat * nat)) :
  (forall c, c ∈ map snd l -> is_Some (gates s !! c)) ->
  collect l (fun ca => let* cg := gate (snd ca) in st_ret (index cg, snd ca)) s =
  Ok (map (fun ca => (child_index (gates s) (snd ca), snd ca)) l, s).
Proof.
  induction l as [|ca l IH]; intros Hval; cbn [collect map]; [reflexivity|].
  destruct (Hval (snd ca)) as [cg Hcg]; [cbn; apply elem_of_cons; auto|].
  erewrite st_bind_run; cycle 1.
  { erewrite st_bind_run; [|apply gate_run; exact Hcg]. reflexivity. }
  rewrite (st_bind_run _ _ _ _ _ (IH ltac:(intros c Hc; apply Hval; cbn;
                                           apply elem_of_cons; auto))).
  unfold st_ret, child_index. rewrite Hcg. reflexivity.
Qed.

Lemma index_sorted_pointers (f : nat -> Z) (s : list (Z * nat)) :
  index_sorted s -> (forall p, p ∈ s -> fst p = f (snd p)) ->
  StronglySorted (fun c d => f c <= f d) (map snd s).
Proof.
  induction 1 as [|p s Hs IH Hp]; intros Hf; cbn; constructor.
  - apply IH. intros q Hq. apply Hf, elem_of_cons. auto.
  - apply Forall_map. rewrite Forall_forall in *. intros q Hq. cbn.
    rewrite <- (Hf p), <- (Hf q) by (apply elem_of_cons; auto). auto.
Qed.

Lemma zip_with_fst (l : list (nat * nat)) (s : list (Z * nat)) :
  length s = length l ->
  map fst (zip_with (fun ca p => (fst ca, snd p)) l s) = map fst l /\
  map snd (zip_with (fun ca p => (fst ca, snd p)) l s) = map snd s.
Proof.
  revert s. induction l as [|ca l IH]; intros [|p s] Hlen; try discriminate Hlen.
  - split; reflexivity.
  - cbn. destruct (IH s) as [-> ->]; [cbn in Hlen; lia|]. split; reflexivity.
Qed.

Lemma others_kept_index (this : nat) (bc bc' : BC) (c : nat) :
  others_kept this bc bc' -> c <> this -> is_Some (gates bc !! c) ->
  child_index (gates bc') c = child_index (gates bc) c.
Proof.
  intros Hk Hne [cg Hc]. destruct (Hk c cg Hne Hc) as (cg' & Hc' & Hsame).
  unfold child_index. rewrite Hc, Hc'. unfold same_but_links in Hsame.
  rewrite Hsame. reflexivity.
Qed.

(** [sort_children] on a commutative gate. *)
Lemma sort_children_run (bc : BC) (this : nat) (g : Gate) :
  sort_ready bc this g -> is_commutative g = true ->
  exists bc' g', sort_children this bc = Ok (tt, bc') /\
    gates bc' !! this = Some g' /\
    g' = set_children (children g') g /\
    map fst (children g') = map fst (children g) /\
    child_gates g' ≡ₚ child_gates g /\
    StronglySorted
      (fun c d => child_index (gates bc') c <= child_index (gates bc') d)
      (child_gates g') /\
    others_kept this bc bc'.
Proof.
  intros (Hg & Hnd & Hch) Hcomm. unfold sort_children.
  rewrite (st_bind_run _ _ _ _ _ (gate_run bc this g Hg)). rewrite Hcomm. cbn [negb].
  assert (Hval : forall c, c ∈ map snd (children g) -> is_Some (gates bc !! c)).
  { intros c Hc. destruct (Hch c Hc) as (_ & cg & Hcg & _). eauto. }
  pose proof (collect_indices bc (children g) Hval) as Hcollect.
  set (c1 := map (fun ca => (child_index (gates bc) (snd ca), snd ca)) (children g)) in *.
  assert (Hc1 : map snd c1 = child_gates g).
  { unfold c1, child_gates. rewrite map_map. reflexivity. }
  assert (Hfst : forall p, p ∈ c1 -> fst p = child_index (gates bc) (snd p)).
  { intros p Hp. unfold c1 in Hp. apply list_elem_of_fmap in Hp.
    destruct Hp as (ca & -> & _). reflexivity. }
  assert (Hrange : Forall (fun p => 0 <= fst p < 2 ^ 32) c1).
  { apply Forall_forall. intros p Hp. rewrite (Hfst p Hp).
    assert (Hin : snd p ∈ child_gates g).
    { rewrite <- Hc1. apply list_elem_of_fmap. eauto. }
    destruct (Hch _ Hin) as (_ & cg & Hcg & Hi). unfold child_index. rewrite Hcg. exact Hi. }
  destruct (sort_children_order c1 Hrange) as [Hsorted (s & Hrun & Hperm & Hs)].
  destruct (children g) as [|ca cs] eqn:Ech.
  { exists bc, g. split; [reflexivity|]. split; [exact Hg|].
    rewrite Ech. split; [destruct g; cbn in Ech; rewrite Ech; reflexivity|].
    split; [reflexivity|]. unfold child_gates. rewrite Ech.
    split; [reflexivity|]. split; [constructor | apply others_kept_refl]. }
  rewrite <- Ech in *.
  rewrite (st_bind_run _ _ _ _ _ Hcollect).
  destruct (scan_indices 0 true c1) as [largest_index already_sorted].
  cbn [fst snd] in *. destruct already_sorted.
  { exists bc, g. split; [reflexivity|]. split; [exact Hg|].
    split; [symmetry; apply set_children_id|].
    split; [reflexivity|]. split; [reflexivity|]. split; [|apply others_kept_refl].
    rewrite <- Hc1. apply index_sorted_pointers; [auto | exact Hfst]. }
  erewrite st_bind_run; [|rewrite Hrun; reflexivity].
  assert (Hlen : length s = length (children g)).
  { rewrite (Permutation_length Hperm). unfold c1. rewrite length_map, Ech. reflexivity. }
  destruct (sort_children_loop this (children g) s [] bc g Hg eq_refl Hnd Hlen)
    as (bc' & Hloop & Hthis & Hkept).
  { intros c Hc. assert (Hin : c ∈ child_gates g).
    { destruct Hc as [Hc|Hc]; [exact Hc|].
      rewrite <- Hc1, <- Hperm. exact Hc. }
    destruct (Hch c Hin) as (Hne & cg & Hcg & _). eauto. }
  rewrite (st_bind_run _ _ _ _ _ Hloop). cbn [app] in Hthis.
  destruct (zip_with_fst (children g) s Hlen) as [Hz1 Hz2].
  eexists bc', _. split; [reflexivity|]. split; [exact Hthis|].
  split; [destruct g; reflexivity|].
  split; [exact Hz1|]. unfold child_gates at 1 3. cbn [children set_children].
  rewrite Hz2. split; [rewrite Hperm, Hc1; reflexivity|]. split; [|exact Hkept].
  apply index_sorted_pointers; [exact Hs|].
  intros p Hp. rewrite Hperm in Hp. rewrite (Hfst p Hp).
  assert (Hin : snd p ∈ child_gates g).
  { rewrite <- Hc1. apply list_elem_of_fmap. eauto. }
  destruct (Hch _ Hin) as (Hne & cg & Hcg & _).
  symmetry. apply (others_kept_index this); eauto.
Qed.

(** X7: [sort_children] returns, and leaves the gate with the same
    associations and the same children; at a commutative gate the children
    are now in the order of their [index] values, and the other gates are
    as they were up to their parent lists; at any other gate nothing has
    changed.  (The radix sort takes digits of five bits every four bits,
    which sorts all the same.) *)
Theorem sort_children_sorts (bc : BC) (this : nat) (g : Gate) :
  sort_ready bc this g ->
  exists bc' g', sort_children this bc = Ok (tt, bc') /\
    gates bc' !! this = Some g' /\
    g' = set_children (children g') g /\
    map fst (children g') = map fst (children g) /\
    child_gates g' ≡ₚ child_gates g /\
    others_kept this bc bc' /\
    (is_commutative g = true ->
     StronglySorted
       (fun c d => child_index (gates bc') c <= child_index (gates bc') d)
       (child_gates g')) /\
    (is_commutative g = false -> bc' = bc).
Proof.
  intros Hready. destruct (is_commutative g) eqn:Hcomm.
  - destruct (sort_children_run bc this g Hready Hcomm)
      as (bc' & g' & Hrun & Hg' & Hsame & Hfst & Hperm & Hsorted & Hkept).
    exists bc', g'. split_and!; auto. discriminate.
  - destruct Hready as (Hg & _). exists bc, g. unfold sort_children.
    rewrite (st_bind_run _ _ _ _ _ (gate_run bc this g Hg)), Hcomm. cbn [negb].
    split; [reflexivity|]. split; [exact Hg|].
    split; [symmetry; apply set_children_id|].
    split; [reflexivity|]. split; [reflexivity|].
    split; [apply others_kept_refl|]. split; [discriminate | reflexivity].
Qed.


(** The theorem at [g2 := OR(g1, g0)]. *)
Lemma sort_children_sorts_witness :
  exists bc' g', sort_children 2 ex_unsorted = Ok (tt, bc') /\
    gates bc' !! 2%nat = Some g' /\
    g' = set_children (children g') (gate_of tOR 2 [(0%nat, 1%nat); (1%nat, 0%nat)]) /\
    map fst (children g') = [0%nat; 1%nat] /\
    child_gates g' ≡ₚ [1%nat; 0%nat] /\
    others_kept 2 ex_unsorted bc' /\
    (true = true ->
     StronglySorted
       (fun c d => child_index (gates bc') c <= child_index (gates bc') d)
       (child_gates g')) /\
    (true = false -> bc' = ex_unsorted).
Proof.
  apply (sort_children_sorts ex_unsorted 2
           (gate_of tOR 2 [(0%nat, 1%nat); (1%nat, 0%nat)])).
  split; [reflexivity|]. split.
  - cbn. apply NoDup_cons_2; [|apply NoDup_cons_2; [|apply NoDup_nil_2]];
      rewrite ?elem_of_cons, ?elem_of_nil; lia.
  - intros c Hc. cbv in Hc.
    repeat (apply elem_of_cons in Hc; destruct Hc as [->|Hc];
            [split; [lia|]; eexists; split; [reflexivity|]; cbn; lia|]).
    apply elem_of_nil in Hc. destruct Hc.
Defined.

(** ** The cone of influence: [Gate::mark_coi] *)

Lemma coi_ext_refl (hp : heap) : coi_ext hp hp.
Proof.
  split; [auto|]. intros a g Ha. exists g. split; [exact Ha|].
  split; [destruct g; reflexivity | reflexivity].
Qed.

Lemma coi_ext_trans (h1 h2 h3 : heap) : coi_ext h1 h2 -> coi_ext h2 h3 -> coi_ext h1 h3.
Proof.
  intros [N12 E12] [N23 E23]. split; [auto|].
  intros a g1 H1. destruct (E12 a g1 H1) as (g2 & H2 & S2 & T2).
  destruct (E23 a g2 H2) as (g3 & H3 & S3 & T3).
  exists g3. split; [exact H3|]. split.
  - unfold same_but_temp in *. rewrite S3, S2. destruct g1. reflexivity.
  - intros Ht. rewrite T3 by (rewrite T2; assumption). auto.
Qed.

Lemma coi_ext_children (hp hp' : heap) (a : nat) (g g' : Gate) :
  coi_ext hp hp' -> hp !! a = Some g -> hp' !! a = Some g' ->
  child_gates g' = child_gates g.
Proof.
  intros [_ E] Ha Ha'. destruct (E a g Ha) as (g2 & H2 & S2 & _).
  rewrite Ha' in H2. injection H2 as <-. unfold same_but_temp in S2.
  rewrite S2. reflexivity.
Qed.

Lemma coi_ext_back (hp hp' : heap) (a : nat) (g' : Gate) :
  coi_ext hp hp' -> hp' !! a = Some g' ->
  exists g, hp !! a = Some g /\ child_gates g' = child_gates g /\
            (0 <= temp g -> temp g' = temp g).
Proof.
  intros Hext Ha'. destruct (hp !! a) as [g|] eqn:Ha.
  - exists g. split; [reflexivity|]. split; [eapply coi_ext_children; eassumption|].
    destruct Hext as [_ E]. destruct (E a g Ha) as (g2 & H2 & _ & T2).
    rewrite Ha' in H2. injection H2 as <-. exact T2.
  - destruct Hext as [N _]. rewrite (N a Ha) in Ha'. discriminate Ha'.
Qed.

Lemma coi_ext_marked (hp hp' : heap) (a : nat) :
  coi_ext hp hp' -> marked hp a -> marked hp' a.
Proof.
  intros [_ E] (g & Ha & Ht). destruct (E a g Ha) as (g' & Ha' & _ & T).
  exists g'. split; [exact Ha'|]. rewrite T; assumption.
Qed.

Lemma coi_ext_ranked (rank : nat -> nat) (hp hp' : heap) :
  coi_ext hp hp' -> ranked rank hp -> ranked rank hp'.
Proof.
  intros Hext Hr a g' c Ha' Hc.
  destruct (coi_ext_back _ _ _ _ Hext Ha') as (g & Ha & Hch & _).
  rewrite Hch in Hc. eapply Hr; eassumption.
Qed.

Lemma coi_ext_closed (hp hp' : heap) : coi_ext hp hp' -> closed hp -> closed hp'.
Proof.
  intros Hext Hcl a g' c Ha' Hc.
  destruct (coi_ext_back _ _ _ _ Hext Ha') as (g & Ha & Hch & _).
  rewrite Hch in Hc. destruct (Hcl a g c Ha Hc) as [cg Hcg].
  destruct Hext as [_ E]. destruct (E c cg Hcg) as (cg' & Hcg' & _). eauto.
Qed.

Lemma coi_ext_reaches (hp hp' : heap) (a b : nat) :
  coi_ext hp hp' -> reaches hp' a b -> reaches hp a b.
Proof.
  intros Hext. induction 1 as [a|a c b g' Ha' Hc _ IH]; [constructor|].
  destruct (coi_ext_back _ _ _ _ Hext Ha') as (g & Ha & Hch & _).
  rewrite Hch in Hc. econstructor; eassumption.
Qed.

Lemma reaches_in_heap (hp : heap) (a b : nat) :
  closed hp -> is_Some (hp !! a) -> reaches hp a b -> is_Some (hp !! b).
Proof.
  intros Hcl Ha H. induction H as [a|a c b g Hg Hc _ IH]; [exact Ha|].
  apply IH. eapply Hcl; eassumption.
Qed.

(** Numbering a gate that is not numbered yet. *)
Lemma coi_number_gate (hp : heap) (n : Z) (this : nat) (g : Gate) :
  hp !! this = Some g -> temp g < 0 -> coi_numbered hp n ->
  coi_ext hp (<[this := set_temp n g]> hp) /\
  coi_numbered (<[this := set_temp n g]> hp) (n + 1).
Proof.
  intros Hg Ht (Hn & Hb & Hi & Hs). split.
  - split.
    + intros a Ha. rewrite lookup_insert_ne; [exact Ha|]. congruence.
    + intros a ga Ha. destruct (decide (a = this)) as [->|Hne].
      * rewrite lookup_insert_eq. eexists. split; [reflexivity|].
        rewrite Hg in Ha. injection Ha as <-.
        split; [reflexivity | lia].
      * rewrite lookup_insert_ne by auto. exists ga. split; [exact Ha|].
        split; [destruct ga; reflexivity | reflexivity].
  - split; [lia|]. split; [|split].
    + intros a ga Ha. destruct (decide (a = this)) as [->|Hne].
      * rewrite lookup_insert_eq in Ha. injection Ha as <-. cbn. lia.
      * rewrite lookup_insert_ne in Ha by auto. specialize (Hb a ga Ha). lia.
    + intros a b ga gb Ha Hb' H0 He.
      destruct (decide (a = this)) as [->|Ha'], (decide (b = this)) as [->|Hb''];
        try reflexivity.
      * rewrite lookup_insert_eq in Ha. injection Ha as <-.
        rewrite lookup_insert_ne in Hb' by auto.
        specialize (Hb b gb Hb'). cbn in He. lia.
      * rewrite lookup_insert_eq in Hb'. injection Hb' as <-.
        rewrite lookup_insert_ne in Ha by auto.
        specialize (Hb a ga Ha). cbn in He. lia.
      * rewrite lookup_insert_ne in Ha, Hb' by auto. eapply Hi; eassumption.
    + intros k Hk. destruct (decide (k = n)) as [->|Hkn].
      * exists this. eexists. rewrite lookup_insert_eq. split; reflexivity.
      * destruct (Hs k ltac:(lia)) as (a & ga & Ha & Hka).
        exists a, ga. split; [|exact Hka].
        rewrite lookup_insert_ne; [exact Ha|]. intros ->.
        rewrite Hg in Ha. injection Ha as <-. lia.
Qed.

Lemma mark_coi_children (rank : nat -> nat) (fuel : nat) (S : nat -> Prop) :
  (forall hp n this,
     ranked rank hp -> closed hp -> is_Some (hp !! this) -> (rank this < fuel)%nat ->
     coi_numbered hp n -> coi_closed S hp ->
     exists hp' n', mark_coi fuel (hp, n) this = Ok (hp', n') /\
                    coi_result S hp hp' n' [this]) ->
  forall cs hp n,
    ranked rank hp -> closed hp ->
    (forall c, c ∈ cs -> is_Some (hp !! c) /\ (rank c < fuel)%nat) ->
    coi_numbered hp n -> coi_closed S hp ->
    exists hp' n', foldM (mark_coi fuel) cs (hp, n) = Ok (hp', n') /\
                   coi_result S hp hp' n' cs.
Proof.
  intros Hcall. induction cs as [|c cs IH]; intros hp n Hr Hcl Hcs Hnum Hclo.
  - exists hp, n. split; [reflexivity|]. split; [apply coi_ext_refl|].
    split; [exact Hnum|]. split; [exact Hclo|]. split.
    + intros c Hc. apply elem_of_nil in Hc. destruct Hc.
    + auto.
  - destruct (Hcs c) as [Hc1 Hc2]; [apply elem_of_cons; auto|].
    destruct (Hcall hp n c Hr Hcl Hc1 Hc2 Hnum Hclo)
      as (hp1 & n1 & Hrun1 & Hext1 & Hnum1 & Hclo1 & Hm1 & Hnew1).
    destruct (IH hp1 n1) as (hp' & n' & Hrun & Hext & Hnum' & Hclo' & Hm & Hnew).
    + eapply coi_ext_ranked; eassumption.
    + eapply coi_ext_closed; eassumption.
    + intros d Hd. destruct (Hcs d) as [[dg Hdg] Hd2]; [apply elem_of_cons; auto|].
      split; [|exact Hd2]. destruct Hext1 as [_ E].
      destruct (E d dg Hdg) as (dg' & Hdg' & _). eauto.
    + exact Hnum1.
    + exact Hclo1.
    + exists hp', n'. split; [cbn [foldM]; rewrite Hrun1; exact Hrun|].
      split; [eapply coi_ext_trans; eassumption|].
      split; [exact Hnum'|]. split; [exact Hclo'|]. split.
      * intros d [->|Hd]%elem_of_cons; [|auto].
        eapply coi_ext_marked; [exact Hext|]. apply Hm1, elem_of_cons. auto.
      * intros a Ha. destruct (Hnew a Ha) as [Ha1|(d & Hd & Hreach)].
        -- destruct (Hnew1 a Ha1) as [Ha0|(d & Hd & Hreach)]; [auto|].
           right. exists d. apply list_elem_of_singleton in Hd. subst d.
           split; [apply elem_of_cons; auto | exact Hreach].
        -- right. exists d. split; [apply elem_of_cons; auto|].
           eapply coi_ext_reaches; eassumption.
Qed.

Lemma mark_coi_inv (rank : nat -> nat) (fuel : nat) :
  forall (S : nat -> Prop) hp n this,
    ranked rank hp -> closed hp -> is_Some (hp !! this) -> (rank this < fuel)%nat ->
    coi_numbered hp n -> coi_closed S hp ->
    exists hp' n', mark_coi fuel (hp, n) this = Ok (hp', n') /\
                   coi_result S hp hp' n' [this].
Proof.
  induction fuel as [|fuel IH]; intros S hp n this Hr Hcl [g Hg] Hf Hnum Hclo; [lia|].
  cbn [mark_coi]. rewrite (deref_lookup _ _ _ Hg). cbn [rbind].
  destruct (Z.leb_spec 0 (temp g)) as [Ht|Ht].
  - exists hp, n. split; [reflexivity|]. split; [apply coi_ext_refl|].
    split; [exact Hnum|]. split; [exact Hclo|]. split.
    + intros c Hc. apply list_elem_of_singleton in Hc. subst c. exists g. auto.
    + auto.
  - destruct (coi_number_gate hp n this g Hg Ht Hnum) as [Hext1 Hnum1].
    set (hp1 := <[this := set_temp n g]> hp) in *.
    assert (Hn0 : 0 <= n) by (destruct Hnum; assumption).
    destruct (mark_coi_children rank fuel (fun a => S a \/ a = this)
                (fun hp n c => IH _ hp n c) (child_gates g) hp1 (n + 1))
      as (hp' & n' & Hrun & Hext & Hnum' & Hclo' & Hm & Hnew).
    + eapply coi_ext_ranked; eassumption.
    + eapply coi_ext_closed; eassumption.
    + intros c Hc. split.
      * destruct (Hcl this g c Hg Hc) as [cg Hcg]. destruct Hext1 as [_ E].
        destruct (E c cg Hcg) as (cg' & Hcg' & _). eauto.
      * specialize (Hr this g c Hg Hc). lia.
    + exact Hnum1.
    + intros a ga c Ha Hta Hna Hc.
      assert (Hne : a <> this) by tauto.
      unfold hp1 in Ha. rewrite lookup_insert_ne in Ha by auto.
      eapply coi_ext_marked; [exact Hext1|].
      eapply Hclo; [exact Ha | exact Hta | tauto | exact Hc].
    + exists hp', n'. split; [exact Hrun|].
      assert (Hthis1 : hp1 !! this = Some (set_temp n g))
        by (unfold hp1; apply lookup_insert_eq).
      split; [eapply coi_ext_trans; eassumption|].
      split; [exact Hnum'|]. split; [|split].
      * intros a ga c Ha Hta Hna Hc.
        destruct (decide (a = this)) as [->|Hne].
        -- apply Hm. rewrite (coi_ext_children _ _ _ _ _ Hext Hthis1 Ha) in Hc.
           exact Hc.
        -- eapply Hclo'; [exact Ha | exact Hta | tauto | exact Hc].
      * intros c Hc. apply list_elem_of_singleton in Hc. subst c.
        eapply coi_ext_marked; [exact Hext|]. eexists. split; [exact Hthis1|].
        cbn. exact Hn0.
      * intros a Ha. destruct (Hnew a Ha) as [(ga & Hga & Hta)|(c & Hc & Hreach)].
        -- destruct (decide (a = this)) as [->|Hne].
           ++ right. exists this. split; [apply list_elem_of_singleton; reflexivity|].
              constructor.
           ++ left. unfold hp1 in Hga. rewrite lookup_insert_ne in Hga by auto.
              exists ga. auto.
        -- right. exists this. split; [apply list_elem_of_singleton; reflexivity|].
           econstructor; [exact Hg | exact Hc |].
           eapply coi_ext_reaches; eassumption.
Qed.

(** X8: on an acyclic circuit, with fuel for its depth, [mark_coi]
    returns; afterwards a gate is numbered exactly if it was numbered
    before or is the gate or a gate below it (given that the children of
    numbered gates were numbered), the numbers are still the numbers from
    0 up to the counter, each the number of one gate, and the gates have
    changed in no other field. *)
Theorem mark_coi_cone (rank : nat -> nat) (fuel : nat) (hp : heap) (n : Z)
    (this : nat) :
  ranked rank hp -> closed hp -> is_Some (hp !! this) -> (rank this < fuel)%nat ->
  coi_numbered hp n -> coi_closed (fun _ => False) hp ->
  exists hp' n', mark_coi fuel (hp, n) this = Ok (hp', n') /\
    coi_ext hp hp' /\ coi_numbered hp' n' /\
    (forall a, marked hp' a <-> marked hp a \/ reaches hp this a).
Proof.
  intros Hr Hcl Hthis Hf Hnum Hclo.
  destruct (mark_coi_inv rank fuel _ hp n this Hr Hcl Hthis Hf Hnum Hclo)
    as (hp' & n' & Hrun & Hext & Hnum' & Hclo' & Hm & Hnew).
  exists hp', n'. split; [exact Hrun|]. split; [exact Hext|]. split; [exact Hnum'|].
  intros a. split.
  - intros Ha. destruct (Hnew a Ha) as [H|(c & Hc & H)]; [auto|].
    apply list_elem_of_singleton in Hc. subst c. auto.
  - intros [Ha|Ha]; [eapply coi_ext_marked; eassumption|].
    assert (Hroot : marked hp' this) by (apply Hm, list_elem_of_singleton; reflexivity).
    clear Hnew Hm Hthis Hf Hrun. induction Ha as [a|a c b g Hg Hc _ IH]; [exact Hroot|].
    apply IH. destruct Hroot as (g' & Hg' & Ht).
    rewrite <- (coi_ext_children _ _ _ _ _ Hext Hg Hg') in Hc.
    eapply Hclo'; [exact Hg' | exact Ht | tauto | exact Hc].
Qed.

Lemma ex_free_shape (t : Z) :
  ranked (fun a => a) (ex_free_heap t) /\ closed (ex_free_heap t) /\
  (forall a g, ex_free_heap t !! a = Some g -> temp g = t).
Proof.
  split_and!.
  - intros a g c Hg Hc. apply ex_free_heap_cases in Hg.
    unfold child_gates in Hc.
    destruct Hg as (_ & _ & [(Ht & Hch)|[(Ht & Hch & ->)|(Ht & Hch & ->)]]);
      rewrite Hch in Hc; simpl in Hc;
      repeat (apply elem_of_cons in Hc; destruct Hc as [->|Hc]; [lia|]);
      apply elem_of_nil in Hc; destruct Hc.
  - intros a g c Hg Hc. apply ex_free_heap_cases in Hg.
    unfold child_gates in Hc.
    destruct Hg as (_ & _ & [(Ht & Hch)|[(Ht & Hch & ->)|(Ht & Hch & ->)]]);
      rewrite Hch in Hc; simpl in Hc;
      repeat (apply elem_of_cons in Hc; destruct Hc as [->|Hc]; [vm_compute; eauto|]);
      apply elem_of_nil in Hc; destruct Hc.
  - unfold ex_free_heap. intros a g H.
    repeat (rewrite lookup_insert in H; case_decide;
            [subst a; injection H as <-; reflexivity|]).
    rewrite lookup_empty in H. discriminate.
Qed.

(** The theorem at [o := OR(x, y)] of the circuit [ex_free_heap], no gate
    of which is numbered. *)
Lemma mark_coi_cone_witness :
  exists hp' n', mark_coi 3 (ex_free_heap (-1), 0) 2 = Ok (hp', n') /\
    coi_ext (ex_free_heap (-1)) hp' /\ coi_numbered hp' n' /\
    (forall a, marked hp' a <->
               marked (ex_free_heap (-1)) a \/ reaches (ex_free_heap (-1)) 2 a).
Proof.
  destruct (ex_free_shape (-1)) as (Hr & Hcl & Ht).
  apply (mark_coi_cone (fun a => a) 3 (ex_free_heap (-1)) 0 2 Hr Hcl).
  - vm_compute. eauto.
  - lia.
  - split; [lia|]. split_and!.
    + intros a g Hg. rewrite (Ht a g Hg). lia.
    + intros a b g g' Hg _ H0. rewrite (Ht a g Hg) in H0. lia.
    + intros k Hk. lia.
  - intros a g c Hg H0. rewrite (Ht a g Hg) in H0. lia.
Defined.

(** ** The numbering of the variables in [main] *)

Lemma renumber_step_cases (opts : Options) (hp hp' : heap) (n n' : Z) (a : nat) :
  renumber_step opts (hp, n) a = Ok (hp', n') ->
  exists g, hp !! a = Some g /\
    ((gets_variable opts g = true /\ n' = n + 1 /\
      hp' = <[a := set_temp (n + 1) g]> hp) \/
     (gets_variable opts g = false /\ n' = n /\
      hp' = <[a := set_temp (-1) g]> hp)).
Proof.
  unfold renumber_step, gets_variable. intros H. inv_bind H as g Hg.
  apply deref_Ok in Hg. exists g. split; [exact Hg|].
  destruct (Z.eqb_spec (temp g) (-1)) as [Et|Et]; cbn [negb andb].
  { injection H as <- <-. right. split; [reflexivity|]. split; [reflexivity|].
    rewrite insert_id; [reflexivity|]. rewrite Hg. f_equal.
    rewrite <- Et. destruct g; reflexivity. }
  destruct (opt_cnf_notless opts && is_type (type g) tNOT); cbn [negb].
  - do 4 inv_bind H. injection H as <- <-. right. auto.
  - injection H as <- <-. left. auto.
Qed.

Lemma renumber_fold_variables (opts : Options) (l : list nat) :
  forall hp n hp' n',
  0 <= n -> NoDup l -> foldM (renumber_step opts) l (hp, n) = Ok (hp', n') ->
  n <= n' /\
  (forall b, b ∉ l -> hp' !! b = hp !! b) /\
  (forall a, a ∈ l -> exists g g', hp !! a = Some g /\ hp' !! a = Some g' /\
     same_but_temp g g' /\
     if gets_variable opts g then n < temp g' <= n' else temp g' = -1) /\
  variables_of hp' l n n'.
Proof.
  induction l as [|a l IH]; intros hp n hp' n' Hn Hnd H; cbn [foldM] in H.
  - injection H as <- <-. split; [lia|]. split; [auto|]. split.
    + intros a Ha. apply elem_of_nil in Ha. destruct Ha.
    + split; [|intros k Hk; lia].
      intros a b ga gb Ha. apply elem_of_nil in Ha. destruct Ha.
  - inv_bind H as s1 Hs1. destruct s1 as [hp1 n1].
    apply NoDup_cons in Hnd. destruct Hnd as [Hal Hnd].
    destruct (renumber_step_cases _ _ _ _ _ _ Hs1) as (g & Hg & Hcase).
    assert (Hn01 : 0 <= n1) by (destruct Hcase as [(_ & -> & _)|(_ & -> & _)]; lia).
    destruct (IH hp1 n1 hp' n' Hn01 Hnd H) as (Hle & Hout & Hin & Hinj & Hsur).
    assert (Ha' : exists t, hp' !! a = Some (set_temp t g) /\ hp1 = <[a := set_temp t g]> hp /\
              if gets_variable opts g then t = n + 1 /\ n1 = n + 1
              else t = -1 /\ n1 = n).
    { destruct Hcase as [(Hv & -> & ->)|(Hv & -> & ->)]; rewrite Hv;
        eexists; (split; [rewrite (Hout a Hal); apply lookup_insert_eq|]); auto. }
    destruct Ha' as (t & Hat & -> & Ht).
    assert (Hn1 : n <= n1 <= n').
    { destruct (gets_variable opts g); destruct Ht as [_ ->]; lia. }
    assert (Hl : forall b, b ∈ l -> exists g0 g', hp !! b = Some g0 /\ hp' !! b = Some g' /\
              same_but_temp g0 g' /\
              if gets_variable opts g0 then n1 < temp g' <= n' else temp g' = -1).
    { intros b Hb. destruct (Hin b Hb) as (g0 & g' & Hb0 & Hb' & Hs & Hv).
      exists g0, g'. rewrite lookup_insert_ne in Hb0 by (intros ->; contradiction).
      auto. }
    split; [lia|]. split; [|split; [|split]].
    + intros b Hb. rewrite not_elem_of_cons in Hb. destruct Hb as [Hne Hb].
      rewrite (Hout b Hb). apply lookup_insert_ne. auto.
    + intros b [->|Hb]%elem_of_cons.
      * exists g, (set_temp t g). split; [exact Hg|]. split; [exact Hat|].
        split; [reflexivity|]. cbn [temp set_temp].
        destruct (gets_variable opts g); destruct Ht as [-> ->]; lia.
      * destruct (Hl b Hb) as (g0 & g' & Hb0 & Hb' & Hs & Hv).
        exists g0, g'. split; [exact Hb0|]. split; [exact Hb'|]. split; [exact Hs|].
        destruct (gets_variable opts g0); lia.
    + assert (Hfresh : forall b gb, b ∈ l -> hp' !! b = Some gb -> temp gb <> -1 ->
                n1 < temp gb).
      { intros b gb Hb Hgb Hm. destruct (Hl b Hb) as (g0 & g' & _ & Hb' & _ & Hv).
        rewrite Hgb in Hb'. injection Hb' as <-.
        destruct (gets_variable opts g0); lia. }
      assert (Hta : temp (set_temp t g) <= n1).
      { cbn. destruct (gets_variable opts g); destruct Ht as [-> ->]; lia. }
      intros b c gb gc [->|Hb]%elem_of_cons [->|Hc]%elem_of_cons Hgb Hgc Hm He;
        try reflexivity.
      * rewrite Hat in Hgb. injection Hgb as <-.
        pose proof (Hfresh c gc Hc Hgc ltac:(lia)). lia.
      * rewrite Hat in Hgc. injection Hgc as <-.
        pose proof (Hfresh b gb Hb Hgb Hm). lia.
      * eapply Hinj; eassumption.
    + intros k Hk. destruct (decide (n1 < k)) as [Hk1|Hk1].
      * destruct (Hsur k ltac:(lia)) as (b & gb & Hb & Hgb & Hkb).
        exists b, gb. split; [apply elem_of_cons; auto | auto].
      * destruct (gets_variable opts g); destruct Ht as [-> ->]; [|lia].
        exists a, (set_temp (n + 1) g). split; [apply elem_of_cons; auto|].
        split; [exact Hat|]. cbn. lia.
Qed.

(** X9: when the numbering loop of [main] returns [max_var_num] for a
    chain without repetitions, every gate of the chain that is relevant,
    and is not a NOT gate of the NOT-less translation, has a variable from
    1 to [max_var_num] in [temp], every other gate of the chain has -1,
    different gates have different variables, every number from 1 to
    [max_var_num] is the variable of a gate, and no other field has
    changed. *)
Theorem renumber_gates_variables (opts : Options) (bc bc' : BC) (max_var_num : Z) :
  NoDup (first_gate bc) ->
  renumber_gates opts bc = Ok (bc', max_var_num) ->
  0 < max_var_num /\ first_gate bc' = first_gate bc /\
  (forall a, a ∈ first_gate bc ->
     exists g g', gates bc !! a = Some g /\ gates bc' !! a = Some g' /\
       same_but_temp g g' /\
       if gets_variable opts g then 1 <= temp g' <= max_var_num else temp g' = -1) /\
  variables_of (gates bc') (first_gate bc) 0 max_var_num.
Proof.
  intros Hnd H. unfold renumber_gates in H. inv_bind H as r Hr.
  destruct r as [hp V]. inv_bind H as u Hu. injection H as <- <-.
  unfold rassert in Hu. destruct (Z.ltb_spec 0 V); [|discriminate Hu].
  destruct (renumber_fold_variables opts _ _ 0 _ _ (Z.le_refl 0) Hnd Hr)
    as (_ & _ & Hin & Hvars).
  split; [assumption|]. split; [reflexivity|]. split; [|exact Hvars].
  intros a Ha. destruct (Hin a Ha) as (g & g' & Hg & Hg' & Hs & Hv).
  exists g, g'. split; [exact Hg|]. split; [exact Hg'|]. split; [exact Hs|].
  destruct (gets_variable opts g); lia.
Qed.

(** The theorem at the circuit [g3 := OR(x, ~y)] with its cone of
    influence marked. *)
Lemma renumber_gates_variables_witness :
  0 < 3 /\ first_gate ex_or_not_bc = first_gate ex_coi_bc /\
  (forall a, a ∈ first_gate ex_coi_bc ->
     exists g g', gates ex_coi_bc !! a = Some g /\ gates ex_or_not_bc !! a = Some g' /\
       same_but_temp g g' /\
       if gets_variable default_options g then 1 <= temp g' <= 3 else temp g' = -1) /\
  variables_of (gates ex_or_not_bc) (first_gate ex_coi_bc) 0 3.
Proof.
  apply (renumber_gates_variables default_options ex_coi_bc ex_or_not_bc 3).
  - cbn. repeat (apply NoDup_cons_2; [rewrite ?elem_of_cons, elem_of_nil; lia|]).
    apply NoDup_nil_2.
  - vm_compute. reflexivity.
Defined.

(** ** The clauses that [main] prints *)

Lemma lit_valid_opp (max_var_num lit : Z) :
  lit_valid max_var_num lit -> lit_valid max_var_num (- lit).
Proof. unfold lit_valid. intros [H0 Hm]. split; lia. Qed.

Lemma lit_valid_temp (max_var_num t : Z) :
  0 < t <= max_var_num -> lit_valid max_var_num t.
Proof. unfold lit_valid. lia. Qed.

(** The literal of a child that stands for a variable of the header. *)
Lemma child_lit_valid (notless : bool) (max_var_num : Z) (hp : heap) (c : nat) :
  child_numbered notless max_var_num hp c ->
  (exists l, child_lit hp notless c = Ok l /\ lit_valid max_var_num l) /\
  (exists l, child_neg_lit hp notless c = Ok l /\ lit_valid max_var_num l).
Proof.
  intros (cg & Hc & Hn). unfold child_lit, child_neg_lit.
  rewrite (deref_lookup _ _ _ Hc). cbn [rbind].
  destruct (notless && is_type (type cg) tNOT).
  - destruct Hn as (gc & gcg & Hgc & Hgcg & Ht).
    unfold nth_child. rewrite Hgc. cbn.
    rewrite (deref_lookup _ _ _ Hgcg). cbn.
    split; eexists; (split; [reflexivity|]);
      [apply lit_valid_opp|]; apply lit_valid_temp; exact Ht.
  - split; eexists; (split; [reflexivity|]);
      [|apply lit_valid_opp]; apply lit_valid_temp; exact Hn.
Qed.

Lemma map_children_valid (max_var_num : Z) (f : nat -> result Z) (cs : list nat) :
  (forall c, c ∈ cs -> exists l, f c = Ok l /\ lit_valid max_var_num l) ->
  exists ls, map_children f cs = Ok ls /\ Forall (lit_valid max_var_num) ls.
Proof.
  induction cs as [|c cs IH]; intros H; cbn [map_children].
  - exists []. split; [reflexivity|constructor].
  - destruct (H c) as (l & -> & Hl); [left|].
    destruct IH as (ls & -> & Hls); [intros c' Hc'; apply H; right; exact Hc'|].
    exists (l :: ls). split; [reflexivity|]. constructor; assumption.
Qed.

Lemma two_children (g : Gate) :
  arity_ok g -> count_children g = 2 -> exists c1 c2, child_gates g = [c1; c2].
Proof.
  intros (Hlen & _) Hc. unfold count_children in Hc.
  rewrite u32_id in Hc by (unfold in_u32; lia).
  unfold child_gates. destruct (children g) as [|x [|y [|z l]]]; simpl in Hc; try lia.
  eauto.
Qed.

Ltac valid_clauses :=
  repeat first [ assumption | apply lit_valid_opp; assumption
               | apply Forall_nil_2 | apply Forall_cons_2 ].

(** The clauses of a relevant gate in the CNF normal form are over the
    variables of the gate and of its children. *)
Lemma cnf_get_clauses_valid (notless : bool) (max_var_num : Z) (hp : heap)
    (a : nat) (g : Gate) :
  hp !! a = Some g -> 0 < temp g <= max_var_num ->
  arity_ok g -> cnf_form hp g -> (notless = true -> type g <> tNOT) ->
  (forall c, c ∈ child_gates g -> child_numbered notless max_var_num hp c) ->
  exists cls, cnf_get_clauses hp a notless = Ok cls /\
    Forall (Forall (lit_valid max_var_num)) cls.
Proof.
  intros Ha Ht Har (Href & Hth & Hat & Hun & Hde & HcT & HcF & Hnot & Hbin) Hnl Hch.
  pose proof (lit_valid_temp _ _ Ht) as Hg.
  pose proof (lit_valid_opp _ _ Hg) as Hg'.
  assert (Hlits : exists ls, map_children (child_lit hp notless) (child_gates g) = Ok ls /\
                             Forall (lit_valid max_var_num) ls).
  { apply map_children_valid. intros c Hc. apply child_lit_valid, Hch, Hc. }
  assert (Hnegs : exists ls, map_children (child_neg_lit hp notless) (child_gates g) = Ok ls /\
                             Forall (lit_valid max_var_num) ls).
  { apply map_children_valid. intros c Hc. apply child_lit_valid, Hch, Hc. }
  assert (Hbinary : type g = tEQUIV \/ type g = tEVEN \/ type g = tODD ->
            exists c1 c2, binary_lits hp g notless = Ok (c1, c2) /\
              lit_valid max_var_num c1 /\ lit_valid max_var_num c2).
  { intros Hty. specialize (Hbin Hty).
    destruct (two_children g Har Hbin) as (x & y & Hxy).
    unfold binary_lits, nth_child. rewrite Hbin, Hxy. cbn.
    destruct (proj1 (child_lit_valid _ _ _ x (Hch x ltac:(rewrite Hxy, !elem_of_cons; auto))))
      as (l1 & -> & H1).
    destruct (proj1 (child_lit_valid _ _ _ y (Hch y ltac:(rewrite Hxy, !elem_of_cons; auto))))
      as (l2 & -> & H2).
    cbn. eauto. }
  unfold cnf_get_clauses. rewrite (deref_lookup _ _ _ Ha). cbn [rbind].
  destruct (type g) eqn:Ety; try congruence.
  - (* EQUIV *)
    destruct Hbinary as (c1 & c2 & -> & H1 & H2); [auto|]. cbn.
    eexists. split; [reflexivity|].
    valid_clauses.
  - (* OR *)
    destruct Hlits as (ls & -> & Hls). destruct Hnegs as (ns & -> & Hns). cbn.
    eexists. split; [reflexivity|]. apply Forall_cons_2; [valid_clauses|].
    apply Forall_map. eapply Forall_impl; [exact Hns|].
    intros l Hl. cbn. valid_clauses.
  - (* AND *)
    destruct Hlits as (ls & -> & Hls). destruct Hnegs as (ns & -> & Hns). cbn.
    eexists. split; [reflexivity|]. apply Forall_cons_2; [valid_clauses|].
    apply Forall_map. eapply Forall_impl; [exact Hls|].
    intros l Hl. cbn. valid_clauses.
  - (* EVEN *)
    destruct Hbinary as (c1 & c2 & -> & H1 & H2); [auto|]. cbn.
    eexists. split; [reflexivity|].
    valid_clauses.
  - (* ODD *)
    destruct Hbinary as (c1 & c2 & -> & H1 & H2); [auto|]. cbn.
    eexists. split; [reflexivity|].
    valid_clauses.
  - (* ITE *)
    destruct Har as (_ & _ & Hthree).
    destruct (three_children g (Hthree Ety)) as (i & t & e & Hite).
    unfold ite_lits, nth_child. rewrite Hite. cbn.
    destruct (proj1 (child_lit_valid _ _ _ i (Hch i ltac:(rewrite Hite, !elem_of_cons; auto))))
      as (l1 & -> & H1).
    destruct (proj1 (child_lit_valid _ _ _ t (Hch t ltac:(rewrite Hite, !elem_of_cons; auto))))
      as (l2 & -> & H2).
    destruct (proj1 (child_lit_valid _ _ _ e (Hch e ltac:(rewrite Hite, !elem_of_cons; auto))))
      as (l3 & -> & H3).
    cbn. eexists. split; [reflexivity|].
    valid_clauses.
  - (* NOT *)
    destruct notless; [exfalso; apply (Hnl eq_refl); reflexivity|].
    destruct Har as (_ & Hone & _).
    destruct (one_child g (Hone (or_intror Ety))) as (c & Hc).
    unfold nth_child. rewrite Hc. cbn.
    destruct (Hch c) as (cg & Hcg & Hn); [rewrite Hc, elem_of_cons; auto|].
    cbn in Hn. rewrite (deref_lookup _ _ _ Hcg). cbn.
    eexists. split; [reflexivity|].
    pose proof (lit_valid_temp _ _ Hn) as Hcv.
    valid_clauses.
  - (* TRUE *) exists []. split; [reflexivity|constructor].
  - (* FALSE *) exists []. split; [reflexivity|constructor].
  - (* VAR *) exists []. split; [reflexivity|constructor].
Qed.

(** Whenever the standard translation returns, the polarity translation
    returns some of its clauses. *)
Lemma polarity_clauses_subset (hp : heap) (this : nat) (notless : bool)
    (cs : list (list Z)) :
  cnf_get_clauses hp this notless = Ok cs ->
  exists ps, cnf_get_clauses_polarity hp this notless = Ok ps /\
    forall cl, cl ∈ ps -> cl ∈ cs.
Proof.
  intros Hcs.
  unfold cnf_get_clauses in Hcs. unfold cnf_get_clauses_polarity.
  inv_bind Hcs as g Hg. rewrite Hg. cbn [rbind].
  destruct (type g); try discriminate Hcs;
    try (injection Hcs as <-; exists []; split; [reflexivity | elems]).
  - (* EQUIV *)
    inv_bind Hcs as p Hp. rewrite Hp. destruct p as [c1 c2]. injection Hcs as <-.
    cbn [rbind]. eexists. split; [reflexivity|].
    destruct (mir_pos g), (mir_neg g); cbn; elems.
  - (* OR *)
    inv_bind Hcs as ls Hls. inv_bind Hcs as ns Hns. injection Hcs as <-.
    rewrite Hls, Hns. cbn [rbind].
    destruct (mir_pos g), (mir_neg g); cbn; eexists; (split; [reflexivity|]); elems.
  - (* AND *)
    inv_bind Hcs as ns Hns. inv_bind Hcs as ls Hls. injection Hcs as <-.
    rewrite Hls, Hns. cbn [rbind].
    destruct (mir_pos g), (mir_neg g); cbn; eexists; (split; [reflexivity|]); elems.
  - (* EVEN *)
    inv_bind Hcs as p Hp. rewrite Hp. destruct p as [c1 c2]. injection Hcs as <-.
    cbn [rbind]. eexists. split; [reflexivity|].
    destruct (mir_pos g), (mir_neg g); cbn; elems.
  - (* ODD *)
    inv_bind Hcs as p Hp. rewrite Hp. destruct p as [c1 c2]. injection Hcs as <-.
    cbn [rbind]. eexists. split; [reflexivity|].
    destruct (mir_pos g), (mir_neg g); cbn; elems.
  - (* ITE *)
    inv_bind Hcs as p Hp. rewrite Hp. destruct p as [[c1 c2] c3]. injection Hcs as <-.
    cbn [rbind]. eexists. split; [reflexivity|].
    destruct (mir_pos g), (mir_neg g); cbn; elems.
  - (* NOT *)
    destruct notless.
    + destruct (determined g); [discriminate Hcs|].
      inv_bind Hcs as c Hc. inv_bind Hcs as cg Hcg. rewrite Hc. cbn [rbind].
      rewrite Hcg. cbn [rbind].
      destruct (is_type (type cg) tNOT); [discriminate Hcs|]. injection Hcs as <-.
      exists []. split; [reflexivity | elems].
    + inv_bind Hcs as c Hc. inv_bind Hcs as cg Hcg. rewrite Hc. cbn [rbind].
      rewrite Hcg. cbn [rbind]. injection Hcs as <-.
      eexists. split; [reflexivity|].
      destruct (mir_pos g), (mir_neg g); cbn; elems.
  - (* REF *)
    destruct notless; [discriminate Hcs|].
    inv_bind Hcs as c Hc. inv_bind Hcs as cg Hcg. rewrite Hc. cbn [rbind].
    rewrite Hcg. cbn [rbind]. injection Hcs as <-.
    eexists. split; [reflexivity|].
    destruct (mir_pos g), (mir_neg g); cbn; elems.
Qed.

(** The clauses of a relevant gate, by the chosen translation. *)
Lemma gate_clauses_valid (opts : Options) (max_var_num : Z) (hp : heap)
    (a : nat) (g : Gate) :
  hp !! a = Some g -> 0 < temp g <= max_var_num ->
  arity_ok g -> cnf_form hp g -> (opt_cnf_notless opts = true -> type g <> tNOT) ->
  (forall c, c ∈ child_gates g ->
     child_numbered (opt_cnf_notless opts) max_var_num hp c) ->
  exists cls, gate_clauses opts hp a = Ok cls /\
    Forall (Forall (lit_valid max_var_num)) cls.
Proof.
  intros Ha Ht Har Hf Hnl Hch.
  destruct (cnf_get_clauses_valid _ _ _ _ _ Ha Ht Har Hf Hnl Hch) as (cs & Hcs & Hv).
  unfold gate_clauses. destruct (opt_cnf_polarity opts); [|eauto].
  destruct (polarity_clauses_subset _ _ _ _ Hcs) as (ps & Hps & Hsub).
  exists ps. split; [exact Hps|].
  rewrite Forall_forall in Hv |- *. intros cl Hcl. apply Hv, Hsub, Hcl.
Qed.

(** The assertion on the literals of a clause holds for valid literals. *)
Lemma check_clause_valid (max_var_num : Z) (cl : list Z) :
  Forall (lit_valid max_var_num) cl -> check_clause max_var_num cl = Ok tt.
Proof.
  intros H. unfold check_clause.
  assert (Hall : forallb (fun lit => negb (lit =? 0) && (Z.abs lit <=? max_var_num)) cl
                 = true).
  { induction H as [|lit cl [H0 Hm] _ IH]; [reflexivity|]. cbn [forallb].
    rewrite IH, andb_true_r. apply andb_true_iff. split.
    - apply negb_true_iff, Z.eqb_neq. exact H0.
    - apply Z.leb_le. exact Hm. }
  rewrite Hall. reflexivity.
Qed.

Lemma print_clause_fold_returns (max_var_num : Z) (cls : list (list Z)) :
  Forall (Forall (lit_valid max_var_num)) cls ->
  forall s, exists s', foldM (print_clause_step max_var_num) cls s = Ok s'.
Proof.
  induction 1 as [|cl cls Hcl _ IH]; intros s; cbn [foldM]; [eauto|].
  unfold print_clause_step at 1. rewrite (check_clause_valid _ _ Hcl). cbn [rbind].
  apply IH.
Qed.

(** One step of the second scan returns at a gate that is ready. *)
Lemma print_cnf_step_returns (opts : Options) (max_var_num : Z) (hp : heap)
    (a : nat) (g : Gate) :
  hp !! a = Some g ->
  (temp g <> -1 ->
   0 < temp g <= max_var_num /\
   arity_ok g /\ cnf_form hp g /\
   (opt_cnf_notless opts = true -> type g <> tNOT) /\
   forall c, c ∈ child_gates g ->
     child_numbered (opt_cnf_notless opts) max_var_num hp c) ->
  forall s, exists s', print_cnf_step opts max_var_num hp s a = Ok s'.
Proof.
  intros Ha Hr s. unfold print_cnf_step. rewrite (deref_lookup _ _ _ Ha). cbn [rbind].
  destruct (Z.eqb_spec (temp g) (-1)) as [E|E]; [eauto|].
  destruct (Hr E) as (Ht & Har & Hf & Hnl & Hch).
  assert (Hassert : (0 <? temp g) && (temp g <=? max_var_num) = true).
  { apply andb_true_iff. split; [apply Z.ltb_lt|apply Z.leb_le]; lia. }
  rewrite Hassert. cbn [rassert rbind].
  destruct (gate_clauses_valid opts _ _ _ _ Ha Ht Har Hf Hnl Hch) as (cls & -> & Hv).
  cbn [rbind].
  destruct (print_clause_fold_returns max_var_num (rev cls)
              ltac:(apply Forall_rev; exact Hv) s) as ([lines printed] & ->).
  cbn [rbind].
  destruct (determined g); [eauto|].
  destruct (is_type (type g) tTRUE); [eauto|].
  destruct (is_type (type g) tFALSE); eauto.
Qed.

Lemma print_cnf_fold_returns (opts : Options) (max_var_num : Z) (hp : heap)
    (l : list nat) :
  (forall a, a ∈ l -> exists g, hp !! a = Some g /\
     (temp g <> -1 ->
      0 < temp g <= max_var_num /\
      arity_ok g /\ cnf_form hp g /\
      (opt_cnf_notless opts = true -> type g <> tNOT) /\
      forall c, c ∈ child_gates g ->
        child_numbered (opt_cnf_notless opts) max_var_num hp c)) ->
  forall s, exists s', foldM (print_cnf_step opts max_var_num hp) l s = Ok s'.
Proof.
  induction l as [|a l IH]; intros H s; cbn [foldM]; [eauto|].
  destruct (H a) as (g & Ha & Hr); [left|].
  destruct (print_cnf_step_returns opts max_var_num hp a g Ha Hr s) as (s1 & ->).
  cbn [rbind]. apply IH. intros b Hb. apply H. right. exact Hb.
Qed.

Lemma same_but_temp_fields (g g' : Gate) :
  same_but_temp g g' ->
  type g' = type g /\ children g' = children g /\ determined g' = determined g /\
  value g' = value g.
Proof. unfold same_but_temp. intros ->. auto. Qed.

(** The numbering of an input of the emitter makes the circuit ready for
    the two scans. *)
Lemma renumber_emit_ready (opts : Options) (bc bc' : BC) (max_var_num : Z) :
  emitter_input bc -> renumber_gates opts bc = Ok (bc', max_var_num) ->
  first_gate bc' = first_gate bc /\ emit_ready opts max_var_num bc'.
Proof.
  intros (Hnd & Hall & Hform & Hclosed) H.
  unfold renumber_gates in H. inv_bind H as r Hr.
  destruct r as [hp V]. inv_bind H as u Hu. injection H as <- <-.
  destruct (renumber_fold_variables opts _ _ 0 _ _ (Z.le_refl 0) Hnd Hr)
    as (_ & _ & Hin & _).
  assert (Hnum : forall a g, gates bc !! a = Some g ->
            exists g', hp !! a = Some g' /\ same_but_temp g g' /\
              if gets_variable opts g then 0 < temp g' <= V else temp g' = -1).
  { intros a g Hg.
    destruct (Hin a (proj2 (Hall a) (mk_is_Some _ _ Hg))) as (g0 & g' & Hg0 & Hg' & Hs & Hv).
    assert (g0 = g) as -> by congruence. eauto. }
  split; [reflexivity|]. intros a Ha. cbn [first_gate set_gates] in Ha.
  destruct (proj1 (Hall a) Ha) as [g Hg].
  destruct (Hnum a g Hg) as (g' & Hg' & Hs & Hv).
  exists g'. split; [exact Hg'|]. intros Hrel. cbn [gates set_gates].
  destruct (gets_variable opts g) eqn:Egv; [|contradiction].
  unfold gets_variable in Egv. apply andb_true_iff in Egv. destruct Egv as [Et En].
  apply negb_true_iff in Et, En. apply Z.eqb_neq in Et.
  destruct (same_but_temp_fields _ _ Hs) as (Hty & Hch & Hdet & Hval).
  destruct (Hform a g Hg) as (Har & Href & Hth & Hat & Hun & Hde & HcT & HcF & Hnot & Hbin).
  assert (Hcg : child_gates g' = child_gates g) by (unfold child_gates; rewrite Hch; reflexivity).
  split; [exact Hv|]. split_and!.
  - unfold arity_ok. rewrite Hty, Hch. exact Har.
  - unfold cnf_form, nth_child, count_children. rewrite Hty, Hcg, Hch, Hdet, Hval.
    split_and!; auto.
    intros Hn. destruct (Hnot Hn) as (Hd & c & cg & Hc & Hcgl & Hcn).
    split; [exact Hd|]. destruct (Hnum c cg Hcgl) as (cg' & Hcg' & Hsc & _).
    exists c, cg'. split_and!; auto.
    rewrite (proj1 (same_but_temp_fields _ _ Hsc)). exact Hcn.
  - intros Hnl Hn. rewrite Hty in Hn. rewrite Hnl in En. cbn [andb] in En.
    rewrite (proj2 (is_type_true _ _) Hn) in En. discriminate En.
  - intros c Hc. rewrite Hcg in Hc.
    destruct (Hclosed a g c Hg Et Hc) as (cg & Hcgl & Hct).
    destruct (Hnum c cg Hcgl) as (cg' & Hcg' & Hsc & Hvc).
    exists cg'. split; [exact Hcg'|].
    destruct (same_but_temp_fields _ _ Hsc) as (Htyc & Hchc & _).
    rewrite Htyc.
    destruct (opt_cnf_notless opts && is_type (type cg) tNOT) eqn:Ec.
    + apply andb_true_iff in Ec. destruct Ec as [Enl Enot]. apply is_type_true in Enot.
      destruct (Hform c cg Hcgl) as (_ & _ & _ & _ & _ & _ & _ & _ & Hnotc & _).
      destruct (Hnotc Enot) as (_ & gc & gcg & Hgc & Hgcg & Hgcn).
      destruct (Hclosed c cg gc Hcgl Hct) as (gcg0 & Hgcg0 & Hgct).
      { unfold nth_child in Hgc. destruct (child_gates cg !! 0%nat) as [x|] eqn:Ex;
          [|discriminate Hgc]. injection Hgc as ->.
        apply list_elem_of_lookup. eauto. }
      assert (gcg0 = gcg) as -> by congruence.
      destruct (Hnum gc gcg Hgcg) as (gcg' & Hgcg' & _ & Hvg).
      assert (Egv : gets_variable opts gcg = true).
      { unfold gets_variable. apply andb_true_iff. split.
        - apply negb_true_iff, Z.eqb_neq. exact Hgct.
        - rewrite (proj2 (is_type_false _ _) Hgcn), andb_false_r. reflexivity. }
      rewrite Egv in Hvg.
      exists gc, gcg'. split; [|split; [exact Hgcg'|exact Hvg]].
      unfold child_gates. rewrite Hchc. unfold nth_child, child_gates in Hgc.
      destruct (map snd (children cg) !! 0%nat); [|discriminate Hgc].
      injection Hgc as ->. reflexivity.
    + assert (Egv : gets_variable opts cg = true).
      { unfold gets_variable. rewrite Ec. apply andb_true_iff. split; [|reflexivity].
        apply negb_true_iff, Z.eqb_neq. exact Hct. }
      rewrite Egv in Hvc. exact Hvc.
Qed.

(** X10: on a circuit in the CNF normal form whose chain holds every gate
    once and in which the children of the relevant gates are relevant, once
    the numbering loop of [main] has returned [max_var_num], the two scans
    of the emitter run to their end: the assertions on the numbers of the
    gates and on the literals hold and no translation stops at an internal
    error.  The header carries the number of the lines that follow it (as
    an [unsigned int]), every relevant gate has a number from 1 to
    [max_var_num], and every literal of its clauses is different from 0 and
    at most [max_var_num] in absolute value: the output is a DIMACS formula
    over the variables of the header. *)
Theorem print_cnf_returns (opts : Options) (bc bc' : BC) (max_var_num : Z) :
  emitter_input bc ->
  renumber_gates opts bc = Ok (bc', max_var_num) ->
  exists lines printed,
    print_cnf_clauses opts max_var_num bc' = Ok (lines, printed) /\
    count_cnf_clauses opts bc' = Ok (u32 (Z.of_nat (length lines))) /\
    (forall out,
       print_cnf opts max_var_num bc' out =
       Ok (out ++ dimacs_header max_var_num (u32 (Z.of_nat (length lines))) :: lines)) /\
    (forall a g, a ∈ first_gate bc' -> gates bc' !! a = Some g -> temp g <> -1 ->
       0 < temp g <= max_var_num /\
       exists cls, gate_clauses opts (gates bc') a = Ok cls /\
         forall cl lit, cl ∈ cls -> lit ∈ cl -> lit_valid max_var_num lit).
Proof.
  intros Hin Hr.
  destruct (renumber_emit_ready opts bc bc' max_var_num Hin Hr) as (_ & Hready).
  destruct (print_cnf_fold_returns opts max_var_num (gates bc') (first_gate bc')
              Hready ([], 0)) as ([lines printed] & Hp).
  exists lines, printed.
  destruct (print_count_fold _ _ _ _ _ _ 0 _ _ Hp)
    as (new & n' & Hl & Heq & Hrp & Hc & Heqn & Hrn).
  simpl in Hl. subst new.
  assert (Hz : in_u32 0) by (unfold in_u32; lia).
  unfold eq_u32 in Heq, Heqn. rewrite Z.add_0_l in Heq, Heqn.
  rewrite (u32_id _ (Hrp Hz)) in Heq. rewrite (u32_id _ (Hrn Hz)) in Heqn.
  subst printed n'.
  split; [exact Hp|]. split; [exact Hc|]. split.
  - intros out. unfold print_cnf. unfold count_cnf_clauses in Hc. 
    unfold count_cnf_clauses. rewrite Hc. cbn [rbind].
    unfold print_cnf_clauses. rewrite Hp. cbn [rbind].
    rewrite Z.eqb_refl. cbn [rassert rbind]. rewrite <- app_assoc. reflexivity.
  - intros a g Ha Hg Hrel. destruct (Hready a Ha) as (g0 & Hg0 & Hcond).
    assert (g0 = g) as -> by congruence.
    destruct (Hcond Hrel) as (Ht & Har & Hf & Hnl & Hch).
    split; [exact Ht|].
    destruct (gate_clauses_valid opts _ _ _ _ Hg Ht Har Hf Hnl Hch) as (cls & Hcls & Hv).
    exists cls. split; [exact Hcls|]. intros cl lit Hcl Hlit.
    rewrite Forall_forall in Hv. specialize (Hv cl Hcl).
    rewrite Forall_forall in Hv. exact (Hv lit Hlit).
Qed.

Lemma ex_coi_cases (a : nat) (g : Gate) :
  gates ex_coi_bc !! a = Some g ->
  (a = 3%nat /\
   g = set_value true (set_temp 0 (gate_of tOR 3 [(1%nat, 0%nat); (2%nat, 2%nat)]))) \/
  (a = 2%nat /\ g = set_temp 2 (gate_of tNOT 2 [(0%nat, 1%nat)])) \/
  (a = 1%nat /\ g = set_temp 3 (gate_of tVAR 1 [])) \/
  (a = 0%nat /\ g = set_temp 1 (gate_of tVAR 0 [])).
Proof.
  unfold ex_coi_bc. cbn [gates]. intros H.
  repeat (rewrite lookup_insert in H; case_decide;
          [subst a; injection H as <-; auto 6|]).
  rewrite lookup_empty in H. discriminate.
Qed.

Lemma ex_coi_emitter_input : emitter_input ex_coi_bc.
Proof.
  split_and!.
  - cbn. repeat (apply NoDup_cons_2; [rewrite ?elem_of_cons, elem_of_nil; lia|]).
    apply NoDup_nil_2.
  - intros a. split.
    + cbn. rewrite !elem_of_cons, elem_of_nil.
      intros [->|[->|[->|[->|[]]]]]; vm_compute; eauto.
    + intros [g Hg]. cbn. rewrite !elem_of_cons.
      destruct (ex_coi_cases a g Hg) as [[-> _]|[[-> _]|[[-> _]|[-> _]]]]; auto.
  - intros a g Hg.
    destruct (ex_coi_cases a g Hg) as [[-> ->]|[[-> ->]|[[-> ->]|[-> ->]]]].
    + split; [split; [vm_compute; reflexivity|split; [intros [|]; discriminate|discriminate]]|].
      unfold cnf_form. cbn. split_and!; try discriminate.
      intros [|[|]]; discriminate.
    + split; [split; [vm_compute; reflexivity|split; [reflexivity|discriminate]]|].
      unfold cnf_form. cbn. split_and!; try discriminate.
      * intros _. split; [reflexivity|].
        exists 1%nat, (set_temp 3 (gate_of tVAR 1 [])).
        split; [reflexivity|]. split; [reflexivity|discriminate].
      * intros [|[|]]; discriminate.
    + split; [split; [vm_compute; reflexivity|split; [intros [|]; discriminate|discriminate]]|].
      unfold cnf_form. cbn. split_and!; try discriminate.
      intros [|[|]]; discriminate.
    + split; [split; [vm_compute; reflexivity|split; [intros [|]; discriminate|discriminate]]|].
      unfold cnf_form. cbn. split_and!; try discriminate.
      intros [|[|]]; discriminate.
  - intros a g c Hg Ht Hc. unfold child_gates in Hc.
    destruct (ex_coi_cases a g Hg) as [[-> ->]|[[-> ->]|[[-> ->]|[-> ->]]]];
      cbn in Hc; rewrite ?elem_of_cons, elem_of_nil in Hc;
      repeat match goal with
             | H : _ \/ _ |- _ => destruct H as [->|H]
             | H : False |- _ => destruct H
             end;
      eexists; (split; [reflexivity|cbn; lia]).
Qed.

(** The theorem at [g3 := OR(x, ~y)], constrained to true: the emitter
    prints the header and four clause lines. *)
Lemma print_cnf_returns_witness :
  exists lines,
    print_cnf default_options 3 ex_or_not_bc [] =
      Ok ([] ++ dimacs_header 3 (u32 (Z.of_nat (length lines))) :: lines) /\
    forall cls, gate_clauses default_options (gates ex_or_not_bc) 3 = Ok cls ->
      forall cl lit, cl ∈ cls -> lit ∈ cl -> lit_valid 3 lit.
Proof.
  destruct (print_cnf_returns default_options ex_coi_bc ex_or_not_bc 3
              ex_coi_emitter_input ltac:(vm_compute; reflexivity))
    as (lines & printed & _ & _ & Hprint & Hvalid).
  exists lines. split; [apply Hprint|].
  intros cls Hcls.
  destruct (Hvalid 3%nat
              (set_value true (set_temp 3 (gate_of tOR 3 [(1%nat, 0%nat); (2%nat, 2%nat)]))))
    as (_ & cls' & Hcls' & Hv);
    [cbn; rewrite !elem_of_cons; auto | reflexivity | cbn; lia |].
  rewrite Hcls in Hcls'. injection Hcls' as <-. exact Hv.
Defined.

(** ** Justified gates are consistent *)

Lemma count_child_info_fold_states (hp : heap) (cs : list nat) :
  forall acc r, foldM (count_child_info_step hp) cs acc = Ok r ->
  exists ss, child_states hp cs ss.
Proof.
  induction cs as [|c cs IH]; intros acc r H; cbn [foldM] in H.
  - exists []. constructor.
  - inv_bind H as acc1 H1. destruct (IH _ _ H) as [ss Hss].
    unfold count_child_info_step in H1. destruct acc as [[nt nf] nu].
    inv_bind H1 as cg Hcg. apply deref_Ok in Hcg.
    eexists (_ :: ss). constructor; [|exact Hss].
    unfold child_state. rewrite Hcg. reflexivity.
Qed.

(** The counters of [count_child_info] add up to the number of children. *)
Lemma count_child_info_sum (hp : heap) (g : Gate) (nt nf nu : Z) :
  Z.of_nat (length (children g)) < 2 ^ 32 ->
  count_child_info hp g = Ok (nt, nf, nu) ->
  0 <= nt /\ 0 <= nf /\ 0 <= nu /\ nt + nf + nu = Z.of_nat (length (children g)).
Proof.
  intros Hlen H. pose proof H as H0. unfold count_child_info in H0.
  destruct (count_child_info_fold_states _ _ _ _ H0) as [ss Hss].
  pose proof (count_child_info_states hp g ss Hss Hlen) as Hc.
  pose proof (state_counts_sum ss) as Hsum.
  pose proof (Forall2_length _ _ _ Hss) as Hl.
  unfold child_gates in Hl. rewrite length_map in Hl.
  destruct (state_counts ss) as [[t f] u].
  rewrite H in Hc. injection Hc as -> -> ->. lia.
Qed.

(** X11: a determined gate of a CNF-normalized type that [is_justified]
    accepts passes [check_consistency], provided a constant carries its
    own value ([is_justified] accepts a constant whatever its value is). *)
Theorem justified_is_consistent (hp : heap) (this : nat) (g : Gate) :
  hp !! this = Some g -> cnf_type (type g) -> constant_ok g -> arity_ok g ->
  is_justified hp this = Ok true ->
  check_consistency hp this = Ok true.
Proof.
  intros Hg Hty Hconst (Hlen & Har1 & Har3) H.
  unfold is_justified in H. unfold check_consistency.
  rewrite (deref_lookup _ _ _ Hg) in *. cbn [rbind] in *.
  destruct (determined g) eqn:Hd; [|discriminate H]. cbn [negb] in *.
  inv_bind H as info Hinfo. rewrite Hinfo. cbn [rbind].
  destruct info as [[nt nf] nu].
  destruct (count_child_info_sum hp g nt nf nu Hlen Hinfo) as (H0t & H0f & H0u & Hsum).
  assert (Hnc : u32 (nt + nf + nu) = nt + nf + nu)
    by (apply u32_id; unfold in_u32; lia).
  assert (Hntf : u32 (nt + nf) = nt + nf) by (apply u32_id; unfold in_u32; lia).
  rewrite Hnc in *. rewrite ?Hntf in H.
  destruct (Hconst Hd) as [HcT HcF].
  destruct Hty as [Ht|[Ht|[Ht|[Ht|[Ht|[Ht|[Ht|[Ht|[Ht|Ht]]]]]]]]]; rewrite Ht in *.
  - rewrite (HcF eq_refl). reflexivity.
  - rewrite (HcT eq_refl). reflexivity.
  - reflexivity.
  - (* NOT *)
    specialize (Har1 (or_intror eq_refl)). rewrite Har1 in Hsum.
    destruct (value g); injection H as H; cbn in H |- *; bool_tests; try lia;
      try reflexivity; try discriminate H.
  - (* OR *)
    destruct (value g); cbn [negb]; bool_tests; try lia; try reflexivity;
      try discriminate H.
  - (* AND *)
    destruct (value g); cbn [negb] in *; bool_tests; try lia; try reflexivity;
      try discriminate H.
  - (* EQUIV *)
    destruct (value g); cbn in H |- *; bool_tests; cbn in H |- *; try lia;
      try reflexivity; try discriminate H.
  - (* ODD *)
    rewrite land_one_mod.
    destruct (value g); injection H as H; apply andb_true_iff in H;
      destruct H as [H1 H2]; bool_tests; try lia; try reflexivity.
  - (* EVEN *)
    rewrite land_one_mod.
    destruct (value g); injection H as H; apply andb_true_iff in H;
      destruct H as [H1 H2]; bool_tests; try lia; try reflexivity.
  - (* ITE *)
    inv_bind H as if_a Hif. inv_bind H as then_a Hthen. inv_bind H as else_a Helse.
    inv_bind H as if_child Hic. inv_bind H as then_child Htc.
    inv_bind H as else_child Hec.
    rewrite Hif, Hthen, Helse. cbn [rbind]. rewrite Hic, Htc, Hec. cbn [rbind].
    unfold det_val in *.
    destruct (value g), (determined if_child), (value if_child),
      (determined then_child), (value then_child),
      (determined else_child), (value else_child);
      cbn in H |- *; try reflexivity; discriminate H.
Qed.

(** The theorem at the true gate [o := OR(x, y)] with [y] true. *)
Lemma justified_is_consistent_witness : check_consistency (ex_free_heap 0) 2 = Ok true.
Proof.
  apply (justified_is_consistent (ex_free_heap 0) 2
           (set_temp 0 (set_value true (set_handles [NameHandle "o"]
              (gate_of tOR 2 [(0%nat, 0%nat); (1%nat, 1%nat)]))))).
  - reflexivity.
  - unfold cnf_type. cbn. tauto.
  - intros _. split; discriminate.
  - split; [cbn; lia|]. split; [intros [H|H]; discriminate H | discriminate].
  - reflexivity.
Defined.

(** ** [Gate::edimacs_normalize] *)

Section EdimacsSafe.

Context (ops : BCOps) (Hops : ops_safe ops).

#[local] Hint Resolve safe_install_gate safe_install_new safe_cnf_constant
  safe_cnf_normalize_constant safe_cnf_normalize_REF safe_cnf_normalize_NOT
  safe_cnf_normalize_OR_AND safe_sort_children safe_new_gate1 : safe.

Lemma safe_edimacs_normalize_EQUIV (this : nat) : safe (edimacs_normalize_EQUIV this).
Proof. safe_def edimacs_normalize_EQUIV. Qed.

Lemma safe_edimacs_normalize_THRESHOLD (this : nat) :
  safe (edimacs_normalize_THRESHOLD ops this).
Proof. safe_def edimacs_normalize_THRESHOLD. Qed.

Lemma safe_edimacs_normalize_ATLEAST (this : nat) :
  safe (edimacs_normalize_ATLEAST this).
Proof. safe_def edimacs_normalize_ATLEAST. Qed.

Lemma safe_edimacs_normalize_parity (this : nat) (t : GateType) :
  safe (edimacs_normalize_parity this t).
Proof. safe_def edimacs_normalize_parity. Qed.

#[local] Hint Resolve safe_edimacs_normalize_EQUIV safe_edimacs_normalize_THRESHOLD
  safe_edimacs_normalize_ATLEAST safe_edimacs_normalize_parity : safe.

Lemma safe_edimacs_normalize (this : nat) : safe (edimacs_normalize ops this).
Proof. safe_def edimacs_normalize. Qed.

End EdimacsSafe.

Lemma conflict_edimacs_normalize (ops : BCOps) (this : nat) (bc : BC) (g : Gate) :
  gates bc !! this = Some g -> value_conflict (gates bc) g ->
  edimacs_normalize ops this bc = Ok (false, bc).
Proof.
  intros Hg Hconf.
  assert (Hty : type g = tTRUE \/ type g = tFALSE \/ type g = tREF \/ type g = tNOT).
  { destruct Hconf as (_ & [(Ht & _)|[(Ht & _)|(c & cg & _ & _ & _ & [(Ht & _)|(Ht & _)])]]);
      auto. }
  assert (Hfront : edimacs_normalize ops this bc = cnf_normalize ops this bc).
  { unfold edimacs_normalize, cnf_normalize.
    rewrite !(st_bind_run _ _ _ _ _ (gate_run _ _ _ Hg)).
    assert (Hdel : is_type (type g) tDELETED = false).
    { apply is_type_false. destruct Hty as [Ht|[Ht|[Ht|Ht]]]; congruence. }
    rewrite Hdel. unfold is_commutative.
    destruct Hty as [Ht|[Ht|[Ht|Ht]]]; rewrite Ht;
      unfold skip; rewrite st_bind_ret, (st_bind_run _ _ _ _ _ (gate_run _ _ _ Hg)), Ht;
      reflexivity. }
  rewrite Hfront. apply (conflict_cnf_normalize ops this bc g Hg Hconf).
Qed.

(** X12: [edimacs_normalize] does not change the value of a determined
    gate of the circuit, whatever it returns (the operations of bc.cc that
    it calls being assumed to keep the values too); and at a constant
    determined to the other value, or a determined REF or NOT over a
    determined child whose value does not fit, it returns [false] with the
    circuit as it was. *)
Theorem edimacs_normalize_values_kept (ops : BCOps) (this : nat) (bc : BC) :
  ops_safe ops ->
  (forall r bc', edimacs_normalize ops this bc = Ok (r, bc') -> values_kept bc bc') /\
  (forall g, gates bc !! this = Some g -> value_conflict (gates bc) g ->
             edimacs_normalize ops this bc = Ok (false, bc)).
Proof.
  intros Hops. split.
  - intros r bc' H. exact (safe_edimacs_normalize ops Hops this bc r bc' H).
  - intros g Hg Hc. exact (conflict_edimacs_normalize ops this bc g Hg Hc).
Qed.

(** The theorem with the operations [ex_ops], at the constant TRUE
    constrained to false. *)
Lemma edimacs_normalize_values_kept_witness :
  (forall r bc', edimacs_normalize ex_ops 0 ex_true_false = Ok (r, bc') ->
                 values_kept ex_true_false bc') /\
  edimacs_normalize ex_ops 0 ex_true_false = Ok (false, ex_true_false).
Proof.
  destruct (edimacs_normalize_values_kept ex_ops 0 ex_true_false ex_ops_safe)
    as [H1 H2].
  split; [exact H1|].
  apply (H2 (set_value false (gate_of tTRUE 0 []))); [reflexivity|].
  split; [reflexivity|]. left. split; reflexivity.
Defined.

(** *** [edimacs_normalize] at an ATLEAST gate *)

Lemma add_in_pstack_this (this : nat) (s : BC) (gs : Gate) :
  gates s !! this = Some gs ->
  exists s', add_in_pstack this s = Ok (tt, s') /\
             gates s' !! this = Some (set_in_pstack true gs) /\
             others_kept this s s'.
Proof.
  intros Hthis. unfold add_in_pstack.
  rewrite (st_bind_run _ _ _ _ _ (gate_run s this gs Hthis)).
  destruct (in_pstack gs) eqn:E; cbn [negb].
  - exists s. split; [reflexivity|]. split; [|apply others_kept_refl].
    rewrite Hthis. f_equal. destruct gs; cbn in E; subst; reflexivity.
  - rewrite (st_bind_run _ _ _ _ _ (modify_run s this gs _ Hthis)).
    eexists. split; [reflexivity|]. cbn. split; [apply lookup_insert_eq|].
    intros a ga Hne Ha. cbn. rewrite lookup_insert_ne by auto.
    exists ga. split; [exact Ha | apply same_but_links_refl].
Qed.

Lemma modify_this_run (this : nat) (s : BC) (gs : Gate) (f : Gate -> Gate) :
  gates s !! this = Some gs ->
  exists s', modify this f s = Ok (tt, s') /\ gates s' !! this = Some (f gs) /\
             others_kept this s s'.
Proof.
  intros Hthis. rewrite (modify_run s this gs f Hthis).
  eexists. split; [reflexivity|]. cbn. split; [apply lookup_insert_eq|].
  intros a ga Hne Ha. cbn. rewrite lookup_insert_ne by auto.
  exists ga. split; [exact Ha | apply same_but_links_refl].
Qed.

(** [cnf_constant]: the gate becomes the constant, unless it is
    determined to the other value. *)
Lemma cnf_constant_run (this : nat) (v fl : bool) (s : BC) (gs : Gate) :
  gates s !! this = Some gs ->
  (forall c, c ∈ map snd (children gs) -> c <> this /\ is_Some (gates s !! c)) ->
  exists r s' g', cnf_constant this v fl s = Ok (r, s') /\
    gates s' !! this = Some g' /\ others_kept this s s' /\
    if determined gs && negb (eqb (value gs) v) then r = false /\ s' = s /\ g' = gs
    else r = true /\
         g' = (if fl then set_tmax 0 else fun g => g)
                (set_tmin 0 (set_children [] (set_type (if v then tTRUE else tFALSE)
                                                       (set_value v gs)))).
Proof.
  intros Hthis Hch. unfold cnf_constant, conflicts_with.
  rewrite (st_bind_run _ _ s s (determined gs && negb (eqb (value gs) v)));
    [|rewrite (st_bind_run _ _ _ _ _ (gate_run s this gs Hthis)); reflexivity].
  destruct (determined gs && negb (eqb (value gs) v)) eqn:E.
  - exists false, s, gs. split; [reflexivity|]. split; [exact Hthis|].
    split; [apply others_kept_refl | auto].
  - destruct (transform_into_constant_run this v s gs Hthis) as (s1 & H1 & Ht1 & Hk1);
      [|exact Hch|].
    { intros Hd. rewrite Hd in E. cbn in E. apply negb_false_iff in E.
      apply eqb_prop in E. exact E. }
    destruct (modify_this_run this s1 _ (set_tmin 0) Ht1) as (s2 & H2 & Ht2 & Hk2).
    rewrite (st_bind_run _ _ _ _ _ H1), (st_bind_run _ _ _ _ _ H2).
    destruct fl.
    + destruct (modify_this_run this s2 _ (set_tmax 0) Ht2) as (s3 & H3 & Ht3 & Hk3).
      rewrite (st_bind_run _ _ _ _ _ H3).
      exists true, s3. eexists. split; [reflexivity|]. split; [exact Ht3|].
      split; [|auto].
      eapply others_kept_trans; [|exact Hk3].
      eapply others_kept_trans; eassumption.
    + unfold skip. rewrite st_bind_ret.
      exists true, s2. eexists. split; [reflexivity|]. split; [exact Ht2|].
      split; [eapply others_kept_trans; eassumption | auto].
Qed.

(** X13: [edimacs_normalize] at an ATLEAST gate with bound [L] and [n]
    children first sorts the children by [index]; then, if [L = 0], the
    gate becomes the constant TRUE; if [L > n], the constant FALSE (in
    both cases the call returns [false] instead, with the gate sorted only,
    when the gate is determined to the other value); if [L = n], an AND
    over the children; otherwise it stays an ATLEAST gate with bound [L],
    also when [L = 1]. *)
Theorem edimacs_normalize_atleast (ops : BCOps) (bc : BC) (this : nat) (g : Gate) :
  sort_ready bc this g -> type g = tATLEAST ->
  Z.of_nat (length (children g)) < 2 ^ 32 ->
  exists r bc' g1 g',
    edimacs_normalize ops this bc = Ok (r, bc') /\
    gates bc' !! this = Some g' /\ others_kept this bc bc' /\
    g1 = set_children (children g1) g /\ child_gates g1 ≡ₚ child_gates g /\
    StronglySorted
      (fun c d => child_index (gates bc') c <= child_index (gates bc') d)
      (child_gates g1) /\
    let n := Z.of_nat (length (children g)) in
    if tmin g =? 0 then
      if determined g && negb (value g) then r = false /\ g' = g1
      else r = true /\
           g' = set_tmin 0 (set_children [] (set_type tTRUE (set_value true g1)))
    else if n <? tmin g then
      if determined g && value g then r = false /\ g' = g1
      else r = true /\
           g' = set_tmin 0 (set_children [] (set_type tFALSE (set_value false g1)))
    else if tmin g =? n then
      r = true /\ g' = set_in_pstack true (set_tmin 0 (set_type tAND g1))
    else r = true /\ g' = g1.
Proof.
  intros Hready Hty Hlen. pose proof Hready as (Hg & Hnd & Hch).
  assert (Hcomm : is_commutative g = true) by (unfold is_commutative; rewrite Hty; reflexivity).
  destruct (sort_children_run bc this g Hready Hcomm)
    as (bc1 & g1 & Hsort & Hg1 & Hsame & Hfst & Hperm & Hsorted & Hkept).
  assert (Hty1 : type g1 = tATLEAST) by (rewrite Hsame; exact Hty).
  assert (Hlen1 : length (children g1) = length (children g)).
  { rewrite <- (length_map fst (children g1)), Hfst. apply length_map. }
  assert (Hch1 : forall c, c ∈ map snd (children g1) ->
                           c <> this /\ is_Some (gates bc1 !! c)).
  { intros c Hc. fold (child_gates g1) in Hc. rewrite Hperm in Hc.
    destruct (Hch c Hc) as (Hne & cg & Hcg & _). split; [exact Hne|].
    eapply others_kept_is_Some; eauto. }
  assert (Hidx : forall bc2, others_kept this bc1 bc2 ->
            StronglySorted
              (fun c d => child_index (gates bc2) c <= child_index (gates bc2) d)
              (child_gates g1)).
  { intros bc2 Hk2. revert Hsorted. apply StronglySorted_impl_in.
    intros x y Hx Hy. unfold child_gates in Hx, Hy.
    destruct (Hch1 x Hx) as [Hxn Hxs], (Hch1 y Hy) as [Hyn Hys].
    rewrite !(others_kept_index this bc1 bc2) by assumption. auto. }
  unfold edimacs_normalize.
  rewrite (st_bind_run _ _ _ _ _ (gate_run bc this g Hg)).
  rewrite (proj2 (is_type_false _ _)) by (rewrite Hty; discriminate).
  rewrite Hcomm, (st_bind_run _ _ _ _ _ Hsort).
  rewrite (st_bind_run _ _ _ _ _ (gate_run bc1 this g1 Hg1)), Hty1.
  unfold edimacs_normalize_ATLEAST.
  rewrite (st_bind_run _ _ _ _ _ (gate_run bc1 this g1 Hg1)).
  rewrite (st_bind_run _ _ bc1 bc1 (Z.of_nat (length (children g)))); cycle 1.
  { unfold count_children_of.
    rewrite (st_bind_run _ _ _ _ _ (gate_run bc1 this g1 Hg1)).
    unfold st_ret. rewrite count_children_small by (rewrite Hlen1; exact Hlen).
    rewrite Hlen1. reflexivity. }
  assert (Htmin : tmin g1 = tmin g) by (rewrite Hsame; reflexivity).
  assert (Hdet : determined g1 = determined g) by (rewrite Hsame; reflexivity).
  assert (Hval : value g1 = value g) by (rewrite Hsame; reflexivity).
  rewrite Htmin. cbv zeta.
  destruct (Z.eqb_spec (tmin g) 0) as [E0|E0].
  { destruct (cnf_constant_run this true false bc1 g1 Hg1 Hch1)
      as (r & bc' & g' & Hrun & Hg' & Hk' & Hres).
    exists r, bc', g1, g'. split; [exact Hrun|]. split; [exact Hg'|].
    split; [eapply others_kept_trans; eassumption|].
    split; [exact Hsame|]. split; [exact Hperm|]. split; [apply Hidx; exact Hk'|].
    rewrite Hdet, Hval in Hres.
    replace (negb (eqb (value g) true)) with (negb (value g)) in Hres
      by (destruct (value g); reflexivity).
    destruct (determined g && negb (value g)); tauto. }
  destruct (Z.ltb_spec (Z.of_nat (length (children g))) (tmin g)) as [E1|E1].
  { destruct (cnf_constant_run this false false bc1 g1 Hg1 Hch1)
      as (r & bc' & g' & Hrun & Hg' & Hk' & Hres).
    exists r, bc', g1, g'. split; [exact Hrun|]. split; [exact Hg'|].
    split; [eapply others_kept_trans; eassumption|].
    split; [exact Hsame|]. split; [exact Hperm|]. split; [apply Hidx; exact Hk'|].
    rewrite Hdet, Hval in Hres.
    replace (negb (eqb (value g) false)) with (value g) in Hres
      by (destruct (value g); reflexivity).
    destruct (determined g && value g); tauto. }
  destruct (Z.eqb_spec (tmin g) (Z.of_nat (length (children g)))) as [E2|E2].
  { destruct (modify_this_run this bc1 g1 (fun g => set_tmin 0 (set_type tAND g)) Hg1)
      as (bc2 & H2 & Hg2 & Hk2).
    destruct (add_in_pstack_this this bc2 _ Hg2) as (bc3 & H3 & Hg3 & Hk3).
    rewrite (st_bind_run _ _ _ _ _ H2), (st_bind_run _ _ _ _ _ H3).
    exists true, bc3, g1. eexists. split; [reflexivity|]. split; [exact Hg3|].
    assert (Hk13 : others_kept this bc1 bc3) by (eapply others_kept_trans; eassumption).
    split; [eapply others_kept_trans; eassumption|].
    split; [exact Hsame|]. split; [exact Hperm|]. split; [apply Hidx; exact Hk13|].
    auto. }
  exists true, bc1, g1, g1. split; [reflexivity|]. split; [exact Hg1|].
  split; [exact Hkept|]. split; [exact Hsame|]. split; [exact Hperm|].
  split; [apply Hidx, others_kept_refl|]. auto.
Qed.

Lemma edimacs_normalize_atleast_witness :
  exists r bc' g1 g',
    edimacs_normalize ex_ops 2 ex_atleast_one = Ok (r, bc') /\
    gates bc' !! 2%nat = Some g' /\ others_kept 2 ex_atleast_one bc' /\
    g1 = set_children (children g1)
           (set_tmin 1 (set_handles [NameHandle "a"]
              (gate_of tATLEAST 2 [(0%nat, 0%nat); (1%nat, 1%nat)]))) /\
    child_gates g1 ≡ₚ [0%nat; 1%nat] /\
    StronglySorted
      (fun c d => child_index (gates bc') c <= child_index (gates bc') d)
      (child_gates g1) /\
    r = true /\ g' = g1.
Proof.
  apply (edimacs_normalize_atleast ex_ops ex_atleast_one 2
           (set_tmin 1 (set_handles [NameHandle "a"]
              (gate_of tATLEAST 2 [(0%nat, 0%nat); (1%nat, 1%nat)])))).
  - split; [reflexivity|]. split.
    + cbn. apply NoDup_cons_2; [|apply NoDup_cons_2; [|apply NoDup_nil_2]];
        rewrite ?elem_of_cons, ?elem_of_nil; lia.
    + intros c Hc. cbv in Hc.
      repeat (apply elem_of_cons in Hc; destruct Hc as [->|Hc];
              [split; [lia|]; eexists; split; [reflexivity|]; cbn; lia|]).
      apply elem_of_nil in Hc. destruct Hc.
  - reflexivity.
  - cbn. lia.
Defined.

(** ** Finding cycles: [Gate::test_acyclicity] *)

Lemma coloured_fun (hp : heap) (a : nat) (t t' : Z) :
  coloured hp a t -> coloured hp a t' -> t = t'.
Proof.
  intros (g & Hg & <-) (g' & Hg' & <-). rewrite Hg in Hg'. injection Hg' as <-.
  reflexivity.
Qed.

Lemma coloured_insert (hp : heap) (a b : nat) (g : Gate) (t t' : Z) :
  coloured (<[a := set_temp t g]> hp) b t' <->
  (b = a /\ t' = t) \/ (b <> a /\ coloured hp b t').
Proof.
  unfold coloured. destruct (decide (b = a)) as [->|Hne].
  - rewrite lookup_insert_eq. split.
    + intros (g' & Hg' & <-). injection Hg' as <-. left. split; reflexivity.
    + intros [[_ ->]|[Hn _]]; [|congruence]. eexists. split; reflexivity.
  - rewrite lookup_insert_ne by auto. split; [auto|].
    intros [[He _]|[_ Hc]]; [congruence | exact Hc].
Qed.

Lemma same_but_temps_refl (hp : heap) : same_but_temps hp hp.
Proof.
  split; [auto|]. intros a g Hg. exists g. split; [exact Hg|].
  destruct g; reflexivity.
Qed.

Lemma same_but_temps_lookup (H hp : heap) (a : nat) (g : Gate) :
  same_but_temps H hp -> H !! a = Some g ->
  exists g', hp !! a = Some g' /\ g' = set_temp (temp g') g.
Proof. intros [_ E] Hg. exact (E a g Hg). Qed.

Lemma same_but_temps_back (H hp : heap) (a : nat) (g' : Gate) :
  same_but_temps H hp -> hp !! a = Some g' ->
  exists g, H !! a = Some g /\ g' = set_temp (temp g') g.
Proof.
  intros [N E] Hg'. destruct (H !! a) as [g|] eqn:Hg.
  - destruct (E a g Hg) as (g2 & H2 & S2). rewrite Hg' in H2. injection H2 as <-.
    exists g. auto.
  - rewrite (N a Hg) in Hg'. discriminate Hg'.
Qed.

Lemma same_but_temps_insert (H hp : heap) (a : nat) (g' : Gate) (t : Z) :
  same_but_temps H hp -> hp !! a = Some g' ->
  same_but_temps H (<[a := set_temp t g']> hp).
Proof.
  intros Hs Hg'. pose proof Hs as [N E]. split.
  - intros b Hb. destruct (decide (b = a)) as [->|Hne].
    + rewrite (N a Hb) in Hg'. discriminate Hg'.
    + rewrite lookup_insert_ne by auto. auto.
  - intros b g Hb. destruct (decide (b = a)) as [->|Hne].
    + rewrite lookup_insert_eq. eexists. split; [reflexivity|].
      destruct (E a g Hb) as (g2 & H2 & S2). rewrite Hg' in H2. injection H2 as <-.
      unfold same_but_temp in *. rewrite S2. destruct g; reflexivity.
    + rewrite lookup_insert_ne by auto. auto.
Qed.

Lemma same_but_temps_coloured (H hp : heap) (a : nat) :
  same_but_temps H hp -> is_Some (H !! a) -> exists t, coloured hp a t.
Proof.
  intros Hs [g Hg]. destruct (same_but_temps_lookup _ _ _ _ Hs Hg) as (g' & Hg' & _).
  exists (temp g'), g'. auto.
Qed.

Lemma coloured_is_Some (H hp : heap) (a : nat) (t : Z) :
  same_but_temps H hp -> coloured hp a t -> is_Some (H !! a).
Proof.
  intros Hs (g' & Hg' & _).
  destruct (same_but_temps_back _ _ _ _ Hs Hg') as (g & Hg & _). eauto.
Qed.

Lemma same_but_temps_reaches (H hp : heap) (a b : nat) :
  same_but_temps H hp -> reaches H a b <-> reaches hp a b.
Proof.
  intros Hs. split.
  - induction 1 as [a|a c b g Hg Hc _ IH]; [constructor|].
    destruct (same_but_temps_lookup _ _ _ _ Hs Hg) as (g' & Hg' & S).
    econstructor; [exact Hg' | | exact IH]. rewrite S. exact Hc.
  - induction 1 as [a|a c b g' Hg' Hc _ IH]; [constructor|].
    destruct (same_but_temps_back _ _ _ _ Hs Hg') as (g & Hg & S).
    econstructor; [exact Hg | | exact IH]. rewrite S in Hc. exact Hc.
Qed.

Lemma same_but_temps_cyclic (H hp : heap) (a : nat) :
  same_but_temps H hp -> cyclic H a <-> cyclic hp a.
Proof.
  intros Hs. unfold cyclic, strictly_reaches. split.
  - intros (g & c & Hg & Hc & Hr).
    destruct (same_but_temps_lookup _ _ _ _ Hs Hg) as (g' & Hg' & S).
    exists g', c. split; [exact Hg'|]. split; [rewrite S; exact Hc|].
    apply (same_but_temps_reaches H hp); assumption.
  - intros (g' & c & Hg' & Hc & Hr).
    destruct (same_but_temps_back _ _ _ _ Hs Hg') as (g & Hg & S).
    exists g, c. split; [exact Hg|]. split; [rewrite S in Hc; exact Hc|].
    apply (same_but_temps_reaches H hp); assumption.
Qed.

Lemma reaches_trans (hp : heap) (a b c : nat) :
  reaches hp a b -> reaches hp b c -> reaches hp a c.
Proof.
  induction 1 as [a|a x b g Hg Hx _ IH]; [auto|].
  intros Hbc. econstructor; [exact Hg | exact Hx | auto].
Qed.

(** Below a gate that is done, every gate is done. *)
Lemma done_below (H hp : heap) (a b : nat) :
  acyc_state H hp -> reaches H a b -> coloured hp a CT_TEMP -> coloured hp b CT_TEMP.
Proof.
  intros (_ & _ & Hclo & _). induction 1 as [a|a c b g Hg Hc _ IH]; [auto|].
  intros Ha. apply IH. eapply Hclo; eassumption.
Qed.

Lemma filter_length_lt (this : nat) (ws : list nat) :
  this ∈ ws ->
  (length (List.filter (fun a => negb (a =? this)%nat) ws) < length ws)%nat.
Proof.
  induction ws as [|w ws IH]; intros Hin; [apply elem_of_nil in Hin; destruct Hin|].
  cbn [List.filter length]. destruct (Nat.eqb_spec w this) as [->|Hne]; cbn [negb].
  - pose proof (List.filter_length_le (fun a => negb (a =? this)%nat) ws). lia.
  - apply elem_of_cons in Hin. destruct Hin as [->|Hin]; [congruence|].
    cbn [length]. specialize (IH Hin). lia.
Qed.

Lemma mark_temp_run (H hp : heap) (this : nat) (t : Z) :
  same_but_temps H hp -> is_Some (H !! this) ->
  exists g', hp !! this = Some g' /\
             mark_temp this t hp = Ok (<[this := set_temp t g']> hp).
Proof.
  intros Hs [g Hg]. destruct (same_but_temps_lookup _ _ _ _ Hs Hg) as (g' & Hg' & _).
  exists g'. split; [exact Hg'|]. unfold mark_temp, deref. rewrite Hg'. reflexivity.
Qed.

Section AcyclicityLoop.

Context (H : heap) (Hcl : closed H)
        (rec : nat -> heap * list string -> result (Z * (heap * list string)))
        (m : nat).

Hypothesis Hrec : forall hp c cycle ws,
  acyc_state H hp -> is_Some (H !! c) ->
  (forall a, coloured hp a CT_IN_STACK -> strictly_reaches H a c) ->
  (forall a, coloured hp a CT_UNTEMP -> a ∈ ws) -> (length ws < m)%nat ->
  exists r, rec c (hp, cycle) = Ok r /\ acyc_post H hp c cycle r.

Lemma test_acyclicity_children_inv (this : nat) (g : Gate) (hp0 : heap)
    (cycle : list string) (ws : list nat) :
  H !! this = Some g -> same_but_temps H hp0 -> coloured hp0 this CT_UNTEMP ->
  (forall a, coloured hp0 a CT_IN_STACK -> strictly_reaches H a this) ->
  (length ws < m)%nat ->
  forall l done hpk, done ++ l = child_gates g ->
    acyc_state H hpk -> coloured hpk this CT_IN_STACK ->
    (forall a, a <> this -> marks_step H this hp0 hpk a) ->
    (forall c, c ∈ done -> coloured hpk c CT_TEMP) ->
    (forall a, coloured hpk a CT_UNTEMP -> a ∈ ws) ->
    exists r, test_acyclicity_children rec this l (hpk, cycle) = Ok r /\
              acyc_post H hp0 this cycle r.
Proof.
  intros Hg Hs0 Hw0 Hgray0 Hlen.
  induction l as [|c l IH]; intros done hpk Hdone Hst Hthis Hstep Hd Hws.
  - rewrite app_nil_r in Hdone. subst done.
    pose proof Hst as (Hsk & Hno2 & Hclo & Hacy).
    destruct (mark_temp_run H hpk this CT_TEMP Hsk ltac:(eauto)) as (gk & Hgk & Hrun).
    cbn [test_acyclicity_children fst snd]. rewrite Hrun. cbn [rbind].
    eexists. split; [reflexivity|]. cbn [acyc_post].
    assert (Hs' : same_but_temps H (<[this := set_temp CT_TEMP gk]> hpk))
      by (apply same_but_temps_insert; assumption).
    split; [exact Hs'|]. split; [auto|]. split; [|split; intros E; discriminate E].
    intros _. split; [reflexivity|]. split; [|split].
    + split; [exact Hs'|]. split; [|split].
      * intros a t Ha. apply coloured_insert in Ha.
        destruct Ha as [[_ ->]|[_ Ha]]; [auto | eauto].
      * intros a ga c Hga Ha Hc.
        assert (Hck : coloured hpk c CT_TEMP).
        { apply coloured_insert in Ha. destruct Ha as [[-> _]|[_ Ha]].
          - rewrite Hg in Hga. injection Hga as <-. auto.
          - eapply Hclo; eassumption. }
        apply coloured_insert. right. split; [|exact Hck].
        intros ->. pose proof (coloured_fun _ _ _ _ Hck Hthis) as E. discriminate E.
      * intros a Ha. apply coloured_insert in Ha.
        destruct Ha as [[-> _]|[_ Ha]]; [|auto].
        intros (g2 & c & Hg2 & Hc & Hr). rewrite Hg in Hg2. injection Hg2 as <-.
        pose proof (done_below H hpk c this Hst Hr (Hd c Hc)) as Hb.
        pose proof (coloured_fun _ _ _ _ Hb Hthis) as E. discriminate E.
    + apply coloured_insert. left. auto.
    + intros a t t' Ha Ha'. apply coloured_insert in Ha'.
      destruct Ha' as [[-> ->]|[Hne Ha']].
      * right. split; [eapply coloured_fun; eassumption|].
        split; [reflexivity | constructor].
      * eapply Hstep; eassumption.
  - pose proof Hst as (Hsk & Hno2 & Hclo & Hacy).
    assert (Hcin : c ∈ child_gates g)
      by (rewrite <- Hdone; apply elem_of_app; right; apply elem_of_cons; auto).
    assert (Hthis_c : forall b, reaches H c b -> reaches H this b)
      by (intros b Hb; econstructor; eassumption).
    destruct (Hrec hpk c cycle ws Hst (Hcl this g c Hg Hcin)) as (r & Hrun & Hpost);
      [|exact Hws|exact Hlen|].
    { intros a Ha. destruct (decide (a = this)) as [->|Hne].
      - exists g, c. split; [exact Hg|]. split; [exact Hcin | constructor].
      - destruct (same_but_temps_coloured H hp0 a Hs0
                    (coloured_is_Some H hpk a _ Hsk Ha)) as [t Ht].
        destruct (Hstep a Hne t _ Ht Ha) as [E|(_ & E & _)]; [|discriminate E].
        subst t. destruct (Hgray0 a Ht) as (ga & x & Hga & Hx & Hr).
        exists ga, x. split; [exact Hga|]. split; [exact Hx|].
        eapply reaches_trans; [exact Hr|]. apply Hthis_c. constructor. }
    cbn [test_acyclicity_children]. rewrite Hrun. cbn [rbind].
    destruct r as [st [hp1 cyc1]]. cbn [acyc_post] in Hpost.
    destruct Hpost as (Hs1 & Hrange & H0 & H1 & H2).
    destruct Hrange as [-> | [-> | ->]].
    + (* the child is done *)
      destruct (H0 eq_refl) as (-> & Hst1 & Hc3 & Hstep1).
      change (CTR_NO_CYCLE_FOUND =? CTR_CYCLE_FOUND) with false.
      change (CTR_NO_CYCLE_FOUND =? CTR_IN_CYCLE) with false.
      change (CTR_NO_CYCLE_FOUND =? CTR_NO_CYCLE_FOUND) with true.
      cbn [rassert rbind].
      assert (Hkeep : forall a t, t <> CT_UNTEMP -> coloured hpk a t -> coloured hp1 a t).
      { intros a t Hnz Ha.
        destruct (same_but_temps_coloured H hp1 a Hs1
                    (coloured_is_Some H hpk a _ Hsk Ha)) as [t' Ht'].
        destruct (Hstep1 a t t' Ha Ht') as [->|(E & _)]; [exact Ht' | contradiction]. }
      apply (IH (done ++ [c]) hp1).
      * rewrite <- app_assoc. exact Hdone.
      * exact Hst1.
      * apply Hkeep; [discriminate | exact Hthis].
      * intros a Hne t t'' Ha Ha''.
        destruct (same_but_temps_coloured H hpk a Hsk
                    (coloured_is_Some H hp0 a _ Hs0 Ha)) as [t' Ht'].
        destruct (Hstep a Hne t t' Ha Ht') as [->|(-> & -> & Hr)].
        -- destruct (Hstep1 a t t'' Ht' Ha'') as [->|(-> & -> & Hr)]; [auto|].
           right. auto.
        -- right. split; [reflexivity|]. split; [|exact Hr].
           destruct (Hstep1 a _ t'' Ht' Ha'') as [->|(E & _)];
             [reflexivity | discriminate E].
      * intros c' Hc'. apply elem_of_app in Hc'. destruct Hc' as [Hc'|Hc'].
        -- apply Hkeep; [discriminate | auto].
        -- apply list_elem_of_singleton in Hc'. subst c'. exact Hc3.
      * intros a Ha.
        destruct (same_but_temps_coloured H hpk a Hsk
                    (coloured_is_Some H hp1 a _ Hs1 Ha)) as [t Ht].
        destruct (Hstep1 a t _ Ht Ha) as [E|(_ & E & _)]; [|discriminate E].
        subst t. auto.
    + (* the child is on a cycle that is not closed yet *)
      destruct (H1 eq_refl) as (e & He & He' & Hre & Hothers).
      change (CTR_IN_CYCLE =? CTR_CYCLE_FOUND) with false.
      change (CTR_IN_CYCLE =? CTR_IN_CYCLE) with true. cbv iota.
      destruct (same_but_temps_lookup _ _ _ _ Hs1 Hg) as (g1 & Hg1 & _).
      assert (Hd1 : deref hp1 this = Ok g1) by (unfold deref; rewrite Hg1; reflexivity).
      rewrite Hd1. cbn [rbind].
      assert (Hs' : same_but_temps H (<[this := set_temp CT_TEMP g1]> hp1))
        by (apply same_but_temps_insert; assumption).
      destruct (decide (e = this)) as [->|Hne].
      * assert (Et : temp g1 = CT_CYCLE_ENTRY).
        { apply (coloured_fun hp1 this); [exists g1; auto | exact He']. }
        rewrite Et. change (CT_CYCLE_ENTRY =? CT_IN_STACK) with false.
        change (CT_CYCLE_ENTRY =? CT_CYCLE_ENTRY) with true. cbn [rassert rbind].
        eexists. split; [reflexivity|]. cbn [acyc_post].
        split; [exact Hs'|]. split; [auto|].
        split; [intros E; discriminate E|]. split; [intros E; discriminate E|].
        intros _. exists this. split; [constructor|].
        exists g, c. auto.
      * assert (Et : temp g1 = CT_IN_STACK).
        { apply (coloured_fun hp1 this); [exists g1; auto | auto]. }
        rewrite Et. change (CT_IN_STACK =? CT_IN_STACK) with true. cbv iota.
        eexists. split; [reflexivity|]. cbn [acyc_post].
        split; [exact Hs'|]. split; [auto|].
        split; [intros E; discriminate E|]. split; [|intros E; discriminate E].
        intros _. exists e.
        assert (Hback : forall a, a <> this -> coloured hpk a CT_IN_STACK ->
                                  coloured hp0 a CT_IN_STACK).
        { intros a Ha Hk.
          destruct (same_but_temps_coloured H hp0 a Hs0
                      (coloured_is_Some H hpk a _ Hsk Hk)) as [t Ht].
          destruct (Hstep a Ha t _ Ht Hk) as [E|(_ & E & _)]; [|discriminate E].
          subst t. exact Ht. }
        split; [auto|]. split; [apply coloured_insert; auto|]. split; [auto|].
        intros a Hae Ha.
        assert (Hat : a <> this).
        { intros ->. pose proof (coloured_fun _ _ _ _ Ha Hw0) as E. discriminate E. }
        apply coloured_insert. right. split; [exact Hat|]. apply Hothers; [exact Hae|].
        destruct (same_but_temps_coloured H hpk a Hsk
                    (coloured_is_Some H hp0 a _ Hs0 Ha)) as [t' Ht'].
        destruct (Hstep a Hat _ t' Ha Ht') as [->|(E & _)]; [exact Ht' | discriminate E].
    + (* a cycle below the child *)
      destruct (H2 eq_refl) as (a & Hra & Hcyc).
      change (CTR_CYCLE_FOUND =? CTR_CYCLE_FOUND) with true. cbv iota.
      destruct (mark_temp_run H hp1 this CT_TEMP Hs1 ltac:(eauto)) as (g1 & Hg1 & Hm).
      rewrite Hm. cbn [rbind].
      eexists. split; [reflexivity|]. cbn [acyc_post].
      split; [apply same_but_temps_insert; assumption|]. split; [auto|].
      split; [intros E; discriminate E|]. split; [intros E; discriminate E|].
      intros _. exists a. auto.
Qed.

End AcyclicityLoop.

Lemma test_acyclicity_inv (H : heap) :
  closed H ->
  forall (fuel : nat) (hp : heap) (this : nat) (cycle : list string) (ws : list nat),
  acyc_state H hp -> is_Some (H !! this) ->
  (forall a, coloured hp a CT_IN_STACK -> strictly_reaches H a this) ->
  (forall a, coloured hp a CT_UNTEMP -> a ∈ ws) -> (length ws < fuel)%nat ->
  exists r, test_acyclicity fuel this (hp, cycle) = Ok r /\
            acyc_post H hp this cycle r.
Proof.
  intros Hcl. induction fuel as [|fuel IH]; intros hp this cycle ws Hst Hthis Hgray Hws Hlen;
    [lia|].
  pose proof Hst as (Hs & Hno2 & Hclo & Hacy). destruct Hthis as [g Hg].
  destruct (same_but_temps_lookup _ _ _ _ Hs Hg) as (g' & Hg' & Sg).
  assert (Hd : deref hp this = Ok g') by (unfold deref; rewrite Hg'; reflexivity).
  assert (Hcol : coloured hp this (temp g')) by (exists g'; auto).
  cbn [test_acyclicity fst snd]. rewrite Hd. cbn [rbind].
  destruct (Hno2 _ _ Hcol) as [Et|[Et|Et]]; rewrite Et in *.
  - (* not visited yet *)
    change ((0 <=? CT_UNTEMP) && (CT_UNTEMP <=? 3)) with true.
    change (CT_UNTEMP =? CT_TEMP) with false.
    change (CT_UNTEMP =? CT_IN_STACK) with false. cbn [rassert rbind].
    replace (child_gates g') with (child_gates g) by (rewrite Sg; reflexivity).
    apply (test_acyclicity_children_inv H Hcl (test_acyclicity fuel) fuel
             (fun hp c cycle ws => IH hp c cycle ws)
             this g hp cycle (List.filter (fun a => negb (a =? this)%nat) ws)
             Hg Hs Hcol Hgray) with (done := []).
    + pose proof (filter_length_lt this ws (Hws this Hcol)). lia.
    + reflexivity.
    + split; [apply same_but_temps_insert; assumption|]. split; [|split].
      * intros a t Ha. apply coloured_insert in Ha.
        destruct Ha as [[_ ->]|[_ Ha]]; [auto | eauto].
      * intros a ga c Hga Ha Hc. apply coloured_insert in Ha.
        destruct Ha as [[_ E]|[Hne Ha]]; [discriminate E|].
        pose proof (Hclo a ga c Hga Ha Hc) as Hck.
        apply coloured_insert. right. split; [|exact Hck].
        intros ->. pose proof (coloured_fun _ _ _ _ Hck Hcol) as E. discriminate E.
      * intros a Ha. apply coloured_insert in Ha.
        destruct Ha as [[_ E]|[_ Ha]]; [discriminate E | auto].
    + apply coloured_insert. left. auto.
    + intros a Hne t t' Ha Ha'. apply coloured_insert in Ha'.
      destruct Ha' as [[E _]|[_ Ha']]; [contradiction|].
      left. eapply coloured_fun; eassumption.
    + intros c Hc. apply elem_of_nil in Hc. destruct Hc.
    + intros a Ha. apply coloured_insert in Ha.
      destruct Ha as [[_ E]|[Hne Ha]]; [discriminate E|].
      apply list_elem_of_In, List.filter_In. split; [apply list_elem_of_In; auto|].
      apply negb_true_iff, Nat.eqb_neq. exact Hne.
  - (* a call for the gate is under way *)
    change ((0 <=? CT_IN_STACK) && (CT_IN_STACK <=? 3)) with true.
    change (CT_IN_STACK =? CT_TEMP) with false.
    change (CT_IN_STACK =? CT_IN_STACK) with true. cbn [rassert rbind].
    eexists. split; [reflexivity|]. cbn [acyc_post].
    split; [apply same_but_temps_insert; assumption|]. split; [auto|].
    split; [intros E; discriminate E|]. split; [|intros E; discriminate E].
    intros _. exists this. split; [exact Hcol|].
    split; [apply coloured_insert; auto|]. split; [constructor|].
    intros a Hne Ha. apply coloured_insert. auto.
  - (* done *)
    change ((0 <=? CT_TEMP) && (CT_TEMP <=? 3)) with true.
    change (CT_TEMP =? CT_TEMP) with true. cbn [rassert rbind].
    eexists. split; [reflexivity|]. cbn [acyc_post].
    split; [exact Hs|]. split; [auto|].
    split; [|split; intros E; discriminate E].
    intros _. split; [reflexivity|]. split; [exact Hst|]. split; [exact Hcol|].
    intros a t t' Ha Ha'. left. eapply coloured_fun; eassumption.
Qed.

(** X14: [test_acyclicity], called where no call is under way (every gate
    unmarked or done, the gates that are done closed under children and on
    no cycle), returns for every circuit, cyclic or not, with fuel for the
    number of gates; it returns [CTR_NO_CYCLE_FOUND] exactly if no gate at
    or below the gate is on a cycle, and [CTR_CYCLE_FOUND] otherwise.  When
    no cycle is found the list [cycle] is as it was, the gates that are
    done are those that were and the gates at or below the gate, and the
    next call can start from there.  Only [temp] fields change. *)
Theorem test_acyclicity_decides (fuel : nat) (hp : heap) (this : nat)
    (cycle : list string) :
  closed hp -> marks_ok hp -> is_Some (hp !! this) -> (size hp < fuel)%nat ->
  exists st hp' cycle',
    test_acyclicity fuel this (hp, cycle) = Ok (st, (hp', cycle')) /\
    same_but_temps hp hp' /\
    (st = CTR_NO_CYCLE_FOUND \/ st = CTR_CYCLE_FOUND) /\
    (st = CTR_NO_CYCLE_FOUND <-> forall a, reaches hp this a -> ~ cyclic hp a) /\
    (st = CTR_NO_CYCLE_FOUND ->
       cycle' = cycle /\ marks_ok hp' /\
       forall a, coloured hp' a CT_TEMP <->
                 coloured hp a CT_TEMP \/ reaches hp this a).
Proof.
  intros Hcl (Hmarks & Hclo & Hacy) Hthis Hfuel.
  assert (Hst : acyc_state hp hp).
  { split; [apply same_but_temps_refl|]. split; [|split; [|exact Hacy]].
    - intros a t Ha. destruct (Hmarks a t Ha); auto.
    - intros a g c Hg (g2 & Hg2 & Ht) Hc. rewrite Hg in Hg2. injection Hg2 as <-.
      eapply Hclo; eassumption. }
  assert (Hnogray : forall a, ~ coloured hp a CT_IN_STACK).
  { intros a Ha. destruct (Hmarks a _ Ha) as [E|E]; discriminate E. }
  destruct (test_acyclicity_inv hp Hcl fuel hp this cycle (map fst (map_to_list hp))
              Hst Hthis) as ([st [hp' cycle']] & Hrun & Hpost).
  { intros a Ha. destruct (Hnogray a Ha). }
  { intros a (g & Hg & _). apply list_elem_of_fmap. exists (a, g).
    split; [reflexivity|]. apply elem_of_map_to_list. exact Hg. }
  { rewrite length_map, length_map_to_list. exact Hfuel. }
  cbn [acyc_post] in Hpost. destruct Hpost as (Hs & Hrange & H0 & H1 & H2).
  exists st, hp', cycle'. split; [exact Hrun|]. split; [exact Hs|].
  assert (Hst01 : st = CTR_NO_CYCLE_FOUND \/ st = CTR_CYCLE_FOUND).
  { destruct Hrange as [E|[E|E]]; auto.
    destruct (H1 E) as (e & He & _). destruct (Hnogray e He). }
  split; [exact Hst01|].
  assert (Hdone : st = CTR_NO_CYCLE_FOUND ->
                  forall a, reaches hp this a -> coloured hp' a CT_TEMP).
  { intros E a Ha. destruct (H0 E) as (_ & Hst' & Hc3 & _).
    eapply done_below; eassumption. }
  split; [split|].
  - intros E a Ha. destruct (H0 E) as (_ & (_ & _ & _ & Hacy') & _). auto.
  - intros Hno. destruct Hst01 as [E|E]; [exact E|].
    destruct (H2 E) as (a & Ha & Hc). destruct (Hno a Ha Hc).
  - intros E. destruct (H0 E) as (Hcyc & Hst' & Hc3 & Hstep).
    pose proof Hst' as (_ & Hno2' & Hclo' & Hacy').
    split; [exact Hcyc|]. split; [split; [|split]|].
    + intros a t' Ha'.
      destruct (same_but_temps_coloured hp hp a (same_but_temps_refl hp)
                  (coloured_is_Some hp hp' a _ Hs Ha')) as [t Ht].
      destruct (Hstep a t t' Ht Ha') as [->|(_ & -> & _)]; [eauto | auto].
    + intros a g' c Hg' Ht Hc.
      destruct (same_but_temps_back _ _ _ _ Hs Hg') as (g & Hg & Sg).
      apply (Hclo' a g c Hg); [exists g'; auto|]. rewrite Sg in Hc. exact Hc.
    + intros a Ha Hc. apply (Hacy' a Ha).
      apply (same_but_temps_cyclic hp hp'); assumption.
    + intros a. split.
      * intros Ha'.
        destruct (same_but_temps_coloured hp hp a (same_but_temps_refl hp)
                    (coloured_is_Some hp hp' a _ Hs Ha')) as [t Ht].
        destruct (Hstep a t _ Ht Ha') as [->|(_ & _ & Hr)]; auto.
      * intros [Ha|Ha]; [|auto].
        destruct (same_but_temps_coloured hp hp' a Hs
                    (coloured_is_Some hp hp a _ (same_but_temps_refl hp) Ha)) as [t' Ht'].
        destruct (Hstep a _ t' Ha Ht') as [->|(E' & _)]; [exact Ht' | discriminate E'].
Qed.

(** The theorem at [o := OR(x, y)] of the circuit [ex_free_heap], no gate
    of which is marked. *)
Lemma test_acyclicity_decides_witness :
  exists st hp' cycle',
    test_acyclicity 5 2 (ex_free_heap 0, []) = Ok (st, (hp', cycle')) /\
    same_but_temps (ex_free_heap 0) hp' /\
    (st = CTR_NO_CYCLE_FOUND \/ st = CTR_CYCLE_FOUND) /\
    (st = CTR_NO_CYCLE_FOUND <->
     forall a, reaches (ex_free_heap 0) 2 a -> ~ cyclic (ex_free_heap 0) a) /\
    (st = CTR_NO_CYCLE_FOUND ->
       cycle' = [] /\ marks_ok hp' /\
       forall a, coloured hp' a CT_TEMP <->
                 coloured (ex_free_heap 0) a CT_TEMP \/ reaches (ex_free_heap 0) 2 a).
Proof.
  destruct (ex_free_shape 0) as (Hr & Hcl & Ht).
  apply (test_acyclicity_decides 5 (ex_free_heap 0) 2 [] Hcl).
  - split; [|split].
    + intros a t (g & Hg & <-). left. exact (Ht a g Hg).
    + intros a g c Hg E. rewrite (Ht a g Hg) in E. discriminate E.
    + intros a (g & Hg & E). rewrite (Ht a g Hg) in E. discriminate E.
  - vm_compute. eauto.
  - vm_compute. lia.
Defined.

(** ** Heights: [Gate::compute_min_height], [Gate::compute_max_height] *)

Lemma path_rank (rank : nat -> nat) (hp : heap) (a b : nat) (n : nat) :
  ranked rank hp -> path hp a b n -> (n + rank b <= rank a)%nat.
Proof.
  intros Hr. induction 1 as [a|a c b g n Hg Hc _ IH]; [lia|].
  pose proof (Hr a g c Hg Hc). lia.
Qed.

Lemma min_height_rank (rank : nat -> nat) (hp : heap) (a : nat) (h : nat) :
  ranked rank hp -> min_height_is hp a h -> (h <= rank a)%nat.
Proof.
  intros Hr [(b & _ & Hp) _]. pose proof (path_rank rank hp a b h Hr Hp). lia.
Qed.

Lemma max_height_rank (rank : nat -> nat) (hp : heap) (a : nat) (h : nat) :
  ranked rank hp -> max_height_is hp a h -> (h <= rank a)%nat.
Proof.
  intros Hr [(b & _ & Hp) _]. pose proof (path_rank rank hp a b h Hr Hp). lia.
Qed.

Lemma heights_kept_insert (height_is : heap -> nat -> nat -> Prop) (H hp : heap)
    (a : nat) (g' : Gate) (h : nat) :
  heights_kept height_is H hp -> hp !! a = Some g' -> height_is H a h ->
  heights_kept height_is H (<[a := set_temp (Z.of_nat h) g']> hp).
Proof.
  intros [Hs Hk] Hg' Hh. split; [apply same_but_temps_insert; assumption|].
  intros b gb Hb. destruct (decide (b = a)) as [->|Hne].
  - rewrite lookup_insert_eq in Hb. injection Hb as <-. right. exists h. auto.
  - rewrite lookup_insert_ne in Hb by auto. eauto.
Qed.

Lemma small_height (n : nat) :
  Z.of_nat n < 2 ^ 31 ->
  u32 (Z.of_nat n) = Z.of_nat n /\ to_int (Z.of_nat n) = Z.of_nat n /\
  Z.of_nat n <> UINT_MAX.
Proof.
  intros Hn. unfold u32, to_int, UINT_MAX.
  rewrite Z.mod_small by lia.
  destruct (Z.ltb_spec (Z.of_nat n) (2 ^ 31)); lia.
Qed.

Lemma compute_min_height_inv (rank : nat -> nat) (H : heap) :
  ranked rank H -> closed H ->
  forall (fuel : nat) (hp : heap) (this : nat),
  heights_kept min_height_is H hp -> is_Some (H !! this) ->
  (rank this < fuel)%nat -> Z.of_nat (rank this) < 2 ^ 31 ->
  exists h hp', compute_min_height fuel hp this = Ok (Z.of_nat h, hp') /\
    min_height_is H this h /\ heights_kept min_height_is H hp' /\
    coloured hp' this (Z.of_nat h) /\
    (forall a, ~ reaches H this a -> hp' !! a = hp !! a).
Proof.
  intros Hr Hcl. induction fuel as [|fuel IH]; intros hp this Hk [g Hg] Hf Hsmall; [lia|].
  pose proof Hk as [Hs Hmemo].
  destruct (same_but_temps_lookup _ _ _ _ Hs Hg) as (g' & Hg' & Sg).
  assert (Hd : deref hp this = Ok g') by (unfold deref; rewrite Hg'; reflexivity).
  cbn [compute_min_height]. rewrite Hd. cbn [rbind].
  destruct (Hmemo this g' Hg') as [Et|(h & Et & Hh)]; rewrite Et.
  2:{ (* the height is there *)
    replace (0 <=? Z.of_nat h) with true by (symmetry; apply Z.leb_le; lia).
    pose proof (min_height_rank rank H this h Hr Hh).
    destruct (small_height h ltac:(lia)) as (-> & _ & _).
    exists h, hp. split; [reflexivity|]. split; [exact Hh|]. split; [exact Hk|].
    split; [exists g'; auto | auto]. }
  change (0 <=? -1) with false. cbv iota.
  replace (children g') with (children g) by (rewrite Sg; reflexivity).
  replace (child_gates g') with (child_gates g) by (rewrite Sg; reflexivity).
  destruct (children g) as [|p ps] eqn:Ech.
  { exists 0%nat, (<[this := set_temp 0 g']> hp). split; [reflexivity|].
    assert (H0 : min_height_is H this 0).
    { split; [|intros; lia]. exists this. split; [exists g; auto | constructor]. }
    split; [exact H0|].
    split; [apply (heights_kept_insert min_height_is H hp this g' 0); assumption|].
    split; [apply coloured_insert; auto|].
    intros a Ha. apply lookup_insert_ne. intros ->. apply Ha. constructor. }
  set (step := fun (s : Z * heap) (child : nat) =>
                 do r <- compute_min_height fuel (snd s) child;
                 Ok (if fst r <? fst s then fst r else fst s, snd r)).
  assert (Hloop : forall l done mh hpk,
    done ++ l = child_gates g ->
    heights_kept min_height_is H hpk ->
    (forall a, ~ reaches H this a \/ a = this -> hpk !! a = hp !! a) ->
    ((done = [] /\ mh = UINT_MAX) \/
     exists m : nat, mh = Z.of_nat m /\ (exists c, c ∈ done /\ min_height_is H c m) /\
       forall c, c ∈ done -> exists hc, min_height_is H c hc /\ (m <= hc)%nat) ->
    exists (m : nat) hp',
      foldM step l (mh, hpk) = Ok (if decide (done ++ l = []) then UINT_MAX
                                   else Z.of_nat m, hp') /\
      heights_kept min_height_is H hp' /\
      (forall a, ~ reaches H this a \/ a = this -> hp' !! a = hp !! a) /\
      (done ++ l <> [] ->
       (exists c, c ∈ done ++ l /\ min_height_is H c m) /\
       forall c, c ∈ done ++ l -> exists hc, min_height_is H c hc /\ (m <= hc)%nat)).
  { induction l as [|c l IHl]; intros done mh hpk Hdone Hkk Hframe Hmin.
    - rewrite app_nil_r. cbn [foldM].
      destruct Hmin as [[-> ->]|(m & -> & Hex & Hall)].
      + exists 0%nat, hpk. rewrite decide_True by reflexivity.
        split; [reflexivity|]. split; [exact Hkk|]. split; [exact Hframe|].
        intros Hne. destruct (Hne eq_refl).
      + exists m, hpk. destruct Hex as (c & Hc & Hcm).
        rewrite decide_False by (intros ->; apply elem_of_nil in Hc; exact Hc).
        split; [reflexivity|]. split; [exact Hkk|]. split; [exact Hframe|].
        intros _. split; [exists c; auto | exact Hall].
    - assert (Hcin : c ∈ child_gates g)
        by (rewrite <- Hdone; apply elem_of_app; right; apply elem_of_cons; auto).
      pose proof (Hr this g c Hg Hcin) as Hrank.
      destruct (IH hpk c Hkk (Hcl this g c Hg Hcin) ltac:(lia) ltac:(lia))
        as (h & hp1 & Hrun & Hh & Hk1 & _ & Hfr1).
      pose proof (min_height_rank rank H c h Hr Hh) as Hhr.
      cbn [foldM]. unfold step at 1. cbn [fst snd]. rewrite Hrun. cbn [rbind fst snd].
      replace (done ++ c :: l) with ((done ++ [c]) ++ l) by (rewrite <- app_assoc; reflexivity).
      apply IHl.
      + rewrite <- app_assoc. exact Hdone.
      + exact Hk1.
      + intros a Ha. rewrite <- (Hframe a Ha). apply Hfr1. intros Hca.
        destruct Ha as [Ha| ->].
        * apply Ha. econstructor; eassumption.
        * pose proof (reaches_rank rank H c this Hr Hca). lia.
      + right. destruct Hmin as [[-> ->]|(m & -> & (c0 & Hc0 & Hm0) & Hall)].
        * exists h. replace (Z.of_nat h <? UINT_MAX) with true
            by (symmetry; apply Z.ltb_lt; unfold UINT_MAX; lia).
          split; [reflexivity|]. split.
          -- exists c. split; [apply list_elem_of_singleton; reflexivity | exact Hh].
          -- intros c' Hc'. apply list_elem_of_singleton in Hc'. subst c'.
             exists h. auto.
        * destruct (Z.ltb_spec (Z.of_nat h) (Z.of_nat m)) as [Hlt|Hge].
          -- exists h. split; [reflexivity|]. split.
             ++ exists c. split; [apply elem_of_app; right;
                                  apply list_elem_of_singleton; reflexivity | exact Hh].
             ++ intros c' Hc'. apply elem_of_app in Hc'. destruct Hc' as [Hc'|Hc'].
                ** destruct (Hall c' Hc') as (hc & Hhc & Hle). exists hc.
                   split; [exact Hhc | lia].
                ** apply list_elem_of_singleton in Hc'. subst c'. exists h. auto.
          -- exists m. split; [reflexivity|]. split.
             ++ exists c0. split; [apply elem_of_app; auto | exact Hm0].
             ++ intros c' Hc'. apply elem_of_app in Hc'. destruct Hc' as [Hc'|Hc'].
                ** auto.
                ** apply list_elem_of_singleton in Hc'. subst c'. exists h.
                   split; [exact Hh | lia]. }
  destruct (Hloop (child_gates g) [] UINT_MAX hp eq_refl Hk ltac:(auto) ltac:(auto))
    as (m & hp2 & Hrun & Hk2 & Hfr2 & Hres).
  assert (Hne : [] ++ child_gates g <> [])
    by (unfold child_gates; rewrite Ech; discriminate).
  rewrite decide_False in Hrun by exact Hne.
  destruct (Hres Hne) as ((c & Hc & Hcm) & Hall). cbn [app] in Hc, Hall.
  pose proof (Hr this g c Hg Hc) as Hrank.
  pose proof (min_height_rank rank H c m Hr Hcm) as Hmr.
  fold step. rewrite Hrun. cbn [rbind fst snd].
  destruct (small_height m ltac:(lia)) as (_ & _ & Hnm).
  replace (Z.of_nat m =? UINT_MAX) with false by (symmetry; apply Z.eqb_neq; exact Hnm).
  cbn [negb rassert rbind].
  replace (Z.of_nat m + 1) with (Z.of_nat (S m)) by lia.
  destruct (small_height (S m) ltac:(lia)) as (E1 & E2 & _).
  rewrite E1, E2, E1.
  assert (Hg2 : hp2 !! this = Some g') by (rewrite Hfr2 by auto; exact Hg').
  assert (Hm : mark_temp this (Z.of_nat (S m)) hp2 =
               Ok (<[this := set_temp (Z.of_nat (S m)) g']> hp2))
    by (unfold mark_temp, deref; rewrite Hg2; reflexivity).
  rewrite Hm. cbn [rbind].
  assert (Hh : min_height_is H this (S m)).
  { split.
    - destruct Hcm as [(b & Hb & Hp) _]. exists b. split; [exact Hb|].
      econstructor; eassumption.
    - intros b n (gb & Hgb & Hlb) Hp. inversion Hp as [|a c' b' g0 n' Hg0 Hc' Hp']; subst.
      + rewrite Hg in Hgb. injection Hgb as <-. rewrite Ech in Hlb. discriminate Hlb.
      + rewrite Hg in Hg0. injection Hg0 as <-.
        destruct (Hall c' Hc') as (hc & [_ Hmin] & Hle).
        pose proof (Hmin b n' ltac:(exists gb; auto) Hp'). lia. }
  exists (S m). eexists. split; [reflexivity|]. split; [exact Hh|].
  split; [apply (heights_kept_insert min_height_is H hp2 this g' (S m)); assumption|].
  split; [apply coloured_insert; auto|].
  intros a Ha. rewrite lookup_insert_ne by (intros ->; apply Ha; constructor).
  apply Hfr2. auto.
Qed.

Lemma compute_max_height_inv (rank : nat -> nat) (H : heap) :
  ranked rank H -> closed H ->
  forall (fuel : nat) (hp : heap) (this : nat),
  heights_kept max_height_is H hp -> is_Some (H !! this) ->
  (rank this < fuel)%nat -> Z.of_nat (rank this) < 2 ^ 31 ->
  exists h hp', compute_max_height fuel hp this = Ok (Z.of_nat h, hp') /\
    max_height_is H this h /\ heights_kept max_height_is H hp' /\
    coloured hp' this (Z.of_nat h) /\
    (forall a, ~ reaches H this a -> hp' !! a = hp !! a).
Proof.
  intros Hr Hcl. induction fuel as [|fuel IH]; intros hp this Hk [g Hg] Hf Hsmall; [lia|].
  pose proof Hk as [Hs Hmemo].
  destruct (same_but_temps_lookup _ _ _ _ Hs Hg) as (g' & Hg' & Sg).
  assert (Hd : deref hp this = Ok g') by (unfold deref; rewrite Hg'; reflexivity).
  cbn [compute_max_height]. rewrite Hd. cbn [rbind].
  destruct (Hmemo this g' Hg') as [Et|(h & Et & Hh)]; rewrite Et.
  2:{ (* the height is there *)
    replace (0 <=? Z.of_nat h) with true by (symmetry; apply Z.leb_le; lia).
    pose proof (max_height_rank rank H this h Hr Hh).
    destruct (small_height h ltac:(lia)) as (-> & _ & _).
    exists h, hp. split; [reflexivity|]. split; [exact Hh|]. split; [exact Hk|].
    split; [exists g'; auto | auto]. }
  change (0 <=? -1) with false. cbv iota.
  replace (children g') with (children g) by (rewrite Sg; reflexivity).
  replace (child_gates g') with (child_gates g) by (rewrite Sg; reflexivity).
  destruct (children g) as [|p ps] eqn:Ech.
  { exists 0%nat, (<[this := set_temp 0 g']> hp). split; [reflexivity|].
    assert (H0 : max_height_is H this 0).
    { split; [exists this; split; [exists g; auto | constructor]|].
      intros b n Hp. inversion Hp as [|a c' b' g0 n' Hg0 Hc' Hp']; subst; [lia|].
      rewrite Hg in Hg0. injection Hg0 as <-. unfold child_gates in Hc'.
      rewrite Ech in Hc'. apply elem_of_nil in Hc'. destruct Hc'. }
    split; [exact H0|].
    split; [apply (heights_kept_insert max_height_is H hp this g' 0); assumption|].
    split; [apply coloured_insert; auto|].
    intros a Ha. apply lookup_insert_ne. intros ->. apply Ha. constructor. }
  set (step := fun (s : Z * heap) (child : nat) =>
                 do r <- compute_max_height fuel (snd s) child;
                 Ok (if fst s <? fst r then fst r else fst s, snd r)).
  assert (Hloop : forall l done (m0 : nat) hpk,
    done ++ l = child_gates g ->
    heights_kept max_height_is H hpk ->
    (forall a, ~ reaches H this a \/ a = this -> hpk !! a = hp !! a) ->
    (done = [] -> m0 = 0%nat) ->
    (done <> [] ->
     (exists c, c ∈ done /\ max_height_is H c m0) /\
     forall c, c ∈ done -> exists hc, max_height_is H c hc /\ (hc <= m0)%nat) ->
    exists (m : nat) hp',
      foldM step l (Z.of_nat m0, hpk) = Ok (Z.of_nat m, hp') /\
      heights_kept max_height_is H hp' /\
      (forall a, ~ reaches H this a \/ a = this -> hp' !! a = hp !! a) /\
      (done ++ l <> [] ->
       (exists c, c ∈ done ++ l /\ max_height_is H c m) /\
       forall c, c ∈ done ++ l -> exists hc, max_height_is H c hc /\ (hc <= m)%nat)).
  { induction l as [|c l IHl]; intros done m0 hpk Hdone Hkk Hframe Hnil Hmax.
    - rewrite app_nil_r. cbn [foldM]. exists m0, hpk. auto.
    - assert (Hcin : c ∈ child_gates g)
        by (rewrite <- Hdone; apply elem_of_app; right; apply elem_of_cons; auto).
      pose proof (Hr this g c Hg Hcin) as Hrank.
      destruct (IH hpk c Hkk (Hcl this g c Hg Hcin) ltac:(lia) ltac:(lia))
        as (h & hp1 & Hrun & Hh & Hk1 & _ & Hfr1).
      cbn [foldM]. unfold step at 1. cbn [fst snd]. rewrite Hrun. cbn [rbind fst snd].
      replace (done ++ c :: l) with ((done ++ [c]) ++ l) by (rewrite <- app_assoc; reflexivity).
      replace (if Z.of_nat m0 <? Z.of_nat h then Z.of_nat h else Z.of_nat m0)
        with (Z.of_nat (Nat.max m0 h))
        by (destruct (Z.ltb_spec (Z.of_nat m0) (Z.of_nat h)); lia).
      apply IHl.
      + rewrite <- app_assoc. exact Hdone.
      + exact Hk1.
      + intros a Ha. rewrite <- (Hframe a Ha). apply Hfr1. intros Hca.
        destruct Ha as [Ha| ->].
        * apply Ha. econstructor; eassumption.
        * pose proof (reaches_rank rank H c this Hr Hca). lia.
      + intros E. apply app_eq_nil in E. destruct E as [_ E]. discriminate E.
      + intros _. destruct done as [|d done'].
        * rewrite (Hnil eq_refl). cbn [app Nat.max]. split.
          -- exists c. split; [apply list_elem_of_singleton; reflexivity | exact Hh].
          -- intros c' Hc'. apply list_elem_of_singleton in Hc'. subst c'.
             exists h. auto.
        * destruct (Hmax ltac:(discriminate)) as ((c0 & Hc0 & Hm0) & Hall).
          split.
          -- destruct (Nat.max_spec m0 h) as [[Hlt ->]|[Hge ->]].
             ++ exists c. split; [apply elem_of_app; right;
                                  apply list_elem_of_singleton; reflexivity | exact Hh].
             ++ exists c0. split; [apply elem_of_app; auto | exact Hm0].
          -- intros c' Hc'. apply elem_of_app in Hc'. destruct Hc' as [Hc'|Hc'].
             ++ destruct (Hall c' Hc') as (hc & Hhc & Hle). exists hc.
                split; [exact Hhc | lia].
             ++ apply list_elem_of_singleton in Hc'. subst c'. exists h.
                split; [exact Hh | lia]. }
  destruct (Hloop (child_gates g) [] 0%nat hp eq_refl Hk ltac:(auto) ltac:(auto)
              ltac:(intros E; destruct (E eq_refl)))
    as (m & hp2 & Hrun & Hk2 & Hfr2 & Hres).
  assert (Hne : [] ++ child_gates g <> [])
    by (unfold child_gates; rewrite Ech; discriminate).
  destruct (Hres Hne) as ((c & Hc & Hcm) & Hall). cbn [app] in Hc, Hall.
  pose proof (Hr this g c Hg Hc) as Hrank.
  pose proof (max_height_rank rank H c m Hr Hcm) as Hmr.
  fold step. change 0 with (Z.of_nat 0). rewrite Hrun. cbn [rbind fst snd].
  replace (Z.of_nat m + 1) with (Z.of_nat (S m)) by lia.
  destruct (small_height (S m) ltac:(lia)) as (E1 & E2 & _).
  rewrite E1, E2, E1.
  assert (Hg2 : hp2 !! this = Some g') by (rewrite Hfr2 by auto; exact Hg').
  assert (Hm : mark_temp this (Z.of_nat (S m)) hp2 =
               Ok (<[this := set_temp (Z.of_nat (S m)) g']> hp2))
    by (unfold mark_temp, deref; rewrite Hg2; reflexivity).
  rewrite Hm. cbn [rbind].
  assert (Hh : max_height_is H this (S m)).
  { split.
    - destruct Hcm as [(b & Hb & Hp) _]. exists b. split; [exact Hb|].
      econstructor; eassumption.
    - intros b n Hp. inversion Hp as [|a c' b' g0 n' Hg0 Hc' Hp']; subst; [lia|].
      rewrite Hg in Hg0. injection Hg0 as <-.
      destruct (Hall c' Hc') as (hc & [_ Hmax] & Hle).
      pose proof (Hmax b n' Hp'). lia. }
  exists (S m). eexists. split; [reflexivity|]. split; [exact Hh|].
  split; [apply (heights_kept_insert max_height_is H hp2 this g' (S m)); assumption|].
  split; [apply coloured_insert; auto|].
  intros a Ha. rewrite lookup_insert_ne by (intros ->; apply Ha; constructor).
  apply Hfr2. auto.
Qed.

Lemma same_but_temps_path (H hp : heap) (a b : nat) (n : nat) :
  same_but_temps H hp -> path H a b n <-> path hp a b n.
Proof.
  intros Hs. split.
  - induction 1 as [a|a c b g n Hg Hc _ IH]; [constructor|].
    destruct (same_but_temps_lookup _ _ _ _ Hs Hg) as (g' & Hg' & S).
    econstructor; [exact Hg' | | exact IH]. rewrite S. exact Hc.
  - induction 1 as [a|a c b g' n Hg' Hc _ IH]; [constructor|].
    destruct (same_but_temps_back _ _ _ _ Hs Hg') as (g & Hg & S).
    econstructor; [exact Hg | | exact IH]. rewrite S in Hc. exact Hc.
Qed.

Lemma same_but_temps_leaf (H hp : heap) (b : nat) :
  same_but_temps H hp -> leaf H b <-> leaf hp b.
Proof.
  intros Hs. split.
  - intros (g & Hg & Hl).
    destruct (same_but_temps_lookup _ _ _ _ Hs Hg) as (g' & Hg' & S).
    exists g'. split; [exact Hg'|]. rewrite S. exact Hl.
  - intros (g' & Hg' & Hl).
    destruct (same_but_temps_back _ _ _ _ Hs Hg') as (g & Hg & S).
    exists g. split; [exact Hg|]. rewrite S in Hl. exact Hl.
Qed.

Lemma same_but_temps_min_height (H hp : heap) (a : nat) (h : nat) :
  same_but_temps H hp -> min_height_is H a h -> min_height_is hp a h.
Proof.
  intros Hs [(b & Hb & Hp) Hmin]. split.
  - exists b. split; [apply (same_but_temps_leaf H hp); assumption|].
    apply (same_but_temps_path H hp); assumption.
  - intros b' n Hb' Hp'. apply (Hmin b' n).
    + apply (same_but_temps_leaf H hp); assumption.
    + apply (same_but_temps_path H hp); assumption.
Qed.

Lemma same_but_temps_max_height (H hp : heap) (a : nat) (h : nat) :
  same_but_temps H hp -> max_height_is H a h -> max_height_is hp a h.
Proof.
  intros Hs [(b & Hb & Hp) Hmax]. split.
  - exists b. split; [apply (same_but_temps_leaf H hp); assumption|].
    apply (same_but_temps_path H hp); assumption.
  - intros b' n Hp'. apply (Hmax b' n).
    apply (same_but_temps_path H hp); assumption.
Qed.

(** X15: on an acyclic circuit whose [temp] fields hold -1 or the gate's
    minimum height, [compute_min_height] returns the length of the shortest
    chain of child links from the gate to a gate without children; the
    [temp] fields then still hold -1 or the minimum height, the one of the
    gate its height, and only [temp] fields of gates at or below the gate
    have changed. *)
Theorem compute_min_height_shortest (rank : nat -> nat) (fuel : nat) (hp : heap)
    (this : nat) :
  ranked rank hp -> closed hp -> heights_in min_height_is hp ->
  is_Some (hp !! this) -> (rank this < fuel)%nat -> Z.of_nat (rank this) < 2 ^ 31 ->
  exists (h : nat) hp',
    compute_min_height fuel hp this = Ok (Z.of_nat h, hp') /\
    min_height_is hp this h /\
    same_but_temps hp hp' /\ heights_in min_height_is hp' /\
    coloured hp' this (Z.of_nat h) /\
    (forall a, ~ reaches hp this a -> hp' !! a = hp !! a).
Proof.
  intros Hr Hcl Hin Hthis Hf Hsmall.
  destruct (compute_min_height_inv rank hp Hr Hcl fuel hp this
              (conj (same_but_temps_refl hp) Hin) Hthis Hf Hsmall)
    as (h & hp' & Hrun & Hh & [Hs Hk] & Hc & Hfr).
  exists h, hp'. split; [exact Hrun|]. split; [exact Hh|]. split; [exact Hs|].
  split; [|auto].
  intros a g Hg. destruct (Hk a g Hg) as [E|(h' & E & Hh')]; [auto|].
  right. exists h'. split; [exact E|].
  apply (same_but_temps_min_height hp hp'); assumption.
Qed.

(** The theorem at [o := OR(x, y)] of the circuit [ex_free_heap], with no
    height computed yet. *)
Lemma compute_min_height_shortest_witness :
  exists (h : nat) hp',
    compute_min_height 3 (ex_free_heap (-1)) 2 = Ok (Z.of_nat h, hp') /\
    min_height_is (ex_free_heap (-1)) 2 h /\
    same_but_temps (ex_free_heap (-1)) hp' /\ heights_in min_height_is hp' /\
    coloured hp' 2 (Z.of_nat h) /\
    (forall a, ~ reaches (ex_free_heap (-1)) 2 a -> hp' !! a = ex_free_heap (-1) !! a).
Proof.
  destruct (ex_free_shape (-1)) as (Hr & Hcl & Ht).
  apply (compute_min_height_shortest (fun a => a) 3 (ex_free_heap (-1)) 2 Hr Hcl).
  - intros a g Hg. left. exact (Ht a g Hg).
  - vm_compute. eauto.
  - lia.
  - lia.
Defined.

(** X16: on an acyclic circuit whose [temp] fields hold -1 or the gate's
    maximum height, [compute_max_height] returns the length of the longest
    chain of child links from the gate; the [temp] fields then still hold
    -1 or the maximum height, the one of the gate its height, and only
    [temp] fields of gates at or below the gate have changed. *)
Theorem compute_max_height_longest (rank : nat -> nat) (fuel : nat) (hp : heap)
    (this : nat) :
  ranked rank hp -> closed hp -> heights_in max_height_is hp ->
  is_Some (hp !! this) -> (rank this < fuel)%nat -> Z.of_nat (rank this) < 2 ^ 31 ->
  exists (h : nat) hp',
    compute_max_height fuel hp this = Ok (Z.of_nat h, hp') /\
    max_height_is hp this h /\
    same_but_temps hp hp' /\ heights_in max_height_is hp' /\
    coloured hp' this (Z.of_nat h) /\
    (forall a, ~ reaches hp this a -> hp' !! a = hp !! a).
Proof.
  intros Hr Hcl Hin Hthis Hf Hsmall.
  destruct (compute_max_height_inv rank hp Hr Hcl fuel hp this
              (conj (same_but_temps_refl hp) Hin) Hthis Hf Hsmall)
    as (h & hp' & Hrun & Hh & [Hs Hk] & Hc & Hfr).
  exists h, hp'. split; [exact Hrun|]. split; [exact Hh|]. split; [exact Hs|].
  split; [|auto].
  intros a g Hg. destruct (Hk a g Hg) as [E|(h' & E & Hh')]; [auto|].
  right. exists h'. split; [exact E|].
  apply (same_but_temps_max_height hp hp'); assumption.
Qed.

(** The theorem at [n := NOT(x)] of the circuit [ex_free_heap], with no
    height computed yet. *)
Lemma compute_max_height_longest_witness :
  exists (h : nat) hp',
    compute_max_height 4 (ex_free_heap (-1)) 3 = Ok (Z.of_nat h, hp') /\
    max_height_is (ex_free_heap (-1)) 3 h /\
    same_but_temps (ex_free_heap (-1)) hp' /\ heights_in max_height_is hp' /\
    coloured hp' 3 (Z.of_nat h) /\
    (forall a, ~ reaches (ex_free_heap (-1)) 3 a -> hp' !! a = ex_free_heap (-1) !! a).
Proof.
  destruct (ex_free_shape (-1)) as (Hr & Hcl & Ht).
  apply (compute_max_height_longest (fun a => a) 4 (ex_free_heap (-1)) 3 Hr Hcl).
  - intros a g Hg. left. exact (Ht a g Hg).
  - vm_compute. eauto.
  - lia.
  - lia.
Defined.

(** ** [Gate::check_consistency] against the functions of the gates *)

Lemma states_extended_values (vs : list bool) : states_extended (map Some vs) vs.
Proof. induction vs as [|v vs IH]; constructor; auto. Qed.

Lemma gate_function_counts (t : GateType) (L U : Z) (vs : list bool) :
  t <> tITE -> t <> tVAR -> t <> tUNDEF -> t <> tDELETED ->
  (t = tREF \/ t = tNOT -> length vs = 1%nat) ->
  let k := Z.of_nat (nof_trues vs) in
  let n := Z.of_nat (length vs) in
  gate_function t L U vs =
    Some match t with
         | tFALSE => false
         | tTRUE => true
         | tREF => 0 <? k
         | tNOT => k =? 0
         | tOR => 0 <? k
         | tAND => k =? n
         | tEQUIV => (k =? n) || (k =? 0)
         | tODD => Z.land k 1 =? 1
         | tEVEN => Z.land k 1 =? 0
         | tTHRESHOLD => (L <=? k) && (k <=? U)
         | _ => L <=? k
         end.
Proof.
  intros H1 H2 H3 H4 Hone k n. pose proof (nof_trues_le vs) as Hle.
  destruct t; try contradiction; cbn [gate_function]; try reflexivity.
  - f_equal. rewrite forallb_id_falses, forallb_negb_trues. subst k n.
    f_equal. destruct (Z.eqb_spec (Z.of_nat (length vs - nof_trues vs)) 0),
      (Z.eqb_spec (Z.of_nat (nof_trues vs)) (Z.of_nat (length vs))); try reflexivity; lia.
  - f_equal. apply existsb_id_trues.
  - f_equal. rewrite forallb_id_falses. subst k n.
    destruct (Z.eqb_spec (Z.of_nat (length vs - nof_trues vs)) 0),
      (Z.eqb_spec (Z.of_nat (nof_trues vs)) (Z.of_nat (length vs))); try reflexivity; lia.
  - f_equal. subst k. symmetry. apply land_one_even.
  - f_equal. subst k. symmetry. apply land_one_odd.
  - specialize (Hone (or_intror eq_refl)). subst k.
    destruct vs as [|v [|? ?]]; try discriminate Hone. destruct v; reflexivity.
  - specialize (Hone (or_introl eq_refl)). subst k.
    destruct vs as [|v [|? ?]]; try discriminate Hone. destruct v; reflexivity.
Qed.

Lemma check_consistency_counts (hp : heap) (a : nat) (g : Gate)
    (ss : list (option bool)) :
  hp !! a = Some g -> determined g = true -> arity_ok g ->
  checked_type (type g) -> type g <> tITE -> threshold_ok g ->
  child_states hp (child_gates g) ss ->
  exists b, check_consistency hp a = Ok b /\
    (b = false -> forall vs, states_extended ss vs ->
       gate_function (type g) (tmin g) (tmax g) vs <> Some (value g)) /\
    (b = true -> forall vs, ss = map Some vs ->
       gate_function (type g) (tmin g) (tmax g) vs = Some (value g)).
Proof.
  intros Ha Hd (Hlen & Hone & _) (Hv & Hat & Hun & Hde) Hite Hth Hss.
  unfold check_consistency, deref. rewrite Ha. simpl. rewrite Hd. simpl.
  pose proof (count_child_info_states _ _ _ Hss Hlen) as Hc0.
  pose proof (state_counts_sum ss) as Hsum.
  pose proof (Forall2_length _ _ _ Hss) as Hl.
  unfold child_gates in Hl. rewrite length_map in Hl.
  assert (Hfacts : forall vs, states_extended ss vs ->
            length vs = length (children g) /\
            gate_function (type g) (tmin g) (tmax g) vs =
              Some match type g with
                   | tFALSE => false
                   | tTRUE => true
                   | tREF => 0 <? Z.of_nat (nof_trues vs)
                   | tNOT => Z.of_nat (nof_trues vs) =? 0
                   | tOR => 0 <? Z.of_nat (nof_trues vs)
                   | tAND => Z.of_nat (nof_trues vs) =? Z.of_nat (length vs)
                   | tEQUIV => (Z.of_nat (nof_trues vs) =? Z.of_nat (length vs))
                               || (Z.of_nat (nof_trues vs) =? 0)
                   | tODD => Z.land (Z.of_nat (nof_trues vs)) 1 =? 1
                   | tEVEN => Z.land (Z.of_nat (nof_trues vs)) 1 =? 0
                   | tTHRESHOLD => (tmin g <=? Z.of_nat (nof_trues vs))
                                   && (Z.of_nat (nof_trues vs) <=? tmax g)
                   | _ => tmin g <=? Z.of_nat (nof_trues vs)
                   end /\
            let '(t, f, u) := state_counts ss in
            (t <= nof_trues vs /\ f <= length vs - nof_trues vs /\
             t + f + u = length vs /\ (u = 0 -> t = nof_trues vs) /\
             nof_trues vs <= length vs)%nat).
  { intros vs Hext. pose proof (Forall2_length _ _ _ Hext) as Hlv.
    split; [lia|]. split.
    - apply gate_function_counts; try assumption. intros Hty.
      pose proof (Hone Hty). lia.
    - pose proof (state_counts_extended ss vs Hext) as Hx.
      pose proof (nof_trues_le vs).
      destruct (state_counts ss) as [[t f] u]. intuition lia. }
  assert (Hu0 : forall vs, ss = map Some vs ->
            states_extended ss vs /\ let '(t, f, u) := state_counts ss in u = 0%nat).
  { intros vs ->. split; [apply states_extended_values|].
    rewrite state_counts_values. reflexivity. }
  destruct (state_counts ss) as [[t f] u]. rewrite Hc0. simpl.
  assert (Hn : u32 (Z.of_nat t + Z.of_nat f + Z.of_nat u) = Z.of_nat (length (children g)))
    by (rewrite u32_id by (unfold in_u32; lia); lia).
  rewrite Hn.
  assert (Hnf : u32 (Z.of_nat (length (children g)) - Z.of_nat f) =
                Z.of_nat (length (children g)) - Z.of_nat f)
    by (apply u32_id; unfold in_u32; lia).
  rewrite ?Hnf. unfold threshold_ok in Hth.
  destruct (type g) eqn:Ety; try congruence;
    try (destruct (Hth eq_refl) as (Hth1 & Hth2);
         replace (tmin g <=? tmax g) with true by (symmetry; apply Z.leb_le; lia);
         replace (tmax g <=? Z.of_nat (length (children g))) with true
           by (symmetry; apply Z.leb_le; lia);
         simpl);
    destruct (value g) eqn:Ev; simpl; bool_tests; simpl;
    repeat match goal with
           | |- context [Z.leb ?x ?y] => destruct (Z.leb_spec x y); simpl
           end;
    (eexists; split; [reflexivity|]);
    (split;
     [ intros Hb vs Hx; try discriminate Hb;
       destruct (Hfacts vs Hx) as (Hlv & Hgf & F)
     | intros Hb vs Hx; try discriminate Hb;
       destruct (Hu0 vs Hx) as [Hx' U0];
       destruct (Hfacts vs Hx') as (Hlv & Hgf & F) ]).
  all: simpl in Hgf; try rewrite Hgf; destruct F as (F1 & F2 & F3 & F4 & F5);
    try (assert (Et : t = nof_trues vs) by (apply F4; lia); rewrite <- Et in * );
    try (intros [= E]); try f_equal; simpl in *; bool_tests; simpl in *;
    repeat match goal with
           | H : context [Z.leb ?x ?y] |- _ => destruct (Z.leb_spec x y); simpl in H
           | |- context [Z.leb ?x ?y] => destruct (Z.leb_spec x y); simpl
           end;
    try reflexivity; try discriminate; try lia;
    try (assert (length (children g) = 1%nat) by (apply Hone; auto); lia).
Qed.

Lemma check_consistency_ite (hp : heap) (a : nat) (g : Gate)
    (ss : list (option bool)) :
  hp !! a = Some g -> determined g = true -> arity_ok g -> type g = tITE ->
  child_states hp (child_gates g) ss ->
  exists b, check_consistency hp a = Ok b /\
    (b = false -> forall vs, states_extended ss vs ->
       gate_function (type g) (tmin g) (tmax g) vs <> Some (value g)) /\
    (b = true -> forall vs, ss = map Some vs ->
       gate_function (type g) (tmin g) (tmax g) vs = Some (value g)).
Proof.
  intros Ha Hd (Hlen & _ & Hthree) Hty Hss.
  specialize (Hthree Hty).
  unfold check_consistency, deref. rewrite Ha. simpl. rewrite Hd. simpl.
  pose proof (count_child_info_states _ _ _ Hss Hlen) as Hc0.
  destruct (state_counts ss) as [[t f] u]. rewrite Hc0. simpl. rewrite Hty.
  unfold nth_child. unfold child_gates in *.
  destruct (children g) as [|[ei ci] [|[et ct] [|[ee ce] [|? ?]]]]; try discriminate Hthree.
  simpl in Hss |- *.
  apply Forall2_cons_inv_l in Hss. destruct Hss as (si & ss1 & Hsi & Hss & ->).
  apply Forall2_cons_inv_l in Hss. destruct Hss as (st & ss2 & Hst & Hss & ->).
  apply Forall2_cons_inv_l in Hss. destruct Hss as (se & ss3 & Hse & Hss & ->).
  apply Forall2_nil_inv_l in Hss. subst ss3.
  unfold child_state in Hsi, Hst, Hse.
  destruct (hp !! ci) as [gi|]; [|discriminate].
  destruct (hp !! ct) as [gt|]; [|discriminate].
  destruct (hp !! ce) as [ge|]; [|discriminate].
  simpl. injection Hsi as <-. injection Hst as <-. injection Hse as <-.
  unfold det_val.
  destruct (value g), (determined gi), (value gi), (determined gt), (value gt),
    (determined ge), (value ge); simpl;
    (eexists; split; [reflexivity|]);
    (split;
     [ intros Hb vs Hx; try discriminate Hb;
       apply Forall2_cons_inv_l in Hx; destruct Hx as (vi & vs1 & Hi & Hx & ->);
       apply Forall2_cons_inv_l in Hx; destruct Hx as (vt & vs2 & Ht & Hx & ->);
       apply Forall2_cons_inv_l in Hx; destruct Hx as (ve & vs3 & He & Hx & ->);
       apply Forall2_nil_inv_l in Hx; subst vs3; simpl;
       destruct Hi as [Hi|Hi], Ht as [Ht|Ht], He as [He|He];
       try discriminate; try (injection Hi as <-); try (injection Ht as <-);
       try (injection He as <-);
       repeat match goal with v : bool |- _ => destruct v end; simpl; discriminate
     | intros Hb vs Hx; try discriminate Hb;
       destruct vs as [|vi [|vt [|ve [|? ?]]]]; try discriminate Hx;
       injection Hx as <- <- <-; reflexivity ]).
Qed.

(** X17: at a determined gate, [check_consistency] answers by the function
    of the gate.  It returns [false] only if the value of the gate is
    wrong however the undetermined children are completed; and when every
    child is determined it returns [true] only if the value of the gate is
    the value of its function on the values of the children.  (Input gates
    are always accepted, and ATLEAST gates are an internal error.) *)
Theorem check_consistency_sound (hp : heap) (a : nat) (g : Gate)
    (ss : list (option bool)) :
  hp !! a = Some g -> determined g = true -> arity_ok g ->
  checked_type (type g) -> threshold_ok g ->
  child_states hp (child_gates g) ss ->
  exists b, check_consistency hp a = Ok b /\
    (b = false -> forall vs, states_extended ss vs ->
       gate_function (type g) (tmin g) (tmax g) vs <> Some (value g)) /\
    (b = true -> forall vs, ss = map Some vs ->
       gate_function (type g) (tmin g) (tmax g) vs = Some (value g)).
Proof.
  intros Ha Hd Har Hty Hth Hss.
  destruct (decide (type g = tITE)) as [Hite|Hite].
  - apply check_consistency_ite; assumption.
  - apply check_consistency_counts; assumption.
Qed.

(** The theorem at [o := OR(x, y)] of the circuit [ex_free_heap], where
    [o] and [y] are true and [x] is undetermined. *)
Lemma check_consistency_sound_witness :
  exists b, check_consistency (ex_free_heap 0) 2 = Ok b /\
    (b = false -> forall vs, states_extended [None; Some true] vs ->
       gate_function tOR 0 0 vs <> Some true) /\
    (b = true -> forall vs, [None; Some true] = map Some vs ->
       gate_function tOR 0 0 vs = Some true).
Proof.
  apply (check_consistency_sound (ex_free_heap 0) 2
           (set_temp 0 (set_value true (set_handles [NameHandle "o"]
              (gate_of tOR 2 [(0%nat, 0%nat); (1%nat, 1%nat)]))))
           [None; Some true]).
  - reflexivity.
  - reflexivity.
  - split; [cbn; lia|]. split; [intros [E|E]; discriminate E | intros E; discriminate E].
  - repeat split; discriminate.
  - intros E. discriminate E.
  - repeat constructor.
Defined.

(** ** [Gate::is_justified] against the functions of the gates *)

Lemma is_justified_counts (hp : heap) (a : nat) (g : Gate)
    (ss : list (option bool)) :
  hp !! a = Some g -> arity_ok g -> constant_ok g ->
  type g <> tVAR -> type g <> tITE ->
  child_states hp (child_gates g) ss ->
  is_justified hp a = Ok true ->
  determined g = true /\
  forall vs, states_extended ss vs ->
    gate_function (type g) (tmin g) (tmax g) vs = Some (value g).
Proof.
  intros Ha (Hlen & Hone & _) Hconst Hv Hite Hss Hj.
  unfold is_justified, deref in Hj. rewrite Ha in Hj. simpl in Hj.
  destruct (determined g) eqn:Hd; [|discriminate Hj]. simpl in Hj.
  split; [reflexivity|]. destruct (Hconst Hd) as [HcT HcF].
  pose proof (count_child_info_states _ _ _ Hss Hlen) as Hc0.
  pose proof (state_counts_sum ss) as Hsum.
  pose proof (Forall2_length _ _ _ Hss) as Hl.
  unfold child_gates in Hl. rewrite length_map in Hl.
  intros vs Hext.
  pose proof (Forall2_length _ _ _ Hext) as Hlv.
  pose proof (state_counts_extended ss vs Hext) as Hx.
  pose proof (nof_trues_le vs) as Hk.
  destruct (state_counts ss) as [[t f] u]. rewrite Hc0 in Hj. simpl in Hj.
  destruct Hx as (F1 & F2 & F3 & F4).
  assert (Hn : u32 (Z.of_nat t + Z.of_nat f + Z.of_nat u) = Z.of_nat (length (children g)))
    by (rewrite u32_id by (unfold in_u32; lia); lia).
  assert (Hnf : u32 (Z.of_nat (length (children g)) - Z.of_nat f) =
                Z.of_nat (length (children g)) - Z.of_nat f)
    by (apply u32_id; unfold in_u32; lia).
  assert (Htf : u32 (Z.of_nat t + Z.of_nat f) = Z.of_nat t + Z.of_nat f)
    by (apply u32_id; unfold in_u32; lia).
  rewrite Hn, ?Hnf, ?Htf in Hj.
  assert (Hgf := gate_function_counts (type g) (tmin g) (tmax g) vs).
  cbv zeta in Hgf. rewrite <- !land_one_mod in Hj.
  destruct (type g) eqn:Ety; try congruence; try discriminate Hj;
    (rewrite Hgf;
     [| discriminate | discriminate | discriminate | discriminate
      | intros Hty; pose proof (Hone Hty); lia ]);
    f_equal;
    try (rewrite HcT by reflexivity; reflexivity);
    try (rewrite HcF by reflexivity; reflexivity);
    destruct (value g); simpl in Hj;
    repeat match goal with
           | H : context [Z.leb ?x ?y] |- _ => destruct (Z.leb_spec x y); simpl in H
           | |- context [Z.leb ?x ?y] => destruct (Z.leb_spec x y); simpl
           end;
    bool_tests; simpl in *; try discriminate; try reflexivity; try lia;
    try (assert (Et : t = nof_trues vs) by (apply F4; lia); rewrite <- Et in *;
         try congruence; try lia);
    try (assert (length (children g) = 1%nat) by (apply Hone; auto); lia).
Qed.

Lemma is_justified_ite (hp : heap) (a : nat) (g : Gate) (ss : list (option bool)) :
  hp !! a = Some g -> arity_ok g -> type g = tITE ->
  child_states hp (child_gates g) ss ->
  is_justified hp a = Ok true ->
  determined g = true /\
  forall vs, states_extended ss vs ->
    gate_function (type g) (tmin g) (tmax g) vs = Some (value g).
Proof.
  intros Ha (Hlen & _ & Hthree) Hty Hss Hj. specialize (Hthree Hty).
  unfold is_justified, deref in Hj. rewrite Ha in Hj. simpl in Hj.
  destruct (determined g) eqn:Hd; [|discriminate Hj]. simpl in Hj.
  split; [reflexivity|].
  pose proof (count_child_info_states _ _ _ Hss Hlen) as Hc0.
  destruct (state_counts ss) as [[t f] u]. rewrite Hc0 in Hj. simpl in Hj.
  rewrite Hty in Hj |- *. unfold nth_child in Hj. unfold child_gates in *.
  destruct (children g) as [|[ei ci] [|[et ct] [|[ee ce] [|? ?]]]]; try discriminate Hthree.
  simpl in Hss, Hj.
  apply Forall2_cons_inv_l in Hss. destruct Hss as (si & ss1 & Hsi & Hss & ->).
  apply Forall2_cons_inv_l in Hss. destruct Hss as (st & ss2 & Hst & Hss & ->).
  apply Forall2_cons_inv_l in Hss. destruct Hss as (se & ss3 & Hse & Hss & ->).
  apply Forall2_nil_inv_l in Hss. subst ss3.
  unfold child_state in Hsi, Hst, Hse.
  destruct (hp !! ci) as [gi|]; [|discriminate].
  destruct (hp !! ct) as [gt|]; [|discriminate].
  destruct (hp !! ce) as [ge|]; [|discriminate].
  simpl in Hj. injection Hsi as <-. injection Hst as <-. injection Hse as <-.
  unfold det_val in Hj. intros vs Hx.
  apply Forall2_cons_inv_l in Hx. destruct Hx as (vi & vs1 & Hi & Hx & ->).
  apply Forall2_cons_inv_l in Hx. destruct Hx as (vt & vs2 & Ht & Hx & ->).
  apply Forall2_cons_inv_l in Hx. destruct Hx as (ve & vs3 & He & Hx & ->).
  apply Forall2_nil_inv_l in Hx. subst vs3. simpl.
  destruct (value g), (determined gi), (value gi), (determined gt), (value gt),
    (determined ge), (value ge); simpl in Hj; try discriminate Hj;
    destruct Hi as [Hi|Hi], Ht as [Ht|Ht], He as [He|He];
    try discriminate; try (injection Hi as <-); try (injection Ht as <-);
    try (injection He as <-);
    repeat match goal with v : bool |- _ => destruct v end; reflexivity.
Qed.

(** X18: a gate that [is_justified] accepts is determined, and its value
    is the value of its function however the undetermined children are
    completed: the determined children alone force the value.  (A constant
    must carry its own value; input gates are accepted as they are.) *)
Theorem is_justified_forced (hp : heap) (a : nat) (g : Gate)
    (ss : list (option bool)) :
  hp !! a = Some g -> arity_ok g -> constant_ok g -> type g <> tVAR ->
  child_states hp (child_gates g) ss ->
  is_justified hp a = Ok true ->
  determined g = true /\
  forall vs, states_extended ss vs ->
    gate_function (type g) (tmin g) (tmax g) vs = Some (value g).
Proof.
  intros Ha Har Hc Hv Hss Hj.
  destruct (decide (type g = tITE)) as [Hite|Hite].
  - eapply is_justified_ite; eassumption.
  - eapply is_justified_counts; eassumption.
Qed.

(** The theorem at [o := OR(x, y)] of the circuit [ex_free_heap], where
    [o] and [y] are true and [x] is undetermined. *)
Lemma is_justified_forced_witness :
  true = true /\
  forall vs, states_extended [None; Some true] vs ->
    gate_function tOR 0 0 vs = Some true.
Proof.
  apply (is_justified_forced (ex_free_heap 0) 2
           (set_temp 0 (set_value true (set_handles [NameHandle "o"]
              (gate_of tOR 2 [(0%nat, 0%nat); (1%nat, 1%nat)]))))
           [None; Some true]).
  - reflexivity.
  - split; [cbn; lia|]. split; [intros [E|E]; discriminate E | intros E; discriminate E].
  - intros _. split; intros E; discriminate E.
  - discriminate.
  - repeat constructor.
  - reflexivity.
Defined.

(** ** [edimacs_normalize] and [edimacs_print] *)

Lemma map_children_error (hp : heap) (notless : bool) (cs : list nat) (e : error) :
  map_children (child_lit hp notless) cs = Err e -> e = NullPointer.
Proof.
  induction cs as [|c cs IH]; cbn [map_children]; [discriminate|].
  unfold child_lit at 1, deref, nth_child.
  destruct (hp !! c) as [cg|]; cbn; [|intros [= <-]; reflexivity].
  destruct (notless && is_type (type cg) tNOT).
  - destruct (child_gates cg !! 0%nat) as [gc|]; cbn; [|intros [= <-]; reflexivity].
    destruct (hp !! gc) as [gcg|]; cbn; [|intros [= <-]; reflexivity].
    destruct (map_children (child_lit hp notless) cs); cbn; [discriminate|].
    intros [= <-]. apply IH. reflexivity.
  - cbn. destruct (map_children (child_lit hp notless) cs); cbn; [discriminate|].
    intros [= <-]. apply IH. reflexivity.
Qed.

Lemma edimacs_line_error (hp : heap) (g : Gate) (notless : bool) (code : string) :
  edimacs_line hp g notless code <> Err InternalError /\
  edimacs_bound_line hp g notless code <> Err InternalError.
Proof.
  unfold edimacs_line, edimacs_bound_line, edimacs_print_children.
  destruct (map_children (child_lit hp notless) (child_gates g)) as [lits|e] eqn:E;
    cbn; [split; discriminate|].
  apply map_children_error in E. subst e. split; discriminate.
Qed.

(** A gate in the edimacs normal form is printed without an internal
    error. *)
Lemma edimacs_form_print (hp : heap) (this : nat) (g : Gate) (notless : bool) :
  hp !! this = Some g -> edimacs_form hp g ->
  edimacs_print hp this notless <> Err InternalError.
Proof.
  intros Hg (Href & Hth & Hun & Hde & Hnot). unfold edimacs_print, deref.
  rewrite Hg. cbn.
  destruct (type g) eqn:Ety; try congruence; try discriminate;
    try apply edimacs_line_error.
  destruct (Hnot eq_refl) as (Hd & c & cg & Hc & Hcg & Hty).
  destruct notless; [|apply edimacs_line_error].
  rewrite Hd, Hc. cbn. rewrite Hcg. cbn.
  rewrite (proj2 (is_type_false _ _) Hty). discriminate.
Qed.

Lemma count_children_of_run (this : nat) (s : BC) (gs : Gate) :
  gates s !! this = Some gs ->
  count_children_of this s = Ok (count_children gs, s).
Proof.
  intros Hg. unfold count_children_of.
  rewrite (st_bind_run _ _ _ _ _ (gate_run s this gs Hg)). reflexivity.
Qed.

Lemma add_in_pstack_Ok (this : nat) (s s' : BC) (u : unit) :
  add_in_pstack this s = Ok (u, s') ->
  exists g', gates s' !! this = Some g' /\ in_pstack g' = true.
Proof.
  unfold add_in_pstack. intros H. apply st_bind_Ok in H.
  destruct H as (g & s1 & Hg & H). apply gate_Ok in Hg. destruct Hg as [-> Hg].
  destruct (in_pstack g) eqn:E; cbn [negb] in H.
  - injection H as _ <-. eauto.
  - apply st_bind_Ok in H. destruct H as (u1 & s2 & Hm & H).
    apply modify_Ok in Hm. destruct Hm as (g2 & Hg2 & ->).
    injection H as _ <-. cbn. rewrite lookup_insert_eq. eexists. split; reflexivity.
Qed.

(** The first steps of [edimacs_normalize]: the children are sorted. *)
Lemma edimacs_normalize_sorted (bc : BC) (this : nat) (g : Gate) :
  sort_ready bc this g ->
  exists bc1 g1,
    (if is_commutative g then sort_children this else skip) bc = Ok (tt, bc1) /\
    gates bc1 !! this = Some g1 /\ g1 = set_children (children g1) g /\
    length (children g1) = length (children g) /\
    (forall c, c ∈ child_gates g1 -> c <> this /\ is_Some (gates bc1 !! c)).
Proof.
  intros Hready. pose proof Hready as (Hg & Hnd & Hch).
  destruct (is_commutative g) eqn:Hcomm.
  - destruct (sort_children_run bc this g Hready Hcomm)
      as (bc1 & g1 & Hsort & Hg1 & Hsame & Hfst & Hperm & _ & Hkept).
    exists bc1, g1. split; [exact Hsort|]. split; [exact Hg1|]. split; [exact Hsame|].
    split.
    + rewrite <- (length_map fst (children g1)), Hfst. apply length_map.
    + intros c Hc. rewrite Hperm in Hc. destruct (Hch c Hc) as (Hne & cg & Hcg & _).
      split; [exact Hne|]. eapply others_kept_is_Some; eauto.
  - exists bc, g. split; [reflexivity|]. split; [exact Hg|].
    split; [destruct g; reflexivity|]. split; [reflexivity|].
    intros c Hc. destruct (Hch c Hc) as (Hne & cg & Hcg & _). eauto.
Qed.

Section EdimacsForm.

Context (ops : BCOps) (this : nat) (notless : bool).


Lemma settled_form (bc' : BC) (g' : Gate) :
  gates bc' !! this = Some g' -> type g' <> tREF -> type g' <> tTHRESHOLD ->
  type g' <> tUNDEF -> type g' <> tNOT -> edimacs_settled this notless bc'.
Proof.
  intros Hg H1 H2 H3 H4. exists g'. split; [exact Hg|].
  destruct (decide (type g' = tDELETED)) as [Hd|Hd]; [auto|].
  right. right.
  assert (Hf : edimacs_form (gates bc') g') by (split_and!; try assumption; congruence).
  split; [exact Hf|]. eapply edimacs_form_print; eassumption.
Qed.

Lemma settled_stack (s s' : BC) (u : unit) :
  add_in_pstack this s = Ok (u, s') -> edimacs_settled this notless s'.
Proof.
  intros H. apply add_in_pstack_Ok in H. destruct H as (g' & Hg' & Hp).
  exists g'. auto.
Qed.

Lemma settled_constant (s bc' : BC) (gs : Gate) (v fl : bool) :
  gates s !! this = Some gs ->
  (forall c, c ∈ child_gates gs -> c <> this /\ is_Some (gates s !! c)) ->
  cnf_constant this v fl s = Ok (true, bc') -> edimacs_settled this notless bc'.
Proof.
  intros Hg Hch Hrun.
  destruct (cnf_constant_run this v fl s gs Hg Hch) as (r & s' & g' & Hr & Hg' & _ & Hres).
  rewrite Hr in Hrun. injection Hrun as -> ->.
  destruct (determined gs && negb (eqb (value gs) v)); [destruct Hres as [E _]; discriminate E|].
  destruct Hres as [_ ->].
  eapply settled_form; [exact Hg'| | | |]; destruct fl, v; discriminate.
Qed.

Lemma settled_retyped (s bc' : BC) (gs : Gate) (f : Gate -> Gate) :
  gates s !! this = Some gs ->
  (modify this f;; add_in_pstack this;; st_ret true) s = Ok (true, bc') ->
  edimacs_settled this notless bc'.
Proof.
  intros Hg Hrun. apply st_bind_Ok in Hrun. destruct Hrun as (u & s1 & _ & Hrun).
  apply st_bind_Ok in Hrun. destruct Hrun as (u2 & s2 & Hp & Hrun).
  injection Hrun as <-. eapply settled_stack; eassumption.
Qed.

End EdimacsForm.

(** X19: when [edimacs_normalize] returns [true] at a gate, the gate is on
    the stack again to be normalized once more, or it is deleted, or it is
    in the edimacs normal form: it is no REF and no THRESHOLD gate, a NOT
    gate is undetermined over a child that is not a NOT gate, and
    [edimacs_print] prints the gate without an internal error. *)
Theorem edimacs_normalize_printable (ops : BCOps) (this : nat) (notless : bool)
    (bc bc' : BC) (g : Gate) :
  sort_ready bc this g ->
  edimacs_normalize ops this bc = Ok (true, bc') ->
  exists g', gates bc' !! this = Some g' /\
    (in_pstack g' = true \/ type g' = tDELETED \/
     (edimacs_form (gates bc') g' /\
      edimacs_print (gates bc') this notless <> Err InternalError)).
Proof.
  intros Hready Hrun. change (edimacs_settled this notless bc').
  pose proof Hready as (Hg & _).
  unfold edimacs_normalize in Hrun.
  rewrite (st_bind_run _ _ _ _ _ (gate_run bc this g Hg)) in Hrun.
  destruct (is_type (type g) tDELETED) eqn:Edel.
  { injection Hrun as <-. exists g. split; [exact Hg|]. right. left.
    apply is_type_true. exact Edel. }
  apply is_type_false in Edel.
  destruct (edimacs_normalize_sorted bc this g Hready)
    as (bc1 & g1 & Hsort & Hg1 & Hsame & Hlen & Hch).
  rewrite (st_bind_run _ _ _ _ _ Hsort) in Hrun.
  rewrite (st_bind_run _ _ _ _ _ (gate_run bc1 this g1 Hg1)) in Hrun.
  assert (Hty : type g1 = type g) by (rewrite Hsame; reflexivity).
  pose proof (count_children_of_run this bc1 g1 Hg1) as Hcount.
  destruct (type g1) eqn:Ety.
  - (* EQUIV *)
    unfold edimacs_normalize_EQUIV in Hrun.
    rewrite (st_bind_run _ _ _ _ _ Hcount) in Hrun.
    destruct (count_children g1 =? 1).
    + rewrite (st_bind_run _ _ _ _ _ (gate_run bc1 this g1 Hg1)) in Hrun.
      destruct (determined g1 && eqb (value g1) false) eqn:Econf;
        [injection Hrun as E; discriminate E|].
      destruct (transform_into_constant_run this true bc1 g1 Hg1)
        as (s1 & H1 & Ht1 & _); [|exact Hch|].
      { intros Hd. rewrite Hd in Econf. destruct (value g1); [reflexivity|discriminate]. }
      rewrite (st_bind_run _ _ _ _ _ H1) in Hrun. injection Hrun as <-.
      eapply settled_form; [exact Ht1| | | |]; discriminate.
    + injection Hrun as <-.
      eapply settled_form; [exact Hg1| | | |]; rewrite Ety; discriminate.
  - (* OR *)
    unfold cnf_normalize_OR_AND in Hrun.
    rewrite (st_bind_run _ _ _ _ _ Hcount) in Hrun.
    destruct (count_children g1 =? 1).
    + eapply settled_retyped; eassumption.
    + injection Hrun as <-.
      eapply settled_form; [exact Hg1| | | |]; rewrite Ety; discriminate.
  - (* AND *)
    unfold cnf_normalize_OR_AND in Hrun.
    rewrite (st_bind_run _ _ _ _ _ Hcount) in Hrun.
    destruct (count_children g1 =? 1).
    + eapply settled_retyped; eassumption.
    + injection Hrun as <-.
      eapply settled_form; [exact Hg1| | | |]; rewrite Ety; discriminate.
  - (* EVEN *)
    unfold edimacs_normalize_parity in Hrun.
    rewrite (st_bind_run _ _ _ _ _ Hcount) in Hrun.
    destruct (count_children g1 =? 1).
    + eapply settled_retyped; eassumption.
    + injection Hrun as <-.
      eapply settled_form; [exact Hg1| | | |]; rewrite Ety; discriminate.
  - (* ODD *)
    unfold edimacs_normalize_parity in Hrun.
    rewrite (st_bind_run _ _ _ _ _ Hcount) in Hrun.
    destruct (count_children g1 =? 1).
    + eapply settled_retyped; eassumption.
    + injection Hrun as <-.
      eapply settled_form; [exact Hg1| | | |]; rewrite Ety; discriminate.
  - (* ITE *)
    injection Hrun as <-.
    eapply settled_form; [exact Hg1| | | |]; rewrite Ety; discriminate.
  - (* NOT *)
    unfold cnf_normalize_NOT in Hrun.
    apply st_bind_Ok in Hrun. destruct Hrun as (child & s0 & Hchild & Hrun).
    pose proof (readonly_child_at this 0 _ _ _ Hchild) as ->.
    assert (Hnth : nth_child g1 0 = Ok child).
    { unfold child_at in Hchild.
      rewrite (st_bind_run _ _ _ _ _ (gate_run bc1 this g1 Hg1)) in Hchild.
      destruct (nth_child g1 0) as [c|e]; cbn in Hchild; [|discriminate Hchild].
      injection Hchild as <-. reflexivity. }
    assert (Hcin : child ∈ child_gates g1).
    { unfold nth_child in Hnth.
      destruct (child_gates g1 !! 0%nat) as [c|] eqn:E; [|discriminate Hnth].
      injection Hnth as <-. eapply list_elem_of_lookup_2. exact E. }
    destruct (Hch child Hcin) as (Hne & cg & Hcg).
    rewrite (st_bind_run _ _ _ _ _ (gate_run bc1 this g1 Hg1)) in Hrun.
    rewrite (st_bind_run _ _ _ _ _ (gate_run bc1 child cg Hcg)) in Hrun.
    destruct (determined g1) eqn:Hd.
    + destruct (determined cg && eqb (value cg) (value g1));
        [injection Hrun as E; discriminate E|].
      destruct (modify_this_run child bc1 cg (set_value (negb (value g1))) Hcg)
        as (s1 & H1 & Hc1 & _).
      assert (Hg1' : gates s1 !! this = Some g1).
      { rewrite (modify_run bc1 child cg _ Hcg) in H1. injection H1 as <-.
        cbn. rewrite lookup_insert_ne by auto. exact Hg1. }
      rewrite (st_bind_run _ _ _ _ _ H1) in Hrun.
      destruct (add_in_pstack_run this child s1 Hne ltac:(eauto))
        as (s2 & H2 & Hsame2 & Hk2).
      rewrite (st_bind_run _ _ _ _ _ H2) in Hrun.
      rewrite Hg1' in Hsame2.
      destruct (transform_into_constant_run this (value g1) s2 g1 Hsame2)
        as (s3 & H3 & Ht3 & _).
      { auto. }
      { intros c Hc. destruct (Hch c Hc) as (Hcne & Hcs). split; [exact Hcne|].
        eapply others_kept_is_Some; [exact Hk2 | exact Hcne |].
        rewrite (modify_run bc1 child cg _ Hcg) in H1. injection H1 as <-. cbn.
        rewrite lookup_insert. case_decide; [eauto | exact Hcs]. }
      rewrite (st_bind_run _ _ _ _ _ H3) in Hrun. injection Hrun as <-.
      eapply settled_form; [exact Ht3| | | |]; destruct (value g1); discriminate.
    + destruct (is_type (type cg) tNOT) eqn:Ecn.
      * (* g := ~~h --> g := h *)
        do 4 (apply st_bind_Ok in Hrun; destruct Hrun as (? & ? & _ & Hrun)).
        apply st_bind_Ok in Hrun. destruct Hrun as (u & sx & Hm & Hrun).
        injection Hrun as <-. apply modify_Ok in Hm. destruct Hm as (gx & Hgx & ->).
        eexists. split; [cbn; apply lookup_insert_eq|]. right. left. reflexivity.
      * injection Hrun as <-. exists g1. split; [exact Hg1|].
        right. right.
        assert (Hf : edimacs_form (gates bc1) g1).
        { unfold edimacs_form. rewrite Ety. split_and!; try discriminate.
          intros _. split; [exact Hd|]. exists child, cg.
          split; [exact Hnth|]. split; [exact Hcg|].
          apply is_type_false. exact Ecn. }
        split; [exact Hf|]. eapply edimacs_form_print; eassumption.
  - (* TRUE *)
    unfold cnf_normalize_constant, conflicts_with in Hrun.
    rewrite (st_bind_run _ _ bc1 bc1 (determined g1 && negb (eqb (value g1) true)))
      in Hrun by (rewrite (st_bind_run _ _ _ _ _ (gate_run bc1 this g1 Hg1)); reflexivity).
    destruct (determined g1 && negb (eqb (value g1) true));
      [injection Hrun as E; discriminate E|].
    destruct (modify_this_run this bc1 g1 (set_value true) Hg1) as (s1 & H1 & Ht1 & _).
    rewrite (st_bind_run _ _ _ _ _ H1) in Hrun. injection Hrun as <-.
    eapply settled_form; [exact Ht1| | | |]; cbn; rewrite Ety; discriminate.
  - (* FALSE *)
    unfold cnf_normalize_constant, conflicts_with in Hrun.
    rewrite (st_bind_run _ _ bc1 bc1 (determined g1 && negb (eqb (value g1) false)))
      in Hrun by (rewrite (st_bind_run _ _ _ _ _ (gate_run bc1 this g1 Hg1)); reflexivity).
    destruct (determined g1 && negb (eqb (value g1) false));
      [injection Hrun as E; discriminate E|].
    destruct (modify_this_run this bc1 g1 (set_value false) Hg1) as (s1 & H1 & Ht1 & _).
    rewrite (st_bind_run _ _ _ _ _ H1) in Hrun. injection Hrun as <-.
    eapply settled_form; [exact Ht1| | | |]; cbn; rewrite Ety; discriminate.
  - (* VAR *)
    injection Hrun as <-.
    eapply settled_form; [exact Hg1| | | |]; rewrite Ety; discriminate.
  - (* THRESHOLD *)
    unfold edimacs_normalize_THRESHOLD in Hrun.
    rewrite (st_bind_run _ _ _ _ _ Hcount) in Hrun.
    rewrite (st_bind_run _ _ _ _ _ (gate_run bc1 this g1 Hg1)) in Hrun.
    destruct (count_children g1 <? tmin g1);
      [eapply settled_constant; eassumption|].
    assert (Hmid : exists s2 g2,
              (if count_children g1 <? tmax g1
               then modify this (set_tmax (count_children g1)) else skip) bc1
              = Ok (tt, s2) /\
              gates s2 !! this = Some g2 /\
              (forall c, c ∈ child_gates g2 -> c <> this /\ is_Some (gates s2 !! c))).
    { destruct (count_children g1 <? tmax g1).
      - destruct (modify_this_run this bc1 g1 (set_tmax (count_children g1)) Hg1)
          as (s2 & H2 & Ht2 & Hk2).
        exists s2. eexists. split; [exact H2|]. split; [exact Ht2|].
        intros c Hc. destruct (Hch c Hc) as (Hcne & Hcs). split; [exact Hcne|].
        eapply others_kept_is_Some; eassumption.
      - exists bc1, g1. split; [reflexivity|]. auto. }
    destruct Hmid as (s2 & g2 & H2 & Hg2 & Hch2).
    rewrite (st_bind_run _ _ _ _ _ H2) in Hrun.
    rewrite (st_bind_run _ _ _ _ _ (gate_run s2 this g2 Hg2)) in Hrun.
    destruct (tmax g2 <? tmin g2); [eapply settled_constant; eassumption|].
    destruct ((count_children g1 =? 1) && (tmin g2 =? 0) && (tmax g2 =? 1));
      [eapply settled_constant; eassumption|].
    destruct ((count_children g1 =? 1) && (tmin g2 =? 0) && (tmax g2 =? 0));
      [eapply settled_retyped; eassumption|].
    destruct ((count_children g1 =? 1) && (tmin g2 =? 1) && (tmax g2 =? 1));
      [eapply settled_retyped; eassumption|].
    destruct (count_children g1 =? 1); [discriminate Hrun|].
    destruct ((tmin g2 =? 0) && (tmax g2 =? count_children g1));
      [eapply settled_constant; eassumption|].
    destruct (tmin g2 =? 0).
    { (* [0,k](g1,...,gn) = ~(>= k+1)(g1,...,gn) *)
      do 5 (apply st_bind_Ok in Hrun; destruct Hrun as (? & ? & _ & Hrun)).
      apply st_bind_Ok in Hrun. destruct Hrun as (u & sx & Hp & Hrun).
      injection Hrun as <-. eapply settled_stack; eassumption. }
    destruct (tmax g2 =? count_children g1);
      [eapply settled_retyped; eassumption|].
    (* [l,u](g1,...,gn) = (>= l)(g1,...,gn) & ~(>= u+1)(g1,...,gn) *)
    do 12 (apply st_bind_Ok in Hrun; destruct Hrun as (? & ? & _ & Hrun)).
    apply st_bind_Ok in Hrun. destruct Hrun as (u & sx & Hm & Hrun).
    injection Hrun as <-. apply modify_Ok in Hm. destruct Hm as (gx & Hgx & ->).
    eapply settled_form; [cbn; apply lookup_insert_eq| | | |]; discriminate.
  - (* ATLEAST *)
    unfold edimacs_normalize_ATLEAST in Hrun.
    rewrite (st_bind_run _ _ _ _ _ (gate_run bc1 this g1 Hg1)) in Hrun.
    rewrite (st_bind_run _ _ _ _ _ Hcount) in Hrun.
    destruct (tmin g1 =? 0); [eapply settled_constant; eassumption|].
    destruct (count_children g1 <? tmin g1); [eapply settled_constant; eassumption|].
    destruct (tmin g1 =? count_children g1); [eapply settled_retyped; eassumption|].
    injection Hrun as <-.
    eapply settled_form; [exact Hg1| | | |]; rewrite Ety; discriminate.
  - (* REF *)
    unfold cnf_normalize_REF in Hrun.
    do 2 (apply st_bind_Ok in Hrun; destruct Hrun as (? & ? & _ & Hrun)).
    apply st_bind_Ok in Hrun. destruct Hrun as (ok & s3 & _ & Hrun).
    destruct ok; cbn [negb] in Hrun; [|injection Hrun as E; discriminate E].
    do 3 (apply st_bind_Ok in Hrun; destruct Hrun as (? & ? & _ & Hrun)).
    apply st_bind_Ok in Hrun. destruct Hrun as (u & sx & Hm & Hrun).
    injection Hrun as <-. apply modify_Ok in Hm. destruct Hm as (gx & Hgx & ->).
    eexists. split; [cbn; apply lookup_insert_eq|]. right. left. reflexivity.
  - (* UNDEF *)
    discriminate Hrun.
  - (* DELETED *)
    congruence.
Qed.

(** The theorem at ATLEAST[1](x, y) of [ex_atleast_one], which stays as it
    is. *)
Lemma edimacs_normalize_printable_witness :
  exists g',
    gates ex_atleast_one_after !! 2%nat = Some g' /\
    (in_pstack g' = true \/ type g' = tDELETED \/
     (edimacs_form (gates ex_atleast_one_after) g' /\
      edimacs_print (gates ex_atleast_one_after) 2 true <> Err InternalError)).
Proof.
  apply (edimacs_normalize_printable ex_ops 2 true ex_atleast_one _
           (set_tmin 1 (set_handles [NameHandle "a"]
              (gate_of tATLEAST 2 [(0%nat, 0%nat); (1%nat, 1%nat)])))).
  - split; [reflexivity|]. split.
    + cbn. apply NoDup_cons_2; [|apply NoDup_cons_2; [|apply NoDup_nil_2]];
        rewrite ?elem_of_cons, ?elem_of_nil; lia.
    + intros c Hc. cbv in Hc.
      repeat (apply elem_of_cons in Hc; destruct Hc as [->|Hc];
              [split; [lia|]; eexists; split; [reflexivity|]; cbn; lia|]).
      apply elem_of_nil in Hc. destruct Hc.
  - vm_compute. reflexivity.
Defined.

(** ** Duplicate children of parity gates:
       [Gate::remove_parity_duplicate_children] *)

Lemma same_but_marks_refl (g : Gate) : same_but_marks g g.
Proof. destruct g; reflexivity. Qed.

Lemma same_but_marks_trans (g1 g2 g3 : Gate) :
  same_but_marks g1 g2 -> same_but_marks g2 g3 -> same_but_marks g1 g3.
Proof.
  unfold same_but_marks. intros H12 H23. rewrite H23, H12. destruct g1; reflexivity.
Qed.

Lemma same_but_links_marks (g g' : Gate) : same_but_links g g' -> same_but_marks g g'.
Proof.
  unfold same_but_links, same_but_marks. intros H. rewrite H. destruct g; reflexivity.
Qed.

Lemma same_but_marks_fields (g g' : Gate) :
  same_but_marks g g' ->
  determined g' = determined g /\ value g' = value g /\ type g' = type g /\
  children g' = children g /\ handles g' = handles g /\ index g' = index g /\
  tmin g' = tmin g /\ tmax g' = tmax g.
Proof. unfold same_but_marks. intros ->. repeat split. Qed.

Lemma marks_kept_refl (this : nat) (bc : BC) : marks_kept this bc bc.
Proof. intros a ga _ Ha. exists ga. split; [exact Ha | apply same_but_marks_refl]. Qed.

Lemma marks_kept_trans (this : nat) (b1 b2 b3 : BC) :
  marks_kept this b1 b2 -> marks_kept this b2 b3 -> marks_kept this b1 b3.
Proof.
  intros H12 H23 a g1 Hne H1. destruct (H12 a g1 Hne H1) as (g2 & H2 & S12).
  destruct (H23 a g2 Hne H2) as (g3 & H3 & S23).
  exists g3. split; [exact H3 | eapply same_but_marks_trans; eassumption].
Qed.

Lemma others_kept_marks (this : nat) (bc s : BC) :
  others_kept this bc s -> marks_kept this bc s.
Proof.
  intros H a ga Hne Ha. destruct (H a ga Hne Ha) as (ga' & Ha' & S).
  exists ga'. split; [exact Ha' | apply same_but_links_marks; exact S].
Qed.

Lemma marks_kept_is_Some (this : nat) (bc s : BC) (a : nat) :
  marks_kept this bc s -> a <> this -> is_Some (gates bc !! a) ->
  is_Some (gates s !! a).
Proof. intros H Hne [ga Ha]. destruct (H a ga Hne Ha) as (ga' & Ha' & _). eauto. Qed.

Lemma marks_kept_det (this : nat) (bc s : BC) (a : nat) :
  marks_kept this bc s -> a <> this -> is_Some (gates bc !! a) ->
  det_of (gates s) a = det_of (gates bc) a.
Proof.
  intros H Hne [ga Ha]. destruct (H a ga Hne Ha) as (ga' & Ha' & S).
  unfold det_of. rewrite Ha, Ha'. apply same_but_marks_fields in S. tauto.
Qed.

(** A field update of another gate that changes marks only. *)
Lemma modify_marks (this c : nat) (s : BC) (cg : Gate) (f : Gate -> Gate) :
  c <> this -> gates s !! c = Some cg -> same_but_marks cg (f cg) ->
  exists s', modify c f s = Ok (tt, s') /\
    gates s' !! c = Some (f cg) /\
    (forall a, a <> c -> gates s' !! a = gates s !! a) /\
    marks_kept this s s'.
Proof.
  intros Hne Hc Hf. rewrite (modify_run s c cg f Hc). eexists. split; [reflexivity|].
  cbn. split; [apply lookup_insert_eq|]. split.
  - intros a Ha. apply lookup_insert_ne. auto.
  - intros a ga Hna Ha. cbn. destruct (decide (a = c)) as [->|Hac].
    + rewrite lookup_insert_eq. rewrite Hc in Ha. injection Ha as <-. eauto.
    + rewrite lookup_insert_ne by auto. exists ga.
      split; [exact Ha | apply same_but_marks_refl].
Qed.

Lemma same_but_marks_temp (g : Gate) (t : Z) : same_but_marks g (set_temp t g).
Proof. destruct g; reflexivity. Qed.

(** [set_temps]: the marks of the children are set. *)
Lemma set_temps_loop (this : nat) (t : Z) :
  forall (l : list (nat * nat)) (s : BC),
  (forall c, c ∈ map snd l -> c <> this /\ is_Some (gates s !! c)) ->
  exists s', for_each l (fun ca => modify (snd ca) (set_temp t)) s = Ok (tt, s') /\
    gates s' !! this = gates s !! this /\ marks_kept this s s' /\
    (forall c cg, c ∈ map snd l -> gates s' !! c = Some cg -> temp cg = t) /\
    (forall a, a ∉ map snd l -> gates s' !! a = gates s !! a).
Proof.
  induction l as [|[e c] l IH]; intros s Hch.
  - exists s. split; [reflexivity|]. split; [reflexivity|].
    split; [apply marks_kept_refl|]. split; [|auto].
    intros c cg Hc. apply elem_of_nil in Hc. destruct Hc.
  - destruct (Hch c ltac:(cbn; apply elem_of_cons; auto)) as (Hne & cg & Hcg).
    destruct (modify_marks this c s cg (set_temp t) Hne Hcg (same_but_marks_temp cg t))
      as (s1 & H1 & Hc1 & Hfr1 & Hk1).
    destruct (IH s1) as (s' & Hrun & Hthis & Hk & Ht & Hfr).
    { intros c' Hc'. destruct (Hch c' ltac:(cbn; apply elem_of_cons; auto)) as (Hne' & Hs').
      split; [exact Hne'|]. eapply marks_kept_is_Some; eassumption. }
    exists s'. cbn [for_each]. cbn [snd]. rewrite (st_bind_run _ _ _ _ _ H1).
    split; [exact Hrun|]. split; [rewrite Hthis; apply Hfr1; auto|].
    split; [eapply marks_kept_trans; eassumption|]. split.
    + intros c' cg' Hc' Hg'. cbn in Hc'. apply elem_of_cons in Hc'.
      destruct (decide (c' ∈ map snd l)) as [Hin|Hnin]; [eapply Ht; eassumption|].
      destruct Hc' as [->|Hc']; [|contradiction].
      rewrite (Hfr c Hnin), Hc1 in Hg'. injection Hg' as <-. reflexivity.
    + intros a Ha. cbn in Ha. apply not_elem_of_cons in Ha. destruct Ha as [Hac Ha].
      rewrite (Hfr a Ha). apply Hfr1. exact Hac.
Qed.

Lemma find_before_first (e child : nat) (K1 K2 R : list (nat * nat)) (e2 : nat)
    (s : BC) :
  e ∉ map fst K1 -> e2 <> e -> child ∉ map snd K1 ->
  find_before e (fun ca2 => st_ret (snd ca2 =? child)%nat)
              (K1 ++ (e2, child) :: K2 ++ R) s = Ok (Some (e2, child), s).
Proof.
  induction K1 as [|[e1 c1] K1 IH]; intros He Hne Hc.
  - cbn [app find_before fst snd].
    rewrite (proj2 (Nat.eqb_neq e2 e) Hne).
    rewrite st_bind_ret. rewrite Nat.eqb_refl. reflexivity.
  - cbn in He, Hc. apply not_elem_of_cons in He, Hc.
    destruct He as [He1 He], Hc as [Hc1 Hc].
    cbn [app find_before fst snd].
    rewrite (proj2 (Nat.eqb_neq e1 e)) by auto.
    rewrite st_bind_ret. rewrite (proj2 (Nat.eqb_neq c1 child)) by auto.
    apply IH; assumption.
Qed.

Lemma same_but_links_temp (g g' : Gate) : same_but_links g g' -> temp g' = temp g.
Proof. unfold same_but_links. intros ->. reflexivity. Qed.

Lemma same_but_marks_parents (g g' : Gate) (ps : list (nat * nat)) :
  same_but_marks g g' -> same_but_marks g (set_parents ps g').
Proof. unfold same_but_marks. intros ->. destruct g; reflexivity. Qed.

Lemma marks_kept_one (this child : nat) (s s' : BC) (cg cg' : Gate) :
  gates s !! child = Some cg -> gates s' !! child = Some cg' ->
  same_but_marks cg cg' ->
  (forall a, a <> this -> a <> child -> gates s' !! a = gates s !! a) ->
  marks_kept this s s'.
Proof.
  intros Hc Hc' Hs Hfr a ga Hne Ha. destruct (decide (a = child)) as [->|Hac].
  - rewrite Hc in Ha. injection Ha as <-. eauto.
  - exists ga. rewrite (Hfr a Hne Hac). split; [exact Ha | apply same_but_marks_refl].
Qed.

(** [delete ca] for a child association of the gate in hand. *)
Lemma delete_child_step (this child e : nat) (s : BC) (gt cg : Gate) :
  child <> this -> gates s !! this = Some gt -> gates s !! child = Some cg ->
  exists s', delete_assoc e this child s = Ok (tt, s') /\
    gates s' !! this = Some (set_children (unlink e (children gt)) gt) /\
    gates s' !! child = Some (set_parents (unlink e (parents cg)) cg) /\
    (forall a, a <> this -> a <> child -> gates s' !! a = gates s !! a).
Proof.
  intros Hne Ht Hc. rewrite (delete_assoc_run s e this child gt cg Ht Hc Hne).
  eexists. split; [reflexivity|]. cbn. split; [|split].
  - rewrite lookup_insert_ne by auto. apply lookup_insert_eq.
  - apply lookup_insert_eq.
  - intros a Hat Hac. rewrite !lookup_insert_ne by auto. reflexivity.
Qed.

(** [if(!child->parents) child->add_in_pstack(bc);] *)
Lemma orphan_step (child : nat) (s : BC) (cg : Gate) :
  gates s !! child = Some cg ->
  exists s' cg', add_in_pstack_if_no_parents child s = Ok (tt, s') /\
    gates s' !! child = Some cg' /\ same_but_links cg cg' /\
    (forall a, a <> child -> gates s' !! a = gates s !! a).
Proof.
  intros Hc. unfold add_in_pstack_if_no_parents, no_parents.
  rewrite (st_bind_run _ _ s s (match parents cg with [] => true | _ => false end))
    by (rewrite (st_bind_run _ _ _ _ _ (gate_run s child cg Hc)); reflexivity).
  destruct (match parents cg with [] => true | _ => false end).
  - unfold add_in_pstack.
    rewrite (st_bind_run _ _ _ _ _ (gate_run s child cg Hc)).
    destruct (in_pstack cg); cbn [negb].
    + exists s, cg. split; [reflexivity|]. split; [exact Hc|].
      split; [apply same_but_links_refl | auto].
    + rewrite (st_bind_run _ _ _ _ _ (modify_run s child cg _ Hc)).
      eexists. eexists. split; [reflexivity|]. cbn.
      split; [apply lookup_insert_eq|].
      split; [apply same_but_links_in_pstack, same_but_links_refl|].
      intros a Ha. apply lookup_insert_ne. auto.
  - exists s, cg. split; [reflexivity|]. split; [exact Hc|].
    split; [apply same_but_links_refl | auto].
Qed.

Lemma split_first_child (c : nat) (K : list (nat * nat)) :
  c ∈ map snd K ->
  exists K1 e2 K2, K = K1 ++ (e2, c) :: K2 /\ c ∉ map snd K1.
Proof.
  induction K as [|[e1 c1] K IH]; intros Hin; [apply elem_of_nil in Hin; destruct Hin|].
  destruct (decide (c1 = c)) as [->|Hne].
  - exists [], e1, K. split; [reflexivity|]. cbn. apply not_elem_of_nil.
  - cbn in Hin. apply elem_of_cons in Hin. destruct Hin as [-> | Hin]; [congruence|].
    destruct (IH Hin) as (K1 & e2 & K2 & -> & Hnin).
    exists ((e1, c1) :: K1), e2, K2. split; [reflexivity|].
    cbn. apply not_elem_of_cons. auto.
Qed.

Lemma nof_trues_app (l1 l2 : list bool) :
  nof_trues (l1 ++ l2) = (nof_trues l1 + nof_trues l2)%nat.
Proof. induction l1 as [|v l1 IH]; cbn; [reflexivity|]. rewrite IH. lia. Qed.

Lemma parity_remove_pair (sigma : nat -> bool) (c : nat) (l1 l2 l3 : list nat) :
  parity sigma (l1 ++ c :: l2 ++ c :: l3) = parity sigma (l1 ++ l2 ++ l3).
Proof.
  unfold parity. rewrite !map_app. cbn [map]. rewrite !map_app. cbn [map].
  rewrite !nof_trues_app. cbn [nof_trues]. rewrite !nof_trues_app. cbn [nof_trues].
  destruct (sigma c).
  - replace (nof_trues (map sigma l1) +
             (1 + (nof_trues (map sigma l2) + (1 + nof_trues (map sigma l3)))))%nat
      with (2 + (nof_trues (map sigma l1) +
                 (nof_trues (map sigma l2) + nof_trues (map sigma l3))))%nat by lia.
    rewrite Nat.odd_add. cbn. reflexivity.
  - reflexivity.
Qed.

Lemma filter_nodup_remove {A : Type} (f : A -> bool) (l1 l2 : list A) (x : A) :
  NoDup (List.filter f (l1 ++ x :: l2)) -> NoDup (List.filter f (l1 ++ l2)).
Proof.
  rewrite !List.filter_app. cbn [List.filter]. intros H.
  apply NoDup_app in H. destruct H as (H1 & H12 & H2).
  apply NoDup_app. split; [exact H1|]. destruct (f x).
  - apply NoDup_cons in H2. destruct H2 as [_ H2]. split; [|exact H2].
    intros a Ha Ha2. apply (H12 a Ha). apply elem_of_cons. auto.
  - auto.
Qed.

Lemma filter_nodup_snoc {A : Type} (f : A -> bool) (l : list A) (x : A) :
  NoDup (List.filter f l) -> x ∉ l -> NoDup (List.filter f (l ++ [x])).
Proof.
  intros H Hx. rewrite List.filter_app. cbn [List.filter].
  apply NoDup_app. split; [exact H|]. split.
  - intros a Ha Ha2. destruct (f x); [|apply elem_of_nil in Ha2; exact Ha2].
    apply list_elem_of_singleton in Ha2. subst a. apply Hx.
    apply list_elem_of_In in Ha. apply List.filter_In in Ha. apply list_elem_of_In. tauto.
  - destruct (f x); [apply NoDup_singleton | apply NoDup_nil_2].
Qed.

Lemma filter_snoc_false {A : Type} (f : A -> bool) (l : list A) (x : A) :
  f x = false -> List.filter f (l ++ [x]) = List.filter f l.
Proof.
  intros H. rewrite List.filter_app. cbn [List.filter]. rewrite H. apply app_nil_r.
Qed.

Lemma for_each_cons {X : Type} (x : X) (l : list X) (body : X -> M unit) :
  for_each (x :: l) body = (body x;; for_each l body).
Proof. reflexivity. Qed.

Section ParityLoop.

Context (this : nat) (g0 : Gate) (d : nat -> bool).

(** The loop of [remove_parity_duplicate_children]: [K] are the children
    that are kept so far, [R] the children to come. *)
Lemma parity_duplicates_loop :
  forall (R K : list (nat * nat)) (s : BC),
  gates s !! this = Some (set_children (K ++ R) g0) ->
  NoDup (map fst (K ++ R)) ->
  (forall c, c ∈ map snd (K ++ R) ->
     c <> this /\ exists cg, gates s !! c = Some cg /\ determined cg = d c /\
       (d c = false -> (temp cg = 1 <-> c ∈ map snd K))) ->
  NoDup (List.filter (fun c => negb (d c)) (map snd K)) ->
  exists K' s',
    for_each R (fun ca =>
      let '(e, child) := ca in
      let* cg := gate child in
      if determined cg then skip
      else if temp cg =? 1 then
        modify child (set_temp 0);;
        let* g := gate this in
        let* prev := find_before e (fun ca2 => st_ret (snd ca2 =? child)%nat)
                                 (children g) in
        match prev with
        | None => st_fail AssertFailed
        | Some ca2 =>
            delete_assoc (fst ca2) this (snd ca2);;
            delete_assoc e this child;;
            add_in_pstack_if_no_parents child
        end
      else modify child (set_temp 1)) s = Ok (tt, s') /\
    gates s' !! this = Some (set_children K' g0) /\
    marks_kept this s s' /\
    sublist K' (K ++ R) /\
    NoDup (List.filter (fun c => negb (d c)) (map snd K')) /\
    (forall sigma, parity sigma (map snd K') = parity sigma (map snd (K ++ R))).
Proof.
  induction R as [|[e child] R IH]; intros K s Hthis Hnd Hch Hund.
  - rewrite app_nil_r in *. exists K, s. split; [reflexivity|].
    split; [exact Hthis|]. split; [apply marks_kept_refl|].
    split; [reflexivity|]. split; [exact Hund | reflexivity].
  - destruct (Hch child) as (Hne & cg & Hcg & Hdet & Hmark).
    { rewrite map_app. apply elem_of_app. right. cbn. apply elem_of_cons. auto. }
    rewrite for_each_cons. cbv beta iota. rewrite st_bind_assoc.
    rewrite (st_bind_run _ _ _ _ _ (gate_run s child cg Hcg)).
    assert (Hassoc : K ++ (e, child) :: R = (K ++ [(e, child)]) ++ R)
      by (rewrite <- app_assoc; reflexivity).
    destruct (determined cg) eqn:Hd.
    + (* a determined child is kept *)
      unfold skip at 1. rewrite st_bind_ret.
      destruct (IH (K ++ [(e, child)]) s) as (K' & s' & Hrun & Hthis' & Hk & Hsub & Hund' & Hpar).
      * rewrite <- Hassoc. exact Hthis.
      * rewrite <- Hassoc. exact Hnd.
      * intros c Hc. rewrite <- Hassoc in Hc.
        destruct (Hch c Hc) as (Hcne & cg' & Hcg' & Hdet' & Hmark').
        split; [exact Hcne|]. exists cg'. split; [exact Hcg'|]. split; [exact Hdet'|].
        intros Hdc. rewrite (Hmark' Hdc), map_app, elem_of_app. cbn.
        rewrite list_elem_of_singleton. split; [auto|]. intros [H | ->]; [exact H|].
        congruence.
      * rewrite map_app. cbn [map snd]. rewrite filter_snoc_false; [exact Hund|].
        rewrite <- Hdet. reflexivity.
      * exists K', s'. split; [exact Hrun|]. split; [exact Hthis'|].
        split; [exact Hk|]. rewrite Hassoc. auto.
    + destruct (Z.eqb_spec (temp cg) 1) as [Et|Et].
      * (* a duplicate: the child and its previous occurrence go *)
        assert (Hdc : d child = false) by congruence.
        destruct (split_first_child child K (proj1 (Hmark Hdc) Et))
          as (K1 & e2 & K2 & -> & Hfirst).
        rewrite <- !app_assoc in Hthis, Hnd. cbn [app] in Hthis, Hnd.
        assert (He2 : (e2 ∉ map fst K1) /\ (e ∉ map fst (K1 ++ K2)) /\ e2 <> e).
        { rewrite !map_app in Hnd |- *. cbn [map fst] in Hnd.
          rewrite map_app in Hnd. cbn [map fst] in Hnd.
          apply NoDup_app in Hnd. destruct Hnd as (_ & H12 & H2).
          apply NoDup_cons in H2. destruct H2 as [H2a H2].
          apply NoDup_app in H2. destruct H2 as (_ & H23 & H3).
          apply NoDup_cons in H3. destruct H3 as [H3a _].
          split_and!.
          - intros H. apply (H12 e2 H). apply elem_of_cons. auto.
          - intros H. apply elem_of_app in H. destruct H as [H|H].
            + apply (H12 e H). apply elem_of_cons. right. apply elem_of_app. right.
              apply elem_of_cons. auto.
            + apply (H23 e H). apply elem_of_cons. auto.
          - intros ->. apply H2a. apply elem_of_app. right. apply elem_of_cons. auto. }
        destruct He2 as (He2 & He & Hee).
        destruct (modify_marks this child s cg (set_temp 0) Hne Hcg
                    (same_but_marks_temp cg 0)) as (s1 & H1 & Hc1 & Hfr1 & _).
        assert (Hthis1 : gates s1 !! this =
                         Some (set_children (K1 ++ (e2, child) :: K2 ++ (e, child) :: R) g0))
          by (rewrite Hfr1 by auto; exact Hthis).
        pose proof (find_before_first e child K1 K2 ((e, child) :: R) e2 s1
                      ltac:(intros H; apply He; rewrite map_app; apply elem_of_app; auto)
                      Hee Hfirst) as Hfind.
        destruct (delete_child_step this child e2 s1 _ _ Hne Hthis1 Hc1)
          as (s2 & H2 & Hthis2 & Hc2 & Hfr2).
        pose proof Hthis2 as Hthis2'.
        cbn [children set_children] in Hthis2.
        rewrite (unlink_app e2 child K1 _ He2) in Hthis2.
        destruct (delete_child_step this child e s2 _ _ Hne Hthis2 Hc2)
          as (s3 & H3 & Hthis3 & Hc3 & Hfr3).
        cbn [children set_children] in Hthis3.
        rewrite (app_assoc K1 K2) in Hthis3.
        rewrite (unlink_app e child (K1 ++ K2) R He) in Hthis3.
        destruct (orphan_step child s3 _ Hc3) as (s4 & cg4 & H4 & Hc4 & Hl4 & Hfr4).
        assert (Hbody :
          (modify child (set_temp 0);;
           let* g := gate this in
           let* prev := find_before e (fun ca2 => st_ret (snd ca2 =? child)%nat)
                                    (children g) in
           match prev with
           | None => st_fail AssertFailed
           | Some ca2 =>
               delete_assoc (fst ca2) this (snd ca2);;
               delete_assoc e this child;;
               add_in_pstack_if_no_parents child
           end) s = Ok (tt, s4)).
        { rewrite (st_bind_run _ _ _ _ _ H1).
          rewrite (st_bind_run _ _ _ _ _ (gate_run s1 this _ Hthis1)).
          cbn [children set_children].
          rewrite (st_bind_run _ _ _ _ _ Hfind). cbn [fst snd].
          rewrite (st_bind_run _ _ _ _ _ H2).
          rewrite (st_bind_run _ _ _ _ _ H3). exact H4. }
        rewrite (st_bind_run _ _ _ _ _ Hbody).
        assert (Hframe : forall a, a <> this -> a <> child ->
                                   gates s4 !! a = gates s !! a).
        { intros a Hat Hac. rewrite Hfr4, Hfr3, Hfr2, Hfr1 by auto. reflexivity. }
        assert (Hthis4 : gates s4 !! this = Some (set_children ((K1 ++ K2) ++ R) g0)).
        { rewrite Hfr4 by auto. rewrite Hthis3. destruct g0; reflexivity. }
        assert (Hmk : same_but_marks cg cg4).
        { eapply same_but_marks_trans; [|apply same_but_links_marks; exact Hl4].
          apply same_but_marks_parents, same_but_marks_parents, same_but_marks_temp. }
        assert (Ht4 : temp cg4 = 0) by (rewrite (same_but_links_temp _ _ Hl4); reflexivity).
        assert (Hnotin : child ∉ map snd (K1 ++ K2)).
        { rewrite map_app. intros H. apply elem_of_app in H. destruct H as [H|H];
            [exact (Hfirst H)|].
          rewrite map_app in Hund. cbn [map snd] in Hund.
          rewrite List.filter_app in Hund. cbn [List.filter] in Hund.
          rewrite Hdc in Hund. cbn [negb] in Hund.
          apply NoDup_app in Hund. destruct Hund as (_ & _ & Hund).
          apply NoDup_cons in Hund. destruct Hund as [Hund _]. apply Hund.
          apply list_elem_of_In, List.filter_In. split; [apply list_elem_of_In, H|].
          rewrite Hdc. reflexivity. }
        destruct (IH (K1 ++ K2) s4) as (K' & s' & Hrun & Hthis' & Hk & Hsub & Hund' & Hpar).
        -- exact Hthis4.
        -- rewrite !map_app in Hnd |- *. cbn [map fst] in Hnd.
           rewrite map_app in Hnd. cbn [map fst] in Hnd.
           apply NoDup_app in Hnd. destruct Hnd as (N1 & N12 & N2).
           apply NoDup_cons in N2. destruct N2 as [_ N2].
           apply NoDup_app in N2. destruct N2 as (N2 & N23 & N3).
           apply NoDup_cons in N3. destruct N3 as [_ N3].
           rewrite ?map_app, <- ?app_assoc. apply NoDup_app. split; [exact N1|]. split.
           ++ intros x Hx Hx2. apply (N12 x Hx). apply elem_of_cons. right.
              apply elem_of_app in Hx2. apply elem_of_app.
              destruct Hx2 as [Hx2|Hx2]; [auto|]. right. apply elem_of_cons. auto.
           ++ apply NoDup_app. split; [exact N2|]. split; [|exact N3].
              intros x Hx Hx3. apply (N23 x Hx). apply elem_of_cons. auto.
        -- intros c Hc.
           destruct (Hch c) as (Hcne & cg' & Hcg' & Hdet' & Hmark').
           { rewrite !map_app in Hc |- *. cbn [map snd].
             rewrite !elem_of_app in Hc. rewrite ?elem_of_app, ?elem_of_cons, ?elem_of_app,
               ?elem_of_cons. tauto. }
           split; [exact Hcne|]. destruct (decide (c = child)) as [->|Hcc].
           ++ exists cg4. split; [exact Hc4|]. split.
              ** apply same_but_marks_fields in Hmk. destruct Hmk as (E & _).
                 rewrite E. congruence.
              ** intros _. rewrite Ht4. split; [discriminate | contradiction].
           ++ exists cg'. split; [rewrite Hframe by auto; exact Hcg'|].
              split; [exact Hdet'|]. intros Hdc'. rewrite (Hmark' Hdc').
              rewrite !map_app. cbn [map snd]. rewrite ?elem_of_app, ?elem_of_cons. tauto.
        -- rewrite map_app in Hund |- *. cbn [map snd] in Hund.
           eapply filter_nodup_remove. exact Hund.
        -- exists K', s'.
           split; [exact Hrun|]. split; [exact Hthis'|]. split.
           ++ eapply marks_kept_trans; [|exact Hk].
              eapply (marks_kept_one this child s s4 cg cg4); eassumption.
           ++ split.
              ** etransitivity; [exact Hsub|].
                 rewrite <- !app_assoc. cbn [app].
                 apply sublist_app; [reflexivity|]. apply sublist_cons.
                 apply sublist_app; [reflexivity|]. apply sublist_cons. reflexivity.
              ** split; [exact Hund'|]. intros sigma. rewrite Hpar.
                 rewrite <- !app_assoc. cbn [app]. rewrite !map_app. cbn [map snd].
                 rewrite !map_app. cbn [map snd]. symmetry. apply parity_remove_pair.
      * (* the first occurrence of a child is marked *)
        assert (Hdc : d child = false) by congruence.
        destruct (modify_marks this child s cg (set_temp 1) Hne Hcg
                    (same_but_marks_temp cg 1)) as (s1 & H1 & Hc1 & Hfr1 & Hk1).
        rewrite (st_bind_run _ _ _ _ _ H1).
        assert (Hnotin : child ∉ map snd K).
        { intros H. apply Et. apply (Hmark Hdc). exact H. }
        destruct (IH (K ++ [(e, child)]) s1)
          as (K' & s' & Hrun & Hthis' & Hk & Hsub & Hund' & Hpar).
        -- rewrite <- Hassoc. rewrite Hfr1 by auto. exact Hthis.
        -- rewrite <- Hassoc. exact Hnd.
        -- intros c Hc. rewrite <- Hassoc in Hc.
           destruct (Hch c Hc) as (Hcne & cg' & Hcg' & Hdet' & Hmark').
           split; [exact Hcne|]. destruct (decide (c = child)) as [->|Hcc].
           ++ exists (set_temp 1 cg). split; [exact Hc1|]. split; [cbn; congruence|].
              intros _. split; [intros _|reflexivity].
              rewrite map_app. apply elem_of_app. right. cbn.
              apply list_elem_of_singleton. reflexivity.
           ++ exists cg'. split; [rewrite Hfr1 by auto; exact Hcg'|].
              split; [exact Hdet'|]. intros Hdc'. rewrite (Hmark' Hdc').
              rewrite map_app, elem_of_app. cbn. rewrite list_elem_of_singleton. tauto.
        -- rewrite map_app. cbn [map snd]. apply filter_nodup_snoc; assumption.
        -- exists K', s'. split; [exact Hrun|]. split; [exact Hthis'|].
           split; [eapply marks_kept_trans; eassumption|].
           rewrite Hassoc. auto.
Qed.

End ParityLoop.

Lemma set_children_same (g : Gate) : set_children (children g) g = g.
Proof. destruct g; reflexivity. Qed.

Lemma sublist_map_snd (K K' : list (nat * nat)) (c : nat) :
  sublist K' K -> c ∈ map snd K' -> c ∈ map snd K.
Proof.
  intros Hsub Hc. apply list_elem_of_fmap in Hc. destruct Hc as (x & -> & Hx).
  apply list_elem_of_fmap. exists x. split; [reflexivity|].
  eapply elem_of_sublist; eassumption.
Qed.

Lemma parity_function (sigma : nat -> bool) (t : GateType) (L U : Z) (cs : list nat) :
  t = tODD \/ t = tEVEN ->
  gate_function t L U (map sigma cs) =
    Some (if is_type t tODD then parity sigma cs else negb (parity sigma cs)).
Proof.
  unfold parity. intros [-> | ->]; cbn; [reflexivity|].
  rewrite Nat.negb_odd. reflexivity.
Qed.

(** X20: [remove_parity_duplicate_children] at an ODD or EVEN gate removes
    the undetermined children in pairs, so that the function of the gate
    is the same under every valuation of the gates: the children that are
    left are children of before, in their order, no undetermined child is
    left twice, a gate left without children has become the constant
    (ODD() = F, EVEN() = T), and the result is [false] only if the gate is
    determined to the other value, which no valuation gives it.  The other
    gates change in their marks, parent associations and place in the stack
    only. *)
Theorem parity_duplicates_removed (bc : BC) (this : nat) (g : Gate) :
  gates bc !! this = Some g -> type g = tODD \/ type g = tEVEN ->
  NoDup (map fst (children g)) ->
  (forall c, c ∈ child_gates g -> c <> this /\ is_Some (gates bc !! c)) ->
  (forall p, p ∈ map snd (parents g) -> p <> this /\ is_Some (gates bc !! p)) ->
  exists r bc' g',
    remove_parity_duplicate_children this bc = Ok (r, bc') /\
    gates bc' !! this = Some g' /\ marks_kept this bc bc' /\
    sublist (children g') (children g) /\
    NoDup (undetermined_of (gates bc) (child_gates g')) /\
    (r = false ->
     determined g = true /\
     forall sigma, gate_function (type g) (tmin g) (tmax g)
                     (map sigma (child_gates g)) <> Some (value g)) /\
    (r = true ->
     (determined g = true -> determined g' = true /\ value g' = value g) /\
     forall sigma,
       gate_function (type g') (tmin g') (tmax g') (map sigma (child_gates g')) =
       gate_function (type g) (tmin g) (tmax g) (map sigma (child_gates g))).
Proof.
  intros Hg Hty Hnd Hch Hpar. unfold remove_parity_duplicate_children.
  rewrite (st_bind_run _ _ _ _ _ (gate_run bc this g Hg)).
  replace (negb (is_type (type g) tODD || is_type (type g) tEVEN)) with false
    by (destruct Hty as [-> | ->]; reflexivity).
  (* the marks are cleared *)
  destruct (set_temps_loop this 0 (children g) bc Hch)
    as (s1 & H1 & Hthis1 & Hk1 & Ht1 & _).
  assert (Hset1 : set_temps this 0 bc = Ok (tt, s1))
    by (unfold set_temps; rewrite (st_bind_run _ _ _ _ _ (gate_run bc this g Hg));
        exact H1).
  rewrite (st_bind_run _ _ _ _ _ Hset1). rewrite Hg in Hthis1.
  (* the loop *)
  destruct (parity_duplicates_loop this g (det_of (gates bc)) (children g) [] s1)
    as (K' & s2 & H2 & Hthis2 & Hk2 & Hsub & Hund & Hparity).
  { cbn [app]. rewrite set_children_same. exact Hthis1. }
  { exact Hnd. }
  { intros c Hc. cbn [app] in Hc. destruct (Hch c Hc) as (Hne & cg & Hcg).
    split; [exact Hne|]. destruct (Hk1 c cg Hne Hcg) as (cg1 & Hcg1 & S1).
    exists cg1. split; [exact Hcg1|]. split.
    - unfold det_of. rewrite Hcg. apply same_but_marks_fields in S1. tauto.
    - intros _. rewrite (Ht1 c cg1 Hc Hcg1). cbn. split; [discriminate|].
      intros H. apply elem_of_nil in H. destruct H. }
  { cbn. apply NoDup_nil_2. }
  cbn [app] in Hsub, Hparity.
  rewrite (st_bind_run _ _ _ _ _ H2).
  assert (Hk12 : marks_kept this bc s2) by (eapply marks_kept_trans; eassumption).
  assert (HchK : forall c, c ∈ map snd K' -> c <> this /\ is_Some (gates bc !! c)).
  { intros c Hc. apply Hch. eapply sublist_map_snd; eassumption. }
  (* the marks are cleared again *)
  destruct (set_temps_loop this 0 K' s2) as (s3 & H3 & Hthis3 & Hk3 & _ & _).
  { intros c Hc. destruct (HchK c Hc) as (Hne & Hs). split; [exact Hne|].
    eapply marks_kept_is_Some; eassumption. }
  assert (Hset3 : set_temps this 0 s2 = Ok (tt, s3))
    by (unfold set_temps; rewrite (st_bind_run _ _ _ _ _ (gate_run s2 this _ Hthis2));
        exact H3).
  rewrite (st_bind_run _ _ _ _ _ Hset3). rewrite Hthis2 in Hthis3.
  assert (Hk13 : marks_kept this bc s3) by (eapply marks_kept_trans; eassumption).
  assert (Hch3 : forall c, c ∈ map snd K' -> c <> this /\ is_Some (gates s3 !! c)).
  { intros c Hc. destruct (HchK c Hc) as (Hne & Hs). split; [exact Hne|].
    eapply marks_kept_is_Some; eassumption. }
  assert (Hfun : forall sigma,
            gate_function (type g) (tmin g) (tmax g) (map sigma (map snd K')) =
            gate_function (type g) (tmin g) (tmax g) (map sigma (child_gates g))).
  { intros sigma. rewrite !(parity_function sigma) by exact Hty.
    unfold child_gates. rewrite Hparity. reflexivity. }
  unfold no_children.
  rewrite (st_bind_run _ _ s3 s3 (match K' with [] => true | _ => false end))
    by (rewrite (st_bind_run _ _ _ _ _ (gate_run s3 this _ Hthis3)); reflexivity).
  destruct K' as [|k K'].
  - (* no child is left *)
    rewrite (st_bind_run _ _ _ _ _ (gate_run s3 this _ Hthis3)).
    cbn [type set_children].
    set (v := negb (is_type (type g) tODD)).
    assert (Hrun : (match type g with
                    | tODD => constant_unless_conflict this false
                    | tEVEN => constant_unless_conflict this true
                    | _ => st_fail AssertFailed
                    end) = constant_unless_conflict this v)
      by (unfold v; destruct Hty as [-> | ->]; reflexivity).
    rewrite Hrun. unfold constant_unless_conflict.
    rewrite (st_bind_run _ _ _ _ _ (gate_run s3 this _ Hthis3)).
    cbn [determined value set_children].
    assert (Hnone : forall sigma,
              gate_function (type g) (tmin g) (tmax g) (map sigma (child_gates g)) = Some v).
    { intros sigma. rewrite <- Hfun. cbn [map]. unfold v.
      destruct Hty as [-> | ->]; reflexivity. }
    destruct (determined g && negb (eqb (value g) v)) eqn:Econf.
    + exists false, s3. eexists. split; [reflexivity|]. split; [exact Hthis3|].
      split; [exact Hk13|]. split; [cbn; apply sublist_nil_l|].
      split; [cbn; apply NoDup_nil_2|]. split; [|intros E; discriminate E].
      intros _. apply andb_true_iff in Econf. destruct Econf as [Hd Hv].
      split; [exact Hd|]. intros sigma. rewrite Hnone. intros [= E].
      rewrite <- E in Hv. rewrite eqb_reflx in Hv. discriminate Hv.
    + destruct (transform_into_constant_run this v s3 _ Hthis3) as (s4 & H4 & Ht4 & Hk4).
      { cbn. intros Hd. rewrite Hd in Econf. cbn in Econf.
        apply negb_false_iff, eqb_prop in Econf. exact Econf. }
      { cbn. intros c Hc. apply elem_of_nil in Hc. destruct Hc. }
      destruct (add_parents_in_pstack_run this s4 _ Ht4) as (s5 & H5 & Ht5 & Hk5).
      { cbn. intros p Hp. destruct (Hpar p Hp) as (Hne & Hs). split; [exact Hne|].
        eapply others_kept_is_Some; [exact Hk4 | exact Hne |].
        eapply marks_kept_is_Some; eassumption. }
      rewrite (st_bind_run _ _ _ _ _ H4), (st_bind_run _ _ _ _ _ H5).
      exists true, s5. eexists. split; [reflexivity|]. split; [exact Ht5|].
      split.
      { eapply marks_kept_trans; [exact Hk13|]. apply others_kept_marks.
        eapply others_kept_trans; eassumption. }
      split; [cbn; apply sublist_nil_l|]. split; [cbn; apply NoDup_nil_2|].
      split; [intros E; discriminate E|]. intros _. split.
      * intros Hd. cbn. split; [reflexivity|]. rewrite Hd in Econf. cbn in Econf.
        apply negb_false_iff, eqb_prop in Econf. auto.
      * intros sigma. rewrite Hnone. cbn. destruct v; reflexivity.
  - (* children are left *)
    rewrite (st_bind_run _ _ _ _ _ (count_children_of_run this s3 _ Hthis3)).
    assert (Hundet : NoDup (undetermined_of (gates bc) (map snd (k :: K'))))
      by exact Hund.
    destruct (count_children (set_children (k :: K') g) =? 1).
    + destruct (add_in_pstack_this this s3 _ Hthis3) as (s4 & H4 & Ht4 & Hk4).
      rewrite (st_bind_run _ _ _ _ _ H4).
      exists true, s4. eexists. split; [reflexivity|]. split; [exact Ht4|].
      split; [eapply marks_kept_trans; [exact Hk13 | apply others_kept_marks, Hk4]|].
      split; [exact Hsub|]. split; [exact Hundet|].
      split; [intros E; discriminate E|]. intros _. split; [cbn; auto|].
      intros sigma. apply Hfun.
    + unfold skip. rewrite st_bind_ret.
      exists true, s3. eexists. split; [reflexivity|]. split; [exact Hthis3|].
      split; [exact Hk13|]. split; [exact Hsub|]. split; [exact Hundet|].
      split; [intros E; discriminate E|]. intros _. split; [cbn; auto|].
      intros sigma. apply Hfun.
Qed.

(** The theorem at [ODD(x, x, y)] of [ex_parity]. *)
Lemma parity_duplicates_removed_witness :
  exists r bc' g',
    remove_parity_duplicate_children 2 ex_parity = Ok (r, bc') /\
    gates bc' !! 2%nat = Some g' /\ marks_kept 2 ex_parity bc' /\
    sublist (children g') [(0%nat, 0%nat); (1%nat, 0%nat); (2%nat, 1%nat)] /\
    NoDup (undetermined_of (gates ex_parity) (child_gates g')) /\
    (r = false ->
     false = true /\
     forall sigma, gate_function tODD 0 0 (map sigma [0%nat; 0%nat; 1%nat])
                   <> Some false) /\
    (r = true ->
     (false = true -> determined g' = true /\ value g' = false) /\
     forall sigma,
       gate_function (type g') (tmin g') (tmax g') (map sigma (child_gates g')) =
       gate_function tODD 0 0 (map sigma [0%nat; 0%nat; 1%nat])).
Proof.
  apply (parity_duplicates_removed ex_parity 2
           (gate_of tODD 2 [(0%nat, 0%nat); (1%nat, 0%nat); (2%nat, 1%nat)])).
  - reflexivity.
  - left. reflexivity.
  - cbn. repeat (apply NoDup_cons_2; [rewrite ?elem_of_cons, ?elem_of_nil; lia|]).
    apply NoDup_nil_2.
  - intros c Hc. cbv in Hc.
    repeat (apply elem_of_cons in Hc; destruct Hc as [-> | Hc];
            [split; [lia | vm_compute; eauto]|]).
    apply elem_of_nil in Hc. destruct Hc.
  - intros p Hp. cbv in Hp. apply elem_of_nil in Hp. destruct Hp.
Defined.

(** ** [cnf_normalize] and the translation into clauses *)


Lemma map_children_neg_error (hp : heap) (notless : bool) (cs : list nat) (e : error) :
  map_children (child_neg_lit hp notless) cs = Err e -> e = NullPointer.
Proof.
  induction cs as [|c cs IH]; cbn [map_children]; [discriminate|].
  unfold child_neg_lit at 1, deref, nth_child.
  destruct (hp !! c) as [cg|]; cbn; [|intros [= <-]; reflexivity].
  destruct (notless && is_type (type cg) tNOT).
  - destruct (child_gates cg !! 0%nat) as [gc|]; cbn; [|intros [= <-]; reflexivity].
    destruct (hp !! gc) as [gcg|]; cbn; [|intros [= <-]; reflexivity].
    destruct (map_children (child_neg_lit hp notless) cs); cbn; [discriminate|].
    intros [= <-]. apply IH. reflexivity.
  - cbn. destruct (map_children (child_neg_lit hp notless) cs); cbn; [discriminate|].
    intros [= <-]. apply IH. reflexivity.
Qed.

Lemma child_lit_error (hp : heap) (notless : bool) (c : nat) (e : error) :
  child_lit hp notless c = Err e -> e = NullPointer.
Proof.
  intros H. apply (map_children_error hp notless [c] e). cbn [map_children].
  rewrite H. reflexivity.
Qed.

Lemma nth_child_error (g : Gate) (n : nat) (e : error) :
  nth_child g n = Err e -> e = NullPointer.
Proof.
  unfold nth_child. destruct (child_gates g !! n); cbn; [discriminate|].
  intros [= <-]. reflexivity.
Qed.

Lemma deref_error (hp : heap) (a : nat) (e : error) :
  deref hp a = Err e -> e = NullPointer.
Proof.
  unfold deref. destruct (hp !! a); cbn; [discriminate|]. intros [= <-]. reflexivity.
Qed.

(** Steps that stop with a null pointer only do not make an internal
    error. *)
Ltac null_steps :=
  repeat match goal with
         | |- context [rbind ?r _] =>
             let E := fresh "E" in
             destruct r as [?|?e] eqn:E; cbn [rbind];
             [| first [ apply map_children_error in E
                      | apply map_children_neg_error in E
                      | apply child_lit_error in E
                      | apply nth_child_error in E
                      | apply deref_error in E ];
                subst; discriminate ]
         end.

(** A gate in the CNF normal form is translated without an internal
    error. *)
Lemma cnf_form_translates (hp : heap) (this : nat) (g : Gate) (notless : bool) :
  hp !! this = Some g -> cnf_form hp g ->
  (exists n, cnf_count_clauses hp this notless = Ok n) /\
  cnf_get_clauses hp this notless <> Err InternalError.
Proof.
  intros Hg (Href & Hth & Hat & Hun & Hde & HcT & HcF & Hnot & Hbin).
  assert (Hdr : deref hp this = Ok g) by (unfold deref; rewrite Hg; reflexivity).
  unfold cnf_count_clauses, cnf_get_clauses. rewrite Hdr. cbn [rbind].
  destruct (type g) eqn:Ety; try congruence.
  - (* EQUIV *)
    rewrite (Hbin ltac:(auto)). cbn. split; [eauto|].
    unfold binary_lits. rewrite (Hbin ltac:(auto)). cbn [Z.eqb negb Pos.eqb].
    null_steps. discriminate.
  - (* OR *)
    split; [eauto|]. null_steps. discriminate.
  - (* AND *)
    split; [eauto|]. null_steps. discriminate.
  - (* EVEN *)
    rewrite (Hbin ltac:(auto)). cbn. split; [eauto|].
    unfold binary_lits. rewrite (Hbin ltac:(auto)). cbn [Z.eqb negb Pos.eqb].
    null_steps. discriminate.
  - (* ODD *)
    rewrite (Hbin ltac:(auto)). cbn. split; [eauto|].
    unfold binary_lits. rewrite (Hbin ltac:(auto)). cbn [Z.eqb negb Pos.eqb].
    null_steps. discriminate.
  - (* ITE *)
    split; [eauto|]. unfold ite_lits. null_steps. discriminate.
  - (* NOT *)
    destruct (Hnot eq_refl) as (Hd & c & cg & Hc & Hcg & Hty).
    split; [destruct notless; eauto|].
    assert (Hdc : deref hp c = Ok cg) by (unfold deref; rewrite Hcg; reflexivity).
    rewrite Hd, Hc. cbn [rbind]. rewrite Hdc. cbn [rbind].
    rewrite (proj2 (is_type_false _ _) Hty). destruct notless; discriminate.
  - (* TRUE *)
    destruct (HcT eq_refl) as [-> ->]. cbn. split; [eauto | discriminate].
  - (* FALSE *)
    destruct (HcF eq_refl) as [-> ->]. cbn. split; [eauto | discriminate].
  - (* VAR *)
    split; [eauto | discriminate].
Qed.

Lemma while_head_exit {X R : Type} (head : M (option X)) (body : X -> M (option R)) :
  readonly head ->
  (forall x s r s', body x s = Ok (r, s') -> r = None) ->
  forall (fuel : nat) (s s' : BC) (r : option R),
  while_head fuel head body s = Ok (r, s') ->
  r = None /\ head s' = Ok (None, s').
Proof.
  intros Hh Hb. induction fuel as [|fuel IH]; intros s s' r H; cbn [while_head] in H.
  - apply st_bind_Ok in H. destruct H as (h & s1 & H1 & H).
    pose proof (Hh _ _ _ H1) as ->. destruct h as [x|]; [discriminate H|].
    injection H as <- <-. auto.
  - apply st_bind_Ok in H. destruct H as (h & s1 & H1 & H).
    pose proof (Hh _ _ _ H1) as ->. destruct h as [x|].
    + apply st_bind_Ok in H. destruct H as (r1 & s2 & H2 & H).
      pose proof (Hb _ _ _ _ H2) as ->. eapply IH. exact H.
    + injection H as <- <-. auto.
Qed.

Lemma hand_children_over_empty (this to : nat) (s s' : BC) (u : unit) :
  hand_children_over this to s = Ok (u, s') ->
  exists g', gates s' !! this = Some g' /\ children g' = [].
Proof.
  unfold hand_children_over, while_children. intros H.
  apply st_bind_Ok in H. destruct H as (r & s1 & H & Hret).
  injection Hret as _ <-.
  apply st_bind_Ok in H. destruct H as (g & s0 & Hg & H).
  apply gate_Ok in Hg. destruct Hg as [-> Hg].
  apply while_head_exit in H.
  - destruct H as [_ H]. apply st_bind_Ok in H. destruct H as (g' & s2 & Hg' & H).
    apply gate_Ok in Hg'. destruct Hg' as [-> Hg']. injection H as H.
    exists g'. split; [exact Hg'|]. destruct (children g'); [reflexivity | discriminate H].
  - apply readonly_bind; [apply readonly_gate | intros; apply readonly_ret].
  - intros x sa r0 sb Hb. apply st_bind_Ok in Hb. destruct Hb as (? & ? & _ & Hb).
    apply st_bind_Ok in Hb. destruct Hb as (? & ? & _ & Hb). injection Hb as <- _.
    reflexivity.
Qed.

(** [add_child] gives its gate one child more, whatever the child is. *)
Lemma add_child_length (this c : nat) (s s' : BC) (u : unit) (g : Gate) :
  add_child this c s = Ok (u, s') -> gates s !! this = Some g ->
  exists g', gates s' !! this = Some g' /\
             length (children g') = S (length (children g)).
Proof.
  unfold add_child, link_parent, link_child. intros H Hg.
  apply st_bind_Ok in H. destruct H as (e & s1 & H1 & H). injection H1 as <- <-.
  apply st_bind_Ok in H. destruct H as (u1 & s2 & H2 & H).
  apply modify_Ok in H2. destruct H2 as (g2 & Hg2 & ->). cbn in Hg2.
  rewrite Hg in Hg2. injection Hg2 as <-.
  apply modify_Ok in H. destruct H as (g3 & Hg3 & ->). cbn in Hg3 |- *.
  destruct (decide (c = this)) as [->|Hne].
  - rewrite lookup_insert_eq in Hg3. injection Hg3 as <-.
    rewrite lookup_insert_eq. eexists. split; reflexivity.
  - rewrite lookup_insert_ne by auto. rewrite lookup_insert_eq.
    eexists. split; reflexivity.
Qed.

Section CnfForm.

Context (ops : BCOps) (this : nat) (notless : bool).

Hypothesis Hinstall : forall a, fixes this (install_gate ops a).

Lemma fixes_install_new (t : GateType) (stacked : bool) :
  fixes this (install_new ops t stacked).
Proof.
  unfold install_new. apply fixes_bind; [apply fixes_new_gate|]. intros a.
  apply fixes_bind; [apply Hinstall|]. intros _.
  apply fixes_bind; [|intros; apply fixes_ret].
  destruct stacked; [apply fixes_add_in_pstack | apply fixes_ret].
Qed.

Lemma csettled_form (bc' : BC) (g' : Gate) :
  gates bc' !! this = Some g' -> cnf_form (gates bc') g' ->
  cnf_settled this notless bc'.
Proof.
  intros Hg Hf. exists g'. split; [exact Hg|]. right. right.
  split; [exact Hf|]. eapply cnf_form_translates; eassumption.
Qed.

Lemma csettled_plain (bc' : BC) (g' : Gate) :
  gates bc' !! this = Some g' ->
  type g' = tOR \/ type g' = tAND \/ type g' = tVAR \/ type g' = tITE ->
  cnf_settled this notless bc'.
Proof.
  intros Hg Hty. eapply csettled_form; [exact Hg|].
  unfold cnf_form. destruct Hty as [E|[E|[E|E]]]; rewrite E;
    split_and!; try discriminate; intros [H|[H|H]]; discriminate H.
Qed.

Lemma csettled_const (bc' : BC) (g' : Gate) (v : bool) :
  gates bc' !! this = Some g' -> type g' = (if v then tTRUE else tFALSE) ->
  determined g' = true -> value g' = v ->
  cnf_settled this notless bc'.
Proof.
  intros Hg Hty Hd Hv. eapply csettled_form; [exact Hg|].
  unfold cnf_form. rewrite Hty, Hd, Hv.
  destruct v; split_and!; try discriminate; auto; intros [H|[H|H]]; discriminate H.
Qed.

Lemma csettled_binary (bc' : BC) (g' : Gate) :
  gates bc' !! this = Some g' ->
  type g' = tEQUIV \/ type g' = tEVEN \/ type g' = tODD ->
  count_children g' = 2 ->
  cnf_settled this notless bc'.
Proof.
  intros Hg Hty Hn. eapply csettled_form; [exact Hg|].
  unfold cnf_form. destruct Hty as [E|[E|E]]; rewrite E;
    split_and!; try discriminate; intros _; exact Hn.
Qed.

Lemma csettled_stack (s s' : BC) (u : unit) :
  add_in_pstack this s = Ok (u, s') -> cnf_settled this notless s'.
Proof.
  intros H. apply add_in_pstack_Ok in H. destruct H as (g' & Hg' & Hp).
  exists g'. auto.
Qed.

Lemma csettled_deleted (s bc' : BC) (u : unit) :
  modify this (set_type tDELETED) s = Ok (u, bc') -> cnf_settled this notless bc'.
Proof.
  intros Hm. apply modify_Ok in Hm. destruct Hm as (gx & Hgx & ->).
  eexists. split; [cbn; apply lookup_insert_eq|]. right. left. reflexivity.
Qed.

Lemma csettled_constant (s bc' : BC) (gs : Gate) (v fl : bool) :
  gates s !! this = Some gs ->
  (forall c, c ∈ child_gates gs -> c <> this /\ is_Some (gates s !! c)) ->
  cnf_constant this v fl s = Ok (true, bc') -> cnf_settled this notless bc'.
Proof.
  intros Hg Hch Hrun.
  destruct (cnf_constant_run this v fl s gs Hg Hch) as (r & s' & g' & Hr & Hg' & _ & Hres).
  rewrite Hr in Hrun. injection Hrun as -> ->.
  destruct (determined gs && negb (eqb (value gs) v)); [destruct Hres as [E _]; discriminate E|].
  destruct Hres as [_ ->].
  eapply (csettled_const _ _ v); [exact Hg'| | |]; destruct fl, v; reflexivity.
Qed.

Lemma csettled_retyped (s bc' : BC) (f : Gate -> Gate) :
  (modify this f;; add_in_pstack this;; st_ret true) s = Ok (true, bc') ->
  cnf_settled this notless bc'.
Proof.
  intros Hrun. apply st_bind_Ok in Hrun. destruct Hrun as (u & s1 & _ & Hrun).
  apply st_bind_Ok in Hrun. destruct Hrun as (u2 & s2 & Hp & Hrun).
  injection Hrun as <-. eapply csettled_stack; eassumption.
Qed.

(** The gate has got the type [t] and is then changed by steps that keep
    the type. *)
Lemma csettled_kept (s s' : BC) (g : Gate) :
  gates s !! this = Some g -> type g = tOR \/ type g = tAND ->
  gate_kept this s s' -> cnf_settled this notless s'.
Proof.
  intros Hg Hty Hk. destruct (Hk g Hg) as (g' & Hg' & Et & _).
  eapply csettled_plain; [exact Hg'|]. rewrite Et. tauto.
Qed.

(** The gate gets the type [t] by an assignment and is then changed by
    steps that keep the type. *)
Lemma csettled_retyped_kept (s s' : BC) (gx : Gate) (t : GateType) :
  t = tOR \/ t = tAND ->
  gate_kept this (set_gates (<[this := set_type t gx]> (gates s)) s) s' ->
  cnf_settled this notless s'.
Proof.
  intros Ht Hk.
  eapply (csettled_kept _ _ (set_type t gx)); [|exact Ht|exact Hk].
  cbn. apply lookup_insert_eq.
Qed.

End CnfForm.

Section Keeps.

Context (ops : BCOps) (this : nat).

Hypothesis Hinstall : forall a, fixes this (install_gate ops a).

Lemma visited_kept (s s' : BC) (g : Gate) :
  gates s !! this = Some g -> visited g -> gate_kept this s s' ->
  exists g', gates s' !! this = Some g' /\ visited g' /\ type g' = type g.
Proof.
  intros Hg [Ht Hu] Hk. destruct (Hk g Hg) as (g' & Hg' & Et & Em).
  exists g'. split; [exact Hg'|]. split; [|exact Et]. split; congruence.
Qed.

Lemma spares_fixes {A : Type} (m : M A) : fixes this m -> spares this m.
Proof. intros H s r s' g _ _ E. eapply H, E. Qed.

Lemma spares_bind {A B : Type} (m : M A) (k : A -> M B) :
  spares this m -> (forall a, spares this (k a)) -> spares this (st_bind m k).
Proof.
  intros Hm Hk s r s' g Hg Hrw H. apply st_bind_Ok in H.
  destruct H as (a & s1 & H1 & H2).
  pose proof (Hm _ _ _ _ Hg Hrw H1) as K1.
  destruct (visited_kept _ _ _ Hg Hrw K1) as (g1 & Hg1 & Hrw1 & _).
  eapply gate_kept_trans; [exact K1 | eapply Hk; eassumption].
Qed.

Lemma spares_for_each {X : Type} (l : list X) (body : X -> M unit) :
  (forall x, spares this (body x)) -> spares this (for_each l body).
Proof.
  intros Hb. induction l as [|x l IH]; cbn [for_each].
  - apply spares_fixes, fixes_ret.
  - apply spares_bind; [apply Hb | intros _; exact IH].
Qed.

Lemma fixes_delete_gate (a : nat) : a <> this -> fixes this (delete_gate a).
Proof.
  intros Hne. unfold delete_gate.
  apply fixes_bind; [apply fixes_readonly, readonly_gate|]. intros g.
  apply fixes_bind.
  { unfold st_assert. destruct (negb (in_pstack g)); [apply fixes_ret | apply fixes_fail]. }
  intros _. apply fixes_bind.
  { unfold st_assert. destruct (index g =? UINT_MAX); [apply fixes_ret | apply fixes_fail]. }
  intros _. apply fixes_bind; [apply fixes_remove_all_children|]. intros _.
  apply fixes_bind.
  { apply fixes_while_parents. intros x.
    apply fixes_bind; [apply fixes_delete_assoc | intros; apply fixes_ret]. }
  intros _. apply fixes_bind; [apply fixes_modify; intros E; congruence|]. intros _.
  intros s r s' [= _ <-] g0 Hg0. cbn. rewrite lookup_delete_ne by auto. eauto.
Qed.

(** The last loop of the ATLEAST rewriting frees the gates of the array
    that were not used. *)
Lemma spares_cleanup (a : nat) :
  spares this (let* ag := gate a in
              if is_type (type ag) tUNDEF then delete_gate a else skip).
Proof.
  intros s r s' g Hg Hrw H. apply st_bind_Ok in H. destruct H as (ag & s1 & Ha & H).
  apply gate_Ok in Ha. destruct Ha as [-> Ha].
  destruct (is_type (type ag) tUNDEF) eqn:Et.
  - apply is_type_true in Et. eapply fixes_delete_gate; [|exact H].
    intros ->. rewrite Hg in Ha. injection Ha as <-. destruct Hrw as [_ Hu]. auto.
  - injection H as _ <-. apply gate_kept_refl.
Qed.

Ltac fixes_other :=
  first [ apply fixes_modify; intros ?E; congruence
        | apply fixes_remove_all_children
        | apply fixes_add_child
        | apply fixes_add_in_pstack
        | apply fixes_new_gate2
        | apply Hinstall
        | apply fixes_readonly, readonly_cell
        | apply fixes_readonly, readonly_at_index
        | apply fixes_ret ].

(** A round of the loop at a gate that was visited only pops the pair; a
    round at another gate does not touch the gate at [this]. *)
Lemma spares_rounds (childs : list nat) (array : list (list nat)) :
  forall (fuel : nat) (todo : list (Z * Z)),
  spares this (atleast_rounds ops fuel this childs array todo).
Proof.
  induction fuel as [|fuel IH]; intros [|[i j] todo]; cbn [atleast_rounds];
    try (apply spares_fixes; first [apply fixes_ret | apply fixes_fail]).
  apply spares_bind; [apply spares_fixes; fixes_other|]. intros a.
  intros s r s' g Hg Hrw H. apply st_bind_Ok in H. destruct H as (ag & s1 & Ha & H).
  apply gate_Ok in Ha. destruct Ha as [-> Ha].
  destruct (negb (temp ag =? 0)) eqn:Et; [eapply IH; eassumption|].
  assert (Hne : a <> this).
  { intros ->. rewrite Hg in Ha. injection Ha as <-. destruct Hrw as [Ht _].
    rewrite Ht in Et. discriminate Et. }
  clear Ha Et. revert s r s' g Hg Hrw H.
  match goal with
  | |- forall s r s' g, _ -> _ -> ?m s = _ -> _ => change (spares this m)
  end.
  apply spares_bind; [apply spares_fixes; fixes_other|]. intros _.
  apply spares_bind.
  { apply spares_fixes. destruct (negb (a =? this)%nat); [|apply fixes_ret].
    apply fixes_bind; [apply Hinstall | intros _; apply fixes_add_in_pstack]. }
  intros _.
  destruct (i =? j); [destruct (i =? 1)|destruct (i =? 1)];
    repeat first [ apply IH
                 | apply spares_bind; [apply spares_fixes; fixes_other | intros ?] ].
Qed.

(** The gate is marked, gets the type [t] and is then left alone. *)
Lemma retyped_then_kept {A : Type} (t : GateType) (rest : M A) (s s' : BC)
    (g : Gate) (r : A) :
  gates s !! this = Some g -> temp g = 1 -> t <> tUNDEF -> spares this rest ->
  (modify this (set_type t);; rest) s = Ok (r, s') ->
  exists g', gates s' !! this = Some g' /\ visited g' /\ type g' = t.
Proof.
  intros Hg Ht Hu Hk H. apply st_bind_Ok in H. destruct H as (u & s1 & Hm & H).
  apply modify_Ok in Hm. destruct Hm as (g0 & Hg0 & ->).
  rewrite Hg in Hg0. injection Hg0 as <-.
  set (s1 := set_gates (<[this := set_type t g]> (gates s)) s) in H.
  assert (Hg1 : gates s1 !! this = Some (set_type t g)) by (cbn; apply lookup_insert_eq).
  assert (Hv : visited (set_type t g)) by (split; [exact Ht | exact Hu]).
  apply (visited_kept s1 s' _ Hg1 Hv). eapply Hk; eassumption.
Qed.

(** The first round of the loop is at the gate itself, which becomes an OR
    or an AND gate; the other rounds keep it. *)
Lemma atleast_first_round (childs : list nat) (array : list (list nat))
    (fuel : nat) (i j : Z) (s s' : BC) (g : Gate) (u : unit) :
  (forall s0, cell array i j s0 = Ok (this, s0)) ->
  (i =? 1) = false ->
  gates s !! this = Some g -> temp g = 0 ->
  atleast_rounds ops (S fuel) this childs array [(i, j)] s = Ok (u, s') ->
  exists g', gates s' !! this = Some g' /\ visited g' /\
             (type g' = tOR \/ type g' = tAND).
Proof.
  intros Hcell Hi Hg Ht H. cbn [atleast_rounds] in H.
  rewrite (st_bind_run _ _ _ _ _ (Hcell s)) in H.
  rewrite (st_bind_run _ _ _ _ _ (gate_run s this g Hg)) in H.
  rewrite Ht in H. cbn [Z.eqb negb] in H.
  rewrite (st_bind_run _ _ _ _ _ (modify_run s this g _ Hg)) in H.
  rewrite Nat.eqb_refl in H. cbn [negb] in H.
  assert (Hskip : forall s0 : BC, skip s0 = Ok (tt, s0)) by reflexivity.
  rewrite (st_bind_run _ _ _ _ _ (Hskip _)) in H. clear Hskip. rewrite Hi in H.
  set (s1 := set_gates (<[this := set_temp 1 g]> (gates s)) s) in H.
  assert (Hg1 : gates s1 !! this = Some (set_temp 1 g)) by (cbn; apply lookup_insert_eq).
  destruct (i =? j).
  - assert (Hk : exists g', gates s' !! this = Some g' /\ visited g' /\ type g' = tAND).
    { eapply (retyped_then_kept tAND); [exact Hg1 | reflexivity | discriminate | | exact H].
      repeat first [ apply spares_rounds
                   | apply spares_bind; [apply spares_fixes; fixes_other | intros ?] ]. }
    destruct Hk as (g' & Hg' & Hrw & Ety). eauto.
  - apply st_bind_Ok in H. destruct H as (c & s2 & H2 & H).
    pose proof (readonly_at_index _ _ _ _ _ H2) as ->.
    apply st_bind_Ok in H. destruct H as (b & s3 & H3 & H).
    pose proof (readonly_cell _ _ _ _ _ _ H3) as ->.
    apply st_bind_Ok in H. destruct H as (ng & s4 & H4 & H).
    apply st_bind_Ok in H. destruct H as (u5 & s5 & H5 & H).
    apply st_bind_Ok in H. destruct H as (u6 & s6 & H6 & H).
    assert (K : gate_kept this s1 s6).
    { eapply gate_kept_trans; [eapply fixes_new_gate2, H4|].
      eapply gate_kept_trans; [eapply Hinstall, H5|].
      eapply fixes_add_in_pstack, H6. }
    destruct (K _ Hg1) as (g6 & Hg6 & _ & Et6).
    assert (Hk : exists g', gates s' !! this = Some g' /\ visited g' /\ type g' = tOR).
    { eapply (retyped_then_kept tOR); [exact Hg6 | exact Et6 | discriminate | | exact H].
      repeat first [ apply spares_rounds
                   | apply spares_bind; [apply spares_fixes; fixes_other | intros ?] ]. }
    destruct Hk as (g' & Hg' & Hrw & Ety). eauto.
Qed.

End Keeps.

(** The gate itself is the last element of the last row of the array. *)
Lemma cell_alter (array : list (list nat)) (i : Z) (k this old : nat) (s s' : BC) :
  cell array i (Z.of_nat k) s = Ok (old, s') ->
  forall s0, cell (alter (fun row => <[k := this]> row) (Z.to_nat i) array)
                  i (Z.of_nat k) s0 = Ok (this, s0).
Proof.
  unfold cell, at_index. intros H s0. rewrite length_alter.
  destruct ((i <? 0) || (Z.of_nat (length array) <=? i)); [discriminate H|].
  rewrite list_lookup_alter_eq.
  destruct (array !! Z.to_nat i) as [row|]; [|discriminate H].
  cbn [fmap option_fmap option_map]. rewrite st_bind_ret in H |- *.
  rewrite length_insert.
  destruct ((Z.of_nat k <? 0) || (Z.of_nat (length row) <=? Z.of_nat k)) eqn:E;
    [discriminate H|].
  apply orb_false_iff in E. destruct E as [_ E]. apply Z.leb_gt in E.
  rewrite Nat2Z.id. rewrite list_lookup_insert_eq by lia. reflexivity.
Qed.

(** X21: when [cnf_normalize] returns [true] at a gate, the gate is on the
    stack again to be normalized once more, or it is deleted, or it is in
    the CNF normal form: it is no REF, THRESHOLD or ATLEAST gate, a constant
    has its value, a NOT gate is undetermined over a child that is not a NOT
    gate, an EQUIV, EVEN or ODD gate has two children, and then
    [cnf_count_clauses] counts its clauses and [cnf_get_clauses] makes them
    without an internal error.  The children of the gate are gates other
    than the gate itself, and [install_gate] leaves the type and the [temp]
    field of the gate alone. *)
Theorem cnf_normalize_translatable (ops : BCOps) (this : nat) (notless : bool)
    (bc bc' : BC) (g : Gate) :
  gates bc !! this = Some g ->
  (forall c, c ∈ child_gates g -> c <> this /\ is_Some (gates bc !! c)) ->
  (forall a, fixes this (install_gate ops a)) ->
  cnf_normalize ops this bc = Ok (true, bc') ->
  exists g', gates bc' !! this = Some g' /\
    (in_pstack g' = true \/ type g' = tDELETED \/
     (cnf_form (gates bc') g' /\
      (exists n, cnf_count_clauses (gates bc') this notless = Ok n) /\
      cnf_get_clauses (gates bc') this notless <> Err InternalError)).
Proof.
  intros Hg Hch Hinstall Hrun. change (cnf_settled this notless bc').
  unfold cnf_normalize in Hrun.
  rewrite (st_bind_run _ _ _ _ _ (gate_run bc this g Hg)) in Hrun.
  destruct (is_type (type g) tDELETED) eqn:Edel.
  { injection Hrun as <-. exists g. split; [exact Hg|]. right. left.
    apply is_type_true. exact Edel. }
  apply is_type_false in Edel.
  pose proof (count_children_of_run this bc g Hg) as Hcount.
  destruct (type g) eqn:Ety.
  - (* EQUIV *)
    unfold cnf_normalize_EQUIV in Hrun.
    rewrite (st_bind_run _ _ _ _ _ Hcount) in Hrun.
    destruct (count_children g =? 1).
    { unfold conflicts_with in Hrun.
      rewrite (st_bind_run _ _ bc bc (determined g && negb (eqb (value g) true)))
        in Hrun by (rewrite (st_bind_run _ _ _ _ _ (gate_run bc this g Hg)); reflexivity).
      destruct (determined g && negb (eqb (value g) true)) eqn:Econf;
        [injection Hrun as E; discriminate E|].
      destruct (transform_into_constant_run this true bc g Hg)
        as (s1 & H1 & Ht1 & _); [|exact Hch|].
      { intros Hd. rewrite Hd in Econf. destruct (value g); [reflexivity|discriminate]. }
      rewrite (st_bind_run _ _ _ _ _ H1) in Hrun. injection Hrun as <-.
      eapply (csettled_const _ _ _ _ true); [exact Ht1| | |]; reflexivity. }
    destruct (count_children g =? 2) eqn:E2.
    { injection Hrun as <-. apply Z.eqb_eq in E2.
      eapply csettled_binary; [exact Hg | rewrite Ety; tauto | exact E2]. }
    (* g := EQUIV(c1,...,cn) --> g := OR(AND(c1,...,cn),AND(~c1,...,~cn)) *)
    do 7 (apply st_bind_Ok in Hrun; destruct Hrun as (? & ? & _ & Hrun)).
    apply st_bind_Ok in Hrun. destruct Hrun as (u & sx & Hm & Hrun).
    apply st_bind_Ok in Hrun. destruct Hrun as (u1 & s1 & H1 & Hrun).
    apply st_bind_Ok in Hrun. destruct Hrun as (u2 & s2 & H2 & Hrun).
    apply st_bind_Ok in Hrun. destruct Hrun as (u3 & s3 & H3 & Hrun).
    injection Hrun as <-. apply modify_Ok in Hm. destruct Hm as (gx & Hgx & ->).
    eapply (csettled_retyped_kept this notless _ s3 gx tOR); [tauto|].
    eapply gate_kept_trans; [eapply fixes_remove_all_children, H1|].
    eapply gate_kept_trans; [eapply fixes_add_child, H2 | eapply fixes_add_child, H3].
  - (* OR *)
    unfold cnf_normalize_OR_AND in Hrun.
    rewrite (st_bind_run _ _ _ _ _ Hcount) in Hrun.
    destruct (count_children g =? 1).
    + eapply csettled_retyped; eassumption.
    + injection Hrun as <-.
      eapply csettled_plain; [exact Hg | rewrite Ety; tauto].
  - (* AND *)
    unfold cnf_normalize_OR_AND in Hrun.
    rewrite (st_bind_run _ _ _ _ _ Hcount) in Hrun.
    destruct (count_children g =? 1).
    + eapply csettled_retyped; eassumption.
    + injection Hrun as <-.
      eapply csettled_plain; [exact Hg | rewrite Ety; tauto].
  - (* EVEN *)
    unfold cnf_normalize_EVEN in Hrun.
    rewrite (st_bind_run _ _ _ _ _ Hcount) in Hrun.
    destruct (count_children g =? 1); [eapply csettled_retyped; eassumption|].
    destruct (count_children g =? 2) eqn:E2.
    { injection Hrun as <-. apply Z.eqb_eq in E2.
      eapply csettled_binary; [exact Hg | rewrite Ety; tauto | exact E2]. }
    (* EVEN(g1,...,gn) == NOT(ODD(g1,...,gn)) *)
    do 4 (apply st_bind_Ok in Hrun; destruct Hrun as (? & ? & _ & Hrun)).
    apply st_bind_Ok in Hrun. destruct Hrun as (u & sx & Hp & Hrun).
    injection Hrun as <-. eapply csettled_stack; eassumption.
  - (* ODD *)
    unfold cnf_normalize_ODD in Hrun.
    rewrite (st_bind_run _ _ _ _ _ Hcount) in Hrun.
    destruct (count_children g =? 1); [eapply csettled_retyped; eassumption|].
    destruct (count_children g =? 2) eqn:E2.
    { injection Hrun as <-. apply Z.eqb_eq in E2.
      eapply csettled_binary; [exact Hg | rewrite Ety; tauto | exact E2]. }
    (* ODD(g1,...,gn) = ODD(g1,ODD(g2,...,gn)) *)
    apply st_bind_Ok in Hrun. destruct Hrun as (new_odd & s1 & H1 & Hrun).
    apply st_bind_Ok in Hrun. destruct Hrun as (g1 & s1' & Hg1 & Hrun).
    apply gate_Ok in Hg1. destruct Hg1 as [-> Hg1].
    destruct (children g1) as [|ca rest]; [discriminate Hrun|].
    apply st_bind_Ok in Hrun. destruct Hrun as (u2 & s2 & H2 & Hrun).
    apply st_bind_Ok in Hrun. destruct Hrun as (u3 & s3 & H3 & Hrun).
    apply st_bind_Ok in Hrun. destruct Hrun as (u4 & s4 & H4 & Hrun).
    apply st_bind_Ok in Hrun. destruct Hrun as (u5 & s5 & H5 & Hrun).
    injection Hrun as <-.
    assert (K : gate_kept this bc s5).
    { eapply gate_kept_trans; [eapply fixes_install_new, H1; exact Hinstall|].
      eapply gate_kept_trans; [eapply fixes_delete_assoc, H2|].
      eapply gate_kept_trans; [eapply fixes_hand_children_over, H3|].
      eapply gate_kept_trans; [eapply fixes_add_child, H4 | eapply fixes_add_child, H5]. }
    destruct (hand_children_over_empty _ _ _ _ _ H3) as (g3 & Hg3 & Hnil).
    destruct (add_child_length _ _ _ _ _ _ H4 Hg3) as (g4 & Hg4 & Hlen4).
    destruct (add_child_length _ _ _ _ _ _ H5 Hg4) as (g5 & Hg5 & Hlen5).
    destruct (K g Hg) as (g5' & Hg5' & Et5 & _).
    rewrite Hg5 in Hg5'. injection Hg5' as <-.
    eapply csettled_binary; [exact Hg5 | rewrite Et5, Ety; tauto |].
    unfold count_children. rewrite Hlen5, Hlen4, Hnil. reflexivity.
  - (* ITE *)
    injection Hrun as <-.
    eapply csettled_plain; [exact Hg | rewrite Ety; tauto].
  - (* NOT *)
    unfold cnf_normalize_NOT in Hrun.
    apply st_bind_Ok in Hrun. destruct Hrun as (child & s0 & Hchild & Hrun).
    pose proof (readonly_child_at this 0 _ _ _ Hchild) as ->.
    assert (Hnth : nth_child g 0 = Ok child).
    { unfold child_at in Hchild.
      rewrite (st_bind_run _ _ _ _ _ (gate_run bc this g Hg)) in Hchild.
      destruct (nth_child g 0) as [c|e]; cbn in Hchild; [|discriminate Hchild].
      injection Hchild as <-. reflexivity. }
    assert (Hcin : child ∈ child_gates g).
    { unfold nth_child in Hnth.
      destruct (child_gates g !! 0%nat) as [c|] eqn:E; [|discriminate Hnth].
      injection Hnth as <-. eapply list_elem_of_lookup_2. exact E. }
    destruct (Hch child Hcin) as (Hne & cg & Hcg).
    rewrite (st_bind_run _ _ _ _ _ (gate_run bc this g Hg)) in Hrun.
    rewrite (st_bind_run _ _ _ _ _ (gate_run bc child cg Hcg)) in Hrun.
    destruct (determined g) eqn:Hd.
    + destruct (determined cg && eqb (value cg) (value g));
        [injection Hrun as E; discriminate E|].
      destruct (modify_this_run child bc cg (set_value (negb (value g))) Hcg)
        as (s1 & H1 & Hc1 & _).
      assert (Hg1' : gates s1 !! this = Some g).
      { rewrite (modify_run bc child cg _ Hcg) in H1. injection H1 as <-.
        cbn. rewrite lookup_insert_ne by auto. exact Hg. }
      rewrite (st_bind_run _ _ _ _ _ H1) in Hrun.
      destruct (add_in_pstack_run this child s1 Hne ltac:(eauto))
        as (s2 & H2 & Hsame2 & Hk2).
      rewrite (st_bind_run _ _ _ _ _ H2) in Hrun.
      rewrite Hg1' in Hsame2.
      destruct (transform_into_constant_run this (value g) s2 g Hsame2)
        as (s3 & H3 & Ht3 & _).
      { auto. }
      { intros c Hc. destruct (Hch c Hc) as (Hcne & Hcs). split; [exact Hcne|].
        eapply others_kept_is_Some; [exact Hk2 | exact Hcne |].
        rewrite (modify_run bc child cg _ Hcg) in H1. injection H1 as <-. cbn.
        rewrite lookup_insert. case_decide; [eauto | exact Hcs]. }
      rewrite (st_bind_run _ _ _ _ _ H3) in Hrun. injection Hrun as <-.
      eapply (csettled_const _ _ _ _ (value g)); [exact Ht3| | |]; reflexivity.
    + destruct (is_type (type cg) tNOT) eqn:Ecn.
      * (* g := ~~h --> g := h *)
        do 4 (apply st_bind_Ok in Hrun; destruct Hrun as (? & ? & _ & Hrun)).
        apply st_bind_Ok in Hrun. destruct Hrun as (u & sx & Hm & Hrun).
        injection Hrun as <-. eapply csettled_deleted. exact Hm.
      * injection Hrun as <-. eapply csettled_form; [exact Hg|].
        unfold cnf_form. rewrite Ety. split_and!; try discriminate.
        -- intros _. split; [exact Hd|]. exists child, cg.
           split; [exact Hnth|]. split; [exact Hcg|].
           apply is_type_false. exact Ecn.
        -- intros [E|[E|E]]; discriminate E.
  - (* TRUE *)
    unfold cnf_normalize_constant, conflicts_with in Hrun.
    rewrite (st_bind_run _ _ bc bc (determined g && negb (eqb (value g) true)))
      in Hrun by (rewrite (st_bind_run _ _ _ _ _ (gate_run bc this g Hg)); reflexivity).
    destruct (determined g && negb (eqb (value g) true));
      [injection Hrun as E; discriminate E|].
    destruct (modify_this_run this bc g (set_value true) Hg) as (s1 & H1 & Ht1 & _).
    rewrite (st_bind_run _ _ _ _ _ H1) in Hrun. injection Hrun as <-.
    eapply (csettled_const _ _ _ _ true); [exact Ht1|cbn; exact Ety| |]; reflexivity.
  - (* FALSE *)
    unfold cnf_normalize_constant, conflicts_with in Hrun.
    rewrite (st_bind_run _ _ bc bc (determined g && negb (eqb (value g) false)))
      in Hrun by (rewrite (st_bind_run _ _ _ _ _ (gate_run bc this g Hg)); reflexivity).
    destruct (determined g && negb (eqb (value g) false));
      [injection Hrun as E; discriminate E|].
    destruct (modify_this_run this bc g (set_value false) Hg) as (s1 & H1 & Ht1 & _).
    rewrite (st_bind_run _ _ _ _ _ H1) in Hrun. injection Hrun as <-.
    eapply (csettled_const _ _ _ _ false); [exact Ht1|cbn; exact Ety| |]; reflexivity.
  - (* VAR *)
    injection Hrun as <-.
    eapply csettled_plain; [exact Hg | rewrite Ety; tauto].
  - (* THRESHOLD *)
    unfold cnf_normalize_THRESHOLD in Hrun.
    rewrite (st_bind_run _ _ _ _ _ Hcount) in Hrun.
    rewrite (st_bind_run _ _ _ _ _ (gate_run bc this g Hg)) in Hrun.
    destruct (count_children g <? tmin g);
      [eapply csettled_constant; eassumption|].
    assert (Hmid : exists s2 g2,
              (if count_children g <? tmax g
               then modify this (set_tmax (count_children g)) else skip) bc
              = Ok (tt, s2) /\
              gates s2 !! this = Some g2 /\
              (forall c, c ∈ child_gates g2 -> c <> this /\ is_Some (gates s2 !! c))).
    { destruct (count_children g <? tmax g).
      - destruct (modify_this_run this bc g (set_tmax (count_children g)) Hg)
          as (s2 & H2 & Ht2 & Hk2).
        exists s2. eexists. split; [exact H2|]. split; [exact Ht2|].
        intros c Hc. destruct (Hch c Hc) as (Hcne & Hcs). split; [exact Hcne|].
        eapply others_kept_is_Some; eassumption.
      - exists bc, g. split; [reflexivity|]. auto. }
    destruct Hmid as (s2 & g2 & H2 & Hg2 & Hch2).
    rewrite (st_bind_run _ _ _ _ _ H2) in Hrun.
    rewrite (st_bind_run _ _ _ _ _ (gate_run s2 this g2 Hg2)) in Hrun.
    destruct (tmax g2 <? tmin g2); [eapply csettled_constant; eassumption|].
    destruct ((count_children g =? 1) && (tmin g2 =? 0) && (tmax g2 =? 1));
      [eapply csettled_constant; eassumption|].
    destruct ((count_children g =? 1) && (tmin g2 =? 0) && (tmax g2 =? 0));
      [eapply csettled_retyped; eassumption|].
    destruct ((count_children g =? 1) && (tmin g2 =? 1) && (tmax g2 =? 1));
      [eapply csettled_retyped; eassumption|].
    destruct (count_children g =? 1); [discriminate Hrun|].
    destruct ((tmin g2 =? 0) && (tmax g2 =? count_children g));
      [eapply csettled_constant; eassumption|].
    destruct ((tmin g2 =? 1) && (tmax g2 =? count_children g));
      [eapply csettled_retyped; eassumption|].
    destruct (negb ((tmax g2 <=? 2) || (count_children g <=? u32 (tmin g2 + 2)) ||
                    ((tmin g2 <=? 2) && (count_children g <=? u32 (tmax g2 + 2))))).
    { (* the adder construction *)
      do 6 (apply st_bind_Ok in Hrun; destruct Hrun as (? & ? & _ & Hrun)).
      apply st_bind_Ok in Hrun. destruct Hrun as (u & sx & Hm & Hrun).
      apply st_bind_Ok in Hrun. destruct Hrun as (u1 & s3 & H3 & Hrun).
      apply st_bind_Ok in Hrun. destruct Hrun as (u4 & s4 & H4 & Hrun).
      injection Hrun as <-. apply modify_Ok in Hm. destruct Hm as (gx & Hgx & ->).
      eapply (csettled_retyped_kept this notless _ s4 gx tAND); [tauto|].
      eapply gate_kept_trans; [eapply fixes_add_child, H3 | eapply fixes_add_child, H4]. }
    destruct (tmin g2 =? 0).
    { (* [0,k](g1,...,gn) = ~(>= k+1)(g1,...,gn) *)
      do 5 (apply st_bind_Ok in Hrun; destruct Hrun as (? & ? & _ & Hrun)).
      apply st_bind_Ok in Hrun. destruct Hrun as (u & sx & Hp & Hrun).
      injection Hrun as <-. eapply csettled_stack; eassumption. }
    destruct (tmax g2 =? count_children g);
      [eapply csettled_retyped; eassumption|].
    (* [l,u](g1,...,gn) = (>= l)(g1,...,gn) & ~(>= u+1)(g1,...,gn) *)
    do 12 (apply st_bind_Ok in Hrun; destruct Hrun as (? & ? & _ & Hrun)).
    apply st_bind_Ok in Hrun. destruct Hrun as (u & sx & Hm & Hrun).
    injection Hrun as <-. apply modify_Ok in Hm. destruct Hm as (gx & Hgx & ->).
    eapply (csettled_retyped_kept this notless _ _ gx tAND); [tauto|].
    apply gate_kept_refl.
  - (* ATLEAST *)
    unfold cnf_normalize_ATLEAST in Hrun.
    rewrite (st_bind_run _ _ _ _ _ Hcount) in Hrun.
    rewrite (st_bind_run _ _ _ _ _ (gate_run bc this g Hg)) in Hrun.
    destruct (tmin g =? 0); [eapply csettled_constant; eassumption|].
    destruct (count_children g <? tmin g); [eapply csettled_constant; eassumption|].
    destruct (tmin g =? 1) eqn:E1; [eapply csettled_retyped; eassumption|].
    destruct (tmin g =? count_children g); [eapply csettled_retyped; eassumption|].
    (* (>= l)(g1,...,gn) == (g1 & (>= l-1)(g2,...,gn)) | (>= l)(g2,...,gn) *)
    apply st_bind_Ok in Hrun. destruct Hrun as (array & s1 & _ & Hrun).
    apply st_bind_Ok in Hrun. destruct Hrun as (old & s2 & Hold & Hrun).
    do 2 (apply st_bind_Ok in Hrun; destruct Hrun as (? & ? & _ & Hrun)).
    apply st_bind_Ok in Hrun. destruct Hrun as (u5 & s5 & Hm & Hrun).
    apply st_bind_Ok in Hrun. destruct Hrun as (u6 & s6 & Hrounds & Hrun).
    apply st_bind_Ok in Hrun. destruct Hrun as (u7 & s7 & Hclean & Hrun).
    injection Hrun as <-.
    apply modify_Ok in Hm. destruct Hm as (gx & Hgx & ->).
    eapply (atleast_first_round ops this Hinstall) in Hrounds;
      [ | eapply cell_alter; exact Hold | exact E1
        | cbn; apply lookup_insert_eq | reflexivity ].
    destruct Hrounds as (g6 & Hg6 & Hv6 & Hty6).
    pose proof (spares_for_each this _ _ (spares_cleanup this) _ _ _ _ Hg6 Hv6 Hclean)
      as K.
    destruct (K _ Hg6) as (g7 & Hg7 & Et7 & _).
    eapply csettled_plain; [exact Hg7|]. rewrite Et7. tauto.
  - (* REF *)
    unfold cnf_normalize_REF in Hrun.
    do 2 (apply st_bind_Ok in Hrun; destruct Hrun as (? & ? & _ & Hrun)).
    apply st_bind_Ok in Hrun. destruct Hrun as (ok & s3 & _ & Hrun).
    destruct ok; cbn [negb] in Hrun; [|injection Hrun as E; discriminate E].
    do 3 (apply st_bind_Ok in Hrun; destruct Hrun as (? & ? & _ & Hrun)).
    apply st_bind_Ok in Hrun. destruct Hrun as (u & sx & Hm & Hrun).
    injection Hrun as <-. eapply csettled_deleted. exact Hm.
  - (* UNDEF *)
    discriminate Hrun.
  - (* DELETED *)
    congruence.
Qed.

(** [ex_install_gate] numbers the gate and puts it in the list of gates. *)
Lemma fixes_ex_install_gate (this a : nat) : fixes this (ex_install_gate a).
Proof.
  unfold ex_install_gate.
  apply fixes_bind; [apply fixes_readonly; intros s r s' [= _ <-]; reflexivity|].
  intros n. apply fixes_bind.
  { unfold st_assert. destruct (n <? UINT_MAX); [apply fixes_ret | apply fixes_fail]. }
  intros _. apply fixes_bind; [apply fixes_modify; intros _ g0; split; reflexivity|].
  intros _ s r s' [= _ <-]. apply gate_kept_gates. reflexivity.
Qed.

(** The theorem at ATLEAST[2](x, y, z) of [ex_atleast_two], which becomes
    an OR gate over two new gates. *)
Lemma cnf_normalize_translatable_witness :
  exists g',
    gates ex_atleast_two_after !! 3%nat = Some g' /\
    (in_pstack g' = true \/ type g' = tDELETED \/
     (cnf_form (gates ex_atleast_two_after) g' /\
      (exists n, cnf_count_clauses (gates ex_atleast_two_after) 3 true = Ok n) /\
      cnf_get_clauses (gates ex_atleast_two_after) 3 true <> Err InternalError)).
Proof.
  apply (cnf_normalize_translatable ex_ops 3 true ex_atleast_two _
           (set_tmin 2 (set_handles [NameHandle "a"]
              (gate_of tATLEAST 3 [(0%nat, 0%nat); (1%nat, 1%nat); (2%nat, 2%nat)])))).
  - reflexivity.
  - intros c Hc. cbv in Hc.
    repeat (apply elem_of_cons in Hc; destruct Hc as [->|Hc];
            [split; [lia|]; eexists; reflexivity|]).
    apply elem_of_nil in Hc. destruct Hc.
  - intros a. apply fixes_ex_install_gate.
  - vm_compute. reflexivity.
Defined.

(** ** Children that occur twice or with their negation:
       [Gate::remove_g_not_g_and_duplicate_children] *)

Lemma zeros_kept_refl (s : BC) : zeros_kept s s.
Proof. intros a ag Ha Ht. eauto. Qed.

Lemma zeros_kept_trans (s1 s2 s3 : BC) :
  zeros_kept s1 s2 -> zeros_kept s2 s3 -> zeros_kept s1 s3.
Proof.
  intros H12 H23 a ag Ha Ht. destruct (H12 a ag Ha Ht) as (ag2 & Ha2 & Ht2).
  eapply H23; eassumption.
Qed.

(** The gates other than [this] have their type and their children in [s]
    as in [bc0]. *)
Lemma marks_kept_not_child (this : nat) (bc0 s : BC) (c : nat) (cg : Gate) :
  marks_kept this bc0 s -> c <> this -> gates bc0 !! c = Some cg ->
  exists cg', gates s !! c = Some cg' /\ type cg' = type cg /\
              children cg' = children cg /\ determined cg' = determined cg.
Proof.
  intros Hk Hne Hc. destruct (Hk c cg Hne Hc) as (cg' & Hc' & S).
  apply same_but_marks_fields in S. exists cg'. tauto.
Qed.

(** [ca->child->temp = 0] at a gate other than [this]. *)
Lemma clear_mark_step (this a : nat) (s : BC) (ag : Gate) :
  a <> this -> gates s !! a = Some ag ->
  exists s', modify a (set_temp 0) s = Ok (tt, s') /\
    gates s' !! a = Some (set_temp 0 ag) /\
    gates s' !! this = gates s !! this /\ marks_kept this s s' /\ zeros_kept s s'.
Proof.
  intros Hne Ha.
  destruct (modify_marks this a s ag (set_temp 0) Hne Ha (same_but_marks_temp ag 0))
    as (s' & H & Ha' & Hfr & Hk).
  exists s'. split; [exact H|]. split; [exact Ha'|].
  split; [apply Hfr; auto|]. split; [exact Hk|].
  intros b bg Hb Ht. destruct (decide (b = a)) as [->|Hba].
  - eexists. split; [exact Ha' | reflexivity].
  - rewrite <- (Hfr b Hba) in Hb. eauto.
Qed.

(** The loops that clear the marks of the children and of the gates under
    the NOT gates among them. *)
Lemma clear_temps_loop (this : nat) (bc0 : BC) (cs : list nat) :
  scope_ready this (gates bc0) cs ->
  forall (l : list (nat * nat)) (s : BC),
  marks_kept this bc0 s ->
  (forall c, c ∈ map snd l -> c ∈ cs) ->
  exists s',
    for_each l (fun ca =>
      modify (snd ca) (set_temp 0);;
      let* cg := gate (snd ca) in
      if is_type (type cg) tNOT then
        let* grandchild := child_at (snd ca) 0 in
        modify grandchild (set_temp 0)
      else skip) s = Ok (tt, s') /\
    gates s' !! this = gates s !! this /\ marks_kept this s s' /\
    zeros_kept s s' /\
    (forall a, mark_scope (gates bc0) (map snd l) a ->
       exists ag, gates s' !! a = Some ag /\ temp ag = 0).
Proof.
  intros Hready. induction l as [|[e c] l IH]; intros s Hk Hin.
  - exists s. split; [reflexivity|]. split; [reflexivity|].
    split; [apply marks_kept_refl|]. split; [apply zeros_kept_refl|].
    intros a [Ha | (c & Hc & _)]; cbn in *; apply elem_of_nil in Ha || apply elem_of_nil in Hc;
      contradiction.
  - destruct (Hready c) as (Hne & cg0 & Hcg0 & Hnot).
    { apply Hin. cbn. apply elem_of_cons. auto. }
    destruct (marks_kept_not_child this bc0 s c cg0 Hk Hne Hcg0)
      as (cg & Hcg & Ety & Ech & _).
    destruct (clear_mark_step this c s cg Hne Hcg) as (s1 & H1 & Hc1 & Ht1 & Hk1 & Hz1).
    (* the gate under a NOT child *)
    assert (Hgrand : exists s2,
              (let* cg := gate c in
               if is_type (type cg) tNOT then
                 let* grandchild := child_at c 0 in
                 modify grandchild (set_temp 0)
               else skip) s1 = Ok (tt, s2) /\
              gates s2 !! this = gates s1 !! this /\ marks_kept this s1 s2 /\
              zeros_kept s1 s2 /\
              (forall a, not_child (gates bc0) c = Some a ->
                 exists ag, gates s2 !! a = Some ag /\ temp ag = 0)).
    { rewrite (st_bind_run _ _ _ _ _ (gate_run s1 c _ Hc1)).
      cbn [type set_temp]. unfold not_child. rewrite Hcg0, <- Ety.
      destruct (is_type (type cg) tNOT) eqn:En.
      - apply is_type_true in En. rewrite Ety in En.
        destruct (Hnot En) as (gc & Hgc & Hgne & Hgs).
        unfold not_child in Hgc. rewrite Hcg0, En in Hgc.
        rewrite (proj2 (is_type_true _ _) eq_refl) in Hgc.
        rewrite (st_bind_run _ _ s1 s1 gc).
        2:{ eapply child_at_run; [exact Hc1|]. unfold child_gates. cbn [children set_temp].
            rewrite Ech. exact Hgc. }
        assert (Hgs1 : is_Some (gates s1 !! gc)).
        { eapply marks_kept_is_Some; [exact Hk1 | exact Hgne |].
          eapply marks_kept_is_Some; eassumption. }
        destruct Hgs1 as (gg & Hgg).
        destruct (clear_mark_step this gc s1 gg Hgne Hgg)
          as (s2 & H2 & Hg2 & Ht2 & Hk2 & Hz2).
        exists s2. split; [exact H2|]. split; [exact Ht2|]. split; [exact Hk2|].
        split; [exact Hz2|]. intros a Ha. rewrite Hgc in Ha. injection Ha as <-.
        eexists. split; [exact Hg2 | reflexivity].
      - exists s1. split; [reflexivity|]. split; [reflexivity|].
        split; [apply marks_kept_refl|]. split; [apply zeros_kept_refl|].
        intros a Ha. discriminate Ha. }
    destruct Hgrand as (s2 & H2 & Ht2 & Hk2 & Hz2 & Hgc2).
    destruct (IH s2) as (s' & Hrun & Ht' & Hk' & Hz' & Hzero).
    { eapply marks_kept_trans; [exact Hk|]. eapply marks_kept_trans; eassumption. }
    { intros c' Hc'. apply Hin. cbn. apply elem_of_cons. auto. }
    exists s'. rewrite for_each_cons. cbn [snd]. rewrite st_bind_assoc.
    rewrite (st_bind_run _ _ _ _ _ H1). rewrite (st_bind_run _ _ _ _ _ H2).
    split; [exact Hrun|]. split; [congruence|].
    split; [eapply marks_kept_trans; [exact Hk1|]; eapply marks_kept_trans; eassumption|].
    split; [eapply zeros_kept_trans; [exact Hz1|]; eapply zeros_kept_trans; eassumption|].
    intros a Ha.
    assert (Hc2 : exists ag, gates s2 !! c = Some ag /\ temp ag = 0)
      by (eapply Hz2; [exact Hc1 | reflexivity]).
    destruct Ha as [Ha | (c' & Hc' & Hnc)]; cbn in Ha || cbn in Hc'.
    + apply elem_of_cons in Ha. destruct Ha as [-> | Ha].
      * destruct Hc2 as (ag & Hag & Hz). eapply Hz'; eassumption.
      * apply Hzero. left. exact Ha.
    + apply elem_of_cons in Hc'. destruct Hc' as [-> | Hc'].
      * destruct (Hgc2 a Hnc) as (ag & Hag & Hz). eapply Hz'; eassumption.
      * apply Hzero. right. eauto.
Qed.

Lemma loop_cons {X A R : Type} (x : X) (l : list X) (a : A) (body : A -> X -> M (A + R)) :
  loop (x :: l) a body =
  (let* f := body a x in
   match f with
   | inl a' => loop l a' body
   | inr r => st_ret (inr r)
   end).
Proof. reflexivity. Qed.

Lemma undetermined_snoc (hp : heap) (K : list (nat * nat)) (e c : nat) :
  undetermined_of hp (map snd (K ++ [(e, c)])) =
  undetermined_of hp (map snd K) ++ (if det_of hp c then [] else [c]).
Proof.
  unfold undetermined_of. rewrite map_app, List.filter_app. cbn.
  destruct (det_of hp c); reflexivity.
Qed.

Lemma undetermined_child (hp : heap) (cs : list nat) (a : nat) :
  a ∈ undetermined_of hp cs <-> a ∈ cs /\ det_of hp a = false.
Proof.
  unfold undetermined_of. rewrite !list_elem_of_In, List.filter_In.
  rewrite negb_true_iff. reflexivity.
Qed.

Lemma scope_other (this : nat) (hp : heap) (cs : list nat) (a : nat) :
  scope_ready this hp cs -> mark_scope hp cs a -> a <> this /\ is_Some (hp !! a).
Proof.
  intros Hready [Ha | (n & Hn & Hnc)].
  - destruct (Hready a Ha) as (Hne & cg & Hcg & _). eauto.
  - destruct (Hready n Hn) as (_ & ng & Hng & Hnn).
    pose proof Hnc as Hnc'. unfold not_child in Hnc'. rewrite Hng in Hnc'.
    destruct (is_type (type ng) tNOT) eqn:En; [|discriminate Hnc'].
    apply is_type_true in En. destruct (Hnn En) as (gc & Hgc & Hgne & Hgs).
    rewrite Hnc in Hgc. injection Hgc as <-. auto.
Qed.

(** The marks after an undetermined child was seen for the first time. *)
Lemma scan_marks_seen (bc0 : BC) (cs : list nat) (K : list (nat * nat)) (s s' : BC)
    (e c : nat) (cg c1 : Gate) :
  scan_marks bc0 cs K s ->
  gates s !! c = Some cg -> temp cg <> 1 -> temp cg <> 2 ->
  det_of (gates bc0) c = false ->
  gates s' !! c = Some c1 -> temp c1 = 1 ->
  (forall gc, not_child (gates bc0) c = Some gc ->
     gc <> c /\ (gc ∉ undetermined_of (gates bc0) (map snd K)) /\
     exists g2, gates s' !! gc = Some g2 /\ temp g2 = 2) ->
  (forall a, a <> c -> not_child (gates bc0) c <> Some a ->
     gates s' !! a = gates s !! a) ->
  scan_marks bc0 cs (K ++ [(e, c)]) s'.
Proof.
  intros Hmarks Hcg E1 E2 Hdc Hc1 Ht1 Hgc Hfr a Ha.
  destruct (Hmarks a Ha) as (ag & Hag & Ha1 & Ha2).
  rewrite undetermined_snoc, Hdc.
  destruct (decide (a = c)) as [->|Hac].
  - rewrite Hcg in Hag. injection Hag as <-.
    exists c1. split; [exact Hc1|]. split.
    + split; [intros _; apply elem_of_app; right; apply list_elem_of_singleton; reflexivity
             | intros _; exact Ht1].
    + split; [intros E; rewrite Ht1 in E; discriminate E|].
      intros (n & Hn & Hnc). exfalso. apply elem_of_app in Hn. destruct Hn as [Hn|Hn].
      * apply E2, Ha2. eauto.
      * apply list_elem_of_singleton in Hn. subst n.
        destruct (Hgc c Hnc) as (Hne & _). congruence.
  - destruct (decide (not_child (gates bc0) c = Some a)) as [Hnc|Hnc].
    + destruct (Hgc a Hnc) as (_ & HaK & g2 & Hg2 & Ht2).
      exists g2. split; [exact Hg2|]. split.
      * split; [intros E; rewrite Ht2 in E; discriminate E|].
        intros Hin. exfalso. apply elem_of_app in Hin. destruct Hin as [Hin|Hin];
          [contradiction|]. apply list_elem_of_singleton in Hin. contradiction.
      * split; [|intros _; exact Ht2]. intros _. exists c. split; [|exact Hnc].
        apply elem_of_app. right. apply list_elem_of_singleton. reflexivity.
    + exists ag. split; [rewrite (Hfr a Hac Hnc); exact Hag|]. split.
      * rewrite Ha1, elem_of_app, list_elem_of_singleton. tauto.
      * rewrite Ha2. split.
        -- intros (n & Hn & Hn'). exists n. split; [apply elem_of_app; auto | exact Hn'].
        -- intros (n & Hn & Hn'). exists n. split; [|exact Hn'].
           apply elem_of_app in Hn. destruct Hn as [Hn|Hn]; [exact Hn|].
           apply list_elem_of_singleton in Hn. subst n. contradiction.
Qed.

Section GNotGLoop.

Context (this : nat) (g0 : Gate) (bc0 : BC) (cs : list nat).

Hypothesis Hready : scope_ready this (gates bc0) cs.

(** The scan of [remove_g_not_g_and_duplicate_children]: [K] are the
    children that are kept so far, [R] the children to come. *)
Lemma g_not_g_loop :
  forall (R K : list (nat * nat)) (s : BC),
  gates s !! this = Some (set_children (K ++ R) g0) ->
  NoDup (map fst (K ++ R)) ->
  (forall c, c ∈ map snd (K ++ R) -> c ∈ cs) ->
  marks_kept this bc0 s ->
  scan_marks bc0 cs K s ->
  NoDup (undetermined_of (gates bc0) (map snd K)) ->
  exists r K' s',
    loop (R := unit) R tt (fun _ ca =>
      let '(e, child) := ca in
      let* cg := gate child in
      if determined cg then st_ret (inl tt)
      else if temp cg =? 2 then st_ret (inr tt)
      else if temp cg =? 1 then
        delete_assoc e this child;; st_ret (inl tt)
      else
        modify child (set_temp 1);;
        if is_type (type cg) tNOT then
          let* grandchild := child_at child 0 in
          let* gg := gate grandchild in
          if temp gg =? 1 then st_ret (inr tt)
          else modify grandchild (set_temp 2);; st_ret (inl tt)
        else st_ret (inl tt)) s = Ok (r, s') /\
    gates s' !! this = Some (set_children K' g0) /\
    marks_kept this s s' /\
    sublist K' (K ++ R) /\
    (forall x, x ∈ map snd (K ++ R) -> x ∈ map snd K') /\
    match r with
    | inl _ => NoDup (undetermined_of (gates bc0) (map snd K'))
    | inr _ => exists n a, n ∈ map snd K' /\ a ∈ map snd K' /\
                           not_child (gates bc0) n = Some a
    end.
Proof.
  induction R as [|[e c] R IH]; intros K s Hthis Hnd Hin Hk Hmarks Hund.
  - rewrite app_nil_r in *. exists (inl tt), K, s. split; [reflexivity|].
    split; [exact Hthis|]. split; [apply marks_kept_refl|].
    split; [reflexivity|]. split; [auto | exact Hund].
  - assert (Hc : c ∈ cs).
    { apply Hin. rewrite map_app. apply elem_of_app. right. cbn. apply elem_of_cons. auto. }
    destruct (Hready c Hc) as (Hne & cg0 & Hcg0 & Hnot).
    destruct (marks_kept_not_child this bc0 s c cg0 Hk Hne Hcg0)
      as (cg & Hcg & Ety & Ech & Edet).
    assert (Hd : det_of (gates bc0) c = determined cg)
      by (unfold det_of; rewrite Hcg0; auto).
    destruct (Hmarks c (or_introl Hc)) as (cg' & Hcg' & Hm1 & Hm2).
    rewrite Hcg in Hcg'. injection Hcg' as <-.
    assert (Hassoc : K ++ (e, c) :: R = (K ++ [(e, c)]) ++ R)
      by (rewrite <- app_assoc; reflexivity).
    assert (HeK : e ∉ map fst K).
    { rewrite map_app in Hnd. apply NoDup_app in Hnd. destruct Hnd as (_ & H12 & _).
      intros H. apply (H12 e H). cbn. apply elem_of_cons. auto. }
    rewrite loop_cons. cbv beta iota. rewrite st_bind_assoc.
    rewrite (st_bind_run _ _ _ _ _ (gate_run s c cg Hcg)).
    destruct (determined cg) eqn:Hdet.
    + (* a determined child is kept *)
      rewrite st_bind_ret.
      destruct (IH (K ++ [(e, c)]) s) as (r & K' & s' & Hrun & Hthis' & Hk' & Hsub & Hall & Hres).
      * rewrite <- Hassoc. exact Hthis.
      * rewrite <- Hassoc. exact Hnd.
      * intros x Hx. apply Hin. rewrite Hassoc. exact Hx.
      * exact Hk.
      * intros a Ha. destruct (Hmarks a Ha) as (ag & Hag & Ha1 & Ha2).
        exists ag. rewrite undetermined_snoc, Hd, app_nil_r. auto.
      * rewrite undetermined_snoc, Hd, app_nil_r. exact Hund.
      * exists r, K', s'. rewrite Hassoc. auto 10.
    + destruct (Z.eqb_spec (temp cg) 2) as [E2|E2].
      * (* the child is under a NOT child that was seen *)
        rewrite st_bind_ret.
        destruct (proj1 Hm2 E2) as (n & Hn & Hnc).
        apply undetermined_child in Hn. destruct Hn as [Hn _].
        exists (inr tt), (K ++ (e, c) :: R), s. split; [reflexivity|].
        split; [exact Hthis|]. split; [apply marks_kept_refl|].
        split; [reflexivity|]. split; [auto|].
        exists n, c. split; [|split; [|exact Hnc]]; rewrite map_app; apply elem_of_app.
        -- left. exact Hn.
        -- right. cbn. apply elem_of_cons. auto.
      * destruct (Z.eqb_spec (temp cg) 1) as [E1|E1].
        -- (* a duplicate child goes *)
           destruct (delete_child_step this c e s _ cg Hne Hthis Hcg)
             as (s1 & H1 & Hthis1 & Hc1 & Hfr1).
           cbn [children set_children] in Hthis1.
           rewrite (unlink_app e c K R HeK) in Hthis1.
           rewrite st_bind_assoc. rewrite (st_bind_run _ _ _ _ _ H1). rewrite st_bind_ret.
           assert (Hk1 : marks_kept this s s1).
           { eapply marks_kept_one; [exact Hcg | exact Hc1 | | exact Hfr1].
             apply same_but_marks_parents, same_but_marks_refl. }
           pose proof (proj1 Hm1 E1) as HcK.
           apply undetermined_child in HcK. destruct HcK as [HcK _].
           destruct (IH K s1) as (r & K' & s' & Hrun & Hthis' & Hk' & Hsub & Hall & Hres).
           ++ rewrite Hthis1. destruct g0; reflexivity.
           ++ rewrite map_app in Hnd |- *. cbn in Hnd.
              apply NoDup_app in Hnd. destruct Hnd as (Hn1 & Hn12 & Hn2).
              apply NoDup_cons in Hn2. destruct Hn2 as [_ Hn2].
              apply NoDup_app. split; [exact Hn1|]. split; [|exact Hn2].
              intros x Hx Hx2. apply (Hn12 x Hx). apply elem_of_cons. auto.
           ++ intros x Hx. apply Hin. rewrite map_app in Hx |- *.
              apply elem_of_app in Hx. apply elem_of_app. cbn. rewrite elem_of_cons. tauto.
           ++ eapply marks_kept_trans; eassumption.
           ++ intros a Ha. destruct (Hmarks a Ha) as (ag & Hag & Ha1 & Ha2).
              destruct (decide (a = c)) as [->|Hac].
              ** rewrite Hcg in Hag. injection Hag as <-. eexists. split; [exact Hc1|].
                 cbn [temp set_parents]. auto.
              ** exists ag. split; [|auto]. rewrite Hfr1; [exact Hag | | exact Hac].
                 destruct Ha as [Ha | (n & Hn & Hnc)].
                 --- apply (Hready a Ha).
                 --- destruct (Hready n Hn) as (_ & ng & Hng & Hnn).
                     unfold not_child in Hnc. rewrite Hng in Hnc.
                     destruct (is_type (type ng) tNOT) eqn:En; [|discriminate Hnc].
                     apply is_type_true in En. destruct (Hnn En) as (gc & Hgc & Hgne & _).
                     unfold not_child in Hgc. rewrite Hng in Hgc.
                     rewrite (proj2 (is_type_true _ _) En) in Hgc. congruence.
           ++ exact Hund.
           ++ exists r, K', s'. split; [exact Hrun|]. split; [exact Hthis'|].
              split; [eapply marks_kept_trans; eassumption|].
              split.
              { etransitivity; [exact Hsub|]. apply sublist_app; [reflexivity|].
                apply sublist_cons. reflexivity. }
              split; [|exact Hres].
              intros x Hx. apply Hall. rewrite map_app in Hx |- *.
              apply elem_of_app in Hx. apply elem_of_app. cbn in Hx.
              rewrite elem_of_cons in Hx. destruct Hx as [Hx | [-> | Hx]]; auto.
        -- (* the child is seen for the first time *)
           destruct (modify_marks this c s cg (set_temp 1) Hne Hcg
                       (same_but_marks_temp cg 1)) as (s1 & H1 & Hc1 & Hfr1 & Hk1).
           rewrite st_bind_assoc. rewrite (st_bind_run _ _ _ _ _ H1).
           assert (Hdc : det_of (gates bc0) c = false) by congruence.
           assert (Hthis1 : gates s1 !! this = Some (set_children (K ++ (e, c) :: R) g0))
             by (rewrite Hfr1 by auto; exact Hthis).
           assert (Hk01 : marks_kept this bc0 s1) by (eapply marks_kept_trans; eassumption).
           assert (HcK : c ∉ undetermined_of (gates bc0) (map snd K))
             by (intros H; apply E1, Hm1, H).
           assert (Hund1 : NoDup (undetermined_of (gates bc0) (map snd (K ++ [(e, c)])))).
           { rewrite undetermined_snoc, Hdc. apply NoDup_app. split; [exact Hund|].
             split; [|apply NoDup_singleton].
             intros x Hx Hx'. apply list_elem_of_singleton in Hx'. subst x. contradiction. }
           assert (Hcin : c ∈ map snd (K ++ (e, c) :: R)).
           { rewrite map_app. apply elem_of_app. right. cbn. apply elem_of_cons. auto. }
           destruct (is_type (type cg) tNOT) eqn:En.
           ++ (* a NOT child: the gate under it *)
              apply is_type_true in En. rewrite Ety in En.
              destruct (Hnot En) as (gc & Hgc & Hgne & Hgs).
              assert (Hat : child_at c 0 s1 = Ok (gc, s1)).
              { eapply child_at_run; [exact Hc1|]. unfold child_gates.
                cbn [children set_temp]. rewrite Ech.
                unfold not_child in Hgc. rewrite Hcg0 in Hgc.
                rewrite (proj2 (is_type_true _ _) En) in Hgc. exact Hgc. }
              rewrite st_bind_assoc. rewrite (st_bind_run _ _ _ _ _ Hat).
              destruct (Hmarks gc) as (gg0 & Hgg0 & Hg1 & Hg2).
              { right. eauto. }
              assert (Hgg1 : exists gg, gates s1 !! gc = Some gg /\
                               (temp gg = 1 ->
                                gc ∈ map snd (K ++ (e, c) :: R)) /\
                               (temp gg <> 1 -> gc <> c /\ gates s !! gc = Some gg /\
                               gc ∉ undetermined_of (gates bc0) (map snd K))).
              { destruct (decide (gc = c)) as [->|Hgc'].
                - eexists. split; [exact Hc1|]. cbn [temp set_temp].
                  split; [auto | intros H; contradiction].
                - exists gg0. split; [rewrite Hfr1 by auto; exact Hgg0|]. split.
                  + intros Et. apply Hg1, undetermined_child in Et. destruct Et as [Et _].
                    rewrite map_app. apply elem_of_app. auto.
                  + intros Et. split; [exact Hgc'|]. split; [exact Hgg0|].
                    intros H. apply Et, Hg1, H. }
              destruct Hgg1 as (gg & Hgg & Hseen & Hnew).
              rewrite st_bind_assoc.
              rewrite (st_bind_run _ _ _ _ _ (gate_run s1 gc gg Hgg)).
              destruct (Z.eqb_spec (temp gg) 1) as [Eg|Eg].
              ** (* the gate under the NOT child was seen as a child *)
                 rewrite st_bind_ret.
                 exists (inr tt), (K ++ (e, c) :: R), s1. split; [reflexivity|].
                 split; [exact Hthis1|]. split; [exact Hk1|].
                 split; [reflexivity|]. split; [auto|].
                 exists c, gc. auto.
              ** destruct (Hnew Eg) as (Hgc' & Hggs & HgK).
                 destruct (modify_marks this gc s1 gg (set_temp 2) Hgne Hgg
                             (same_but_marks_temp gg 2)) as (s2 & H2 & Hg2' & Hfr2 & Hk2).
                 rewrite st_bind_assoc.
                 rewrite (st_bind_run _ _ _ _ _ H2). rewrite st_bind_ret.
                 destruct (IH (K ++ [(e, c)]) s2)
                   as (r & K' & s' & Hrun & Hthis' & Hk' & Hsub & Hall & Hres).
                 --- rewrite <- Hassoc. rewrite Hfr2 by auto. exact Hthis1.
                 --- rewrite <- Hassoc. exact Hnd.
                 --- intros x Hx. apply Hin. rewrite Hassoc. exact Hx.
                 --- eapply marks_kept_trans; eassumption.
                 --- eapply (scan_marks_seen bc0 cs K s s2 e c cg (set_temp 1 cg));
                       [exact Hmarks | exact Hcg | exact E1 | exact E2 | exact Hdc
                       | rewrite Hfr2 by auto; exact Hc1 | reflexivity | | ].
                     +++ intros gc' Hgc''. rewrite Hgc in Hgc''. injection Hgc'' as <-.
                         split; [exact Hgc'|]. split; [exact HgK|].
                         eexists. split; [exact Hg2' | reflexivity].
                     +++ intros a Hac Hnc. rewrite Hfr2, Hfr1; [reflexivity | exact Hac |].
                         intros ->. apply Hnc. exact Hgc.
                 --- exact Hund1.
                 --- exists r, K', s'. rewrite Hassoc.
                     split; [exact Hrun|]. split; [exact Hthis'|].
                     split; [eapply marks_kept_trans; [exact Hk1|];
                             eapply marks_kept_trans; eassumption|].
                     auto.
           ++ (* another child *)
              rewrite st_bind_ret.
              apply is_type_false in En. rewrite Ety in En.
              assert (Hnc : not_child (gates bc0) c = None).
              { unfold not_child. rewrite Hcg0.
                rewrite (proj2 (is_type_false _ _) En). reflexivity. }
              destruct (IH (K ++ [(e, c)]) s1)
                as (r & K' & s' & Hrun & Hthis' & Hk' & Hsub & Hall & Hres).
              ** rewrite <- Hassoc. exact Hthis1.
              ** rewrite <- Hassoc. exact Hnd.
              ** intros x Hx. apply Hin. rewrite Hassoc. exact Hx.
              ** exact Hk01.
              ** eapply (scan_marks_seen bc0 cs K s s1 e c cg (set_temp 1 cg));
                   [exact Hmarks | exact Hcg | exact E1 | exact E2 | exact Hdc
                   | exact Hc1 | reflexivity | | ].
                 --- intros gc Hgc. rewrite Hnc in Hgc. discriminate Hgc.
                 --- intros a Hac _. apply Hfr1. exact Hac.
              ** exact Hund1.
              ** exists r, K', s'. rewrite Hassoc.
                 split; [exact Hrun|]. split; [exact Hthis'|].
                 split; [eapply marks_kept_trans; eassumption|]. auto.
Qed.

End GNotGLoop.

Lemma existsb_map_elem (sigma : nat -> bool) (cs : list nat) :
  existsb id (map sigma cs) = true <-> exists x, x ∈ cs /\ sigma x = true.
Proof.
  rewrite existsb_exists. split.
  - intros (v & Hv & Ht). apply in_map_iff in Hv. destruct Hv as (x & <- & Hx).
    exists x. split; [apply list_elem_of_In; exact Hx | exact Ht].
  - intros (x & Hx & Ht). exists (sigma x). split; [|exact Ht].
    apply in_map, list_elem_of_In, Hx.
Qed.

Lemma forallb_map_elem (f : bool -> bool) (sigma : nat -> bool) (cs : list nat) :
  forallb f (map sigma cs) = true <-> forall x, x ∈ cs -> f (sigma x) = true.
Proof.
  rewrite forallb_forall. split.
  - intros H x Hx. apply H, in_map, list_elem_of_In, Hx.
  - intros H v Hv. apply in_map_iff in Hv. destruct Hv as (x & <- & Hx).
    apply H, list_elem_of_In, Hx.
Qed.

(** The functions of OR, AND and EQUIV depend on the set of the children
    only. *)
Lemma set_function (sigma : nat -> bool) (t : GateType) (L U : Z) (cs cs' : list nat) :
  t = tOR \/ t = tAND \/ t = tEQUIV ->
  (forall x, x ∈ cs <-> x ∈ cs') ->
  gate_function t L U (map sigma cs) = gate_function t L U (map sigma cs').
Proof.
  intros Ht Hset.
  assert (Hall : forall f, forallb f (map sigma cs) = forallb f (map sigma cs')).
  { intros f. apply eq_true_iff_eq. rewrite !forallb_map_elem.
    split; intros H x Hx; apply H, Hset, Hx. }
  destruct Ht as [-> | [-> | ->]]; cbn; f_equal.
  - apply eq_true_iff_eq. rewrite !existsb_map_elem.
    split; intros (x & Hx & Hs); exists x; (split; [apply Hset, Hx | exact Hs]).
  - apply Hall.
  - rewrite !Hall. reflexivity.
Qed.

(** With a child and its negation among the children, OR is true, AND and
    EQUIV are false. *)
Lemma pair_function (sigma : nat -> bool) (t : GateType) (L U : Z) (cs : list nat)
    (n a : nat) :
  t = tOR \/ t = tAND \/ t = tEQUIV ->
  n ∈ cs -> a ∈ cs -> sigma n = negb (sigma a) ->
  gate_function t L U (map sigma cs) = Some (is_type t tOR).
Proof.
  intros Ht Hn Ha Hs.
  assert (Hnot : forall f, f = id \/ f = negb -> forallb f (map sigma cs) = false).
  { intros f Hf. apply not_true_is_false. rewrite forallb_map_elem. intros H.
    pose proof (H n Hn) as H1. pose proof (H a Ha) as H2. rewrite Hs in H1.
    destruct Hf as [-> | ->]; unfold id in *; destruct (sigma a); discriminate. }
  destruct Ht as [-> | [-> | ->]]; cbn; f_equal.
  - apply existsb_map_elem. destruct (sigma a) eqn:Ea.
    + exists a. auto.
    + exists n. rewrite Hs. auto.
  - apply (Hnot id). auto.
  - rewrite (Hnot id), (Hnot negb) by auto. reflexivity.
Qed.


